(* ===== verification/_CoqProject ===== *)
-Q . S2P
Prelude.v
Types.v
Digest.v
Lamport.v
Transaction.v
Event.v
Validator.v
State.v
Jmt.v
Mvcc.v
Conflict.v
Vm.v
Executor.v
Ledger.v
Dag.v
Consensus.v
Threshold.v
Mempool.v
Block.v
Cache.v
Page.v
Peer.v
Gossip.v
Transport.v
Bls.v
Node.v
Cluster.v
Rpc.v
App.v
TestTypes.v
TestStorage.v
TestExecution.v
TestCrypto.v
TestNetwork.v
TestNode.v
