(* ===== verification/Prelude.v ===== *)
(** * Ryther core: a verification of the node's state machine

    Ryther core (the crate under [src/]) is a blockchain node in Rust.
    Validators gossip events that form a DAG; a commit rule elects a leader
    per round and commits its event once later rounds support it; committed
    rounds are executed as batches of transactions on a multi-version store,
    and the result is finalised into a base state and a Merkle tree.  This
    library models those parts as Rocq functions and proves what makes them
    correct.  Each file translates one part; the names are the source's, with
    [Type::method] written [Type_method], and struct fields prefixed where two
    structs share a name.

    ** The parts, their files and their sources

    - [Prelude]: machine integers, bytes, and the pieces of the Rust standard
      library the code uses ([binary_search_by], stable sorting, lexicographic
      order), with the tactics and lemmas every file shares.
    - [Types] ([types/mod.rs]): addresses, validator ids, [U256] in four
      limbs, state keys; the class [Hashes] stands for SHA-256 and Keccak-256,
      which come from crates, and [HashesOk] for the length of a digest; [Hex]
      stands for the [hex] crate.
    - [Digest]: SHA-256 and Keccak-256 themselves, an instance of [Hashes] on
      which the program's tests are evaluated (it models no code of [src/]).
    - [Lamport] ([types/lamport.rs]): the logical clock, as a function and as
      threads interleaving on an atomic word (the step relation [mstep]).
    - [Transaction], [Event], [Validator], [State] ([types/transaction.rs],
      [event.rs], [validator.rs], [state.rs]): batches and their Merkle root,
      events and their checks, stakes and quorums, version chains.
    - [Jmt] ([storage/jmt.rs]): the hash-linked Merkle tree, refined to a
      functional binary tree.
    - [Mvcc], [Conflict] ([execution/mvcc.rs], [conflict.rs]): the versioned
      store and the validation of read sets.
    - [Vm], [Executor] ([evm/vm.rs], [execution/executor.rs]): the engine in a
      state and error monad, and the batch executor, proved against the class
      [Engine] of what it needs of an engine; [RytherVm_engine] discharges it.
    - [Ledger]: an account ledger, the abstract specification of executing a
      batch (it models no code of its own).
    - [Dag] ([dag/store.rs]), [Consensus] ([consensus/leader.rs],
      [consensus/commit.rs]): the event store with its indexes and
      reachability, leader election and the commit rule.
    - [Threshold] ([crypto/threshold.rs]): secret sharing, encryption and key
      generation, with the arithmetic as it is coded; the class [Rng] stands
      for the generator, which the schemes carry and advance.
    - [Mempool], [Block] ([node/mempool.rs], [types/block.rs],
      [node/blocks.rs]): the transaction pool, blocks, the hex codecs and the
      block store.
    - [Cache], [Page] ([storage/cache.rs], [storage/page.rs]): the LRU cache
      and the page store, each refined to an abstract one.  The operations of
      the page store take the outcomes of their system calls as an argument
      [Io], and the file keeps what is durable apart from what a crash loses.
    - [Peer], [Gossip] ([network/peer.rs], [network/message.rs],
      [network/gossip.rs]): the peer table and the gossip protocol.
    - [Transport] ([network/transport.rs]): the connection table, the framing
      of messages and the writer and reader tasks, as steps that interleave.
    - [Bls] ([crypto/bls.rs]): the signature wrapper over the class [Blst] of
      the [blst] crate's operations.
    - [Node] ([node/node.rs], [node/config.rs]): the composition: creating
      events, answering messages, advancing consensus, executing commits.
    - [Cluster]: a network of such nodes.  Messages that were sent form a set
      from which any one is delivered, at any time and any number of times; an
      adversary adds messages of its own (see the conventions).
    - [Rpc] ([node/rpc.rs]): JSON-RPC requests, the parsing of parameters, the
      handlers and their dispatch.
    - [App] ([node/node.rs]: [start], [stop] and the tasks; [bin/ryther.rs]):
      a live node, which is a node with its transport and tasks on one shared
      peer table, configuration files, and the phases of [main].
    - [TestTypes], [TestStorage], [TestExecution], [TestCrypto], [TestNetwork],
      [TestNode]: the unit tests of the sources with their fixtures, as boolean
      definitions that run the model.

    How they interact: [Node] calls [Gossip] (which owns the shared [Dag] and
    [Peer] state), [Consensus] over the [Dag], then [Executor] with [Vm] on an
    [Mvcc] store, which finalises into [Jmt].  [App] connects [Node] with
    [Transport]: messages that [Transport] reads are handled by [Node], whose
    answers [Transport] sends.  [Cluster] joins many nodes by a network that
    promises less than [Transport] does.  [Rpc] reads the [Block] store and the [Node].

    ** What the theorems show

    Execution: a batch runs as if serially, in sequence order
    ([Executor.execute_batch_serializable], [Conflict.validate_batch_spec]),
    each transaction on a snapshot ([Vm.execute_snapshot],
    [Mvcc.mvcc_write_read], [State.read_for_latest]); for plain calls the whole
    pipeline is the account ledger ([Ledger.batch_refines_ledger],
    [Vm.execute_call_spec]), and finalisation is independent of map order
    ([Mvcc.finalize_spec]).  Storage: the tree refines a map, its root depends
    on the contents only, proofs are complete and sound ([Jmt.jmt_put_refines],
    [Jmt.jmt_history_independent], [Jmt.jmt_proof_complete],
    [Jmt.jmt_proof_sound]); cache and page store refine their abstractions
    ([Cache.lru_cache_refines], [Page.page_store_refines]), and failures of the
    file and crashes stay contained ([Page.page_faults_contained]).  Consensus: the
    commit rule, consecutive commits and agreement without equivocation
    ([Consensus.check_commit_rule], [Consensus.try_advance_consecutive],
    [Consensus.commit_agreement]), election in proportion to stake
    ([Consensus.leader_election]), quorum intersection
    ([Validator.quorum_intersection]), reachability and the indexes
    ([Dag.can_reach_correct], [Dag.dag_indexes]); a whole network with delayed,
    lost and repeated messages and an adversary keeps one log, of which every
    node has executed a prefix that is final ([Cluster.cluster_refines_log]),
    and even next to validators that equivocate the honest ones make one event
    per round, which every node that has it has alike
    ([Cluster.cluster_no_equivocation]).  Network: messages cross a
    connection in order and unchanged, the reader's loop ends, a broadcast
    reaches every live connection ([Transport.transport_fifo],
    [Transport.reader_terminates], [Transport.broadcast_reaches_all]), the
    exchange of messages delivers an event, between handlers and over the wire
    ([Gossip.gossip_delivers], [App.event_crosses_network]), and what the
    tables hold ([Gossip.gossip_invariant], [Peer.peer_table_invariant],
    [Transport.connection_table_invariant]).  Node: created events are well
    formed, and what committed rounds do to the ledger
    ([Node.create_event_extends], [Node.commits_pay_once]).  Server: every method
    keeps its contract, stored blocks are found again, the requests that panic
    ([Rpc.responses_well_formed], [Rpc.stored_block_is_served],
    [Rpc.request_panics_iff]).  Arithmetic and cryptography:
    [Types.u256_arithmetic], [Transaction.merkle_root_binding],
    [Bls.aggregate_correct].  As a check of the model itself, it passes the 121
    unit tests of the program ([TestNode.unit_tests_pass]).  Some theorems state
    what the code does where it is not what one would want:
    [Node.node_never_commits], [Consensus.equivocation_splits],
    [Vm.self_transfer_mints], [Mempool.cheap_transaction_evicts_dear],
    [Threshold.even_shares_are_the_secret],
    [Threshold.payload_reveals_plaintext], [Page.flush_forgets_failed_write],
    [App.rpc_never_served],
    [App.reputation_stays_zero], [Transport.dead_link_is_kept],
    [Transport.connections_unlimited], [Rpc.get_logs_ignores_range].
    Witnesses, named after their theorem, evaluate it on concrete inputs.

    ** Conventions and bounds

    A [u64] is a [Z] and its arithmetic wraps modulo 2^64, as in a release
    build; statements that need a sum to fit say so.  A hash function is
    arbitrary; theorems that exclude collisions ask only that the finitely many
    values hashed in the situation at hand do not collide, and their witnesses
    use a concrete checksum.  Randomness, clock readings and the number of
    processors are arguments.  [HashMap] and [DashMap] are finite maps; where
    iteration order could matter the function takes the order as an argument
    and the theorem quantifies over it.  An operation is a function on the state
    behind its locks; the Lamport clock, which is lock-free, and the tasks of
    the transport and the node are modelled by interleaved steps.  Some steps
    are coarser than the code's waits: connecting to a peer, with all the
    attempts to reach the bootstrap peers ([TcpTransport_connect],
    [start_tasks]); a round of the block producer, whose messages are queued and
    sent after it ([producer_tick]); adding to the pool, which takes several
    locks in turn ([TransactionPool_add]).  A send that waits for room starts
    over when polled again.  Allocation does not fail.  Crates are
    classes: [Hashes], [Hex], [Bincode], [Blst], [Rng], [SerdeJson],
    [ConfigJson], with what they document as classes of laws and a concrete
    instance each.

    The adversary of [Cluster] sends any message to any node, short of new
    events in the name of a validator that one of the nodes runs (a node would
    sign those; the code checks no signature, see
    [Gossip.response_replaces_event]).  For [Cluster.cluster_no_equivocation]
    that is the only limit ([run_unforged]); for [Cluster.cluster_refines_log]
    it also makes no two events of one creator for one round ([run_allowed];
    [Consensus.equivocation_splits] is what happens then).  The nodes
    start from a detector over a common validator set, which
    [RytherNode::new] does not give them ([Node.node_never_commits]); the
    theorems are about the code from there on.

    Fuel: the tree's insertion recurses at most 256 levels and its [rem]
    argument is exactly what is left of them, lookups get 257; the search in
    the DAG gets one step per link plus one, which [Dag.can_reach_correct]
    shows is enough; [try_advance] gets one step per round left; the binary
    search and the Merkle layers get the length of the list, scalar
    multiplication 32 steps for a 32-bit scalar and hex printing 16 digits for
    a 64-bit number; connecting to a bootstrap peer takes the five attempts of
    the code.

    ** What is not modelled

    Crates and what they generate: the wire format ([bincode]), pairings
    ([blst]), hashes, JSON text and the JSON forms [serde] derives, HTTP
    ([axum], so [start_rpc_server]); the values the random generators draw;
    logging and [Debug] texts; the module files, which only re-export; the
    integration tests and benchmarks, which run nodes on real sockets and
    clocks.  [ExecutionStats], which nothing fills in, has no definition.  With
    these every function of [src/] has its translation. *)

From Stdlib Require Export ZArith Lia.
From Stdlib Require Import SpecFloat.
From stdpp Require Export prelude gmap list list_numbers sorting strings fin_maps pretty.

#[global] Open Scope Z_scope.

(** ** Machine integers

    A [uN] of the source is a [Z]; arithmetic wraps modulo [2^N] as in the
    release profile, and the lemmas give the exact value when it fits. *)

Definition u8_bound : Z := 2 ^ 8.
Definition u32_bound : Z := 2 ^ 32.
Definition u64_bound : Z := 2 ^ 64.
Definition u64_max : Z := 2 ^ 64 - 1.

Definition is_u8 (x : Z) : Prop := 0 <= x < u8_bound.
Definition is_u32 (x : Z) : Prop := 0 <= x < u32_bound.
Definition is_u64 (x : Z) : Prop := 0 <= x < u64_bound.

Definition u64_add (a b : Z) : Z := (a + b) mod u64_bound.
Definition u64_sub (a b : Z) : Z := (a - b) mod u64_bound.
Definition u64_mul (a b : Z) : Z := (a * b) mod u64_bound.

Declare Scope u64_scope.
Delimit Scope u64_scope with u64.
Infix "⊞" := u64_add (at level 50, left associativity) : u64_scope.
Infix "⊟" := u64_sub (at level 50, left associativity) : u64_scope.
Infix "⊠" := u64_mul (at level 40, left associativity) : u64_scope.
#[global] Open Scope u64_scope.

(** [a.overflowing_add(b)] and [a.overflowing_sub(b)] of [u64]. *)
Definition u64_overflowing_add (a b : Z) : Z * bool :=
  ((a + b) mod u64_bound, u64_bound <=? a + b).

Definition u64_overflowing_sub (a b : Z) : Z * bool :=
  ((a - b) mod u64_bound, a <? b).

(** ** Bytes *)

Abbreviation bytes := (list Z) (only parsing).

(** The type [[u8; n]]: [n] values of eight bits. *)
Definition is_bytes (n : nat) (b : bytes) : Prop :=
  length b = n /\ Forall is_u8 b.

(** [uN::to_le_bytes] and [uN::to_be_bytes] for a width of [n] bytes. *)
Fixpoint le_bytes (n : nat) (x : Z) : bytes :=
  match n with
  | O => []
  | S n => (x mod 256) :: le_bytes n (x / 256)
  end.

Fixpoint of_le_bytes (b : bytes) : Z :=
  match b with
  | [] => 0
  | d :: b => d + 256 * of_le_bytes b
  end.

Definition be_bytes (n : nat) (x : Z) : bytes := reverse (le_bytes n x).
Definition of_be_bytes (b : bytes) : Z := of_le_bytes (reverse b).

(** ** Text

    A [String] is a sequence of bytes; [show_u64] is the [Display] of an
    unsigned integer. *)

Definition string_bytes (s : string) : bytes :=
  map (fun a => Z.of_nat (Ascii.nat_of_ascii a)) (String.list_ascii_of_string s).

Definition show_u64 (x : Z) : string := pretty (Z.to_N x).

(** ** Floating point

    [x as f64], division and multiplication of [f64], as the Standard
    Library's specification of binary64. *)

Definition u64_as_f64 (x : Z) : spec_float := binary_normalize 53 1024 x 0 false.
Definition f64_div (x y : spec_float) : spec_float := SFdiv 53 1024 x y.
Definition f64_mul (x y : spec_float) : spec_float := SFmul 53 1024 x y.

(** ** [slice::binary_search_by]

    The loop of the Rust standard library: the interval [[base, base+size)]
    is halved until one candidate is left.  [inl i] is [Ok(i)] and [inr i] is
    [Err(i)]; [f] compares an element with the target. *)

Fixpoint binary_search_loop {A} (f : A -> comparison) (l : list A)
    (fuel size base : nat) : nat :=
  match fuel with
  | O => base
  | S fuel =>
      if (size <=? 1)%nat then base
      else
        let half := (size / 2)%nat in
        let mid := (base + half)%nat in
        let base :=
          match f <$> l !! mid with
          | Some Gt => base
          | _ => mid
          end in
        binary_search_loop f l fuel (size - half)%nat base
  end.

Definition binary_search_by {A} (f : A -> comparison) (l : list A) : nat + nat :=
  if (length l =? 0)%nat then inr 0%nat
  else
    let base := binary_search_loop f l (length l) (length l) 0 in
    match f <$> l !! base with
    | Some Eq => inl base
    | Some Lt => inr (S base)
    | _ => inr base
    end.

(** [Vec::insert(pos, x)]. *)
Definition vec_insert {A} (pos : nat) (x : A) (l : list A) : list A :=
  take pos l ++ x :: drop pos l.

(** Lexicographic comparison of slices, the derived [Ord] of arrays. *)
Fixpoint lex_compare (a b : list Z) : comparison :=
  match a, b with
  | [], [] => Eq
  | [], _ :: _ => Lt
  | _ :: _, [] => Gt
  | x :: a, y :: b =>
      match x ?= y with
      | Eq => lex_compare a b
      | c => c
      end
  end.

Definition lex_le (a b : list Z) : Prop := lex_compare a b <> Gt.
Definition lex_lt (a b : list Z) : Prop := lex_compare a b = Lt.

(** The maximum of an iterator of [u64] values, [0] when it is empty:
    [iter.max().unwrap_or(0)]. *)
Definition max_or_0 (l : list Z) : Z := foldr Z.max 0 l.

(** The inclusive range [a..=b]. *)
Definition range_incl (a b : Z) : list Z := seqZ a (b - a + 1).

(** ** Automation *)

Create HintDb ryther.

Ltac unfold_u64 :=
  unfold is_u8, is_u32, is_u64, u64_add, u64_sub, u64_mul, u64_max,
    u8_bound, u32_bound, u64_bound in *.

(** [lia] with the machine bounds unfolded. *)
Ltac u64_lia := unfold_u64; lia.

(** [lia] for goals with [/] and [mod]. *)
Ltac divmod_lia := unfold_u64; Z.to_euclidean_division_equations; lia.

(** Case analysis on a boolean guard of the code, with its meaning. *)
Ltac case_bool :=
  match goal with
  | |- context [if ?b then _ else _] =>
      let E := fresh "E" in destruct b eqn:E
  | H : context [if ?b then _ else _] |- _ =>
      let E := fresh "E" in destruct b eqn:E
  end.

Ltac bool_to_prop :=
  repeat match goal with
  | H : (_ <? _) = true |- _ => apply Z.ltb_lt in H
  | H : (_ <? _) = false |- _ => apply Z.ltb_ge in H
  | H : (_ <=? _) = true |- _ => apply Z.leb_le in H
  | H : (_ <=? _) = false |- _ => apply Z.leb_gt in H
  | H : (_ =? _) = true |- _ => apply Z.eqb_eq in H
  | H : (_ =? _) = false |- _ => apply Z.eqb_neq in H
  | H : (_ <? _)%nat = true |- _ => apply Nat.ltb_lt in H
  | H : (_ <? _)%nat = false |- _ => apply Nat.ltb_ge in H
  | H : (_ <=? _)%nat = true |- _ => apply Nat.leb_le in H
  | H : (_ <=? _)%nat = false |- _ => apply Nat.leb_gt in H
  | H : (_ =? _)%nat = true |- _ => apply Nat.eqb_eq in H
  | H : (_ =? _)%nat = false |- _ => apply Nat.eqb_neq in H
  | H : _ && _ = true |- _ => apply andb_true_iff in H as [? ?]
  | H : negb _ = true |- _ => apply negb_true_iff in H
  | H : negb _ = false |- _ => apply negb_false_iff in H
  | H : bool_decide _ = true |- _ => apply bool_decide_eq_true in H
  | H : bool_decide _ = false |- _ => apply bool_decide_eq_false in H
  end.

(** ** Integer lemmas *)

Lemma u64_add_exact a b : is_u64 (a + b) -> a ⊞ b = a + b.
Proof. intros. unfold u64_add. apply Z.mod_small. done. Qed.

Lemma u64_sub_exact a b : is_u64 (a - b) -> a ⊟ b = a - b.
Proof. intros. unfold u64_sub. apply Z.mod_small. done. Qed.

Lemma u64_mul_exact a b : is_u64 (a * b) -> a ⊠ b = a * b.
Proof. intros. unfold u64_mul. apply Z.mod_small. done. Qed.

Lemma u64_add_is a b : is_u64 (a ⊞ b).
Proof. apply Z.mod_pos_bound. done. Qed.

Lemma u64_sub_is a b : is_u64 (a ⊟ b).
Proof. apply Z.mod_pos_bound. done. Qed.

Lemma u64_mul_is a b : is_u64 (a ⊠ b).
Proof. apply Z.mod_pos_bound. done. Qed.

#[export] Hint Resolve u64_add_is u64_sub_is u64_mul_is : ryther.

(** ** Byte-string lemmas *)

Lemma length_le_bytes n x : length (le_bytes n x) = n.
Proof. revert x. induction n; intros; simpl; auto. Qed.

Lemma length_be_bytes n x : length (be_bytes n x) = n.
Proof. unfold be_bytes. rewrite length_reverse. apply length_le_bytes. Qed.

Lemma le_bytes_is n x : is_bytes n (le_bytes n x).
Proof.
  split; [apply length_le_bytes|].
  revert x. induction n as [|n IH]; intros; simpl; constructor; auto.
  unfold is_u8, u8_bound. apply Z.mod_pos_bound. lia.
Qed.

Lemma be_bytes_is n x : is_bytes n (be_bytes n x).
Proof.
  destruct (le_bytes_is n x) as [Hl Hb]. split; [apply length_be_bytes|].
  by apply Forall_reverse.
Qed.

Lemma of_le_le_bytes n x :
  0 <= x < 256 ^ Z.of_nat n -> of_le_bytes (le_bytes n x) = x.
Proof.
  revert x. induction n as [|n IH]; intros x Hx; simpl le_bytes; simpl of_le_bytes.
  - simpl in Hx. lia.
  - rewrite IH.
    + pose proof (Z.div_mod x 256). lia.
    + rewrite Nat2Z.inj_succ, Z.pow_succ_r in Hx by lia.
      split; [apply Z.div_pos; lia|apply Z.div_lt_upper_bound; lia].
Qed.

Lemma le_of_le_bytes b : Forall is_u8 b -> le_bytes (length b) (of_le_bytes b) = b.
Proof.
  induction 1 as [|d b Hd _ IH]; [done|].
  simpl. unfold is_u8, u8_bound in Hd. f_equal.
  - rewrite (Z.mul_comm 256), Z.mod_add by lia. apply Z.mod_small. lia.
  - rewrite (Z.mul_comm 256), Z.div_add, Z.div_small by lia. done.
Qed.

Lemma of_le_bytes_bound b :
  Forall is_u8 b -> 0 <= of_le_bytes b < 256 ^ Z.of_nat (length b).
Proof.
  induction 1 as [|d b Hd _ IH]; [simpl; lia|].
  unfold is_u8, u8_bound in Hd. cbn [length of_le_bytes].
  rewrite Nat2Z.inj_succ, Z.pow_succ_r by lia. lia.
Qed.

Lemma of_be_be_bytes n x :
  0 <= x < 256 ^ Z.of_nat n -> of_be_bytes (be_bytes n x) = x.
Proof. intros. unfold of_be_bytes, be_bytes. rewrite reverse_involutive. by apply of_le_le_bytes. Qed.

Lemma be_of_be_bytes n b : is_bytes n b -> be_bytes n (of_be_bytes b) = b.
Proof.
  intros [<- Hb]. unfold of_be_bytes, be_bytes.
  rewrite <- (length_reverse b), le_of_le_bytes by by apply Forall_reverse.
  apply reverse_involutive.
Qed.

Lemma of_be_bytes_bound n b : is_bytes n b -> 0 <= of_be_bytes b < 256 ^ Z.of_nat n.
Proof.
  intros [<- Hb]. unfold of_be_bytes. rewrite <- (length_reverse b).
  apply of_le_bytes_bound. by apply Forall_reverse.
Qed.

Lemma is_bytes_app n m a b : is_bytes n a -> is_bytes m b -> is_bytes (n + m) (a ++ b).
Proof. intros [? ?] [? ?]. split; [rewrite length_app; lia|by apply Forall_app]. Qed.

Lemma is_bytes_replicate0 n : is_bytes n (replicate n 0).
Proof. split; [apply length_replicate|]. apply Forall_replicate. u64_lia. Qed.

#[export] Hint Resolve le_bytes_is be_bytes_is is_bytes_app is_bytes_replicate0 : ryther.

(** ** Binary search

    [bs_mono f l]: the comparator is monotone along the slice, which is what
    the documentation of [binary_search_by] asks of its caller. *)

Definition bs_mono {A} (f : A -> comparison) (l : list A) : Prop :=
  forall i j a b, (i <= j)%nat -> l !! i = Some a -> l !! j = Some b ->
    (f a = Gt -> f b = Gt) /\ (f b = Lt -> f a = Lt).

Section binary_search.
Context {A : Type} (f : A -> comparison) (l : list A).
Hypothesis Hmono : bs_mono f l.

Lemma binary_search_loop_spec fuel size base :
  (1 <= size)%nat -> (size <= fuel)%nat -> (base + size <= length l)%nat ->
  (base = 0%nat \/ exists a, l !! base = Some a /\ f a <> Gt) ->
  (forall i a, (base + size <= i)%nat -> l !! i = Some a -> f a = Gt) ->
  let b := binary_search_loop f l fuel size base in
  (b < length l)%nat /\
  (b = 0%nat \/ exists a, l !! b = Some a /\ f a <> Gt) /\
  (forall i a, (b < i)%nat -> l !! i = Some a -> f a = Gt).
Proof.
  revert size base. induction fuel as [|fuel IH]; intros size base H1 Hf Hl Hb Hr; [lia|].
  cbn [binary_search_loop]. destruct (size <=? 1)%nat eqn:E; bool_to_prop.
  { repeat split; [lia|done|]. intros i a Hi. apply Hr. lia. }
  assert (Hh : (1 <= size / 2)%nat /\ (size / 2 + size / 2 <= size)%nat).
  { pose proof (Nat.div_mod size 2). pose proof (Nat.mod_upper_bound size 2). lia. }
  generalize dependent (size / 2)%nat. intros half Hh.
  destruct (lookup_lt_is_Some_2 l (base + half)) as [m Hm]; [lia|].
  rewrite Hm. simpl. destruct (f m) eqn:Em.
  - apply IH; try lia; [right; exists m; split; congruence|].
    intros i a Hi. apply Hr. lia.
  - apply IH; try lia; [right; exists m; split; congruence|].
    intros i a Hi. apply Hr. lia.
  - apply IH; try lia; [done|]. intros i a Hi Ha.
    destruct (Hmono (base + half)%nat i m a); auto with lia.
Qed.

(** The documented contract, sharpened to what the loop gives: among several
    equal elements the last one is found. *)
Lemma binary_search_by_spec :
  match binary_search_by f l with
  | inl i =>
      (exists a, l !! i = Some a /\ f a = Eq) /\
      (forall j a, (i < j)%nat -> l !! j = Some a -> f a = Gt)
  | inr i =>
      (i <= length l)%nat /\
      (forall j a, (j < i)%nat -> l !! j = Some a -> f a = Lt) /\
      (forall j a, (i <= j)%nat -> l !! j = Some a -> f a = Gt)
  end.
Proof.
  unfold binary_search_by. destruct (length l =? 0)%nat eqn:E; bool_to_prop.
  { destruct l; [|done]. repeat split; simpl; [lia| |]; intros j a; by rewrite lookup_nil. }
  destruct (binary_search_loop_spec (length l) (length l) 0) as (Hlt & Hb & Hr); try lia.
  { intros i a Hi Ha. apply lookup_lt_Some in Ha. lia. }
  set (b := binary_search_loop f l (length l) (length l) 0) in *.
  destruct (lookup_lt_is_Some_2 l b Hlt) as [m Hm]. rewrite Hm. simpl.
  destruct (f m) eqn:Em.
  - eauto.
  - repeat split; [lia| |intros; apply (Hr j); auto with lia].
    intros j a Hj Ha. destruct (Hmono j b a m); auto with lia.
  - destruct Hb as [Hb|(a & Ha & Hn)]; [|congruence].
    repeat split; [lia|lia|]. intros j a Hj Ha.
    destruct (Hmono b j m a); auto with lia.
Qed.
End binary_search.

(** ** Stable sorting

    [sort_by_key] of the standard library is stable; insertion from the right
    keeps equal elements in their original order. *)

Section stable_sort.
Context {A : Type} (leb : A -> A -> bool).

Fixpoint sort_insert (x : A) (l : list A) : list A :=
  match l with
  | [] => [x]
  | y :: l => if leb x y then x :: y :: l else y :: sort_insert x l
  end.

Definition stable_sort (l : list A) : list A := foldr sort_insert [] l.

Lemma sort_insert_perm x l : sort_insert x l ≡ₚ x :: l.
Proof.
  induction l as [|y l IH]; simpl; [done|]. case_bool; [done|].
  rewrite IH. apply Permutation_swap.
Qed.

Lemma stable_sort_perm l : stable_sort l ≡ₚ l.
Proof. induction l as [|x l IH]; simpl; [done|]. by rewrite sort_insert_perm, IH. Qed.

Hypothesis leb_total : forall x y, leb x y = true \/ leb y x = true.
Hypothesis leb_trans : forall x y z, leb x y = true -> leb y z = true -> leb x z = true.

Lemma sort_insert_sorted x l :
  StronglySorted (fun a b => leb a b = true) l ->
  StronglySorted (fun a b => leb a b = true) (sort_insert x l).
Proof.
  induction 1 as [|y l Hs IH Hy]; simpl; [repeat constructor|].
  destruct (leb x y) eqn:E.
  - constructor; [by constructor|]. constructor; [done|].
    eapply Forall_impl; [done|]. simpl. eauto.
  - constructor; [done|]. rewrite sort_insert_perm. constructor; [|done].
    destruct (leb_total x y); congruence.
Qed.

Lemma stable_sort_sorted l : StronglySorted (fun a b => leb a b = true) (stable_sort l).
Proof. induction l; simpl; [constructor|]. by apply sort_insert_sorted. Qed.

Lemma sort_insert_head x l :
  Forall (fun y => leb x y = true) l -> sort_insert x l = x :: l.
Proof. destruct 1 as [|y l Hy]; simpl; [done|]. by rewrite Hy. Qed.

Lemma stable_sort_id l :
  StronglySorted (fun a b => leb a b = true) l -> stable_sort l = l.
Proof.
  induction 1 as [|x l _ IH Hx]; simpl; [done|]. rewrite IH. by apply sort_insert_head.
Qed.
End stable_sort.

(** Two sorted permutations of each other agree when the order is
    antisymmetric on their elements. *)
Lemma sorted_perm_unique {A} (R : relation A) (l1 l2 : list A) :
  (forall x y, x ∈ l1 -> y ∈ l1 -> R x y -> R y x -> x = y) ->
  StronglySorted R l1 -> StronglySorted R l2 -> l1 ≡ₚ l2 -> l1 = l2.
Proof.
  revert l2. induction l1 as [|x l1 IH]; intros l2 Ha H1 H2 Hp.
  { by apply Permutation_nil_l in Hp. }
  destruct l2 as [|y l2]; [by apply Permutation_nil_r in Hp|].
  inversion_clear H1 as [|? ? H1' Hx]. inversion_clear H2 as [|? ? H2' Hy].
  assert (x = y) as ->.
  { assert (Hxin : x ∈ y :: l2) by (rewrite <- Hp; left).
    assert (Hyin : y ∈ x :: l1) by (rewrite Hp; left).
    apply elem_of_cons in Hxin as [?|Hxin]; [done|].
    pose proof Hyin as Hyin'. apply elem_of_cons in Hyin as [?|Hyin]; [done|].
    rewrite Forall_forall in Hx, Hy.
    apply Ha; [left|done|by apply Hx|by apply Hy]. }
  f_equal. apply IH; [|done..|by apply Permutation_cons_inv in Hp].
  intros a b Ha' Hb'. apply Ha; by right.
Qed.

(** ** The lexicographic order *)

Lemma lex_compare_refl a : lex_compare a a = Eq.
Proof. induction a; simpl; [done|]. by rewrite Z.compare_refl. Qed.

Lemma lex_compare_eq a b : lex_compare a b = Eq -> a = b.
Proof.
  revert b. induction a as [|x a IH]; intros [|y b]; simpl; try done.
  destruct (x ?= y) eqn:E; try done. intros H.
  apply Z.compare_eq in E. f_equal; auto.
Qed.

Lemma lex_compare_antisym a b : lex_compare b a = CompOpp (lex_compare a b).
Proof.
  revert b. induction a as [|x a IH]; intros [|y b]; simpl; try done.
  rewrite (Z.compare_antisym x y). destruct (x ?= y); simpl; auto.
Qed.

Lemma lex_compare_trans_lt a b c :
  lex_compare a b <> Gt -> lex_compare b c <> Gt -> lex_compare a c <> Gt.
Proof.
  revert b c. induction a as [|x a IH]; intros [|y b] [|z c]; simpl; try done.
  destruct (Z.compare_spec x y), (Z.compare_spec y z), (Z.compare_spec x z);
    subst; try done; try lia; eauto.
Qed.

Definition lex_leb (a b : list Z) : bool :=
  match lex_compare a b with Gt => false | _ => true end.

Lemma lex_leb_total a b : lex_leb a b = true \/ lex_leb b a = true.
Proof. unfold lex_leb. rewrite (lex_compare_antisym a b). destruct (lex_compare a b); auto. Qed.

Lemma lex_leb_trans a b c : lex_leb a b = true -> lex_leb b c = true -> lex_leb a c = true.
Proof.
  unfold lex_leb. intros H1 H2.
  pose proof (lex_compare_trans_lt a b c).
  destruct (lex_compare a b), (lex_compare b c), (lex_compare a c); try done; exfalso; naive_solver.
Qed.

Lemma lex_leb_antisym a b : lex_leb a b = true -> lex_leb b a = true -> a = b.
Proof.
  unfold lex_leb. rewrite (lex_compare_antisym a b).
  destruct (lex_compare a b) eqn:E; try done. intros _ _. by apply lex_compare_eq.
Qed.

(** ** Lists *)

Lemma max_or_0_ge l x : x ∈ l -> x <= max_or_0 l.
Proof. induction 1; simpl; lia. Qed.

Lemma max_or_0_nonneg l : 0 <= max_or_0 l.
Proof. induction l; simpl; lia. Qed.

Lemma max_or_0_perm l l' : l ≡ₚ l' -> max_or_0 l = max_or_0 l'.
Proof. unfold max_or_0. induction 1; simpl; lia. Qed.

Lemma max_or_0_elem l : l <> [] -> Forall (fun x => 0 <= x) l -> max_or_0 l ∈ l.
Proof.
  induction l as [|x l IH]; [done|]. intros _ Hp. inversion_clear Hp as [|? ? Hx Hl].
  simpl. destruct l as [|y l]; [simpl; rewrite Z.max_l by lia; left|].
  destruct (Z.max_spec x (max_or_0 (y :: l))) as [[_ ->]|[_ ->]]; [right; auto|left].
Qed.

Lemma elem_of_range_incl a b x : x ∈ range_incl a b <-> a <= x <= b.
Proof. unfold range_incl. rewrite elem_of_seqZ. lia. Qed.

(** ** Sums *)

Definition sumZ (l : list Z) : Z := foldr Z.add 0 l.

Lemma sumZ_app l1 l2 : sumZ (l1 ++ l2) = sumZ l1 + sumZ l2.
Proof. unfold sumZ. induction l1; simpl; lia. Qed.

#[global] Instance sumZ_proper : Proper ((≡ₚ) ==> (=)) sumZ.
Proof. intros l1 l2 Hp. unfold sumZ. induction Hp; simpl; lia. Qed.

Lemma sumZ_nonneg l : Forall (fun x => 0 <= x) l -> 0 <= sumZ l.
Proof. induction 1; simpl; [done|]. unfold sumZ in *. simpl. lia. Qed.

(** [iter.sum()] on [u64]: exact when the true sum fits. *)
Definition sum_u64 (l : list Z) : Z := foldr u64_add 0 l.

Lemma sum_u64_exact l :
  Forall (fun x => 0 <= x) l -> sumZ l < u64_bound -> sum_u64 l = sumZ l.
Proof.
  induction 1 as [|x l Hx Hl IH]; intros Hb; [done|]. cbn in *.
  pose proof (sumZ_nonneg l Hl). fold (sumZ l) in *.
  change (foldr u64_add 0 l) with (sum_u64 l). rewrite IH by lia.
  apply u64_add_exact. u64_lia.
Qed.

Lemma sum_u64_is l : is_u64 (sum_u64 l).
Proof. destruct l; simpl; [u64_lia|apply u64_add_is]. Qed.
