(* ===== verification/Types.v ===== *)
(** * Core types: [src/types/mod.rs]

    Addresses, validator identities, signatures, state keys, the 256-bit
    integer [U256] with its limb arithmetic and byte codecs, and the interface
    of the two hash functions the program takes from the [sha2] and [sha3]
    crates. *)

From S2P Require Import Prelude.

(** ** Hash functions

    [sha256] and [keccak256] call the [sha2] and [sha3] crates: they are
    parameters of the model.  [HashesOk] is the part of their documented
    behaviour used for layout: a digest has 32 bytes. *)

Class Hashes := {
  sha256 : bytes -> bytes;
  keccak256 : bytes -> bytes
}.

Class HashesOk `{Hashes} : Prop := {
  sha256_is_bytes : forall d, is_bytes 32 (sha256 d);
  keccak256_is_bytes : forall d, is_bytes 32 (keccak256 d)
}.

(** A concrete 32-byte checksum: the instance on which statements about any
    hash function are evaluated. *)
Definition checksum (d : bytes) : bytes :=
  let h := be_bytes 8 (fold_left (fun acc b =>
    Z.land (acc * 11400714819323198485 + b + 1) (2 ^ 64 - 1)) d 7) in
  h ++ h ++ h ++ h.

Definition checksum_hashes : Hashes := {|
  sha256 := checksum;
  keccak256 := fun d => checksum (1 :: d)
|}.

Lemma checksum_hashes_ok : @HashesOk checksum_hashes.
Proof.
  split; intros d; apply (is_bytes_app 8 24), (is_bytes_app 8 16), (is_bytes_app 8 8); apply be_bytes_is.
Qed.

(** ** Hexadecimal text *)

(** What is used of the [hex] crate. *)
Class Hex := {
  hex_encode : bytes -> list Z;
  hex_decode : list Z -> option bytes
}.

(** Its documented behaviour: [decode] inverts [encode], the text consists of
    the digits 0-9 and a-f, and [decode] takes two digits per byte. *)
Class HexOk `{Hex} : Prop := {
  hex_decode_encode b : Forall is_u8 b -> hex_decode (hex_encode b) = Some b;
  hex_encode_digits b : Forall is_u8 b -> Forall (fun c => 48 <= c <= 57 \/ 97 <= c <= 102) (hex_encode b);
  hex_decode_length s b : hex_decode s = Some b -> length s = (2 * length b)%nat
}.

Definition prefix_0x : list Z := [48; 120].

(** ** Identity types *)

Record Address := mkAddress { address_0 : bytes }.

Definition Address_zero : Address := mkAddress (replicate 20 0).

(** [Address::from_slice]: the last 20 bytes, left-padded with zeros. *)
Definition Address_from_slice (slice : bytes) : Address :=
  let len := Nat.min (length slice) 20 in
  let addr := replicate 20 0 in
  mkAddress (take (20 - len) addr ++ drop (length slice - len) slice).

Definition Address_as_bytes (a : Address) : bytes := address_0 a.
Definition Address_from (b : bytes) : Address := mkAddress b.
Definition Address_as_ref (a : Address) : bytes := address_0 a.

(** Both [Debug] and [Display]. *)
Definition Address_fmt `{Hex} (a : Address) : list Z := prefix_0x ++ hex_encode (address_0 a).

Abbreviation EventId := (list Z) (only parsing).

Record ValidatorId := mkValidatorId { validator_0 : bytes }.

Definition ValidatorId_default : ValidatorId := mkValidatorId (replicate 48 0).

Definition ValidatorId_as_bytes (v : ValidatorId) : bytes := validator_0 v.
Definition ValidatorId_from (b : bytes) : ValidatorId := mkValidatorId b.
Definition ValidatorId_as_ref (v : ValidatorId) : bytes := validator_0 v.

Definition ValidatorId_fmt `{Hex} (v : ValidatorId) : list Z :=
  string_bytes "ValidatorId(" ++ hex_encode (take 4 (validator_0 v)) ++ string_bytes "...)".

(** [impl Serialize for ValidatorId]: the bytes handed to the serializer. *)
Definition ValidatorId_serialize (v : ValidatorId) : bytes := validator_0 v.

(** [impl Deserialize for ValidatorId], from the byte vector the format
    yields. *)
Definition ValidatorId_deserialize (b : bytes) : string + ValidatorId :=
  if negb (length b =? 48)%nat then inl "ValidatorId must be 48 bytes"%string
  else inr (mkValidatorId b).

Record BlsSignature := mkBlsSignature { bls_0 : bytes }.

Definition BlsSignature_default : BlsSignature := mkBlsSignature (replicate 96 0).

Definition BlsSignature_as_bytes (s : BlsSignature) : bytes := bls_0 s.
Definition BlsSignature_from (b : bytes) : BlsSignature := mkBlsSignature b.

Definition BlsSignature_fmt `{Hex} (s : BlsSignature) : list Z :=
  string_bytes "BlsSignature(" ++ hex_encode (take 8 (bls_0 s)) ++ string_bytes "...)".

Definition BlsSignature_serialize (s : BlsSignature) : bytes := bls_0 s.

Definition BlsSignature_deserialize (b : bytes) : string + BlsSignature :=
  if negb (length b =? 96)%nat then inl "BlsSignature must be 96 bytes"%string
  else inr (mkBlsSignature b).

(** ** [U256]: four 64-bit limbs, least significant first *)

Record U256 := mkU256 { limb0 : Z; limb1 : Z; limb2 : Z; limb3 : Z }.

Definition U256_limbs (u : U256) : list Z := [limb0 u; limb1 u; limb2 u; limb3 u].

Definition U256_of_limbs (l : list Z) : U256 :=
  mkU256 (nth 0 l 0) (nth 1 l 0) (nth 2 l 0) (nth 3 l 0).

Definition U256_ZERO : U256 := mkU256 0 0 0 0.
Definition U256_ONE : U256 := mkU256 1 0 0 0.

Definition U256_from_u64 (val : Z) : U256 := mkU256 val 0 0 0.

(** [to_be_bytes]: the limbs from the most significant one, each big-endian. *)
Definition U256_to_be_bytes (u : U256) : bytes :=
  concat (map (be_bytes 8) (reverse (U256_limbs u))).

(** [from_be_bytes]: limb [3 - i] is read from bytes [8i .. 8i+8]. *)
Definition U256_from_be_bytes (b : bytes) : U256 :=
  let limb i := of_be_bytes (take 8 (drop (8 * i) b)) in
  U256_of_limbs (reverse (map limb [0; 1; 2; 3]%nat)).

(** The loop of [wrapping_add] over the limbs, with its carry. *)
Fixpoint add_limbs (a b : list Z) (carry : Z) : list Z :=
  match a, b with
  | x :: a, y :: b =>
      let '(sum, c1) := u64_overflowing_add x y in
      let '(sum, c2) := u64_overflowing_add sum carry in
      sum :: add_limbs a b (Z.b2z c1 + Z.b2z c2)
  | _, _ => []
  end.

Definition U256_wrapping_add (self other : U256) : U256 :=
  U256_of_limbs (add_limbs (U256_limbs self) (U256_limbs other) 0).

(** [Debug] and [Display]: decimal when only the lowest limb is set. *)
Definition U256_debug `{Hex} (u : U256) : list Z :=
  string_bytes "U256(0x" ++ hex_encode (U256_to_be_bytes u) ++ string_bytes ")".

Definition U256_fmt `{Hex} (u : U256) : list Z :=
  if (limb1 u =? 0) && (limb2 u =? 0) && (limb3 u =? 0)
  then string_bytes (show_u64 (limb0 u))
  else prefix_0x ++ hex_encode (U256_to_be_bytes u).

(** The derived [Ord] of [U256([u64; 4])]: limbs in array order. *)
Definition U256_cmp (a b : U256) : comparison := lex_compare (U256_limbs a) (U256_limbs b).

(** ** State keys *)

Record StateKey := mkStateKey { sk_address : bytes; sk_slot : U256 }.

Definition StateKey_new (address : Address) (slot : U256) : StateKey :=
  mkStateKey (address_0 address) slot.

Definition StateKey_from_raw (address : bytes) (slot : U256) : StateKey := mkStateKey address slot.

(** The first bytes of the address as a quoted string, and the slot. *)
Definition StateKey_fmt `{Hex} (k : StateKey) : list Z :=
  string_bytes "StateKey(" ++ [34] ++ hex_encode (take 4 (sk_address k)) ++ [34; 58] ++ U256_fmt (sk_slot k) ++ string_bytes ")".

Definition StateKey_to_bytes (k : StateKey) : bytes :=
  sk_address k ++ U256_to_be_bytes (sk_slot k).

(** ** Well-formedness: the widths of the source's types *)

Definition is_u256 (u : U256) : Prop := Forall is_u64 (U256_limbs u).
Definition is_address (a : Address) : Prop := is_bytes 20 (address_0 a).
Definition is_state_key (k : StateKey) : Prop :=
  is_bytes 20 (sk_address k) /\ is_u256 (sk_slot k).

(** The number a [U256] denotes. *)
Definition u256_val (u : U256) : Z :=
  limb0 u + 2 ^ 64 * limb1 u + 2 ^ 128 * limb2 u + 2 ^ 192 * limb3 u.

(** ** Decidable equality and countability: these types are map keys *)

#[global] Instance Address_eq_dec : EqDecision Address.
Proof. solve_decision. Defined.
#[global] Instance ValidatorId_eq_dec : EqDecision ValidatorId.
Proof. solve_decision. Defined.
#[global] Instance BlsSignature_eq_dec : EqDecision BlsSignature.
Proof. solve_decision. Defined.
#[global] Instance U256_eq_dec : EqDecision U256.
Proof. solve_decision. Defined.
#[global] Instance StateKey_eq_dec : EqDecision StateKey.
Proof. solve_decision. Defined.

#[global] Instance Address_countable : Countable Address.
Proof. by refine (inj_countable' address_0 mkAddress _); intros []. Defined.
#[global] Instance ValidatorId_countable : Countable ValidatorId.
Proof. by refine (inj_countable' validator_0 mkValidatorId _); intros []. Defined.
#[global] Instance U256_countable : Countable U256.
Proof.
  by refine (inj_countable' (fun u => (limb0 u, limb1 u, limb2 u, limb3 u))
    (fun '(a, b, c, d) => mkU256 a b c d) _); intros [].
Defined.
#[global] Instance StateKey_countable : Countable StateKey.
Proof.
  by refine (inj_countable' (fun k => (sk_address k, sk_slot k))
    (fun '(a, s) => mkStateKey a s) _); intros [].
Defined.
#[global] Instance U256_inhabited : Inhabited U256 := populate U256_ZERO.

(** ** Lemmas *)

Lemma is_u256_iff u :
  is_u256 u <-> is_u64 (limb0 u) /\ is_u64 (limb1 u) /\ is_u64 (limb2 u) /\ is_u64 (limb3 u).
Proof. unfold is_u256, U256_limbs. rewrite !Forall_cons. by intuition constructor. Qed.

Lemma U256_of_limbs_limbs u : U256_of_limbs (U256_limbs u) = u.
Proof. by destruct u. Qed.

Lemma is_u256_from_u64 x : is_u64 x -> is_u256 (U256_from_u64 x).
Proof. intros. apply is_u256_iff. simpl. repeat split; u64_lia. Qed.

Lemma is_u256_ZERO : is_u256 U256_ZERO.
Proof. apply is_u256_iff. simpl. repeat split; u64_lia. Qed.

Lemma u256_val_from_u64 x : u256_val (U256_from_u64 x) = x.
Proof. unfold u256_val. simpl. lia. Qed.

Lemma u256_val_bound u : is_u256 u -> 0 <= u256_val u < 2 ^ 256.
Proof. intros (H0 & H1 & H2 & H3)%is_u256_iff. unfold u256_val. u64_lia. Qed.

Lemma u256_val_inj a b : is_u256 a -> is_u256 b -> u256_val a = u256_val b -> a = b.
Proof.
  intros (? & ? & ? & ?)%is_u256_iff (? & ? & ? & ?)%is_u256_iff E.
  destruct a, b. unfold u256_val in E. simpl in *. unfold_u64. f_equal; lia.
Qed.

Lemma u256_val_ZERO_iff u : is_u256 u -> u = U256_ZERO <-> u256_val u = 0.
Proof.
  intros Hu. split; [intros ->; done|]. intros E.
  apply u256_val_inj; [done|apply is_u256_ZERO|done].
Qed.

#[export] Hint Resolve is_u256_from_u64 is_u256_ZERO : ryther.

(** One limb of [wrapping_add]: sum and carry denote [x + y + c]. *)
Lemma add_limb_step x y c :
  is_u64 x -> is_u64 y -> 0 <= c <= 1 ->
  let '(s1, c1) := u64_overflowing_add x y in
  let '(s2, c2) := u64_overflowing_add s1 c in
  is_u64 s2 /\ 0 <= Z.b2z c1 + Z.b2z c2 <= 1 /\
  s2 + u64_bound * (Z.b2z c1 + Z.b2z c2) = x + y + c.
Proof.
  intros Hx Hy Hc. unfold u64_overflowing_add. simpl. unfold_u64.
  assert (Hs : (x + y) mod 2 ^ 64 = if (2 ^ 64 <=? x + y) then x + y - 2 ^ 64 else x + y).
  { destruct (Z.leb_spec (2 ^ 64) (x + y)).
    - replace (x + y) with (x + y - 2 ^ 64 + 1 * 2 ^ 64) at 1 by lia.
      rewrite Z.mod_add by lia. apply Z.mod_small. lia.
    - apply Z.mod_small. lia. }
  rewrite Hs. destruct (Z.leb_spec (2 ^ 64) (x + y)); simpl.
  - rewrite Z.mod_small by lia. destruct (Z.leb_spec (2 ^ 64) (x + y - 2 ^ 64 + c)); simpl; lia.
  - destruct (Z.leb_spec (2 ^ 64) (x + y + c)); simpl.
    + replace (x + y + c) with (2 ^ 64) by lia. rewrite Z.mod_same; lia.
    + rewrite Z.mod_small by lia. lia.
Qed.

Lemma U256_wrapping_add_carry a b :
  is_u256 a -> is_u256 b ->
  is_u256 (U256_wrapping_add a b) /\
  exists c, 0 <= c <= 1 /\
    u256_val (U256_wrapping_add a b) + 2 ^ 256 * c = u256_val a + u256_val b.
Proof.
  destruct a as [a0 a1 a2 a3], b as [b0 b1 b2 b3].
  intros (A0 & A1 & A2 & A3)%is_u256_iff (B0 & B1 & B2 & B3)%is_u256_iff.
  cbn [limb0 limb1 limb2 limb3] in *.
  unfold U256_wrapping_add, U256_limbs. cbn [limb0 limb1 limb2 limb3 add_limbs].
  pose proof (add_limb_step a0 b0 0 A0 B0 ltac:(lia)) as S0.
  destruct (u64_overflowing_add a0 b0) as [s0 c0].
  destruct (u64_overflowing_add s0 0) as [r0 d0]. destruct S0 as (R0 & C0 & E0).
  pose proof (add_limb_step a1 b1 _ A1 B1 C0) as S1.
  destruct (u64_overflowing_add a1 b1) as [s1 c1].
  destruct (u64_overflowing_add s1 _) as [r1 d1]. destruct S1 as (R1 & C1 & E1).
  pose proof (add_limb_step a2 b2 _ A2 B2 C1) as S2.
  destruct (u64_overflowing_add a2 b2) as [s2 c2].
  destruct (u64_overflowing_add s2 _) as [r2 d2]. destruct S2 as (R2 & C2 & E2).
  pose proof (add_limb_step a3 b3 _ A3 B3 C2) as S3.
  destruct (u64_overflowing_add a3 b3) as [s3 c3].
  destruct (u64_overflowing_add s3 _) as [r3 d3]. destruct S3 as (R3 & C3 & E3).
  unfold U256_of_limbs. cbn [nth]. split; [by apply is_u256_iff|].
  eexists. split; [exact C3|]. unfold u256_val. cbn [limb0 limb1 limb2 limb3]. unfold_u64. lia.
Qed.

Lemma is_u256_wrapping_add a b :
  is_u256 a -> is_u256 b -> is_u256 (U256_wrapping_add a b).
Proof. intros Ha Hb. by apply U256_wrapping_add_carry. Qed.

#[export] Hint Resolve is_u256_wrapping_add : ryther.

(** [wrapping_add] is addition when the sum fits in 256 bits. *)
Lemma U256_add_exact a b :
  is_u256 a -> is_u256 b -> u256_val a + u256_val b < 2 ^ 256 ->
  u256_val (U256_wrapping_add a b) = u256_val a + u256_val b.
Proof.
  intros Ha Hb Hlt. destruct (U256_wrapping_add_carry a b Ha Hb) as (Hr & c & Hc & E).
  pose proof (u256_val_bound _ Hr). lia.
Qed.

Lemma U256_add_mod a b :
  is_u256 a -> is_u256 b -> u256_val (U256_wrapping_add a b) = (u256_val a + u256_val b) mod 2 ^ 256.
Proof.
  intros Ha Hb. destruct (U256_wrapping_add_carry a b Ha Hb) as (Hr & c & Hc & E).
  pose proof (u256_val_bound _ Hr) as Hbd. apply (Z.mod_unique_pos _ _ c); lia.
Qed.

Lemma U256_limb_bytes a b c d :
  take 8 (drop (8 * 0) (be_bytes 8 a ++ be_bytes 8 b ++ be_bytes 8 c ++ be_bytes 8 d ++ [])) =
    be_bytes 8 a /\
  take 8 (drop (8 * 1) (be_bytes 8 a ++ be_bytes 8 b ++ be_bytes 8 c ++ be_bytes 8 d ++ [])) =
    be_bytes 8 b /\
  take 8 (drop (8 * 2) (be_bytes 8 a ++ be_bytes 8 b ++ be_bytes 8 c ++ be_bytes 8 d ++ [])) =
    be_bytes 8 c /\
  take 8 (drop (8 * 3) (be_bytes 8 a ++ be_bytes 8 b ++ be_bytes 8 c ++ be_bytes 8 d ++ [])) =
    be_bytes 8 d.
Proof. repeat split; reflexivity. Qed.

Lemma U256_to_be_bytes_is u : is_bytes 32 (U256_to_be_bytes u).
Proof.
  destruct u as [a b c d]. unfold U256_to_be_bytes, U256_limbs.
  cbn [limb0 limb1 limb2 limb3 reverse rev_append map concat].
  apply (is_bytes_app 8 24); auto with ryther. apply (is_bytes_app 8 16); auto with ryther.
  apply (is_bytes_app 8 8); auto with ryther. rewrite app_nil_r. auto with ryther.
Qed.

Lemma U256_from_to_be_bytes u :
  is_u256 u -> U256_from_be_bytes (U256_to_be_bytes u) = u.
Proof.
  intros (H0 & H1 & H2 & H3)%is_u256_iff. destruct u as [a b c d].
  unfold U256_from_be_bytes, U256_to_be_bytes, U256_limbs.
  cbn [limb0 limb1 limb2 limb3 reverse rev_append map concat] in *.
  destruct (U256_limb_bytes d c b a) as (-> & -> & -> & ->).
  unfold U256_of_limbs. cbn [reverse rev_append nth].
  by rewrite !of_be_be_bytes by done.
Qed.

Lemma U256_to_be_bytes_inj a b :
  is_u256 a -> is_u256 b -> U256_to_be_bytes a = U256_to_be_bytes b -> a = b.
Proof.
  intros Ha Hb E. rewrite <- (U256_from_to_be_bytes a), <- (U256_from_to_be_bytes b); congruence.
Qed.

Lemma is_u256_from_be_bytes b : is_bytes 32 b -> is_u256 (U256_from_be_bytes b).
Proof.
  intros [Hl Hb]. unfold U256_from_be_bytes, U256_of_limbs. cbn [map reverse rev_append nth].
  assert (Hlimb : forall i, (i <= 3)%nat -> is_u64 (of_be_bytes (take 8 (drop (8 * i) b)))).
  { intros i Hi. apply (of_be_bytes_bound 8). split.
    - rewrite length_take, length_drop. lia.
    - by apply Forall_take, Forall_drop. }
  apply is_u256_iff. repeat split; apply Hlimb; lia.
Qed.

Lemma StateKey_to_bytes_inj a b :
  is_state_key a -> is_state_key b -> StateKey_to_bytes a = StateKey_to_bytes b -> a = b.
Proof.
  destruct a as [x s], b as [y t]. intros [[Hx _] Hs] [[Hy _] Ht]. unfold StateKey_to_bytes. simpl in *.
  intros E. apply app_inj_1 in E as [-> E]; [|congruence].
  f_equal. by apply U256_to_be_bytes_inj.
Qed.

(** ** 256-bit arithmetic *)

(** C26: a [U256] is a number below 2^256: addition over four limbs with
    carries is addition modulo 2^256, commutative and associative, exact when
    the sum fits and off by exactly 2^256 when it does not; the result is
    again well formed, and its 32 big-endian bytes determine it. *)
Theorem u256_arithmetic (a b c : U256) :
  is_u256 a -> is_u256 b -> is_u256 c ->
  is_u256 (U256_wrapping_add a b) /\
  u256_val (U256_wrapping_add a b) = (if u256_val a + u256_val b <? 2 ^ 256 then u256_val a + u256_val b
                                      else u256_val a + u256_val b - 2 ^ 256) /\
  U256_wrapping_add a b = U256_wrapping_add b a /\
  U256_wrapping_add (U256_wrapping_add a b) c = U256_wrapping_add a (U256_wrapping_add b c) /\
  U256_from_be_bytes (U256_to_be_bytes (U256_wrapping_add a b)) = U256_wrapping_add a b /\
  is_bytes 32 (U256_to_be_bytes (U256_wrapping_add a b)).
Proof.
  intros Ha Hb Hc. pose proof (is_u256_wrapping_add a b Ha Hb) as Hab. pose proof (is_u256_wrapping_add b c Hb Hc) as Hbc.
  split_and!; [done| | | |by apply U256_from_to_be_bytes|apply U256_to_be_bytes_is].
  - rewrite U256_add_mod by done. pose proof (u256_val_bound a Ha). pose proof (u256_val_bound b Hb).
    destruct (Z.ltb_spec (u256_val a + u256_val b) (2 ^ 256)); [apply Z.mod_small; lia|].
    symmetry. apply (Z.mod_unique_pos _ _ 1); lia.
  - apply u256_val_inj; [done|by apply is_u256_wrapping_add|]. rewrite !U256_add_mod by done. f_equal. lia.
  - apply u256_val_inj; [by apply is_u256_wrapping_add..|]. rewrite !U256_add_mod by done.
    rewrite Z.add_mod_idemp_l, Z.add_mod_idemp_r by lia. f_equal. lia.
Qed.

Lemma u256_arithmetic_witness :
  u256_val (U256_wrapping_add (mkU256 u64_max u64_max u64_max u64_max) (U256_from_u64 5)) = 4.
Proof.
  destruct (u256_arithmetic (mkU256 u64_max u64_max u64_max u64_max) (U256_from_u64 5) U256_ZERO) as (_ & Hv & _).
  - repeat constructor; vm_compute; discriminate.
  - apply is_u256_from_u64. vm_compute. split; [discriminate|reflexivity].
  - apply is_u256_ZERO.
  - rewrite Hv. vm_compute. reflexivity.
Defined.
