(* ===== verification/Digest.v ===== *)
(** * SHA-256 and Keccak-256

    The hash functions are parameters of the model, the class [Hashes].  This
    file has the functions that the [sha2] and [sha3] crates document, after
    FIPS 180-4 and the Keccak submission (with the padding of Ethereum), so
    that the program's tests can be evaluated on the digests they see. *)

From S2P Require Import Prelude Types.

(** ** SHA-256 *)

Definition mask32 : Z := 2 ^ 32 - 1.
Definition add32 (a b : Z) : Z := Z.land (a + b) mask32.
Definition rotr32 (x n : Z) : Z := Z.lor (Z.shiftr x n) (Z.land (Z.shiftl x (32 - n)) mask32).

(** The constants are computed from their definition in the standard: the first
    32 bits of the fractional parts of roots of the first primes. *)
Definition is_prime (n : Z) : bool := forallb (fun d => negb (n mod d =? 0)) (seqZ 2 (n - 2)).
Definition primes : list Z := Eval vm_compute in List.filter is_prime (seqZ 2 310).

(** The integer cube root, by bisection of [lo, lo + 2^k). *)
Fixpoint cube_root (k : nat) (lo x : Z) : Z :=
  match k with
  | O => lo
  | S k => let mid := lo + 2 ^ Z.of_nat k in cube_root k (if mid ^ 3 <=? x then mid else lo) x
  end.

Definition sha_k : list Z :=
  Eval vm_compute in map (fun p => cube_root 36 0 (p * 2 ^ 96) mod 2 ^ 32) (take 64 primes).

Record Sha := mkSha { sa : Z; sb : Z; sc : Z; sd : Z; se : Z; sf : Z; sg : Z; sh : Z }.

Definition sha_init : Sha :=
  Eval vm_compute in
  match map (fun p => Z.sqrt (p * 2 ^ 64) mod 2 ^ 32) (take 8 primes) with
  | [a; b; c; d; e; f; g; h] => mkSha a b c d e f g h
  | _ => mkSha 0 0 0 0 0 0 0 0
  end.

Definition sha_padding (len : nat) : bytes :=
  128 :: replicate (Z.to_nat ((55 - Z.of_nat len) mod 64)) 0 ++ be_bytes 8 (8 * Z.of_nat len).

(** The message split into pieces of [n] bytes. *)
Fixpoint pieces (fuel n : nat) (d : bytes) : list bytes :=
  match fuel, d with
  | S fuel, _ :: _ => take n d :: pieces fuel n (drop n d)
  | _, _ => []
  end.

(** The message schedule, last word first. *)
Fixpoint sha_schedule (k : nat) (w : list Z) : list Z :=
  match k with
  | O => w
  | S k =>
      let x := nth 14 w 0 in
      let y := nth 1 w 0 in
      let s0 := Z.lxor (Z.lxor (rotr32 x 7) (rotr32 x 18)) (Z.shiftr x 3) in
      let s1 := Z.lxor (Z.lxor (rotr32 y 17) (rotr32 y 19)) (Z.shiftr y 10) in
      sha_schedule k (Z.land (nth 15 w 0 + s0 + nth 6 w 0 + s1) mask32 :: w)
  end.

Definition sha_round (s : Sha) (kw : Z * Z) : Sha :=
  let 'mkSha a b c d e f g h := s in
  let s1 := Z.lxor (Z.lxor (rotr32 e 6) (rotr32 e 11)) (rotr32 e 25) in
  let ch := Z.lxor (Z.land e f) (Z.land (Z.lxor e mask32) g) in
  let t1 := h + s1 + ch + kw.1 + kw.2 in
  let s0 := Z.lxor (Z.lxor (rotr32 a 2) (rotr32 a 13)) (rotr32 a 22) in
  let maj := Z.lxor (Z.lxor (Z.land a b) (Z.land a c)) (Z.land b c) in
  mkSha (add32 t1 (s0 + maj)) a b c (add32 d t1) e f g.

Definition sha_block (s : Sha) (block : bytes) : Sha :=
  let w := reverse (sha_schedule 48 (reverse (map of_be_bytes (pieces 16 4 block)))) in
  let t := fold_left sha_round (combine sha_k w) s in
  mkSha (add32 (sa s) (sa t)) (add32 (sb s) (sb t)) (add32 (sc s) (sc t)) (add32 (sd s) (sd t))
    (add32 (se s) (se t)) (add32 (sf s) (sf t)) (add32 (sg s) (sg t)) (add32 (sh s) (sh t)).

Definition sha256_std (d : bytes) : bytes :=
  let m := d ++ sha_padding (length d) in
  let s := fold_left sha_block (pieces (length m) 64 m) sha_init in
  be_bytes 4 (sa s) ++ be_bytes 4 (sb s) ++ be_bytes 4 (sc s) ++ be_bytes 4 (sd s) ++
  be_bytes 4 (se s) ++ be_bytes 4 (sf s) ++ be_bytes 4 (sg s) ++ be_bytes 4 (sh s).

(** ** Keccak-256 *)

Definition mask64 : Z := 2 ^ 64 - 1.
Definition rotl64 (x n : Z) : Z := Z.land (Z.lor (Z.shiftl x n) (Z.shiftr x (64 - n))) mask64.

Definition keccak_rc : list Z :=
  [0x0000000000000001; 0x0000000000008082; 0x800000000000808a; 0x8000000080008000; 0x000000000000808b; 0x0000000080000001;
   0x8000000080008081; 0x8000000000008009; 0x000000000000008a; 0x0000000000000088; 0x0000000080008009; 0x000000008000000a;
   0x000000008000808b; 0x800000000000008b; 0x8000000000008089; 0x8000000000008003; 0x8000000000008002; 0x8000000000000080;
   0x000000000000800a; 0x800000008000000a; 0x8000000080008081; 0x8000000000008080; 0x0000000080000001; 0x8000000080008008].

(** The offsets of rho, lane [(x, y)] at [x + 5 y]. *)
Definition keccak_rho : list Z :=
  [0; 1; 62; 28; 27; 36; 44; 6; 55; 20; 3; 10; 43; 25; 39; 41; 45; 15; 21; 8; 18; 2; 61; 56; 14].

Definition lane (a : list Z) (x y : nat) : Z := nth (x mod 5 + 5 * (y mod 5)) a 0.

(** A state given by its lanes. *)
Definition lanes (f : nat -> nat -> Z) : list Z := map (fun i => f (i mod 5)%nat (i / 5)%nat) (seq 0 25).

Definition keccak_round (a : list Z) (rc : Z) : list Z :=
  let c := map (fun x => Z.lxor (Z.lxor (Z.lxor (Z.lxor (lane a x 0) (lane a x 1)) (lane a x 2)) (lane a x 3)) (lane a x 4)) (seq 0 5) in
  let d := map (fun x => Z.lxor (nth ((x + 4) mod 5) c 0) (rotl64 (nth ((x + 1) mod 5) c 0) 1)) (seq 0 5) in
  let theta := lanes (fun x y => Z.lxor (lane a x y) (nth x d 0)) in
  let rho := map (fun p => rotl64 p.1 p.2) (combine theta keccak_rho) in
  (* pi moves lane (x, y) to (y, 2 x + 3 y) *)
  let b := lanes (fun x y => lane rho (x + 3 * y) x) in
  let chi := lanes (fun x y => Z.lxor (lane b x y) (Z.land (Z.lxor (lane b (x + 1) y) mask64) (lane b (x + 2) y))) in
  match chi with l :: chi => Z.lxor l rc :: chi | [] => [] end.

Definition keccak_f (a : list Z) : list Z := fold_left keccak_round keccak_rc a.

Definition keccak_padding (len : nat) : bytes :=
  match (135 - len mod 136)%nat with
  | O => [129]
  | S n => 1 :: replicate n 0 ++ [128]
  end.

Definition keccak_absorb (a : list Z) (block : bytes) : list Z :=
  let w := map of_le_bytes (pieces 17 8 block) ++ replicate 8 0 in
  keccak_f (map (fun p => Z.lxor p.1 p.2) (combine a w)).

Definition keccak256_std (d : bytes) : bytes :=
  let m := d ++ keccak_padding (length d) in
  let a := fold_left keccak_absorb (pieces (length m) 136 m) (replicate 25 0) in
  le_bytes 8 (nth 0 a 0) ++ le_bytes 8 (nth 1 a 0) ++ le_bytes 8 (nth 2 a 0) ++ le_bytes 8 (nth 3 a 0).

Definition std_hashes : Hashes := {| sha256 := sha256_std; keccak256 := keccak256_std |}.

Lemma std_hashes_ok : @HashesOk std_hashes.
Proof.
  split; intros d.
  - apply (is_bytes_app 4 28), (is_bytes_app 4 24), (is_bytes_app 4 20), (is_bytes_app 4 16), (is_bytes_app 4 12),
      (is_bytes_app 4 8), (is_bytes_app 4 4); apply be_bytes_is.
  - apply (is_bytes_app 8 24), (is_bytes_app 8 16), (is_bytes_app 8 8); apply le_bytes_is.
Qed.

(** The published digests of the empty message and of "abc". *)
Lemma sha256_vectors :
  sha256_std [] = be_bytes 32 0xe3b0c44298fc1c149afbf4c8996fb92427ae41e4649b934ca495991b7852b855 /\
  sha256_std [97; 98; 99] = be_bytes 32 0xba7816bf8f01cfea414140de5dae2223b00361a396177a9cb410ff61f20015ad.
Proof. split; vm_compute; reflexivity. Qed.

Lemma keccak256_vectors :
  keccak256_std [] = be_bytes 32 0xc5d2460186f7233c927e7db2dcc703c0e500b653ca82273b7bfad8045d85a470 /\
  keccak256_std [97; 98; 99] = be_bytes 32 0x4e03657aea45a94fc7d47ba826c8d667c0d1e6e33a64a036ec44f58fa12d6c45.
Proof. split; vm_compute; reflexivity. Qed.
