(* ===== verification/Lamport.v ===== *)
(** * The Lamport clock: [src/types/lamport.rs]

    The methods of [LamportClock] as functions on the value of the atomic,
    and, because the clock is shared between threads, a step relation in which
    any number of threads interleave [tick] (one [fetch_add]) with the
    load / compare-and-swap loop of [witness]. *)

From S2P Require Import Prelude.

(** ** The methods on one thread *)

Record LamportClock := mkClock { clock_value : Z }.

Definition LamportClock_new : LamportClock := mkClock 0.
Definition LamportClock_default : LamportClock := LamportClock_new.
Definition LamportClock_with_initial (initial : Z) : LamportClock := mkClock initial.
Definition LamportClock_current (c : LamportClock) : Z := clock_value c.

Definition LamportClock_tick (c : LamportClock) : LamportClock * Z :=
  (mkClock (clock_value c ⊞ 1), clock_value c ⊞ 1).

(** The time [witness] computes from the loaded value. *)
Definition witness_time (current received : Z) : Z := Z.max current received ⊞ 1.

(** [witness] with no interference: the first compare-and-swap succeeds. *)
Definition LamportClock_witness (c : LamportClock) (received : Z) : LamportClock * Z :=
  (mkClock (witness_time (clock_value c) received), witness_time (clock_value c) received).

Definition LamportClock_witness_many (c : LamportClock) (timestamps : list Z) : LamportClock * Z :=
  LamportClock_witness c (max_or_0 timestamps).

Definition LamportClock_clone (c : LamportClock) : LamportClock :=
  LamportClock_with_initial (LamportClock_current c).

(** ** Threads sharing the clock *)

Inductive Op :=
| Tick
| Witness (received : Z).

(** Where a thread is inside a call: not in one, at the top of the loop of
    [witness], or between its load and its compare-and-swap. *)
Inductive Pc :=
| Idle
| Loop (received : Z)
| Loaded (received current new_time : Z).

Record Machine := mkMachine {
  m_clock : LamportClock;
  m_threads : gmap nat Pc;
  m_done : list (Op * Z)  (** completed calls with their results, latest first *)
}.

Definition m_init (c : LamportClock) (n : nat) : Machine :=
  mkMachine c (list_to_map (map (fun i => (i, Idle)) (seq 0 n))) [].

Inductive mstep : Machine -> Machine -> Prop :=
| step_tick c ts dn i :
    ts !! i = Some Idle ->
    mstep (mkMachine c ts dn)
      (mkMachine (LamportClock_tick c).1 ts ((Tick, (LamportClock_tick c).2) :: dn))
| step_call c ts dn i r :
    ts !! i = Some Idle ->
    mstep (mkMachine c ts dn) (mkMachine c (<[i := Loop r]> ts) dn)
| step_load c ts dn i r :
    ts !! i = Some (Loop r) ->
    mstep (mkMachine c ts dn)
      (mkMachine c (<[i := Loaded r (clock_value c) (witness_time (clock_value c) r)]> ts) dn)
| step_cas_ok c ts dn i r cur new :
    ts !! i = Some (Loaded r cur new) -> clock_value c = cur ->
    mstep (mkMachine c ts dn)
      (mkMachine (mkClock new) (<[i := Idle]> ts) ((Witness r, new) :: dn))
| step_cas_fail c ts dn i r cur new :
    ts !! i = Some (Loaded r cur new) -> clock_value c <> cur ->
    mstep (mkMachine c ts dn) (mkMachine c (<[i := Loop r]> ts) dn).

(** ** The atomic specification: the calls one after the other *)

Definition apply_op (o : Op) (c : LamportClock) : LamportClock * Z :=
  match o with
  | Tick => LamportClock_tick c
  | Witness r => LamportClock_witness c r
  end.

Fixpoint run_ops (ops : list Op) (c : LamportClock) : LamportClock * list Z :=
  match ops with
  | [] => (c, [])
  | o :: ops =>
      let '(c, x) := apply_op o c in
      let '(c, xs) := run_ops ops c in
      (c, x :: xs)
  end.

(** ** Lemmas *)

Lemma run_ops_app ops1 ops2 c :
  run_ops (ops1 ++ ops2) c =
    let '(c1, xs1) := run_ops ops1 c in
    let '(c2, xs2) := run_ops ops2 c1 in (c2, xs1 ++ xs2).
Proof.
  revert c. induction ops1 as [|o ops1 IH]; intros c; simpl; [by destruct (run_ops ops2 c)|].
  destruct (apply_op o c) as [c1 x]. rewrite IH.
  destruct (run_ops ops1 c1) as [c2 xs]. by destruct (run_ops ops2 c2).
Qed.

(** Between load and compare-and-swap, [new_time] is the one computed from the
    loaded value. *)
Definition pc_ok (p : Pc) : Prop :=
  match p with
  | Loaded r cur new => new = witness_time cur r
  | _ => True
  end.

Definition machine_ok (c0 : LamportClock) (m : Machine) : Prop :=
  map_Forall (fun _ p => pc_ok p) (m_threads m) /\
  run_ops (rev (map fst (m_done m))) c0 = (m_clock m, rev (map snd (m_done m))).

Lemma machine_ok_init c n : machine_ok c (m_init c n).
Proof.
  split; [|done]. intros i p Hp. apply elem_of_list_to_map_2 in Hp.
  apply list_elem_of_fmap in Hp as (j & [= -> ->] & _). done.
Qed.

(** Recording a call whose result is the atomic one keeps the log exact. *)
Lemma log_snoc c0 c (dn : list (Op * Z)) o :
  run_ops (rev (map fst dn)) c0 = (c, rev (map snd dn)) ->
  run_ops (rev (map fst ((o, (apply_op o c).2) :: dn))) c0 =
    ((apply_op o c).1, rev (map snd ((o, (apply_op o c).2) :: dn))).
Proof.
  intros E. simpl. rewrite run_ops_app, E. simpl. by destruct (apply_op o c).
Qed.

Lemma machine_ok_step c0 m m' : machine_ok c0 m -> mstep m m' -> machine_ok c0 m'.
Proof.
  intros [Hpc Hlog] Hs. destruct Hs as [c ts dn i Hi|c ts dn i r Hi|c ts dn i r Hi
    |c ts dn i r cur new Hi Hc|c ts dn i r cur new Hi Hc]; unfold machine_ok in *; simpl in *.
  - split; [done|]. by apply (log_snoc c0 c dn Tick).
  - split; [|done]. by apply map_Forall_insert_2.
  - split; [|done]. by apply map_Forall_insert_2.
  - pose proof (Hpc _ _ Hi) as Hnew. simpl in Hnew. split; [by apply map_Forall_insert_2|].
    subst. by apply (log_snoc c0 c dn (Witness r)).
  - split; [|done]. by apply map_Forall_insert_2.
Qed.

Lemma machine_ok_reachable c0 m m' : machine_ok c0 m -> rtc mstep m m' -> machine_ok c0 m'.
Proof. intros H Hr. induction Hr; eauto using machine_ok_step. Qed.

(** No call of the list can overflow the clock. *)
Fixpoint ops_fit (ops : list Op) (v : Z) : Prop :=
  match ops with
  | [] => True
  | Tick :: ops => v + 1 < u64_bound /\ ops_fit ops (v + 1)
  | Witness r :: ops =>
      0 <= r /\ Z.max v r + 1 < u64_bound /\ ops_fit ops (Z.max v r + 1)
  end.

Lemma run_ops_increasing ops c :
  0 <= clock_value c -> ops_fit ops (clock_value c) ->
  let '(c', xs) := run_ops ops c in
  clock_value c <= clock_value c' /\
  StronglySorted Z.lt (clock_value c :: xs) /\
  Forall (fun x => x <= clock_value c') xs /\
  Forall2 (fun o x => match o with Tick => True | Witness r => r < x end) ops xs.
Proof.
  revert c. induction ops as [|o ops IH]; intros [v] Hv Hfit; simpl in Hv, Hfit |- *.
  { repeat constructor; lia. }
  assert (exists x, apply_op o (mkClock v) = (mkClock x, x) /\ v < x /\ ops_fit ops x /\
    match o with Tick => True | Witness r => r < x end) as (x & -> & Hx & Hf & Ho).
  { destruct o as [|r]; simpl in *; eexists.
    - unfold LamportClock_tick. simpl. destruct Hfit as [Hb Hfit].
      rewrite u64_add_exact by u64_lia. repeat split; try done; lia.
    - unfold LamportClock_witness, witness_time. simpl.
      destruct Hfit as (Hr & Hb & Hfit). rewrite u64_add_exact by u64_lia.
      repeat split; try done; lia. }
  specialize (IH (mkClock x)). simpl in IH. destruct (run_ops ops (mkClock x)) as [c' xs].
  destruct IH as (H1 & H2 & H3 & H4); [lia|done|].
  split; [lia|]. split; [|split; [by constructor|by constructor]].
  constructor; [done|]. constructor; [done|].
  inversion_clear H2 as [|? ? _ Hall]. eapply Forall_impl; [done|]. simpl. lia.
Qed.

(** ** Properties *)

(** C28: linearizability.  Whatever way the threads interleave, the completed
    calls return exactly what they return when executed one after the other in
    completion order, and leave the clock at the same value; in particular a
    [witness] whose compare-and-swap lost a race never returns a stale time. *)
Theorem lamport_linearizable (c : LamportClock) (n : nat) (m : Machine) :
  rtc mstep (m_init c n) m ->
  run_ops (rev (map fst (m_done m))) c = (m_clock m, rev (map snd (m_done m))).
Proof. intros Hr. apply (machine_ok_reachable c (m_init c n) m); [apply machine_ok_init|done]. Qed.

Lemma lamport_linearizable_witness :
  exists m, rtc mstep (m_init LamportClock_new 2) m /\ m_done m = [(Witness 7, 8); (Tick, 1)] /\
    run_ops (rev (map fst (m_done m))) LamportClock_new = (m_clock m, rev (map snd (m_done m))).
Proof.
  eexists. split; [|split; [|apply (lamport_linearizable LamportClock_new 2)]].
  1, 3: eapply rtc_l; [eapply (step_call _ _ _ 0%nat 7); reflexivity|];
    eapply rtc_l; [eapply (step_load _ _ _ 0%nat 7); reflexivity|];
    eapply rtc_l; [eapply (step_tick _ _ _ 1%nat); reflexivity|];
    eapply rtc_l; [eapply (step_cas_fail _ _ _ 0%nat 7); [reflexivity|vm_compute; discriminate]|];
    eapply rtc_l; [eapply (step_load _ _ _ 0%nat 7); reflexivity|];
    eapply rtc_l; [eapply (step_cas_ok _ _ _ 0%nat 7); reflexivity|]; apply rtc_refl.
  vm_compute. reflexivity.
Defined.

(** Monotonicity.  As long as no call of the execution overflows 64 bits,
    the results of all calls of all threads are strictly increasing in
    completion order (so no timestamp is issued twice), none exceeds the
    clock, and a [witness] returns a time later than the one it received. *)
Theorem lamport_monotone (c : LamportClock) (n : nat) (m : Machine) :
  rtc mstep (m_init c n) m -> 0 <= clock_value c ->
  ops_fit (rev (map fst (m_done m))) (clock_value c) ->
  StronglySorted Z.lt (clock_value c :: rev (map snd (m_done m))) /\
  Forall (fun x => x <= clock_value (m_clock m)) (map snd (m_done m)) /\
  Forall (fun '(o, x) => match o with Tick => True | Witness r => r < x end) (m_done m).
Proof.
  intros Hr H0 Hfit.
  destruct (machine_ok_reachable c _ m (machine_ok_init c n) Hr) as [_ Hlog].
  pose proof (run_ops_increasing _ _ H0 Hfit) as Hinc. rewrite Hlog in Hinc.
  destruct Hinc as (_ & Hs & Hle & Hw). split; [done|]. split.
  - rewrite <- (rev_involutive (map snd (m_done m))). by apply Forall_rev.
  - rewrite <- !map_rev in Hw. rewrite <- (rev_involutive (m_done m)). apply Forall_rev.
    clear -Hw. induction (rev (m_done m)) as [|[o x] l IH]; [constructor|].
    inversion_clear Hw. constructor; auto.
Qed.

Lemma lamport_monotone_witness :
  exists m, rtc mstep (m_init LamportClock_new 1) m /\ map snd (m_done m) = [2; 1] /\
    StronglySorted Z.lt (0 :: rev (map snd (m_done m))).
Proof.
  eexists. split; [|split; [|eapply (lamport_monotone LamportClock_new 1)]].
  1, 3: eapply rtc_l; [eapply (step_tick _ _ _ 0%nat); reflexivity|];
    eapply rtc_l; [eapply (step_tick _ _ _ 0%nat); reflexivity|]; apply rtc_refl.
  - vm_compute. reflexivity.
  - vm_compute. discriminate.
  - vm_compute. repeat split; done.
Defined.
