(* ===== verification/Transaction.v ===== *)
(** * Transactions: [src/types/transaction.rs]

    Encrypted transactions and their batches with the Merkle root of the
    commitments, decrypted transactions with their commitment hash, and the
    ordered batch that assigns global sequence numbers. *)

From S2P Require Import Prelude Types.

(** ** Encrypted form *)

Record ThresholdCapsule := mkCapsule {
  ephemeral_pubkey : bytes;
  encrypted_shares : bytes
}.

Record EncryptedTransaction := mkEncryptedTx {
  etx_ciphertext : bytes;
  etx_capsule : ThresholdCapsule;
  etx_commitment : bytes
}.

Record EncryptedBatch := mkBatch {
  batch_transactions : list EncryptedTransaction;
  batch_root : bytes
}.

Definition EncryptedBatch_empty : EncryptedBatch := mkBatch [] (replicate 32 0).

Definition EncryptedBatch_len (b : EncryptedBatch) : nat := length (batch_transactions b).

Definition EncryptedBatch_is_empty (b : EncryptedBatch) : bool :=
  match batch_transactions b with [] => true | _ => false end.

(** The 64-byte blocks one pass over a layer hashes: [layer.chunks(2)], an odd
    last element being paired with itself. *)
Fixpoint merkle_blocks (layer : list bytes) : list bytes :=
  match layer with
  | [] => []
  | [a] => [a ++ a]
  | a :: b :: layer => (a ++ b) :: merkle_blocks layer
  end.

Section with_hashes.
Context `{Hashes}.

Definition merkle_layer (layer : list bytes) : list bytes :=
  map sha256 (merkle_blocks layer).

(** The [while layer.len() > 1] loop. *)
Fixpoint merkle_loop (fuel : nat) (layer : list bytes) : list bytes :=
  match fuel with
  | O => layer
  | S fuel => if (1 <? length layer)%nat then merkle_loop fuel (merkle_layer layer) else layer
  end.

Definition compute_merkle_root (txs : list EncryptedTransaction) : bytes :=
  match txs with
  | [] => replicate 32 0
  | [tx] => etx_commitment tx
  | _ =>
      let layer := map etx_commitment txs in
      hd [] (merkle_loop (length layer) layer)
  end.

Definition EncryptedBatch_from_transactions (txs : list EncryptedTransaction) : EncryptedBatch :=
  mkBatch txs (compute_merkle_root txs).
End with_hashes.

(** ** Decrypted form *)

Record DecryptedTransaction := mkTx {
  tx_from : Address;
  tx_to : option Address;
  tx_value : U256;
  tx_gas_limit : Z;
  tx_gas_price : U256;
  tx_nonce : Z;
  tx_data : bytes;
  tx_source_commitment : bytes;
  tx_sequence_number : Z
}.

(** The bytes [compute_hash] feeds to the hasher, in order. *)
Definition tx_hash_input (tx : DecryptedTransaction) : bytes :=
  address_0 (tx_from tx) ++
  match tx_to tx with
  | Some to => [1] ++ address_0 to
  | None => [0]
  end ++
  U256_to_be_bytes (tx_value tx) ++
  le_bytes 8 (tx_gas_limit tx) ++
  U256_to_be_bytes (tx_gas_price tx) ++
  le_bytes 8 (tx_nonce tx) ++
  tx_data tx.

Definition DecryptedTransaction_compute_hash `{Hashes} (tx : DecryptedTransaction) : bytes :=
  keccak256 (tx_hash_input tx).

Definition DecryptedTransaction_verify_commitment `{Hashes} (tx : DecryptedTransaction) : bool :=
  bool_decide (DecryptedTransaction_compute_hash tx = tx_source_commitment tx).

Definition DecryptedTransaction_is_create (tx : DecryptedTransaction) : bool :=
  match tx_to tx with None => true | Some _ => false end.

Definition set_sequence_number (s : Z) (tx : DecryptedTransaction) : DecryptedTransaction :=
  mkTx (tx_from tx) (tx_to tx) (tx_value tx) (tx_gas_limit tx) (tx_gas_price tx)
    (tx_nonce tx) (tx_data tx) (tx_source_commitment tx) s.

Record OrderedBatch := mkOrderedBatch {
  ob_transactions : list DecryptedTransaction;
  ob_start_sequence : Z;
  ob_round : Z
}.

Definition OrderedBatch_new (txs : list DecryptedTransaction) (start_seq round : Z) : OrderedBatch :=
  mkOrderedBatch (imap (fun i => set_sequence_number (start_seq ⊞ Z.of_nat i)) txs) start_seq round.

Definition OrderedBatch_end_sequence (b : OrderedBatch) : Z :=
  ob_start_sequence b ⊞ Z.of_nat (length (ob_transactions b)).

#[global] Instance ThresholdCapsule_eq_dec : EqDecision ThresholdCapsule.
Proof. solve_decision. Defined.
#[global] Instance EncryptedTransaction_eq_dec : EqDecision EncryptedTransaction.
Proof. solve_decision. Defined.
#[global] Instance EncryptedBatch_eq_dec : EqDecision EncryptedBatch.
Proof. solve_decision. Defined.
#[global] Instance DecryptedTransaction_eq_dec : EqDecision DecryptedTransaction.
Proof. solve_decision. Defined.

(** ** Merkle lemmas *)

(** Induction two elements at a time, the shape of [chunks(2)]. *)
Lemma list_pair_ind {A} (P : list A -> Prop) :
  P [] -> (forall a, P [a]) -> (forall a b l, P l -> P (a :: b :: l)) -> forall l, P l.
Proof.
  intros H0 H1 H2. fix IH 1. intros [|a [|b l]]; [done|apply H1|apply H2, IH].
Qed.

Lemma length_merkle_blocks layer :
  (2 * length (merkle_blocks layer) <= S (length layer) /\
   length layer <= 2 * length (merkle_blocks layer))%nat.
Proof. induction layer using list_pair_ind; simpl in *; lia. Qed.

(** Layers of equal length whose blocks agree are equal: the halves have a
    fixed width. *)
Lemma merkle_blocks_inj l1 l2 :
  length l1 = length l2 ->
  Forall (fun b => length b = 32%nat) l1 -> Forall (fun b => length b = 32%nat) l2 ->
  merkle_blocks l1 = merkle_blocks l2 -> l1 = l2.
Proof.
  revert l2. induction l1 as [|a|a b l1 IH] using list_pair_ind;
    intros [|a' [|b' l2]] Hl H1 H2 E; simpl in *; try done; try lia.
  - apply Forall_cons in H1 as [H1 _], H2 as [H2 _]. injection E as E.
    apply app_inj_1 in E as [-> _]; [done|congruence].
  - apply Forall_cons in H1 as [A1 [B1 H1]%Forall_cons], H2 as [A2 [B2 H2]%Forall_cons].
    injection E as E E'. apply app_inj_1 in E as [-> ->]; [|congruence].
    f_equal. f_equal. apply IH; auto with lia.
Qed.

Section merkle.
Context `{Hashes} `{!HashesOk}.

Lemma length_merkle_layer layer : length (merkle_layer layer) = length (merkle_blocks layer).
Proof. apply length_map. Qed.

Lemma merkle_layer_32 layer : Forall (fun b => length b = 32%nat) (merkle_layer layer).
Proof. unfold merkle_layer. apply Forall_map, Forall_true. intros d. apply sha256_is_bytes. Qed.

(** Enough fuel: the loop ends with exactly one hash. *)
Lemma merkle_loop_terminates fuel layer :
  (1 <= length layer <= fuel)%nat -> exists r, merkle_loop fuel layer = [r].
Proof.
  revert layer. induction fuel as [|fuel IH]; intros layer Hl; [lia|]. simpl.
  destruct (1 <? length layer)%nat eqn:E; bool_to_prop.
  - apply IH. rewrite length_merkle_layer. pose proof (length_merkle_blocks layer). lia.
  - destruct layer as [|r [|]]; simpl in *; try lia. eauto.
Qed.

(** All the blocks the loop hashes, over all layers. *)
Fixpoint merkle_trace (fuel : nat) (layer : list bytes) : list bytes :=
  match fuel with
  | O => []
  | S fuel =>
      if (1 <? length layer)%nat then merkle_blocks layer ++ merkle_trace fuel (merkle_layer layer)
      else []
  end.

(** No two different blocks of [l] have the same digest. *)
Definition sha256_injective_on (l : list bytes) : Prop :=
  forall a b, a ∈ l -> b ∈ l -> sha256 a = sha256 b -> a = b.

Lemma injective_on_by_check l :
  bool_decide (Forall (fun a => Forall (fun b => sha256 a = sha256 b -> a = b) l) l) = true ->
  sha256_injective_on l.
Proof.
  intros Hb%bool_decide_eq_true a b Ha Hb'. rewrite Forall_forall in Hb.
  specialize (Hb a Ha). rewrite Forall_forall in Hb. auto.
Qed.

Lemma map_sha256_inj l1 l2 l :
  sha256_injective_on l -> l1 ⊆ l -> l2 ⊆ l -> map sha256 l1 = map sha256 l2 -> l1 = l2.
Proof.
  intros Hi. revert l2. induction l1 as [|a l1 IH]; intros [|b l2] H1 H2 E; try done.
  injection E as E E'. f_equal; [apply Hi; set_solver|apply IH; set_solver].
Qed.

Lemma merkle_loop_inj fuel l1 l2 :
  length l1 = length l2 ->
  Forall (fun b => length b = 32%nat) l1 -> Forall (fun b => length b = 32%nat) l2 ->
  sha256_injective_on (merkle_trace fuel l1 ++ merkle_trace fuel l2) ->
  merkle_loop fuel l1 = merkle_loop fuel l2 -> l1 = l2.
Proof.
  revert l1 l2. induction fuel as [|fuel IH]; intros l1 l2 Hl H1 H2 Hi E; [done|].
  simpl in Hi, E. rewrite <- Hl in Hi, E. destruct (1 <? length l1)%nat; [|done].
  apply merkle_blocks_inj; try done.
  apply (map_sha256_inj _ _ _ Hi); [set_solver|set_solver|].
  change (merkle_layer l1 = merkle_layer l2). apply IH; auto using merkle_layer_32.
  - rewrite !length_merkle_layer. pose proof (length_merkle_blocks l1).
    pose proof (length_merkle_blocks l2). lia.
  - intros a b. rewrite !elem_of_app. intros Ha Hb. apply Hi; rewrite !elem_of_app; tauto.
Qed.
End merkle.

(** ** The hash input of a decrypted transaction *)

(** The widths the Rust types guarantee. *)
Record tx_ok (tx : DecryptedTransaction) : Prop := {
  tx_from_ok : is_address (tx_from tx);
  tx_to_ok : forall to, tx_to tx = Some to -> is_address to;
  tx_value_ok : is_u256 (tx_value tx);
  tx_gas_limit_ok : is_u64 (tx_gas_limit tx);
  tx_gas_price_ok : is_u256 (tx_gas_price tx);
  tx_nonce_ok : is_u64 (tx_nonce tx);
  tx_sequence_ok : is_u64 (tx_sequence_number tx)
}.

Lemma le_bytes_8_inj x y : is_u64 x -> is_u64 y -> le_bytes 8 x = le_bytes 8 y -> x = y.
Proof.
  intros Hx Hy E. rewrite <- (of_le_le_bytes 8 x), <- (of_le_le_bytes 8 y); congruence || done.
Qed.

Lemma tx_hash_input_inj t1 t2 :
  tx_ok t1 -> tx_ok t2 -> tx_hash_input t1 = tx_hash_input t2 ->
  tx_from t1 = tx_from t2 /\ tx_to t1 = tx_to t2 /\ tx_value t1 = tx_value t2 /\
  tx_gas_limit t1 = tx_gas_limit t2 /\ tx_gas_price t1 = tx_gas_price t2 /\
  tx_nonce t1 = tx_nonce t2 /\ tx_data t1 = tx_data t2.
Proof.
  intros [F1 T1 V1 L1 P1 N1 _] [F2 T2 V2 L2 P2 N2 _] E. unfold tx_hash_input in E.
  destruct (tx_from t1) as [f1], (tx_from t2) as [f2]. destruct F1 as [F1 _], F2 as [F2 _].
  cbn [address_0] in F1, F2, E. apply app_inj_1 in E as [-> E]; [|congruence].
  assert (tx_to t1 = tx_to t2 /\
    U256_to_be_bytes (tx_value t1) ++ le_bytes 8 (tx_gas_limit t1) ++
      U256_to_be_bytes (tx_gas_price t1) ++ le_bytes 8 (tx_nonce t1) ++ tx_data t1 =
    U256_to_be_bytes (tx_value t2) ++ le_bytes 8 (tx_gas_limit t2) ++
      U256_to_be_bytes (tx_gas_price t2) ++ le_bytes 8 (tx_nonce t2) ++ tx_data t2) as [Ht E'].
  { destruct (tx_to t1) as [[a1]|], (tx_to t2) as [[a2]|]; try done.
    - destruct (T1 _ eq_refl) as [A1 _], (T2 _ eq_refl) as [A2 _]. cbn [address_0] in *.
      rewrite <- !(app_assoc [1]) in E. apply app_inj_1 in E as [_ E]; [|done].
      apply app_inj_1 in E as [-> E]; [done|congruence].
    - by apply app_inj_1 in E as [_ E]. }
  destruct (U256_to_be_bytes_is (tx_value t1)) as [W1 _], (U256_to_be_bytes_is (tx_value t2)) as [W2 _].
  apply app_inj_1 in E' as [Ev E']; [|congruence].
  apply app_inj_1 in E' as [El E']; [|by rewrite !length_le_bytes].
  destruct (U256_to_be_bytes_is (tx_gas_price t1)) as [X1 _], (U256_to_be_bytes_is (tx_gas_price t2)) as [X2 _].
  apply app_inj_1 in E' as [Ep E']; [|congruence].
  apply app_inj_1 in E' as [En Ed]; [|by rewrite !length_le_bytes].
  repeat split; auto using U256_to_be_bytes_inj, le_bytes_8_inj.
Qed.

(** ** Properties *)

(** C29: the Merkle root binds the commitments.  Two batches of the same size
    with the same root have the same commitments in the same order, unless
    SHA-256 collides on two of the blocks hashed for them. *)
Theorem merkle_root_binding `{Hashes} `{!HashesOk} (txs1 txs2 : list EncryptedTransaction) :
  length txs1 = length txs2 ->
  Forall (fun tx => is_bytes 32 (etx_commitment tx)) txs1 ->
  Forall (fun tx => is_bytes 32 (etx_commitment tx)) txs2 ->
  sha256_injective_on
    (merkle_trace (length txs1) (map etx_commitment txs1) ++
     merkle_trace (length txs2) (map etx_commitment txs2)) ->
  batch_root (EncryptedBatch_from_transactions txs1) =
    batch_root (EncryptedBatch_from_transactions txs2) ->
  map etx_commitment txs1 = map etx_commitment txs2.
Proof.
  intros Hl H1 H2 Hi E. simpl in E. unfold compute_merkle_root in E.
  destruct txs1 as [|a1 [|b1 txs1]], txs2 as [|a2 [|b2 txs2]]; try done; [by simpl; rewrite E|].
  assert (H32 : forall txs, Forall (fun tx => is_bytes 32 (etx_commitment tx)) txs ->
    Forall (fun b => length b = 32%nat) (map etx_commitment txs)).
  { intros txs Hf. apply Forall_map. eapply Forall_impl; [exact Hf|]. intros x [Hx _]. exact Hx. }
  rewrite <- Hl in Hi. rewrite !length_map, <- Hl in E.
  eapply merkle_loop_inj; [by rewrite !length_map|by apply H32|by apply H32|exact Hi|].
  destruct (merkle_loop_terminates (length (a1 :: b1 :: txs1)) (map etx_commitment (a1 :: b1 :: txs1)))
    as [r1 E1]; [rewrite length_map; simpl; lia|].
  destruct (merkle_loop_terminates (length (a1 :: b1 :: txs1)) (map etx_commitment (a2 :: b2 :: txs2)))
    as [r2 E2]; [rewrite length_map, <- Hl; simpl; lia|].
  rewrite E1, E2 in E |- *. simpl in E. by subst.
Qed.

(** The commitment hash binds the transaction.  When Keccak-256 does not
    collide on their two hash inputs, decrypted transactions with the same
    commitment agree on every field the virtual machine executes. *)
Theorem commitment_binding `{Hashes} (t1 t2 : DecryptedTransaction) :
  tx_ok t1 -> tx_ok t2 ->
  (keccak256 (tx_hash_input t1) = keccak256 (tx_hash_input t2) ->
   tx_hash_input t1 = tx_hash_input t2) ->
  tx_source_commitment t1 = tx_source_commitment t2 ->
  DecryptedTransaction_verify_commitment t1 = true ->
  DecryptedTransaction_verify_commitment t2 = true ->
  set_sequence_number 0 t1 = set_sequence_number 0 t2.
Proof.
  intros H1 H2 Hc Hs V1 V2. unfold DecryptedTransaction_verify_commitment in *. bool_to_prop.
  unfold DecryptedTransaction_compute_hash in *.
  destruct (tx_hash_input_inj t1 t2 H1 H2) as (E1 & E2 & E3 & E4 & E5 & E6 & E7);
    [apply Hc; congruence|].
  unfold set_sequence_number. congruence.
Qed.

(** Sequence numbers.  [OrderedBatch::new] numbers its transactions
    consecutively from [start_seq], so they are pairwise distinct and
    [end_sequence] is the first number it did not use, as long as the numbers
    fit in 64 bits; nothing else of a transaction changes. *)
Theorem ordered_batch_sequences (txs : list DecryptedTransaction) (start round : Z) :
  0 <= start -> start + Z.of_nat (length txs) < u64_bound ->
  let b := OrderedBatch_new txs start round in
  map tx_sequence_number (ob_transactions b) = seqZ start (Z.of_nat (length txs)) /\
  NoDup (map tx_sequence_number (ob_transactions b)) /\
  OrderedBatch_end_sequence b = start + Z.of_nat (length txs) /\
  map (set_sequence_number 0) (ob_transactions b) = map (set_sequence_number 0) txs.
Proof.
  intros H0 Hlt. simpl. rewrite !fmap_imap.
  assert (E : imap (fun i tx => tx_sequence_number (set_sequence_number (start ⊞ Z.of_nat i) tx)) txs =
    seqZ start (Z.of_nat (length txs))).
  { apply list_eq. intros i. rewrite list_lookup_imap.
    destruct (txs !! i) as [tx|] eqn:Ei; simpl.
    - apply lookup_lt_Some in Ei. rewrite lookup_seqZ_lt by lia.
      rewrite u64_add_exact by u64_lia. done.
    - apply lookup_ge_None in Ei. by rewrite lookup_seqZ_ge by lia. }
  unfold compose. rewrite E. repeat split.
  - apply NoDup_seqZ.
  - unfold OrderedBatch_end_sequence. simpl. rewrite length_imap. apply u64_add_exact. u64_lia.
  - clear. apply list_eq. intros i.
    rewrite list_lookup_imap, list_lookup_fmap. by destruct (txs !! i).
Qed.


(** ** Witnesses *)

Definition sample_etx (i : Z) : EncryptedTransaction :=
  mkEncryptedTx [i] (mkCapsule [] []) (replicate 32 i).

Definition sample_tx (from to nonce : Z) : DecryptedTransaction :=
  mkTx (mkAddress (replicate 20 from)) (Some (mkAddress (replicate 20 to)))
    (U256_from_u64 100) 100000 (U256_from_u64 1) nonce [1; 2; 3] [] 0.

Lemma merkle_root_binding_witness :
  exists txs, length txs = 3%nat /\
    batch_root (@EncryptedBatch_from_transactions checksum_hashes txs) <> replicate 32 0 /\
    map etx_commitment txs = map etx_commitment txs.
Proof.
  exists [sample_etx 1; sample_etx 2; sample_etx 3]. split; [reflexivity|].
  split; [vm_compute; discriminate|].
  apply (@merkle_root_binding checksum_hashes checksum_hashes_ok).
  - reflexivity.
  - repeat constructor; vm_compute; repeat split; discriminate.
  - repeat constructor; vm_compute; repeat split; discriminate.
  - apply injective_on_by_check. vm_compute. reflexivity.
  - reflexivity.
Defined.

Lemma commitment_binding_witness :
  exists t1 t2, tx_sequence_number t1 <> tx_sequence_number t2 /\
    @DecryptedTransaction_verify_commitment checksum_hashes t1 = true /\
    set_sequence_number 0 t1 = set_sequence_number 0 t2.
Proof.
  pose (c := @DecryptedTransaction_compute_hash checksum_hashes (sample_tx 1 2 0)).
  pose (t := fun s => mkTx (mkAddress (replicate 20 1)) (Some (mkAddress (replicate 20 2)))
    (U256_from_u64 100) 100000 (U256_from_u64 1) 0 [1; 2; 3] c s).
  assert (Hok : forall s, is_u64 s -> tx_ok (t s)).
  { intros s Hs. split; try done; try (intros ? [= <-]);
      try (split; [reflexivity|repeat constructor; done]);
      repeat constructor; done. }
  exists (t 4), (t 5). split; [discriminate|]. split; [vm_compute; reflexivity|].
  apply (@commitment_binding checksum_hashes); try (vm_compute; reflexivity);
    apply Hok; split; vm_compute; congruence.
Defined.

Lemma ordered_batch_sequences_witness :
  map tx_sequence_number
    (ob_transactions (OrderedBatch_new [sample_tx 1 2 0; sample_tx 1 2 1] 100 5)) = seqZ 100 2.
Proof. apply (ordered_batch_sequences [sample_tx 1 2 0; sample_tx 1 2 1] 100 5); reflexivity || lia. Defined.
