(* ===== verification/Event.v ===== *)
(** * DAG events: [src/types/event.rs]

    The event record, its identifier and signing message, the structural
    validation with its errors, and the builder. *)

From S2P Require Import Prelude Types Transaction.

Record DagEvent := mkEvent {
  ev_id : EventId;
  ev_creator : ValidatorId;
  ev_lamport_time : Z;
  ev_round : Z;
  ev_strong_parents : list EventId;
  ev_weak_parents : list EventId;
  ev_payload : EncryptedBatch;
  ev_signature : BlsSignature
}.

Inductive EventValidationError :=
| InvalidGenesisTimestamp
| NoParents
| ZeroLamportTime
| ZeroRound
| LamportViolation (event_time parent_time : Z)
| MissingSelfParent
| MissingParent (s : string)
| InvalidSignature.

(** [sorted_parents.sort()]: the lexicographic order of [[u8; 32]]. *)
Definition sort_ids (ids : list EventId) : list EventId := stable_sort lex_leb ids.

Definition DagEvent_compute_id `{Hashes} (creator : ValidatorId) (round : Z)
    (payload_hash : bytes) (strong_parents : list EventId) : EventId :=
  sha256 (validator_0 creator ++ le_bytes 8 round ++ payload_hash ++ concat (sort_ids strong_parents)).

Definition DagEvent_signing_message (e : DagEvent) : bytes :=
  ev_id e ++ le_bytes 8 (ev_lamport_time e) ++ le_bytes 8 (ev_round e) ++
  concat (ev_strong_parents e) ++ batch_root (ev_payload e).

Definition is_nil {A} (l : list A) : bool := match l with [] => true | _ => false end.

Definition DagEvent_is_genesis (e : DagEvent) : bool :=
  is_nil (ev_strong_parents e) && (ev_round e =? 0).

Definition DagEvent_validate_structure (e : DagEvent) : EventValidationError + unit :=
  if DagEvent_is_genesis e then
    if negb (ev_lamport_time e =? 0) then inl InvalidGenesisTimestamp else inr tt
  else if is_nil (ev_strong_parents e) then inl NoParents
  else if ev_lamport_time e =? 0 then inl ZeroLamportTime
  else if ev_round e =? 0 then inl ZeroRound
  else inr tt.

(** ** The builder *)

Record EventBuilder := mkBuilder {
  eb_creator : ValidatorId;
  eb_strong_parents : list EventId;
  eb_weak_parents : list EventId;
  eb_payload : EncryptedBatch;
  eb_parent_times : list Z
}.

Definition EventBuilder_new (creator : ValidatorId) : EventBuilder :=
  mkBuilder creator [] [] EncryptedBatch_empty [].

Definition EventBuilder_add_strong_parent (b : EventBuilder) (id : EventId) (lamport_time : Z) : EventBuilder :=
  mkBuilder (eb_creator b) (eb_strong_parents b ++ [id]) (eb_weak_parents b)
    (eb_payload b) (eb_parent_times b ++ [lamport_time]).

Definition EventBuilder_add_weak_parent (b : EventBuilder) (id : EventId) : EventBuilder :=
  mkBuilder (eb_creator b) (eb_strong_parents b) (eb_weak_parents b ++ [id])
    (eb_payload b) (eb_parent_times b).

Definition EventBuilder_with_payload (b : EventBuilder) (payload : EncryptedBatch) : EventBuilder :=
  mkBuilder (eb_creator b) (eb_strong_parents b) (eb_weak_parents b) payload (eb_parent_times b).

Definition EventBuilder_compute_round (parent_rounds : list Z) : Z := max_or_0 parent_rounds ⊞ 1.

Definition EventBuilder_build `{Hashes} (b : EventBuilder) (parent_rounds : list Z) : DagEvent * bytes :=
  let lamport_time := max_or_0 (eb_parent_times b) ⊞ 1 in
  let round := EventBuilder_compute_round parent_rounds in
  let id := DagEvent_compute_id (eb_creator b) round (batch_root (eb_payload b)) (eb_strong_parents b) in
  let event := mkEvent id (eb_creator b) lamport_time round (eb_strong_parents b)
    (eb_weak_parents b) (eb_payload b) BlsSignature_default in
  (event, DagEvent_signing_message event).

#[global] Instance DagEvent_eq_dec : EqDecision DagEvent.
Proof. solve_decision. Defined.

(** The parents added one by one to a fresh builder. *)
Definition builder_with (creator : ValidatorId) (payload : EncryptedBatch)
    (parents : list (EventId * Z)) : EventBuilder :=
  EventBuilder_with_payload
    (fold_left (fun b p => EventBuilder_add_strong_parent b p.1 p.2) parents (EventBuilder_new creator))
    payload.

(** ** Lemmas *)

Lemma sort_ids_perm l1 l2 : l1 ≡ₚ l2 -> sort_ids l1 = sort_ids l2.
Proof.
  intros Hp. apply (sorted_perm_unique (fun a b => lex_leb a b = true)).
  - intros x y _ _. apply lex_leb_antisym.
  - apply stable_sort_sorted; [apply lex_leb_total|apply lex_leb_trans].
  - apply stable_sort_sorted; [apply lex_leb_total|apply lex_leb_trans].
  - unfold sort_ids. by rewrite !stable_sort_perm.
Qed.

Lemma fold_add_strong_parent parents b :
  fold_left (fun b p => EventBuilder_add_strong_parent b p.1 p.2) parents b =
  mkBuilder (eb_creator b) (eb_strong_parents b ++ map fst parents) (eb_weak_parents b)
    (eb_payload b) (eb_parent_times b ++ map snd parents).
Proof.
  revert b. induction parents as [|[id t] parents IH]; intros b; simpl.
  - destruct b. by rewrite !app_nil_r.
  - rewrite IH. simpl. by rewrite <- !app_assoc.
Qed.

Lemma builder_with_eq creator payload parents :
  builder_with creator payload parents =
  mkBuilder creator (map fst parents) [] payload (map snd parents).
Proof. unfold builder_with. by rewrite fold_add_strong_parent. Qed.

(** ** Properties *)

(** The event identifier does not depend on the order in which the strong
    parents are listed. *)
Theorem compute_id_parent_order `{Hashes} (creator : ValidatorId) (round : Z)
    (payload_hash : bytes) (ps1 ps2 : list EventId) :
  ps1 ≡ₚ ps2 ->
  DagEvent_compute_id creator round payload_hash ps1 = DagEvent_compute_id creator round payload_hash ps2.
Proof. intros Hp. unfold DagEvent_compute_id. by rewrite (sort_ids_perm ps1 ps2 Hp). Qed.

Lemma compute_id_parent_order_witness :
  [replicate 32 1; replicate 32 2] <> [replicate 32 2; replicate 32 1] /\
  @DagEvent_compute_id checksum_hashes ValidatorId_default 5 (replicate 32 171) [replicate 32 1; replicate 32 2] =
  @DagEvent_compute_id checksum_hashes ValidatorId_default 5 (replicate 32 171) [replicate 32 2; replicate 32 1].
Proof.
  split; [discriminate|].
  apply (@compute_id_parent_order checksum_hashes ValidatorId_default 5). apply Permutation_swap.
Defined.

(** Structural validation.  An event is accepted exactly when it is a
    genesis event at time 0, or has a strong parent and positive Lamport time
    and round. *)
Theorem validate_structure_spec (e : DagEvent) :
  DagEvent_validate_structure e = inr tt <->
  (ev_strong_parents e = [] /\ ev_round e = 0 /\ ev_lamport_time e = 0) \/
  (ev_strong_parents e <> [] /\ ev_lamport_time e <> 0 /\ ev_round e <> 0).
Proof.
  unfold DagEvent_validate_structure, DagEvent_is_genesis.
  destruct (ev_strong_parents e) as [|p ps]; simpl;
    destruct (Z.eqb_spec (ev_round e) 0), (Z.eqb_spec (ev_lamport_time e) 0); simpl;
    split; try done; try naive_solver; intros [(? & ? & ?)|(? & ? & ?)]; done.
Qed.

(** The builder.  An event built from at least one strong parent passes
    structural validation, is later (in Lamport time and in round) than every
    parent it was given, and carries the canonical identifier, provided the
    largest parent time and round leave room in 64 bits. *)
Theorem builder_builds_valid `{Hashes} (creator : ValidatorId) (payload : EncryptedBatch)
    (parents : list (EventId * Z)) (rounds : list Z) :
  parents <> [] ->
  max_or_0 (map snd parents) + 1 < u64_bound -> max_or_0 rounds + 1 < u64_bound ->
  let e := (EventBuilder_build (builder_with creator payload parents) rounds).1 in
  DagEvent_validate_structure e = inr tt /\
  Forall (fun p => p.2 < ev_lamport_time e) parents /\
  Forall (fun r => r < ev_round e) rounds /\
  ev_strong_parents e = map fst parents /\
  ev_id e = DagEvent_compute_id (ev_creator e) (ev_round e) (batch_root (ev_payload e)) (ev_strong_parents e).
Proof.
  intros Hne Ht Hr. rewrite builder_with_eq. simpl. unfold EventBuilder_compute_round.
  pose proof (max_or_0_nonneg (map snd parents)). pose proof (max_or_0_nonneg rounds).
  rewrite !u64_add_exact by u64_lia. split; [|split; [|split; [|done]]].
  - unfold DagEvent_validate_structure, DagEvent_is_genesis. simpl.
    destruct parents; [done|]. simpl in *.
    destruct (Z.eqb_spec (Z.max p.2 (max_or_0 (map snd parents)) + 1) 0); [lia|].
    destruct (Z.eqb_spec (max_or_0 rounds + 1) 0); [lia|done].
  - apply Forall_forall. intros [i t] Hin.
    enough (t <= max_or_0 (map snd parents)) by (simpl; lia).
    apply max_or_0_ge. apply list_elem_of_fmap. by exists (i, t).
  - apply Forall_forall. intros r Hin. apply max_or_0_ge in Hin. lia.
Qed.

Lemma builder_builds_valid_witness :
  DagEvent_validate_structure
    (@EventBuilder_build checksum_hashes
      (builder_with ValidatorId_default EncryptedBatch_empty [(replicate 32 1, 7); (replicate 32 2, 9)]) [3; 4]).1
  = inr tt.
Proof.
  apply (@builder_builds_valid checksum_hashes ValidatorId_default EncryptedBatch_empty
    [(replicate 32 1, 7); (replicate 32 2, 9)] [3; 4]); vm_compute; congruence || reflexivity.
Defined.

(** An event built with no strong parent is always rejected by
    [validate_structure]: the builder gives it round at least 1, so it is not
    a genesis event either. *)
Theorem builder_without_parents_rejected `{Hashes} (creator : ValidatorId) (payload : EncryptedBatch)
    (rounds : list Z) :
  max_or_0 rounds + 1 < u64_bound ->
  DagEvent_validate_structure (EventBuilder_build (builder_with creator payload []) rounds).1 = inl NoParents.
Proof.
  intros Hr. rewrite builder_with_eq. unfold DagEvent_validate_structure, DagEvent_is_genesis.
  simpl. unfold EventBuilder_compute_round. pose proof (max_or_0_nonneg rounds).
  rewrite u64_add_exact by u64_lia. destruct (Z.eqb_spec (max_or_0 rounds + 1) 0); [lia|done].
Qed.

Lemma builder_without_parents_rejected_witness :
  DagEvent_validate_structure
    (@EventBuilder_build checksum_hashes (builder_with ValidatorId_default EncryptedBatch_empty []) [0]).1 =
  inl NoParents.
Proof.
  apply (@builder_without_parents_rejected checksum_hashes ValidatorId_default EncryptedBatch_empty [0]).
  reflexivity.
Defined.
