(* ===== verification/Validator.v ===== *)
(** * Validator sets and quorums: [src/types/validator.rs]

    The stake-weighted validator set with its cached total, the Byzantine
    quorum arithmetic on 64-bit integers, and the tracker of one decision. *)

From S2P Require Import Prelude Types.

Record ValidatorData := mkValidatorData { vd_stake : Z; vd_address : Address }.

Record ValidatorSet := mkValidatorSet {
  vs_validators : gmap ValidatorId ValidatorData;
  vs_total_stake : Z
}.

Definition ValidatorSet_new : ValidatorSet := mkValidatorSet ∅ 0.

Definition ValidatorSet_add (s : ValidatorSet) (id : ValidatorId) (stake : Z) (address : Address) : ValidatorSet :=
  if stake =? 0 then s
  else
    let validators := <[id := mkValidatorData stake address]> (vs_validators s) in
    match vs_validators s !! id with
    | Some existing => mkValidatorSet validators (vs_total_stake s ⊟ vd_stake existing ⊞ stake)
    | None => mkValidatorSet validators (vs_total_stake s ⊞ stake)
    end.

Definition ValidatorSet_from_validators (l : list (ValidatorId * Z * Address)) : ValidatorSet :=
  fold_left (fun s '(id, stake, addr) => ValidatorSet_add s id stake addr) l ValidatorSet_new.

Definition ValidatorSet_remove (s : ValidatorSet) (id : ValidatorId) : ValidatorSet * option Z :=
  match vs_validators s !! id with
  | Some data =>
      (mkValidatorSet (delete id (vs_validators s)) (vs_total_stake s ⊟ vd_stake data), Some (vd_stake data))
  | None => (s, None)
  end.

Definition ValidatorSet_contains (s : ValidatorSet) (id : ValidatorId) : bool :=
  bool_decide (is_Some (vs_validators s !! id)).

Definition ValidatorSet_stake (s : ValidatorSet) (id : ValidatorId) : option Z :=
  vd_stake <$> vs_validators s !! id.

Definition ValidatorSet_get_address (s : ValidatorSet) (id : ValidatorId) : option Address :=
  vd_address <$> vs_validators s !! id.

Definition ValidatorSet_default : ValidatorSet := ValidatorSet_new.
Definition ValidatorSet_total_stake (s : ValidatorSet) : Z := vs_total_stake s.
Definition ValidatorSet_validator_ids (s : ValidatorSet) : list ValidatorId := (map_to_list (vs_validators s)).*1.
Definition ValidatorSet_quorum_intersection_guaranteed (s : ValidatorSet) : bool := true.
Definition ValidatorSet_len (s : ValidatorSet) : nat := size (vs_validators s).
Definition ValidatorSet_is_empty (s : ValidatorSet) : bool := bool_decide (vs_validators s = ∅).

(** [iter]: the pairs (id, stake), in the order the map yields them. *)
Definition ValidatorSet_iter (s : ValidatorSet) : list (ValidatorId * Z) :=
  map (fun '(id, d) => (id, vd_stake d)) (map_to_list (vs_validators s)).

(** ** Quorum arithmetic, on 64 bits *)

Definition ValidatorSet_quorum_threshold (s : ValidatorSet) : Z :=
  (vs_total_stake s ⊠ 2) / 3 ⊞ 1.

Definition ValidatorSet_fault_threshold (s : ValidatorSet) : Z := vs_total_stake s / 3.

Definition ValidatorSet_stake_for (s : ValidatorSet) (voters : gset ValidatorId) : Z :=
  sum_u64 (omap (ValidatorSet_stake s) (elements voters)).

Definition ValidatorSet_has_quorum (s : ValidatorSet) (voters : gset ValidatorId) : bool :=
  ValidatorSet_quorum_threshold s <=? ValidatorSet_stake_for s voters.

(** ** The tracker *)

Record QuorumTracker := mkTracker {
  qt_target : bytes;
  qt_supporters : gset ValidatorId;
  qt_validator_set : ValidatorSet
}.

Definition QuorumTracker_new (target : bytes) (s : ValidatorSet) : QuorumTracker := mkTracker target ∅ s.

Definition QuorumTracker_has_quorum (t : QuorumTracker) : bool :=
  ValidatorSet_has_quorum (qt_validator_set t) (qt_supporters t).

Definition QuorumTracker_add_support (t : QuorumTracker) (v : ValidatorId) : QuorumTracker * bool :=
  let was_quorum := QuorumTracker_has_quorum t in
  let t := mkTracker (qt_target t) ({[v]} ∪ qt_supporters t) (qt_validator_set t) in
  (t, negb was_quorum && QuorumTracker_has_quorum t).

Definition QuorumTracker_current_stake (t : QuorumTracker) : Z :=
  ValidatorSet_stake_for (qt_validator_set t) (qt_supporters t).

Definition QuorumTracker_stake_needed (t : QuorumTracker) : Z :=
  Z.max 0 (ValidatorSet_quorum_threshold (qt_validator_set t) - QuorumTracker_current_stake t).

Definition QuorumTracker_supporters (t : QuorumTracker) : gset ValidatorId := qt_supporters t.
Definition QuorumTracker_supporter_count (t : QuorumTracker) : nat := size (qt_supporters t).

(** ** The stake of a set of validators, as an unbounded sum *)

Definition stake_or_0 (s : ValidatorSet) (id : ValidatorId) : Z :=
  default 0 (ValidatorSet_stake s id).

Definition weight (s : ValidatorSet) (X : gset ValidatorId) : Z :=
  sumZ (map (stake_or_0 s) (elements X)).

(** The documented invariants of [ValidatorSet] and
    a total that fits in 64 bits. *)
Record vs_ok (s : ValidatorSet) : Prop := {
  vs_positive : map_Forall (fun _ d => 0 < vd_stake d) (vs_validators s);
  vs_total : vs_total_stake s = weight s (dom (vs_validators s));
  vs_fits : vs_total_stake s < u64_bound
}.

(** ** Lemmas *)

Lemma weight_empty s : weight s ∅ = 0.
Proof. unfold weight. by rewrite elements_empty. Qed.

Lemma weight_singleton s id : weight s {[id]} = stake_or_0 s id.
Proof. unfold weight. rewrite elements_singleton. simpl. lia. Qed.

Lemma weight_union s X Y : X ## Y -> weight s (X ∪ Y) = weight s X + weight s Y.
Proof.
  intros Hd. unfold weight. rewrite elements_disj_union by done. by rewrite map_app, sumZ_app.
Qed.

Lemma weight_split s X Y : weight s X = weight s (X ∩ Y) + weight s (X ∖ Y).
Proof.
  rewrite <- weight_union by set_solver. f_equal. apply set_eq. intros x.
  destruct (decide (x ∈ Y)); set_solver.
Qed.

Lemma weight_ext s s' X :
  (forall id, id ∈ X -> stake_or_0 s id = stake_or_0 s' id) -> weight s X = weight s' X.
Proof.
  intros HX. unfold weight. f_equal. apply map_ext_in. intros id Hid.
  apply HX, elem_of_elements, list_elem_of_In. done.
Qed.

Lemma weight_outside s X : X ## dom (vs_validators s) -> weight s X = 0.
Proof.
  intros Hd. unfold weight. assert (Hz : Forall (fun x => x = 0) (map (stake_or_0 s) (elements X))).
  { apply Forall_map, Forall_forall. intros id Hid%elem_of_elements.
    unfold stake_or_0, ValidatorSet_stake.
    rewrite (not_elem_of_dom_1 (vs_validators s) id) by set_solver. done. }
  induction Hz as [|x l -> _ IH]; [done|]. unfold sumZ in *. simpl. lia.
Qed.

Lemma weight_restrict s X : weight s X = weight s (X ∩ dom (vs_validators s)).
Proof.
  rewrite (weight_split s X (dom (vs_validators s))) at 1.
  assert (weight s (X ∖ dom (vs_validators s)) = 0) as ->; [|lia].
  apply weight_outside. set_solver.
Qed.

Section vs_lemmas.
Context (s : ValidatorSet) (Hok : vs_ok s).

Lemma stake_or_0_nonneg id : 0 <= stake_or_0 s id.
Proof.
  unfold stake_or_0, ValidatorSet_stake. destruct (vs_validators s !! id) eqn:E; simpl; [|lia].
  pose proof (vs_positive s Hok _ _ E). simpl in *. lia.
Qed.

Lemma weight_nonneg X : 0 <= weight s X.
Proof. apply sumZ_nonneg, Forall_map, Forall_true. intros id. apply stake_or_0_nonneg. Qed.

Lemma weight_mono X Y : X ⊆ Y -> weight s X <= weight s Y.
Proof.
  intros Hs. rewrite (weight_split s Y X). pose proof (weight_nonneg (Y ∖ X)).
  replace (Y ∩ X) with X by set_solver. lia.
Qed.

Lemma weight_le_total X : weight s X <= vs_total_stake s.
Proof.
  rewrite (vs_total s Hok), weight_restrict. apply weight_mono.
  intros x [_ Hx]%elem_of_intersection. done.
Qed.

Lemma total_nonneg : 0 <= vs_total_stake s.
Proof. rewrite (vs_total s Hok). apply weight_nonneg. Qed.

Lemma stake_for_weight X : ValidatorSet_stake_for s X = weight s X.
Proof.
  assert (E : forall l, sumZ (omap (ValidatorSet_stake s) l) = sumZ (map (stake_or_0 s) l)).
  { induction l as [|id l IH]; [done|].
    assert (Eid : stake_or_0 s id = default 0 (ValidatorSet_stake s id)) by done.
    simpl. rewrite Eid. unfold sumZ in *. destruct (ValidatorSet_stake s id); simpl.
    - f_equal. exact IH.
    - rewrite Z.add_0_l. exact IH. }
  unfold ValidatorSet_stake_for, weight. rewrite <- E. apply sum_u64_exact.
  - apply Forall_forall. intros x (id & _ & Hid)%list_elem_of_omap.
    pose proof (stake_or_0_nonneg id) as Hn. unfold stake_or_0 in Hn. rewrite Hid in Hn. done.
  - rewrite E. pose proof (weight_le_total X). pose proof (vs_fits s Hok). unfold weight in *. lia.
Qed.

(** With a total below 2^63 the threshold is the documented one. *)
Lemma quorum_threshold_exact :
  2 * vs_total_stake s < u64_bound ->
  ValidatorSet_quorum_threshold s = 2 * vs_total_stake s / 3 + 1.
Proof.
  intros Hb. pose proof total_nonneg. unfold ValidatorSet_quorum_threshold.
  rewrite u64_mul_exact by u64_lia. rewrite (Z.mul_comm 2).
  assert (0 <= vs_total_stake s * 2 / 3 < u64_bound - 1) by divmod_lia.
  rewrite u64_add_exact by u64_lia. done.
Qed.

Lemma has_quorum_iff X :
  2 * vs_total_stake s < u64_bound ->
  ValidatorSet_has_quorum s X = true <-> 2 * vs_total_stake s < 3 * weight s X.
Proof.
  intros Hb. unfold ValidatorSet_has_quorum. rewrite Z.leb_le.
  rewrite stake_for_weight, quorum_threshold_exact by done.
  split; intros; divmod_lia.
Qed.
End vs_lemmas.

Lemma vs_ok_new : vs_ok ValidatorSet_new.
Proof. split; simpl; [apply map_Forall_empty|by rewrite dom_empty_L, weight_empty|done]. Qed.

Lemma stake_or_0_insert s id d id' total :
  stake_or_0 (mkValidatorSet (<[id := d]> (vs_validators s)) total) id' =
  if decide (id = id') then vd_stake d else stake_or_0 s id'.
Proof.
  unfold stake_or_0, ValidatorSet_stake. simpl. rewrite lookup_insert. by case_decide.
Qed.

(** The stake of the set after (re)inserting [id]. *)
Lemma weight_insert s id d total :
  weight (mkValidatorSet (<[id := d]> (vs_validators s)) total)
    (dom (<[id := d]> (vs_validators s))) =
  weight s (dom (vs_validators s)) - stake_or_0 s id + vd_stake d.
Proof.
  set (s' := mkValidatorSet (<[id := d]> (vs_validators s)) total).
  rewrite (weight_split s (dom (vs_validators s)) {[id]}), dom_insert_L.
  replace ({[id]} ∪ dom (vs_validators s)) with ({[id]} ∪ (dom (vs_validators s) ∖ {[id]})).
  2: { apply set_eq. intros x. destruct (decide (x = id)); set_solver. }
  rewrite weight_union, weight_singleton by set_solver.
  rewrite (weight_ext s' s (dom (vs_validators s) ∖ {[id]})).
  2: { intros x Hx. unfold s'. rewrite stake_or_0_insert, decide_False by set_solver. done. }
  unfold s' at 1. rewrite stake_or_0_insert, decide_True by done.
  enough (weight s (dom (vs_validators s) ∩ {[id]}) = stake_or_0 s id) by lia.
  destruct (decide (id ∈ dom (vs_validators s))) as [Hin|Hout].
  - replace (dom (vs_validators s) ∩ {[id]}) with ({[id]} : gset ValidatorId) by set_solver.
    apply weight_singleton.
  - replace (dom (vs_validators s) ∩ {[id]}) with (∅ : gset ValidatorId) by set_solver.
    rewrite weight_empty. unfold stake_or_0, ValidatorSet_stake.
    by rewrite (not_elem_of_dom_1 (vs_validators s) id Hout).
Qed.

Lemma vs_ok_add s id stake addr :
  vs_ok s -> 0 <= stake -> vs_total_stake s - stake_or_0 s id + stake < u64_bound ->
  vs_ok (ValidatorSet_add s id stake addr).
Proof.
  intros Hok Hs Hb. unfold ValidatorSet_add. destruct (Z.eqb_spec stake 0) as [|Hne]; [done|].
  pose proof (weight_le_total s Hok {[id]}) as Hle. rewrite weight_singleton in Hle.
  pose proof (stake_or_0_nonneg s Hok id) as Hn. pose proof (total_nonneg s Hok). pose proof (vs_fits s Hok).
  assert (Hpos : map_Forall (fun _ d => 0 < vd_stake d) (<[id := mkValidatorData stake addr]> (vs_validators s))).
  { apply map_Forall_insert_2; [simpl; lia|apply vs_positive, Hok]. }
  assert (Ht : (match vs_validators s !! id with
    | Some existing => vs_total_stake s ⊟ vd_stake existing ⊞ stake
    | None => vs_total_stake s ⊞ stake end) = vs_total_stake s - stake_or_0 s id + stake).
  { unfold stake_or_0, ValidatorSet_stake in *. destruct (vs_validators s !! id); simpl in *.
    - rewrite u64_sub_exact by u64_lia. apply u64_add_exact. u64_lia.
    - rewrite u64_add_exact; u64_lia. }
  destruct (vs_validators s !! id) eqn:E; (split; simpl; [done| |lia]);
    rewrite weight_insert, Ht, (vs_total s Hok); done.
Qed.

Lemma vs_ok_remove s id : vs_ok s -> vs_ok (ValidatorSet_remove s id).1.
Proof.
  intros Hok. unfold ValidatorSet_remove. destruct (vs_validators s !! id) as [d|] eqn:E; [|done].
  pose proof (vs_positive s Hok _ _ E) as Hp. simpl in Hp.
  pose proof (weight_le_total s Hok {[id]}) as Hle. rewrite weight_singleton in Hle.
  assert (Hst : stake_or_0 s id = vd_stake d) by (unfold stake_or_0, ValidatorSet_stake; by rewrite E).
  pose proof (vs_fits s Hok). simpl.
  split; simpl.
  - apply map_Forall_delete, vs_positive, Hok.
  - rewrite u64_sub_exact by u64_lia. rewrite (vs_total s Hok).
    rewrite (weight_split s (dom (vs_validators s)) {[id]}), dom_delete_L.
    replace (dom (vs_validators s) ∩ {[id]}) with ({[id]} : gset ValidatorId).
    2: { apply elem_of_dom_2 in E. set_solver. }
    rewrite weight_singleton, Hst.
    match goal with |- _ = weight ?s' _ => rewrite (weight_ext s' s) end; [lia|].
    intros x Hx. unfold stake_or_0, ValidatorSet_stake. simpl.
    rewrite lookup_delete_ne by set_solver. done.
  - rewrite u64_sub_exact by u64_lia. lia.
Qed.

Lemma vs_ok_from_validators l :
  Forall (fun '(_, stake, _) => 0 <= stake) l ->
  sumZ (map (fun '(_, stake, _) => stake) l) < u64_bound ->
  vs_ok (ValidatorSet_from_validators l).
Proof.
  intros Hpos Hb. unfold ValidatorSet_from_validators.
  assert (G : forall s, vs_ok s -> vs_total_stake s + sumZ (map (fun '(_, stake, _) => stake) l) < u64_bound ->
    vs_ok (fold_left (fun s '(id, stake, addr) => ValidatorSet_add s id stake addr) l s)).
  { clear Hb. induction Hpos as [|[[id st] ad] l Hst Hpos IH]; intros s Hs Hb; [done|]. simpl in *.
    assert (0 <= sumZ (map (fun '(_, stake, _) => stake) l)).
    { apply sumZ_nonneg, Forall_map. eapply Forall_impl; [exact Hpos|]. by intros [[? ?] ?]. }
    pose proof (stake_or_0_nonneg s Hs id). unfold sumZ in Hb. simpl in Hb. fold (sumZ (map (fun '(_, stake, _) => stake) l)) in Hb.
    assert (Hok' : vs_ok (ValidatorSet_add s id st ad)) by (apply vs_ok_add; [done|done|lia]).
    apply IH; [done|]. enough (vs_total_stake (ValidatorSet_add s id st ad) <= vs_total_stake s + st) by lia.
    unfold ValidatorSet_add. destruct (Z.eqb_spec st 0); [lia|].
    pose proof (total_nonneg s Hs). pose proof (weight_le_total s Hs {[id]}) as Hle.
    rewrite weight_singleton in Hle. pose proof (vs_fits s Hs).
    unfold stake_or_0, ValidatorSet_stake in *. destruct (vs_validators s !! id) as [d|]; simpl in *.
    - rewrite u64_sub_exact by u64_lia. rewrite u64_add_exact by u64_lia. lia.
    - rewrite u64_add_exact by u64_lia. lia. }
  apply G; [apply vs_ok_new|]. simpl. lia.
Qed.

(** ** Properties *)

(** Every sequence of [add] and [remove] calls keeps the documented
    invariants: all stakes positive and [total_stake] equal to their sum, as
    long as that sum fits in 64 bits. *)
Theorem validator_set_invariant (s : ValidatorSet) (id : ValidatorId) (stake : Z) (addr : Address) :
  vs_ok s -> 0 <= stake -> vs_total_stake s - stake_or_0 s id + stake < u64_bound ->
  vs_ok ValidatorSet_new /\ vs_ok (ValidatorSet_add s id stake addr) /\ vs_ok (ValidatorSet_remove s id).1 /\
  ValidatorSet_stake (ValidatorSet_add s id stake addr) id =
    (if stake =? 0 then ValidatorSet_stake s id else Some stake) /\
  ValidatorSet_contains (ValidatorSet_remove s id).1 id = false.
Proof.
  intros Hok Hs Hb. split; [apply vs_ok_new|]. split; [by apply vs_ok_add|]. split; [by apply vs_ok_remove|].
  split.
  - unfold ValidatorSet_add, ValidatorSet_stake. destruct (stake =? 0); [done|].
    destruct (vs_validators s !! id); simpl; by rewrite lookup_insert_eq.
  - unfold ValidatorSet_remove, ValidatorSet_contains.
    destruct (vs_validators s !! id) eqn:E; simpl; apply bool_decide_eq_false;
      rewrite ?lookup_delete_eq, ?E; by intros [? ?].
Qed.

(** C9: quorum intersection.  With a total stake below 2^63, any two sets of
    voters that [has_quorum] accepts share strictly more than a third of the
    stake; so if the Byzantine validators hold at most [fault_threshold], some
    honest member of the validator set is in both. *)
Theorem quorum_intersection (s : ValidatorSet) (Q1 Q2 byz : gset ValidatorId) :
  vs_ok s -> 2 * vs_total_stake s < u64_bound ->
  ValidatorSet_has_quorum s Q1 = true -> ValidatorSet_has_quorum s Q2 = true ->
  weight s byz <= ValidatorSet_fault_threshold s ->
  vs_total_stake s < 3 * weight s (Q1 ∩ Q2) /\
  exists v, v ∈ Q1 /\ v ∈ Q2 /\ v ∉ byz /\ ValidatorSet_contains s v = true.
Proof.
  intros Hok Hb H1 H2 Hbyz.
  apply (has_quorum_iff s Hok Q1 Hb) in H1. apply (has_quorum_iff s Hok Q2 Hb) in H2.
  assert (Hint : vs_total_stake s < 3 * weight s (Q1 ∩ Q2)).
  { pose proof (weight_le_total s Hok (Q1 ∪ Q2)) as Hu.
    replace (Q1 ∪ Q2) with (Q1 ∪ (Q2 ∖ Q1)) in Hu.
    2: { apply set_eq. intros x. destruct (decide (x ∈ Q1)); set_solver. }
    rewrite weight_union in Hu by set_solver.
    rewrite (weight_split s Q2 Q1) in H2. rewrite (intersection_comm_L Q1 Q2). lia. }
  split; [done|].
  set (D := (Q1 ∩ Q2) ∩ dom (vs_validators s)).
  destruct (set_choose_or_empty (D ∖ byz)) as [[v Hv]|He].
  2: { exfalso. assert (Hsub : D ⊆ byz).
    { intros x Hx. destruct (decide (x ∈ byz)); [done|]. set_solver. }
    rewrite weight_restrict in Hint. fold D in Hint.
    pose proof (weight_mono s Hok D byz Hsub). unfold ValidatorSet_fault_threshold in Hbyz. divmod_lia. }
  apply elem_of_difference in Hv as [Hv Hn]. exists v.
  unfold D in Hv. apply elem_of_intersection in Hv as [[? ?]%elem_of_intersection Hd].
  repeat split; try done. apply bool_decide_eq_true. by apply elem_of_dom.
Qed.

(** The tracker.  [add_support] adds the voter and nothing else, reports
    [true] exactly on the call that completes the quorum, a reached quorum is
    never lost, and [stake_needed] is 0 exactly when there is one. *)
Theorem quorum_tracker_spec (t : QuorumTracker) (v : ValidatorId) :
  vs_ok (qt_validator_set t) ->
  let '(t', reached) := QuorumTracker_add_support t v in
  qt_supporters t' = {[v]} ∪ qt_supporters t /\ qt_validator_set t' = qt_validator_set t /\
  reached = negb (QuorumTracker_has_quorum t) && QuorumTracker_has_quorum t' /\
  (QuorumTracker_has_quorum t = true -> QuorumTracker_has_quorum t' = true) /\
  (QuorumTracker_stake_needed t = 0 <-> QuorumTracker_has_quorum t = true).
Proof.
  intros Hok. unfold QuorumTracker_add_support, QuorumTracker_has_quorum, ValidatorSet_has_quorum,
    QuorumTracker_stake_needed, QuorumTracker_current_stake. cbn.
  rewrite !Z.leb_le, !stake_for_weight by done.
  repeat split; try lia.
  pose proof (weight_mono _ Hok (qt_supporters t) ({[v]} ∪ qt_supporters t)) as Hm.
  intros Hq. etrans; [exact Hq|]. apply Hm. set_solver.
Qed.

(** Above 2^63 the threshold arithmetic wraps: a one-validator set with
    total stake 2^63 has quorum threshold 1, so a validator holding a
    negligible share forms a quorum alone. *)
Theorem quorum_threshold_wraps (addr : Address) :
  let big := mkValidatorId [1] in
  let small := mkValidatorId [2] in
  let s := ValidatorSet_from_validators [(big, 2 ^ 63 - 1, addr); (small, 1, addr)] in
  vs_total_stake s = 2 ^ 63 /\ ValidatorSet_quorum_threshold s = 1 /\
  ValidatorSet_has_quorum s {[small]} = true.
Proof. repeat split; vm_compute; reflexivity. Qed.

(** ** Witnesses *)

Definition sample_set : ValidatorSet :=
  ValidatorSet_from_validators
    [(mkValidatorId [1], 34, Address_zero); (mkValidatorId [2], 33, Address_zero);
     (mkValidatorId [3], 33, Address_zero)].

Lemma sample_set_ok : vs_ok sample_set.
Proof. apply vs_ok_from_validators; [repeat constructor; lia|vm_compute; reflexivity]. Qed.

Lemma validator_set_invariant_witness :
  vs_total_stake sample_set = 100 /\ vs_ok (ValidatorSet_add sample_set (mkValidatorId [1]) 50 Address_zero).
Proof.
  split; [vm_compute; reflexivity|].
  apply (validator_set_invariant sample_set (mkValidatorId [1]) 50 Address_zero);
    [apply sample_set_ok|lia|vm_compute; reflexivity].
Defined.

Lemma quorum_intersection_witness :
  exists v, v ∈ ({[mkValidatorId [1]; mkValidatorId [2]]} : gset ValidatorId) /\
    v ∈ ({[mkValidatorId [1]; mkValidatorId [3]]} : gset ValidatorId) /\
    v ∉ ({[mkValidatorId [3]]} : gset ValidatorId) /\ ValidatorSet_contains sample_set v = true.
Proof.
  apply (quorum_intersection sample_set {[mkValidatorId [1]; mkValidatorId [2]]}
    {[mkValidatorId [1]; mkValidatorId [3]]} {[mkValidatorId [3]]}).
  - apply sample_set_ok.
  - vm_compute. reflexivity.
  - vm_compute. reflexivity.
  - vm_compute. reflexivity.
  - vm_compute. discriminate.
Defined.

Lemma quorum_tracker_spec_witness :
  let t := (QuorumTracker_add_support (QuorumTracker_new [] sample_set) (mkValidatorId [1])).1 in
  (QuorumTracker_add_support t (mkValidatorId [2])).2 = true /\
  (QuorumTracker_stake_needed t = 0 <-> QuorumTracker_has_quorum t = true).
Proof.
  split; [vm_compute; reflexivity|].
  apply (quorum_tracker_spec (QuorumTracker_add_support (QuorumTracker_new [] sample_set) (mkValidatorId [1])).1
    (mkValidatorId [2])). apply sample_set_ok.
Defined.
