(* ===== verification/State.v ===== *)
(** * Multi-version state types: [src/types/state.rs]

    Version chains with their binary-search insertion, visibility and status
    changes; read and write sets; execution results. *)

From S2P Require Import Prelude Types.

Inductive TxStatus := Pending | Committed | Aborted.

Record StateVersion := mkVersion {
  sv_tx_sequence : Z;
  sv_value : option U256;
  sv_status : TxStatus
}.

Record VersionChain := mkChain { versions : list StateVersion }.

#[global] Instance TxStatus_eq_dec : EqDecision TxStatus.
Proof. solve_decision. Defined.
#[global] Instance StateVersion_eq_dec : EqDecision StateVersion.
Proof. solve_decision. Defined.
#[global] Instance VersionChain_eq_dec : EqDecision VersionChain.
Proof. solve_decision. Defined.

Definition VersionChain_new : VersionChain := mkChain [].

(** [add_version]: [Ok(pos)] and [Err(pos)] both insert at [pos]. *)
Definition VersionChain_add_version (c : VersionChain) (version : StateVersion) : VersionChain :=
  let pos :=
    match binary_search_by (fun v => sv_tx_sequence version ?= sv_tx_sequence v) (versions c) with
    | inl pos => pos
    | inr pos => pos
    end in
  mkChain (vec_insert pos version (versions c)).

Fixpoint read_versions (l : list StateVersion) (reader_seq : Z) : option (option U256 * Z) :=
  match l with
  | [] => None
  | version :: l =>
      if sv_tx_sequence version <? reader_seq then
        match sv_status version with
        | Committed | Pending => Some (sv_value version, sv_tx_sequence version)
        | Aborted => read_versions l reader_seq
        end
      else read_versions l reader_seq
  end.

Definition VersionChain_read_for (c : VersionChain) (reader_seq : Z) : option (option U256 * Z) :=
  read_versions (versions c) reader_seq.

(** The loop shared by [mark_committed] and [mark_aborted]: the first version
    of [tx_seq] gets the status. *)
Fixpoint mark_first (status : TxStatus) (tx_seq : Z) (l : list StateVersion) : list StateVersion :=
  match l with
  | [] => []
  | v :: l =>
      if sv_tx_sequence v =? tx_seq then mkVersion (sv_tx_sequence v) (sv_value v) status :: l
      else v :: mark_first status tx_seq l
  end.

Definition VersionChain_mark_committed (c : VersionChain) (tx_seq : Z) : VersionChain :=
  mkChain (mark_first Committed tx_seq (versions c)).

Definition VersionChain_mark_aborted (c : VersionChain) (tx_seq : Z) : VersionChain :=
  mkChain (mark_first Aborted tx_seq (versions c)).

Definition VersionChain_gc_aborted (c : VersionChain) : VersionChain :=
  mkChain (filter (fun v => sv_status v <> Aborted) (versions c)).

Definition VersionChain_is_empty (c : VersionChain) : bool := bool_decide (versions c = []).
Definition VersionChain_len (c : VersionChain) : nat := length (versions c).

(** ** Read and write sets *)

Record ReadSet := mkReadSet { reads : gmap StateKey (option U256 * Z) }.

Definition ReadSet_new : ReadSet := mkReadSet ∅.
Definition ReadSet_record (r : ReadSet) (key : StateKey) (value : option U256) (version : Z) : ReadSet :=
  mkReadSet (<[key := (value, version)]> (reads r)).
Definition ReadSet_keys (r : ReadSet) : list StateKey := elements (dom (reads r)).
Definition ReadSet_is_empty (r : ReadSet) : bool := bool_decide (reads r = ∅).
Definition ReadSet_len (r : ReadSet) : nat := size (reads r).

Record WriteSet := mkWriteSet { writes : gmap StateKey (option U256) }.

Definition WriteSet_new : WriteSet := mkWriteSet ∅.
Definition WriteSet_record (w : WriteSet) (key : StateKey) (value : option U256) : WriteSet :=
  mkWriteSet (<[key := value]> (writes w)).
Definition WriteSet_keys (w : WriteSet) : list StateKey := elements (dom (writes w)).
Definition WriteSet_is_empty (w : WriteSet) : bool := bool_decide (writes w = ∅).
Definition WriteSet_len (w : WriteSet) : nat := size (writes w).

(** [merge]: the other set's entries overwrite. *)
Definition WriteSet_merge (w other : WriteSet) : WriteSet :=
  mkWriteSet (fold_left (fun m '(k, v) => <[k := v]> m) (map_to_list (writes other)) (writes w)).

(** ** Execution results *)

Inductive ExecutionStatus := Success | Revert | Failure.

Record Log := mkLog {
  log_address : bytes;
  log_topics : list bytes;
  log_data : bytes
}.

Record ExecutionResult := mkResult {
  er_tx_seq : Z;
  er_status : ExecutionStatus;
  er_read_set : ReadSet;
  er_write_set : WriteSet;
  er_gas_used : Z;
  er_logs : list Log;
  er_output : bytes
}.

#[global] Instance ExecutionStatus_eq_dec : EqDecision ExecutionStatus.
Proof. solve_decision. Defined.

(** ** The chain invariant: newest first *)

Definition seq_desc (a b : StateVersion) : Prop := sv_tx_sequence b <= sv_tx_sequence a.
Definition chain_sorted (c : VersionChain) : Prop := StronglySorted seq_desc (versions c).

(** A version a reader at [r] may return. *)
Definition visible (r : Z) (v : StateVersion) : Prop :=
  sv_tx_sequence v < r /\ sv_status v <> Aborted.

#[global] Instance visible_dec r v : Decision (visible r v).
Proof. unfold visible. apply _. Defined.

(** ** Lemmas *)

Lemma sorted_lookup c i j a b :
  chain_sorted c -> (i <= j)%nat -> versions c !! i = Some a -> versions c !! j = Some b -> seq_desc a b.
Proof.
  intros Hs Hij Ha Hb. destruct (decide (i = j)) as [->|Hne].
  { simplify_eq. unfold seq_desc. lia. }
  unfold chain_sorted in Hs. revert i j Hij Hne Ha Hb.
  induction Hs as [|x l Hs IH Hx]; intros i j Hij Hne Ha Hb; [done|].
  destruct j as [|j]; [lia|]. simpl in Hb. destruct i as [|i].
  - simpl in Ha. injection Ha as <-. rewrite Forall_forall in Hx.
    apply Hx. by eapply list_elem_of_lookup_2.
  - simpl in Ha. apply (IH i j); auto with lia.
Qed.

Lemma chain_bs_mono c q :
  chain_sorted c -> bs_mono (fun v => q ?= sv_tx_sequence v) (versions c).
Proof.
  intros Hs i j a b Hij Ha Hb. pose proof (sorted_lookup c i j a b Hs Hij Ha Hb) as Hd.
  unfold seq_desc in Hd. rewrite !Z.compare_gt_iff, !Z.compare_lt_iff. lia.
Qed.

(** Where a version goes: everything before it is at least as new, everything
    after it at most as new. *)
Lemma add_version_split c v :
  chain_sorted c ->
  exists l1 l2, versions c = l1 ++ l2 /\ versions (VersionChain_add_version c v) = l1 ++ v :: l2 /\
    Forall (fun w => sv_tx_sequence v <= sv_tx_sequence w) l1 /\
    Forall (fun w => sv_tx_sequence w <= sv_tx_sequence v) l2 /\
    (forall w, w ∈ l1 -> sv_tx_sequence w = sv_tx_sequence v -> exists x, head l2 = Some x /\ sv_tx_sequence x = sv_tx_sequence v).
Proof.
  intros Hs. unfold VersionChain_add_version, vec_insert. simpl.
  pose proof (binary_search_by_spec _ _ (chain_bs_mono c (sv_tx_sequence v) Hs)) as Hb.
  destruct (binary_search_by _ _) as [i|i].
  - destruct Hb as [(a & Ha & Hq) Hgt]. apply Z.compare_eq in Hq.
    exists (take i (versions c)), (drop i (versions c)). split; [by rewrite take_drop|]. split; [done|].
    split; [|split].
    + apply Forall_lookup. intros j w Hw. apply lookup_take_Some in Hw as [Hw Hj].
      pose proof (sorted_lookup c j i w a Hs ltac:(lia) Hw Ha) as Hd. unfold seq_desc in Hd. lia.
    + apply Forall_lookup. intros j w Hw. rewrite lookup_drop in Hw.
      pose proof (sorted_lookup c i (i + j) a w Hs ltac:(lia) Ha Hw) as Hd. unfold seq_desc in Hd. lia.
    + intros _ _ _. exists a. rewrite head_lookup, lookup_drop, Nat.add_0_r. done.
  - destruct Hb as (Hi & Hlt & Hgt).
    exists (take i (versions c)), (drop i (versions c)). split; [by rewrite take_drop|]. split; [done|].
    split; [|split].
    + apply Forall_lookup. intros j w Hw. apply lookup_take_Some in Hw as [Hw Hj].
      specialize (Hlt j w Hj Hw). rewrite Z.compare_lt_iff in Hlt. lia.
    + apply Forall_lookup. intros j w Hw. rewrite lookup_drop in Hw.
      specialize (Hgt (i + j)%nat w ltac:(lia) Hw). rewrite Z.compare_gt_iff in Hgt. lia.
    + intros w Hw Hq. apply list_elem_of_lookup in Hw as [j Hw]. apply lookup_take_Some in Hw as [Hw Hj].
      specialize (Hlt j w Hj Hw). rewrite Z.compare_lt_iff in Hlt. lia.
Qed.

Lemma strongly_sorted_app {A} (R : relation A) l1 l2 :
  StronglySorted R l1 -> StronglySorted R l2 -> (forall x y, x ∈ l1 -> y ∈ l2 -> R x y) ->
  StronglySorted R (l1 ++ l2).
Proof.
  intros H1 H2 H12. induction H1 as [|x l1 H1 IH Hx]; simpl; [done|].
  constructor.
  - apply IH. intros a b Ha. apply H12. by right.
  - apply Forall_app. split; [done|]. apply Forall_forall. intros y Hy. apply H12; [left|done].
Qed.

Lemma strongly_sorted_app_inv {A} (R : relation A) l1 l2 :
  StronglySorted R (l1 ++ l2) -> StronglySorted R l1 /\ StronglySorted R l2.
Proof.
  induction l1 as [|x l1 IH]; simpl; intros Hs; [split; [constructor|done]|].
  inversion_clear Hs as [|? ? Hs' Hx]. apply IH in Hs' as [H1 H2].
  apply Forall_app in Hx as [Hx _]. split; [by constructor|done].
Qed.

Lemma chain_sorted_add c v : chain_sorted c -> chain_sorted (VersionChain_add_version c v).
Proof.
  intros Hs. destruct (add_version_split c v Hs) as (l1 & l2 & E & E' & H1 & H2 & _).
  unfold chain_sorted in *. rewrite E' . rewrite E in Hs. apply strongly_sorted_app_inv in Hs as [S1 S2].
  rewrite Forall_forall in H1, H2.
  apply strongly_sorted_app; [done| |].
  - constructor; [done|]. apply Forall_forall. exact H2.
  - intros x y Hx Hy. specialize (H1 x Hx). unfold seq_desc.
    apply elem_of_cons in Hy as [->|Hy]; [done|]. specialize (H2 y Hy). lia.
Qed.

Lemma add_version_perm c v :
  chain_sorted c -> versions (VersionChain_add_version c v) ≡ₚ v :: versions c.
Proof.
  intros Hs. destruct (add_version_split c v Hs) as (l1 & l2 & -> & -> & _).
  symmetry. apply Permutation_middle.
Qed.

(** A version at least as new as the whole chain, with at most one other of
    its own transaction in it, becomes the head. *)
Lemma add_version_newest c v :
  chain_sorted c -> Forall (fun w => sv_tx_sequence w <= sv_tx_sequence v) (versions c) ->
  (length (filter (fun w => sv_tx_sequence w = sv_tx_sequence v) (versions c)) <= 1)%nat ->
  versions (VersionChain_add_version c v) = v :: versions c.
Proof.
  intros Hs Hle Hc. destruct (add_version_split c v Hs) as (l1 & l2 & E & E' & H1 & _ & H3).
  rewrite E' , E. rewrite E in Hle, Hc. destruct l1 as [|w l1]; [done|]. exfalso.
  apply Forall_app in Hle as [Hle _]. apply Forall_cons in Hle as [Hw _]. apply Forall_cons in H1 as [Hw' _].
  destruct (H3 w) as (x & Hx & Hq); [left|lia|].
  destruct l2 as [|y l2]; [done|]. injection Hx as ->.
  rewrite filter_app, filter_cons_True, length_app in Hc by lia.
  rewrite filter_cons_True in Hc by done. simpl in Hc. lia.
Qed.

(** [read_for] returns the first visible version. *)
Lemma read_versions_filter l r :
  read_versions l r = (fun v => (sv_value v, sv_tx_sequence v)) <$> head (filter (visible r) l).
Proof.
  induction l as [|v l IH]; [done|]. simpl. rewrite filter_cons.
  destruct (decide (visible r v)) as [[Hlt Hst]|Hn].
  - rewrite (proj2 (Z.ltb_lt _ _) Hlt). by destruct (sv_status v).
  - destruct (Z.ltb_spec (sv_tx_sequence v) r) as [Hlt|Hge]; [|done].
    destruct (sv_status v) eqn:Ev; try done; exfalso; apply Hn; split; congruence.
Qed.

Lemma read_for_Some c r value s :
  VersionChain_read_for c r = Some (value, s) ->
  exists v, v ∈ versions c /\ visible r v /\ sv_value v = value /\ sv_tx_sequence v = s.
Proof.
  unfold VersionChain_read_for. rewrite read_versions_filter.
  destruct (filter (visible r) (versions c)) as [|v l] eqn:E; [done|]. intros [= <- <-].
  assert (Hv : v ∈ filter (visible r) (versions c)) by (rewrite E; left).
  apply list_elem_of_filter in Hv as [? ?]. eauto.
Qed.

Lemma read_for_None c r :
  VersionChain_read_for c r = None -> forall v, v ∈ versions c -> ~ visible r v.
Proof.
  unfold VersionChain_read_for. rewrite read_versions_filter. intros H v Hv Hvis.
  destruct (filter (visible r) (versions c)) as [|w l] eqn:E; [|done].
  assert (v ∈ filter (visible r) (versions c)) by by apply list_elem_of_filter.
  rewrite E in *. by apply not_elem_of_nil in H0.
Qed.

Lemma read_for_max c r value s v :
  chain_sorted c -> VersionChain_read_for c r = Some (value, s) ->
  v ∈ versions c -> visible r v -> sv_tx_sequence v <= s.
Proof.
  intros Hs. unfold VersionChain_read_for, chain_sorted in *. rewrite read_versions_filter.
  intros Hr Hv Hvis. induction Hs as [|w l Hs IH Hw]; [by apply not_elem_of_nil in Hv|].
  rewrite filter_cons in Hr. destruct (decide (visible r w)) as [Hww|Hww].
  - injection Hr as <- <-. apply elem_of_cons in Hv as [->|Hv]; [done|].
    rewrite Forall_forall in Hw. by apply Hw.
  - apply elem_of_cons in Hv as [->|Hv]; [done|]. auto.
Qed.

(** The status changes touch neither order, sequence numbers nor values. *)
Lemma mark_first_seqs st q l :
  map sv_tx_sequence (mark_first st q l) = map sv_tx_sequence l /\
  map sv_value (mark_first st q l) = map sv_value l.
Proof.
  induction l as [|v l [IH1 IH2]]; [done|]. simpl. destruct (sv_tx_sequence v =? q); simpl; [done|].
  by rewrite IH1, IH2.
Qed.

Lemma sorted_by_seqs l l' :
  map sv_tx_sequence l = map sv_tx_sequence l' -> StronglySorted seq_desc l -> StronglySorted seq_desc l'.
Proof.
  intros E Hs. revert l' E. induction Hs as [|v l Hs IH Hv]; intros [|v' l'] E; [constructor|done|done|].
  injection E as E1 E2. constructor; [auto|]. apply Forall_forall. intros w Hw.
  apply (list_elem_of_fmap_2 sv_tx_sequence) in Hw.
  change (fmap sv_tx_sequence l') with (map sv_tx_sequence l') in Hw. rewrite <- E2 in Hw.
  apply list_elem_of_fmap in Hw as (x & Hx & Hin). rewrite Forall_forall in Hv.
  specialize (Hv x Hin). unfold seq_desc in *. lia.
Qed.

Lemma chain_sorted_mark st q c :
  chain_sorted c -> StronglySorted seq_desc (mark_first st q (versions c)).
Proof. apply sorted_by_seqs. symmetry. apply mark_first_seqs. Qed.

Lemma chain_sorted_filter (P : StateVersion -> Prop) `{forall v, Decision (P v)} l :
  StronglySorted seq_desc l -> StronglySorted seq_desc (filter P l).
Proof.
  induction 1 as [|v l Hs IH Hv]; [constructor|]. rewrite filter_cons. case_decide; [|done].
  constructor; [done|]. apply Forall_forall. intros w Hw.
  apply list_elem_of_filter in Hw as [_ Hw]. rewrite Forall_forall in Hv. auto.
Qed.

(** Committing a version that is not aborted does not change what is read. *)
Lemma mark_committed_reads l q r :
  Forall (fun v => sv_status v <> Aborted) l ->
  read_versions (mark_first Committed q l) r = read_versions l r.
Proof.
  induction 1 as [|v l Hv Hl IH]; [done|]. simpl. destruct (sv_tx_sequence v =? q) eqn:Eq; simpl.
  - destruct (sv_tx_sequence v <? r); [|done]. by destruct (sv_status v).
  - rewrite IH. done.
Qed.

Lemma mark_committed_not_aborted l q :
  Forall (fun v => sv_status v <> Aborted) l ->
  Forall (fun v => sv_status v <> Aborted) (mark_first Committed q l).
Proof.
  induction 1 as [|v l Hv Hl IH]; simpl; [constructor|].
  destruct (sv_tx_sequence v =? q); by constructor.
Qed.

(** ** Properties *)

(** The chain invariant.  Every operation keeps the versions sorted by
    descending transaction sequence, and [add_version] loses nothing: the
    chain is the old one with the new version inserted. *)
Theorem version_chain_sorted (c : VersionChain) (v : StateVersion) (q : Z) :
  chain_sorted c ->
  chain_sorted VersionChain_new /\
  chain_sorted (VersionChain_add_version c v) /\
  versions (VersionChain_add_version c v) ≡ₚ v :: versions c /\
  chain_sorted (VersionChain_mark_committed c q) /\
  chain_sorted (VersionChain_mark_aborted c q) /\
  chain_sorted (VersionChain_gc_aborted c).
Proof.
  intros Hs. split; [constructor|]. split; [by apply chain_sorted_add|].
  split; [by apply add_version_perm|]. split; [by apply chain_sorted_mark|].
  split; [by apply chain_sorted_mark|]. by apply chain_sorted_filter.
Qed.

(** Reads.  On a sorted chain [read_for] returns a version that is older
    than the reader, not aborted, and newest among those; it returns nothing
    exactly when there is no such version. *)
Theorem read_for_latest (c : VersionChain) (r : Z) :
  chain_sorted c ->
  match VersionChain_read_for c r with
  | Some (value, s) =>
      (exists v, v ∈ versions c /\ visible r v /\ sv_value v = value /\ sv_tx_sequence v = s) /\
      forall v, v ∈ versions c -> visible r v -> sv_tx_sequence v <= s
  | None => forall v, v ∈ versions c -> ~ visible r v
  end.
Proof.
  intros Hs. destruct (VersionChain_read_for c r) as [[value s]|] eqn:E.
  - split; [by apply read_for_Some|]. intros v. by eapply read_for_max.
  - by apply read_for_None.
Qed.

(** A transaction's third write to a slot is shadowed.  [add_version]
    inserts in front of the last version of the same transaction, so after
    three writes by one transaction a later reader sees the second one. *)
Theorem third_write_shadowed (q r : Z) (v1 v2 v3 : option U256) :
  q < r ->
  let w v := mkVersion q v Pending in
  let c := VersionChain_add_version (VersionChain_add_version
    (VersionChain_add_version VersionChain_new (w v1)) (w v2)) (w v3) in
  VersionChain_read_for c r = Some (v2, q).
Proof.
  intros Hlt. unfold VersionChain_add_version, VersionChain_read_for, binary_search_by.
  repeat (simpl; rewrite Z.compare_refl). simpl. by rewrite (proj2 (Z.ltb_lt q r) Hlt).
Qed.

Definition sample_chain : VersionChain :=
  mkChain [mkVersion 8 (Some U256_ONE) Aborted; mkVersion 5 (Some U256_ZERO) Committed].

Lemma sample_chain_sorted : chain_sorted sample_chain.
Proof. repeat constructor; vm_compute; discriminate. Qed.

Lemma version_chain_sorted_witness :
  map sv_tx_sequence (versions (VersionChain_add_version sample_chain (mkVersion 6 None Pending))) = [8; 6; 5] /\
  chain_sorted (VersionChain_add_version sample_chain (mkVersion 6 None Pending)).
Proof.
  split; [reflexivity|].
  apply (version_chain_sorted sample_chain (mkVersion 6 None Pending) 5), sample_chain_sorted.
Defined.

Lemma read_for_latest_witness :
  exists v, v ∈ versions sample_chain /\ visible 10 v /\ sv_value v = Some U256_ZERO /\ sv_tx_sequence v = 5.
Proof. apply (read_for_latest sample_chain 10), sample_chain_sorted. Defined.

Lemma third_write_shadowed_witness :
  VersionChain_read_for
    (VersionChain_add_version (VersionChain_add_version
      (VersionChain_add_version VersionChain_new (mkVersion 3 None Pending))
      (mkVersion 3 (Some U256_ONE) Pending)) (mkVersion 3 (Some U256_ZERO) Pending)) 4 = Some (Some U256_ONE, 3).
Proof. apply (third_write_shadowed 3 4 None (Some U256_ONE) (Some U256_ZERO)). lia. Defined.
