(* ===== verification/Jmt.v ===== *)
(** * The Jellyfish Merkle tree: [src/storage/jmt.rs]

    The content-addressed node store with [put], [get], [get_proof] and
    [verify_inclusion], and an abstract binary tree [tree] whose operations
    the store refines as long as SHA-256 does not collide on the nodes
    involved. *)

From S2P Require Import Prelude Types.

Abbreviation NodeHash := (list Z) (only parsing).

Definition EMPTY_HASH : NodeHash := replicate 32 0.

Inductive JmtNode :=
| Internal (left right : NodeHash)
| Leaf (key_hash value_hash : bytes)
| Empty.

#[global] Instance JmtNode_eq_dec : EqDecision JmtNode.
Proof. solve_decision. Defined.

Record JellyfishMerkleTree := mkJmt {
  jmt_nodes : gmap (list Z) JmtNode;
  jmt_root : NodeHash;
  jmt_version : Z
}.

Definition JmtNode_is_empty (n : JmtNode) : bool := bool_decide (n = Empty).

Definition JellyfishMerkleTree_new : JellyfishMerkleTree := mkJmt ∅ EMPTY_HASH 0.
Definition JellyfishMerkleTree_default : JellyfishMerkleTree := JellyfishMerkleTree_new.
Definition JellyfishMerkleTree_root_hash (t : JellyfishMerkleTree) : NodeHash := jmt_root t.
Definition JellyfishMerkleTree_version (t : JellyfishMerkleTree) : Z := jmt_version t.
Definition JellyfishMerkleTree_node_count (t : JellyfishMerkleTree) : nat := size (jmt_nodes t).

(** [get_bit]: bit [pos] of a key hash, 0 the most significant bit of byte 0. *)
Definition get_bit (key_hash : bytes) (pos : nat) : bool :=
  let byte_idx := (pos / 8)%nat in
  let bit_idx := (7 - pos mod 8)%nat in
  Z.land (Z.shiftr (nth byte_idx key_hash 0) (Z.of_nat bit_idx)) 1 =? 1.

Record JmtProof := mkProof {
  pf_key_hash : bytes;
  pf_siblings : list (nat * NodeHash);
  pf_root : NodeHash
}.

Section jmt.
Context `{Hashes}.

Definition JmtNode_hash (n : JmtNode) : NodeHash :=
  match n with
  | Empty => EMPTY_HASH
  | Leaf key_hash value_hash => sha256 (0 :: key_hash ++ value_hash)
  | Internal left' right' => sha256 (1 :: left' ++ right')
  end.

Definition hash_key (key : StateKey) : bytes := sha256 (StateKey_to_bytes key).

(** Store a node under its hash, and return the hash. *)
Definition store_node (n : JmtNode) (nodes : gmap (list Z) JmtNode) : gmap (list Z) JmtNode * NodeHash :=
  (<[JmtNode_hash n := n]> nodes, JmtNode_hash n).

(** [put_recursive]: [rem] is [256 - depth], so [rem = 0] is the guard
    [depth >= 256]. *)
Fixpoint put_recursive (rem : nat) (nodes : gmap (list Z) JmtNode) (node_hash : NodeHash)
    (key_hash value_hash : bytes) (depth : nat) : gmap (list Z) JmtNode * NodeHash :=
  match rem with
  | O => store_node (Leaf key_hash value_hash) nodes
  | S rem =>
      if bool_decide (node_hash = EMPTY_HASH) then store_node (Leaf key_hash value_hash) nodes
      else
        match nodes !! node_hash with
        | Some (Leaf existing_key existing_value) =>
            if bool_decide (existing_key = key_hash) then store_node (Leaf key_hash value_hash) nodes
            else
              let existing_bit := get_bit existing_key depth in
              let new_bit := get_bit key_hash depth in
              if Bool.eqb existing_bit new_bit then
                let '(nodes, existing_hash) := store_node (Leaf existing_key existing_value) nodes in
                let '(nodes, child_hash) := put_recursive rem nodes existing_hash key_hash value_hash (S depth) in
                store_node (if new_bit then Internal EMPTY_HASH child_hash
                            else Internal child_hash EMPTY_HASH) nodes
              else
                let '(nodes, existing_hash) := store_node (Leaf existing_key existing_value) nodes in
                let '(nodes, new_hash) := store_node (Leaf key_hash value_hash) nodes in
                store_node (if new_bit then Internal existing_hash new_hash
                            else Internal new_hash existing_hash) nodes
        | Some (Internal left' right') =>
            if get_bit key_hash depth then
              let '(nodes, new_right) := put_recursive rem nodes right' key_hash value_hash (S depth) in
              store_node (Internal left' new_right) nodes
            else
              let '(nodes, new_left) := put_recursive rem nodes left' key_hash value_hash (S depth) in
              store_node (Internal new_left right') nodes
        | _ => store_node (Leaf key_hash value_hash) nodes
        end
  end.

Definition JellyfishMerkleTree_put (t : JellyfishMerkleTree) (key : StateKey) (value : U256)
    : JellyfishMerkleTree * NodeHash :=
  let key_hash := hash_key key in
  let value_hash := sha256 (U256_to_be_bytes value) in
  let '(nodes, root) := put_recursive 256 (jmt_nodes t) (jmt_root t) key_hash value_hash 0 in
  (mkJmt nodes root (jmt_version t ⊞ 1), root).

(** [get_recursive]: an internal node below depth 256 makes [get_bit] index
    past the key; with [fuel = 257] levels the model ends there with [None]. *)
Fixpoint get_recursive (fuel : nat) (nodes : gmap (list Z) JmtNode) (node_hash : NodeHash)
    (key_hash : bytes) (depth : nat) : option bytes :=
  match fuel with
  | O => None
  | S fuel =>
      if bool_decide (node_hash = EMPTY_HASH) then None
      else
        match nodes !! node_hash with
        | None => None
        | Some (Leaf stored_key value_hash) =>
            if bool_decide (stored_key = key_hash) then Some value_hash else None
        | Some (Internal left' right') =>
            get_recursive fuel nodes (if get_bit key_hash depth then right' else left') key_hash (S depth)
        | Some Empty => None
        end
  end.

Definition JellyfishMerkleTree_get (t : JellyfishMerkleTree) (key : StateKey) : option bytes :=
  get_recursive 257 (jmt_nodes t) (jmt_root t) (hash_key key) 0.

(** [collect_proof_siblings]: [rem] is [256 - depth]. *)
Fixpoint collect_proof_siblings (rem : nat) (nodes : gmap (list Z) JmtNode) (node_hash : NodeHash)
    (key_hash : bytes) (depth : nat) : list (nat * NodeHash) :=
  match rem with
  | O => []
  | S rem =>
      if bool_decide (node_hash = EMPTY_HASH) then []
      else
        match nodes !! node_hash with
        | Some (Internal left' right') =>
            if get_bit key_hash depth then
              (depth, left') :: collect_proof_siblings rem nodes right' key_hash (S depth)
            else
              (depth, right') :: collect_proof_siblings rem nodes left' key_hash (S depth)
        | _ => []
        end
  end.

Definition JellyfishMerkleTree_get_proof (t : JellyfishMerkleTree) (key : StateKey) : JmtProof :=
  let key_hash := hash_key key in
  mkProof key_hash (collect_proof_siblings 256 (jmt_nodes t) (jmt_root t) key_hash 0) (jmt_root t).

(** The internal node [verify_inclusion] rebuilds above [current]. *)
Definition proof_node (key_hash : bytes) (sib : nat * NodeHash) (current : NodeHash) : JmtNode :=
  if get_bit key_hash sib.1 then Internal sib.2 current else Internal current sib.2.

(** [verify_inclusion]: [None] is the panic of [get_bit] on a depth past the
    32 bytes of the key. *)
Definition JmtProof_verify_inclusion (p : JmtProof) (value_hash : bytes) : option bool :=
  if existsb (fun sib : nat * NodeHash => 256 <=? sib.1)%nat (pf_siblings p) then None
  else
    let leaf := Leaf (pf_key_hash p) value_hash in
    let current :=
      fold_left (fun current sib => JmtNode_hash (proof_node (pf_key_hash p) sib current))
        (rev (pf_siblings p)) (JmtNode_hash leaf) in
    Some (bool_decide (current = pf_root p)).

(** ** The abstract tree *)

Inductive tree :=
| TE
| TL (k v : bytes)
| TN (l r : tree).

Fixpoint thash (t : tree) : NodeHash :=
  match t with
  | TE => EMPTY_HASH
  | TL k v => JmtNode_hash (Leaf k v)
  | TN l r => JmtNode_hash (Internal (thash l) (thash r))
  end.

Fixpoint tput (rem : nat) (t : tree) (k v : bytes) (depth : nat) : tree :=
  match rem with
  | O => TL k v
  | S rem =>
      match t with
      | TE => TL k v
      | TL k0 v0 =>
          if bool_decide (k0 = k) then TL k v
          else if Bool.eqb (get_bit k0 depth) (get_bit k depth) then
            if get_bit k depth then TN TE (tput rem t k v (S depth))
            else TN (tput rem t k v (S depth)) TE
          else if get_bit k depth then TN t (TL k v) else TN (TL k v) t
      | TN l r =>
          if get_bit k depth then TN l (tput rem r k v (S depth))
          else TN (tput rem l k v (S depth)) r
      end
  end.

Fixpoint tget (t : tree) (k : bytes) (depth : nat) : option bytes :=
  match t with
  | TE => None
  | TL k0 v0 => if bool_decide (k0 = k) then Some v0 else None
  | TN l r => tget (if get_bit k depth then r else l) k (S depth)
  end.

Fixpoint tproof (t : tree) (k : bytes) (depth : nat) : list (nat * NodeHash) :=
  match t with
  | TN l r =>
      if get_bit k depth then (depth, thash l) :: tproof r k (S depth)
      else (depth, thash r) :: tproof l k (S depth)
  | _ => []
  end.

Fixpoint tnodes (t : tree) : list JmtNode :=
  match t with
  | TE => []
  | TL k v => [Leaf k v]
  | TN l r => Internal (thash l) (thash r) :: tnodes l ++ tnodes r
  end.

Fixpoint tkeys (t : tree) : list bytes :=
  match t with
  | TE => []
  | TL k _ => [k]
  | TN l r => tkeys l ++ tkeys r
  end.

Fixpoint tdepth (t : tree) : nat :=
  match t with
  | TN l r => S (Nat.max (tdepth l) (tdepth r))
  | _ => 0
  end.

(** Every leaf sits on the path of its key. *)
Fixpoint twf (t : tree) (depth : nat) : Prop :=
  match t with
  | TN l r =>
      Forall (fun k => get_bit k depth = false) (tkeys l) /\
      Forall (fun k => get_bit k depth = true) (tkeys r) /\
      twf l (S depth) /\ twf r (S depth)
  | _ => True
  end.

(** An internal node has at least two leaves below it. *)
Fixpoint tcompact (t : tree) : Prop :=
  match t with
  | TN l r => (2 <= length (tkeys t))%nat /\ tcompact l /\ tcompact r
  | _ => True
  end.

(** A set of nodes on which the hash behaves: no collision, and no node hashes
    to the empty marker. *)
Definition collision_free (G : list JmtNode) : Prop :=
  (forall a b, a ∈ G -> b ∈ G -> JmtNode_hash a = JmtNode_hash b -> a = b) /\
  (forall a, a ∈ G -> JmtNode_hash a <> EMPTY_HASH).

(** The nodes of [t] are all in the store. *)
Definition stored (nodes : gmap (list Z) JmtNode) (t : tree) : Prop :=
  forall n, n ∈ tnodes t -> nodes !! JmtNode_hash n = Some n.

(** The concrete tree [j] stores the abstract tree [t]. *)
Record represents (j : JellyfishMerkleTree) (t : tree) : Prop := {
  rep_root : jmt_root j = thash t;
  rep_stored : stored (jmt_nodes j) t;
  rep_wf : twf t 0;
  rep_depth : (tdepth t <= 256)%nat;
  rep_compact : tcompact t;
  rep_keys : Forall (is_bytes 32) (tkeys t)
}.
End jmt.

#[global] Arguments JmtNode_hash {_} _ : simpl never.

(** ** Key bits *)

Lemma get_bit_testbit k pos :
  get_bit k pos = Z.testbit (nth (pos / 8)%nat k 0) (Z.of_nat (7 - pos mod 8)).
Proof.
  unfold get_bit. rewrite Z.testbit_odd. change 1 with (Z.ones 1) at 1.
  rewrite Z.land_ones by lia. change (2 ^ 1) with 2. rewrite Zmod_odd.
  by destruct (Z.odd _).
Qed.

Lemma is_u8_high_bits x n : is_u8 x -> 8 <= n -> Z.testbit x n = false.
Proof.
  intros Hx Hn. unfold is_u8, u8_bound in Hx.
  rewrite <- (Z.mod_small x (2 ^ 8)) by done. by apply Z.mod_pow2_bits_high.
Qed.

(** A 32-byte key is determined by its 256 bits. *)
Lemma key_bits_ext a b :
  is_bytes 32 a -> is_bytes 32 b -> (forall i, (i < 256)%nat -> get_bit a i = get_bit b i) -> a = b.
Proof.
  intros [La Ba] [Lb Bb] Hbits. apply (nth_ext a b 0 0); [congruence|]. intros j Hj.
  assert (Ha : is_u8 (nth j a 0)) by (rewrite Forall_forall in Ba; apply Ba, list_elem_of_In, nth_In; lia).
  assert (Hb : is_u8 (nth j b 0)) by (rewrite Forall_forall in Bb; apply Bb, list_elem_of_In, nth_In; lia).
  apply Z.bits_inj'. intros n Hn. destruct (Z.lt_ge_cases n 8) as [Hlt|Hge].
  2: { by rewrite !is_u8_high_bits by done. }
  specialize (Hbits (j * 8 + (7 - Z.to_nat n))%nat ltac:(lia)). rewrite !get_bit_testbit in Hbits.
  replace ((j * 8 + (7 - Z.to_nat n)) / 8)%nat with j in Hbits.
  2: { rewrite Nat.add_comm, Nat.div_add, Nat.div_small; lia. }
  replace ((j * 8 + (7 - Z.to_nat n)) mod 8)%nat with (7 - Z.to_nat n)%nat in Hbits.
  2: { rewrite Nat.add_comm, Nat.Div0.mod_add, Nat.mod_small; lia. }
  replace (Z.of_nat (7 - (7 - Z.to_nat n))) with n in Hbits by lia. done.
Qed.

Definition agree (d : nat) (a b : bytes) : Prop := forall i, (i < d)%nat -> get_bit a i = get_bit b i.

Lemma agree_S d a b : agree d a b -> get_bit a d = get_bit b d -> agree (S d) a b.
Proof. intros Ha Hb i Hi. destruct (decide (i = d)) as [->|]; [done|]. apply Ha. lia. Qed.

(** ** Laws of the abstract tree *)

Section tree_laws.
Context `{Hashes}.

Lemma tget_not_key t k d : k ∉ tkeys t -> tget t k d = None.
Proof.
  revert d. induction t as [|k0 v0|l IHl r IHr]; intros d Hk; simpl in *; [done| |].
  - rewrite bool_decide_eq_false_2; [done|]. intros ->. apply Hk. left.
  - apply not_elem_of_app in Hk as [? ?]. destruct (get_bit k d); auto.
Qed.

Lemma tget_key t k d : twf t d -> k ∈ tkeys t -> is_Some (tget t k d).
Proof.
  revert d. induction t as [|k0 v0|l IHl r IHr]; intros d Hwf Hk; simpl in *.
  - by apply not_elem_of_nil in Hk.
  - apply list_elem_of_singleton in Hk as ->. rewrite bool_decide_eq_true_2; eauto.
  - destruct Hwf as (Hl & Hr & Wl & Wr). rewrite Forall_forall in Hl, Hr.
    apply elem_of_app in Hk as [Hk|Hk]; [rewrite (Hl k Hk)|rewrite (Hr k Hk)]; auto.
Qed.

Lemma tget_leaf t k v d : twf t d -> Leaf k v ∈ tnodes t -> NoDup (tkeys t) -> tget t k d = Some v.
Proof.
  revert d. induction t as [|k0 v0|l IHl r IHr]; intros d Hwf Hk Hnd; simpl in *.
  - by apply not_elem_of_nil in Hk.
  - apply list_elem_of_singleton in Hk as [= -> ->]. by rewrite bool_decide_eq_true_2.
  - destruct Hwf as (Hl & Hr & Wl & Wr). rewrite Forall_forall in Hl, Hr.
    apply NoDup_app in Hnd as (Nl & Hd & Nr).
    assert (Hin : forall t, Leaf k v ∈ tnodes t -> k ∈ tkeys t).
    { clear. induction t; simpl; intros Hn; [by apply not_elem_of_nil in Hn| |].
      - apply list_elem_of_singleton in Hn as [= -> ->]. by left.
      - apply elem_of_cons in Hn as [?|Hn]; [done|]. apply elem_of_app. apply elem_of_app in Hn as [Hn|Hn]; auto. }
    apply elem_of_cons in Hk as [?|Hk]; [done|].
    apply elem_of_app in Hk as [Hk|Hk]; [rewrite (Hl k)|rewrite (Hr k)]; auto.
Qed.

(** The distinct-keys part of a well-formed tree follows from the paths. *)
Lemma twf_NoDup t d : twf t d -> NoDup (tkeys t).
Proof.
  revert d. induction t as [|k0 v0|l IHl r IHr]; intros d Hwf; simpl in *.
  - constructor.
  - apply NoDup_singleton.
  - destruct Hwf as (Hl & Hr & Wl & Wr). rewrite Forall_forall in Hl, Hr.
    apply NoDup_app. split; [eauto|]. split; [|eauto].
    intros k Hkl Hkr. specialize (Hl k Hkl). specialize (Hr k Hkr). congruence.
Qed.

Lemma tput_keys rem t k v d x : x ∈ tkeys (tput rem t k v d) -> x = k \/ x ∈ tkeys t.
Proof.
  revert t d. induction rem as [|rem IH]; intros t d; simpl.
  { rewrite list_elem_of_singleton. tauto. }
  destruct t as [|k0 v0|l r]; simpl.
  - rewrite list_elem_of_singleton. tauto.
  - case_bool_decide; simpl; [rewrite list_elem_of_singleton; tauto|].
    destruct (Bool.eqb _ _); destruct (get_bit k d); simpl; rewrite ?app_nil_r;
      try (intros Hx; apply IH in Hx; exact Hx);
      rewrite !elem_of_cons; intros [?|[?|?]]; auto.
  - destruct (get_bit k d); simpl; rewrite !elem_of_app; intros [Hx|Hx]; try tauto; apply IH in Hx; tauto.
Qed.

Lemma tput_depth rem t k v d : (tdepth t <= rem)%nat -> (tdepth (tput rem t k v d) <= rem)%nat.
Proof.
  revert t d. induction rem as [|rem IH]; intros t d Hd; simpl; [done|].
  destruct t as [|k0 v0|l r]; simpl in *; [lia| |].
  - case_bool_decide; simpl; [lia|].
    specialize (IH (TL k0 v0) (S d) ltac:(simpl; lia)).
    destruct (Bool.eqb _ _); destruct (get_bit k d); simpl; lia.
  - destruct (get_bit k d); simpl; [specialize (IH r (S d) ltac:(lia))|specialize (IH l (S d) ltac:(lia))]; lia.
Qed.

Lemma tput_wf rem t k v d : twf t d -> twf (tput rem t k v d) d.
Proof.
  revert t d. induction rem as [|rem IH]; intros t d Hwf; simpl; [done|].
  assert (Hside : forall t b, get_bit k d = b -> Forall (fun x => get_bit x d = b) (tkeys t) ->
    Forall (fun x => get_bit x d = b) (tkeys (tput rem t k v (S d)))).
  { intros t0 b Hb Hf. rewrite Forall_forall in *. intros x Hx.
    apply tput_keys in Hx as [->|Hx]; auto. }
  destruct t as [|k0 v0|l r]; simpl in *; [done| |].
  - case_bool_decide; [done|].
    destruct (Bool.eqb _ _) eqn:Eb.
    + apply eqb_prop in Eb. destruct (get_bit k d) eqn:Ek; simpl.
      * repeat split; [constructor| |by apply IH]. apply Hside; [done|by repeat constructor].
      * repeat split; [|constructor|by apply IH]. apply Hside; [done|by repeat constructor].
    + apply eqb_false_iff in Eb. destruct (get_bit k d) eqn:Ek, (get_bit k0 d) eqn:Ek0; simpl; try done;
        repeat split; by repeat constructor.
  - destruct Hwf as (Hl & Hr & Wl & Wr). destruct (get_bit k d) eqn:Ek; simpl; repeat split; auto.
Qed.

(** The map law of [tput], for keys that agree on the path down to [d]. *)
Lemma tget_tput rem t k v d k' :
  (d + rem = 256)%nat -> (tdepth t <= rem)%nat ->
  is_bytes 32 k -> is_bytes 32 k' -> Forall (is_bytes 32) (tkeys t) ->
  Forall (agree d k) (tkeys t) -> agree d k k' ->
  twf t d ->
  tget (tput rem t k v d) k' d = if bool_decide (k = k') then Some v else tget t k' d.
Proof.
  revert t d. induction rem as [|rem IH]; intros t d Hd Ht Hk Hk' Hb Ha Hak Hwf; simpl.
  { assert (k = k') as <- by (apply key_bits_ext; try done; intros i Hi; apply Hak; lia).
    by rewrite bool_decide_eq_true_2. }
  destruct t as [|k0 v0|l r]; simpl in *; [done| |].
  - apply Forall_cons in Hb as [Hb _], Ha as [Ha _].
    destruct (bool_decide (k0 = k)) eqn:E0; bool_to_prop; [subst; simpl; by destruct (bool_decide _)|].
    assert (Hsub : get_bit k0 d = get_bit k d -> get_bit k d = get_bit k' d ->
      tget (tput rem (TL k0 v0) k v (S d)) k' (S d) = if bool_decide (k = k') then Some v else tget (TL k0 v0) k' (S d)).
    { intros E1 E2. apply IH; try done; [lia|simpl; lia|by apply Forall_singleton| |by apply agree_S].
      apply Forall_singleton. by apply agree_S. }
    assert (Hne : get_bit k d <> get_bit k' d -> k <> k') by congruence.
    destruct (Bool.eqb _ _) eqn:Eb; [apply eqb_prop in Eb|apply eqb_false_iff in Eb].
    + destruct (get_bit k d) eqn:Ek, (get_bit k' d) eqn:Ek'; simpl; rewrite ?Ek'; try (by apply Hsub);
        rewrite (bool_decide_eq_false_2 (k = k')) by (apply Hne; done);
        rewrite bool_decide_eq_false_2; try done; intros <-; congruence.
    + destruct (get_bit k d) eqn:Ek, (get_bit k' d) eqn:Ek'; simpl; rewrite ?Ek'; simpl; try done;
        try (rewrite (bool_decide_eq_false_2 (k = k')) by (apply Hne; done); done);
        case_bool_decide; try done;
        rewrite bool_decide_eq_false_2; try done; intros <-; congruence.
  - apply Forall_app in Hb as [Bl Br]. apply Forall_app in Ha as [Al Ar].
    destruct Hwf as (Hl & Hr & Wl & Wr).
    assert (Hsub : forall t0, (tdepth t0 <= rem)%nat -> Forall (is_bytes 32) (tkeys t0) -> Forall (agree d k) (tkeys t0) ->
      Forall (fun x => get_bit x d = get_bit k d) (tkeys t0) -> get_bit k d = get_bit k' d -> twf t0 (S d) ->
      tget (tput rem t0 k v (S d)) k' (S d) = if bool_decide (k = k') then Some v else tget t0 k' (S d)).
    { intros t0 Ht0 B0 A0 D0 E W0. apply IH; try done; [lia| |by apply agree_S].
      rewrite Forall_forall in A0, D0 |- *. intros x Hx. apply agree_S; [by apply A0|]. symmetry. by apply D0. }
    destruct (get_bit k d) eqn:Ek; simpl; destruct (get_bit k' d) eqn:Ek'; simpl;
      try (apply Hsub; (done || lia)); rewrite bool_decide_eq_false_2; try done; congruence.
Qed.

Lemma tput_keys_keep rem t k v d x :
  (d + rem = 256)%nat -> (tdepth t <= rem)%nat ->
  is_bytes 32 k -> Forall (is_bytes 32) (tkeys t) -> Forall (agree d k) (tkeys t) -> twf t d ->
  x = k \/ x ∈ tkeys t -> x ∈ tkeys (tput rem t k v d).
Proof.
  intros Hd Ht Hk Hb Ha Hwf Hx.
  assert (Hxb : is_bytes 32 x) by (rewrite Forall_forall in Hb; destruct Hx as [->|Hx]; auto).
  assert (Hxa : agree d k x) by (rewrite Forall_forall in Ha; destruct Hx as [->|Hx]; [done|auto]).
  destruct (decide (x ∈ tkeys (tput rem t k v d))) as [|Hn]; [done|exfalso].
  apply (tget_not_key _ _ d) in Hn. rewrite (tget_tput rem t k v d x) in Hn by done.
  destruct Hx as [->|Hx]; [by rewrite bool_decide_eq_true_2 in Hn|].
  destruct (tget_key t x d Hwf Hx) as [y Hy]. rewrite Hy in Hn. by case_bool_decide.
Qed.

Lemma NoDup_subset_length {A} (l1 l2 : list A) : NoDup l1 -> l1 ⊆ l2 -> (length l1 <= length l2)%nat.
Proof. intros Hn Hs. by apply submseteq_length, NoDup_submseteq. Qed.

Lemma tput_compact rem t k v d :
  (d + rem = 256)%nat -> (tdepth t <= rem)%nat ->
  is_bytes 32 k -> Forall (is_bytes 32) (tkeys t) -> Forall (agree d k) (tkeys t) -> twf t d ->
  tcompact t -> tcompact (tput rem t k v d).
Proof.
  revert t d. induction rem as [|rem IH]; intros t d Hd Ht Hk Hb Ha Hwf Hc; [done|].
  destruct t as [|k0 v0|l r]; [done| |].
  - cbn [tput]. destruct (bool_decide (k0 = k)) eqn:E0; bool_to_prop; [done|].
    simpl in Ha, Hb. pose proof (proj1 (Forall_singleton _ _) Ha) as Ha0.
    destruct (Bool.eqb _ _) eqn:Eb; [|destruct (get_bit k d); simpl; repeat split; lia].
    apply eqb_prop in Eb.
    assert (Ha' : Forall (agree (S d) k) (tkeys (TL k0 v0))) by (apply Forall_singleton; by apply agree_S).
    assert (Hsub : tcompact (tput rem (TL k0 v0) k v (S d))) by (apply IH; simpl; done || lia).
    assert (Hlen : (2 <= length (tkeys (tput rem (TL k0 v0) k v (S d))))%nat).
    { apply (NoDup_subset_length [k; k0]).
      - apply NoDup_cons. split; [|apply NoDup_singleton]. rewrite list_elem_of_singleton. congruence.
      - intros x Hx. apply tput_keys_keep; try done; simpl; [lia|lia|].
        apply elem_of_cons in Hx as [->|Hx]; auto. }
    destruct (get_bit k d); simpl; rewrite ?app_nil_r; by repeat split.
  - cbn [tput]. cbn [tcompact tkeys] in Hc. cbn [tkeys tdepth twf] in Hb, Ha, Hwf, Ht.
    destruct Hc as (Hlen & Cl & Cr), Hwf as (Hl & Hr & Wl & Wr).
    apply Forall_app in Hb as [Bl Br]. apply Forall_app in Ha as [Al Ar].
    rewrite length_app in Hlen.
    assert (Hsub : forall t0, (tdepth t0 <= rem)%nat -> Forall (is_bytes 32) (tkeys t0) -> Forall (agree d k) (tkeys t0) ->
      Forall (fun x => get_bit x d = get_bit k d) (tkeys t0) -> twf t0 (S d) -> tcompact t0 ->
      tcompact (tput rem t0 k v (S d)) /\ (length (tkeys t0) <= length (tkeys (tput rem t0 k v (S d))))%nat).
    { intros t0 Ht0 B0 A0 D0 W0 C0.
      assert (A0' : Forall (agree (S d) k) (tkeys t0)).
      { rewrite Forall_forall in A0, D0 |- *. intros x Hx. apply agree_S; [by apply A0|]. symmetry. by apply D0. }
      split; [apply IH; done || lia|]. apply NoDup_subset_length; [by eapply twf_NoDup|].
      intros x Hx. apply tput_keys_keep; try done; [lia|auto]. }
    destruct (get_bit k d) eqn:Ek; simpl.
    + destruct (Hsub r) as [? ?]; try done; [lia|]. repeat split; [rewrite length_app; lia|done..].
    + destruct (Hsub l) as [? ?]; try done; [lia|]. repeat split; [rewrite length_app; lia|done..].
Qed.

(** Compact well-formed trees are canonical: the map determines the tree. *)
Lemma tree_canonical t1 t2 d :
  twf t1 d -> twf t2 d -> tcompact t1 -> tcompact t2 ->
  (forall k, k ∈ tkeys t1 \/ k ∈ tkeys t2 -> tget t1 k d = tget t2 k d) -> t1 = t2.
Proof.
  assert (Hleaf : forall k v l r d, twf (TN l r) d -> tcompact (TN l r) ->
    (forall x, x ∈ tkeys (TN l r) -> is_Some (tget (TL k v) x d)) -> False).
  { intros k v l r d0 Hwf [Hc _] Hx. apply twf_NoDup in Hwf.
    assert (Hle : (length (tkeys (TN l r)) <= length [k])%nat); [|simpl in *; lia].
    apply NoDup_subset_length; [done|]. intros x Hin. destruct (Hx x Hin) as [y Hy]. simpl in Hy.
    case_bool_decide; [subst; left|done]. }
  assert (Hnil : forall l r, tcompact (TN l r) -> exists x, x ∈ tkeys (TN l r)).
  { intros l r [Hc _]. destruct (tkeys (TN l r)) as [|x ks]; [simpl in Hc; lia|]. exists x. left. }
  revert t2 d. induction t1 as [|k v|l1 IHl r1 IHr]; intros [|k' v'|l2 r2] d W1 W2 C1 C2 Heq; [done| | | | | | | |].
  - specialize (Heq k' ltac:(right; left)). simpl in Heq. by rewrite bool_decide_eq_true_2 in Heq.
  - destruct (Hnil _ _ C2) as [x Hx]. destruct (tget_key _ _ _ W2 Hx) as [y Hy].
    rewrite <- Heq in Hy by auto. done.
  - specialize (Heq k ltac:(left; left)). simpl in Heq. by rewrite bool_decide_eq_true_2 in Heq.
  - specialize (Heq k ltac:(left; left)). simpl in Heq. rewrite bool_decide_eq_true_2 in Heq by done.
    case_bool_decide; by simplify_eq.
  - exfalso. apply (Hleaf k v _ _ d W2 C2). intros x Hx. rewrite Heq by auto. by apply tget_key.
  - destruct (Hnil _ _ C1) as [x Hx]. destruct (tget_key _ _ _ W1 Hx) as [y Hy].
    rewrite Heq in Hy by auto. done.
  - exfalso. apply (Hleaf k' v' _ _ d W1 C1). intros x Hx. rewrite <- Heq by auto. by apply tget_key.
  - destruct W1 as (L1 & R1 & Wl1 & Wr1), W2 as (L2 & R2 & Wl2 & Wr2), C1 as (_ & Cl1 & Cr1), C2 as (_ & Cl2 & Cr2).
    rewrite Forall_forall in L1, R1, L2, R2. f_equal.
    + apply (IHl _ (S d)); try done. intros k Hk. specialize (Heq k). simpl in Heq.
      rewrite !elem_of_app in Heq. replace (get_bit k d) with false in Heq; [tauto|].
      symmetry. destruct Hk; auto.
    + apply (IHr _ (S d)); try done. intros k Hk. specialize (Heq k). simpl in Heq.
      rewrite !elem_of_app in Heq. replace (get_bit k d) with true in Heq; [tauto|].
      symmetry. destruct Hk; auto.
Qed.

End tree_laws.

(** ** The store refines the tree *)

Section refinement.
Context `{HashesOk}.

Lemma store_node_keep G n nodes m :
  collision_free G -> n ∈ G -> m ∈ G -> nodes !! JmtNode_hash m = Some m ->
  (store_node n nodes).1 !! JmtNode_hash m = Some m.
Proof.
  intros [Hinj _] Hn Hm Hl. simpl. destruct (decide (JmtNode_hash n = JmtNode_hash m)) as [E|Hne].
  - rewrite E, lookup_insert_eq. by rewrite (Hinj n m Hn Hm E).
  - by rewrite lookup_insert_ne.
Qed.

Lemma thash_nonempty G t : collision_free G -> tnodes t ⊆ G -> t <> TE -> thash t <> EMPTY_HASH.
Proof. intros [_ Hne] Hs Ht. destruct t; [done| |]; simpl; apply Hne, Hs; left. Qed.

Lemma thash_lookup nodes t :
  stored nodes t ->
  match t with
  | TE => True
  | TL k v => nodes !! thash t = Some (Leaf k v)
  | TN l r => nodes !! thash t = Some (Internal (thash l) (thash r))
  end.
Proof. intros Hs. destruct t; [done| |]; simpl; apply (Hs _); left. Qed.

(** What one step of the recursion promises: the hash of the updated tree, all
    its nodes in the store, and no node of [G] lost. *)
Definition step_refines (G : list JmtNode) (nodes : gmap (list Z) JmtNode) (t' : tree)
    (res : gmap (list Z) JmtNode * NodeHash) : Prop :=
  res.2 = thash t' /\ stored res.1 t' /\
  (forall n, n ∈ G -> nodes !! JmtNode_hash n = Some n -> res.1 !! JmtNode_hash n = Some n).

Lemma store_leaf_refines G nodes k v :
  collision_free G -> Leaf k v ∈ G -> step_refines G nodes (TL k v) (store_node (Leaf k v) nodes).
Proof.
  intros Hc Hin. split; [done|]. split.
  - intros n Hn. apply list_elem_of_singleton in Hn as ->. simpl. by rewrite lookup_insert_eq.
  - intros n Hn Hl. by eapply store_node_keep.
Qed.

(** Storing an internal node above two stored subtrees. *)
Lemma store_internal_refines G nodes0 nodes l r :
  collision_free G -> tnodes (TN l r) ⊆ G -> stored nodes l -> stored nodes r ->
  (forall n, n ∈ G -> nodes0 !! JmtNode_hash n = Some n -> nodes !! JmtNode_hash n = Some n) ->
  step_refines G nodes0 (TN l r) (store_node (Internal (thash l) (thash r)) nodes).
Proof.
  intros Hc Hsub Hl Hr Hk. assert (Hin : Internal (thash l) (thash r) ∈ G) by (apply Hsub; left).
  split; [done|]. split.
  - intros n Hn. pose proof (Hsub n Hn) as HnG. simpl in Hn. apply elem_of_cons in Hn as [->|Hn].
    + simpl. by rewrite lookup_insert_eq.
    + apply store_node_keep with G; try done. apply elem_of_app in Hn as [Hn|Hn]; auto.
  - intros n Hn Hln. apply store_node_keep with G; auto.
Qed.

Lemma stored_keep G nodes nodes' t :
  tnodes t ⊆ G ->
  (forall n, n ∈ G -> nodes !! JmtNode_hash n = Some n -> nodes' !! JmtNode_hash n = Some n) ->
  stored nodes t -> stored nodes' t.
Proof. intros Hs Hk Hst n Hn. apply Hk; auto. Qed.

Lemma tnodes_TN_sub l r (G : list JmtNode) :
  tnodes (TN l r) ⊆ G -> tnodes l ⊆ G /\ tnodes r ⊆ G.
Proof. intros Hs. split; intros n Hn; apply Hs; simpl; right; apply elem_of_app; auto. Qed.

Lemma stored_TE nodes : stored nodes TE.
Proof. intros n Hn. by apply not_elem_of_nil in Hn. Qed.

Lemma put_recursive_refines G rem nodes t k v d :
  collision_free G -> tnodes t ⊆ G -> tnodes (tput rem t k v d) ⊆ G -> stored nodes t ->
  step_refines G nodes (tput rem t k v d) (put_recursive rem nodes (thash t) k v d).
Proof.
  intros Hc. revert nodes t d. induction rem as [|rem IH]; intros nodes t d Ht Ht' Hst.
  { apply store_leaf_refines; [done|]. apply Ht'. left. }
  cbn [put_recursive]. destruct t as [|k0 v0|l r].
  - rewrite bool_decide_eq_true_2 by done. apply store_leaf_refines; [done|]. apply Ht'. left.
  - rewrite bool_decide_eq_false_2 by by eapply thash_nonempty.
    pose proof (thash_lookup _ _ Hst) as Hlk. simpl in Hlk |- *. rewrite Hlk.
    cbn [tput] in Ht'. destruct (bool_decide (k0 = k)) eqn:E0.
    { apply store_leaf_refines; [done|]. apply Ht'. left. }
    assert (HG0 : Leaf k0 v0 ∈ G) by (apply Ht; left).
    destruct (store_leaf_refines G nodes k0 v0 Hc HG0) as (_ & Hs0 & Hk0). simpl in Hs0, Hk0.
    destruct (Bool.eqb _ _) eqn:Eb.
    + assert (Ht1 : tnodes (tput rem (TL k0 v0) k v (S d)) ⊆ G).
      { destruct (get_bit k d); by apply tnodes_TN_sub in Ht' as [? ?]. }
      specialize (IH _ (TL k0 v0) (S d) Ht Ht1 Hs0). simpl in IH.
      destruct (put_recursive rem _ _ _ _ _) as [nodes1 h1]. destruct IH as (Eh & Hs1 & Hk1). simpl in Eh, Hs1, Hk1.
      subst h1. destruct (get_bit k d).
      * apply (store_internal_refines G nodes nodes1 TE _); auto using stored_TE.
      * apply (store_internal_refines G nodes nodes1 _ TE); auto using stored_TE.
    + assert (HG1 : Leaf k v ∈ G) by (destruct (get_bit k d); apply tnodes_TN_sub in Ht' as [Hl Hr]; (apply Hr; left) || (apply Hl; left)).
      destruct (store_leaf_refines G (<[JmtNode_hash (Leaf k0 v0):=Leaf k0 v0]> nodes) k v Hc HG1) as (_ & Hs1 & Hk1).
      simpl in Hs1, Hk1.
      assert (Hs0' : stored (<[JmtNode_hash (Leaf k v):=Leaf k v]> (<[JmtNode_hash (Leaf k0 v0):=Leaf k0 v0]> nodes)) (TL k0 v0))
        by (by eapply stored_keep).
      destruct (get_bit k d).
      * apply (store_internal_refines G nodes _ (TL k0 v0) (TL k v)); auto.
      * apply (store_internal_refines G nodes _ (TL k v) (TL k0 v0)); auto.
  - rewrite bool_decide_eq_false_2 by by eapply thash_nonempty.
    pose proof (thash_lookup _ _ Hst) as Hlk. simpl in Hlk |- *. rewrite Hlk.
    pose proof (tnodes_TN_sub _ _ _ Ht) as [Gl Gr].
    assert (Sl : stored nodes l) by (intros n Hn; apply Hst; simpl; right; apply elem_of_app; auto).
    assert (Sr : stored nodes r) by (intros n Hn; apply Hst; simpl; right; apply elem_of_app; auto).
    cbn [tput] in Ht'. destruct (get_bit k d); pose proof (tnodes_TN_sub _ _ _ Ht') as [Gl' Gr'].
    + specialize (IH nodes r (S d) Gr Gr' Sr). destruct (put_recursive rem _ _ _ _ _) as [nodes1 h1].
      destruct IH as (Eh & Hs1 & Hk1). simpl in Eh, Hs1, Hk1. subst h1.
      apply store_internal_refines; auto. by eapply stored_keep.
    + specialize (IH nodes l (S d) Gl Gl' Sl). destruct (put_recursive rem _ _ _ _ _) as [nodes1 h1].
      destruct IH as (Eh & Hs1 & Hk1). simpl in Eh, Hs1, Hk1. subst h1.
      apply store_internal_refines; auto. by eapply stored_keep.
Qed.

Lemma get_recursive_refines G fuel nodes t k d :
  collision_free G -> tnodes t ⊆ G -> stored nodes t -> (tdepth t < fuel)%nat ->
  get_recursive fuel nodes (thash t) k d = tget t k d.
Proof.
  intros Hc. revert t d. induction fuel as [|fuel IH]; intros t d Ht Hst Hf; [lia|].
  cbn [get_recursive]. pose proof (thash_lookup _ _ Hst) as Hlk. destruct t as [|k0 v0|l r].
  - by rewrite bool_decide_eq_true_2.
  - rewrite bool_decide_eq_false_2 by by eapply thash_nonempty. by rewrite Hlk.
  - rewrite bool_decide_eq_false_2 by by eapply thash_nonempty. rewrite Hlk.
    pose proof (tnodes_TN_sub _ _ _ Ht) as [Gl Gr]. simpl in Hf |- *.
    assert (Sl : stored nodes l) by (intros n Hn; apply Hst; simpl; right; apply elem_of_app; auto).
    assert (Sr : stored nodes r) by (intros n Hn; apply Hst; simpl; right; apply elem_of_app; auto).
    destruct (get_bit k d); apply IH; done || lia.
Qed.

Lemma collect_refines G rem nodes t k d :
  collision_free G -> tnodes t ⊆ G -> stored nodes t -> (tdepth t <= rem)%nat ->
  collect_proof_siblings rem nodes (thash t) k d = tproof t k d.
Proof.
  intros Hc. revert t d. induction rem as [|rem IH]; intros t d Ht Hst Hf.
  { destruct t; simpl in *; done || lia. }
  cbn [collect_proof_siblings]. pose proof (thash_lookup _ _ Hst) as Hlk. destruct t as [|k0 v0|l r].
  - by rewrite bool_decide_eq_true_2.
  - rewrite bool_decide_eq_false_2 by by eapply thash_nonempty. by rewrite Hlk.
  - rewrite bool_decide_eq_false_2 by by eapply thash_nonempty. rewrite Hlk.
    pose proof (tnodes_TN_sub _ _ _ Ht) as [Gl Gr]. simpl in Hf |- *.
    assert (Sl : stored nodes l) by (intros n Hn; apply Hst; simpl; right; apply elem_of_app; auto).
    assert (Sr : stored nodes r) by (intros n Hn; apply Hst; simpl; right; apply elem_of_app; auto).
    destruct (get_bit k d); f_equal; apply IH; done || lia.
Qed.

(** ** The concrete operations *)

Definition value_hash (v : U256) : bytes := sha256 (U256_to_be_bytes v).

Definition tree_put (t : tree) (op : StateKey * U256) : tree :=
  tput 256 t (hash_key op.1) (value_hash op.2) 0.

Lemma represents_new : represents JellyfishMerkleTree_new TE.
Proof. split; simpl; try done; [apply stored_TE|lia]. Qed.

Lemma agree_zero k x : agree 0 k x.
Proof. intros i Hi. lia. Qed.

Lemma agree_0 k l : Forall (agree 0 k) l.
Proof. apply Forall_forall. intros x _. apply agree_zero. Qed.

Lemma put_represents G j t k v :
  collision_free G -> tnodes t ⊆ G -> tnodes (tree_put t (k, v)) ⊆ G ->
  represents j t ->
  represents (JellyfishMerkleTree_put j k v).1 (tree_put t (k, v)).
Proof.
  unfold tree_put; cbn [fst snd]. intros Hc Ht Ht' [Hr Hs Hw Hd Hcm Hkeys].
  pose proof (put_recursive_refines G 256 (jmt_nodes j) t (hash_key k) (value_hash v) 0 Hc Ht Ht' Hs) as Hp.
  unfold JellyfishMerkleTree_put. rewrite Hr. fold (value_hash v).
  destruct (put_recursive 256 _ _ _ _ _) as [nodes root]. destruct Hp as (Eh & Hs' & _).
  assert (Hkb : is_bytes 32 (hash_key k)) by apply sha256_is_bytes.
  split; [exact Eh|exact Hs'|by apply tput_wf|by apply tput_depth| |].
  - apply tput_compact; try done. apply agree_0.
  - apply Forall_forall. intros x Hx. apply tput_keys in Hx as [->|Hx]; [done|].
    rewrite Forall_forall in Hkeys. auto.
Qed.

Lemma get_represents G j t k :
  collision_free G -> tnodes t ⊆ G -> represents j t ->
  JellyfishMerkleTree_get j k = tget t (hash_key k) 0.
Proof.
  intros Hc Ht [Hr Hs Hw Hd _ _]. unfold JellyfishMerkleTree_get. rewrite Hr.
  eapply get_recursive_refines; [done..|lia].
Qed.

Lemma proof_represents G j t k :
  collision_free G -> tnodes t ⊆ G -> represents j t ->
  JellyfishMerkleTree_get_proof j k = mkProof (hash_key k) (tproof t (hash_key k) 0) (thash t).
Proof.
  intros Hc Ht [Hr Hs Hw Hd _ _]. unfold JellyfishMerkleTree_get_proof. rewrite Hr. f_equal.
  by eapply collect_refines.
Qed.

(** ** Proofs *)

(** The hash a list of siblings, root first, leads to from [current]. *)
Fixpoint proof_hash (k : bytes) (sibs : list (nat * NodeHash)) (current : NodeHash) : NodeHash :=
  match sibs with
  | [] => current
  | sib :: sibs => JmtNode_hash (proof_node k sib (proof_hash k sibs current))
  end.

(** The internal nodes rebuilt on the way. *)
Fixpoint proof_nodes (k : bytes) (sibs : list (nat * NodeHash)) (current : NodeHash) : list JmtNode :=
  match sibs with
  | [] => []
  | sib :: sibs => proof_node k sib (proof_hash k sibs current) :: proof_nodes k sibs current
  end.

Lemma proof_hash_fold k sibs current :
  fold_left (fun c sib => JmtNode_hash (proof_node k sib c)) (rev sibs) current = proof_hash k sibs current.
Proof. induction sibs as [|s sibs IH]; simpl; [done|]. by rewrite fold_left_app, IH. Qed.

Lemma tproof_complete t k v d :
  tget t k d = Some v -> proof_hash k (tproof t k d) (JmtNode_hash (Leaf k v)) = thash t.
Proof.
  revert d. induction t as [|k0 v0|l IHl r IHr]; intros d Hg; simpl in *; [done| |].
  - case_bool_decide; by simplify_eq.
  - destruct (get_bit k d) eqn:E; simpl; unfold proof_node; simpl; rewrite E; by rewrite ?IHl, ?IHr.
Qed.

Lemma tproof_depths t k d : Forall (fun sib => sib.1 < d + tdepth t)%nat (tproof t k d).
Proof.
  revert d. induction t as [|k0 v0|l IHl r IHr]; intros d; simpl; [constructor..|].
  destruct (get_bit k d); constructor; simpl; try lia;
    (eapply Forall_impl; [apply IHr || apply IHl|]); simpl; lia.
Qed.

Lemma tproof_sound G t k v sibs :
  collision_free G -> tnodes t ⊆ G -> Leaf k v ∈ G ->
  proof_nodes k sibs (JmtNode_hash (Leaf k v)) ⊆ G ->
  proof_hash k sibs (JmtNode_hash (Leaf k v)) = thash t -> Leaf k v ∈ tnodes t.
Proof.
  intros Hc. revert t. induction sibs as [|s sibs IH]; intros t Ht Hl Hp Heq; simpl in Heq, Hp.
  - destruct Hc as [Hinj Hne]. destruct t as [|k0 v0|l r]; simpl in Heq.
    + by apply Hne in Heq.
    + apply Hinj in Heq; [|done|apply Ht; left]. rewrite Heq. left.
    + apply Hinj in Heq; [done|done|apply Ht; left].
  - assert (Hin : proof_node k s (proof_hash k sibs (JmtNode_hash (Leaf k v))) ∈ G) by (apply Hp; left).
    assert (Hp' : proof_nodes k sibs (JmtNode_hash (Leaf k v)) ⊆ G) by (intros n Hn; apply Hp; by right).
    pose proof Hc as [Hinj Hne]. destruct t as [|k0 v0|l r]; simpl in Heq.
    + by apply Hne in Heq.
    + apply Hinj in Heq; [|done|apply Ht; left]. unfold proof_node in Heq. by destruct (get_bit _ _).
    + pose proof (tnodes_TN_sub _ _ _ Ht) as [Gl Gr]. simpl. right. apply elem_of_app.
      apply Hinj in Heq; [|done|apply Ht; left]. unfold proof_node in Heq.
      destruct (get_bit _ _); [injection Heq as _ E|injection Heq as E _]; auto.
Qed.


(** ** Histories of puts *)

Definition jmt_puts (j : JellyfishMerkleTree) (ops : list (StateKey * U256)) : JellyfishMerkleTree :=
  fold_left (fun j op => (JellyfishMerkleTree_put j op.1 op.2).1) ops j.

Definition tree_puts (t : tree) (ops : list (StateKey * U256)) : tree := fold_left tree_put ops t.

(** All the nodes a history creates. *)
Fixpoint trace_nodes (t : tree) (ops : list (StateKey * U256)) : list JmtNode :=
  tnodes t ++
  match ops with
  | [] => []
  | op :: ops => trace_nodes (tree_put t op) ops
  end.

(** The map a history leaves behind: last write per key hash. *)
Definition put_content (m : gmap (list Z) (list Z)) (op : StateKey * U256) : gmap (list Z) (list Z) :=
  <[hash_key op.1 := value_hash op.2]> m.

Definition contents (m : gmap (list Z) (list Z)) (ops : list (StateKey * U256)) : gmap (list Z) (list Z) :=
  fold_left put_content ops m.

(** The contents after a history: its own last write, else what was there. *)
Lemma contents_lookup m ops x :
  contents m ops !! x = match contents ∅ ops !! x with Some v => Some v | None => m !! x end.
Proof.
  revert m. induction ops as [|op ops IH] using rev_ind; intros m; [by simpl; rewrite lookup_empty|].
  unfold contents in *. rewrite !fold_left_app. simpl. unfold put_content at 1 3.
  destruct (decide (hash_key op.1 = x)) as [->|Hne].
  - by rewrite !lookup_insert_eq.
  - by rewrite !lookup_insert_ne.
Qed.

Lemma trace_nodes_start t ops : tnodes t ⊆ trace_nodes t ops.
Proof. intros n Hn. destruct ops; simpl; apply elem_of_app; auto. Qed.

Lemma trace_nodes_end t ops : tnodes (tree_puts t ops) ⊆ trace_nodes t ops.
Proof.
  revert t. induction ops as [|op ops IH]; intros t; [apply trace_nodes_start|].
  intros n Hn. simpl. apply elem_of_app. right. by apply IH.
Qed.

Lemma puts_represents G j t ops :
  collision_free G -> trace_nodes t ops ⊆ G -> represents j t ->
  represents (jmt_puts j ops) (tree_puts t ops).
Proof.
  intros Hc. revert j t. induction ops as [|op ops IH]; intros j t Hs Hr; [done|].
  simpl in Hs. assert (Hs' : trace_nodes (tree_put t op) ops ⊆ G) by (intros n Hn; apply Hs, elem_of_app; auto).
  apply IH; [done|]. destruct op as [k v]. apply (put_represents G); [done|..|done].
  - intros n Hn. apply Hs, elem_of_app; auto.
  - intros n Hn. apply Hs', (trace_nodes_start _ ops). done.
Qed.

Lemma represents_puts_content G j t m ops x :
  collision_free G -> trace_nodes t ops ⊆ G -> represents j t -> is_bytes 32 x ->
  tget t x 0 = m !! x -> tget (tree_puts t ops) x 0 = contents m ops !! x.
Proof.
  intros Hc. revert j t m. induction ops as [|op ops IH]; intros j t m Hs Hr Hx Hm; [done|].
  simpl in Hs. assert (Hs' : trace_nodes (tree_put t op) ops ⊆ G) by (intros n Hn; apply Hs, elem_of_app; auto).
  assert (Hr' : represents (JellyfishMerkleTree_put j op.1 op.2).1 (tree_put t op)).
  { destruct op as [k v]. apply (put_represents G); [done|..|done].
    - intros n Hn. apply Hs, elem_of_app; auto.
    - intros n Hn. apply Hs', (trace_nodes_start _ ops). done. }
  apply (IH _ _ _ Hs' Hr' Hx). destruct Hr as [_ _ Hw Hd _ Hk].
  unfold tree_put. rewrite tget_tput; try done; [|apply sha256_is_bytes|apply agree_0|apply agree_zero].
  unfold put_content. case_bool_decide as E.
  - by rewrite E, lookup_insert_eq.
  - by rewrite lookup_insert_ne.
Qed.

Lemma put_fields j k v :
  (JellyfishMerkleTree_put j k v).2 = jmt_root (JellyfishMerkleTree_put j k v).1 /\
  jmt_version (JellyfishMerkleTree_put j k v).1 = jmt_version j ⊞ 1.
Proof. unfold JellyfishMerkleTree_put. by destruct (put_recursive _ _ _ _ _ _). Qed.

Lemma get_put j t k v :
  represents j t -> collision_free (tnodes t ++ tnodes (tree_put t (k, v))) ->
  represents (JellyfishMerkleTree_put j k v).1 (tree_put t (k, v)) /\
  forall k', JellyfishMerkleTree_get (JellyfishMerkleTree_put j k v).1 k' =
    if bool_decide (hash_key k = hash_key k') then Some (value_hash v) else JellyfishMerkleTree_get j k'.
Proof.
  intros Hr Hc. set (G := tnodes t ++ tnodes (tree_put t (k, v))) in *.
  assert (Hs : tnodes t ⊆ G) by (intros n; unfold G; rewrite elem_of_app; auto).
  assert (Hs' : tnodes (tree_put t (k, v)) ⊆ G) by (intros n; unfold G; rewrite elem_of_app; auto).
  pose proof (put_represents G j t k v Hc Hs Hs' Hr) as Hp. split; [exact Hp|]. intros k'.
  rewrite (get_represents G _ _ k' Hc Hs' Hp), (get_represents G _ _ k' Hc Hs Hr).
  destruct Hr as [_ _ Hw Hd _ Hk]. unfold tree_put; cbn [fst snd].
  exact (tget_tput 256 t _ _ 0 _ eq_refl Hd (sha256_is_bytes _) (sha256_is_bytes _) Hk (agree_0 _ _) (agree_zero _ _) Hw).
Qed.

(** Two histories from the same tree with the same effect on its contents end
    with the same root. *)
Lemma puts_same_root G j t ops1 ops2 :
  collision_free G -> trace_nodes t ops1 ⊆ G -> trace_nodes t ops2 ⊆ G -> represents j t ->
  (forall x m, is_bytes 32 x -> tget t x 0 = m !! x -> contents m ops1 !! x = contents m ops2 !! x) ->
  jmt_root (jmt_puts j ops1) = jmt_root (jmt_puts j ops2).
Proof.
  intros Hc Hs1 Hs2 Hr Heq.
  pose proof (puts_represents G _ _ _ Hc Hs1 Hr) as [R1 _ W1 _ C1 K1].
  pose proof (puts_represents G _ _ _ Hc Hs2 Hr) as [R2 _ W2 _ C2 K2].
  rewrite R1, R2. f_equal. apply (tree_canonical _ _ 0); try done. intros k Hk.
  assert (Hb : is_bytes 32 k) by (rewrite Forall_forall in K1, K2; destruct Hk; auto).
  set (m := match tget t k 0 with Some v => {[k := v]} | None => ∅ end : gmap (list Z) (list Z)).
  assert (Hm : tget t k 0 = m !! k).
  { subst m. destruct (tget t k 0); [by rewrite lookup_singleton_eq|by rewrite lookup_empty]. }
  rewrite (represents_puts_content G _ t m ops1 k Hc Hs1 Hr Hb Hm).
  rewrite (represents_puts_content G _ t m ops2 k Hc Hs2 Hr Hb Hm). by apply Heq.
Qed.

(** ** Deciding [collision_free] *)

Definition collision_free_check (G : list JmtNode) : bool :=
  forallb (fun a => negb (bool_decide (JmtNode_hash a = EMPTY_HASH)) &&
    forallb (fun b => negb (bool_decide (JmtNode_hash a = JmtNode_hash b)) || bool_decide (a = b)) G) G.

Lemma collision_free_by_check G : collision_free_check G = true -> collision_free G.
Proof.
  unfold collision_free_check. rewrite forallb_forall. intros Hck. split.
  - intros a b Ha Hb E. specialize (Hck a ltac:(by apply list_elem_of_In)).
    apply andb_true_iff in Hck as [_ Hck]. rewrite forallb_forall in Hck.
    specialize (Hck b ltac:(by apply list_elem_of_In)). apply orb_true_iff in Hck as [Hck|Hck]; bool_to_prop; done.
  - intros a Ha. specialize (Hck a ltac:(by apply list_elem_of_In)).
    apply andb_true_iff in Hck as [Hck _]. by bool_to_prop.
Qed.
End refinement.

(** ** Properties *)

(** C17: [put] refines a pure map.  If the store represents a tree and the
    nodes of that tree and of its update do not collide, then after
    [put(k, v)] the store represents the updated tree, the returned hash is
    the new root, the version is one more, and [get] answers the hash of [v]
    for [k] and what it answered before for every other key. *)
Theorem jmt_put_refines `{HashesOk} (j : JellyfishMerkleTree) (t : tree) (k : StateKey) (v : U256) :
  represents j t ->
  collision_free (tnodes t ++ tnodes (tree_put t (k, v))) ->
  let (j', root) := JellyfishMerkleTree_put j k v in
  represents j' (tree_put t (k, v)) /\ root = jmt_root j' /\
  jmt_version j' = jmt_version j ⊞ 1 /\
  forall k', JellyfishMerkleTree_get j' k' =
    if bool_decide (hash_key k = hash_key k') then Some (value_hash v) else JellyfishMerkleTree_get j k'.
Proof.
  intros Hr Hc. pose proof (put_fields j k v) as [Eroot Ever].
  pose proof (get_put j t k v Hr Hc) as [Hp Hg].
  destruct (JellyfishMerkleTree_put j k v) as [j' root]. auto.
Qed.

(** C4: history independence.  Two histories of puts that leave the same last
    value for every key produce the same root hash, in whatever order and
    however often the keys were written. *)
Theorem jmt_history_independent `{HashesOk} (ops1 ops2 : list (StateKey * U256)) :
  collision_free (trace_nodes TE ops1 ++ trace_nodes TE ops2) ->
  contents ∅ ops1 = contents ∅ ops2 ->
  jmt_root (jmt_puts JellyfishMerkleTree_new ops1) = jmt_root (jmt_puts JellyfishMerkleTree_new ops2).
Proof.
  intros Hc Heq.
  apply (puts_same_root (trace_nodes TE ops1 ++ trace_nodes TE ops2) _ TE); [done|..|apply represents_new|].
  - intros n. rewrite elem_of_app. auto.
  - intros n. rewrite elem_of_app. auto.
  - intros x m _ _. by rewrite (contents_lookup m ops1), (contents_lookup m ops2), Heq.
Qed.

(** C18: proofs are complete.  For every key the tree holds, the generated proof
    verifies against the stored value hash, without running past the key's
    256 bits. *)
Theorem jmt_proof_complete `{HashesOk} (j : JellyfishMerkleTree) (t : tree) (k : StateKey) (vh : bytes) :
  represents j t -> collision_free (tnodes t) ->
  JellyfishMerkleTree_get j k = Some vh ->
  JmtProof_verify_inclusion (JellyfishMerkleTree_get_proof j k) vh = Some true.
Proof.
  intros Hr Hc Hg. assert (Hs : tnodes t ⊆ tnodes t) by done.
  rewrite (get_represents _ _ _ k Hc Hs Hr) in Hg. rewrite (proof_represents _ _ _ k Hc Hs Hr).
  unfold JmtProof_verify_inclusion. cbn [pf_key_hash pf_siblings pf_root]. rewrite proof_hash_fold, (tproof_complete _ _ _ _ Hg).
  rewrite bool_decide_eq_true_2 by done.
  destruct (existsb _ _) eqn:E; [|done]. apply existsb_exists in E as (sib & Hin & Hle). apply Nat.leb_le in Hle.
  pose proof (tproof_depths t (hash_key k) 0) as Hd. rewrite Forall_forall in Hd.
  specialize (Hd sib ltac:(by apply list_elem_of_In)). pose proof (rep_depth _ _ Hr). lia.
Qed.

(** C5: proofs are sound.  A proof for the root of a tree that verifies for a
    key and a value hash shows that the tree holds that value hash under that
    key, unless the hashes collide; the depths claimed by the proof do not
    have to be trusted. *)
Theorem jmt_proof_sound `{HashesOk} (j : JellyfishMerkleTree) (t : tree) (k : StateKey) (p : JmtProof) (vh : bytes) :
  represents j t ->
  collision_free (Leaf (pf_key_hash p) vh :: proof_nodes (pf_key_hash p) (pf_siblings p)
    (JmtNode_hash (Leaf (pf_key_hash p) vh)) ++ tnodes t) ->
  pf_root p = jmt_root j -> pf_key_hash p = hash_key k ->
  JmtProof_verify_inclusion p vh = Some true ->
  JellyfishMerkleTree_get j k = Some vh.
Proof.
  intros Hr Hc Hroot Hkey Hv. unfold JmtProof_verify_inclusion in Hv.
  destruct (existsb _ _); [done|]. rewrite proof_hash_fold in Hv. injection Hv as Hv. bool_to_prop.
  rewrite Hroot, (rep_root _ _ Hr) in Hv.
  match type of Hc with collision_free ?G => set (G' := G) in * end.
  assert (Hs : tnodes t ⊆ G') by (intros n Hn; unfold G'; right; apply elem_of_app; auto).
  rewrite (get_represents G' _ _ k Hc Hs Hr). rewrite <- Hkey.
  apply tget_leaf; [apply Hr| |eapply twf_NoDup, Hr].
  apply (tproof_sound G') with (sibs := pf_siblings p); try done; [left|].
  intros n Hn. right. apply elem_of_app; auto.
Qed.

(** ** Witnesses *)

Definition jmt_key1 : StateKey := mkStateKey (replicate 20 1) U256_ZERO.
Definition jmt_key2 : StateKey := mkStateKey (replicate 20 2) U256_ZERO.

#[local] Existing Instance checksum_hashes.
#[local] Existing Instance checksum_hashes_ok.

Definition jmt_sample_ops : list (StateKey * U256) := [(jmt_key1, U256_ONE); (jmt_key2, U256_from_u64 7)].
Definition jmt_sample : JellyfishMerkleTree := jmt_puts JellyfishMerkleTree_new jmt_sample_ops.
Definition tree_sample : tree := tree_puts TE jmt_sample_ops.

Lemma jmt_sample_free : collision_free (trace_nodes TE jmt_sample_ops).
Proof. apply collision_free_by_check. vm_compute. reflexivity. Qed.

Lemma jmt_sample_represents : represents jmt_sample tree_sample.
Proof. apply (puts_represents _ _ _ _ jmt_sample_free); [done|apply represents_new]. Qed.

Lemma jmt_put_refines_witness :
  JellyfishMerkleTree_get (JellyfishMerkleTree_put jmt_sample jmt_key1 (U256_from_u64 9)).1 jmt_key2 =
    Some (value_hash (U256_from_u64 7)).
Proof.
  pose proof (jmt_put_refines jmt_sample tree_sample jmt_key1 (U256_from_u64 9) jmt_sample_represents
    ltac:(apply collision_free_by_check; vm_compute; reflexivity)) as Hp.
  destruct (JellyfishMerkleTree_put _ _ _) as [j' root]. destruct Hp as (_ & _ & _ & Hg). cbn [fst].
  rewrite Hg. vm_compute. reflexivity.
Defined.

Lemma jmt_history_independent_witness :
  jmt_root (jmt_puts JellyfishMerkleTree_new jmt_sample_ops) =
  jmt_root (jmt_puts JellyfishMerkleTree_new
    [(jmt_key2, U256_ONE); (jmt_key1, U256_ONE); (jmt_key2, U256_from_u64 7)]).
Proof.
  apply jmt_history_independent.
  - apply collision_free_by_check. vm_compute. reflexivity.
  - vm_compute. reflexivity.
Defined.

Lemma jmt_proof_complete_witness :
  JmtProof_verify_inclusion (JellyfishMerkleTree_get_proof jmt_sample jmt_key2) (value_hash (U256_from_u64 7)) = Some true.
Proof.
  apply (jmt_proof_complete jmt_sample tree_sample).
  - apply jmt_sample_represents.
  - apply collision_free_by_check. vm_compute. reflexivity.
  - vm_compute. reflexivity.
Defined.

Lemma jmt_proof_sound_witness :
  JellyfishMerkleTree_get jmt_sample jmt_key2 = Some (value_hash (U256_from_u64 7)).
Proof.
  apply (jmt_proof_sound jmt_sample tree_sample jmt_key2 (JellyfishMerkleTree_get_proof jmt_sample jmt_key2)).
  - apply jmt_sample_represents.
  - apply collision_free_by_check. vm_compute. reflexivity.
  - vm_compute. reflexivity.
  - vm_compute. reflexivity.
  - vm_compute. reflexivity.
Defined.
