(* ===== verification/Mvcc.v ===== *)
(** * The multi-version store: [src/execution/mvcc.rs]

    Version chains per state key above a base state, with the authenticated
    tree that [finalize] feeds.  The concurrent maps of the source are finite
    maps; the iteration order of [finalize] over its hash map is an explicit
    argument. *)

From S2P Require Import Prelude Types State Jmt.

Record MultiVersionState := mkMvs {
  data : gmap StateKey VersionChain;
  base_state : gmap StateKey U256;
  jmt : JellyfishMerkleTree
}.

Definition MultiVersionState_new : MultiVersionState := mkMvs ∅ ∅ JellyfishMerkleTree_new.
Definition MultiVersionState_default : MultiVersionState := MultiVersionState_new.

Definition MultiVersionState_with_base_state (base : list (StateKey * U256)) : MultiVersionState :=
  mkMvs ∅ (fold_left (fun m '(key, value) => <[key := value]> m) base ∅) JellyfishMerkleTree_new.

Definition MultiVersionState_read (st : MultiVersionState) (key : StateKey) (reader_seq : Z)
    : option U256 * Z :=
  match data st !! key ≫= fun chain => VersionChain_read_for chain reader_seq with
  | Some (value, version) => (value, version)
  | None => (base_state st !! key, 0)
  end.

Definition MultiVersionState_read_tracked (st : MultiVersionState) (key : StateKey) (reader_seq : Z)
    (read_set : ReadSet) : option U256 * ReadSet :=
  let (value, version) := MultiVersionState_read st key reader_seq in
  (value, ReadSet_record read_set key value version).

Definition MultiVersionState_write (st : MultiVersionState) (key : StateKey) (writer_seq : Z)
    (value : option U256) : MultiVersionState :=
  let version := mkVersion writer_seq value Pending in
  let chain := default VersionChain_new (data st !! key) in
  mkMvs (<[key := VersionChain_add_version chain version]> (data st)) (base_state st) (jmt st).

Definition MultiVersionState_write_tracked (st : MultiVersionState) (key : StateKey) (writer_seq : Z)
    (value : option U256) (write_set : WriteSet) : MultiVersionState * WriteSet :=
  (MultiVersionState_write st key writer_seq value, WriteSet_record write_set key value).

(** [get_mut(key)] followed by a status change of the chain. *)
Definition update_chain (f : VersionChain -> VersionChain) (st : MultiVersionState) (key : StateKey)
    : MultiVersionState :=
  mkMvs (alter f key (data st)) (base_state st) (jmt st).

Definition MultiVersionState_mark_committed (st : MultiVersionState) (key : StateKey) (tx_seq : Z)
    : MultiVersionState :=
  update_chain (fun chain => VersionChain_mark_committed chain tx_seq) st key.

Definition MultiVersionState_mark_aborted (st : MultiVersionState) (key : StateKey) (tx_seq : Z)
    : MultiVersionState :=
  update_chain (fun chain => VersionChain_mark_aborted chain tx_seq) st key.

(** The keys of a write set are distinct, so the order of the loop does not
    matter. *)
Definition MultiVersionState_commit_write_set (st : MultiVersionState) (tx_seq : Z)
    (write_set : WriteSet) : MultiVersionState :=
  fold_left (fun st key => MultiVersionState_mark_committed st key tx_seq) (WriteSet_keys write_set) st.

Definition MultiVersionState_abort_write_set (st : MultiVersionState) (tx_seq : Z)
    (write_set : WriteSet) : MultiVersionState :=
  fold_left (fun st key => MultiVersionState_mark_aborted st key tx_seq) (WriteSet_keys write_set) st.

(** One iteration of the loop of [finalize], on the base state and the tree. *)
Definition finalize_entry `{Hashes} (acc : gmap StateKey U256 * JellyfishMerkleTree)
    (entry : StateKey * VersionChain) : gmap StateKey U256 * JellyfishMerkleTree :=
  let '(base, tree) := acc in
  let '(key, chain) := entry in
  match VersionChain_read_for chain u64_max with
  | Some (Some v, _) => (<[key := v]> base, (JellyfishMerkleTree_put tree key v).1)
  | Some (None, _) => (delete key base, tree)
  | None => (base, tree)
  end.

(** [finalize], when the hash map yields its entries in the given order. *)
Definition finalize_in `{Hashes} (order : list (StateKey * VersionChain)) (st : MultiVersionState)
    : MultiVersionState :=
  let '(base, tree) := fold_left finalize_entry order (base_state st, jmt st) in
  mkMvs ∅ base tree.

Definition MultiVersionState_finalize `{Hashes} (st : MultiVersionState) : MultiVersionState :=
  finalize_in (map_to_list (data st)) st.

Definition MultiVersionState_get_base (st : MultiVersionState) (key : StateKey) : option U256 :=
  base_state st !! key.

Definition MultiVersionState_mvcc_key_count (st : MultiVersionState) : nat := size (data st).
Definition MultiVersionState_base_key_count (st : MultiVersionState) : nat := size (base_state st).

(** ** Invariant and views *)

Definition chain_of (st : MultiVersionState) (key : StateKey) : VersionChain :=
  default VersionChain_new (data st !! key).

(** Every chain is newest first. *)
Definition mv_sorted (st : MultiVersionState) : Prop := forall key, chain_sorted (chain_of st key).

(** No version of the store is aborted. *)
Definition mv_live (st : MultiVersionState) : Prop :=
  forall key, Forall (fun v => sv_status v <> Aborted) (versions (chain_of st key)).

(** Every version is older than [s]. *)
Definition mv_below (s : Z) (st : MultiVersionState) : Prop :=
  forall key, Forall (fun v => sv_tx_sequence v < s) (versions (chain_of st key)).

(** The value a transaction of sequence [s] finds under a key. *)
Definition view (st : MultiVersionState) (s : Z) (key : StateKey) : option U256 :=
  (MultiVersionState_read st key s).1.

(** ** Lemmas *)

Lemma read_chain st key r :
  MultiVersionState_read st key r =
    match VersionChain_read_for (chain_of st key) r with
    | Some p => p
    | None => (base_state st !! key, 0)
    end.
Proof.
  unfold MultiVersionState_read, chain_of. destruct (data st !! key) as [c|]; simpl; [|done].
  by destruct (VersionChain_read_for c r) as [[? ?]|].
Qed.

Lemma chain_of_write st key s value key' :
  chain_of (MultiVersionState_write st key s value) key' =
    if bool_decide (key = key') then VersionChain_add_version (chain_of st key) (mkVersion s value Pending)
    else chain_of st key'.
Proof.
  unfold chain_of, MultiVersionState_write. simpl. case_bool_decide as E.
  - subst. by rewrite lookup_insert_eq.
  - by rewrite lookup_insert_ne.
Qed.

Lemma chain_of_update f st key key' :
  f VersionChain_new = VersionChain_new ->
  chain_of (update_chain f st key) key' = if bool_decide (key = key') then f (chain_of st key) else chain_of st key'.
Proof.
  intros Hf. unfold chain_of, update_chain. simpl. case_bool_decide as E.
  - subst. rewrite lookup_alter_eq. by destruct (data st !! key').
  - by rewrite lookup_alter_ne.
Qed.

Lemma write_sorted st key s value : mv_sorted st -> mv_sorted (MultiVersionState_write st key s value).
Proof. intros Hs key'. rewrite chain_of_write. case_bool_decide; [by apply chain_sorted_add|done]. Qed.

Lemma write_live st key s value : mv_sorted st -> mv_live st -> mv_live (MultiVersionState_write st key s value).
Proof.
  intros Hs Hl key'. rewrite chain_of_write. case_bool_decide; [|done].
  rewrite add_version_perm by done. by constructor.
Qed.

Lemma write_below st key s value b :
  mv_sorted st -> s < b -> mv_below b st -> mv_below b (MultiVersionState_write st key s value).
Proof.
  intros Hs Hlt Hb key'. rewrite chain_of_write. case_bool_decide; [|done].
  rewrite add_version_perm by done. by constructor.
Qed.

Lemma mv_below_mono a b st : a <= b -> mv_below a st -> mv_below b st.
Proof. intros Hab Hb key. eapply Forall_impl; [apply Hb|]. simpl. lia. Qed.

(** A write at [s] is invisible up to [s]: a transaction does not read its own
    writes. *)
Lemma read_write_older st key s value key' r :
  mv_sorted st -> r <= s ->
  MultiVersionState_read (MultiVersionState_write st key s value) key' r = MultiVersionState_read st key' r.
Proof.
  intros Hs Hr. rewrite !read_chain, chain_of_write. case_bool_decide as E; [|done]. subst key'.
  destruct (add_version_split (chain_of st key) (mkVersion s value Pending) (Hs key)) as (l1 & l2 & E1 & E2 & _).
  unfold VersionChain_read_for. rewrite E2, E1, !read_versions_filter, !filter_app, filter_cons_False; [done|].
  intros [Hlt _]. simpl in Hlt. lia.
Qed.

(** Reading above a version that became the head of its chain. *)
Lemma read_head st key r v l :
  versions (chain_of st key) = v :: l -> sv_tx_sequence v < r -> sv_status v <> Aborted ->
  MultiVersionState_read st key r = (sv_value v, sv_tx_sequence v).
Proof.
  intros E Hlt Hst. rewrite read_chain. unfold VersionChain_read_for. rewrite E. simpl.
  rewrite (proj2 (Z.ltb_lt _ _) Hlt). by destruct (sv_status v).
Qed.

(** The version a read reports is at least that of every visible one. *)
Lemma read_version_max st key r v :
  mv_sorted st -> v ∈ versions (chain_of st key) -> visible r v ->
  sv_tx_sequence v <= (MultiVersionState_read st key r).2.
Proof.
  intros Hs Hv Hvis. rewrite read_chain.
  destruct (VersionChain_read_for (chain_of st key) r) as [[value s]|] eqn:E.
  - by eapply read_for_max.
  - by eapply read_for_None in E; [|exact Hv].
Qed.

Lemma mark_first_below st q b l :
  Forall (fun v => sv_tx_sequence v < b) l -> Forall (fun v => sv_tx_sequence v < b) (mark_first st q l).
Proof.
  induction 1 as [|v l Hv Hl IH]; simpl; [constructor|].
  destruct (sv_tx_sequence v =? q); by constructor.
Qed.

(** Committing only changes statuses from live to live. *)
Lemma commit_keys_spec st q keys :
  mv_live st ->
  let st' := fold_left (fun st key => MultiVersionState_mark_committed st key q) keys st in
  mv_live st' /\ (mv_sorted st -> mv_sorted st') /\ (forall b, mv_below b st -> mv_below b st') /\
  base_state st' = base_state st /\ jmt st' = jmt st /\ dom (data st') = dom (data st) /\
  (forall key r, MultiVersionState_read st' key r = MultiVersionState_read st key r).
Proof.
  revert st. induction keys as [|k keys IH]; intros st Hl; [done|]. simpl.
  assert (Hchain : forall key, chain_of (MultiVersionState_mark_committed st k q) key =
    if bool_decide (k = key) then VersionChain_mark_committed (chain_of st k) q else chain_of st key).
  { intros key. by apply chain_of_update. }
  assert (Hl' : mv_live (MultiVersionState_mark_committed st k q)).
  { intros key. rewrite Hchain. case_bool_decide; [|done]. by apply mark_committed_not_aborted. }
  destruct (IH _ Hl') as (H1 & H2 & H3 & H4 & H5 & H6 & H7). split; [done|]. split; [|split].
  - intros Hs. apply H2. intros key. rewrite Hchain. case_bool_decide; [by apply chain_sorted_mark|done].
  - intros b Hb. apply H3. intros key. rewrite Hchain. case_bool_decide; [|done].
    apply mark_first_below, Hb.
  - split; [done|]. split; [done|]. split.
    + rewrite H6. unfold MultiVersionState_mark_committed, update_chain. simpl. by rewrite dom_alter_L.
    + intros key r. rewrite H7, !read_chain, Hchain. case_bool_decide as E; [|done]. subst key.
      unfold VersionChain_read_for, VersionChain_mark_committed. simpl.
      by rewrite mark_committed_reads by apply Hl.
Qed.

(** ** Finalisation *)

Section finalize.
Context `{HashesOk}.

(** The tree updates of [finalize], in order. *)
Definition finalize_puts (order : list (StateKey * VersionChain)) : list (StateKey * U256) :=
  omap (fun '(key, chain) =>
    match VersionChain_read_for chain u64_max with
    | Some (Some v, _) => Some (key, v)
    | _ => None
    end) order.

Lemma finalize_fold_jmt order base tree :
  (fold_left finalize_entry order (base, tree)).2 = jmt_puts tree (finalize_puts order).
Proof.
  revert base tree. induction order as [|[k c] order IH]; intros base tree; [done|].
  cbn [fold_left finalize_entry finalize_puts omap list_omap].
  destruct (VersionChain_read_for c u64_max) as [[[v|] s]|]; apply IH.
Qed.

Lemma finalize_fold_base order base tree k :
  NoDup order.*1 ->
  (fold_left finalize_entry order (base, tree)).1 !! k =
    match (list_to_map order : gmap StateKey VersionChain) !! k ≫= fun c => VersionChain_read_for c u64_max with
    | Some (value, _) => value
    | None => base !! k
    end.
Proof.
  revert base tree. induction order as [|[k0 c] order IH]; intros base tree Hnd; [done|].
  rewrite fmap_cons in Hnd. apply NoDup_cons in Hnd as [Hni Hnd].
  cbn [fold_left list_to_map foldr]. destruct (decide (k = k0)) as [->|Hne].
  - simpl. rewrite lookup_insert_eq. simpl.
    assert (Hnone : forall m : gmap StateKey U256, match (list_to_map order : gmap StateKey VersionChain) !! k0 ≫= (fun c => VersionChain_read_for c u64_max) with
      | Some (value, _) => value | None => m !! k0 end = m !! k0)
      by (intros m; by rewrite not_elem_of_list_to_map_1).
    destruct (VersionChain_read_for c u64_max) as [[[v|] s]|]; rewrite (IH _ _ Hnd), Hnone.
    + by rewrite lookup_insert_eq.
    + by rewrite lookup_delete_eq.
    + done.
  - simpl. rewrite lookup_insert_ne by done.
    destruct (VersionChain_read_for c u64_max) as [[[v|] s]|]; rewrite (IH _ _ Hnd); [| |done].
    + by rewrite lookup_insert_ne.
    + by rewrite lookup_delete_ne.
Qed.

Lemma finalize_in_base order st k :
  order ≡ₚ map_to_list (data st) -> base_state (finalize_in order st) !! k = view st u64_max k.
Proof.
  intros Hp. assert (Hnd : NoDup order.*1) by (rewrite Hp; apply NoDup_fst_map_to_list).
  unfold finalize_in. destruct (fold_left finalize_entry order (base_state st, jmt st)) as [base tree] eqn:E.
  simpl. pose proof (finalize_fold_base order (base_state st) (jmt st) k Hnd) as Hb. rewrite E in Hb. simpl in Hb.
  rewrite Hb, (list_to_map_proper _ _ Hnd Hp), list_to_map_to_list.
  unfold view, MultiVersionState_read. by destruct (data st !! k ≫= _) as [[? ?]|].
Qed.

Lemma finalize_in_jmt order st :
  data (finalize_in order st) = ∅ /\ jmt (finalize_in order st) = jmt_puts (jmt st) (finalize_puts order).
Proof.
  unfold finalize_in. pose proof (finalize_fold_jmt order (base_state st) (jmt st)) as E.
  destruct (fold_left finalize_entry order (base_state st, jmt st)) as [base tree]. simpl in E. by subst.
Qed.

(** What distinct puts leave behind does not depend on their order. *)
Lemma contents_perm m ops1 ops2 :
  NoDup (map (fun op => hash_key op.1) ops1) -> ops1 ≡ₚ ops2 -> contents m ops1 = contents m ops2.
Proof.
  intros Hnd Hp. revert m Hnd. induction Hp as [|op ops1 ops2 Hp IH|a b ops|ops1 ops2 ops3 H12 IH1 H23 IH2]; intros m Hnd.
  - done.
  - simpl in Hnd. apply NoDup_cons in Hnd as [_ Hnd]. unfold contents in *. simpl. by apply IH.
  - unfold contents. simpl. f_equal. unfold put_content. simpl in Hnd.
    apply NoDup_cons in Hnd as [Hni _]. apply insert_insert_ne. intros E. apply Hni. rewrite E. left.
  - rewrite IH1 by done. apply IH2. by rewrite <- H12.
Qed.

Lemma finalize_puts_perm o1 o2 : o1 ≡ₚ o2 -> finalize_puts o1 ≡ₚ finalize_puts o2.
Proof. intros Hp. unfold finalize_puts. by rewrite Hp. Qed.
End finalize.

(** ** Properties *)

(** Reads and writes.  After a write at sequence [s], on a chain that holds
    nothing newer and at most one earlier write of the same transaction, every
    reader above [s] gets the written value with version [s]; readers at or
    below [s] (the writer itself included) and other keys are unaffected. *)
Theorem mvcc_write_read (st : MultiVersionState) (key : StateKey) (s : Z) (value : option U256) (key' : StateKey) (r : Z) :
  mv_sorted st ->
  Forall (fun v => sv_tx_sequence v <= s) (versions (chain_of st key)) ->
  (length (filter (fun v => sv_tx_sequence v = s) (versions (chain_of st key))) <= 1)%nat ->
  MultiVersionState_read (MultiVersionState_write st key s value) key' r =
    if bool_decide (key = key') && (s <? r) then (value, s) else MultiVersionState_read st key' r.
Proof.
  intros Hs Hle Hc. destruct (s <? r) eqn:E; bool_to_prop.
  2: { rewrite andb_false_r. by apply read_write_older. }
  rewrite andb_true_r. case_bool_decide as Ek.
  - subst key'. eapply (read_head _ _ _ (mkVersion s value Pending)); [|done..].
    rewrite chain_of_write, bool_decide_eq_true_2 by done. by apply add_version_newest.
  - rewrite !read_chain, chain_of_write, bool_decide_eq_false_2 by done. done.
Qed.

(** C16: finalisation.  In whatever order the hash map is iterated, [finalize]
    leaves no versions, and the base state holds for every key the value a
    reader above all transactions saw before; the tree's root does not depend
    on the order either, as long as no two hashes involved collide. *)
Theorem finalize_spec `{HashesOk} (st : MultiVersionState) (t : tree) (o1 o2 : list (StateKey * VersionChain)) :
  o1 ≡ₚ map_to_list (data st) -> o2 ≡ₚ map_to_list (data st) ->
  represents (jmt st) t ->
  collision_free (trace_nodes t (finalize_puts o1) ++ trace_nodes t (finalize_puts o2)) ->
  NoDup (map (fun op => hash_key op.1) (finalize_puts o1)) ->
  data (finalize_in o1 st) = ∅ /\
  (forall key, base_state (finalize_in o1 st) !! key = view st u64_max key) /\
  base_state (finalize_in o1 st) = base_state (finalize_in o2 st) /\
  jmt_root (jmt (finalize_in o1 st)) = jmt_root (jmt (finalize_in o2 st)).
Proof.
  intros H1 H2 Hr Hc Hnd. split; [apply finalize_in_jmt|]. split; [intros; by apply finalize_in_base|].
  split; [apply map_eq; intros k; by rewrite !finalize_in_base|].
  rewrite !(proj2 (finalize_in_jmt _ st)).
  eapply puts_same_root; [exact Hc|..|exact Hr|].
  - intros n. rewrite elem_of_app. auto.
  - intros n. rewrite elem_of_app. auto.
  - intros x m _ _. f_equal. apply contents_perm; [done|]. apply finalize_puts_perm. by rewrite H1.
Qed.

(** ** Witnesses *)

Definition mvcc_sample : MultiVersionState :=
  MultiVersionState_write (MultiVersionState_write
    (MultiVersionState_with_base_state [(jmt_key1, U256_from_u64 100)]) jmt_key1 3 (Some (U256_from_u64 70)))
    jmt_key2 4 (Some (U256_from_u64 30)).

Lemma mv_sorted_nil base t : mv_sorted (mkMvs ∅ base t).
Proof. intros k. constructor. Qed.

Lemma mvcc_sample_sorted : mv_sorted mvcc_sample.
Proof. do 2 apply write_sorted. apply mv_sorted_nil. Qed.

Lemma mvcc_write_read_witness :
  MultiVersionState_read (MultiVersionState_write mvcc_sample jmt_key1 5 (Some U256_ONE)) jmt_key1 6 = (Some U256_ONE, 5) /\
  MultiVersionState_read (MultiVersionState_write mvcc_sample jmt_key1 5 (Some U256_ONE)) jmt_key1 5 =
    (Some (U256_from_u64 70), 3).
Proof.
  split; rewrite (mvcc_write_read mvcc_sample jmt_key1 5 (Some U256_ONE)); try apply mvcc_sample_sorted;
    try (repeat constructor; vm_compute; discriminate); try (vm_compute; lia); vm_compute; reflexivity.
Defined.

#[local] Existing Instance checksum_hashes.
#[local] Existing Instance checksum_hashes_ok.

Lemma finalize_spec_witness :
  jmt_root (jmt (finalize_in (map_to_list (data mvcc_sample)) mvcc_sample)) =
  jmt_root (jmt (finalize_in (rev (map_to_list (data mvcc_sample))) mvcc_sample)) /\
  base_state (MultiVersionState_finalize mvcc_sample) !! jmt_key1 = Some (U256_from_u64 70).
Proof.
  split; [|vm_compute; reflexivity].
  apply (finalize_spec mvcc_sample TE).
  - done.
  - symmetry. apply Permutation_rev.
  - apply represents_new.
  - apply collision_free_by_check. vm_compute. reflexivity.
  - apply (bool_decide_eq_true_1 _). vm_compute. reflexivity.
Defined.
