(* ===== verification/Conflict.v ===== *)
(** * Conflict detection: [src/execution/conflict.rs] *)

From S2P Require Import Prelude Types State.

Record ConflictDetector := mkDetector { committed_writes : gmap StateKey Z }.

Definition ConflictDetector_new : ConflictDetector := mkDetector ∅.

(** The loop returns [true] at the first conflicting entry, so the order in
    which the read set is iterated does not matter. *)
Definition ConflictDetector_has_conflict (d : ConflictDetector) (tx_seq : Z) (read_set : ReadSet) : bool :=
  existsb (fun entry : StateKey * (option U256 * Z) =>
    let '(key, (_, read_version)) := entry in
    match committed_writes d !! key with
    | Some write_seq => (read_version <? write_seq) && (write_seq <? tx_seq)
    | None => false
    end) (map_to_list (reads read_set)).

Definition ConflictDetector_record_commit (d : ConflictDetector) (tx_seq : Z) (write_set : WriteSet)
    : ConflictDetector :=
  mkDetector (fold_left (fun m key => <[key := tx_seq]> m) (WriteSet_keys write_set) (committed_writes d)).

Definition ConflictDetector_committed_keys (d : ConflictDetector) : list StateKey :=
  elements (dom (committed_writes d)).

Definition ConflictDetector_reset (d : ConflictDetector) : ConflictDetector := mkDetector ∅.

Record ValidationResult := mkValidation {
  vr_committed : list Z;
  vr_aborted : list Z
}.

(** One step of the validation loop. *)
Definition validate_step (acc : ConflictDetector * ValidationResult) (result : ExecutionResult)
    : ConflictDetector * ValidationResult :=
  let '(detector, v) := acc in
  if ConflictDetector_has_conflict detector (er_tx_seq result) (er_read_set result) then
    (detector, mkValidation (vr_committed v) (vr_aborted v ++ [er_tx_seq result]))
  else
    (ConflictDetector_record_commit detector (er_tx_seq result) (er_write_set result),
     mkValidation (vr_committed v ++ [er_tx_seq result]) (vr_aborted v)).

(** [sort_by_key(|r| r.tx_seq)]. *)
Definition sort_results (results : list ExecutionResult) : list ExecutionResult :=
  stable_sort (fun a b => er_tx_seq a <=? er_tx_seq b) results.

Definition validate_batch (results : list ExecutionResult) : ValidationResult :=
  (fold_left validate_step (sort_results results) (ConflictDetector_new, mkValidation [] [])).2.

(** ** Specification

    [stale s t]: [t] read some key at a version older than the write of the
    earlier transaction [s] to it. *)

Definition stale (s t : ExecutionResult) : Prop :=
  er_tx_seq s < er_tx_seq t /\
  exists key value ver, reads (er_read_set t) !! key = Some (value, ver) /\
    key ∈ dom (writes (er_write_set s)) /\ ver < er_tx_seq s.

(** ** Lemmas *)

Lemma elem_of_WriteSet_keys w key : key ∈ WriteSet_keys w <-> key ∈ dom (writes w).
Proof. unfold WriteSet_keys. by rewrite elem_of_elements. Qed.

Lemma has_conflict_true d t rs :
  ConflictDetector_has_conflict d t rs = true <->
  exists key value ver w, reads rs !! key = Some (value, ver) /\ committed_writes d !! key = Some w /\
    ver < w < t.
Proof.
  unfold ConflictDetector_has_conflict. rewrite existsb_exists. split.
  - intros ([key [value ver]] & Hin & Hc). apply list_elem_of_In, elem_of_map_to_list in Hin.
    destruct (committed_writes d !! key) as [w|] eqn:Ew; [|done]. bool_to_prop. eauto 10.
  - intros (key & value & ver & w & Hr & Hw & Hlt). exists (key, (value, ver)). split.
    + by apply list_elem_of_In, elem_of_map_to_list.
    + rewrite Hw. apply andb_true_iff. rewrite !Z.ltb_lt. lia.
Qed.

Lemma record_commit_lookup d t ws key :
  committed_writes (ConflictDetector_record_commit d t ws) !! key =
    if decide (key ∈ dom (writes ws)) then Some t else committed_writes d !! key.
Proof.
  unfold ConflictDetector_record_commit. simpl.
  assert (Hf : forall keys m, fold_left (fun (m : gmap StateKey Z) key => <[key := t]> m) keys m !! key =
    if decide (key ∈ keys) then Some t else m !! key).
  { induction keys as [|k keys IH]; intros m; simpl; [done|]. rewrite IH.
    destruct (decide (key ∈ keys)) as [Hin|Hni].
    - rewrite decide_True; [done|by right].
    - destruct (decide (k = key)) as [->|Hne].
      + rewrite lookup_insert_eq, decide_True; [done|left].
      + rewrite lookup_insert_ne, decide_False by (rewrite ?elem_of_cons; naive_solver). done. }
  rewrite Hf. apply decide_ext, elem_of_WriteSet_keys.
Qed.

(** The detector after committing the transactions [cs], in ascending order:
    for each key the newest writer among them. *)
Definition detects (d : ConflictDetector) (cs : list ExecutionResult) : Prop :=
  forall key,
    match committed_writes d !! key with
    | Some w => (exists s, s ∈ cs /\ er_tx_seq s = w /\ key ∈ dom (writes (er_write_set s))) /\
        forall s, s ∈ cs -> key ∈ dom (writes (er_write_set s)) -> er_tx_seq s <= w
    | None => forall s, s ∈ cs -> key ∉ dom (writes (er_write_set s))
    end.

Lemma detects_new : detects ConflictDetector_new [].
Proof. intros key. simpl. rewrite lookup_empty. intros s Hs. by apply not_elem_of_nil in Hs. Qed.

Lemma detects_commit d cs r :
  detects d cs -> Forall (fun s => er_tx_seq s < er_tx_seq r) cs ->
  detects (ConflictDetector_record_commit d (er_tx_seq r) (er_write_set r)) (cs ++ [r]).
Proof.
  intros Hd Hlt key. rewrite record_commit_lookup. rewrite Forall_forall in Hlt.
  destruct (decide _) as [Hin|Hni].
  - split; [exists r; repeat split; auto; apply elem_of_app; right; left|].
    intros s Hs _. apply elem_of_app in Hs as [Hs|Hs]; [specialize (Hlt s Hs); lia|].
    apply list_elem_of_singleton in Hs as ->. lia.
  - specialize (Hd key). destruct (committed_writes d !! key) as [w|].
    + destruct Hd as [(s & Hs & Ew & Hk) Hmax]. split; [exists s; rewrite elem_of_app; auto|].
      intros s' Hs' Hk'. apply elem_of_app in Hs' as [Hs'|Hs']; [auto|].
      apply list_elem_of_singleton in Hs' as ->. done.
    + intros s Hs. apply elem_of_app in Hs as [Hs|Hs]; [auto|]. by apply list_elem_of_singleton in Hs as ->.
Qed.

Lemma detects_conflict d cs t :
  detects d cs -> Forall (fun s => er_tx_seq s < er_tx_seq t) cs ->
  ConflictDetector_has_conflict d (er_tx_seq t) (er_read_set t) = true <-> exists s, s ∈ cs /\ stale s t.
Proof.
  intros Hd Hlt. rewrite Forall_forall in Hlt. rewrite has_conflict_true. split.
  - intros (key & value & ver & w & Hr & Hw & Hver). specialize (Hd key). rewrite Hw in Hd.
    destruct Hd as [(s & Hs & <- & Hk) _]. exists s. split; [done|]. split; [lia|].
    exists key, value, ver. repeat split; [done..|lia].
  - intros (s & Hs & Hst & key & value & ver & Hr & Hk & Hver). specialize (Hd key).
    destruct (committed_writes d !! key) as [w|] eqn:Ew; [|by apply Hd in Hs].
    destruct Hd as [(s' & Hs' & <- & _) Hmax]. exists key, value, ver, (er_tx_seq s').
    specialize (Hmax s Hs Hk). specialize (Hlt s' Hs'). split; [done|]. split; [done|lia].
Qed.

(** ** The validation loop *)

Definition seq_lt (a b : ExecutionResult) : Prop := er_tx_seq a < er_tx_seq b.

(** What the loop has established after the results [done]: [cs] were
    committed and [ab] aborted. *)
Record validated (rs : list ExecutionResult) (cs ab : list ExecutionResult) : Prop := {
  val_perm : rs ≡ₚ cs ++ ab;
  val_committed : forall s t, s ∈ cs -> t ∈ cs -> ~ stale s t;
  val_aborted : forall t, t ∈ ab -> exists s, s ∈ cs /\ stale s t;
  val_sorted : StronglySorted seq_lt cs
}.

Lemma validate_fold todo rs cs ab d :
  StronglySorted seq_lt (rs ++ todo) -> validated rs cs ab -> detects d cs ->
  exists cs' ab' d',
    fold_left validate_step todo (d, mkValidation (map er_tx_seq cs) (map er_tx_seq ab)) =
      (d', mkValidation (map er_tx_seq cs') (map er_tx_seq ab')) /\
    validated (rs ++ todo) cs' ab'.
Proof.
  revert rs cs ab d. induction todo as [|t todo IH]; intros rs cs ab d Hs Hv Hd.
  { exists cs, ab, d. by rewrite app_nil_r. }
  assert (Hs0 := Hs). rewrite cons_middle, app_assoc in Hs.
  assert (Hrs : Forall (fun s => er_tx_seq s < er_tx_seq t) rs).
  { apply Forall_forall. intros s Hsin. clear -Hs0 Hsin. induction rs as [|r rs IH]; [by apply not_elem_of_nil in Hsin|].
    inversion_clear Hs0 as [|? ? Hs1 Hr]. apply elem_of_cons in Hsin as [->|Hsin]; [|auto].
    rewrite Forall_forall in Hr. apply Hr, elem_of_app. right. left. }
  assert (Hcs : Forall (fun s => er_tx_seq s < er_tx_seq t) cs).
  { destruct Hv as [Hp _ _ _]. rewrite Hp in Hrs. by apply Forall_app in Hrs as [? _]. }
  pose proof (detects_conflict d cs t Hd Hcs) as Hconf. destruct Hv as [Hp Hc Ha Hsc].
  cbn [fold_left validate_step]. destruct (ConflictDetector_has_conflict _ _ _).
  - destruct (IH (rs ++ [t]) cs (ab ++ [t]) d Hs) as (cs' & ab' & d' & E & V'); [|done|].
    + split; [by rewrite Hp, app_assoc|done| |done]. intros u Hu.
      apply elem_of_app in Hu as [Hu|Hu]; [auto|]. apply list_elem_of_singleton in Hu as ->. by apply Hconf.
    + exists cs', ab', d'. rewrite map_app in E. rewrite <- app_assoc in V'. done.
  - destruct (IH (rs ++ [t]) (cs ++ [t]) ab (ConflictDetector_record_commit d (er_tx_seq t) (er_write_set t)) Hs)
      as (cs' & ab' & d' & E & V'); [|by apply detects_commit|].
    + rewrite Forall_forall in Hcs. split; [by rewrite Hp; solve_Permutation| |intros u Hu; destruct (Ha u Hu) as (s & ? & ?); exists s; rewrite elem_of_app; auto|].
      * intros s u Hsin Hu Hst. apply elem_of_app in Hsin as [Hsin|Hsin], Hu as [Hu|Hu].
        -- exact (Hc s u Hsin Hu Hst).
        -- apply list_elem_of_singleton in Hu as ->. assert (false = true) by (apply Hconf; eauto). done.
        -- apply list_elem_of_singleton in Hsin as ->. specialize (Hcs u Hu). destruct Hst. lia.
        -- apply list_elem_of_singleton in Hsin as ->, Hu as ->. destruct Hst. lia.
      * apply strongly_sorted_app; [done|repeat constructor|]. intros x y Hx Hy.
        apply list_elem_of_singleton in Hy as ->. by apply Hcs.
    + exists cs', ab', d'. rewrite map_app in E. rewrite <- app_assoc in V'. done.
Qed.

(** ** Sorting by sequence number *)

Lemma sort_results_perm rs : sort_results rs ≡ₚ rs.
Proof. apply stable_sort_perm. Qed.

Lemma sort_results_sorted rs : NoDup (map er_tx_seq rs) -> StronglySorted seq_lt (sort_results rs).
Proof.
  intros Hnd. pose proof (stable_sort_sorted (fun a b => er_tx_seq a <=? er_tx_seq b)) as Hs.
  specialize (Hs ltac:(intros; rewrite !Z.leb_le; lia) ltac:(intros *; rewrite !Z.leb_le; lia) rs).
  rewrite <- (sort_results_perm rs) in Hnd. fold (sort_results rs) in Hs.
  revert Hnd. induction Hs as [|r l Hs IH Hr]; [constructor|]. simpl. intros Hnd.
  apply NoDup_cons in Hnd as [Hni Hnd]. constructor; [auto|]. rewrite Forall_forall in *. intros s Hin.
  specialize (Hr s Hin). apply Z.leb_le in Hr. unfold seq_lt.
  assert (er_tx_seq r <> er_tx_seq s); [|lia].
  intros E. apply Hni. rewrite E. by apply list_elem_of_fmap_2.
Qed.

Lemma seq_lt_sorted_le rs :
  StronglySorted seq_lt rs -> StronglySorted (fun a b => (er_tx_seq a <=? er_tx_seq b) = true) rs.
Proof.
  induction 1 as [|r l Hs IH Hr]; constructor; [done|]. eapply Forall_impl; [exact Hr|].
  intros s Hlt. apply Z.leb_le. unfold seq_lt in Hlt. lia.
Qed.

Lemma sort_results_unique rs1 rs2 :
  StronglySorted seq_lt rs1 -> rs1 ≡ₚ rs2 -> sort_results rs2 = rs1.
Proof.
  intros Hs Hp. assert (Hnd : NoDup (map er_tx_seq rs2)).
  { rewrite <- Hp. clear Hp. induction Hs as [|r l Hs IH Hr]; simpl; constructor; [|done].
    intros Hin. apply list_elem_of_fmap in Hin as (s & E & Hin). rewrite Forall_forall in Hr.
    specialize (Hr s Hin). unfold seq_lt in Hr. lia. }
  symmetry. apply (sorted_perm_unique seq_lt); [|done|by apply sort_results_sorted|by rewrite sort_results_perm].
  unfold seq_lt. intros x y _ _ ? ?. lia.
Qed.

Lemma validate_batch_split rs :
  NoDup (map er_tx_seq rs) ->
  exists cs ab,
    validate_batch rs = mkValidation (map er_tx_seq cs) (map er_tx_seq ab) /\
    validated (sort_results rs) cs ab.
Proof.
  intros Hnd. destruct (validate_fold (sort_results rs) [] [] [] ConflictDetector_new) as (cs & ab & d & E & V).
  - by apply sort_results_sorted.
  - split; [done| | |constructor]; intros *; by intros ?%not_elem_of_nil.
  - apply detects_new.
  - exists cs, ab. unfold validate_batch. simpl in E. by rewrite E.
Qed.

(** Without stale reads everything commits. *)
Lemma validate_batch_all rs rs' :
  StronglySorted seq_lt rs -> rs' ≡ₚ rs -> (forall s t, s ∈ rs -> t ∈ rs -> ~ stale s t) ->
  validate_batch rs' = mkValidation (map er_tx_seq rs) [].
Proof.
  intros Hs Hp Hns. assert (E : sort_results rs' = rs) by by apply sort_results_unique.
  destruct (validate_batch_split rs') as (cs & ab & -> & V).
  { rewrite Hp. clear -Hs. induction Hs as [|r l Hs IH Hr]; simpl; constructor; [|done].
    intros Hin. apply list_elem_of_fmap in Hin as (s & E & Hin). rewrite Forall_forall in Hr.
    specialize (Hr s Hin). unfold seq_lt in Hr. lia. }
  rewrite E in V. destruct V as [Hperm Hc Ha Hsc]. destruct ab as [|t ab].
  - rewrite app_nil_r in Hperm. f_equal. f_equal.
    apply (sorted_perm_unique seq_lt); [|done|done|done]. unfold seq_lt. intros x y _ _ ? ?. lia.
  - exfalso. destruct (Ha t ltac:(left)) as (s & Hsin & Hst). apply (Hns s t); [..|done].
    + rewrite Hperm. apply elem_of_app. auto.
    + rewrite Hperm. apply elem_of_app. right. left.
Qed.

(** ** Properties *)

(** C14: validation decides exactly the stale reads.  For results with distinct
    sequence numbers, in any order, [validate_batch] splits them into
    committed and aborted ones, in ascending order; no committed transaction
    read a key at a version older than an earlier committed write to it, and
    every aborted one did. *)
Theorem validate_batch_spec (results : list ExecutionResult) :
  NoDup (map er_tx_seq results) ->
  exists cs ab,
    validate_batch results = mkValidation (map er_tx_seq cs) (map er_tx_seq ab) /\
    results ≡ₚ cs ++ ab /\ StronglySorted seq_lt cs /\
    (forall s t, s ∈ cs -> t ∈ cs -> ~ stale s t) /\
    (forall t, t ∈ ab -> exists s, s ∈ cs /\ stale s t).
Proof.
  intros Hnd. destruct (validate_batch_split results Hnd) as (cs & ab & E & [Hp Hc Ha Hs]).
  exists cs, ab. rewrite sort_results_perm in Hp. done.
Qed.

(** Writes of the transaction numbered 0 are never seen as conflicts.  A
    transaction that read a key from the base state (reported as version 0)
    passes validation even though transaction 0 wrote that key before it. *)
Theorem conflict_with_zero_missed (t0 t : ExecutionResult) (key : StateKey) (value : option U256) :
  er_tx_seq t0 = 0 -> 0 < er_tx_seq t ->
  reads (er_read_set t0) = ∅ -> reads (er_read_set t) = {[key := (value, 0)]} ->
  key ∈ dom (writes (er_write_set t0)) ->
  validate_batch [t0; t] = mkValidation [0; er_tx_seq t] [].
Proof.
  intros E0 Hlt R0 R Hk. unfold validate_batch, sort_results. cbn [stable_sort foldr sort_insert].
  rewrite E0, (proj2 (Z.leb_le 0 _)) by lia. cbn [fold_left validate_step].
  assert (N0 : ConflictDetector_has_conflict ConflictDetector_new (er_tx_seq t0) (er_read_set t0) = false).
  { apply not_true_is_false. rewrite has_conflict_true, R0. intros (? & ? & ? & ? & Hr & _). by rewrite lookup_empty in Hr. }
  rewrite N0, E0. cbn [validate_step vr_committed vr_aborted app].
  assert (N1 : ConflictDetector_has_conflict (ConflictDetector_record_commit ConflictDetector_new 0 (er_write_set t0))
    (er_tx_seq t) (er_read_set t) = false).
  { apply not_true_is_false. rewrite has_conflict_true, R. intros (k & v & ver & w & Hr & Hw & Hlt').
    apply lookup_singleton_Some in Hr as [<- [= <- <-]]. rewrite record_commit_lookup in Hw.
    rewrite decide_True in Hw by done. injection Hw as <-. lia. }
  by rewrite N1.
Qed.

(** ** Witnesses *)

Definition conflict_key : StateKey := mkStateKey (replicate 20 5) U256_ZERO.

Definition sample_result (seq ver : Z) : ExecutionResult :=
  mkResult seq Success (ReadSet_record ReadSet_new conflict_key None ver)
    (WriteSet_record WriteSet_new conflict_key (Some U256_ONE)) 21000 [] [].

Lemma validate_batch_spec_witness :
  validate_batch [sample_result 3 1; sample_result 1 0; sample_result 2 0] = mkValidation [1; 3] [2] /\
  exists cs ab, mkValidation [1; 3] [2] = mkValidation (map er_tx_seq cs) (map er_tx_seq ab) /\
    forall s t, s ∈ cs -> t ∈ cs -> ~ stale s t.
Proof.
  split; [vm_compute; reflexivity|].
  destruct (validate_batch_spec [sample_result 3 1; sample_result 1 0; sample_result 2 0]) as (cs & ab & E & _ & _ & Hc & _).
  - apply (bool_decide_eq_true_1 _). vm_compute. reflexivity.
  - exists cs, ab. split; [rewrite <- E; vm_compute; reflexivity|exact Hc].
Defined.

Definition blind_writer : ExecutionResult :=
  mkResult 0 Success ReadSet_new (WriteSet_record WriteSet_new conflict_key (Some U256_ONE)) 21000 [] [].

Lemma conflict_with_zero_missed_witness :
  validate_batch [blind_writer; sample_result 4 0] = mkValidation [0; 4] [].
Proof.
  apply (conflict_with_zero_missed blind_writer (sample_result 4 0) conflict_key None); try reflexivity.
Defined.
