(* ===== verification/Vm.v ===== *)
(** * The execution engine: [src/evm/vm.rs]

    [RytherVm::execute] and everything below it, as computations in a monad
    that carries the shared store, the read set and the write set and may end
    in a [VmError]; what was written before an error stays written. *)

From S2P Require Import Prelude Types Transaction State Jmt Mvcc.

Definition SLOT_BALANCE : Z := 0.
Definition SLOT_NONCE : Z := 1.
Definition SLOT_CODE_HASH : Z := 2.

Inductive VmError :=
| InsufficientBalance
| InvalidNonce (expected got : Z)
| OutOfGas
| InvalidOpcode (op : Z)
| StackUnderflow
| StackOverflow
| InvalidJump
| VmRevert (msg : string)
| Internal (msg : string).

(** The [Display] of [VmError]. *)
Definition VmError_display (e : VmError) : string :=
  match e with
  | InsufficientBalance => "Insufficient balance"
  | InvalidNonce expected got =>
      "Invalid nonce: expected " +:+ show_u64 expected +:+ ", got " +:+ show_u64 got
  | OutOfGas => "Out of gas"
  | InvalidOpcode op => "Invalid opcode: " +:+ show_u64 op
  | StackUnderflow => "Stack underflow"
  | StackOverflow => "Stack overflow"
  | InvalidJump => "Invalid jump destination"
  | VmRevert msg => "Revert: " +:+ msg
  | Internal msg => "Internal error: " +:+ msg
  end.

Record VmResult := mkVmResult {
  vm_success : bool;
  vm_gas_used : Z;
  vm_output : bytes;
  vm_logs : list Log;
  vm_error : option string
}.

Record BlockContext := mkBlockContext {
  bc_number : Z;
  bc_timestamp : Z;
  bc_coinbase : Address;
  bc_gas_limit : Z;
  bc_base_fee : U256;
  bc_chain_id : Z
}.

Definition BlockContext_default : BlockContext :=
  mkBlockContext 0 0 Address_zero 30000000 (U256_from_u64 1000000000) 1.

Record RytherVm := mkVm {
  chain_id : Z;
  code_storage : gmap Address (list Z)
}.

Definition RytherVm_new (chain_id : Z) : RytherVm := mkVm chain_id ∅.
Definition RytherVm_default : RytherVm := RytherVm_new 1.

Definition RytherVm_deploy_code (vm : RytherVm) (address : Address) (code : bytes) : RytherVm :=
  mkVm (chain_id vm) (<[address := code]> (code_storage vm)).

Definition RytherVm_get_code (vm : RytherVm) (address : Address) : option bytes :=
  code_storage vm !! address.

(** ** U256 helpers *)

Definition u256_to_u64 (val : U256) : Z := limb0 val.
Definition add_u256 (a b : U256) : U256 := U256_wrapping_add a b.

(** [sub_u256]: only the two lower limbs of [a] and the lowest of [b] take
    part. *)
Definition sub_u256 (a b : U256) : U256 :=
  let '(diff, borrow) := u64_overflowing_sub (limb0 a) (limb0 b) in
  mkU256 diff (if borrow && (0 <? limb1 a) then limb1 a ⊟ 1 else limb1 a) (limb2 a) (limb3 a).

Fixpoint compare_limbs (l : list (Z * Z)) : Z :=
  match l with
  | [] => 0
  | (x, y) :: l => if y <? x then 1 else if x <? y then -1 else compare_limbs l
  end.

Definition compare_u256 (a b : U256) : Z :=
  compare_limbs [(limb3 a, limb3 b); (limb2 a, limb2 b); (limb1 a, limb1 b); (limb0 a, limb0 b)].

Definition calculate_gas_cost (tx : DecryptedTransaction) : U256 :=
  U256_from_u64 (tx_gas_limit tx ⊠ u256_to_u64 (tx_gas_price tx)).

Definition balance_key (address : Address) : StateKey :=
  mkStateKey (address_0 address) (U256_from_u64 SLOT_BALANCE).

Definition nonce_key (address : Address) : StateKey :=
  mkStateKey (address_0 address) (U256_from_u64 SLOT_NONCE).

Definition code_hash_key (address : Address) : StateKey :=
  mkStateKey (address_0 address) (U256_from_u64 SLOT_CODE_HASH).

(** ** The execution monad *)

Record VmState := mkVmState {
  vs_state : MultiVersionState;
  vs_reads : ReadSet;
  vs_writes : WriteSet
}.

Definition VM (A : Type) : Type := VmState -> VmState * (VmError + A).

#[global] Instance VM_ret : MRet VM := fun A a s => (s, inr a).
#[global] Instance VM_bind : MBind VM := fun A B f m s =>
  match m s with
  | (s, inr a) => f a s
  | (s, inl e) => (s, inl e)
  end.
Definition VM_err {A} (e : VmError) : VM A := fun s => (s, inl e).

(** [state.read_tracked(key, seq, read_set)]. *)
Definition vm_read (key : StateKey) (seq : Z) : VM (option U256) := fun s =>
  let '(value, read_set) := MultiVersionState_read_tracked (vs_state s) key seq (vs_reads s) in
  (mkVmState (vs_state s) read_set (vs_writes s), inr value).

(** [state.write_tracked(key, seq, value, write_set)]. *)
Definition vm_write (key : StateKey) (seq : Z) (value : option U256) : VM () := fun s =>
  let '(state, write_set) := MultiVersionState_write_tracked (vs_state s) key seq value (vs_writes s) in
  (mkVmState state (vs_reads s) write_set, inr tt).

(** [state.write(key, seq, value)], which the write set does not see. *)
Definition vm_write_untracked (key : StateKey) (seq : Z) (value : option U256) : VM () := fun s =>
  (mkVmState (MultiVersionState_write (vs_state s) key seq value) (vs_reads s) (vs_writes s), inr tt).

Definition read_balance (addr : Address) (seq : Z) : VM U256 :=
  v ← vm_read (balance_key addr) seq; mret (default U256_ZERO v).

Definition read_nonce (addr : Address) (seq : Z) : VM Z :=
  v ← vm_read (nonce_key addr) seq; mret (default 0 (limb0 <$> v)).

Definition write_balance (addr : Address) (seq : Z) (value : U256) : VM () :=
  vm_write (balance_key addr) seq (Some value).

Definition write_nonce (addr : Address) (seq : Z) (nonce : Z) : VM () :=
  vm_write (nonce_key addr) seq (Some (U256_from_u64 nonce)).

Section vm.
Context `{Hashes}.
Variable vm : RytherVm.

(** [nonce_bytes[leading_zeros..]]. *)
Fixpoint skip_zeros (b : bytes) : bytes :=
  match b with
  | 0 :: b => skip_zeros b
  | _ => b
  end.

Definition rlp_nonce (nonce : Z) : bytes :=
  if nonce =? 0 then [128]
  else if nonce <? 128 then [nonce mod 256]
  else let nonce_bytes := skip_zeros (be_bytes 8 nonce) in
       (128 + Z.of_nat (length nonce_bytes)) mod 256 :: nonce_bytes.

Definition compute_create_address (sender : Address) (nonce : Z) : Address :=
  let data := [214; 148] ++ address_0 sender ++ rlp_nonce nonce in
  mkAddress (drop 12 (take 32 (keccak256 data))).

Definition execute_call (tx : DecryptedTransaction) (to : Address) : VM (bool * Z * bytes * list Log) :=
  (if bool_decide (tx_value tx = U256_ZERO) then mret tt
   else
     to_balance ← read_balance to (tx_sequence_number tx);
     let new_to_balance := add_u256 to_balance (tx_value tx) in
     write_balance to (tx_sequence_number tx) new_to_balance);;
  match code_storage vm !! to with
  | Some (_ :: _) =>
      let gas_used := 21000 ⊞ (Z.of_nat (length (tx_data tx)) ⊠ 16) in
      mret (true, Z.min gas_used (tx_gas_limit tx), [], [])
  | _ => mret (true, 21000, [], [])
  end.

Definition execute_create (tx : DecryptedTransaction) : VM (bool * Z * bytes * list Log) :=
  let contract_address := compute_create_address (tx_from tx) (tx_nonce tx) in
  (if bool_decide (tx_value tx = U256_ZERO) then mret tt
   else write_balance contract_address (tx_sequence_number tx) (tx_value tx));;
  let code_hash := keccak256 (tx_data tx) in
  vm_write_untracked (code_hash_key contract_address) (tx_sequence_number tx)
    (Some (U256_from_be_bytes code_hash));;
  let gas_used := 32000 ⊞ (Z.of_nat (length (tx_data tx)) ⊠ 200) in
  mret (true, Z.min gas_used (tx_gas_limit tx), address_0 contract_address, []).

Definition execute_inner (tx : DecryptedTransaction) (block : BlockContext) : VM VmResult :=
  let seq := tx_sequence_number tx in
  sender_balance ← read_balance (tx_from tx) seq;
  sender_nonce ← read_nonce (tx_from tx) seq;
  if negb (sender_nonce =? tx_nonce tx) then VM_err (InvalidNonce sender_nonce (tx_nonce tx))
  else
    let gas_cost := calculate_gas_cost tx in
    let total_cost := add_u256 (tx_value tx) gas_cost in
    if compare_u256 sender_balance total_cost <? 0 then VM_err InsufficientBalance
    else
      let new_sender_balance := sub_u256 sender_balance total_cost in
      write_balance (tx_from tx) seq new_sender_balance;;
      write_nonce (tx_from tx) seq (sender_nonce ⊞ 1);;
      '(success, gas_used, output, logs) ←
        match tx_to tx with
        | Some to => execute_call tx to
        | None => execute_create tx
        end;
      let gas_refund := (tx_gas_limit tx ⊟ gas_used) ⊠ u256_to_u64 (tx_gas_price tx) in
      let refund_amount := U256_from_u64 gas_refund in
      let final_balance := add_u256 new_sender_balance refund_amount in
      write_balance (tx_from tx) seq final_balance;;
      coinbase_balance ← read_balance (bc_coinbase block) seq;
      let coinbase_fee := U256_from_u64 (gas_used ⊠ u256_to_u64 (tx_gas_price tx)) in
      let new_coinbase_balance := add_u256 coinbase_balance coinbase_fee in
      write_balance (bc_coinbase block) seq new_coinbase_balance;;
      mret (mkVmResult success gas_used output logs None).

Definition RytherVm_execute (tx : DecryptedTransaction) (state : MultiVersionState) (block : BlockContext)
    : MultiVersionState * ExecutionResult :=
  let '(s, result) := execute_inner tx block (mkVmState state ReadSet_new WriteSet_new) in
  match result with
  | inr vm_result =>
      (vs_state s,
       mkResult (tx_sequence_number tx) (if vm_success vm_result then Success else Revert)
         (vs_reads s) (vs_writes s) (vm_gas_used vm_result) (vm_logs vm_result) (vm_output vm_result))
  | inl e =>
      (vs_state s,
       mkResult (tx_sequence_number tx) Failure (vs_reads s) (vs_writes s) (tx_gas_limit tx) []
         (string_bytes (VmError_display e)))
  end.
End vm.

(** ** What a run of the engine may do to the store

    [vm_inv s st0 σ]: since the store was [st0], the running transaction [s]
    has only added pending versions of its own, every key of its write set
    among them, and all it read is what [st0] shows to it. *)

Record vm_inv (s : Z) (st0 : MultiVersionState) (σ : VmState) : Prop := {
  inv_sorted : mv_sorted (vs_state σ);
  inv_chain : forall key, exists new,
    versions (chain_of (vs_state σ) key) ≡ₚ new ++ versions (chain_of st0 key) /\
    Forall (fun v => sv_tx_sequence v = s /\ sv_status v = Pending) new /\
    (key ∈ dom (writes (vs_writes σ)) -> new <> []);
  inv_base : base_state (vs_state σ) = base_state st0;
  inv_jmt : jmt (vs_state σ) = jmt st0;
  inv_reads : forall key p, reads (vs_reads σ) !! key = Some p -> p = MultiVersionState_read st0 key s;
  inv_view : forall key, MultiVersionState_read (vs_state σ) key s = MultiVersionState_read st0 key s
}.

(** A computation that respects the invariant. *)
Definition vm_safe {A} (s : Z) (st0 : MultiVersionState) (m : VM A) : Prop :=
  forall σ, vm_inv s st0 σ -> vm_inv s st0 (m σ).1.

Section safety.
Context (s : Z) (st0 : MultiVersionState).

Lemma vm_safe_ret {A} (a : A) : vm_safe s st0 (mret a).
Proof. intros σ Hσ. exact Hσ. Qed.

Lemma vm_safe_err {A} (e : VmError) : vm_safe s st0 (VM_err (A := A) e).
Proof. intros σ Hσ. exact Hσ. Qed.

Lemma vm_safe_bind {A B} (m : VM A) (f : A -> VM B) :
  vm_safe s st0 m -> (forall a, vm_safe s st0 (f a)) -> vm_safe s st0 (m ≫= f).
Proof.
  intros Hm Hf σ Hσ. specialize (Hm σ Hσ). unfold mbind, VM_bind.
  destruct (m σ) as [σ' [e|a]]; [done|]. by apply Hf.
Qed.

Lemma vm_safe_read key : vm_safe s st0 (vm_read key s).
Proof.
  intros σ [Hs Hc Hb Hj Hr Hv]. unfold vm_read, MultiVersionState_read_tracked.
  specialize (Hv key) as Hvk. destruct (MultiVersionState_read (vs_state σ) key s) as [value version].
  split; simpl; auto. intros key' p. destruct (decide (key = key')) as [->|Hne].
  - rewrite lookup_insert_eq. congruence.
  - rewrite lookup_insert_ne by done. apply Hr.
Qed.

(** Adding a pending version of [s], whether or not the write set records it. *)
Lemma vm_inv_write σ key value ws :
  vm_inv s st0 σ -> (forall key', key' ∈ dom (writes ws) -> key' = key \/ key' ∈ dom (writes (vs_writes σ))) ->
  vm_inv s st0 (mkVmState (MultiVersionState_write (vs_state σ) key s value) (vs_reads σ) ws).
Proof.
  intros [Hs Hc Hb Hj Hr Hv] Hws. split; simpl; auto.
  - by apply write_sorted.
  - intros key'. destruct (Hc key') as (new & Hp & Hnew & Hne). rewrite chain_of_write. case_bool_decide as E.
    + subst key'. exists (mkVersion s value Pending :: new). rewrite add_version_perm, Hp by done.
      split; [done|]. split; [by constructor|done].
    + exists new. split; [done|]. split; [done|]. intros Hin. destruct (Hws key' Hin); [congruence|auto].
  - intros key'. rewrite read_write_older by (done || lia). apply Hv.
Qed.

Lemma vm_safe_write key value : vm_safe s st0 (vm_write key s value).
Proof.
  intros σ Hσ. apply vm_inv_write; [done|]. intros key' Hin. simpl in Hin.
  rewrite dom_insert_L in Hin. apply elem_of_union in Hin as [Hin|Hin]; [|auto].
  apply elem_of_singleton in Hin. auto.
Qed.

Lemma vm_safe_write_untracked key value : vm_safe s st0 (vm_write_untracked key s value).
Proof. intros σ Hσ. apply vm_inv_write; auto. Qed.
End safety.

Create HintDb vm.
#[export] Hint Resolve vm_safe_ret vm_safe_err vm_safe_read vm_safe_write vm_safe_write_untracked : vm.

(** Walk through a computation, splitting binds and branches. *)
Ltac vm_safe_tac :=
  repeat (intros; auto with vm;
    match goal with
    | |- vm_safe _ _ (_ ≫= _) => apply vm_safe_bind
    | |- vm_safe _ _ (if ?b then _ else _) => destruct b
    | |- vm_safe _ _ (match ?x with _ => _ end) => destruct x
    end).

Lemma vm_inv_start s st0 : mv_sorted st0 -> vm_inv s st0 (mkVmState st0 ReadSet_new WriteSet_new).
Proof.
  intros Hs. split; simpl; auto.
  - intros key. exists []. split; [done|]. split; [constructor|]. by rewrite dom_empty_L, elem_of_empty.
  - intros key p. by rewrite lookup_empty.
Qed.

Lemma execute_inner_safe `{Hashes} vm tx block st0 :
  vm_safe (tx_sequence_number tx) st0 (execute_inner vm tx block).
Proof.
  unfold execute_inner, execute_call, execute_create, read_balance, read_nonce, write_balance, write_nonce.
  vm_safe_tac.
Qed.

(** ** Arithmetic *)

Lemma compare_u256_lt a b :
  is_u256 a -> is_u256 b -> (compare_u256 a b <? 0) = (u256_val a <? u256_val b).
Proof.
  intros (A0 & A1 & A2 & A3)%is_u256_iff (B0 & B1 & B2 & B3)%is_u256_iff.
  unfold compare_u256, u256_val. cbn [compare_limbs]. unfold_u64.
  destruct a as [a0 a1 a2 a3], b as [b0 b1 b2 b3]. cbn [limb0 limb1 limb2 limb3] in *.
  repeat match goal with |- context [?x <? ?y] =>
    match x with context [if _ then _ else _] => fail 1 | _ => destruct (Z.ltb_spec x y) end
  end; simpl; lia.
Qed.

(** [sub_u256] is subtraction when the subtrahend fits in one limb and the
    minuend in two. *)
Lemma sub_u256_exact a b :
  is_u256 a -> is_u256 b -> u256_val a < 2 ^ 128 -> u256_val b < 2 ^ 64 -> u256_val b <= u256_val a ->
  is_u256 (sub_u256 a b) /\ u256_val (sub_u256 a b) = u256_val a - u256_val b.
Proof.
  intros (A0 & A1 & A2 & A3)%is_u256_iff (B0 & B1 & B2 & B3)%is_u256_iff Ha Hb Hle.
  unfold sub_u256, u64_overflowing_sub, u256_val in *.
  destruct a as [a0 a1 a2 a3], b as [b0 b1 b2 b3]. rewrite is_u256_iff. cbn [limb0 limb1 limb2 limb3] in *.
  unfold_u64. destruct (Z.ltb_spec a0 b0) as [Hlt|Hge].
  - assert (E : (a0 - b0) mod 2 ^ 64 = a0 - b0 + 2 ^ 64).
    { replace (a0 - b0) with (a0 - b0 + 2 ^ 64 + (-1) * 2 ^ 64) at 1 by lia.
      rewrite Z.mod_add by lia. apply Z.mod_small. lia. }
    rewrite E. destruct (Z.ltb_spec 0 a1); cbn [andb]; [|lia].
    rewrite (Z.mod_small (a1 - 1)) by lia. lia.
  - rewrite (Z.mod_small (a0 - b0)) by lia. cbn [andb]. lia.
Qed.

Lemma is_u256_sub a b : is_u256 a -> is_u256 (sub_u256 a b).
Proof.
  intros (A0 & A1 & A2 & A3)%is_u256_iff. unfold sub_u256, u64_overflowing_sub. apply is_u256_iff.
  cbn [limb0 limb1 limb2 limb3]. split; [apply u64_sub_is|]. split; [|done].
  case_bool; [apply u64_sub_is|done].
Qed.

(** ** Running a call *)

Definition balance_at (st : MultiVersionState) (s : Z) (a : Address) : U256 :=
  default U256_ZERO (view st s (balance_key a)).
Definition nonce_at (st : MultiVersionState) (s : Z) (a : Address) : Z :=
  default 0 (limb0 <$> view st s (nonce_key a)).

(** Gas of a call to [to]. *)
Definition call_gas (vm : RytherVm) (tx : DecryptedTransaction) (to : Address) : Z :=
  match code_storage vm !! to with
  | Some (_ :: _) => Z.min (21000 ⊞ (Z.of_nat (length (tx_data tx)) ⊠ 16)) (tx_gas_limit tx)
  | _ => 21000
  end.

Definition call_debited (st : MultiVersionState) (tx : DecryptedTransaction) : U256 :=
  sub_u256 (balance_at st (tx_sequence_number tx) (tx_from tx)) (add_u256 (tx_value tx) (calculate_gas_cost tx)).

Definition call_final (vm : RytherVm) (st : MultiVersionState) (tx : DecryptedTransaction) (to : Address) : U256 :=
  add_u256 (call_debited st tx)
    (U256_from_u64 ((tx_gas_limit tx ⊟ call_gas vm tx to) ⊠ u256_to_u64 (tx_gas_price tx))).

Definition call_credited (st : MultiVersionState) (tx : DecryptedTransaction) (to : Address) : U256 :=
  add_u256 (balance_at st (tx_sequence_number tx) to) (tx_value tx).

Definition call_coinbase (vm : RytherVm) (block : BlockContext) (st : MultiVersionState)
    (tx : DecryptedTransaction) (to : Address) : U256 :=
  add_u256 (balance_at st (tx_sequence_number tx) (bc_coinbase block))
    (U256_from_u64 (call_gas vm tx to ⊠ u256_to_u64 (tx_gas_price tx))).

(** The writes of a successful call, in order. *)
Definition call_writes (vm : RytherVm) (block : BlockContext) (st : MultiVersionState)
    (tx : DecryptedTransaction) (to : Address) : list (StateKey * U256) :=
  [(balance_key (tx_from tx), call_debited st tx);
   (nonce_key (tx_from tx), U256_from_u64 (nonce_at st (tx_sequence_number tx) (tx_from tx) ⊞ 1))] ++
  (if bool_decide (tx_value tx = U256_ZERO) then [] else [(balance_key to, call_credited st tx to)]) ++
  [(balance_key (tx_from tx), call_final vm st tx to);
   (balance_key (bc_coinbase block), call_coinbase vm block st tx to)].

Definition apply_writes (s : Z) (ws : list (StateKey * U256)) (st : MultiVersionState) : MultiVersionState :=
  fold_left (fun st '(k, v) => MultiVersionState_write st k s (Some v)) ws st.

(** The checks before anything is written. *)
Definition funded (st : MultiVersionState) (tx : DecryptedTransaction) : Prop :=
  nonce_at st (tx_sequence_number tx) (tx_from tx) = tx_nonce tx /\
  (compare_u256 (balance_at st (tx_sequence_number tx) (tx_from tx))
    (add_u256 (tx_value tx) (calculate_gas_cost tx)) <? 0) = false.

Lemma view_write_older st key s value key' :
  mv_sorted st -> view (MultiVersionState_write st key s value) s key' = view st s key'.
Proof. intros Hs. unfold view. by rewrite read_write_older by (done || lia). Qed.

(** [runs st m st' r]: started on the store [st], [m] ends with [r] on the
    store [st'], whatever has been read and written so far. *)
Definition runs {A} (st : MultiVersionState) (m : VM A) (st' : MultiVersionState) (r : VmError + A) : Prop :=
  forall rs ws, exists rs' ws', m (mkVmState st rs ws) = (mkVmState st' rs' ws', r).

Lemma runs_ret {A} st (a : A) : runs st (mret a) st (inr a).
Proof. intros rs ws. by exists rs, ws. Qed.

Lemma runs_err {A} st e : runs st (VM_err (A := A) e) st (inl e).
Proof. intros rs ws. by exists rs, ws. Qed.

Lemma runs_bind {A B} st st' st'' (m : VM A) (f : A -> VM B) a r :
  runs st m st' (inr a) -> runs st' (f a) st'' r -> runs st (m ≫= f) st'' r.
Proof.
  intros Hm Hf rs ws. destruct (Hm rs ws) as (rs' & ws' & E). destruct (Hf rs' ws') as (rs'' & ws'' & E').
  exists rs'', ws''. unfold mbind, VM_bind. by rewrite E.
Qed.

Lemma runs_read_balance st a seq : runs st (read_balance a seq) st (inr (balance_at st seq a)).
Proof.
  intros rs ws. unfold read_balance, balance_at, mbind, VM_bind, vm_read, MultiVersionState_read_tracked, view. simpl.
  destruct (MultiVersionState_read st (balance_key a) seq). by do 2 eexists.
Qed.

Lemma runs_read_nonce st a seq : runs st (read_nonce a seq) st (inr (nonce_at st seq a)).
Proof.
  intros rs ws. unfold read_nonce, nonce_at, mbind, VM_bind, vm_read, MultiVersionState_read_tracked, view. simpl.
  destruct (MultiVersionState_read st (nonce_key a) seq). by do 2 eexists.
Qed.

Lemma runs_write_balance st a seq v :
  runs st (write_balance a seq v) (MultiVersionState_write st (balance_key a) seq (Some v)) (inr tt).
Proof. intros rs ws. by do 2 eexists. Qed.

Lemma runs_write_nonce st a seq n :
  runs st (write_nonce a seq n) (MultiVersionState_write st (nonce_key a) seq (Some (U256_from_u64 n))) (inr tt).
Proof. intros rs ws. by do 2 eexists. Qed.

Lemma balance_at_write st key s value a :
  mv_sorted st -> balance_at (MultiVersionState_write st key s value) s a = balance_at st s a.
Proof. intros Hs. unfold balance_at. by rewrite view_write_older. Qed.

Lemma execute_runs `{Hashes} vm tx block st st' r :
  runs st (execute_inner vm tx block) st' r ->
  exists rs ws, RytherVm_execute vm tx st block =
    (st', match r with
          | inr v => mkResult (tx_sequence_number tx) (if vm_success v then Success else Revert) rs ws
              (vm_gas_used v) (vm_logs v) (vm_output v)
          | inl e => mkResult (tx_sequence_number tx) Failure rs ws (tx_gas_limit tx) []
              (string_bytes (VmError_display e))
          end).
Proof.
  intros Hr. destruct (Hr ReadSet_new WriteSet_new) as (rs & ws & E). exists rs, ws.
  unfold RytherVm_execute. rewrite E. by destruct r.
Qed.

Lemma execute_rejected `{Hashes} vm tx block st :
  ~ funded st tx ->
  exists e rs ws, RytherVm_execute vm tx st block =
    (st, mkResult (tx_sequence_number tx) Failure rs ws (tx_gas_limit tx) [] (string_bytes (VmError_display e))).
Proof.
  intros Hf. assert (Hr : exists e, runs st (execute_inner vm tx block) st (inl e)).
  { unfold execute_inner. destruct (nonce_at st (tx_sequence_number tx) (tx_from tx) =? tx_nonce tx) eqn:En.
    - exists InsufficientBalance.
      eapply runs_bind; [apply runs_read_balance|]. eapply runs_bind; [apply runs_read_nonce|].
      rewrite En. cbn [negb].
      match goal with |- context [if ?c <? 0 then _ else _] => destruct (c <? 0) eqn:Ec end; [apply runs_err|].
      exfalso. apply Hf. split; [by apply Z.eqb_eq|exact Ec].
    - exists (InvalidNonce (nonce_at st (tx_sequence_number tx) (tx_from tx)) (tx_nonce tx)).
      eapply runs_bind; [apply runs_read_balance|]. eapply runs_bind; [apply runs_read_nonce|].
      rewrite En. apply runs_err. }
  destruct Hr as [e Hr]. destruct (execute_runs _ _ _ _ _ _ Hr) as (rs & ws & E). eauto.
Qed.

Lemma execute_call_runs vm tx st to :
  mv_sorted st ->
  runs st (execute_call vm tx to)
    (if bool_decide (tx_value tx = U256_ZERO) then st
     else MultiVersionState_write st (balance_key to) (tx_sequence_number tx) (Some (call_credited st tx to)))
    (inr (true, call_gas vm tx to, [], [])).
Proof.
  intros Hs. unfold execute_call.
  assert (Hgas : forall st, runs (A := bool * Z * bytes * list Log) st (match code_storage vm !! to with
    | Some (_ :: _) => mret (true, Z.min (21000 ⊞ (Z.of_nat (length (tx_data tx)) ⊠ 16)) (tx_gas_limit tx), [], [])
    | _ => mret (true, 21000, [], [])
    end) st (inr (true, call_gas vm tx to, [], []))).
  { intros st'. unfold call_gas. destruct (code_storage vm !! to) as [[|? ?]|]; apply runs_ret. }
  destruct (bool_decide _).
  - eapply (runs_bind _ _ _ _ _ tt); [apply runs_ret|apply Hgas].
  - eapply (runs_bind _ _ _ _ _ tt); [|apply Hgas].
    eapply runs_bind; [apply runs_read_balance|]. apply runs_write_balance.
Qed.

Lemma execute_call_run `{Hashes} vm tx block st to :
  mv_sorted st -> tx_to tx = Some to -> funded st tx ->
  exists rs ws, RytherVm_execute vm tx st block =
    (apply_writes (tx_sequence_number tx) (call_writes vm block st tx to) st,
     mkResult (tx_sequence_number tx) Success rs ws (call_gas vm tx to) [] []).
Proof.
  intros Hs Hto [Hn Hc]. set (s := tx_sequence_number tx) in *.
  apply (execute_runs vm tx block st _ (inr (mkVmResult true (call_gas vm tx to) [] [] None))).
  set (st1 := MultiVersionState_write st (balance_key (tx_from tx)) s (Some (call_debited st tx))).
  set (st2 := MultiVersionState_write st1 (nonce_key (tx_from tx)) s (Some (U256_from_u64 (nonce_at st s (tx_from tx) ⊞ 1)))).
  assert (S1 : mv_sorted st1) by by apply write_sorted.
  assert (S2 : mv_sorted st2) by by apply write_sorted.
  assert (Hbal : forall a, balance_at st2 s a = balance_at st s a).
  { intros a. unfold st2, st1. by rewrite !balance_at_write. }
  assert (Hcred : call_credited st2 tx to = call_credited st tx to) by (unfold call_credited; fold s; by rewrite Hbal).
  unfold execute_inner. fold s. rewrite Hto.
  eapply runs_bind; [apply runs_read_balance|]. eapply runs_bind; [apply runs_read_nonce|].
  fold s in Hn, Hc. rewrite Hn, Z.eqb_refl. cbn [negb]. rewrite Hc. fold (call_debited st tx).
  eapply runs_bind; [apply runs_write_balance|]. fold st1.
  eapply runs_bind; [apply runs_write_nonce|]. rewrite <- Hn. fold st2.
  eapply runs_bind; [apply execute_call_runs; exact S2|]. cbn beta iota. fold s.
  eapply runs_bind; [apply runs_write_balance|]. eapply runs_bind; [apply runs_read_balance|].
  eapply runs_bind; [apply runs_write_balance|]. cbn beta.
  unfold call_writes, apply_writes. fold s.
  assert (Hb3 : forall st3 v, mv_sorted st3 -> (forall a, balance_at st3 s a = balance_at st s a) ->
    balance_at (MultiVersionState_write st3 (balance_key (tx_from tx)) s v) s (bc_coinbase block) =
    balance_at st s (bc_coinbase block)) by (intros st3 v S3 H3; by rewrite balance_at_write).
  destruct (bool_decide _); cbn [app fold_left]; fold st1 st2.
  - rewrite Hb3 by done. apply runs_ret.
  - match goal with |- context [call_credited ?x tx to] => change x with st2 end.
    rewrite Hb3; [rewrite Hcred; apply runs_ret|by apply write_sorted|].
    intros a. by rewrite balance_at_write.
Qed.

(** ** What a list of writes leaves behind *)

Definition own_count (s : Z) (st : MultiVersionState) (key : StateKey) : nat :=
  length (filter (fun v => sv_tx_sequence v = s) (versions (chain_of st key))).

Definition key_count (ws : list (StateKey * U256)) (key : StateKey) : nat :=
  length (filter (fun w => w.1 = key) ws).

Lemma own_count_write s st key value key' :
  mv_sorted st ->
  own_count s (MultiVersionState_write st key s value) key' =
    ((if bool_decide (key = key') then 1 else 0) + own_count s st key')%nat.
Proof.
  intros Hs. unfold own_count. rewrite chain_of_write. case_bool_decide as E; [|done]. subst key'.
  rewrite add_version_perm by done. by rewrite filter_cons_True.
Qed.

Lemma own_count_below s st key : mv_below s st -> own_count s st key = 0%nat.
Proof.
  intros Hb. unfold own_count. specialize (Hb key). induction Hb as [|v l Hv Hl IH]; [done|].
  rewrite filter_cons_False by lia. done.
Qed.

(** A write that is at most the second of its transaction to its key is what
    later readers see. *)
Lemma view_write s st key v key' r :
  mv_sorted st -> mv_below (s + 1) st -> (own_count s st key <= 1)%nat -> s < r ->
  view (MultiVersionState_write st key s v) r key' = if bool_decide (key = key') then v else view st r key'.
Proof.
  intros Hs Hb Hc Hr. unfold view. case_bool_decide as E.
  - subst key'. erewrite (read_head _ _ _ (mkVersion s v Pending)); [done| |done|done].
    rewrite chain_of_write, bool_decide_eq_true_2 by done. apply add_version_newest; [done| |done].
    eapply Forall_impl; [apply Hb|]. simpl. lia.
  - rewrite !read_chain, chain_of_write, bool_decide_eq_false_2 by done. done.
Qed.

Lemma apply_writes_sorted s ws st : mv_sorted st -> mv_sorted (apply_writes s ws st).
Proof. revert st. induction ws as [|[k v] ws IH]; intros st Hs; [done|]. apply IH. by apply write_sorted. Qed.

Lemma apply_writes_live s ws st : mv_sorted st -> mv_live st -> mv_live (apply_writes s ws st).
Proof.
  revert st. induction ws as [|[k v] ws IH]; intros st Hs Hl; [done|].
  apply IH; [by apply write_sorted|by apply write_live].
Qed.

Lemma apply_writes_below s ws st b : mv_sorted st -> s < b -> mv_below b st -> mv_below b (apply_writes s ws st).
Proof.
  revert st. induction ws as [|[k v] ws IH]; intros st Hs Hlt Hb; [done|].
  apply IH; [by apply write_sorted|done|by apply write_below].
Qed.

Lemma apply_writes_view s ws st key r :
  mv_sorted st -> mv_below (s + 1) st -> s < r ->
  (forall k, own_count s st k + key_count ws k <= 2)%nat ->
  view (apply_writes s ws st) r key =
    match (list_to_map (rev ws) : gmap StateKey U256) !! key with
    | Some v => Some v
    | None => view st r key
    end.
Proof.
  intros Hs Hb Hr. revert st Hs Hb. induction ws as [|[k v] ws IH]; intros st Hs Hb Hc; [done|].
  cbn [apply_writes fold_left]. fold (apply_writes s ws (MultiVersionState_write st k s (Some v))).
  assert (Hck : (own_count s st k <= 1)%nat).
  { specialize (Hc k). unfold key_count in Hc. rewrite filter_cons_True in Hc by done. simpl in Hc. lia. }
  rewrite IH; [|by apply write_sorted|apply write_below; done || lia|].
  - rewrite view_write by done. simpl. rewrite list_to_map_app, lookup_union.
    destruct ((list_to_map (rev ws) : gmap StateKey U256) !! key) as [w|]; simpl.
    + by destruct (_ !! _).
    + case_bool_decide as E; [subst; by rewrite lookup_insert_eq|by rewrite lookup_insert_ne].
  - intros k'. specialize (Hc k'). rewrite own_count_write by done. unfold key_count in *.
    rewrite filter_cons in Hc. simpl in Hc. destruct (decide (k = k')) as [->|Hne].
    + rewrite bool_decide_eq_true_2 by done. simpl in Hc. lia.
    + rewrite bool_decide_eq_false_2 by done. simpl in Hc. lia.
Qed.

(** ** Keys *)

Lemma balance_key_inj a b : balance_key a = balance_key b -> a = b.
Proof. destruct a, b. by intros [= ->]. Qed.

Lemma nonce_key_inj a b : nonce_key a = nonce_key b -> a = b.
Proof. destruct a, b. by intros [= ->]. Qed.

Lemma balance_nonce_ne a b : balance_key a <> nonce_key b.
Proof. by intros [= _ ?]. Qed.

(** The view after a successful call, when the sender is neither the callee of
    a transfer nor the block's coinbase. *)
Lemma call_writes_view vm block st tx to key r :
  mv_sorted st -> mv_below (tx_sequence_number tx) st -> tx_sequence_number tx < r ->
  (tx_value tx <> U256_ZERO -> tx_from tx <> to) -> tx_from tx <> bc_coinbase block ->
  view (apply_writes (tx_sequence_number tx) (call_writes vm block st tx to) st) r key =
    if decide (key = balance_key (bc_coinbase block)) then Some (call_coinbase vm block st tx to)
    else if decide (key = balance_key (tx_from tx)) then Some (call_final vm st tx to)
    else if decide (key = balance_key to /\ tx_value tx <> U256_ZERO) then Some (call_credited st tx to)
    else if decide (key = nonce_key (tx_from tx))
      then Some (U256_from_u64 (nonce_at st (tx_sequence_number tx) (tx_from tx) ⊞ 1))
    else view st r key.
Proof.
  intros Hs Hb Hr Hto Hcb. set (s := tx_sequence_number tx) in *.
  assert (Hcb' : balance_key (tx_from tx) <> balance_key (bc_coinbase block)) by (intros E; by apply balance_key_inj in E).
  assert (Hto' : tx_value tx <> U256_ZERO -> balance_key (tx_from tx) <> balance_key to)
    by (intros Hv E; apply balance_key_inj in E; by apply Hto).
  pose proof (balance_nonce_ne to (tx_from tx)) as N1.
  pose proof (balance_nonce_ne (tx_from tx) (tx_from tx)) as N2.
  pose proof (balance_nonce_ne (bc_coinbase block) (tx_from tx)) as N3.
  rewrite apply_writes_view; [|done|by eapply mv_below_mono; [|done]; lia|done|].
  - unfold call_writes. fold s. destruct (bool_decide (tx_value tx = U256_ZERO)) eqn:Ev; bool_to_prop; simpl;
      rewrite !lookup_insert, lookup_empty; repeat case_decide; destruct_and?; try congruence; exfalso; subst; tauto.
  - intros k. rewrite own_count_below by done. unfold key_count, call_writes. fold s.
    destruct (bool_decide (tx_value tx = U256_ZERO)) eqn:Ev; bool_to_prop; simpl;
      rewrite !filter_cons, filter_nil; simpl; repeat case_decide; simpl; try lia; exfalso; try congruence;
      apply Hto'; congruence.
Qed.

(** The third write of a transaction to one key goes behind the second. *)
Lemma add_version_third c a b rest v :
  chain_sorted c -> versions c = a :: b :: rest ->
  sv_tx_sequence a = sv_tx_sequence v -> sv_tx_sequence b = sv_tx_sequence v ->
  Forall (fun w => sv_tx_sequence w < sv_tx_sequence v) rest ->
  versions (VersionChain_add_version c v) = a :: v :: b :: rest.
Proof.
  intros Hs E Ea Eb Hr. unfold VersionChain_add_version, vec_insert. cbn [versions].
  pose proof (binary_search_by_spec _ _ (chain_bs_mono c (sv_tx_sequence v) Hs)) as Hb. rewrite E in Hb |- *.
  destruct (binary_search_by _ _) as [i|i].
  - destruct Hb as [(w & Hw & Hq) Hgt]. apply Z.compare_eq in Hq.
    assert (Hi : i = 1%nat); [|by subst].
    destruct i as [|[|i]]; [|done|].
    + specialize (Hgt 1%nat b ltac:(lia) eq_refl). rewrite Eb, Z.compare_refl in Hgt. done.
    + simpl in Hw. apply list_elem_of_lookup_2 in Hw. rewrite Forall_forall in Hr. specialize (Hr w Hw). lia.
  - destruct Hb as (Hi & Hlt & Hgt). exfalso. destruct i as [|i].
    + specialize (Hgt 0%nat a ltac:(lia) eq_refl). rewrite Ea, Z.compare_refl in Hgt. done.
    + specialize (Hlt 0%nat a ltac:(lia) eq_refl). rewrite Ea, Z.compare_refl in Hlt. done.
Qed.

(** The chain of a key nobody wrote in this transaction, after two writes. *)
Lemma chain_two_writes s st key v1 v2 :
  mv_sorted st -> mv_below s st ->
  versions (VersionChain_add_version (VersionChain_add_version (chain_of st key) (mkVersion s v1 Pending)) (mkVersion s v2 Pending)) =
    mkVersion s v2 Pending :: mkVersion s v1 Pending :: versions (chain_of st key).
Proof.
  intros Hs Hb. assert (Hz := own_count_below s st key Hb). unfold own_count in Hz.
  assert (E1 : versions (VersionChain_add_version (chain_of st key) (mkVersion s v1 Pending)) =
    mkVersion s v1 Pending :: versions (chain_of st key)).
  { apply add_version_newest; simpl; [done| |lia]. eapply Forall_impl; [apply Hb|]. simpl. lia. }
  rewrite add_version_newest; cbn [sv_tx_sequence].
  - by rewrite E1.
  - by apply chain_sorted_add.
  - rewrite E1. constructor; [simpl; lia|]. eapply Forall_impl; [apply Hb|]. simpl. lia.
  - rewrite E1, filter_cons_True by done. simpl. rewrite Hz. lia.
Qed.

(** ** Properties *)

(** C40: a transaction works on its snapshot.  Started on a sorted store,
    [execute] reports the transaction's own number, records in the read set
    only what the store held for that number at the start, and changes the
    store only by adding pending versions under that number, at least one for
    every key of the reported write set; the base state and the tree stay as
    they are. *)
Theorem execute_snapshot `{Hashes} (vm : RytherVm) (tx : DecryptedTransaction) (st : MultiVersionState) (block : BlockContext) :
  mv_sorted st ->
  let s := tx_sequence_number tx in
  let (st', res) := RytherVm_execute vm tx st block in
  er_tx_seq res = s /\ mv_sorted st' /\ base_state st' = base_state st /\ jmt st' = jmt st /\
  (forall key p, reads (er_read_set res) !! key = Some p -> p = MultiVersionState_read st key s) /\
  (forall key, exists new,
    versions (chain_of st' key) ≡ₚ new ++ versions (chain_of st key) /\
    Forall (fun v => sv_tx_sequence v = s /\ sv_status v = Pending) new /\
    (key ∈ dom (writes (er_write_set res)) -> new <> [])).
Proof.
  intros Hs s. pose proof (execute_inner_safe vm tx block st _ (vm_inv_start s st Hs)) as Hi.
  unfold RytherVm_execute. destruct (execute_inner _ _ _ _) as [σ [e|r]]; destruct Hi as [H1 H2 H3 H4 H5 H6];
    simpl; auto 10.
Qed.

(** ** Amounts as numbers *)

Lemma one_limb u : is_u256 u -> u256_val u < u64_bound -> limb0 u = u256_val u.
Proof. intros (? & ? & ? & ?)%is_u256_iff Hlt. unfold u256_val in *. u64_lia. Qed.

(** A well-formed call with enough gas whose value and gas cost fit in one limb. *)
Record call_fits (vm : RytherVm) (tx : DecryptedTransaction) (to : Address) : Prop := {
  cf_ok : tx_ok tx;
  cf_gas : call_gas vm tx to <= tx_gas_limit tx;
  cf_cost : u256_val (tx_value tx) + tx_gas_limit tx * u256_val (tx_gas_price tx) < u64_bound;
  cf_price : u256_val (tx_gas_price tx) < u64_bound
}.

Lemma total_cost_exact vm tx to :
  call_fits vm tx to ->
  is_u256 (add_u256 (tx_value tx) (calculate_gas_cost tx)) /\
  u256_val (add_u256 (tx_value tx) (calculate_gas_cost tx)) =
    u256_val (tx_value tx) + tx_gas_limit tx * u256_val (tx_gas_price tx).
Proof.
  intros [[_ _ Hv Hg Hp Hn Hs] _ Hc Hpr].
  pose proof (u256_val_bound _ Hv) as Bv. pose proof (u256_val_bound _ Hp) as Bp.
  assert (Bc : 0 <= tx_gas_limit tx * u256_val (tx_gas_price tx)) by (unfold is_u64 in Hg; nia).
  assert (Eg : calculate_gas_cost tx = U256_from_u64 (tx_gas_limit tx * u256_val (tx_gas_price tx))).
  { unfold calculate_gas_cost, u256_to_u64. rewrite (one_limb _ Hp Hpr), u64_mul_exact; [done|]. unfold is_u64. lia. }
  assert (Hug : is_u256 (calculate_gas_cost tx)) by (rewrite Eg; apply is_u256_from_u64; unfold is_u64; lia).
  unfold add_u256. split; [by apply is_u256_wrapping_add|].
  rewrite U256_add_exact; [by rewrite Eg, u256_val_from_u64|done|done|].
  rewrite Eg, u256_val_from_u64. unfold u64_bound in Hc. lia.
Qed.

(** The engine's checks compare numbers. *)
Lemma funded_exact vm tx to st :
  call_fits vm tx to -> is_u256 (balance_at st (tx_sequence_number tx) (tx_from tx)) ->
  funded st tx <->
  (nonce_at st (tx_sequence_number tx) (tx_from tx) =? tx_nonce tx) &&
  (u256_val (tx_value tx) + tx_gas_limit tx * u256_val (tx_gas_price tx) <=?
    u256_val (balance_at st (tx_sequence_number tx) (tx_from tx))) = true.
Proof.
  intros Hf Hu. destruct (total_cost_exact _ _ _ Hf) as [Hc Ec]. unfold funded.
  rewrite compare_u256_lt by done. rewrite Ec, andb_true_iff, Z.eqb_eq, Z.leb_le, Z.ltb_ge. done.
Qed.

Lemma amounts_exact vm block tx to st :
  call_fits vm tx to ->
  (forall a, is_u256 (balance_at st (tx_sequence_number tx) a) /\ u256_val (balance_at st (tx_sequence_number tx) a) < 2 ^ 128) ->
  funded st tx ->
  let bal a := u256_val (balance_at st (tx_sequence_number tx) a) in
  let value := u256_val (tx_value tx) in
  let price := u256_val (tx_gas_price tx) in
  let gas := call_gas vm tx to in
  (is_u256 (call_final vm st tx to) /\
   u256_val (call_final vm st tx to) = bal (tx_from tx) - (value + tx_gas_limit tx * price) + (tx_gas_limit tx - gas) * price) /\
  (is_u256 (call_credited st tx to) /\ u256_val (call_credited st tx to) = bal to + value) /\
  (is_u256 (call_coinbase vm block st tx to) /\
   u256_val (call_coinbase vm block st tx to) = bal (bc_coinbase block) + gas * price).
Proof.
  intros Hfits Hbal Hf bal value price gas.
  destruct (Hbal (tx_from tx)) as [Uf Bf], (Hbal to) as [Ut Bt], (Hbal (bc_coinbase block)) as [Uc Bc].
  apply (funded_exact vm tx to) in Hf; [|done..]. bool_to_prop. destruct (total_cost_exact _ _ _ Hfits) as [Hu Ec].
  destruct Hfits as [[_ _ Hv Hg Hp _ _] Hgas Hcost Hpr].
  pose proof (u256_val_bound _ Hv) as Bv. pose proof (u256_val_bound _ Hp) as Bp. fold value price in Hcost, Hpr, Bv, Bp, Ec.
  assert (G0 : 0 <= gas).
  { unfold gas, call_gas. destruct (code_storage vm !! to) as [[|? ?]|]; try lia.
    apply Z.min_glb; [apply u64_add_is|]. unfold is_u64 in Hg. lia. }
  fold gas in Hgas.
  assert (M1 : 0 <= (tx_gas_limit tx - gas) * price <= tx_gas_limit tx * price) by nia.
  assert (M2 : 0 <= gas * price <= tx_gas_limit tx * price) by nia.
  assert (Er : (tx_gas_limit tx ⊟ gas) ⊠ u256_to_u64 (tx_gas_price tx) = (tx_gas_limit tx - gas) * price).
  { unfold u256_to_u64. rewrite (one_limb _ Hp Hpr), u64_sub_exact by (unfold is_u64 in *; lia).
    apply u64_mul_exact. fold price. unfold is_u64. lia. }
  assert (Efee : gas ⊠ u256_to_u64 (tx_gas_price tx) = gas * price).
  { unfold u256_to_u64. rewrite (one_limb _ Hp Hpr). apply u64_mul_exact. fold price. unfold is_u64. lia. }
  destruct (sub_u256_exact (balance_at st (tx_sequence_number tx) (tx_from tx)) (add_u256 (tx_value tx) (calculate_gas_cost tx)) Uf Hu)
    as [Ud Ed]; [done|rewrite Ec; exact Hcost|rewrite Ec; done|].
  unfold call_final, call_credited, call_coinbase, call_debited. fold gas. rewrite Er, Efee. unfold add_u256 in *.
  assert (Ir : is_u256 (U256_from_u64 ((tx_gas_limit tx - gas) * price))) by (apply is_u256_from_u64; unfold is_u64; lia).
  assert (If : is_u256 (U256_from_u64 (gas * price))) by (apply is_u256_from_u64; unfold is_u64; lia).
  rewrite Ec in Ed. unfold u64_bound in Hcost. subst bal. cbv beta in *.
  repeat split; try (apply is_u256_wrapping_add; done).
  - rewrite U256_add_exact; rewrite ?u256_val_from_u64, ?Ed; done || lia.
  - rewrite U256_add_exact; done || lia.
  - rewrite U256_add_exact; rewrite ?u256_val_from_u64; done || lia.
Qed.

Lemma read_versions_above l s r :
  Forall (fun v => sv_tx_sequence v < s) l -> s <= r -> read_versions l r = read_versions l s.
Proof.
  intros Hl Hr. induction Hl as [|v l Hv Hl IH]; [done|]. simpl.
  rewrite (proj2 (Z.ltb_lt _ r)), (proj2 (Z.ltb_lt _ s)) by lia. by rewrite IH.
Qed.

(** All readers above every version see the same state. *)
Lemma view_above st s r key : mv_below s st -> s <= r -> view st r key = view st s key.
Proof.
  intros Hb Hr. unfold view. rewrite !read_chain. unfold VersionChain_read_for.
  by rewrite (read_versions_above _ s r (Hb key) Hr).
Qed.


(** A transfer to oneself creates money.  When sender and receiver are the
    same account (and not the coinbase), the three writes to its balance leave
    the second one visible: the balance before plus the value, with neither
    the value nor the gas debited. *)
Theorem self_transfer_mints `{Hashes} (vm : RytherVm) (tx : DecryptedTransaction) (st : MultiVersionState) (block : BlockContext) (r : Z) :
  mv_sorted st -> mv_below (tx_sequence_number tx) st -> tx_sequence_number tx < r ->
  tx_to tx = Some (tx_from tx) -> tx_value tx <> U256_ZERO -> tx_from tx <> bc_coinbase block ->
  funded st tx ->
  balance_at (RytherVm_execute vm tx st block).1 r (tx_from tx) =
    add_u256 (balance_at st (tx_sequence_number tx) (tx_from tx)) (tx_value tx).
Proof.
  intros Hs Hb Hr Hto Hv Hcb Hf. destruct (execute_call_run vm tx block st _ Hs Hto Hf) as (rs & ws & ->).
  set (s := tx_sequence_number tx) in *. cbn [fst]. unfold balance_at at 1, view, call_writes. fold s.
  rewrite (bool_decide_eq_false_2 _ Hv). cbn [app apply_writes fold_left].
  assert (Hcb' : balance_key (bc_coinbase block) <> balance_key (tx_from tx)) by (intros E; by apply balance_key_inj in E).
  pose proof (balance_nonce_ne (tx_from tx) (tx_from tx)) as Hn.
  erewrite (read_head _ _ _ (mkVersion s (Some (call_credited st tx (tx_from tx))) Pending)); [done| |done|done].
  rewrite chain_of_write, bool_decide_eq_false_2 by done.
  rewrite !chain_of_write, !(bool_decide_eq_true_2 (balance_key (tx_from tx) = _)), !(bool_decide_eq_false_2 (nonce_key _ = _)) by done.
  eapply add_version_third; [|by apply chain_two_writes|done|done|apply Hb].
  do 2 apply chain_sorted_add. apply Hs.
Qed.

(** Large transfers are free.  [sub_u256] ignores the upper limbs of what it
    subtracts, so when the low limb of the total cost is zero (a value that is
    a multiple of 2^64, at gas price zero) the sender's balance is not debited
    at all. *)
Theorem large_transfer_not_debited (st : MultiVersionState) (tx : DecryptedTransaction) :
  is_u256 (balance_at st (tx_sequence_number tx) (tx_from tx)) ->
  limb0 (add_u256 (tx_value tx) (calculate_gas_cost tx)) = 0 ->
  call_debited st tx = balance_at st (tx_sequence_number tx) (tx_from tx).
Proof.
  intros (H0 & _)%is_u256_iff Hz. unfold call_debited, sub_u256. rewrite Hz. unfold u64_overflowing_sub.
  destruct (balance_at _ _ _) as [a0 a1 a2 a3]. cbn [limb0 limb1 limb2 limb3] in *.
  rewrite Z.sub_0_r, Z.mod_small by done. destruct (Z.ltb_spec a0 0); [u64_lia|done].
Qed.

(** ** Witnesses *)

#[local] Existing Instance checksum_hashes.

Definition vm_sample : RytherVm := RytherVm_default.
Definition alice : Address := mkAddress (replicate 20 1).
Definition bob : Address := mkAddress (replicate 20 2).
Definition carol : Address := mkAddress (replicate 20 3).
Definition vm_block : BlockContext := mkBlockContext 1 1 carol 30000000 (U256_from_u64 1) 1.
Definition vm_state : MultiVersionState :=
  MultiVersionState_with_base_state [(balance_key alice, mkU256 1000000 3 0 0)].
Definition transfer (to : Address) (value : U256) (gas_price seq : Z) : DecryptedTransaction :=
  mkTx alice (Some to) value 50000 (U256_from_u64 gas_price) 0 [] [] seq.

Lemma vm_state_sorted : mv_sorted vm_state.
Proof. apply mv_sorted_nil. Qed.

Lemma vm_state_below s : mv_below s vm_state.
Proof. intros key. constructor. Qed.

Lemma execute_snapshot_witness :
  mv_sorted (RytherVm_execute vm_sample (transfer bob (U256_from_u64 500) 2 7) vm_state vm_block).1.
Proof.
  pose proof (execute_snapshot vm_sample (transfer bob (U256_from_u64 500) 2 7) vm_state vm_block vm_state_sorted) as He.
  cbv zeta in He. destruct (RytherVm_execute _ _ _ _) as [st' res]. apply He.
Defined.

Lemma vm_state_balances s a : is_u256 (balance_at vm_state s a) /\ u256_val (balance_at vm_state s a) < 2 ^ 128.
Proof.
  unfold balance_at, view, MultiVersionState_read, vm_state, MultiVersionState_with_base_state. cbn [data fold_left base_state].
  rewrite lookup_empty. cbn [fst]. destruct (decide (alice = a)) as [<-|Hne].
  - rewrite lookup_insert_eq. split; [apply is_u256_iff; simpl; u64_lia|vm_compute; reflexivity].
  - rewrite lookup_insert_ne by (intros E; by apply balance_key_inj in E). rewrite lookup_empty.
    split; [apply is_u256_ZERO|vm_compute; reflexivity].
Qed.


Lemma self_transfer_mints_witness :
  balance_at (RytherVm_execute vm_sample (transfer alice (U256_from_u64 500) 2 7) vm_state vm_block).1 8 alice =
    mkU256 1000500 3 0 0.
Proof.
  rewrite (self_transfer_mints vm_sample (transfer alice (U256_from_u64 500) 2 7) vm_state vm_block 8 vm_state_sorted
    (vm_state_below 7)); try (vm_compute; reflexivity); try discriminate.
  split; vm_compute; reflexivity.
Defined.

Lemma large_transfer_not_debited_witness :
  call_debited vm_state (transfer bob (mkU256 0 2 0 0) 0 7) = mkU256 1000000 3 0 0.
Proof.
  rewrite (large_transfer_not_debited vm_state (transfer bob (mkU256 0 2 0 0) 0 7));
    [vm_compute; reflexivity| |vm_compute; reflexivity].
  change (balance_at _ _ _) with (mkU256 1000000 3 0 0). apply is_u256_iff. simpl. u64_lia.
Defined.
