(* ===== verification/Executor.v ===== *)
(** * The batch executor: [src/execution/executor.rs]

    Speculative execution in rounds with validation and re-execution.  The
    executor is proved against the interface [Engine]: what it relies on of
    the engine that runs single transactions. *)

From S2P Require Import Prelude Types Transaction State Jmt Mvcc Conflict Vm.

Record ExecutorConfig := mkConfig {
  worker_threads : nat;
  max_retries : nat
}.

(** [num_cpus] is the number of processors the [num_cpus] crate reports. *)
Definition ExecutorConfig_default (num_cpus : nat) : ExecutorConfig := mkConfig (Nat.max num_cpus 4) 3.

(** The promise of an execution engine: it reports the transaction's number,
    reads from the store as it was at the start, and only adds pending
    versions of that number, for at least the keys it reports as written. *)
Class Engine (exec : DecryptedTransaction -> MultiVersionState -> MultiVersionState * ExecutionResult) : Prop := {
  engine_seq tx st : er_tx_seq (exec tx st).2 = tx_sequence_number tx;
  engine_sorted tx st : mv_sorted st -> mv_sorted (exec tx st).1;
  engine_reads tx st key p : mv_sorted st -> reads (er_read_set (exec tx st).2) !! key = Some p ->
    p = MultiVersionState_read st key (tx_sequence_number tx);
  engine_writes tx st key : mv_sorted st -> exists new,
    versions (chain_of (exec tx st).1 key) ≡ₚ new ++ versions (chain_of st key) /\
    Forall (fun v => sv_tx_sequence v = tx_sequence_number tx /\ sv_status v = Pending) new /\
    (key ∈ dom (writes (er_write_set (exec tx st).2)) -> new <> [])
}.

Section executor.
Variable exec : DecryptedTransaction -> MultiVersionState -> MultiVersionState * ExecutionResult.

(** [execute_single] on the running store, collecting the results. *)
Definition execute_next (acc : MultiVersionState * list ExecutionResult) (tx : DecryptedTransaction)
    : MultiVersionState * list ExecutionResult :=
  let '(st, rs) := acc in
  let '(st, r) := exec tx st in
  (st, rs ++ [r]).

Definition execute_parallel (sequences : list Z) (tx_map : gmap Z DecryptedTransaction) (st : MultiVersionState)
    : MultiVersionState * list ExecutionResult :=
  fold_left execute_next (omap (fun seq => tx_map !! seq) sequences) (st, []).

Definition store_results (results : gmap Z ExecutionResult) (new_results : list ExecutionResult)
    : gmap Z ExecutionResult :=
  fold_left (fun m r => <[er_tx_seq r := r]> m) new_results results.

(** The values of the result map, in the order the map yields them. *)
Definition values (results : gmap Z ExecutionResult) : list ExecutionResult := (map_to_list results).*2.

Definition commit_sequence (results : gmap Z ExecutionResult) (st : MultiVersionState) (seq : Z) : MultiVersionState :=
  match results !! seq with
  | Some r => MultiVersionState_commit_write_set st seq (er_write_set r)
  | None => st
  end.

Definition abort_sequence (acc : MultiVersionState * gmap Z ExecutionResult) (seq : Z)
    : MultiVersionState * gmap Z ExecutionResult :=
  let '(st, results) := acc in
  (match results !! seq with
   | Some r => MultiVersionState_abort_write_set st seq (er_write_set r)
   | None => st
   end, delete seq results).

(** One attempt: execute the pending transactions, validate all results, mark
    the committed and the aborted ones; the aborted are pending again. *)
Definition execute_round (tx_map : gmap Z DecryptedTransaction) (pending : list Z) (st : MultiVersionState)
    (results : gmap Z ExecutionResult) : MultiVersionState * gmap Z ExecutionResult * list Z :=
  let '(st, new_results) := execute_parallel pending tx_map st in
  let results := store_results results new_results in
  let validation := validate_batch (values results) in
  let st := fold_left (commit_sequence results) (vr_committed validation) st in
  let '(st, results) := fold_left abort_sequence (vr_aborted validation) (st, results) in
  (st, results, vr_aborted validation).

(** The loop over [0..=max_retries]: [attempts] rounds are left. *)
Fixpoint execute_rounds (attempts : nat) (tx_map : gmap Z DecryptedTransaction) (pending : list Z)
    (st : MultiVersionState) (results : gmap Z ExecutionResult) : MultiVersionState * gmap Z ExecutionResult :=
  match attempts, pending with
  | O, _ | _, [] => (st, results)
  | S attempts, _ =>
      let '(st, results, pending) := execute_round tx_map pending st results in
      execute_rounds attempts tx_map pending st results
  end.

Definition ParallelExecutor_execute_batch (config : ExecutorConfig) (transactions : list DecryptedTransaction)
    (st : MultiVersionState) : MultiVersionState * list ExecutionResult :=
  match transactions with
  | [] => (st, [])
  | _ =>
      let tx_map := fold_left (fun m tx => <[tx_sequence_number tx := tx]> m) transactions ∅ in
      let pending := stable_sort Z.leb (map_to_list tx_map).*1 in
      let '(st, results) := execute_rounds (S (max_retries config)) tx_map pending st ∅ in
      (st, sort_results (values results))
  end.

(** ** The reference: one transaction after the other *)

Definition tx_leb (a b : DecryptedTransaction) : bool := tx_sequence_number a <=? tx_sequence_number b.
Definition sort_txs (txs : list DecryptedTransaction) : list DecryptedTransaction := stable_sort tx_leb txs.
Definition serial (txs : list DecryptedTransaction) (st : MultiVersionState)
    : MultiVersionState * list ExecutionResult := fold_left execute_next txs (st, []).
Definition commit_results (st : MultiVersionState) (rs : list ExecutionResult) : MultiVersionState :=
  fold_left (fun st r => MultiVersionState_commit_write_set st (er_tx_seq r) (er_write_set r)) rs st.

Definition tx_lt (a b : DecryptedTransaction) : Prop := tx_sequence_number a < tx_sequence_number b.

(** ** Lemmas *)

Context `{!Engine exec}.

(** What the serial run maintains: every reported write is in the store, and
    no result has read stale data. *)
Record serial_inv (st : MultiVersionState) (rs : list ExecutionResult) : Prop := {
  si_sorted : mv_sorted st;
  si_written : forall s key, s ∈ rs -> key ∈ dom (writes (er_write_set s)) ->
    exists v, v ∈ versions (chain_of st key) /\ sv_tx_sequence v = er_tx_seq s /\ sv_status v <> Aborted;
  si_fresh : forall s t, s ∈ rs -> t ∈ rs -> ~ stale s t;
  si_asc : StronglySorted seq_lt rs
}.

Lemma serial_inv_step st rs tx :
  serial_inv st rs -> Forall (fun s => er_tx_seq s < tx_sequence_number tx) rs ->
  let '(st', r) := exec tx st in serial_inv st' (rs ++ [r]).
Proof.
  intros [Hs Hw Hf Ha] Hlt. rewrite Forall_forall in Hlt.
  pose proof (engine_seq tx st) as Eseq. pose proof (engine_sorted tx st Hs) as Hs'.
  pose proof (fun key p => engine_reads tx st key p Hs) as Hr. pose proof (fun key => engine_writes tx st key Hs) as Hwr.
  destruct (exec tx st) as [st' r]. simpl in *.
  assert (Hkeep : forall key v, v ∈ versions (chain_of st key) -> v ∈ versions (chain_of st' key)).
  { intros key v Hv. destruct (Hwr key) as (new & -> & _). apply elem_of_app. auto. }
  split; [done| | |].
  - intros s key Hin Hk. apply elem_of_app in Hin as [Hin|Hin].
    + destruct (Hw s key Hin Hk) as (v & Hv & ? & ?). exists v. auto.
    + apply list_elem_of_singleton in Hin as ->. destruct (Hwr key) as (new & Hp & Hnew & Hne).
      specialize (Hne Hk). destruct new as [|v new]; [done|]. apply Forall_cons in Hnew as [[E1 E2] _].
      exists v. rewrite Hp, Eseq, E2. split; [left|]. done.
  - intros s t Hsin Htin (Hst & key & value & ver & Hread & Hk & Hver).
    apply elem_of_app in Hsin as [Hsin|Hsin], Htin as [Htin|Htin].
    + apply (Hf s t Hsin Htin). split; [done|]. eauto 10.
    + apply list_elem_of_singleton in Htin as ->. destruct (Hw s key Hsin Hk) as (v & Hv & Ev & Hna).
      apply Hr in Hread. assert (Hmax : sv_tx_sequence v <= (MultiVersionState_read st key (tx_sequence_number tx)).2).
      { apply read_version_max; [done..|]. split; [rewrite Ev, <- Eseq; done|done]. }
      rewrite <- Hread in Hmax. simpl in Hmax. lia.
    + apply list_elem_of_singleton in Hsin as ->. specialize (Hlt t Htin). lia.
    + apply list_elem_of_singleton in Hsin as ->, Htin as ->. lia.
  - apply strongly_sorted_app; [done|repeat constructor|]. intros x y Hx Hy.
    apply list_elem_of_singleton in Hy as ->. unfold seq_lt. rewrite Eseq. auto.
Qed.

Lemma serial_inv_fold txs st rs :
  StronglySorted tx_lt txs -> serial_inv st rs ->
  (forall s tx, s ∈ rs -> tx ∈ txs -> er_tx_seq s < tx_sequence_number tx) ->
  let '(st', rs') := fold_left execute_next txs (st, rs) in
  serial_inv st' rs' /\ map er_tx_seq rs' = map er_tx_seq rs ++ map tx_sequence_number txs.
Proof.
  revert st rs. induction txs as [|tx txs IH]; intros st rs Hs Hi Hlt; simpl; [by rewrite app_nil_r|].
  inversion_clear Hs as [|? ? Hs' Htx].
  pose proof (serial_inv_step st rs tx Hi) as Hstep. pose proof (engine_seq tx st) as Eseq.
  destruct (exec tx st) as [st1 r]. simpl in Eseq.
  specialize (IH st1 (rs ++ [r]) Hs'). destruct (fold_left execute_next txs (st1, rs ++ [r])) as [st' rs'].
  destruct IH as [Hi' Em].
  - apply Hstep. apply Forall_forall. intros s Hin. apply Hlt; [done|left].
  - intros s tx' Hin Htx'. apply elem_of_app in Hin as [Hin|Hin]; [apply Hlt; [done|by right]|].
    apply list_elem_of_singleton in Hin as ->. rewrite Forall_forall in Htx. rewrite Eseq. by apply Htx.
  - split; [done|]. rewrite Em, map_app. simpl. by rewrite Eseq, <- app_assoc.
Qed.

(** [HashMap::collect] of values indexed by a number. *)
Lemma index_to_map {A} (f : A -> Z) (l : list A) :
  NoDup (map f l) ->
  fold_left (fun m a => <[f a := a]> m) l (∅ : gmap Z A) = list_to_map (map (fun a => (f a, a)) l).
Proof.
  intros Hnd. transitivity (list_to_map (rev (map (fun a => (f a, a)) l)) : gmap Z A).
  - rewrite <- map_rev, <- fold_left_rev_right. generalize (rev l). intros l'. by induction l' as [|a l' IH]; simpl; [|rewrite IH].
  - apply list_to_map_proper; [|symmetry; apply Permutation_rev].
    rewrite <- Permutation_rev. rewrite <- list_fmap_compose. exact Hnd.
Qed.

Lemma index_lookup {A} (f : A -> Z) (l : list A) a :
  NoDup (map f l) -> a ∈ l -> (list_to_map (map (fun a => (f a, a)) l) : gmap Z A) !! f a = Some a.
Proof.
  intros Hnd Hin. apply elem_of_list_to_map_1; [by rewrite <- list_fmap_compose|].
  apply (list_elem_of_fmap_2 (fun a => (f a, a)) l a Hin).
Qed.

Lemma index_values {A} (f : A -> Z) (l : list A) :
  NoDup (map f l) -> map_to_list (list_to_map (map (fun a => (f a, a)) l) : gmap Z A) ≡ₚ map (fun a => (f a, a)) l.
Proof. intros Hnd. apply map_to_list_to_map. by rewrite <- list_fmap_compose. Qed.

Lemma sort_txs_sorted txs : NoDup (map tx_sequence_number txs) -> StronglySorted tx_lt (sort_txs txs).
Proof.
  intros Hnd. pose proof (stable_sort_sorted tx_leb) as Hs. unfold tx_leb in Hs.
  specialize (Hs ltac:(intros; rewrite !Z.leb_le; lia) ltac:(intros *; rewrite !Z.leb_le; lia) txs).
  rewrite <- (stable_sort_perm tx_leb txs) in Hnd. fold (sort_txs txs) in Hnd. fold tx_leb in Hs. fold (sort_txs txs) in Hs.
  revert Hnd. induction Hs as [|t l Hs IH Ht]; [constructor|]. simpl. intros Hnd.
  apply NoDup_cons in Hnd as [Hni Hnd]. constructor; [auto|]. rewrite Forall_forall in *. intros u Hin.
  specialize (Ht u Hin). apply Z.leb_le in Ht. unfold tx_lt.
  assert (tx_sequence_number t <> tx_sequence_number u); [|lia].
  intros E. apply Hni. rewrite E. by apply list_elem_of_fmap_2.
Qed.

Lemma sorted_keys txs :
  NoDup (map tx_sequence_number txs) ->
  stable_sort Z.leb (map_to_list (list_to_map (map (fun tx => (tx_sequence_number tx, tx)) txs) : gmap Z DecryptedTransaction)).*1 =
    map tx_sequence_number (sort_txs txs).
Proof.
  intros Hnd. apply (sorted_perm_unique (fun a b => (a <=? b) = true)).
  - intros x y _ _ Hx Hy. bool_to_prop. lia.
  - apply stable_sort_sorted; intros *; rewrite !Z.leb_le; lia.
  - pose proof (sort_txs_sorted txs Hnd) as Hs. induction Hs as [|t l Hs IH Ht]; simpl; constructor; [done|].
    apply Forall_fmap. eapply Forall_impl; [exact Ht|]. intros u Hu. apply Z.leb_le. unfold tx_lt in Hu. lia.
  - rewrite stable_sort_perm, index_values by done. rewrite <- list_fmap_compose.
    unfold sort_txs. by rewrite stable_sort_perm.
Qed.

Lemma lookup_sorted_keys txs l :
  NoDup (map tx_sequence_number txs) -> l ⊆ txs ->
  omap (fun seq => (list_to_map (map (fun tx => (tx_sequence_number tx, tx)) txs) : gmap Z DecryptedTransaction) !! seq)
    (map tx_sequence_number l) = l.
Proof.
  intros Hnd. induction l as [|t l IH]; intros Hsub; [done|]. simpl.
  rewrite (index_lookup tx_sequence_number) by (done || (apply Hsub; left)). simpl. f_equal. apply IH. intros u Hu. apply Hsub. by right.
Qed.

Lemma commit_sequences (results : gmap Z ExecutionResult) rs st :
  (forall r, r ∈ rs -> results !! er_tx_seq r = Some r) ->
  fold_left (commit_sequence results) (map er_tx_seq rs) st = commit_results st rs.
Proof.
  revert st. induction rs as [|r rs IH]; intros st Hl; [done|]. simpl.
  unfold commit_sequence at 2. rewrite Hl by left. apply IH. intros r' Hr'. apply Hl. by right.
Qed.

Lemma seq_lt_NoDup rs : StronglySorted seq_lt rs -> NoDup (map er_tx_seq rs).
Proof.
  induction 1 as [|r l Hs IH Hr]; simpl; constructor; [|done].
  intros Hin. apply list_elem_of_fmap in Hin as (s & E & Hin). rewrite Forall_forall in Hr.
  specialize (Hr s Hin). unfold seq_lt in Hr. lia.
Qed.

(** One round over fresh, sorted transactions commits everything. *)
Lemma execute_round_serial txs st :
  NoDup (map tx_sequence_number txs) -> mv_sorted st ->
  execute_round (list_to_map (map (fun tx => (tx_sequence_number tx, tx)) txs)) (map tx_sequence_number (sort_txs txs)) st ∅ =
    (commit_results (serial (sort_txs txs) st).1 (serial (sort_txs txs) st).2,
     list_to_map (map (fun r => (er_tx_seq r, r)) (serial (sort_txs txs) st).2), []) /\
  serial_inv (serial (sort_txs txs) st).1 (serial (sort_txs txs) st).2.
Proof.
  intros Hnd Hs.
  pose proof (serial_inv_fold (sort_txs txs) st [] (sort_txs_sorted txs Hnd)) as Hi. unfold serial.
  destruct (fold_left execute_next (sort_txs txs) (st, [])) as [st1 rs] eqn:E.
  destruct Hi as [Hinv Em].
  { split; [done|..|constructor]; intros s ? Hin; by apply not_elem_of_nil in Hin. }
  { intros s ? Hin. by apply not_elem_of_nil in Hin. }
  cbn [fst snd]. split; [|done]. pose proof (si_asc _ _ Hinv) as Hasc. pose proof (seq_lt_NoDup rs Hasc) as Hndr.
  unfold execute_round, execute_parallel. rewrite lookup_sorted_keys; [|done|].
  2: { intros t Ht. unfold sort_txs in Ht. by rewrite stable_sort_perm in Ht. }
  rewrite E. unfold store_results. rewrite index_to_map by done.
  rewrite (validate_batch_all rs).
  - cbn [vr_committed vr_aborted fold_left]. rewrite commit_sequences; [done|].
    intros r Hr. by apply (index_lookup er_tx_seq).
  - done.
  - unfold values. rewrite index_values by done. by rewrite <- list_fmap_compose, list_fmap_id.
  - apply Hinv.
Qed.

Lemma execute_batch_serial_eq config txs st :
  NoDup (map tx_sequence_number txs) -> mv_sorted st ->
  ParallelExecutor_execute_batch config txs st =
    (commit_results (serial (sort_txs txs) st).1 (serial (sort_txs txs) st).2, (serial (sort_txs txs) st).2).
Proof.
  intros Hnd Hs. destruct txs as [|t0 txs0]; [done|]. set (txs := t0 :: txs0) in *.
  unfold ParallelExecutor_execute_batch. fold txs. change (match txs with [] => _ | _ => ?x end) with x.
  rewrite index_to_map, sorted_keys by done.
  destruct (execute_round_serial txs st Hnd Hs) as [E Hinv].
  assert (Hne : map tx_sequence_number (sort_txs txs) <> []).
  { intros En. apply (f_equal length) in En. rewrite length_map in En. unfold sort_txs in En.
    rewrite (Permutation_length (stable_sort_perm tx_leb txs)) in En. done. }
  cbn [execute_rounds]. destruct (map tx_sequence_number (sort_txs txs)) as [|q qs] eqn:Eq; [done|].
  rewrite E. pose proof (si_asc _ _ Hinv) as Hasc. pose proof (seq_lt_NoDup _ Hasc) as Hndr.
  destruct (max_retries config); cbn [execute_rounds]; f_equal; apply sort_results_unique; try done;
    unfold values; rewrite index_values by done; by rewrite <- list_fmap_compose, list_fmap_id.
Qed.

Lemma serial_live txs st rs :
  mv_sorted st -> mv_live st -> mv_live (fold_left execute_next txs (st, rs)).1.
Proof.
  revert st rs. induction txs as [|tx txs IH]; intros st rs Hs Hl; [done|]. cbn [fold_left]. unfold execute_next at 2.
  pose proof (engine_sorted tx st Hs) as Hs'. pose proof (fun key => engine_writes tx st key Hs) as Hw.
  destruct (exec tx st) as [st' r]. apply IH; [done|]. intros key. destruct (Hw key) as (new & Hp & Hnew & _). simpl in Hp.
  rewrite Hp. apply Forall_app. split; [|apply Hl]. eapply Forall_impl; [exact Hnew|]. by intros v [_ ->].
Qed.
End executor.

(** ** Marking results committed *)

(** The status of the version of a key that readers after a transaction see of
    it: the first one of its number in the chain. *)
Definition newest_status (st : MultiVersionState) (key : StateKey) (q : Z) : option TxStatus :=
  sv_status <$> head (filter (fun v => sv_tx_sequence v = q) (versions (chain_of st key))).

Lemma mark_first_newest q q' l :
  sv_status <$> head (filter (fun v => sv_tx_sequence v = q) (mark_first Committed q' l)) =
    if decide (q' = q) then (fun _ => Committed) <$> head (filter (fun v => sv_tx_sequence v = q) l)
    else sv_status <$> head (filter (fun v => sv_tx_sequence v = q) l).
Proof.
  induction l as [|v l IH]; [by case_decide|]. cbn [mark_first]. destruct (Z.eqb_spec (sv_tx_sequence v) q') as [E|E]; rewrite !filter_cons; simpl.
  - repeat case_decide; try congruence; done.
  - repeat case_decide; try congruence; done.
Qed.

Lemma mark_newest st k q' key q :
  newest_status (MultiVersionState_mark_committed st k q') key q =
    if decide (k = key /\ q' = q) then (fun _ => Committed) <$> newest_status st key q else newest_status st key q.
Proof.
  unfold newest_status, MultiVersionState_mark_committed. rewrite chain_of_update by done. case_bool_decide as E.
  - subst k. simpl. rewrite mark_first_newest. repeat case_decide; try tauto. by destruct (head _).
  - case_decide; tauto.
Qed.

Lemma commit_keys_newest keys st q' key q :
  newest_status (fold_left (fun st key => MultiVersionState_mark_committed st key q') keys st) key q =
    if decide (key ∈ keys /\ q' = q) then (fun _ => Committed) <$> newest_status st key q else newest_status st key q.
Proof.
  revert st. induction keys as [|k keys IH]; intros st; cbn [fold_left].
  { case_decide as Hd; [|done]. by destruct Hd as [?%elem_of_nil _]. }
  rewrite IH, mark_newest. destruct (newest_status st key q); simpl; repeat case_decide; simpl; try done; exfalso; set_solver.
Qed.

(** Afterwards the versions that the results wrote and readers see are
    committed, and every read is as before. *)
Lemma commit_results_newest rs st r key :
  r ∈ rs -> key ∈ dom (writes (er_write_set r)) -> is_Some (newest_status st key (er_tx_seq r)) ->
  newest_status (commit_results st rs) key (er_tx_seq r) = Some Committed.
Proof.
  assert (forall rs st s, newest_status st key s = Some Committed -> newest_status (commit_results st rs) key s = Some Committed) as Hstay.
  { clear. induction rs as [|r rs IH]; intros st s Hs; [done|]. simpl. apply IH. unfold MultiVersionState_commit_write_set.
    rewrite commit_keys_newest, Hs. by case_decide. }
  revert st. induction rs as [|x rs IH]; intros st; [by intros ?%elem_of_nil|]. intros Hin Hk Hs. simpl.
  apply elem_of_cons in Hin as [<-|Hin].
  - apply Hstay. unfold MultiVersionState_commit_write_set. rewrite commit_keys_newest.
    destruct Hs as [s ->]. rewrite decide_True; [done|]. split; [|done]. unfold WriteSet_keys. by apply elem_of_elements.
  - apply IH; [done|done|]. unfold MultiVersionState_commit_write_set. rewrite commit_keys_newest. destruct Hs as [s ->]. case_decide; eauto.
Qed.

Lemma commit_results_reads rs st :
  mv_live st -> mv_live (commit_results st rs) /\
  (forall key r, MultiVersionState_read (commit_results st rs) key r = MultiVersionState_read st key r).
Proof.
  revert st. induction rs as [|r rs IH]; intros st Hl; [done|]. simpl.
  destruct (commit_keys_spec st (er_tx_seq r) (WriteSet_keys (er_write_set r)) Hl) as (Hl' & _ & _ & _ & _ & _ & Hrd).
  fold (MultiVersionState_commit_write_set st (er_tx_seq r) (er_write_set r)) in Hl', Hrd.
  destruct (IH _ Hl') as [H1 H2]. split; [done|]. intros key q. by rewrite H2.
Qed.

(** ** The engine of the code keeps the promise *)

#[global] Instance RytherVm_engine `{Hashes} vm block :
  Engine (fun tx st => RytherVm_execute vm tx st block).
Proof.
  assert (He : forall tx st σ r, execute_inner vm tx block (mkVmState st ReadSet_new WriteSet_new) = (σ, r) ->
    (RytherVm_execute vm tx st block).1 = vs_state σ /\ er_tx_seq (RytherVm_execute vm tx st block).2 = tx_sequence_number tx /\
    er_read_set (RytherVm_execute vm tx st block).2 = vs_reads σ /\ er_write_set (RytherVm_execute vm tx st block).2 = vs_writes σ).
  { intros tx st σ r E. unfold RytherVm_execute. rewrite E. by destruct r. }
  split.
  1: { intros tx st. destruct (execute_inner vm tx block (mkVmState st ReadSet_new WriteSet_new)) as [σ r] eqn:E.
       apply (He tx st σ r E). }
  all: intros tx st; destruct (execute_inner vm tx block (mkVmState st ReadSet_new WriteSet_new)) as [σ r] eqn:E;
    destruct (He tx st σ r E) as (E1 & _ & E2 & E3); cbv beta; rewrite ?E1, ?E2, ?E3.
  all: assert (Hi : mv_sorted st -> vm_inv (tx_sequence_number tx) st σ)
    by (intros Hs; pose proof (execute_inner_safe vm tx block st _ (vm_inv_start (tx_sequence_number tx) st Hs)) as Hi;
        by rewrite E in Hi).
  - intros Hs. apply Hi; done.
  - intros key p Hs Hr. by apply (inv_reads _ _ _ (Hi Hs)).
  - intros key Hs. apply (inv_chain _ _ _ (Hi Hs)).
Qed.

(** ** Properties *)

(** C3: batches are serialisable.  With any engine that keeps the [Engine]
    promise, executing a batch of transactions with distinct sequence numbers
    on a sorted store gives the results of executing them one after the other
    in ascending order, and the store of that serial execution with the write
    sets of all results marked committed: no transaction is aborted or
    re-executed, and neither the order in which the batch arrives nor the retry
    limit changes anything.  If no version was aborted before, every reader
    reads what it would read after the serial execution, and of every key in
    the write set of a result the version that readers see of it is committed
    (a transaction that wrote the key more than once leaves its other versions
    pending, as [mark_committed] marks one). *)
Theorem execute_batch_serializable
    (exec : DecryptedTransaction -> MultiVersionState -> MultiVersionState * ExecutionResult)
    (config config' : ExecutorConfig) (txs txs' : list DecryptedTransaction) (st : MultiVersionState) :
  Engine exec -> NoDup (map tx_sequence_number txs) -> txs' ≡ₚ txs -> mv_sorted st ->
  let '(st1, rs) := serial exec (sort_txs txs) st in
  let '(st2, rs2) := ParallelExecutor_execute_batch exec config txs st in
  ParallelExecutor_execute_batch exec config' txs' st = (st2, rs2) /\ rs2 = rs /\ st2 = commit_results st1 rs /\
  map er_tx_seq rs = map tx_sequence_number (sort_txs txs) /\
  (forall r key, r ∈ rs -> key ∈ dom (writes (er_write_set r)) -> newest_status st2 key (er_tx_seq r) = Some Committed) /\
  (mv_live st -> forall key reader, MultiVersionState_read st2 key reader = MultiVersionState_read st1 key reader).
Proof.
  intros He Hnd Hp Hs. pose proof (execute_batch_serial_eq exec config txs st Hnd Hs) as E1.
  assert (Hnd' : NoDup (map tx_sequence_number txs')) by by rewrite Hp.
  pose proof (execute_batch_serial_eq exec config' txs' st Hnd' Hs) as E2.
  assert (Es : sort_txs txs' = sort_txs txs).
  { apply (sorted_perm_unique tx_lt); [unfold tx_lt; intros; lia|by apply sort_txs_sorted..|].
    unfold sort_txs. by rewrite !stable_sort_perm. }
  rewrite Es in E2. pose proof (fun Hl => serial_live exec (sort_txs txs) st [] Hs Hl) as Hlive.
  pose proof (serial_inv_fold exec (sort_txs txs) st [] (sort_txs_sorted txs Hnd)) as Hi. unfold serial in *.
  destruct (fold_left (execute_next exec) (sort_txs txs) (st, [])) as [st1 rs]. cbn [fst snd] in *. rewrite E1.
  destruct Hi as [Hinv Em].
  { split; [done|..|constructor]; intros s ? Hin; by apply not_elem_of_nil in Hin. }
  { intros s ? Hin. by apply not_elem_of_nil in Hin. }
  split_and!; [done|done|done|done| |intros Hl; apply commit_results_reads; by apply Hlive].
  intros r key Hr Hk. apply commit_results_newest; [done|done|]. destruct (si_written _ _ Hinv r key Hr Hk) as (v & Hv & Hq & _).
  unfold newest_status. destruct (filter _ _) as [|w l] eqn:Ef; [|by eexists].
  exfalso. apply (not_elem_of_nil v). rewrite <- Ef. by apply list_elem_of_filter.
Qed.

(** ** Witnesses *)

#[local] Existing Instance checksum_hashes.

Definition exec_sample := fun tx st => RytherVm_execute vm_sample tx st vm_block.

Definition batch_sample : list DecryptedTransaction :=
  [mkTx alice (Some bob) (U256_from_u64 5) 30000 (U256_from_u64 1) 1 [] [] 9;
   mkTx alice (Some bob) (U256_from_u64 7) 30000 (U256_from_u64 1) 0 [] [] 8].

Lemma execute_batch_serializable_witness :
  map er_status (ParallelExecutor_execute_batch exec_sample (mkConfig 4 0) (rev batch_sample) vm_state).2 =
    [Success; Success].
Proof.
  pose proof (execute_batch_serializable exec_sample (mkConfig 4 0) (mkConfig 4 0) batch_sample (rev batch_sample) vm_state
    (RytherVm_engine vm_sample vm_block) ltac:(apply (bool_decide_eq_true_1 _); vm_compute; reflexivity)
    (symmetry (Permutation_rev batch_sample)) vm_state_sorted) as He.
  destruct (serial exec_sample (sort_txs batch_sample) vm_state) as [st1 rs] eqn:E.
  destruct (ParallelExecutor_execute_batch exec_sample (mkConfig 4 0) batch_sample vm_state) as [st2 rs2].
  destruct He as (-> & -> & _). cbn [snd].
  replace rs with (serial exec_sample (sort_txs batch_sample) vm_state).2 by (rewrite E; reflexivity).
  vm_compute. reflexivity.
Defined.
