(* ===== verification/Ledger.v ===== *)
(** * An account ledger, and what the execution pipeline does to it

    The abstract specification of value transfer: balances and nonces as plain
    integers, one transaction at a time, each step seeing the one before.  The
    pipeline ([ParallelExecutor::execute_batch] over [RytherVm::execute] on
    the multi-version store, then [finalize]) refines it for the transactions
    the engine handles as intended. *)

From S2P Require Import Prelude Types Transaction State Jmt Mvcc Conflict Vm Executor.

Record Ledger := mkLedger {
  balances : gmap Address Z;
  nonces : gmap Address Z
}.

Definition balance (L : Ledger) (a : Address) : Z := default 0 (balances L !! a).
Definition nonce (L : Ledger) (a : Address) : Z := default 0 (nonces L !! a).

Definition credit (a : Address) (x : Z) (L : Ledger) : Ledger :=
  mkLedger (<[a := balance L a + x]> (balances L)) (nonces L).
Definition bump (a : Address) (L : Ledger) : Ledger :=
  mkLedger (balances L) (<[a := nonce L a + 1]> (nonces L)).

(** The money in circulation. *)
Definition supply (L : Ledger) : Z := sumZ (map_to_list (balances L)).*2.

(** The effect a call is meant to have. *)
Definition ledger_call (vm : RytherVm) (block : BlockContext) (tx : DecryptedTransaction) (to : Address) (L : Ledger)
    : Ledger * ExecutionStatus :=
  let value := u256_val (tx_value tx) in
  let price := u256_val (tx_gas_price tx) in
  let gas := call_gas vm tx to in
  if (nonce L (tx_from tx) =? tx_nonce tx) && (value + tx_gas_limit tx * price <=? balance L (tx_from tx)) then
    (credit (bc_coinbase block) (gas * price)
      (credit (tx_from tx) ((tx_gas_limit tx - gas) * price)
        (credit to value
          (bump (tx_from tx)
            (credit (tx_from tx) (- (value + tx_gas_limit tx * price)) L)))), Success)
  else (L, Failure).

Definition ledger_step (vm : RytherVm) (block : BlockContext) (acc : Ledger * list ExecutionStatus)
    (tx : DecryptedTransaction) : Ledger * list ExecutionStatus :=
  match tx_to tx with
  | Some to => let '(L, status) := ledger_call vm block tx to acc.1 in (L, acc.2 ++ [status])
  | None => acc
  end.

Definition ledger_run (vm : RytherVm) (block : BlockContext) (txs : list DecryptedTransaction) (L : Ledger)
    : Ledger * list ExecutionStatus :=
  fold_left (ledger_step vm block) txs (L, []).

(** The transactions the engine handles as intended: calls between distinct
    accounts none of which is the coinbase, with enough gas for the call, and
    amounts of one limb. *)
Record plain_call (vm : RytherVm) (block : BlockContext) (tx : DecryptedTransaction) (to : Address) : Prop := {
  pc_ok : tx_ok tx;
  pc_to : tx_to tx = Some to;
  pc_from_to : tx_from tx <> to;
  pc_from_cb : tx_from tx <> bc_coinbase block;
  pc_to_cb : to <> bc_coinbase block;
  pc_gas : call_gas vm tx to <= tx_gas_limit tx;
  pc_cost : u256_val (tx_value tx) + tx_gas_limit tx * u256_val (tx_gas_price tx) < u64_bound;
  pc_price : u256_val (tx_gas_price tx) < u64_bound;
  pc_nonce : tx_nonce tx < u64_max
}.

(** The state a reader sees agrees with the ledger. *)
Record shows (f : StateKey -> option U256) (L : Ledger) : Prop := {
  sh_balance : forall a, is_u256 (default U256_ZERO (f (balance_key a))) /\
    u256_val (default U256_ZERO (f (balance_key a))) = balance L a;
  sh_nonce : forall a, default 0 (limb0 <$> f (nonce_key a)) = nonce L a
}.

(** ** The ledger itself *)

Lemma balance_credit a x L b : balance (credit a x L) b = balance L b + (if decide (a = b) then x else 0).
Proof.
  unfold balance, credit. simpl. destruct (decide (a = b)) as [->|Hne].
  - rewrite lookup_insert_eq. unfold balance. simpl. lia.
  - rewrite lookup_insert_ne by done. lia.
Qed.

Lemma nonce_credit a x L b : nonce (credit a x L) b = nonce L b.
Proof. done. Qed.

Lemma balance_bump a L b : balance (bump a L) b = balance L b.
Proof. done. Qed.

Lemma nonce_bump a L b : nonce (bump a L) b = nonce L b + (if decide (a = b) then 1 else 0).
Proof.
  unfold nonce, bump. simpl. destruct (decide (a = b)) as [->|Hne].
  - rewrite lookup_insert_eq. unfold nonce. simpl. lia.
  - rewrite lookup_insert_ne by done. lia.
Qed.

Lemma supply_insert (m : gmap Address Z) a x :
  sumZ (map_to_list (<[a := x]> m)).*2 = sumZ (map_to_list m).*2 - default 0 (m !! a) + x.
Proof.
  destruct (m !! a) as [y|] eqn:E; simpl.
  - rewrite <- (insert_delete_id m a y E) at 2. rewrite <- insert_delete_eq.
    rewrite !map_to_list_insert by apply lookup_delete_eq. rewrite !fmap_cons. unfold sumZ. simpl. lia.
  - rewrite map_to_list_insert by done. rewrite fmap_cons. unfold sumZ. simpl. lia.
Qed.

Lemma supply_credit a x L : supply (credit a x L) = supply L + x.
Proof. unfold supply, credit. simpl. rewrite supply_insert. unfold balance. lia. Qed.

Lemma supply_bump a L : supply (bump a L) = supply L.
Proof. done. Qed.

Lemma ledger_call_supply vm block tx to L : supply (ledger_call vm block tx to L).1 = supply L.
Proof.
  unfold ledger_call. destruct (_ && _); [|done]. simpl.
  rewrite !supply_credit, supply_bump, supply_credit. lia.
Qed.

Lemma ledger_run_supply vm block txs L : supply (ledger_run vm block txs L).1 = supply L.
Proof.
  unfold ledger_run. generalize (@nil ExecutionStatus). revert L.
  induction txs as [|tx txs IH]; intros L ss; [done|]. cbn [fold_left].
  unfold ledger_step at 2. destruct (tx_to tx) as [to|]; [|apply IH]. cbn [fst snd].
  pose proof (ledger_call_supply vm block tx to L) as E. destruct (ledger_call vm block tx to L) as [L' status].
  rewrite IH. exact E.
Qed.

Lemma balance_le_supply L a : (forall b, 0 <= balance L b) -> balance L a <= supply L.
Proof.
  intros Hn. unfold balance at 1, supply. destruct (balances L !! a) as [x|] eqn:E; simpl.
  - rewrite <- (insert_delete_id _ _ _ E), map_to_list_insert by apply lookup_delete_eq. rewrite fmap_cons. simpl.
    assert (0 <= sumZ (map_to_list (delete a (balances L))).*2); [|unfold sumZ in *; simpl; lia].
    apply sumZ_nonneg, Forall_fmap, Forall_forall. intros [b y] Hin. simpl.
    apply elem_of_map_to_list in Hin. apply lookup_delete_Some in Hin as [_ Hin].
    specialize (Hn b). unfold balance in Hn. by rewrite Hin in Hn.
  - apply sumZ_nonneg, Forall_fmap, Forall_forall. intros [b y] Hin. simpl.
    apply elem_of_map_to_list in Hin. specialize (Hn b). unfold balance in Hn. by rewrite Hin in Hn.
Qed.

(** ** One transaction *)

Lemma shows_nonneg f L a : shows f L -> 0 <= balance L a.
Proof. intros [Hb _]. destruct (Hb a) as [Hu <-]. pose proof (u256_val_bound _ Hu). lia. Qed.

Lemma shows_bound f L a : shows f L -> supply L < 2 ^ 128 -> balance L a < 2 ^ 128.
Proof. intros Hs Hl. pose proof (balance_le_supply L a (fun b => shows_nonneg f L b Hs)). lia. Qed.

Section step.
Context `{Hashes} (vm : RytherVm) (block : BlockContext) (tx : DecryptedTransaction) (to : Address).
Context (st : MultiVersionState) (L : Ledger).
Hypothesis Hplain : plain_call vm block tx to.
Hypothesis Hshow : shows (view st (tx_sequence_number tx)) L.
Hypothesis Hsupply : supply L < 2 ^ 128.

#[local] Abbreviation s := (tx_sequence_number tx) (only parsing).
#[local] Abbreviation value := (u256_val (tx_value tx)) (only parsing).
#[local] Abbreviation price := (u256_val (tx_gas_price tx)) (only parsing).
#[local] Abbreviation gas := (call_gas vm tx to) (only parsing).

Lemma plain_fits : call_fits vm tx to.
Proof. destruct Hplain. by split. Qed.

Lemma shown_balances a : is_u256 (balance_at st s a) /\ u256_val (balance_at st s a) = balance L a /\ balance L a < 2 ^ 128.
Proof. destruct (sh_balance _ _ Hshow a). split; [done|]. split; [done|]. by apply (shows_bound _ _ a Hshow). Qed.

Lemma funded_iff :
  funded st tx <-> (nonce L (tx_from tx) =? tx_nonce tx) && (value + tx_gas_limit tx * price <=? balance L (tx_from tx)) = true.
Proof.
  destruct (shown_balances (tx_from tx)) as (Hu & Hb & _). rewrite (funded_exact vm tx to st plain_fits Hu), Hb.
  unfold nonce_at. by rewrite (sh_nonce _ _ Hshow).
Qed.

(** The engine's amounts, as numbers of the ledger. *)
Lemma amounts_shown :
  funded st tx ->
  (is_u256 (call_final vm st tx to) /\
   u256_val (call_final vm st tx to) = balance L (tx_from tx) - (value + tx_gas_limit tx * price) + (tx_gas_limit tx - gas) * price) /\
  (is_u256 (call_credited st tx to) /\ u256_val (call_credited st tx to) = balance L to + value) /\
  (is_u256 (call_coinbase vm block st tx to) /\
   u256_val (call_coinbase vm block st tx to) = balance L (bc_coinbase block) + gas * price).
Proof.
  destruct (shown_balances (tx_from tx)) as (_ & <- & _), (shown_balances to) as (_ & <- & _),
    (shown_balances (bc_coinbase block)) as (_ & <- & _).
  apply amounts_exact; [apply plain_fits|]. intros a. destruct (shown_balances a) as (? & -> & ?). done.
Qed.
End step.

Lemma shows_ext f g L : (forall key, f key = g key) -> shows f L -> shows g L.
Proof. intros E [Hb Hn]. split; intros a; rewrite <- E; auto. Qed.

(** One transaction: the engine and the ledger move together. *)
Lemma execute_refines `{Hashes} vm block tx to st L :
  plain_call vm block tx to -> shows (view st (tx_sequence_number tx)) L -> supply L < 2 ^ 128 ->
  mv_sorted st -> mv_live st -> mv_below (tx_sequence_number tx) st ->
  let '(st', res) := RytherVm_execute vm tx st block in
  let '(L', status) := ledger_call vm block tx to L in
  er_status res = status /\ shows (view st' (tx_sequence_number tx + 1)) L' /\
  mv_sorted st' /\ mv_live st' /\ mv_below (tx_sequence_number tx + 1) st'.
Proof.
  intros Hp Hs Hsup Hso Hl Hb. pose proof (funded_iff vm block tx to st L Hp Hs Hsup) as Hf.
  assert (Hva : forall key, view st (tx_sequence_number tx + 1) key = view st (tx_sequence_number tx) key)
    by (intros key; apply view_above; [done|lia]).
  assert (Hd : Decision (funded st tx)) by (unfold funded; apply _). unfold ledger_call. destruct Hd as [Hyes|Hno].
  - rewrite (proj1 Hf Hyes).
    destruct (amounts_shown vm block tx to st L Hp Hs Hsup Hyes) as ((U1 & E1) & (U2 & E2) & (U3 & E3)).
    destruct (execute_call_run vm tx block st to Hso (pc_to _ _ _ _ Hp) Hyes) as (rs & ws & ->).
    pose proof (call_writes_view vm block st tx to) as Hview.
    destruct Hp as [Hok Hto Hft Hfc Htc Hgas Hcost Hpr Hnon]. apply Hf in Hyes. bool_to_prop.
    split; [done|]. split; [|split; [by apply apply_writes_sorted|split; [by apply apply_writes_live|]]].
    2: { apply apply_writes_below; [done|lia|]. by eapply mv_below_mono; [|done]; lia. }
    destruct Hs as [Hsb Hsn]. split; intros a; rewrite Hview by (done || lia); rewrite ?Hva.
    + rewrite !balance_credit, balance_bump, balance_credit. destruct (Hsb a) as [Ua Ea].
      repeat case_decide; destruct_and?; simpl;
        repeat match goal with E : balance_key _ = balance_key _ |- _ => apply balance_key_inj in E end;
        try (exfalso; by apply (balance_nonce_ne a (tx_from tx))); subst; try congruence; try (split; [done|lia]).
      all: try (exfalso; match goal with Hx : balance_key ?x <> balance_key ?x |- _ => by apply Hx end).
      all: destruct (decide (tx_value tx = U256_ZERO)) as [Ev|Ev]; [rewrite Ev; split; [done|]; change (u256_val U256_ZERO) with 0; lia|].
      all: exfalso; tauto.
    + rewrite !nonce_credit, nonce_bump, nonce_credit.
      repeat case_decide; destruct_and?; simpl;
        try (exfalso; by (eapply balance_nonce_ne; symmetry; eassumption)).
      all: repeat match goal with E : nonce_key _ = nonce_key _ |- _ => apply nonce_key_inj in E end; subst; try congruence.
      all: unfold nonce_at; rewrite Hsn.
      all: try (rewrite u64_add_exact; [done|]; destruct Hok as [_ _ _ _ _ Hn _]; unfold u64_max, is_u64 in *; unfold_u64; lia).
      all: try lia; exfalso; match goal with Hx : nonce_key ?x <> nonce_key ?x |- _ => by apply Hx end.
  - destruct (_ && _); [exfalso; by apply Hno, Hf|].
    destruct (execute_rejected vm tx block st Hno) as (e & rs & ws & ->).
    split; [done|]. split; [by apply (shows_ext (view st (tx_sequence_number tx)))|].
    split; [done|]. split; [done|]. by eapply mv_below_mono; [|done]; lia.
Qed.

(** ** A batch *)

Lemma serial_refines `{Hashes} vm block M txs st L rs s0 :
  StronglySorted tx_lt txs -> Forall (fun tx => s0 <= tx_sequence_number tx < M) txs -> s0 <= M ->
  Forall (fun tx => exists to, plain_call vm block tx to) txs ->
  shows (view st s0) L -> supply L < 2 ^ 128 -> mv_sorted st -> mv_live st -> mv_below s0 st ->
  let '(st', rs') := fold_left (execute_next (fun tx st => RytherVm_execute vm tx st block)) txs (st, rs) in
  let '(L', ss') := fold_left (ledger_step vm block) txs (L, map er_status rs) in
  map er_status rs' = ss' /\ shows (view st' M) L' /\ mv_sorted st' /\ mv_live st' /\ mv_below M st'.
Proof.
  revert st L rs s0. induction txs as [|tx txs IH]; intros st L rs s0 Hso Hr HM Hp Hs Hsup Hsr Hl Hb.
  { simpl. split; [done|]. split; [|split; [done|split; [done|by eapply mv_below_mono]]].
    apply (shows_ext (view st s0)); [|done]. intros key. symmetry. by apply view_above. }
  inversion_clear Hso as [|? ? Hso' Htx]. apply Forall_cons in Hr as [Hr0 Hr]. apply Forall_cons in Hp as [[to Hp0] Hp].
  cbn [fold_left]. unfold execute_next at 2, ledger_step at 2. rewrite (pc_to _ _ _ _ Hp0). cbn [fst snd].
  pose proof (execute_refines vm block tx to st L Hp0) as He.
  pose proof (ledger_call_supply vm block tx to L) as Hsup'.
  destruct (RytherVm_execute vm tx st block) as [st1 res]. destruct (ledger_call vm block tx to L) as [L1 status].
  destruct He as (Est & Hs1 & Hsr1 & Hl1 & Hb1); try done.
  { apply (shows_ext (view st s0)); [|done]. intros key. symmetry. apply view_above; [done|lia]. }
  { by eapply mv_below_mono; [|done]; lia. }
  specialize (IH st1 L1 (rs ++ [res]) (tx_sequence_number tx + 1) Hso'). rewrite map_app in IH. simpl in IH.
  rewrite Est in IH. apply IH; try done; [|lia|simpl in Hsup'; lia].
  rewrite Forall_forall in Htx, Hr |- *. intros u Hu. specialize (Htx u Hu). specialize (Hr u Hu). unfold tx_lt in Htx. lia.
Qed.

Lemma mv_fresh st : data st = ∅ ->
  mv_sorted st /\ mv_live st /\ (forall s, mv_below s st) /\ (forall s key, view st s key = base_state st !! key).
Proof.
  intros E. assert (Hc : forall key, chain_of st key = VersionChain_new) by (intros; unfold chain_of; by rewrite E, lookup_empty).
  split; [intros key; rewrite Hc; constructor|]. split; [intros key; rewrite Hc; constructor|].
  split; [intros s key; rewrite Hc; constructor|]. intros s key. unfold view. by rewrite read_chain, Hc.
Qed.

Lemma batch_refines `{HashesOk} (vm : RytherVm) (block : BlockContext) (config : ExecutorConfig)
    (txs : list DecryptedTransaction) (st : MultiVersionState) (L : Ledger) :
  data st = ∅ -> shows (fun key => base_state st !! key) L -> supply L < 2 ^ 128 ->
  NoDup (map tx_sequence_number txs) ->
  Forall (fun tx => tx_sequence_number tx < u64_max /\ exists to, plain_call vm block tx to) txs ->
  let '(st', rs) := ParallelExecutor_execute_batch (fun tx st => RytherVm_execute vm tx st block) config txs st in
  let '(L', statuses) := ledger_run vm block (sort_txs txs) L in
  map er_status rs = statuses /\
  shows (fun key => base_state (MultiVersionState_finalize st') !! key) L' /\
  supply L' = supply L.
Proof.
  intros Hd Hs Hsup Hnd Hp. destruct (mv_fresh st Hd) as (Hso & Hl & Hb & Hv).
  rewrite (execute_batch_serial_eq _ config txs st Hnd Hso).
  pose proof (serial_refines vm block u64_max (sort_txs txs) st L [] 0 (sort_txs_sorted txs Hnd)) as Hr.
  pose proof (ledger_run_supply vm block (sort_txs txs) L) as Hsup'.
  unfold serial, ledger_run in *.
  destruct (fold_left (execute_next _) (sort_txs txs) (st, [])) as [st1 rs].
  change (map er_status []) with (@nil ExecutionStatus) in Hr.
  destruct (fold_left (ledger_step vm block) (sort_txs txs) (L, [])) as [L' ss]. cbn [fst snd].
  assert (Hperm : sort_txs txs ≡ₚ txs) by apply stable_sort_perm.
  destruct Hr as (Est & Hs1 & _ & Hl1 & _); try done.
  - rewrite Hperm. eapply Forall_impl; [exact Hp|]. intros tx [Hlt [to Hpc]].
    pose proof (tx_sequence_ok _ (pc_ok _ _ _ _ Hpc)) as Hq. unfold is_u64 in Hq. lia.
  - rewrite Hperm. eapply Forall_impl; [exact Hp|]. by intros tx [_ ?].
  - eapply shows_ext; [|exact Hs]. intros key. by rewrite Hv.
  - split; [done|]. split; [|done]. eapply shows_ext; [|exact Hs1]. intros key. symmetry.
    unfold MultiVersionState_finalize. rewrite finalize_in_base by done. unfold view. by rewrite (proj2 (commit_results_reads _ _ Hl1)).
Qed.

Lemma shows_balances f L L' :
  (forall a, balance L a = balance L' a) -> (forall a, nonce L a = nonce L' a) -> shows f L -> shows f L'.
Proof. intros Eb En [Hb Hn]. split; intros a; rewrite <- ?Eb, <- ?En; auto. Qed.

(** ** Properties *)

(** C1: the pipeline refines the ledger.  Start from a store without pending
    versions whose base state shows a ledger of less than 2^128 in all, and
    take any batch of plain calls with distinct sequence numbers below
    [u64::MAX].  Executing the batch and finalising leaves a base state that
    shows the ledger after running the same calls one by one in ascending
    order, every result carries the status the ledger gives it, and the supply
    is unchanged. *)
Theorem batch_refines_ledger `{HashesOk} (vm : RytherVm) (block : BlockContext) (config : ExecutorConfig)
    (txs : list DecryptedTransaction) (st : MultiVersionState) (L : Ledger) :
  data st = ∅ -> shows (fun key => base_state st !! key) L -> supply L < 2 ^ 128 ->
  NoDup (map tx_sequence_number txs) ->
  Forall (fun tx => tx_sequence_number tx < u64_max /\ exists to, plain_call vm block tx to) txs ->
  let '(st', rs) := ParallelExecutor_execute_batch (fun tx st => RytherVm_execute vm tx st block) config txs st in
  let '(L', statuses) := ledger_run vm block (sort_txs txs) L in
  map er_status rs = statuses /\
  shows (fun key => base_state (MultiVersionState_finalize st') !! key) L' /\
  supply L' = supply L.
Proof. apply batch_refines. Qed.

(** ** Witnesses *)

#[local] Existing Instance checksum_hashes.
#[local] Existing Instance checksum_hashes_ok.

Definition ledger_sample : Ledger := mkLedger {[alice := 1000000 + 3 * 2 ^ 64]} ∅.

Lemma one_account_shown a u :
  is_u256 u -> shows (fun key => base_state (MultiVersionState_with_base_state [(balance_key a, u)]) !! key) (mkLedger {[a := u256_val u]} ∅).
Proof.
  intros Hu. cbn. split; intros b.
  - unfold balance. cbn [balances]. destruct (decide (a = b)) as [<-|Hne].
    + by rewrite lookup_insert_eq, lookup_singleton_eq.
    + rewrite lookup_insert_ne, lookup_singleton_ne by (done || (intros E; by apply balance_key_inj in E)).
      simpl. split; [apply is_u256_ZERO|reflexivity].
  - rewrite lookup_insert_ne by apply balance_nonce_ne. unfold nonce. simpl. by rewrite lookup_empty.
Qed.

Lemma ledger_sample_shown : shows (fun key => base_state vm_state !! key) ledger_sample.
Proof. apply (one_account_shown alice (mkU256 1000000 3 0 0)). apply is_u256_iff. simpl. u64_lia. Qed.

Lemma plain_sample n q v :
  0 <= n < u64_max -> is_u64 q -> 0 <= v < 1000 ->
  plain_call vm_sample vm_block (mkTx alice (Some bob) (U256_from_u64 v) 30000 (U256_from_u64 1) n [] [] q) bob.
Proof.
  intros Hn Hq Hv. split; simpl; try done; try discriminate.
  - split; simpl; try (by split; [reflexivity|repeat constructor]); try (apply is_u256_from_u64; u64_lia); try u64_lia.
    intros to [= <-]. by split; [reflexivity|repeat constructor].
  - rewrite !u256_val_from_u64. u64_lia.
  - lia.
Qed.

Lemma batch_refines_ledger_witness :
  map er_status (ParallelExecutor_execute_batch exec_sample (mkConfig 4 3) batch_sample vm_state).2 = [Success; Success] /\
  shows (fun key => base_state (MultiVersionState_finalize
    (ParallelExecutor_execute_batch exec_sample (mkConfig 4 3) batch_sample vm_state).1) !! key)
    (ledger_run vm_sample vm_block (sort_txs batch_sample) ledger_sample).1.
Proof.
  pose proof (batch_refines_ledger vm_sample vm_block (mkConfig 4 3) batch_sample vm_state ledger_sample eq_refl
    ledger_sample_shown ltac:(vm_compute; reflexivity) ltac:(apply (bool_decide_eq_true_1 _); vm_compute; reflexivity)) as Hb.
  unfold exec_sample. destruct (ParallelExecutor_execute_batch _ _ _ _) as [st' rs].
  destruct (ledger_run _ _ _ _) as [L' ss] eqn:E. destruct Hb as (Est & Hsh & _).
  - unfold batch_sample.
    repeat (apply Forall_cons; split; [split; [simpl; u64_lia|exists bob; apply plain_sample; u64_lia]|]). constructor.
  - cbn [fst snd]. split; [|exact Hsh]. rewrite Est. change ss with (L', ss).2. rewrite <- E. vm_compute. reflexivity.
Defined.
