(* ===== verification/Dag.v ===== *)
(** * The event DAG: [src/dag/store.rs] *)

From S2P Require Import Prelude Types Transaction Event.

Record DagStore := mkDag {
  events : gmap (list Z) DagEvent;
  by_creator_round : gmap (ValidatorId * Z) (list Z);
  by_round : gmap Z (list EventId);
  latest_by_creator : gmap ValidatorId (list Z);
  dag_max_round : Z
}.

Definition DagStore_new : DagStore := mkDag ∅ ∅ ∅ ∅ 0.
Definition DagStore_default : DagStore := DagStore_new.
Definition DagStore_max_round (d : DagStore) : Z := dag_max_round d.

Definition DagStore_insert (d : DagStore) (event : DagEvent) : DagStore :=
  let id := ev_id event in
  let creator := ev_creator event in
  let round := ev_round event in
  mkDag
    (<[id := event]> (events d))
    (<[(creator, round) := id]> (by_creator_round d))
    (<[round := default [] (by_round d !! round) ++ [id]]> (by_round d))
    (match latest_by_creator d !! creator with
     | Some latest =>
         match events d !! latest with
         | Some existing =>
             if ev_round existing <? round then <[creator := id]> (latest_by_creator d)
             else latest_by_creator d
         | None => latest_by_creator d
         end
     | None => <[creator := id]> (latest_by_creator d)
     end)
    (Z.max (dag_max_round d) round).

Definition DagStore_get (d : DagStore) (id : EventId) : option DagEvent := events d !! id.
Definition DagStore_contains (d : DagStore) (id : EventId) : bool := bool_decide (is_Some (events d !! id)).
Definition DagStore_latest_from (d : DagStore) (creator : ValidatorId) : option EventId :=
  latest_by_creator d !! creator.

Definition DagStore_events_at_round (d : DagStore) (round : Z) : list DagEvent :=
  omap (fun id => events d !! id) (default [] (by_round d !! round)).

Definition DagStore_event_at (d : DagStore) (creator : ValidatorId) (round : Z) : option DagEvent :=
  by_creator_round d !! (creator, round) ≫= fun id => events d !! id.

(** The loop of [can_reach]; [None] is running out of fuel. *)
Fixpoint bfs (fuel : nat) (evs : gmap (list Z) DagEvent) (to : EventId)
    (visited : gset (list Z)) (queue : list EventId) : option bool :=
  match queue with
  | [] => Some false
  | current :: queue =>
      match fuel with
      | O => None
      | S fuel =>
          if bool_decide (current = to) then Some true
          else if bool_decide (current ∈ visited) then bfs fuel evs to visited queue
          else
            let visited := {[current]} ∪ visited in
            let pushed :=
              match evs !! current with
              | Some event => filter (fun parent => parent ∉ visited) (ev_strong_parents event)
              | None => []
              end in
            bfs fuel evs to visited (queue ++ pushed)
      end
  end.

(** Number of parent links in the store. *)
Definition link_count (evs : gmap (list Z) DagEvent) : nat :=
  sum_list_with (fun p : list Z * DagEvent => length (ev_strong_parents p.2)) (map_to_list evs).

Definition DagStore_can_reach (d : DagStore) (from to : EventId) : bool :=
  if bool_decide (from = to) then true
  else default false (bfs (S (link_count (events d))) (events d) to ∅ [from]).

Definition DagStore_len (d : DagStore) : nat := size (events d).
Definition DagStore_is_empty (d : DagStore) : bool := bool_decide (events d = ∅).
Definition DagStore_all_events (d : DagStore) : list DagEvent := (map_to_list (events d)).*2.

(** ** Reachability *)

(** [b] is a strong parent of the stored event [a]. *)
Definition parent_of (evs : gmap (list Z) DagEvent) (a b : EventId) : Prop :=
  exists e, evs !! a = Some e /\ b ∈ ev_strong_parents e.

(** Parent links of the events not visited yet. *)
Definition links_left (evs : gmap (list Z) DagEvent) (visited : gset (list Z)) : nat :=
  sum_list_with (fun p : list Z * DagEvent =>
    if bool_decide (p.1 ∈ visited) then 0%nat else length (ev_strong_parents p.2)) (map_to_list evs).

Lemma sum_list_with_ext {A} (f g : A -> nat) l : (forall x, x ∈ l -> f x = g x) -> sum_list_with f l = sum_list_with g l.
Proof.
  induction l as [|x l IH]; intros E; simpl; [done|]. rewrite (E x) by left. f_equal.
  apply IH. intros y Hy. apply E. by right.
Qed.

Lemma links_left_empty evs : links_left evs ∅ = link_count evs.
Proof. apply sum_list_with_ext. intros p _. by rewrite bool_decide_eq_false_2 by apply not_elem_of_empty. Qed.

Lemma links_left_visit evs visited id :
  id ∉ visited ->
  (links_left evs ({[id]} ∪ visited) + match evs !! id with Some e => length (ev_strong_parents e) | None => 0 end =
   links_left evs visited)%nat.
Proof.
  intros Hni. unfold links_left. destruct (evs !! id) as [e|] eqn:E.
  - rewrite <- (insert_delete_id evs id e E).
    rewrite !map_to_list_insert by apply lookup_delete_eq. simpl.
    rewrite bool_decide_eq_true_2, bool_decide_eq_false_2 by set_solver.
    rewrite Nat.add_0_l, Nat.add_comm. f_equal. apply sum_list_with_ext. intros [i x] Hin. simpl.
    apply elem_of_map_to_list in Hin. apply lookup_delete_Some in Hin as [Hne _].
    by rewrite (bool_decide_ext (i ∈ {[id]} ∪ visited) (i ∈ visited)) by set_solver.
  - rewrite Nat.add_0_r. apply sum_list_with_ext. intros [i x] Hin. simpl. apply elem_of_map_to_list in Hin.
    by rewrite (bool_decide_ext (i ∈ {[id]} ∪ visited) (i ∈ visited)) by set_solver.
Qed.

(** What the search maintains: visited nodes are not the target and have all
    their parents visited or queued; everything seen is reachable. *)
Record bfs_inv (evs : gmap (list Z) DagEvent) (from to : EventId) (visited : gset (list Z)) (queue : list EventId) : Prop := {
  bi_target : to ∉ visited;
  bi_closed : forall a b, a ∈ visited -> parent_of evs a b -> b ∈ visited \/ b ∈ queue;
  bi_reach : forall a, a ∈ visited \/ a ∈ queue -> rtc (parent_of evs) from a;
  bi_start : from ∈ visited \/ from ∈ queue
}.

Lemma bfs_inv_skip evs from to visited current queue :
  bfs_inv evs from to visited (current :: queue) -> current ∈ visited -> bfs_inv evs from to visited queue.
Proof.
  intros [Ht Hc Hr Hs] Hin. split; [done| | |].
  - intros a b Ha Hp. destruct (Hc a b Ha Hp) as [?|Hb]; [auto|].
    apply elem_of_cons in Hb as [->|Hb]; auto.
  - intros a Ha. apply Hr. destruct Ha; [auto|right; by right].
  - destruct Hs as [?|Hs]; [auto|]. apply elem_of_cons in Hs as [->|Hs]; auto.
Qed.

Lemma bfs_inv_visit evs from to visited current queue pushed :
  bfs_inv evs from to visited (current :: queue) -> current <> to ->
  (forall b, b ∈ pushed <-> parent_of evs current b /\ b ∉ {[current]} ∪ visited) ->
  bfs_inv evs from to ({[current]} ∪ visited) (queue ++ pushed).
Proof.
  intros [Ht Hc Hr Hs] Hne Hp. split.
  - set_solver.
  - intros a b Ha Hpar. rewrite elem_of_app. destruct (decide (b ∈ ({[current]} ∪ visited : gset _))) as [?|Hnb]; [auto|right].
    destruct (decide (a = current)) as [->|Hac]; [right; by apply Hp|].
    destruct (Hc a b) as [Hb|Hb]; [set_solver|done|set_solver|]. apply elem_of_cons in Hb as [->|Hb]; [set_solver|auto].
  - intros a Ha. rewrite elem_of_app in Ha. destruct Ha as [Ha|[Ha|Ha]].
    + apply elem_of_union in Ha as [Ha|Ha]; [|auto]. apply elem_of_singleton in Ha as ->. apply Hr. right. left.
    + apply Hr. right. by right.
    + apply Hp in Ha as [Ha _]. eapply rtc_r; [|exact Ha]. apply Hr. right. left.
  - rewrite elem_of_app. destruct Hs as [?|Hs]; [set_solver|]. apply elem_of_cons in Hs as [->|Hs]; [set_solver|auto].
Qed.

Lemma bfs_spec fuel evs from to visited queue :
  bfs_inv evs from to visited queue -> (length queue + links_left evs visited <= fuel)%nat ->
  exists b, bfs fuel evs to visited queue = Some b /\ (b = true <-> rtc (parent_of evs) from to).
Proof.
  revert visited queue. induction fuel as [|fuel IH]; intros visited queue Hi Hf.
  all: destruct queue as [|current queue]; simpl in Hf |- *; try lia.
  1,2: exists false; split; [done|]; split; [done|]; intros Hr; exfalso;
    destruct Hi as [Ht Hc _ Hs]; destruct Hs as [Hs|Hs]; [|by apply not_elem_of_nil in Hs];
    apply Ht; clear -Hr Hc Hs; induction Hr as [|a b c Hab _ IHr]; [done|]; apply IHr;
    destruct (Hc a b Hs Hab) as [?|Hn]; [done|by apply not_elem_of_nil in Hn].
  case_bool_decide as E1.
  { subst. exists true. split; [done|]. split; [|done]. intros _. apply Hi. right. left. }
  case_bool_decide as E2.
  { apply IH; [by eapply bfs_inv_skip|lia]. }
  pose proof (links_left_visit evs visited current E2) as Hl. apply IH.
  - apply (bfs_inv_visit evs from to visited current queue); [done..|]. intros b. unfold parent_of.
    destruct (evs !! current) as [e|].
    + rewrite list_elem_of_filter. split; [intros [? ?]; split; [eauto|done]|intros [(e' & [= <-] & ?) ?]; done].
    + split; [by intros ?%not_elem_of_nil|by intros [(e' & ? & _) _]].
  - rewrite length_app. destruct (evs !! current) as [e|]; [|simpl; lia].
    pose proof (length_filter (fun parent => parent ∉ {[current]} ∪ visited) (ev_strong_parents e)). lia.
Qed.

(** The search from the start ends within the fuel [can_reach] gives it. *)
Lemma bfs_ends d from to fuel :
  (S (link_count (events d)) <= fuel)%nat ->
  exists b, bfs fuel (events d) to ∅ [from] = Some b /\ (b = true <-> rtc (parent_of (events d)) from to).
Proof.
  intros Hf. apply bfs_spec; [|rewrite links_left_empty; simpl; lia].
  split; [apply not_elem_of_empty|set_solver| |right; left].
  intros a [Ha|Ha]; [set_solver|]. apply list_elem_of_singleton in Ha as ->. apply rtc_refl.
Qed.

Lemma can_reach_iff d from to :
  DagStore_can_reach d from to = true <-> rtc (parent_of (events d)) from to.
Proof.
  unfold DagStore_can_reach. case_bool_decide as E; [subst; split; [intros; apply rtc_refl|done]|].
  by destruct (bfs_ends d from to _ (le_n _)) as (b & -> & Hb).
Qed.

(** ** The indexes *)

Definition dag_of (es : list DagEvent) : DagStore := fold_left DagStore_insert es DagStore_new.

(** An id names one event. *)
Definition consistent (es : list DagEvent) : Prop :=
  forall a b, a ∈ es -> b ∈ es -> ev_id a = ev_id b -> a = b.

(** What every index says about the events inserted so far, in order. *)
Record indexes (d : DagStore) (es : list DagEvent) : Prop := {
  ix_events : forall id e, events d !! id = Some e <-> e ∈ es /\ ev_id e = id;
  ix_round : forall r, default [] (by_round d !! r) = map ev_id (filter (fun e => ev_round e = r) es);
  ix_creator_round : forall c r, by_creator_round d !! (c, r) =
    last (map ev_id (filter (fun e => (ev_creator e, ev_round e) = (c, r)) es));
  ix_latest : forall c,
    match latest_by_creator d !! c with
    | Some id => exists e, e ∈ es /\ ev_id e = id /\ ev_creator e = c /\
        forall e', e' ∈ es -> ev_creator e' = c -> ev_round e' <= ev_round e
    | None => forall e, e ∈ es -> ev_creator e <> c
    end;
  ix_max : dag_max_round d = max_or_0 (map ev_round es)
}.

Lemma indexes_new : indexes DagStore_new [].
Proof.
  split; simpl; try done.
  - intros id e. rewrite lookup_empty. split; [done|]. by intros [?%not_elem_of_nil _].
  - intros c. rewrite lookup_empty. by intros e ?%not_elem_of_nil.
Qed.

Lemma max_or_0_app l x : max_or_0 (l ++ [x]) = Z.max (max_or_0 l) x \/ x < 0.
Proof. unfold max_or_0. induction l as [|y l IH]; simpl; lia. Qed.

Lemma filter_snoc {A} (P : A -> Prop) `{forall x, Decision (P x)} l x :
  filter P (l ++ [x]) = filter P l ++ (if decide (P x) then [x] else []).
Proof. rewrite filter_app, filter_cons, filter_nil. by case_decide. Qed.

Lemma latest_insert d es e c :
  indexes d es ->
  match latest_by_creator (DagStore_insert d e) !! c with
  | Some id => exists e0, e0 ∈ es ++ [e] /\ ev_id e0 = id /\ ev_creator e0 = c /\
      forall e', e' ∈ es ++ [e] -> ev_creator e' = c -> ev_round e' <= ev_round e0
  | None => forall e0, e0 ∈ es ++ [e] -> ev_creator e0 <> c
  end.
Proof.
  intros [He _ _ Hl _]. simpl. specialize (Hl c) as Hc. specialize (Hl (ev_creator e)) as Hce.
  assert (Hsn : forall x, x ∈ es ++ [e] -> x ∈ es \/ x = e)
    by (intros x Hx; apply elem_of_app in Hx as [?|?%list_elem_of_singleton]; auto).
  assert (Hold : c <> ev_creator e -> match latest_by_creator d !! c with
    | Some id => exists e0, e0 ∈ es ++ [e] /\ ev_id e0 = id /\ ev_creator e0 = c /\
      forall e', e' ∈ es ++ [e] -> ev_creator e' = c -> ev_round e' <= ev_round e0
    | None => forall e0, e0 ∈ es ++ [e] -> ev_creator e0 <> c end).
  { intros Hne. destruct (latest_by_creator d !! c) as [id|].
    - destruct Hc as (e0 & Hin & Eid & Ec & Hm). exists e0. rewrite elem_of_app. split; [auto|]. do 2 (split; [done|]).
      intros e' [?| ->]%Hsn Ec'; [auto|congruence].
    - intros e0 [?| ->]%Hsn; [auto|congruence]. }
  destruct (latest_by_creator d !! ev_creator e) as [latest|] eqn:El.
  - destruct Hce as (e1 & Hin1 & Eid1 & Ec1 & Hm1). rewrite (proj2 (He latest e1) (conj Hin1 Eid1)).
    destruct (Z.ltb_spec (ev_round e1) (ev_round e)) as [Hlt|Hge].
    + destruct (decide (c = ev_creator e)) as [->|Hne].
      * rewrite lookup_insert_eq. exists e. rewrite elem_of_app. split; [right; left|]. do 2 (split; [done|]).
        intros e' [Hin'| ->]%Hsn Ec'; [|lia]. specialize (Hm1 e' Hin' Ec'). lia.
      * rewrite lookup_insert_ne by done. by apply Hold.
    + destruct (decide (c = ev_creator e)) as [->|Hne]; [|by apply Hold]. rewrite El.
      exists e1. rewrite elem_of_app. split; [auto|]. do 2 (split; [done|]).
      intros e' [Hin'| ->]%Hsn Ec'; [auto|lia].
  - destruct (decide (c = ev_creator e)) as [->|Hne].
    + rewrite lookup_insert_eq. exists e. rewrite elem_of_app. split; [right; left|]. do 2 (split; [done|]).
      intros e' [Hin'| ->]%Hsn Ec'; [|lia]. exfalso. by apply (Hce e').
    + rewrite lookup_insert_ne by done. by apply Hold.
Qed.

Lemma indexes_insert d es e :
  consistent (es ++ [e]) -> 0 <= ev_round e -> indexes d es -> indexes (DagStore_insert d e) (es ++ [e]).
Proof.
  intros Hcons Hr Hi. pose proof (latest_insert d es e) as Hlat. destruct Hi as [He Hrd Hcr Hl Hm]. split.
  - intros id e0. simpl. rewrite elem_of_app. destruct (decide (ev_id e = id)) as [<-|Hne].
    + rewrite lookup_insert_eq. split.
      * intros [= <-]. split; [right; left|done].
      * intros [Hin Eid]. f_equal. apply Hcons; [apply elem_of_app; right; left|apply elem_of_app; done|done].
    + rewrite lookup_insert_ne by done. rewrite He. split; [tauto|].
      intros [[?|Hin] Eid]; [done|]. apply list_elem_of_singleton in Hin as ->. done.
  - intros r. simpl. rewrite filter_snoc. destruct (decide (ev_round e = r)) as [<-|Hne].
    + by rewrite lookup_insert_eq, map_app, <- Hrd.
    + by rewrite lookup_insert_ne, app_nil_r.
  - intros c r. simpl. rewrite filter_snoc. destruct (decide ((ev_creator e, ev_round e) = (c, r))) as [E|Hne].
    + rewrite E, lookup_insert_eq, map_app. simpl. by rewrite last_snoc.
    + rewrite lookup_insert_ne, app_nil_r; auto.
  - intros c. by apply Hlat.
  - simpl. rewrite Hm, map_app. cbn [map]. destruct (max_or_0_app (map ev_round es) (ev_round e)) as [->|?]; [done|lia].
Qed.

Lemma indexes_dag_of es :
  consistent es -> Forall (fun e => 0 <= ev_round e) es -> indexes (dag_of es) es.
Proof.
  induction es as [|e es IH] using rev_ind; intros Hc Hr; [apply indexes_new|].
  unfold dag_of. rewrite fold_left_app. simpl. apply Forall_app in Hr as [Hr He]. apply Forall_cons in He as [He _].
  apply indexes_insert; [done|done|]. apply IH; [|done].
  intros a b Ha Hb. apply Hc; apply elem_of_app; auto.
Qed.

Lemma event_at_last d es c r :
  indexes d es -> DagStore_event_at d c r = last (filter (fun e => (ev_creator e, ev_round e) = (c, r)) es).
Proof.
  intros [He _ Hcr _ _]. unfold DagStore_event_at. rewrite Hcr.
  assert (Hsub : forall x, x ∈ filter (fun e => (ev_creator e, ev_round e) = (c, r)) es -> x ∈ es)
    by (intros x Hx; by apply list_elem_of_filter in Hx as [_ Hx]).
  revert Hsub. generalize (filter (fun e => (ev_creator e, ev_round e) = (c, r)) es). intros l Hsub.
  change (map ev_id l) with (ev_id <$> l). rewrite fmap_last.
  destruct (last l) as [e|] eqn:E; [|done]. simpl. apply He. split; [|done]. apply Hsub. by apply last_Some_elem_of.
Qed.

Lemma events_at_round_filter d es r :
  indexes d es -> DagStore_events_at_round d r = filter (fun e => ev_round e = r) es.
Proof.
  intros [He Hrd _ _ _]. unfold DagStore_events_at_round. rewrite Hrd.
  assert (Hsub : filter (fun e => ev_round e = r) es ⊆ es) by (intros x Hx; by apply list_elem_of_filter in Hx as [_ Hx]).
  revert Hsub. generalize (filter (fun e => ev_round e = r) es). intros l Hsub.
  induction l as [|e l IH]; [done|]. simpl. rewrite (proj2 (He (ev_id e) e)).
  - f_equal. apply IH. intros x Hx. apply Hsub. by right.
  - split; [apply Hsub; left|done].
Qed.

(** ** Properties *)

(** C13: [can_reach] is reachability, and its loop ends.  From every start
    the breadth-first search empties its queue or finds the target within one
    step per parent link of the store plus one, so that no amount of fuel above
    that changes its answer; and [can_reach] is true exactly when the target
    can be reached by following strong parents of stored events, in stores
    with cycles and missing events too. *)
Theorem can_reach_correct (d : DagStore) (from to : EventId) :
  (exists b, (forall fuel, Nat.lt (link_count (events d)) fuel -> bfs fuel (events d) to ∅ [from] = Some b) /\
     DagStore_can_reach d from to = b) /\
  (DagStore_can_reach d from to = true <-> rtc (parent_of (events d)) from to).
Proof.
  split; [|apply can_reach_iff]. exists (DagStore_can_reach d from to). split; [|done]. intros fuel Hf.
  destruct (bfs_ends d from to fuel Hf) as (b & -> & Hb). f_equal. pose proof (can_reach_iff d from to) as Hc.
  destruct b, (DagStore_can_reach d from to); tauto || (exfalso; intuition congruence).
Qed.

(** The indexes answer from the log of inserted events.  After inserting
    events whose ids are unambiguous: lookup by id finds exactly the inserted
    events; a round lists its events in insertion order, repetitions included;
    a creator's event of a round is the last one inserted; the latest event of
    a creator has its highest round; the maximum round is that of the log. *)
Theorem dag_indexes (es : list DagEvent) :
  consistent es -> Forall (fun e => 0 <= ev_round e) es ->
  let d := dag_of es in
  (forall id e, DagStore_get d id = Some e <-> e ∈ es /\ ev_id e = id) /\
  (forall r, DagStore_events_at_round d r = filter (fun e => ev_round e = r) es) /\
  (forall c r, DagStore_event_at d c r = last (filter (fun e => (ev_creator e, ev_round e) = (c, r)) es)) /\
  (forall c id, DagStore_latest_from d c = Some id -> exists e, e ∈ es /\ ev_id e = id /\ ev_creator e = c /\
    forall e', e' ∈ es -> ev_creator e' = c -> ev_round e' <= ev_round e) /\
  (forall c, DagStore_latest_from d c = None -> forall e, e ∈ es -> ev_creator e <> c) /\
  dag_max_round d = max_or_0 (map ev_round es).
Proof.
  intros Hc Hr d. pose proof (indexes_dag_of es Hc Hr) as Hi.
  split; [apply Hi|]. split; [intros; by apply events_at_round_filter|]. split; [intros; by apply event_at_last|].
  split; [|split].
  - intros c id E. pose proof (ix_latest _ _ Hi c) as Hl. unfold DagStore_latest_from in E. fold d in Hl. by rewrite E in Hl.
  - intros c E. pose proof (ix_latest _ _ Hi c) as Hl. unfold DagStore_latest_from in E. fold d in Hl. by rewrite E in Hl.
  - apply Hi.
Qed.

(** ** Witnesses *)

Definition dag_event (id creator round : Z) (parents : list Z) : DagEvent :=
  mkEvent (replicate 32 id) (mkValidatorId (replicate 48 creator)) round round
    (map (fun p => replicate 32 p) parents) [] EncryptedBatch_empty BlsSignature_default.

Definition dag_sample : list DagEvent :=
  [dag_event 1 1 1 []; dag_event 2 2 1 []; dag_event 3 1 2 [1; 2]; dag_event 4 2 2 [2]].

Definition consistent_check (es : list DagEvent) : bool :=
  forallb (fun a => forallb (fun b => negb (bool_decide (ev_id a = ev_id b)) || bool_decide (a = b)) es) es.

Lemma consistent_by_check es : consistent_check es = true -> consistent es.
Proof.
  unfold consistent_check. rewrite forallb_forall. intros Hc a b Ha Hb E.
  apply list_elem_of_In in Ha, Hb. specialize (Hc a Ha). rewrite forallb_forall in Hc. specialize (Hc b Hb).
  apply orb_true_iff in Hc as [Hc|Hc]; bool_to_prop; done.
Qed.

Lemma dag_indexes_witness :
  DagStore_event_at (dag_of dag_sample) (mkValidatorId (replicate 48 1)) 2 = Some (dag_event 3 1 2 [1; 2]) /\
  dag_max_round (dag_of dag_sample) = 2.
Proof.
  destruct (dag_indexes dag_sample) as (_ & _ & Hat & _ & _ & Hm).
  - apply consistent_by_check. vm_compute. reflexivity.
  - repeat constructor; simpl; lia.
  - split; [rewrite Hat; vm_compute; reflexivity|rewrite Hm; reflexivity].
Defined.
