(* ===== verification/Consensus.v ===== *)
(** * Consensus: [src/consensus/leader.rs] and [src/consensus/commit.rs]

    Stake-weighted leader election and the commit rule over the DAG. *)

From S2P Require Import Prelude Types Transaction Event Validator Dag.

(** ** Leader election *)

(** [sort_by_key(|(id, _)| id.0)]. *)
Definition validator_leb (a b : ValidatorId * Z) : bool := lex_leb (validator_0 a.1) (validator_0 b.1).
Definition sort_validators (l : list (ValidatorId * Z)) : list (ValidatorId * Z) := stable_sort validator_leb l.

(** The cumulative selection loop. *)
Fixpoint select_leader (validators : list (ValidatorId * Z)) (cumulative target : Z) : option ValidatorId :=
  match validators with
  | [] => None
  | (validator_id, stake) :: validators =>
      let cumulative := cumulative ⊞ stake in
      if target <? cumulative then Some validator_id else select_leader validators cumulative target
  end.

(** The election when the validator map yields its entries in the order given.
    A non-empty set of total stake 0, on which the source divides by zero,
    does not satisfy the set's invariant. *)
Definition elect_leader_in `{Hashes} (order : list (ValidatorId * Z)) (validator_set : ValidatorSet)
    (round : Z) (seed : bytes) : option ValidatorId :=
  if ValidatorSet_is_empty validator_set then None
  else
    let validators := sort_validators order in
    let hash := sha256 (le_bytes 8 round ++ seed) in
    let random_value := of_le_bytes (take 8 hash) in
    let target := random_value mod vs_total_stake validator_set in
    select_leader validators 0 target.

Definition elect_leader `{Hashes} (validator_set : ValidatorSet) (round : Z) (seed : bytes) : option ValidatorId :=
  elect_leader_in (ValidatorSet_iter validator_set) validator_set round seed.

Definition derive_next_seed `{Hashes} (anchor_id : bytes) : bytes := sha256 anchor_id.

(** ** Commit detection *)

Record CommitDetector := mkDetector {
  cd_validator_set : ValidatorSet;
  cd_last_committed : Z;
  cd_seed : bytes
}.

Definition CommitDetector_last_committed (d : CommitDetector) : Z := cd_last_committed d.
Definition CommitDetector_current_seed (d : CommitDetector) : bytes := cd_seed d.

Record CommitResult := mkCommit {
  cr_round : Z;
  cr_anchor_id : EventId;
  cr_leader : ValidatorId;
  cr_support_round : Z
}.

Definition CommitDetector_new (validator_set : ValidatorSet) (initial_seed : bytes) : CommitDetector :=
  mkDetector validator_set 0 initial_seed.

(** The creators of events of a round that reach the anchor. *)
Definition supporters (dag : DagStore) (anchor : EventId) (future_round : Z) : gset ValidatorId :=
  fold_left (fun s event => if DagStore_can_reach dag (ev_id event) anchor then {[ev_creator event]} ∪ s else s)
    (DagStore_events_at_round dag future_round) ∅.

Definition CommitDetector_check_quorum_support (c : CommitDetector) (dag : DagStore) (anchor : EventId)
    (future_round : Z) : option Z :=
  if ValidatorSet_has_quorum (cd_validator_set c) (supporters dag anchor future_round)
  then Some future_round else None.

Fixpoint first_support (c : CommitDetector) (dag : DagStore) (anchor : EventId) (rounds : list Z) : option Z :=
  match rounds with
  | [] => None
  | future_round :: rounds =>
      match CommitDetector_check_quorum_support c dag anchor future_round with
      | Some support_round => Some support_round
      | None => first_support c dag anchor rounds
      end
  end.

Definition CommitDetector_check_commit `{Hashes} (c : CommitDetector) (dag : DagStore) (round : Z)
    : option CommitResult :=
  if round <=? cd_last_committed c then None
  else
    leader ← elect_leader (cd_validator_set c) round (cd_seed c);
    anchor ← DagStore_event_at dag leader round;
    let anchor_id := ev_id anchor in
    support_round ← first_support c dag anchor_id (range_incl (round ⊞ 1) (dag_max_round dag));
    Some (mkCommit round anchor_id leader support_round).

Definition CommitDetector_confirm_commit `{Hashes} (c : CommitDetector) (round : Z) (anchor_id : EventId)
    : CommitDetector :=
  if cd_last_committed c <? round then mkDetector (cd_validator_set c) round (sha256 anchor_id) else c.

(** The loop of [try_advance]; each pass but the last commits one more round
    up to [max_round], so [fuel] passes are enough. *)
Fixpoint advance_loop `{Hashes} (fuel : nat) (c : CommitDetector) (dag : DagStore) (round : Z)
    : CommitDetector * list CommitResult :=
  match fuel with
  | O => (c, [])
  | S fuel =>
      if round <=? dag_max_round dag then
        match CommitDetector_check_commit c dag round with
        | Some result =>
            let c := CommitDetector_confirm_commit c (cr_round result) (cr_anchor_id result) in
            let '(c, commits) := advance_loop fuel c dag (round ⊞ 1) in
            (c, result :: commits)
        | None => (c, [])
        end
      else (c, [])
  end.

Definition CommitDetector_try_advance `{Hashes} (c : CommitDetector) (dag : DagStore)
    : CommitDetector * list CommitResult :=
  advance_loop (S (Z.to_nat (dag_max_round dag - cd_last_committed c))) c dag (cd_last_committed c ⊞ 1).

(** ** Leader lemmas *)

Lemma validator_leb_total a b : validator_leb a b = true \/ validator_leb b a = true.
Proof. apply lex_leb_total. Qed.

Lemma validator_leb_trans a b c : validator_leb a b = true -> validator_leb b c = true -> validator_leb a c = true.
Proof. apply lex_leb_trans. Qed.

Lemma NoDup_fst_unique {A B} (l : list (A * B)) k x y : NoDup l.*1 -> (k, x) ∈ l -> (k, y) ∈ l -> x = y.
Proof.
  intros Hnd Hx Hy. apply list_elem_of_lookup in Hx as [i Hx], Hy as [j Hy].
  assert (i = j) as ->; [|congruence].
  eapply NoDup_lookup; [exact Hnd|..]; by rewrite list_lookup_fmap, ?Hx, ?Hy.
Qed.

Lemma sort_validators_perm l1 l2 :
  NoDup l1.*1 -> l1 ≡ₚ l2 -> sort_validators l1 = sort_validators l2.
Proof.
  intros Hnd Hp. apply (sorted_perm_unique (fun a b => validator_leb a b = true)).
  - intros [i x] [j y] Hx Hy H1 H2. unfold validator_leb in *. simpl in *.
    assert (validator_0 i = validator_0 j) by by apply lex_leb_antisym.
    destruct i as [i], j as [j]. simpl in *. subst j. f_equal.
    unfold sort_validators in Hx, Hy. rewrite stable_sort_perm in Hx, Hy.
    by eapply NoDup_fst_unique.
  - apply stable_sort_sorted; [apply validator_leb_total|apply validator_leb_trans].
  - apply stable_sort_sorted; [apply validator_leb_total|apply validator_leb_trans].
  - unfold sort_validators. by rewrite !stable_sort_perm.
Qed.

Definition stakes (l : list (ValidatorId * Z)) : Z := sumZ l.*2.

Lemma stakes_nonneg l : Forall (fun p => 0 < p.2) l -> 0 <= stakes l.
Proof. intros Hl. apply sumZ_nonneg, Forall_fmap. eapply Forall_impl; [exact Hl|]. simpl. lia. Qed.

Lemma select_leader_elem l cum t :
  Forall (fun p => 0 < p.2) l -> 0 <= cum -> cum + stakes l < u64_bound -> cum <= t < cum + stakes l ->
  exists id, select_leader l cum t = Some id /\ id ∈ l.*1.
Proof.
  revert cum. induction l as [|[id x] l IH]; intros cum Hl Hc Hb Ht; [unfold stakes, sumZ in Ht; simpl in Ht; lia|].
  apply Forall_cons in Hl as [Hx Hl]. pose proof (stakes_nonneg l Hl) as Hn. simpl in Hx.
  change (stakes ((id, x) :: l)) with (x + stakes l) in *. cbn [select_leader].
  rewrite u64_add_exact by (unfold is_u64; lia). destruct (Z.ltb_spec t (cum + x)).
  - exists id. split; [done|left].
  - destruct (IH (cum + x) Hl) as (id' & E & Hin); try lia. exists id'. split; [done|by right].
Qed.

(** Each validator is selected for exactly as many targets as it has stake. *)
Lemma select_leader_count l cum id :
  Forall (fun p => 0 < p.2) l -> NoDup l.*1 -> 0 <= cum -> cum + stakes l < u64_bound ->
  Z.of_nat (length (filter (fun t => select_leader l cum t = Some id) (seqZ cum (stakes l)))) =
    default 0 ((list_to_map l : gmap ValidatorId Z) !! id).
Proof.
  revert cum. induction l as [|[v x] l IH]; intros cum Hl Hnd Hc Hb; [done|].
  apply Forall_cons in Hl as [Hx Hl]. pose proof (stakes_nonneg l Hl) as Hn. simpl in Hx.
  rewrite fmap_cons in Hnd. apply NoDup_cons in Hnd as [Hni Hnd].
  change (stakes ((v, x) :: l)) with (x + stakes l) in *.
  assert (Hx1 : filter (fun t => select_leader ((v, x) :: l) cum t = Some id) (seqZ cum x) =
    if decide (v = id) then seqZ cum x else []).
  { assert (Hs : Forall (fun t => select_leader ((v, x) :: l) cum t = Some v) (seqZ cum x)).
    { apply Forall_seqZ. intros t Ht. cbn [select_leader]. rewrite u64_add_exact by (unfold is_u64; lia).
      destruct (Z.ltb_spec t (cum + x)); [done|lia]. }
    induction Hs as [|t ts Ht Hs IHs]; [by case_decide|]. rewrite filter_cons, Ht, IHs.
    repeat case_decide; congruence. }
  assert (Hx2 : filter (fun t => select_leader ((v, x) :: l) cum t = Some id) (seqZ (cum + x) (stakes l)) =
    filter (fun t => select_leader l (cum + x) t = Some id) (seqZ (cum + x) (stakes l))).
  { assert (Hs : Forall (fun t => select_leader ((v, x) :: l) cum t = select_leader l (cum + x) t) (seqZ (cum + x) (stakes l))).
    { apply Forall_seqZ. intros t Ht. cbn [select_leader]. rewrite u64_add_exact by (unfold is_u64; lia).
      destruct (Z.ltb_spec t (cum + x)); [lia|done]. }
    induction Hs as [|t ts Ht Hs IHs]; [done|]. rewrite !filter_cons, Ht, IHs. done. }
  rewrite seqZ_app, filter_app, Hx1, Hx2, length_app, Nat2Z.inj_add, IH by (done || lia).
  simpl. destruct (decide (v = id)) as [->|Hne].
  - rewrite lookup_insert_eq, not_elem_of_list_to_map_1 by done. simpl. rewrite length_seqZ. lia.
  - rewrite lookup_insert_ne by done. simpl. lia.
Qed.

(** ** The entries of a valid set *)

Section set.
Context (s : ValidatorSet) (Hok : vs_ok s).

Lemma iter_fst : (ValidatorSet_iter s).*1 = (map_to_list (vs_validators s)).*1.
Proof.
  unfold ValidatorSet_iter. generalize (map_to_list (vs_validators s)). intros l.
  induction l as [|[i d] l IH]; simpl; [done|]. by f_equal.
Qed.

Lemma iter_NoDup : NoDup (ValidatorSet_iter s).*1.
Proof. rewrite iter_fst. apply NoDup_fst_map_to_list. Qed.

Lemma iter_elem id x : (id, x) ∈ ValidatorSet_iter s <-> ValidatorSet_stake s id = Some x.
Proof.
  unfold ValidatorSet_iter, ValidatorSet_stake. rewrite list_elem_of_fmap. split.
  - intros ([i d] & [= -> ->] & Hin). apply elem_of_map_to_list in Hin. by rewrite Hin.
  - destruct (vs_validators s !! id) as [d|] eqn:E; [|done]. intros [= <-]. exists (id, d).
    split; [done|]. by apply elem_of_map_to_list.
Qed.

Lemma iter_positive : Forall (fun p => 0 < p.2) (ValidatorSet_iter s).
Proof.
  apply Forall_forall. intros [id x] Hin. apply iter_elem in Hin. unfold ValidatorSet_stake in Hin.
  destruct (vs_validators s !! id) as [d|] eqn:E; [|done]. injection Hin as <-. exact (vs_positive s Hok id d E).
Qed.

Lemma iter_stakes : stakes (ValidatorSet_iter s) = vs_total_stake s.
Proof.
  rewrite (vs_total s Hok). unfold weight, stakes.
  assert (Hp : elements (dom (vs_validators s)) ≡ₚ (ValidatorSet_iter s).*1).
  { apply NoDup_Permutation; [apply NoDup_elements|apply iter_NoDup|]. intros id.
    rewrite elem_of_elements, elem_of_dom, iter_fst, list_elem_of_fmap. split.
    - intros [d Hd]. exists (id, d). split; [done|]. by apply elem_of_map_to_list.
    - intros ([i d] & -> & Hin). exists d. by apply elem_of_map_to_list in Hin. }
  rewrite (Permutation_map (stake_or_0 s) Hp). f_equal.
  assert (Hall : Forall (fun p => stake_or_0 s p.1 = p.2) (ValidatorSet_iter s)).
  { apply Forall_forall. intros [id x] Hin. apply iter_elem in Hin. unfold stake_or_0. cbn [fst snd]. by rewrite Hin. }
  symmetry. change (stake_or_0 s <$> (ValidatorSet_iter s).*1 = (ValidatorSet_iter s).*2). rewrite <- list_fmap_compose.
  apply list_fmap_ext. intros i p Hi. rewrite Forall_lookup in Hall. exact (Hall i p Hi).
Qed.

Lemma sorted_iter : exists l, sort_validators (ValidatorSet_iter s) = l /\ l ≡ₚ ValidatorSet_iter s /\
  Forall (fun p => 0 < p.2) l /\ NoDup l.*1 /\ stakes l = vs_total_stake s.
Proof.
  exists (sort_validators (ValidatorSet_iter s)).
  assert (Hp : sort_validators (ValidatorSet_iter s) ≡ₚ ValidatorSet_iter s) by apply stable_sort_perm.
  split; [done|]. split; [done|]. split; [apply (Forall_Permutation _ _ (fun _ => iff_refl _) _ _ Hp), iter_positive|].
  split; [rewrite Hp; apply iter_NoDup|]. rewrite <- iter_stakes. unfold stakes. by rewrite Hp.
Qed.

Lemma total_positive : ValidatorSet_is_empty s = false -> 0 < vs_total_stake s.
Proof.
  intros Hne. unfold ValidatorSet_is_empty in Hne. bool_to_prop.
  apply map_choose in Hne as (id & d & Hd). rewrite <- iter_stakes.
  assert (Hin : (id, vd_stake d) ∈ ValidatorSet_iter s) by (apply iter_elem; unfold ValidatorSet_stake; by rewrite Hd).
  apply list_elem_of_split in Hin as (l1 & l2 & E). pose proof iter_positive as Hp. rewrite E in Hp |- *.
  apply Forall_app in Hp as [H1 H2]. apply Forall_cons in H2 as [Hx H2]. simpl in Hx.
  pose proof (stakes_nonneg l1 H1). pose proof (stakes_nonneg l2 H2). unfold stakes in *.
  rewrite fmap_app, fmap_cons, sumZ_app. unfold sumZ in *. simpl. lia.
Qed.
End set.

(** ** Properties of the election *)

(** C25: leader election.  For a valid, non-empty validator set some member is
    elected; the result does not depend on the order in which the validator
    map is iterated, so all nodes agree; and over the range of the random
    target each validator is elected for exactly as many values as it has
    stake. *)
Theorem leader_election `{Hashes} (s : ValidatorSet) (round : Z) (seed : bytes) :
  vs_ok s -> ValidatorSet_is_empty s = false ->
  (exists leader, elect_leader s round seed = Some leader /\ ValidatorSet_contains s leader = true) /\
  (forall order, order ≡ₚ ValidatorSet_iter s -> elect_leader_in order s round seed = elect_leader s round seed) /\
  (forall id, Z.of_nat (length (filter (fun t => select_leader (sort_validators (ValidatorSet_iter s)) 0 t = Some id)
      (seqZ 0 (vs_total_stake s)))) = default 0 (ValidatorSet_stake s id)).
Proof.
  intros Hok Hne. pose proof (total_positive s Hok Hne) as Ht. pose proof (vs_fits s Hok) as Hf.
  destruct (sorted_iter s Hok) as (l & El & Hp & Hpos & Hnd & Hst). split; [|split].
  - unfold elect_leader, elect_leader_in. rewrite Hne, El.
    destruct (select_leader_elem l 0 (of_le_bytes (take 8 (sha256 (le_bytes 8 round ++ seed))) mod vs_total_stake s))
      as (id & E & Hin); [done|lia|lia|rewrite Hst; apply Z.mod_pos_bound; lia|].
    exists id. split; [done|]. unfold ValidatorSet_contains. apply bool_decide_eq_true.
    rewrite Hp, iter_fst in Hin. apply list_elem_of_fmap in Hin as ([i d] & -> & Hin). exists d.
    by apply elem_of_map_to_list in Hin.
  - intros order Ho. unfold elect_leader, elect_leader_in. rewrite Hne.
    by rewrite (sort_validators_perm order _ ltac:(rewrite Ho; apply iter_NoDup) Ho).
  - intros id. rewrite El, <- Hst, select_leader_count by (done || lia).
    destruct (ValidatorSet_stake s id) as [x|] eqn:E.
    + apply iter_elem in E. rewrite <- Hp in E. by rewrite (elem_of_list_to_map_1 l id x Hnd E).
    + rewrite not_elem_of_list_to_map_1; [done|]. intros Hin. apply list_elem_of_fmap in Hin as ([i x] & -> & Hin).
      rewrite Hp in Hin. apply iter_elem in Hin. simpl in *. congruence.
Qed.

(** ** Commit lemmas *)

Lemma supporters_elem dag anchor r v :
  v ∈ supporters dag anchor r <->
  exists e, e ∈ DagStore_events_at_round dag r /\ ev_creator e = v /\ rtc (parent_of (events dag)) (ev_id e) anchor.
Proof.
  unfold supporters.
  assert (Hf : forall es (S : gset ValidatorId), v ∈ fold_left (fun s event =>
      if DagStore_can_reach dag (ev_id event) anchor then {[ev_creator event]} ∪ s else s) es S <->
    v ∈ S \/ exists e, e ∈ es /\ ev_creator e = v /\ DagStore_can_reach dag (ev_id e) anchor = true).
  { induction es as [|e es IH]; intros S; simpl.
    - split; [auto|]. intros [?|(e & He & _)]; [done|by apply not_elem_of_nil in He].
    - rewrite IH. destruct (DagStore_can_reach dag (ev_id e) anchor) eqn:E.
      + rewrite elem_of_union, elem_of_singleton. split.
        * intros [[->|?]|(e' & He' & ? & ?)]; [right; exists e; repeat split; auto; left|auto|right; exists e'; repeat split; auto; by right].
        * intros [?|(e' & He' & ? & ?)]; [auto|]. apply elem_of_cons in He' as [->|He']; [auto|]. right. eauto.
      + split.
        * intros [?|(e' & He' & ? & ?)]; [auto|right; exists e'; repeat split; auto; by right].
        * intros [?|(e' & He' & ? & ?)]; [auto|]. apply elem_of_cons in He' as [->|He']; [congruence|]. right. eauto. }
  rewrite Hf. split.
  - intros [?%elem_of_empty|(e & He & Hv & Hr)]; [done|]. exists e. by rewrite <- can_reach_iff.
  - intros (e & He & Hv & Hr). right. exists e. by rewrite can_reach_iff.
Qed.

Lemma first_support_spec c dag anchor rounds :
  match first_support c dag anchor rounds with
  | Some r => r ∈ rounds /\ ValidatorSet_has_quorum (cd_validator_set c) (supporters dag anchor r) = true
  | None => forall r, r ∈ rounds -> ValidatorSet_has_quorum (cd_validator_set c) (supporters dag anchor r) = false
  end.
Proof.
  induction rounds as [|r rounds IH]; simpl; [by intros r ?%not_elem_of_nil|].
  unfold CommitDetector_check_quorum_support.
  destruct (ValidatorSet_has_quorum (cd_validator_set c) (supporters dag anchor r)) eqn:E; [split; [left|done]|].
  destruct (first_support c dag anchor rounds) as [r'|].
  - destruct IH. split; [by right|done].
  - intros r' [->|Hr']%elem_of_cons; auto.
Qed.

Lemma elem_of_range a b x : x ∈ range_incl a b <-> a <= x <= b.
Proof. unfold range_incl. rewrite elem_of_seqZ. lia. Qed.

(** The search over a range finds the first round with a quorum. *)
Lemma first_support_least c dag anchor a b r r' :
  first_support c dag anchor (range_incl a b) = Some r -> a <= r' < r ->
  ValidatorSet_has_quorum (cd_validator_set c) (supporters dag anchor r') = false.
Proof.
  unfold range_incl. remember (b - a + 1) as n eqn:E. clear E b. intros Hf Hr.
  destruct (Z.le_gt_cases n 0) as [Hn|Hn]; [by rewrite seqZ_nil in Hf by lia|].
  rewrite <- (Z2Nat.id n) in Hf by lia. revert a Hf Hr. induction (Z.to_nat n) as [|k IH]; intros a; [done|].
  rewrite seqZ_cons by lia. cbn [first_support]. unfold CommitDetector_check_quorum_support.
  destruct (ValidatorSet_has_quorum (cd_validator_set c) (supporters dag anchor a)) eqn:Eq; [intros [= <-]; lia|].
  replace (Z.pred (Z.of_nat (S k))) with (Z.of_nat k) by lia. intros Hf Hr.
  destruct (decide (r' = a)) as [->|]; [done|]. apply (IH (Z.succ a)); [done|lia].
Qed.

Section detector.
Context `{Hashes}.

(** What a commit certifies. *)
Record committed (c : CommitDetector) (dag : DagStore) (round : Z) (r : CommitResult) : Prop := {
  cm_new : cd_last_committed c < round;
  cm_round : cr_round r = round;
  cm_leader : elect_leader (cd_validator_set c) round (cd_seed c) = Some (cr_leader r);
  cm_anchor : ev_id <$> DagStore_event_at dag (cr_leader r) round = Some (cr_anchor_id r);
  cm_future : round < cr_support_round r <= dag_max_round dag;
  cm_quorum : ValidatorSet_has_quorum (cd_validator_set c) (supporters dag (cr_anchor_id r) (cr_support_round r)) = true
}.

Lemma check_commit_Some c dag round r :
  0 <= round < u64_max -> CommitDetector_check_commit c dag round = Some r -> committed c dag round r.
Proof.
  intros Hr. unfold CommitDetector_check_commit. destruct (round <=? cd_last_committed c) eqn:El; [done|]. bool_to_prop.
  intros Hc. apply bind_Some in Hc as (leader & Eleader & Hc). apply bind_Some in Hc as (anchor & Ea & Hc).
  apply bind_Some in Hc as (sup & Es & Hc). injection Hc as <-.
  pose proof (first_support_spec c dag (ev_id anchor) (range_incl (round ⊞ 1) (dag_max_round dag))) as Hs.
  rewrite Es in Hs. destruct Hs as [Hin Hq]. rewrite elem_of_range, u64_add_exact in Hin by u64_lia.
  split; simpl; try done; [by rewrite Ea|lia].
Qed.

Lemma check_commit_None c dag round leader anchor :
  0 <= round < u64_max -> CommitDetector_check_commit c dag round = None ->
  cd_last_committed c < round -> elect_leader (cd_validator_set c) round (cd_seed c) = Some leader ->
  DagStore_event_at dag leader round = Some anchor ->
  forall r, round < r <= dag_max_round dag ->
    ValidatorSet_has_quorum (cd_validator_set c) (supporters dag (ev_id anchor) r) = false.
Proof.
  intros Hr. unfold CommitDetector_check_commit. intros Hc Hlt El Ea r Hrr.
  rewrite (proj2 (Z.leb_gt _ _)), El in Hc by lia. simpl in Hc. rewrite Ea in Hc. simpl in Hc.
  pose proof (first_support_spec c dag (ev_id anchor) (range_incl (round ⊞ 1) (dag_max_round dag))) as Hs.
  destruct (first_support _ _ _ _); [done|]. apply Hs. rewrite elem_of_range, u64_add_exact by u64_lia. lia.
Qed.

(** Committing round after round. *)
Inductive advances (dag : DagStore) : CommitDetector -> list CommitResult -> CommitDetector -> Prop :=
| adv_nil c : advances dag c [] c
| adv_cons c r rs c' :
    cd_last_committed c + 1 <= dag_max_round dag ->
    CommitDetector_check_commit c dag (cd_last_committed c + 1) = Some r ->
    advances dag (mkDetector (cd_validator_set c) (cd_last_committed c + 1) (sha256 (cr_anchor_id r))) rs c' ->
    advances dag c (r :: rs) c'.

Lemma advance_loop_spec fuel c dag :
  0 <= cd_last_committed c -> dag_max_round dag < u64_max ->
  (Z.to_nat (dag_max_round dag - cd_last_committed c) < fuel)%nat ->
  let '(c', rs) := advance_loop fuel c dag (cd_last_committed c + 1) in
  advances dag c rs c' /\
  (dag_max_round dag <= cd_last_committed c' \/ CommitDetector_check_commit c' dag (cd_last_committed c' + 1) = None).
Proof.
  revert c. induction fuel as [|fuel IH]; intros c Hl Hm Hf; [lia|]. cbn [advance_loop].
  destruct (cd_last_committed c + 1 <=? dag_max_round dag) eqn:E; bool_to_prop.
  2: { split; [constructor|left; lia]. }
  destruct (CommitDetector_check_commit c dag (cd_last_committed c + 1)) as [r|] eqn:Ec.
  2: { split; [constructor|auto]. }
  pose proof (check_commit_Some c dag (cd_last_committed c + 1) r ltac:(lia) Ec) as [_ Hr _ _ _ _].
  unfold CommitDetector_confirm_commit. rewrite Hr, (proj2 (Z.ltb_lt _ _)) by lia.
  set (c1 := mkDetector (cd_validator_set c) (cd_last_committed c + 1) (sha256 (cr_anchor_id r))).
  specialize (IH c1 ltac:(simpl; lia) Hm ltac:(simpl; lia)). rewrite u64_add_exact by u64_lia.
  change (cd_last_committed c + 1 + 1) with (cd_last_committed c1 + 1).
  destruct (advance_loop fuel c1 dag (cd_last_committed c1 + 1)) as [c' rs]. destruct IH as [Ha Hs].
  split; [by econstructor|done].
Qed.

Lemma try_advance_spec c dag :
  0 <= cd_last_committed c -> dag_max_round dag < u64_max -> cd_last_committed c < u64_max ->
  let '(c', rs) := CommitDetector_try_advance c dag in
  advances dag c rs c' /\
  (dag_max_round dag <= cd_last_committed c' \/ CommitDetector_check_commit c' dag (cd_last_committed c' + 1) = None).
Proof.
  intros Hl Hm Hl'. unfold CommitDetector_try_advance. rewrite u64_add_exact by u64_lia.
  apply advance_loop_spec; [done..|lia].
Qed.

Lemma advances_rounds dag c rs c' :
  0 <= cd_last_committed c -> dag_max_round dag < u64_max -> advances dag c rs c' ->
  cd_validator_set c' = cd_validator_set c /\
  cd_last_committed c' = cd_last_committed c + Z.of_nat (length rs) /\
  map cr_round rs = seqZ (cd_last_committed c + 1) (Z.of_nat (length rs)) /\
  cd_seed c' = default (cd_seed c) (sha256 <$> last (map cr_anchor_id rs)).
Proof.
  intros Hl Hm Ha. induction Ha as [c|c r rs c' Hle Hc Ha IH]; [simpl; repeat split; lia|].
  pose proof (check_commit_Some c dag (cd_last_committed c + 1) r ltac:(lia) Hc) as [_ Hr _ _ _ _].
  destruct IH as (E1 & E2 & E3 & E4); [simpl; lia|]. simpl in E1, E2, E3, E4.
  split; [done|]. split; [cbn [length]; lia|]. split.
  - cbn [map length]. rewrite Hr, E3. rewrite (seqZ_cons _ (Z.of_nat (S (length rs)))) by lia. f_equal. f_equal; lia.
  - cbn [map]. rewrite E4. destruct (map cr_anchor_id rs) as [|x l]; [done|]. rewrite last_cons_cons.
    by destruct (last (x :: l)) eqn:El; [|apply last_None in El].
Qed.
End detector.

(** What two observers have to agree on about a commit. *)
Definition commit_key (r : CommitResult) : Z * EventId * ValidatorId := (cr_round r, cr_anchor_id r, cr_leader r).

(** No creator has two different events in one round, across the two stores. *)
Definition no_equivocation (d1 d2 : DagStore) : Prop :=
  forall v r e1 e2, DagStore_event_at d1 v r = Some e1 -> DagStore_event_at d2 v r = Some e2 -> ev_id e1 = ev_id e2.

Lemma commit_same_key `{Hashes} c d1 d2 round r1 r2 :
  0 <= round < u64_max -> no_equivocation d1 d2 ->
  CommitDetector_check_commit c d1 round = Some r1 -> CommitDetector_check_commit c d2 round = Some r2 ->
  commit_key r1 = commit_key r2.
Proof.
  intros Hr Hne H1 H2. apply check_commit_Some in H1 as [_ R1 L1 A1 _ _]; [|done].
  apply check_commit_Some in H2 as [_ R2 L2 A2 _ _]; [|done].
  unfold commit_key. rewrite L1 in L2. injection L2 as L2. rewrite R1, R2, <- L2 in *. f_equal. f_equal.
  destruct (DagStore_event_at d1 (cr_leader r1) round) as [e1|] eqn:E1; [|done].
  destruct (DagStore_event_at d2 (cr_leader r1) round) as [e2|] eqn:E2; [|done].
  injection A1 as <-. injection A2 as <-. by eapply Hne.
Qed.

Lemma advances_agree `{Hashes} d1 d2 c rs1 rs2 c1 c2 :
  0 <= cd_last_committed c -> dag_max_round d1 < u64_max -> no_equivocation d1 d2 ->
  advances d1 c rs1 c1 -> advances d2 c rs2 c2 ->
  map commit_key rs1 `prefix_of` map commit_key rs2 \/ map commit_key rs2 `prefix_of` map commit_key rs1.
Proof.
  intros Hl Hm Hne Ha. revert rs2 c2. induction Ha as [c|c r rs c' Hle Hc Ha IH]; intros rs2 c2 Hb.
  { left. apply prefix_nil. }
  inversion Hb as [|c0 r2 rs2' c2' Hle2 Hc2 Hb']; subst; [right; apply prefix_nil|].
  pose proof (commit_same_key c d1 d2 (cd_last_committed c + 1) r r2 ltac:(lia) Hne Hc Hc2) as Ek.
  assert (Ea : cr_anchor_id r = cr_anchor_id r2) by (unfold commit_key in Ek; congruence). rewrite <- Ea in Hb'.
  cbn [map]. rewrite Ek. destruct (IH ltac:(simpl; lia) rs2' c2 Hb') as [Hp|Hp]; [left|right]; by apply prefix_cons.
Qed.

(** ** Properties of commit detection *)

(** Validators holding more than two thirds of the stake have events of the
    round from which the anchor is reachable over strong parents. *)
Definition supported (vs : ValidatorSet) (dag : DagStore) (anchor : EventId) (r : Z) : Prop :=
  exists X : gset ValidatorId, 2 * vs_total_stake vs < 3 * weight vs X /\
    forall v, v ∈ X -> exists e, e ∈ DagStore_events_at_round dag r /\ ev_creator e = v /\
      rtc (parent_of (events dag)) (ev_id e) anchor.

Lemma supported_iff vs dag anchor r :
  vs_ok vs -> 2 * vs_total_stake vs < u64_bound ->
  supported vs dag anchor r <-> ValidatorSet_has_quorum vs (supporters dag anchor r) = true.
Proof.
  intros Hok H2. rewrite has_quorum_iff by done. split.
  - intros (X & Hw & HX). assert (X ⊆ supporters dag anchor r) as Hs by (intros v Hv; by apply supporters_elem, HX).
    pose proof (weight_mono vs Hok _ _ Hs). lia.
  - intros Hw. exists (supporters dag anchor r). split; [done|]. intros v. apply supporters_elem.
Qed.

(** C8: the commit rule.  [check_commit] returns a commit exactly when the
    round is new, its elected leader has an event in it, and some later round
    of the store supports that event: validators holding more than two thirds
    of the stake have events in that round from which the anchor is reachable
    over strong parents.  The commit names the round, the leader, its event
    and the first round that supports it. *)
Theorem check_commit_rule `{Hashes} (c : CommitDetector) (dag : DagStore) (round : Z) (res : CommitResult) :
  0 <= round < u64_max -> vs_ok (cd_validator_set c) -> 2 * vs_total_stake (cd_validator_set c) < u64_bound ->
  CommitDetector_check_commit c dag round = Some res <->
  cd_last_committed c < round /\
  exists leader anchor r, elect_leader (cd_validator_set c) round (cd_seed c) = Some leader /\
    DagStore_event_at dag leader round = Some anchor /\ round < r <= dag_max_round dag /\
    supported (cd_validator_set c) dag (ev_id anchor) r /\
    (forall r', round < r' < r -> ~ supported (cd_validator_set c) dag (ev_id anchor) r') /\
    res = mkCommit round (ev_id anchor) leader r.
Proof.
  intros Hr Hok H2. unfold CommitDetector_check_commit. destruct (round <=? cd_last_committed c) eqn:El; bool_to_prop.
  { split; [done|]. intros [? _]. lia. }
  split.
  - intros Hc. split; [done|]. apply bind_Some in Hc as (leader & Eleader & Hc). apply bind_Some in Hc as (anchor & Ea & Hc).
    apply bind_Some in Hc as (r & Es & [= <-]). exists leader, anchor, r.
    pose proof (first_support_spec c dag (ev_id anchor) (range_incl (round ⊞ 1) (dag_max_round dag))) as Hs.
    rewrite Es in Hs. destruct Hs as [Hin Hq]. rewrite elem_of_range in Hin. rewrite u64_add_exact in Es, Hin by u64_lia.
    split_and!; [done|done|lia|lia|by apply supported_iff| |done].
    intros r' Hr' Hs'%supported_iff; [|done..]. by rewrite (first_support_least c dag (ev_id anchor) (round + 1) (dag_max_round dag) r r' Es ltac:(lia)) in Hs'.
  - intros (_ & leader & anchor & r & -> & Ea & Hrr & Hs & Hleast & ->). simpl. rewrite Ea. simpl.
    rewrite u64_add_exact by u64_lia.
    pose proof (first_support_spec c dag (ev_id anchor) (range_incl (round + 1) (dag_max_round dag))) as Hf.
    destruct (first_support _ _ _ _) as [q|] eqn:Es; simpl.
    + destruct Hf as [Hin Hq]. rewrite elem_of_range in Hin. apply supported_iff in Hs; [|done..].
      destruct (Z.lt_trichotomy q r) as [Hlt|[->|Hgt]]; [|done|].
      * destruct (Hleast q); [lia|]. by apply supported_iff.
      * by rewrite (first_support_least c dag (ev_id anchor) (round + 1) (dag_max_round dag) q r Es ltac:(lia)) in Hs.
    + apply supported_iff in Hs; [|done..]. by rewrite Hf in Hs by (rewrite elem_of_range; lia).
Qed.

(** [try_advance] commits consecutive rounds.  It leaves the validator set
    alone, commits the rounds following the last committed one without gaps,
    moves the last committed round to the last of them, derives the seed from
    its anchor, and stops only at the end of the store or at a round that
    cannot be committed yet. *)
Theorem try_advance_consecutive `{Hashes} (c : CommitDetector) (dag : DagStore) :
  0 <= cd_last_committed c < u64_max -> dag_max_round dag < u64_max ->
  let '(c', commits) := CommitDetector_try_advance c dag in
  cd_validator_set c' = cd_validator_set c /\
  cd_last_committed c' = cd_last_committed c + Z.of_nat (length commits) /\
  map cr_round commits = seqZ (cd_last_committed c + 1) (Z.of_nat (length commits)) /\
  cd_seed c' = default (cd_seed c) (derive_next_seed <$> last (map cr_anchor_id commits)) /\
  (dag_max_round dag <= cd_last_committed c' \/
   CommitDetector_check_commit c' dag (cd_last_committed c' + 1) = None).
Proof.
  intros Hl Hm. pose proof (try_advance_spec c dag) as Ht.
  destruct (CommitDetector_try_advance c dag) as [c' rs]. destruct Ht as [Ha Hs]; [lia..|].
  destruct (advances_rounds dag c rs c') as (E1 & E2 & E3 & E4); [lia|done|done|]. done.
Qed.

(** C6: agreement.  Two nodes that start from the same detector state and
    advance on their own views of the DAG, in which no creator has two
    different events for one round, commit the same rounds with the same
    anchors and leaders, up to one being further ahead. *)
Theorem commit_agreement `{Hashes} (c : CommitDetector) (d1 d2 : DagStore) :
  0 <= cd_last_committed c < u64_max -> dag_max_round d1 < u64_max -> dag_max_round d2 < u64_max ->
  no_equivocation d1 d2 ->
  let rs1 := (CommitDetector_try_advance c d1).2 in
  let rs2 := (CommitDetector_try_advance c d2).2 in
  map commit_key rs1 `prefix_of` map commit_key rs2 \/ map commit_key rs2 `prefix_of` map commit_key rs1.
Proof.
  intros Hl H1 H2 Hne. pose proof (try_advance_spec c d1) as A1. pose proof (try_advance_spec c d2) as A2.
  destruct (CommitDetector_try_advance c d1) as [c1 rs1], (CommitDetector_try_advance c d2) as [c2 rs2].
  destruct A1 as [A1 _]; [lia..|]. destruct A2 as [A2 _]; [lia..|].
  eapply advances_agree; [|exact H1|exact Hne|exact A1|exact A2]. lia.
Qed.

(** A silent leader stops the chain.  While the leader elected for the next
    round has no event in it, [try_advance] commits nothing and changes
    nothing, however far the rest of the DAG has grown; there is no rule for
    skipping a round. *)
Theorem silent_leader_blocks `{Hashes} (c : CommitDetector) (dag : DagStore) (leader : ValidatorId) :
  0 <= cd_last_committed c < u64_max ->
  elect_leader (cd_validator_set c) (cd_last_committed c + 1) (cd_seed c) = Some leader ->
  DagStore_event_at dag leader (cd_last_committed c + 1) = None ->
  CommitDetector_try_advance c dag = (c, []).
Proof.
  intros Hl Hel Hev. unfold CommitDetector_try_advance. rewrite u64_add_exact by u64_lia.
  cbn [advance_loop]. destruct (_ <=? dag_max_round dag); [|done].
  unfold CommitDetector_check_commit. destruct (_ <=? cd_last_committed c); [done|].
  rewrite Hel. simpl. by rewrite Hev.
Qed.

(** A supported anchor of the elected leader is committed. *)
Lemma check_commit_supported `{Hashes} c dag round leader anchor r :
  0 <= round < u64_max -> vs_ok (cd_validator_set c) -> 2 * vs_total_stake (cd_validator_set c) < u64_bound ->
  cd_last_committed c < round -> elect_leader (cd_validator_set c) round (cd_seed c) = Some leader ->
  DagStore_event_at dag leader round = Some anchor -> round < r <= dag_max_round dag ->
  supported (cd_validator_set c) dag (ev_id anchor) r ->
  exists s, CommitDetector_check_commit c dag round = Some (mkCommit round (ev_id anchor) leader s).
Proof.
  intros Hr Hok H2 Hn Hl Ha Hrr Hs. destruct (CommitDetector_check_commit c dag round) as [res|] eqn:E.
  - exists (cr_support_round res). apply check_commit_Some in E as [_ Er El Ea _ _]; [|done].
    rewrite Hl in El. injection El as El. rewrite <- El, Ha in Ea. injection Ea as Ea. destruct res; simpl in *. congruence.
  - apply supported_iff in Hs; [|done..]. by rewrite (check_commit_None c dag round leader anchor Hr E Hn Hl Ha r Hrr) in Hs.
Qed.

(** Stores filled with the same events in different orders differ in their
    indexes only. *)
Lemma dag_of_perm es es' :
  consistent es -> Forall (fun e => 0 <= ev_round e) es -> es' ≡ₚ es ->
  indexes (dag_of es') es' /\ events (dag_of es') = events (dag_of es) /\
  dag_max_round (dag_of es') = dag_max_round (dag_of es) /\
  (forall vs anchor r, supported vs (dag_of es) anchor r -> supported vs (dag_of es') anchor r).
Proof.
  intros Hc Hr Hp. pose proof (indexes_dag_of es Hc Hr) as Hi.
  assert (indexes (dag_of es') es') as Hi'.
  { apply indexes_dag_of; [|by rewrite Hp]. intros a b Ha Hb. rewrite Hp in Ha, Hb. by apply Hc. }
  assert (events (dag_of es') = events (dag_of es)) as Ee.
  { apply map_eq. intros id. apply option_eq. intros e. rewrite (ix_events _ _ Hi), (ix_events _ _ Hi'). by rewrite Hp. }
  split_and!; [done|done| |].
  - rewrite (ix_max _ _ Hi), (ix_max _ _ Hi'). apply max_or_0_perm. by rewrite Hp.
  - intros vs anchor r (X & Hw & HX). exists X. split; [done|]. intros v Hv. destruct (HX v Hv) as (e & He & Ev & Hreach).
    exists e. rewrite Ee. split; [|done]. rewrite (events_at_round_filter _ _ _ Hi) in He. rewrite (events_at_round_filter _ _ _ Hi').
    by rewrite Hp.
Qed.

(** C38: an equivocating leader splits the nodes.  Take any two nodes that have
    received the same events, in orders in which a different one of the two
    events that the elected leader made for a round came last.  If later
    rounds support both events, as they do when honest validators refer to
    whatever they have received, both nodes commit the round, one with each
    event, although their stores hold the same events. *)
Theorem equivocation_splits `{Hashes} (c : CommitDetector) (es es' : list DagEvent) (e e' : DagEvent) (r r' : Z) :
  consistent es -> Forall (fun x => 0 <= ev_round x < u64_max) es -> es' ≡ₚ es ->
  vs_ok (cd_validator_set c) -> 2 * vs_total_stake (cd_validator_set c) < u64_bound ->
  cd_last_committed c < ev_round e -> elect_leader (cd_validator_set c) (ev_round e) (cd_seed c) = Some (ev_creator e) ->
  ev_creator e' = ev_creator e -> ev_round e' = ev_round e -> ev_id e' <> ev_id e ->
  last (filter (fun x => (ev_creator x, ev_round x) = (ev_creator e, ev_round e)) es) = Some e ->
  last (filter (fun x => (ev_creator x, ev_round x) = (ev_creator e, ev_round e)) es') = Some e' ->
  ev_round e < r <= dag_max_round (dag_of es) -> supported (cd_validator_set c) (dag_of es) (ev_id e) r ->
  ev_round e < r' <= dag_max_round (dag_of es) -> supported (cd_validator_set c) (dag_of es) (ev_id e') r' ->
  (forall id, DagStore_get (dag_of es') id = DagStore_get (dag_of es) id) /\
  exists res res', CommitDetector_check_commit c (dag_of es) (ev_round e) = Some res /\
    CommitDetector_check_commit c (dag_of es') (ev_round e) = Some res' /\
    cr_round res = cr_round res' /\ cr_leader res = cr_leader res' /\ cr_anchor_id res <> cr_anchor_id res'.
Proof.
  intros Hc Hr Hp Hok H2 Hn Hl Ec Er Hid Hlast Hlast' Hrr Hs Hrr' Hs'.
  assert (Forall (fun x => 0 <= ev_round x) es) as Hr0 by (eapply Forall_impl; [exact Hr|]; simpl; lia).
  destruct (dag_of_perm es es' Hc Hr0 Hp) as (Hi' & Ee & Em & Hsup). pose proof (indexes_dag_of es Hc Hr0) as Hi.
  assert (0 <= ev_round e < u64_max) as He.
  { apply last_Some_elem_of, list_elem_of_filter in Hlast as [_ Hin]. rewrite Forall_forall in Hr. by apply Hr. }
  rewrite <- (event_at_last _ _ _ _ Hi) in Hlast. rewrite <- (event_at_last _ _ _ _ Hi') in Hlast'.
  split; [intros id; unfold DagStore_get; by rewrite Ee|].
  destruct (check_commit_supported c (dag_of es) (ev_round e) _ e r He Hok H2 Hn Hl Hlast Hrr Hs) as (s & E).
  rewrite <- Em in Hrr'. apply Hsup in Hs'.
  destruct (check_commit_supported c (dag_of es') (ev_round e) _ e' r' He Hok H2 Hn Hl Hlast' Hrr' Hs') as (s' & E').
  eexists _, _. split; [exact E|]. split; [exact E'|]. by split_and!.
Qed.

(** ** Witnesses *)

#[local] Existing Instance checksum_hashes.

Definition four : list (ValidatorId * Z * Address) :=
  map (fun i => (mkValidatorId (replicate 48 i), 25, Address_zero)) [1; 2; 3; 4].
Definition four_set : ValidatorSet := ValidatorSet_from_validators four.

Lemma four_set_ok : vs_ok four_set.
Proof. apply vs_ok_from_validators; [repeat constructor; lia|vm_compute; reflexivity]. Qed.

Lemma leader_election_witness :
  exists leader, elect_leader four_set 1 (replicate 32 0) = Some leader /\ ValidatorSet_contains four_set leader = true.
Proof. apply (leader_election four_set 1 (replicate 32 0)); [apply four_set_ok|vm_compute; reflexivity]. Defined.

(** The seed byte of the first leader, so that the samples can be built around it. *)
Definition leader_byte : Z :=
  match elect_leader four_set 1 (replicate 32 0) with Some v => nth 0 (validator_0 v) 0 | None => 0 end.

Definition detector : CommitDetector := CommitDetector_new four_set (replicate 32 0).

(** The leader's anchor in round 1, and three supporters in round 2. *)
Definition rounds_sample : list DagEvent :=
  [dag_event 10 leader_byte 1 []; dag_event 11 1 2 [10]; dag_event 12 2 2 [10]; dag_event 13 3 2 [10]].

Lemma supported_by_check dag anchor r :
  ValidatorSet_has_quorum four_set (supporters dag anchor r) = true -> supported four_set dag anchor r.
Proof. apply supported_iff; [apply four_set_ok|vm_compute; reflexivity]. Qed.

Lemma check_commit_rule_witness :
  CommitDetector_check_commit detector (dag_of rounds_sample) 1 =
    Some (mkCommit 1 (replicate 32 10) (mkValidatorId (replicate 48 leader_byte)) 2).
Proof.
  apply (check_commit_rule detector (dag_of rounds_sample) 1); [u64_lia|apply four_set_ok|vm_compute; reflexivity|].
  split; [reflexivity|]. exists (mkValidatorId (replicate 48 leader_byte)), (dag_event 10 leader_byte 1 []), 2.
  split; [vm_compute; reflexivity|]. split; [vm_compute; reflexivity|]. split; [vm_compute; split; [reflexivity|discriminate]|].
  split; [apply supported_by_check; vm_compute; reflexivity|]. split; [intros r' Hr'; lia|reflexivity].
Defined.

Lemma try_advance_consecutive_witness :
  map cr_round (CommitDetector_try_advance detector (dag_of rounds_sample)).2 = [1].
Proof.
  pose proof (try_advance_consecutive detector (dag_of rounds_sample) ltac:(vm_compute; split; [discriminate|reflexivity])
    ltac:(vm_compute; reflexivity)) as Ht.
  destruct (CommitDetector_try_advance _ _) as [c' rs] eqn:E. destruct Ht as (_ & _ & Hr & _). cbn [snd]. rewrite Hr.
  change rs with (c', rs).2. rewrite <- E. vm_compute. reflexivity.
Defined.

Lemma commit_agreement_witness :
  map commit_key (CommitDetector_try_advance detector (dag_of rounds_sample)).2 `prefix_of`
    map commit_key (CommitDetector_try_advance detector (dag_of (take 2 rounds_sample))).2 \/
  map commit_key (CommitDetector_try_advance detector (dag_of (take 2 rounds_sample))).2 `prefix_of`
    map commit_key (CommitDetector_try_advance detector (dag_of rounds_sample)).2.
Proof.
  apply (commit_agreement detector (dag_of rounds_sample) (dag_of (take 2 rounds_sample))).
  - vm_compute; split; [discriminate|reflexivity].
  - vm_compute; reflexivity.
  - vm_compute; reflexivity.
  - assert (H1 : indexes (dag_of rounds_sample) rounds_sample)
      by (apply indexes_dag_of; [apply consistent_by_check; vm_compute; reflexivity|repeat constructor; simpl; lia]).
    assert (H2 : indexes (dag_of (take 2 rounds_sample)) (take 2 rounds_sample))
      by (apply indexes_dag_of; [apply consistent_by_check; vm_compute; reflexivity|repeat constructor; simpl; lia]).
    intros v r e1 e2. rewrite (event_at_last _ _ v r H1), (event_at_last _ _ v r H2). intros E1 E2.
    apply last_Some_elem_of, list_elem_of_filter in E1 as [[= <- <-] E1].
    apply last_Some_elem_of, list_elem_of_filter in E2 as [[= Ec Er] E2].
    revert Ec Er. unfold rounds_sample in E1, E2. simpl in E2.
    repeat (apply elem_of_cons in E1 as [->|E1]); try by apply not_elem_of_nil in E1.
    all: repeat (apply elem_of_cons in E2 as [->|E2]); try by apply not_elem_of_nil in E2.
    all: vm_compute; congruence.
Defined.

Lemma silent_leader_blocks_witness :
  CommitDetector_try_advance detector (dag_of (drop 1 rounds_sample)) = (detector, []).
Proof.
  apply (silent_leader_blocks detector (dag_of (drop 1 rounds_sample)) (mkValidatorId (replicate 48 leader_byte))).
  - vm_compute; split; [discriminate|reflexivity].
  - vm_compute. reflexivity.
  - vm_compute. reflexivity.
Defined.

(** The leader signs two events for round 1; everybody's round 2 refers to both. *)
Definition equivocation : list DagEvent :=
  [dag_event 10 leader_byte 1 []; dag_event 20 leader_byte 1 [];
   dag_event 11 1 2 [10; 20]; dag_event 12 2 2 [10; 20]; dag_event 13 3 2 [10; 20]].
Definition equivocation_swapped : list DagEvent :=
  [dag_event 20 leader_byte 1 []; dag_event 10 leader_byte 1 [];
   dag_event 11 1 2 [10; 20]; dag_event 12 2 2 [10; 20]; dag_event 13 3 2 [10; 20]].

Lemma equivocation_splits_witness :
  exists res res', CommitDetector_check_commit detector (dag_of equivocation) 1 = Some res /\
    CommitDetector_check_commit detector (dag_of equivocation_swapped) 1 = Some res' /\ cr_anchor_id res <> cr_anchor_id res'.
Proof.
  destruct (equivocation_splits detector equivocation equivocation_swapped (dag_event 20 leader_byte 1 []) (dag_event 10 leader_byte 1 []) 2 2)
    as (_ & res & res' & E & E' & _ & _ & Hne).
  - apply consistent_by_check. vm_compute. reflexivity.
  - repeat constructor; simpl; u64_lia.
  - apply Permutation_swap.
  - apply four_set_ok.
  - vm_compute. reflexivity.
  - reflexivity.
  - vm_compute. reflexivity.
  - reflexivity.
  - reflexivity.
  - discriminate.
  - vm_compute. reflexivity.
  - vm_compute. reflexivity.
  - vm_compute. split; [reflexivity|discriminate].
  - apply supported_by_check. vm_compute. reflexivity.
  - vm_compute. split; [reflexivity|discriminate].
  - apply supported_by_check. vm_compute. reflexivity.
  - exists res, res'. split; [exact E|]. split; [exact E'|exact Hne].
Defined.
