(* ===== verification/Threshold.v ===== *)
(** * Threshold encryption: [src/crypto/threshold.rs]

    Secret sharing, the XOR stream cipher with its commitment check, and the
    key-generation session.  The random generators are parameters: the values
    they produce are arguments of the operations that draw them. *)

From S2P Require Import Prelude Types.

Record SecretShare := mkShare {
  sh_index : Z;
  sh_value : bytes;
  sh_holder : ValidatorId
}.

Record ThresholdParams := mkParams {
  total_shares : Z;
  threshold : Z
}.

Definition ThresholdParams_new (total thr : Z) : string + ThresholdParams :=
  if thr =? 0 then inl "Threshold must be at least 1"%string
  else if total <? thr then inl "Threshold cannot exceed total shares"%string
  else inr (mkParams total thr).

(** [(validator_count * 2 / 3) + 1] in [u32]. *)
Definition ThresholdParams_bft_safe (validator_count : Z) : ThresholdParams :=
  mkParams validator_count (((validator_count * 2) mod u32_bound / 3 + 1) mod u32_bound).

(** ** Field arithmetic *)

Definition zero32 : bytes := replicate 32 0.

Definition field_add (a b : bytes) : bytes := zip_with Z.lxor a b.

(** The loop of [field_mul_scalar]; a [u32] has 32 bits. *)
Fixpoint mul_scalar_loop (fuel : nat) (result acc : bytes) (s : Z) : bytes :=
  match fuel with
  | O => result
  | S fuel =>
      if 0 <? s then
        let result := if Z.land s 1 =? 1 then field_add result acc else result in
        mul_scalar_loop fuel result (field_add acc acc) (Z.shiftr s 1)
      else result
  end.

Definition field_mul_scalar (a : bytes) (scalar : Z) : bytes := mul_scalar_loop 32 zero32 a scalar.

(** [lambda.unsigned_abs()]. *)
Definition field_mul_lambda (a : bytes) (lambda : Z) : bytes :=
  if lambda =? 0 then zero32 else field_mul_scalar a (Z.abs lambda).

Definition evaluate_polynomial (coefficients : list bytes) (x : Z) : bytes :=
  fold_left (fun result coef => field_add (field_mul_scalar result x) coef) (rev coefficients) zero32.

(** ** Shamir sharing *)

(** [split]: [random i] is what the generator yields for the [i]-th
    coefficient; [None] is the failing assertion on the number of validators. *)
Definition ShamirSecretSharing_split (params : ThresholdParams) (random : nat -> bytes)
    (secret : bytes) (validators : list ValidatorId) : option (list SecretShare) :=
  if Z.of_nat (length validators) <? total_shares params then None
  else
    let coefficients := secret :: map random (seq 1 (Z.to_nat (threshold params) - 1)) in
    Some (map (fun i => mkShare (Z.of_nat i + 1) (evaluate_polynomial coefficients (Z.of_nat i + 1))
            (nth i validators ValidatorId_default)) (seq 0 (Z.to_nat (total_shares params)))).

(** Signed 64- and 32-bit wrap-around. *)
Definition i64 (z : Z) : Z := (z + 2 ^ 63) mod 2 ^ 64 - 2 ^ 63.
Definition i32 (z : Z) : Z := (z + 2 ^ 31) mod 2 ^ 32 - 2 ^ 31.

Definition compute_lambda (num den : Z) : Z :=
  if den =? 0 then 0
  else i32 (i32 (Z.quot (Z.rem num 256 + 256) (Z.rem (i64 (Z.abs den)) 256 + 1)) * (if den <? 0 then -1 else 1)).

(** Numerator and denominator of the Lagrange coefficient of share [i]. *)
Definition lagrange (indices : list Z) (i : nat) : Z * Z :=
  let xi := nth i indices 0 in
  fold_left (fun '(num, den) j =>
    if (i =? j)%nat then (num, den)
    else let xj := nth j indices 0 in (i64 (num * - xj), i64 (den * (xi - xj))))
    (seq 0 (length indices)) (1, 1).

Definition ShamirSecretSharing_reconstruct (params : ThresholdParams) (shares : list SecretShare) : string + bytes :=
  if Z.of_nat (length shares) <? threshold params then inl "Not enough shares for reconstruction"%string
  else
    let shares := take (Z.to_nat (threshold params)) shares in
    let indices := map sh_index shares in
    inr (fold_left (fun secret i =>
      let '(numerator, denominator) := lagrange indices i in
      let lambda := compute_lambda numerator denominator in
      let term := field_mul_lambda (sh_value (nth i shares (mkShare 0 zero32 ValidatorId_default))) lambda in
      field_add secret term) (seq 0 (length shares)) zero32).

(** ** Encryption *)

Record EncryptedKeyShare := mkKeyShare {
  ks_validator_index : Z;
  ks_encrypted_share : bytes
}.

Record EncryptedPayload := mkPayload {
  ep_ciphertext : bytes;
  ep_nonce : bytes;
  ep_commitment : bytes;
  ep_key_shares : list EncryptedKeyShare
}.

Section encryption.
Context `{Hashes}.

Definition xor_encrypt (plaintext key nonce : bytes) : bytes :=
  let keystream_seed := key ++ nonce in
  imap (fun i byte =>
    let key_byte := nth 0 (sha256 (keystream_seed ++ le_bytes 8 (Z.of_nat i))) 0 in
    Z.lxor byte key_byte) plaintext.

(** [encrypt], with the key and the nonce the generator drew. *)
Definition ThresholdEncryptor_encrypt (params : ThresholdParams) (random : nat -> bytes) (key nonce : bytes)
    (plaintext : bytes) (validators : list ValidatorId) : option EncryptedPayload :=
  let commitment := sha256 plaintext in
  let ciphertext := xor_encrypt plaintext key nonce in
  shares ← ShamirSecretSharing_split params random key validators;
  Some (mkPayload ciphertext nonce commitment
    (map (fun share => mkKeyShare (sh_index share) (sh_value share)) shares)).

Definition ThresholdEncryptor_decrypt (params : ThresholdParams) (payload : EncryptedPayload)
    (shares : list SecretShare) : string + bytes :=
  match ShamirSecretSharing_reconstruct params shares with
  | inl e => inl e
  | inr key =>
      let plaintext := xor_encrypt (ep_ciphertext payload) key (ep_nonce payload) in
      if bool_decide (sha256 plaintext = ep_commitment payload) then inr plaintext
      else inl "Commitment verification failed"%string
  end.
End encryption.

(** ** The schemes with their generator

    [ChaCha20Rng] comes from the [rand_chacha] crate: a state, a way to seed
    it, and the next bytes.  [from_entropy] seeds it with bytes of the system,
    here an argument. *)

Class Rng := {
  rng : Type;
  rng_from_seed : bytes -> rng;
  rng_fill : nat -> rng -> bytes * rng
}.

Section generator.
Context `{Rng}.

Record ShamirSecretSharing := mkSss {
  sss_params : ThresholdParams;
  sss_rng : rng
}.

Definition ShamirSecretSharing_new (entropy : bytes) (params : ThresholdParams) : ShamirSecretSharing :=
  mkSss params (rng_from_seed entropy).

Definition ShamirSecretSharing_with_seed (params : ThresholdParams) (seed : bytes) : ShamirSecretSharing :=
  mkSss params (rng_from_seed seed).

(** The coefficients drawn one after the other. *)
Fixpoint draw_coefficients (k : nat) (g : rng) : list bytes * rng :=
  match k with
  | O => ([], g)
  | S k =>
      let '(coef, g) := rng_fill 32 g in
      let '(coefs, g) := draw_coefficients k g in
      (coef :: coefs, g)
  end.

(** [split], with the generator it advances. *)
Definition sss_split (s : ShamirSecretSharing) (secret : bytes) (validators : list ValidatorId)
    : option (list SecretShare * ShamirSecretSharing) :=
  let '(coefs, g) := draw_coefficients (Z.to_nat (threshold (sss_params s)) - 1) (sss_rng s) in
  shares ← ShamirSecretSharing_split (sss_params s) (fun i => nth (i - 1) coefs zero32) secret validators;
  Some (shares, mkSss (sss_params s) g).

Record ThresholdEncryptor := mkEncryptor {
  te_params : ThresholdParams;
  te_sss : ShamirSecretSharing
}.

Definition ThresholdEncryptor_new (entropy : bytes) (params : ThresholdParams) : ThresholdEncryptor :=
  mkEncryptor params (ShamirSecretSharing_new entropy params).

(** [encrypt]; [key] and [nonce] come from the generator of the thread. *)
Definition te_encrypt `{Hashes} (e : ThresholdEncryptor) (key nonce plaintext : bytes) (validators : list ValidatorId)
    : option (EncryptedPayload * ThresholdEncryptor) :=
  let commitment := sha256 plaintext in
  let ciphertext := xor_encrypt plaintext key nonce in
  '(shares, sss) ← sss_split (te_sss e) key validators;
  Some (mkPayload ciphertext nonce commitment
    (map (fun share => mkKeyShare (sh_index share) (sh_value share)) shares), mkEncryptor (te_params e) sss).
End generator.

(** ** Distributed key generation *)

Record DkgSession := mkDkg {
  dkg_id : bytes;
  dkg_params : ThresholdParams;
  dkg_validators : list ValidatorId;
  dkg_commitments : gmap ValidatorId (list bytes);
  dkg_received_shares : gmap ValidatorId SecretShare;
  dkg_our_polynomial : option (list bytes)
}.

Definition DkgSession_new (session_id : bytes) (validators : list ValidatorId) : DkgSession :=
  mkDkg session_id (ThresholdParams_bft_safe (Z.of_nat (length validators) mod u32_bound)) validators ∅ ∅ None.

(** [random i] is the [i]-th coefficient drawn. *)
Definition DkgSession_generate_contribution `{Hashes} (s : DkgSession) (random : nat -> bytes)
    : DkgSession * list bytes :=
  let polynomial := map random (seq 0 (Z.to_nat (threshold (dkg_params s)))) in
  (mkDkg (dkg_id s) (dkg_params s) (dkg_validators s) (dkg_commitments s) (dkg_received_shares s) (Some polynomial),
   map sha256 polynomial).

Definition DkgSession_receive_commitment (s : DkgSession) (from : ValidatorId) (commitments : list bytes) : DkgSession :=
  mkDkg (dkg_id s) (dkg_params s) (dkg_validators s) (<[from := commitments]> (dkg_commitments s))
    (dkg_received_shares s) (dkg_our_polynomial s).

(** [evaluate_at] hands over to the polynomial evaluation of the sharing. *)
Definition DkgSession_evaluate_at (coefficients : list bytes) (x : Z) : bytes := evaluate_polynomial coefficients x.

Definition DkgSession_generate_shares (s : DkgSession) : gmap ValidatorId SecretShare :=
  match dkg_our_polynomial s with
  | None => ∅
  | Some polynomial =>
      fold_left (fun m '(i, validator) =>
        let x := (Z.of_nat i + 1) mod u32_bound in
        <[validator := mkShare x (DkgSession_evaluate_at polynomial x) validator]> m)
        (imap pair (dkg_validators s)) ∅
  end.

(** The commitment is looked up but nothing is compared with it. *)
Definition DkgSession_receive_share (s : DkgSession) (from : ValidatorId) (share : SecretShare) : DkgSession * bool :=
  (mkDkg (dkg_id s) (dkg_params s) (dkg_validators s) (dkg_commitments s)
    (<[from := share]> (dkg_received_shares s)) (dkg_our_polynomial s), true).

Definition DkgSession_is_complete (s : DkgSession) : bool :=
  threshold (dkg_params s) <=? Z.of_nat (size (dkg_received_shares s)).

(** [finalize], with the received shares in the order the map yields them;
    index 0 makes [our_index - 1] run out of the list. *)
Definition dkg_finalize_in (order : list SecretShare) (s : DkgSession) : option SecretShare :=
  if negb (DkgSession_is_complete s) then None
  else
    let '(combined, our_index) :=
      fold_left (fun '(combined, our_index) share => (field_add combined (sh_value share), sh_index share))
        order (zero32, 1) in
    holder ← (if our_index =? 0 then None else dkg_validators s !! Z.to_nat (our_index - 1));
    Some (mkShare our_index combined holder).

Definition DkgSession_finalize (s : DkgSession) : option SecretShare :=
  dkg_finalize_in (map_to_list (dkg_received_shares s)).*2 s.

(** ** Lemmas *)

Lemma field_add_zero_l b : length b = 32%nat -> field_add zero32 b = b.
Proof.
  intros Hl. unfold field_add, zero32. rewrite <- Hl. clear Hl.
  induction b as [|x b IH]; simpl; [done|]. by rewrite IH.
Qed.

Lemma field_add_self b : length b = 32%nat -> field_add b b = zero32.
Proof.
  intros Hl. unfold field_add, zero32. rewrite <- Hl. clear Hl.
  induction b as [|x b IH]; simpl; [done|]. by rewrite Z.lxor_nilpotent, IH.
Qed.

Lemma length_field_add a b : length a = 32%nat -> length b = 32%nat -> length (field_add a b) = 32%nat.
Proof. intros Ha Hb. unfold field_add. rewrite length_zip_with. lia. Qed.

Lemma field_add_comm a b : field_add a b = field_add b a.
Proof. unfold field_add. revert b. induction a as [|x a IH]; intros [|y b]; simpl; [done..|]. by rewrite Z.lxor_comm, IH. Qed.

(** Once the accumulator is zero, nothing is added any more. *)
Lemma mul_scalar_loop_zero fuel result s :
  length result = 32%nat -> mul_scalar_loop fuel result zero32 s = result.
Proof.
  revert result s. induction fuel as [|fuel IH]; intros result s Hl; cbn [mul_scalar_loop]; [done|].
  destruct (0 <? s); [|done]. rewrite field_add_self by reflexivity.
  destruct (Z.land s 1 =? 1); rewrite ?(field_add_comm result), ?field_add_zero_l by done; by apply IH.
Qed.

Lemma mul_scalar_loop_parity fuel a s :
  length a = 32%nat -> 0 <= s -> mul_scalar_loop (S fuel) zero32 a s = if Z.odd s then a else zero32.
Proof.
  intros Hl Hs. cbn [mul_scalar_loop].
  assert (E : (Z.land s 1 =? 1) = Z.odd s).
  { change 1 with (Z.ones 1) at 1. rewrite Z.land_ones by lia. change (2 ^ 1) with 2. rewrite Zmod_odd.
    by destruct (Z.odd s). }
  rewrite E, field_add_self by done. destruct (Z.ltb_spec 0 s) as [Hlt|Hge].
  - destruct (Z.odd s); rewrite ?field_add_zero_l by done; by rewrite mul_scalar_loop_zero.
  - assert (s = 0) as -> by lia. done.
Qed.

(** The multiplication keeps only the lowest bit of the scalar. *)
Lemma field_mul_scalar_parity a s :
  length a = 32%nat -> 0 <= s -> field_mul_scalar a s = if Z.odd s then a else zero32.
Proof. apply (mul_scalar_loop_parity 31). Qed.

Lemma length_field_mul_scalar a s : length a = 32%nat -> 0 <= s -> length (field_mul_scalar a s) = 32%nat.
Proof. intros Hl Hs. rewrite field_mul_scalar_parity by done. by destruct (Z.odd s). Qed.

(** Horner's rule with an even point forgets all but the constant term; with
    an odd point it adds all coefficients up. *)
Lemma evaluate_parity coefficients x :
  Forall (fun c => length c = 32%nat) coefficients -> 0 <= x ->
  evaluate_polynomial coefficients x =
    if Z.odd x then foldr field_add zero32 coefficients
    else match coefficients with [] => zero32 | a0 :: _ => a0 end.
Proof.
  intros Hl Hx. unfold evaluate_polynomial.
  assert (Hg : length (fold_left (fun result coef => field_add (field_mul_scalar result x) coef) (rev coefficients) zero32) = 32%nat /\
    fold_left (fun result coef => field_add (field_mul_scalar result x) coef) (rev coefficients) zero32 =
    if Z.odd x then foldr field_add zero32 coefficients
    else match coefficients with [] => zero32 | a0 :: _ => a0 end).
  { induction Hl as [|a0 cs Ha Hcs [IHl IH]]; [split; [reflexivity|by destruct (Z.odd x)]|].
    cbn [rev]. rewrite fold_left_app. cbn [fold_left]. split.
    - apply length_field_add; [by apply length_field_mul_scalar|done].
    - rewrite field_mul_scalar_parity by done. destruct (Z.odd x).
      + rewrite IH. cbn [foldr]. apply field_add_comm.
      + by apply field_add_zero_l. }
  apply Hg.
Qed.

Lemma xor_encrypt_involutive `{Hashes} m key nonce : xor_encrypt (xor_encrypt m key nonce) key nonce = m.
Proof.
  unfold xor_encrypt. apply list_eq. intros i. rewrite !list_lookup_imap. destruct (m !! i) as [b|]; simpl; [|done].
  by rewrite Z.lxor_assoc, Z.lxor_nilpotent, Z.lxor_0_r.
Qed.

(** ** Properties *)

(** A share holds the secret at an even index, and at an odd index the sum of
    all coefficients. *)
Lemma split_shares params random secret validators shares :
  length secret = 32%nat -> (forall i, length (random i) = 32%nat) ->
  ShamirSecretSharing_split params random secret validators = Some shares ->
  length shares = Z.to_nat (total_shares params) /\
  exists sum, forall i s, shares !! i = Some s -> sh_index s = Z.of_nat i + 1 /\ sh_value s = if Z.odd (sh_index s) then sum else secret.
Proof.
  intros Hs Hr. unfold ShamirSecretSharing_split. destruct (_ <? _); [done|].
  set (cs := secret :: map random (seq 1 (Z.to_nat (threshold params) - 1))). intros [= <-].
  assert (Hl : Forall (fun c => length c = 32%nat) cs).
  { constructor; [done|]. apply Forall_forall. intros c Hc. apply list_elem_of_fmap in Hc as (i & -> & _). apply Hr. }
  split; [by rewrite length_map, length_seq|]. exists (foldr field_add zero32 cs). intros i s Hin.
  change (map ?f ?l) with (f <$> l) in Hin. apply list_lookup_fmap_Some in Hin as (k & -> & Hk).
  apply lookup_seq in Hk as [-> _]. cbn [sh_value sh_index]. split; [done|]. by rewrite evaluate_parity by (done || lia).
Qed.

(** The shares give the secret away.  The scalar multiplication only keeps
    the lowest bit of the point, so every share with an even index is the
    secret itself, and all shares with an odd index are the same value,
    whatever the random coefficients are: one holder of an even share needs
    nobody else. *)
Theorem even_shares_are_the_secret (params : ThresholdParams) (random : nat -> bytes) (secret : bytes)
    (validators : list ValidatorId) (shares : list SecretShare) :
  length secret = 32%nat -> (forall i, length (random i) = 32%nat) ->
  ShamirSecretSharing_split params random secret validators = Some shares ->
  length shares = Z.to_nat (total_shares params) /\
  (forall s, s ∈ shares -> Z.even (sh_index s) = true -> sh_value s = secret) /\
  (forall s t, s ∈ shares -> t ∈ shares -> Z.odd (sh_index s) = true -> Z.odd (sh_index t) = true ->
    sh_value s = sh_value t).
Proof.
  intros Hs Hr Hsp. destruct (split_shares _ _ _ _ _ Hs Hr Hsp) as (Hl & sum & Hval). split; [done|]. split.
  - intros s [i Hi]%list_elem_of_lookup He. destruct (Hval i s Hi) as [_ ->]. by rewrite <- Z.negb_even, He.
  - intros s t [i Hi]%list_elem_of_lookup [k Hk]%list_elem_of_lookup Ho Ho'.
    destruct (Hval i s Hi) as [_ ->], (Hval k t Hk) as [_ ->]. by rewrite Ho, Ho'.
Qed.

(** Reconstruction does not invert splitting.  With a threshold of one,
    reconstructing from any share returns 32 zero bytes, whatever the share
    holds: the single Lagrange coefficient is computed as 128, which is even. *)
Theorem reconstruct_one_is_zero (params : ThresholdParams) (share : SecretShare) (shares : list SecretShare) :
  threshold params = 1 -> length (sh_value share) = 32%nat ->
  ShamirSecretSharing_reconstruct params (share :: shares) = inr zero32.
Proof.
  intros Ht Hl. unfold ShamirSecretSharing_reconstruct. rewrite Ht.
  rewrite (proj2 (Z.ltb_ge _ _)) by (simpl; lia). change (Z.to_nat 1) with 1%nat.
  change (take 1 (share :: shares)) with [share]. cbn [length seq map fold_left nth].
  change (lagrange [sh_index share] 0) with (1, 1). cbn beta iota.
  change (compute_lambda 1 1) with 128. unfold field_mul_lambda. change (128 =? 0) with false. cbn beta iota.
  rewrite field_mul_scalar_parity by (done || lia). reflexivity.
Qed.

(** Decryption is safe and inverts encryption.  Whatever shares are offered,
    [decrypt] only returns a plaintext whose hash is the commitment; and when
    they reconstruct the key that was used, it returns exactly the encrypted
    plaintext. *)
Theorem decrypt_correct `{Hashes} (params : ThresholdParams) (random : nat -> bytes) (key nonce plaintext : bytes)
    (validators : list ValidatorId) (payload : EncryptedPayload) (shares : list SecretShare) :
  ThresholdEncryptor_encrypt params random key nonce plaintext validators = Some payload ->
  (forall m, ThresholdEncryptor_decrypt params payload shares = inr m -> sha256 m = sha256 plaintext) /\
  (ShamirSecretSharing_reconstruct params shares = inr key ->
   ThresholdEncryptor_decrypt params payload shares = inr plaintext).
Proof.
  unfold ThresholdEncryptor_encrypt. intros He. apply bind_Some in He as (sh & _ & [= <-]).
  unfold ThresholdEncryptor_decrypt. cbn [ep_ciphertext ep_nonce ep_commitment]. split.
  - intros m. destruct (ShamirSecretSharing_reconstruct params shares) as [e|k]; [done|].
    case_bool_decide as E; [|done]. intros [= <-]. exact E.
  - intros ->. rewrite xor_encrypt_involutive. by rewrite bool_decide_eq_true_2.
Qed.

(** The generator fills what it is asked to fill. *)
Class RngOk `{Rng} : Prop := {
  rng_fill_length k g : length (rng_fill k g).1 = k
}.

Lemma Forall_nth_default {A} (P : A -> Prop) l d i : Forall P l -> P d -> P (nth i l d).
Proof. intros Hl Hd. destruct (nth_in_or_default i l d) as [Hin| ->]; [|done]. rewrite Forall_forall in Hl. by apply Hl, list_elem_of_In. Qed.

Lemma draw_coefficients_length `{RngOk} k g : Forall (fun c => length c = 32%nat) (draw_coefficients k g).1.
Proof.
  revert g. induction k as [|k IH]; intros g; simpl; [constructor|].
  pose proof (rng_fill_length 32 g) as Hl. destruct (rng_fill 32 g) as [coef g1]. specialize (IH g1).
  destruct (draw_coefficients k g1) as [coefs g2]. by constructor.
Qed.

(** C37: an encrypted payload can be read by anyone.  Among the key shares that
    [encrypt] puts into the payload is, for two validators or more and
    whatever the generator draws, one that is the key: with it the ciphertext
    of the same payload decrypts to the plaintext, with no share of any
    validator. *)
Theorem payload_reveals_plaintext `{RngOk} `{Hashes} (e e' : ThresholdEncryptor) (key nonce plaintext : bytes)
    (validators : list ValidatorId) (payload : EncryptedPayload) :
  length key = 32%nat -> 2 <= total_shares (sss_params (te_sss e)) ->
  te_encrypt e key nonce plaintext validators = Some (payload, e') ->
  exists ks, ks ∈ ep_key_shares payload /\ ks_validator_index ks = 2 /\
    xor_encrypt (ep_ciphertext payload) (ks_encrypted_share ks) (ep_nonce payload) = plaintext.
Proof.
  intros Hk Ht He. unfold te_encrypt in He. apply bind_Some in He as ([shares sss] & Hsp & [= <- _]).
  unfold sss_split in Hsp. pose proof (draw_coefficients_length (Z.to_nat (threshold (sss_params (te_sss e))) - 1) (sss_rng (te_sss e))) as Hc.
  destruct (draw_coefficients _ _) as [coefs g]. apply bind_Some in Hsp as (shares' & Hsp & [= -> _]).
  destruct (split_shares _ _ _ _ _ Hk (fun i => Forall_nth_default _ coefs zero32 (i - 1) Hc eq_refl) Hsp) as (Hl & sum & Hval).
  destruct (lookup_lt_is_Some_2 shares 1%nat) as [s Hs]; [lia|]. destruct (Hval _ _ Hs) as [Hi Hv]. rewrite Hi in Hv.
  exists (mkKeyShare (sh_index s) (sh_value s)). cbn [ep_key_shares ep_ciphertext ep_nonce ks_validator_index ks_encrypted_share].
  split_and!; [|by rewrite Hi|by rewrite Hv; apply xor_encrypt_involutive].
  apply list_elem_of_fmap. exists s. split; [done|]. by eapply list_elem_of_lookup_2.
Qed.

(** Threshold parameters.  [new] accepts exactly 1 <= t <= n; [bft_safe]
    gives, for a non-empty committee whose size fits, a valid threshold that
    exceeds two thirds of the committee. *)
Theorem threshold_params_spec (n t : Z) :
  is_u32 n -> is_u32 t ->
  (ThresholdParams_new n t = inr (mkParams n t) <-> 1 <= t <= n) /\
  (1 <= n -> 2 * n < u32_bound ->
   let p := ThresholdParams_bft_safe n in
   2 * n < 3 * threshold p /\ ThresholdParams_new (total_shares p) (threshold p) = inr p).
Proof.
  intros Hn Ht. assert (Hnew : forall t, is_u32 t -> ThresholdParams_new n t = inr (mkParams n t) <-> 1 <= t <= n).
  { intros t' Ht'. unfold ThresholdParams_new. destruct (Z.eqb_spec t' 0); [split; [done|lia]|].
    destruct (Z.ltb_spec n t'); [split; [done|lia]|]. unfold is_u32 in *. split; [lia|done]. }
  split; [by apply Hnew|]. intros H1 H2 p. unfold p, ThresholdParams_bft_safe. cbn [total_shares threshold].
  rewrite (Z.mod_small (n * 2)) by (unfold is_u32 in *; lia).
  pose proof (Z.div_mod (n * 2) 3) as Hd. pose proof (Z.mod_pos_bound (n * 2) 3) as Hm.
  rewrite Z.mod_small by (unfold is_u32 in *; lia). split; [lia|].
  apply Hnew; [unfold is_u32 in *; lia|]. lia.
Qed.

(** ** Witnesses *)

Definition share_sample : option (list SecretShare) :=
  ShamirSecretSharing_split (mkParams 4 3) (fun i => replicate 32 (Z.of_nat i)) (replicate 32 77)
    (replicate 4 ValidatorId_default).

Lemma even_shares_are_the_secret_witness :
  exists shares s, share_sample = Some shares /\ s ∈ shares /\ sh_index s = 2 /\ sh_value s = replicate 32 77.
Proof.
  destruct share_sample as [shares|] eqn:E; [|vm_compute in E; discriminate].
  destruct (even_shares_are_the_secret (mkParams 4 3) (fun i => replicate 32 (Z.of_nat i)) (replicate 32 77)
    (replicate 4 ValidatorId_default) shares) as (_ & He & _); [reflexivity|intros; apply length_replicate|exact E|].
  exists shares, (nth 1 shares (mkShare 0 [] ValidatorId_default)).
  assert (Hin : nth 1 shares (mkShare 0 [] ValidatorId_default) ∈ shares /\
    sh_index (nth 1 shares (mkShare 0 [] ValidatorId_default)) = 2).
  { vm_compute in E. injection E as <-. split; [right; left|reflexivity]. }
  destruct Hin as [Hin Hi]. split; [reflexivity|]. split; [exact Hin|]. split; [exact Hi|].
  apply He; [exact Hin|]. rewrite Hi. reflexivity.
Defined.

Lemma reconstruct_one_is_zero_witness :
  ShamirSecretSharing_reconstruct (mkParams 4 1) [mkShare 1 (replicate 32 9) ValidatorId_default] = inr zero32.
Proof. apply (reconstruct_one_is_zero (mkParams 4 1) (mkShare 1 (replicate 32 9) ValidatorId_default) []); reflexivity. Defined.

#[local] Existing Instance checksum_hashes.

Definition payload_sample : option EncryptedPayload :=
  ThresholdEncryptor_encrypt (mkParams 1 1) (fun _ => zero32) zero32 (replicate 12 5) [1; 2; 3] [ValidatorId_default].

Lemma decrypt_correct_witness :
  exists payload, payload_sample = Some payload /\
    ThresholdEncryptor_decrypt (mkParams 1 1) payload [mkShare 1 (replicate 32 9) ValidatorId_default] = inr [1; 2; 3].
Proof.
  destruct payload_sample as [payload|] eqn:E; [|vm_compute in E; discriminate]. exists payload. split; [reflexivity|].
  apply (decrypt_correct (mkParams 1 1) (fun _ => zero32) zero32 (replicate 12 5) [1; 2; 3] [ValidatorId_default] payload
    [mkShare 1 (replicate 32 9) ValidatorId_default] E). vm_compute. reflexivity.
Defined.

Lemma threshold_params_spec_witness :
  ThresholdParams_new 4 3 = inr (ThresholdParams_bft_safe 4).
Proof.
  apply (threshold_params_spec 4 3); [u64_lia|u64_lia|lia|]. vm_compute. reflexivity.
Defined.

(** A generator that counts. *)
Definition counting_rng : Rng := {|
  rng := Z;
  rng_from_seed := sumZ;
  rng_fill := fun n g => (replicate n (g mod 256), g + 1)
|}.

Lemma counting_rng_ok : @RngOk counting_rng.
Proof. split. intros k g. apply length_replicate. Qed.

Definition sample_encryptor : @ThresholdEncryptor counting_rng :=
  @ThresholdEncryptor_new counting_rng (replicate 32 9) (mkParams 4 3).

Definition sample_encryption : option (EncryptedPayload * @ThresholdEncryptor counting_rng) :=
  te_encrypt (H := counting_rng) (H0 := checksum_hashes) sample_encryptor (replicate 32 7) (replicate 12 1) [1; 2; 3]
    (replicate 4 ValidatorId_default).

Lemma payload_reveals_plaintext_witness :
  exists payload e' ks, sample_encryption = Some (payload, e') /\ ks ∈ ep_key_shares payload /\
    xor_encrypt (H := checksum_hashes) (ep_ciphertext payload) (ks_encrypted_share ks) (ep_nonce payload) = [1; 2; 3].
Proof.
  destruct sample_encryption as [[payload e']|] eqn:E; [|vm_compute in E; discriminate].
  destruct (@payload_reveals_plaintext counting_rng counting_rng_ok checksum_hashes sample_encryptor e' (replicate 32 7) (replicate 12 1)
    [1; 2; 3] (replicate 4 ValidatorId_default) payload) as (ks & Hin & _ & Hx); [reflexivity|vm_compute; discriminate|exact E|].
  exists payload, e', ks. split; [reflexivity|]. split; [exact Hin|exact Hx].
Defined.
