(* ===== verification/Mempool.v ===== *)
(** * The transaction pool: [src/node/mempool.rs]

    The pool, one operation at a time: [add] takes its locks one after the
    other, so two threads in it together could both pass the size check, which
    the model does not show.  The ordered map of the source is its list of
    entries in key order; clock readings are arguments, in nanoseconds. *)

From S2P Require Import Prelude Types Transaction.

Record PendingTransaction := mkPending {
  pt_transaction : EncryptedTransaction;
  pt_gas_price : U256;
  pt_received_at : Z;
  pt_broadcast_count : Z
}.

Inductive PoolError :=
| AlreadyKnown
| PoolFull
| GasPriceTooLow
| Invalid (msg : string).

Definition PoolError_display (e : PoolError) : string :=
  match e with
  | AlreadyKnown => "Transaction already known"
  | PoolFull => "Transaction pool is full"
  | GasPriceTooLow => "Gas price too low"
  | Invalid msg => "Invalid transaction: " +:+ msg
  end.

Abbreviation PriceKey := (U256 * list Z)%type (only parsing).

Record TransactionPool := mkPool {
  transactions : gmap (list Z) PendingTransaction;
  by_price : list (PriceKey * list Z);
  known : gset (list Z);
  max_size : nat;
  max_age_secs : Z
}.

(** The derived order on [(U256, [u8; 32])]. *)
Definition price_key_cmp (a b : PriceKey) : comparison :=
  match U256_cmp a.1 b.1 with
  | Eq => lex_compare a.2 b.2
  | c => c
  end.

(** [BTreeMap::insert] and [BTreeMap::remove] on the entry list. *)
Fixpoint btree_insert (k : PriceKey) (v : list Z) (l : list (PriceKey * list Z)) : list (PriceKey * list Z) :=
  match l with
  | [] => [(k, v)]
  | (k', v') :: l =>
      match price_key_cmp k k' with
      | Lt => (k, v) :: (k', v') :: l
      | Eq => (k', v) :: l
      | Gt => (k', v') :: btree_insert k v l
      end
  end.

Fixpoint btree_remove (k : PriceKey) (l : list (PriceKey * list Z)) : list (PriceKey * list Z) :=
  match l with
  | [] => []
  | (k', v') :: l =>
      match price_key_cmp k k' with
      | Eq => l
      | _ => (k', v') :: btree_remove k l
      end
  end.

Definition TransactionPool_new (max_size : nat) : TransactionPool := mkPool ∅ [] ∅ max_size 3600.
Definition TransactionPool_default : TransactionPool := TransactionPool_new (Z.to_nat 10000).

Definition TransactionPool_remove (p : TransactionPool) (commitment : list Z)
    : TransactionPool * option PendingTransaction :=
  match transactions p !! commitment with
  | None => (p, None)
  | Some pending =>
      (mkPool (delete commitment (transactions p)) (btree_remove (pt_gas_price pending, commitment) (by_price p))
         (known p) (max_size p) (max_age_secs p), Some pending)
  end.

Definition TransactionPool_evict_lowest (p : TransactionPool) (new_price : U256) : TransactionPool * bool :=
  match by_price p with
  | ((price, commitment), _) :: _ =>
      match U256_cmp new_price price with
      | Gt => ((TransactionPool_remove p commitment).1, true)
      | _ => (p, false)
      end
  | [] => (p, false)
  end.

(** The insertion at the end of [add]. *)
Definition pool_insert (p : TransactionPool) (tx : EncryptedTransaction) (gas_price : U256) (now : Z) : TransactionPool :=
  let commitment := etx_commitment tx in
  mkPool (<[commitment := mkPending tx gas_price now 0]> (transactions p))
    (btree_insert (gas_price, commitment) commitment (by_price p))
    ({[commitment]} ∪ known p) (max_size p) (max_age_secs p).

(** [add]; [now] is [Instant::now()]. *)
Definition TransactionPool_add (p : TransactionPool) (tx : EncryptedTransaction) (gas_price : U256) (now : Z)
    : TransactionPool * (PoolError + unit) :=
  let commitment := etx_commitment tx in
  if bool_decide (commitment ∈ known p) then (p, inl AlreadyKnown)
  else if (max_size p <=? size (transactions p))%nat then
    let '(p, evicted) := TransactionPool_evict_lowest p gas_price in
    if evicted then (pool_insert p tx gas_price now, inr tt) else (p, inl PoolFull)
  else (pool_insert p tx gas_price now, inr tt).

Definition TransactionPool_get (p : TransactionPool) (commitment : list Z) : option PendingTransaction :=
  transactions p !! commitment.
Definition TransactionPool_contains (p : TransactionPool) (commitment : list Z) : bool :=
  bool_decide (commitment ∈ known p).

Definition TransactionPool_best (p : TransactionPool) (limit : nat) : list PendingTransaction :=
  omap (fun commitment => transactions p !! commitment) (take limit (rev (map snd (by_price p)))).

Definition TransactionPool_all (p : TransactionPool) : list PendingTransaction := (map_to_list (transactions p)).*2.
Definition TransactionPool_len (p : TransactionPool) : nat := size (transactions p).
Definition TransactionPool_is_empty (p : TransactionPool) : bool := bool_decide (transactions p = ∅).

Definition pool_remove_all (p : TransactionPool) (commitments : list (list Z)) : TransactionPool :=
  fold_left (fun p c => (TransactionPool_remove p c).1) commitments p.

(** [duration_since] saturates at zero; the age is compared with
    [Duration::from_secs(max_age_secs)]. *)
Definition TransactionPool_prune_expired (p : TransactionPool) (now : Z) : TransactionPool * nat :=
  let expired := (filter (fun e => max_age_secs p * 1000000000 < Z.max 0 (now - pt_received_at e.2)) (map_to_list (transactions p))).*1 in
  (pool_remove_all p expired, length expired).

Definition TransactionPool_mark_included (p : TransactionPool) (commitments : list (list Z)) : TransactionPool * nat :=
  fold_left (fun '(p, count) c =>
    let '(p, removed) := TransactionPool_remove p c in
    (p, match removed with Some _ => S count | None => count end)) commitments (p, 0%nat).

Definition TransactionPool_clear_known (p : TransactionPool) : TransactionPool :=
  mkPool (transactions p) (by_price p) ∅ (max_size p) (max_age_secs p).

(** ** The ordered map *)

Definition key_list (k : PriceKey) : list Z := U256_limbs k.1 ++ k.2.

Lemma lex_compare_app a b x y :
  length a = length b ->
  lex_compare (a ++ x) (b ++ y) = match lex_compare a b with Eq => lex_compare x y | c => c end.
Proof.
  revert b. induction a as [|p a IH]; intros [|q b] Hl; simpl; try done.
  destruct (p ?= q); [|done..]. apply IH. by injection Hl.
Qed.

Lemma price_key_cmp_lex a b : price_key_cmp a b = lex_compare (key_list a) (key_list b).
Proof. unfold price_key_cmp, key_list, U256_cmp. by rewrite lex_compare_app. Qed.

Lemma key_list_inj a b : key_list a = key_list b -> a = b.
Proof.
  destruct a as [[a0 a1 a2 a3] ca], b as [[b0 b1 b2 b3] cb]. unfold key_list, U256_limbs. simpl.
  intros [= -> -> -> -> ->]. done.
Qed.

Lemma price_key_cmp_eq a b : price_key_cmp a b = Eq <-> a = b.
Proof.
  rewrite price_key_cmp_lex. split.
  - intros E. by apply key_list_inj, lex_compare_eq.
  - intros ->. apply lex_compare_refl.
Qed.

Lemma price_key_cmp_antisym a b : price_key_cmp b a = CompOpp (price_key_cmp a b).
Proof. rewrite !price_key_cmp_lex. apply lex_compare_antisym. Qed.

Lemma price_key_lt_trans a b c : price_key_cmp a b = Lt -> price_key_cmp b c = Lt -> price_key_cmp a c = Lt.
Proof.
  intros H1 H2. destruct (price_key_cmp a c) eqn:E; [|done|].
  - apply price_key_cmp_eq in E. subst c. rewrite price_key_cmp_antisym, H1 in H2. done.
  - exfalso. rewrite price_key_cmp_lex in *.
    apply (lex_compare_trans_lt (key_list a) (key_list b) (key_list c)); congruence.
Qed.

Definition entry_lt (a b : PriceKey * list Z) : Prop := price_key_cmp a.1 b.1 = Lt.

Lemma btree_insert_elem k v l x :
  StronglySorted entry_lt l -> x ∈ btree_insert k v l <-> x = (k, v) \/ x ∈ l /\ x.1 <> k.
Proof.
  induction 1 as [|[k' v'] l Hs IH Hk]; simpl.
  - rewrite list_elem_of_singleton. split; [auto|]. intros [?|[?%not_elem_of_nil _]]; done.
  - assert (Hl : price_key_cmp k k' <> Gt -> forall y, y ∈ l -> y.1 <> k).
    { intros Hle y Hy <-. rewrite Forall_forall in Hk. specialize (Hk y Hy). unfold entry_lt in Hk. simpl in Hk.
      rewrite price_key_cmp_antisym, Hk in Hle. done. }
    destruct (price_key_cmp k k') eqn:E; rewrite !elem_of_cons.
    + apply price_key_cmp_eq in E. subst k'. split; [intros [->|Hx]; [auto|right; split; [auto|by apply Hl]]|].
      intros [->|[[->|Hx] Hne]]; auto; done.
    + split; [|tauto]. intros [->|[->|Hx]]; [auto|right; split; [auto|]|right; split; [auto|by apply Hl]].
      simpl. intros ->. rewrite (proj2 (price_key_cmp_eq k k) eq_refl) in E. done.
    + rewrite IH. split; [|tauto]. intros [->|[->|[Hx Hne]]]; [right; split; [auto|]|auto|auto].
      simpl. intros ->. rewrite (proj2 (price_key_cmp_eq k k) eq_refl) in E. done.
Qed.

Lemma btree_insert_sorted k v l : StronglySorted entry_lt l -> StronglySorted entry_lt (btree_insert k v l).
Proof.
  induction 1 as [|[k' v'] l Hs IH Hk]; simpl; [repeat constructor|].
  destruct (price_key_cmp k k') eqn:E.
  - by constructor.
  - constructor; [by constructor|]. constructor; [done|]. eapply Forall_impl; [exact Hk|].
    intros y Hy. by eapply price_key_lt_trans.
  - constructor; [done|]. apply Forall_forall. intros y Hy. apply btree_insert_elem in Hy as [->|[Hy _]]; [|by rewrite Forall_forall in Hk; apply Hk|done].
    unfold entry_lt. simpl. by rewrite price_key_cmp_antisym, E.
Qed.

Lemma btree_remove_elem k l x :
  StronglySorted entry_lt l -> x ∈ btree_remove k l <-> x ∈ l /\ x.1 <> k.
Proof.
  induction 1 as [|[k' v'] l Hs IH Hk]; simpl.
  - split; [by intros ?%not_elem_of_nil|by intros [?%not_elem_of_nil _]].
  - destruct (price_key_cmp k k') eqn:E; rewrite ?elem_of_cons.
    + apply price_key_cmp_eq in E. subst k'. split.
      * intros Hx. split; [auto|]. intros Ex. rewrite Forall_forall in Hk. specialize (Hk x Hx). unfold entry_lt in Hk.
        simpl in Hk. rewrite Ex, (proj2 (price_key_cmp_eq k k) eq_refl) in Hk. done.
      * intros [[->|Hx] Hne]; done.
    + rewrite IH. split; [|tauto]. intros [->|[Hx Hne]]; [|tauto]. split; [auto|]. simpl. intros ->.
      by rewrite (proj2 (price_key_cmp_eq k k) eq_refl) in E.
    + rewrite IH. split; [|tauto]. intros [->|[Hx Hne]]; [|tauto]. split; [auto|]. simpl. intros ->.
      by rewrite (proj2 (price_key_cmp_eq k k) eq_refl) in E.
Qed.

Lemma btree_remove_sorted k l : StronglySorted entry_lt l -> StronglySorted entry_lt (btree_remove k l).
Proof.
  induction 1 as [|[k' v'] l Hs IH Hk]; simpl; [constructor|].
  destruct (price_key_cmp k k'); [done| |]; constructor; try done;
    apply Forall_forall; intros y Hy; apply btree_remove_elem in Hy as [Hy _]; try done;
    rewrite Forall_forall in Hk; by apply Hk.
Qed.

(** ** The pool invariant *)

Record pool_ok (p : TransactionPool) : Prop := {
  po_sorted : StronglySorted entry_lt (by_price p);
  po_index : forall k v, (k, v) ∈ by_price p <->
    v = k.2 /\ exists pt, transactions p !! k.2 = Some pt /\ pt_gas_price pt = k.1;
  po_known : forall c, is_Some (transactions p !! c) -> c ∈ known p;
  po_commitment : forall c pt, transactions p !! c = Some pt -> etx_commitment (pt_transaction pt) = c;
  po_size : (size (transactions p) <= max_size p)%nat
}.

Lemma pool_ok_new n : pool_ok (TransactionPool_new n).
Proof.
  split; simpl; try lia.
  - constructor.
  - intros k v. rewrite lookup_empty. split; [by intros ?%not_elem_of_nil|]. by intros [_ (pt & ? & _)].
  - intros c. rewrite lookup_empty. by intros [? ?].
  - intros c pt. by rewrite lookup_empty.
  - rewrite map_size_empty. lia.
Qed.

Lemma pool_ok_remove p c : pool_ok p -> pool_ok (TransactionPool_remove p c).1.
Proof.
  intros [Hs Hi Hk Hc Hz]. unfold TransactionPool_remove. destruct (transactions p !! c) as [pt|] eqn:E; [|done].
  split; cbn [fst transactions by_price known max_size].
  - by apply btree_remove_sorted.
  - intros k v. rewrite btree_remove_elem by done. rewrite Hi. split.
    + intros [[-> (pt' & Hpt & Hpr)] Hne]. split; [done|]. exists pt'. split; [|done].
      rewrite lookup_delete_ne; [done|]. intros Ek. apply Hne. rewrite <- Ek, E in Hpt. injection Hpt as <-.
      destruct k. simpl in *. congruence.
    + intros [-> (pt' & Hpt & Hpr)]. apply lookup_delete_Some in Hpt as [Hne Hpt]. split; [eauto|].
      simpl. intros ->. done.
  - intros c' [pt' Hpt]. apply lookup_delete_Some in Hpt as [_ Hpt]. eauto.
  - intros c' pt' Hpt. apply lookup_delete_Some in Hpt as [_ Hpt]. eauto.
  - rewrite map_size_delete, E. simpl. lia.
Qed.

Lemma pool_remove_size p c : pool_ok p -> is_Some (transactions p !! c) ->
  (S (size (transactions (TransactionPool_remove p c).1)) = size (transactions p))%nat.
Proof.
  intros Hp [pt E]. unfold TransactionPool_remove. rewrite E. cbn [fst transactions]. rewrite map_size_delete, E. simpl.
  assert (size (transactions p) <> 0%nat); [|lia]. intros Hz. apply map_size_empty_inv in Hz. by rewrite Hz, lookup_empty in E.
Qed.

Lemma pool_ok_insert p tx price now :
  pool_ok p -> etx_commitment tx ∉ known p -> (size (transactions p) < max_size p)%nat ->
  pool_ok (pool_insert p tx price now).
Proof.
  intros [Hs Hi Hk Hc Hz] Hn Hlt.
  assert (E : transactions p !! etx_commitment tx = None).
  { destruct (transactions p !! etx_commitment tx) eqn:E; [|done]. exfalso. apply Hn, Hk. eauto. }
  split; cbn [pool_insert transactions by_price known max_size].
  - by apply btree_insert_sorted.
  - intros k v. rewrite btree_insert_elem by done. rewrite Hi. split.
    + intros [[= -> ->]|[[-> (pt & Hpt & Hpr)] Hne]].
      * split; [done|]. simpl. rewrite lookup_insert_eq. eauto.
      * split; [done|]. exists pt. split; [|done]. rewrite lookup_insert_ne; [done|]. congruence.
    + intros [-> (pt & Hpt & Hpr)]. apply lookup_insert_Some in Hpt as [[Ec <-]|[Hne Hpt]].
      * left. simpl in Hpr. destruct k as [kp kc]. simpl in *. by subst.
      * right. split; [eauto|]. simpl. intros ->. by simpl in Hne.
  - intros c [pt Hpt]. apply lookup_insert_Some in Hpt as [[<- _]|[_ Hpt]]; [set_solver|].
    apply elem_of_union. right. eauto.
  - intros c pt Hpt. apply lookup_insert_Some in Hpt as [[<- <-]|[_ Hpt]]; [done|eauto].
  - rewrite map_size_insert_None by done. lia.
Qed.

(** ** Eviction and selection *)

Lemma price_key_lt_price a b : price_key_cmp a b = Lt -> U256_cmp a.1 b.1 <> Gt.
Proof. unfold price_key_cmp. by destruct (U256_cmp a.1 b.1). Qed.

Lemma pool_lowest p price c v rest :
  pool_ok p -> by_price p = ((price, c), v) :: rest ->
  (exists pt, transactions p !! c = Some pt /\ pt_gas_price pt = price) /\
  (forall c' pt', transactions p !! c' = Some pt' -> U256_cmp price (pt_gas_price pt') <> Gt).
Proof.
  intros [Hs Hi _ _ _] E. split.
  - assert (Hin : ((price, c), v) ∈ by_price p) by (rewrite E; left). apply Hi in Hin as [_ Hpt]. done.
  - intros c' pt' Hpt. assert (Hin : ((pt_gas_price pt', c'), c') ∈ by_price p) by (apply Hi; eauto).
    rewrite E in Hin, Hs. inversion_clear Hs as [|? ? _ Hlt]. apply elem_of_cons in Hin as [[= -> _ _]|Hin].
    + unfold U256_cmp. rewrite lex_compare_refl. done.
    + rewrite Forall_forall in Hlt. specialize (Hlt _ Hin). by apply price_key_lt_price in Hlt.
Qed.

Lemma pool_evict_cases p price :
  pool_ok p ->
  let '(p', evicted) := TransactionPool_evict_lowest p price in
  pool_ok p' /\ known p' = known p /\ max_size p' = max_size p /\
  if evicted then exists c pt, transactions p !! c = Some pt /\ U256_cmp price (pt_gas_price pt) = Gt /\
      (forall c' pt', transactions p !! c' = Some pt' -> U256_cmp (pt_gas_price pt) (pt_gas_price pt') <> Gt) /\
      transactions p' = delete c (transactions p)
  else p' = p /\ forall c pt, transactions p !! c = Some pt -> U256_cmp price (pt_gas_price pt) <> Gt.
Proof.
  intros Hp. unfold TransactionPool_evict_lowest. destruct (by_price p) as [|[[lp lc] v] rest] eqn:E.
  { split; [done|]. do 3 (split; [done|]). intros c pt Hpt. assert (Hin : ((pt_gas_price pt, c), c) ∈ by_price p) by (apply Hp; eauto).
    rewrite E in Hin. by apply not_elem_of_nil in Hin. }
  destruct (pool_lowest p lp lc v rest Hp E) as [(pt & Hpt & Hpr) Hlow].
  destruct (U256_cmp price lp) eqn:Ec.
  3: { pose proof (pool_ok_remove p lc Hp) as Hok. unfold TransactionPool_remove in *. rewrite Hpt in *.
       split; [done|]. do 2 (split; [done|]). exists lc, pt. rewrite Hpr. done. }
  all: split; [done|]; do 2 (split; [done|]); split; [done|]; intros c' pt' Hpt';
    apply (lex_compare_trans_lt (U256_limbs price) (U256_limbs lp)); [unfold U256_cmp in Ec; by rewrite Ec|by eapply Hlow].
Qed.

Lemma strongly_sorted_rev {A} (R : relation A) l :
  StronglySorted R l -> StronglySorted (fun a b => R b a) (rev l).
Proof.
  induction 1 as [|x l Hs IH Hx]; simpl; [constructor|].
  assert (Hin : forall y, y ∈ rev l -> R x y).
  { intros y Hy. rewrite Forall_forall in Hx. apply Hx. by apply list_elem_of_In, in_rev, list_elem_of_In. }
  revert Hin IH. generalize (rev l). intros r Hin Hr. induction Hr as [|y r Hr IHr Hy]; simpl; [repeat constructor|].
  constructor; [apply IHr; intros z Hz; apply Hin; by right|].
  apply Forall_app. split; [done|]. constructor; [apply Hin; left|constructor].
Qed.

(** All transactions of the pool in the order [best] lists them. *)
Definition pool_ranking (p : TransactionPool) : list PendingTransaction :=
  omap (fun commitment => transactions p !! commitment) (rev (map snd (by_price p))).

Lemma omap_take_total {A B} (f : A -> option B) l n :
  Forall (fun x => is_Some (f x)) l -> omap f (take n l) = take n (omap f l) /\ length (omap f l) = length l.
Proof.
  intros Hl. revert n. induction Hl as [|x l [y Hy] Hl IH]; intros n; [by destruct n|].
  destruct n as [|n]; csimpl; rewrite Hy; csimpl.
  - split; [done|]. by rewrite (proj2 (IH 0%nat)).
  - destruct (IH n) as [-> ->]. done.
Qed.

Lemma pool_entries_total p : pool_ok p -> Forall (fun c => is_Some (transactions p !! c)) (rev (map snd (by_price p))).
Proof.
  intros Hp. apply Forall_forall. intros c Hc. apply list_elem_of_In, in_rev, list_elem_of_In in Hc.
  apply list_elem_of_fmap in Hc as ([k v] & -> & Hin). apply Hp in Hin as [-> (pt & Hpt & _)]. eauto.
Qed.

Lemma pool_keys_perm p : pool_ok p -> map snd (by_price p) ≡ₚ (map_to_list (transactions p)).*1.
Proof.
  intros Hp. apply NoDup_Permutation; [|apply NoDup_fst_map_to_list|].
  - pose proof (po_sorted p Hp) as Hs. assert (Hv : Forall (fun e => e.2 = e.1.2 /\
      exists pt, transactions p !! e.1.2 = Some pt /\ pt_gas_price pt = e.1.1) (by_price p)).
    { apply Forall_forall. intros [k v] Hin. by apply Hp in Hin. }
    induction Hs as [|[k v] l Hs IH Hk]; simpl; [constructor|]. apply Forall_cons in Hv as [[Ev (pt & Hpt & Hpr)] Hv].
    constructor; [|by apply IH]. intros Hin. apply list_elem_of_fmap in Hin as ([k' v'] & Ev' & Hin).
    rewrite Forall_forall in Hv, Hk. destruct (Hv _ Hin) as [Ek' (pt' & Hpt' & Hpr')]. specialize (Hk _ Hin).
    unfold entry_lt in Hk. simpl in *. assert (E : k = k').
    { destruct k as [kp kc], k' as [kp' kc']. simpl in *. subst. congruence. }
    subst k'. by rewrite (proj2 (price_key_cmp_eq k k) eq_refl) in Hk.
  - intros c. split.
    + intros Hin. apply list_elem_of_fmap in Hin as ([k v] & -> & Hin). apply Hp in Hin as [-> (pt & Hpt & _)].
      apply list_elem_of_fmap. exists (k.2, pt). split; [done|]. by apply elem_of_map_to_list.
    + intros Hin. apply list_elem_of_fmap in Hin as ([c' pt] & -> & Hin). apply elem_of_map_to_list in Hin.
      apply list_elem_of_fmap. exists ((pt_gas_price pt, c'), c'). split; [done|]. apply Hp. eauto.
Qed.

Lemma omap_lookup_keys {V} (m : gmap (list Z) V) l :
  (forall k v, (k, v) ∈ l -> m !! k = Some v) -> omap (fun k => m !! k) l.*1 = l.*2.
Proof.
  induction l as [|[k v] l IH]; intros Hl; [done|]. csimpl. rewrite (Hl k v) by left. csimpl. f_equal.
  apply IH. intros k' v' Hin. apply Hl. by right.
Qed.

Lemma pool_ranking_perm p : pool_ok p -> pool_ranking p ≡ₚ TransactionPool_all p.
Proof.
  intros Hp. unfold pool_ranking, TransactionPool_all. rewrite <- Permutation_rev, (pool_keys_perm p Hp).
  rewrite omap_lookup_keys; [done|]. intros k v Hin. by apply elem_of_map_to_list in Hin.
Qed.

Definition price_desc (a b : PendingTransaction) : Prop := U256_cmp (pt_gas_price b) (pt_gas_price a) <> Gt.

Lemma pool_ranking_sorted p : pool_ok p -> StronglySorted price_desc (pool_ranking p).
Proof.
  intros Hp. unfold pool_ranking.
  assert (Hs : StronglySorted (fun a b => forall pa pb, transactions p !! a = Some pa -> transactions p !! b = Some pb -> price_desc pb pa)
    (map snd (by_price p))).
  { pose proof (po_sorted p Hp) as Hs. assert (Hv : forall e, e ∈ by_price p -> e.2 = e.1.2 /\
      forall pt, transactions p !! e.2 = Some pt -> pt_gas_price pt = e.1.1).
    { intros [k v] Hin. apply Hp in Hin as [-> (pt & Hpt & Hpr)]. split; [done|]. simpl. intros pt'. congruence. }
    induction Hs as [|e l Hs IH He]; simpl; [constructor|]. constructor; [apply IH; intros; apply Hv; by right|].
    apply Forall_fmap, Forall_forall. intros e' Hin pa pb Ha Hb. rewrite Forall_forall in He. specialize (He e' Hin).
    unfold price_desc. rewrite (proj2 (Hv e ltac:(left)) pa Ha), (proj2 (Hv e' ltac:(by right)) pb Hb).
    by apply price_key_lt_price. }
  apply strongly_sorted_rev in Hs. pose proof (pool_entries_total p Hp) as Ht. revert Hs Ht.
  generalize (rev (map snd (by_price p))). intros l Hs Ht.
  induction Hs as [|c l Hs IH Hc]; [constructor|]. apply Forall_cons in Ht as [[pt Hpt] Ht]. csimpl. rewrite Hpt. csimpl.
  constructor; [by apply IH|]. apply Forall_forall. intros pt' Hin. apply list_elem_of_omap in Hin as (c' & Hin & Hpt').
  rewrite Forall_forall in Hc. by apply (Hc c' Hin).
Qed.

(** A price of one limb, and the order on such prices. *)
Definition one_limb_price (u : U256) : Prop := is_u256 u /\ limb1 u = 0 /\ limb2 u = 0 /\ limb3 u = 0.

Lemma one_limb_order a b : one_limb_price a -> one_limb_price b -> U256_cmp a b = (u256_val a ?= u256_val b).
Proof.
  destruct a as [a0 a1 a2 a3], b as [b0 b1 b2 b3]. intros (_ & Ea1 & Ea2 & Ea3) (_ & Eb1 & Eb2 & Eb3). simpl in *. subst.
  unfold U256_cmp, U256_limbs, u256_val. simpl. rewrite !Z.add_0_r. by destruct (a0 ?= b0).
Qed.

(** ** Properties *)

(** C30: the pool invariant.  Adding, removing, pruning and marking as included
    keep the price index in step with the stored transactions (sorted, one
    entry per transaction), every stored transaction known and filed under its
    own commitment, and the size within the limit. *)
Theorem pool_invariant (p : TransactionPool) (tx : EncryptedTransaction) (price : U256) (now : Z)
    (c : list Z) (cs : list (list Z)) (n : nat) :
  pool_ok p ->
  pool_ok (TransactionPool_new n) /\
  pool_ok (TransactionPool_add p tx price now).1 /\
  pool_ok (TransactionPool_remove p c).1 /\
  pool_ok (TransactionPool_prune_expired p now).1 /\
  pool_ok (TransactionPool_mark_included p cs).1.
Proof.
  intros Hp. split; [apply pool_ok_new|]. split; [|split; [by apply pool_ok_remove|split]].
  - unfold TransactionPool_add. case_bool_decide as Hk; [done|].
    destruct (max_size p <=? size (transactions p))%nat eqn:E; bool_to_prop; [|by apply pool_ok_insert].
    pose proof (pool_evict_cases p price Hp) as He. destruct (TransactionPool_evict_lowest p price) as [p' [|]]; [|by destruct He].
    destruct He as (Hp' & Ek & Em & c' & pt & Hpt & _ & _ & Et). apply pool_ok_insert; [done|by rewrite Ek|].
    rewrite Em, Et, map_size_delete, Hpt. pose proof (po_size p Hp).
    assert (size (transactions p) <> 0%nat); [|simpl; lia]. intros Hz. apply map_size_empty_inv in Hz.
    by rewrite Hz, lookup_empty in Hpt.
  - unfold TransactionPool_prune_expired, pool_remove_all. cbn [fst].
    generalize ((filter (fun e : list Z * PendingTransaction => max_age_secs p * 1000000000 < Z.max 0 (now - pt_received_at e.2)) (map_to_list (transactions p))).*1).
    intros l. revert p Hp. induction l as [|c' l IH]; intros p Hp; [done|]. simpl. by apply IH, pool_ok_remove.
  - unfold TransactionPool_mark_included. generalize 0%nat. revert p Hp.
    induction cs as [|c' cs IH]; intros p Hp k; [done|]. simpl. pose proof (pool_ok_remove p c' Hp) as Hr.
    destruct (TransactionPool_remove p c') as [p' r]. by apply IH.
Qed.

(** Admission.  [add] refuses a known commitment; when the pool is full it
    admits the transaction only if its price is above the lowest one, in place
    of a transaction with the lowest price, and otherwise refuses it leaving
    the pool as it was; an admitted transaction can be looked up and is known
    from then on. *)
Theorem pool_admission (p : TransactionPool) (tx : EncryptedTransaction) (price : U256) (now : Z) :
  pool_ok p ->
  let c := etx_commitment tx in
  let '(p', res) := TransactionPool_add p tx price now in
  match res with
  | inl AlreadyKnown => TransactionPool_contains p c = true /\ p' = p
  | inl PoolFull => p' = p /\ size (transactions p) = max_size p /\
      forall c' pt, transactions p !! c' = Some pt -> U256_cmp price (pt_gas_price pt) <> Gt
  | inl _ => False
  | inr tt =>
      TransactionPool_contains p c = false /\ TransactionPool_contains p' c = true /\
      TransactionPool_get p' c = Some (mkPending tx price now 0) /\
      ((size (transactions p) < max_size p)%nat /\ delete c (transactions p') = transactions p \/
       size (transactions p) = max_size p /\
       exists e pt, transactions p !! e = Some pt /\ U256_cmp price (pt_gas_price pt) = Gt /\
         (forall c' pt', transactions p !! c' = Some pt' -> U256_cmp (pt_gas_price pt) (pt_gas_price pt') <> Gt) /\
         delete c (transactions p') = delete e (transactions p))
  end.
Proof.
  intros Hp c. unfold TransactionPool_add. fold c. unfold TransactionPool_contains.
  case_bool_decide as Hk; [done|]. pose proof (po_size p Hp) as Hz.
  assert (Hnone : transactions p !! c = None).
  { destruct (transactions p !! c) eqn:E; [|done]. exfalso. apply Hk, (po_known p Hp). eauto. }
  destruct (max_size p <=? size (transactions p))%nat eqn:E; bool_to_prop.
  - pose proof (pool_evict_cases p price Hp) as He. destruct (TransactionPool_evict_lowest p price) as [p' [|]].
    + destruct He as (_ & Ek & _ & e & pt & Hpt & Hgt & Hlow & Et). split; [done|].
      unfold TransactionPool_get, pool_insert. cbn [transactions known]. fold c. rewrite lookup_insert_eq, delete_insert_eq, Et.
      split; [apply bool_decide_eq_true; set_solver|]. split; [done|]. right. split; [lia|]. exists e, pt.
      do 3 (split; [done|]). rewrite delete_id; [done|]. rewrite lookup_delete_None. auto.
    + destruct He as (_ & _ & _ & -> & Hlow). split; [done|]. split; [lia|done].
  - split; [done|]. unfold TransactionPool_get, pool_insert. cbn [transactions known]. fold c.
    rewrite lookup_insert_eq, delete_insert_eq. split; [apply bool_decide_eq_true; set_solver|]. split; [done|].
    left. split; [lia|]. by apply delete_id.
Qed.

(** Selection.  While all prices fit in one limb, [best] returns as many
    transactions as asked for or available, the most expensive first, and no
    transaction it leaves out has a higher price than one it returns. *)
Theorem pool_best_highest (p : TransactionPool) (limit : nat) :
  pool_ok p -> map_Forall (fun _ pt => one_limb_price (pt_gas_price pt)) (transactions p) ->
  exists rest,
    TransactionPool_best p limit ++ rest ≡ₚ TransactionPool_all p /\
    length (TransactionPool_best p limit) = Nat.min limit (TransactionPool_len p) /\
    StronglySorted (fun a b => u256_val (pt_gas_price b) <= u256_val (pt_gas_price a))
      (TransactionPool_best p limit ++ rest).
Proof.
  intros Hp Hone. exists (drop limit (pool_ranking p)).
  destruct (omap_take_total (fun c => transactions p !! c) _ limit (pool_entries_total p Hp)) as [Et El].
  assert (Eb : TransactionPool_best p limit = take limit (pool_ranking p)) by exact Et.
  rewrite Eb, take_drop. split; [by apply pool_ranking_perm|]. split.
  - rewrite length_take. unfold TransactionPool_len. rewrite (Permutation_length (pool_ranking_perm p Hp)).
    unfold TransactionPool_all. by rewrite length_fmap, length_map_to_list.
  - assert (Hall : Forall (fun pt => one_limb_price (pt_gas_price pt)) (pool_ranking p)).
    { apply Forall_forall. intros pt Hin. rewrite (pool_ranking_perm p Hp) in Hin.
      apply list_elem_of_fmap in Hin as ([c pt'] & -> & Hin). apply elem_of_map_to_list in Hin. by apply (Hone c). }
    pose proof (pool_ranking_sorted p Hp) as Hs. clear Et El Eb. revert Hs Hall. generalize (pool_ranking p). intros l0 Hs.
    induction Hs as [|pt l Hs IH Hd]; intros Hall; [constructor|].
    apply Forall_cons in Hall as [Hpt Hall]. constructor; [by apply IH|]. rewrite Forall_forall in Hd, Hall |- *.
    intros pt' Hin. specialize (Hd pt' Hin). unfold price_desc in Hd. rewrite (one_limb_order _ _ (Hall pt' Hin) Hpt) in Hd. exact Hd.
Qed.

(** Prices above 2^64 are misordered.  [U256] is compared from its least
    significant limb, so a full pool drops a transaction that pays 2^64 per
    unit of gas for one that pays 1. *)
Theorem cheap_transaction_evicts_dear (dear cheap : EncryptedTransaction) (now : Z) :
  etx_commitment dear <> etx_commitment cheap ->
  let p := (TransactionPool_add (TransactionPool_new 1) dear (mkU256 0 1 0 0) now).1 in
  let '(p', res) := TransactionPool_add p cheap U256_ONE now in
  u256_val U256_ONE < u256_val (mkU256 0 1 0 0) /\ res = inr tt /\
  TransactionPool_get p (etx_commitment dear) = Some (mkPending dear (mkU256 0 1 0 0) now 0) /\
  TransactionPool_get p' (etx_commitment dear) = None.
Proof.
  intros Hne p. assert (Ep : p = pool_insert (TransactionPool_new 1) dear (mkU256 0 1 0 0) now).
  { unfold p, TransactionPool_add. cbn [TransactionPool_new known transactions max_size].
    rewrite bool_decide_eq_false_2 by apply not_elem_of_empty. by rewrite map_size_empty. }
  rewrite Ep. clear p Ep. unfold TransactionPool_add, pool_insert, TransactionPool_new.
  cbn [known transactions by_price max_size btree_insert].
  rewrite bool_decide_eq_false_2 by set_solver. rewrite insert_empty, map_size_singleton. cbn [Nat.leb].
  unfold TransactionPool_evict_lowest, TransactionPool_remove. cbn [by_price transactions].
  change (U256_cmp U256_ONE (mkU256 0 1 0 0)) with Gt. rewrite lookup_singleton_eq. cbn beta iota.
  split; [reflexivity|]. split; [done|]. unfold TransactionPool_get. cbn [fst transactions].
  rewrite lookup_singleton_eq, lookup_insert_ne by done. split; [done|]. apply lookup_delete_eq.
Qed.

(** ** Witnesses *)

Definition pool_tx (i : Z) : EncryptedTransaction := sample_etx i.
Definition pool_sample : TransactionPool :=
  (TransactionPool_add (TransactionPool_add (TransactionPool_new 2) (pool_tx 1) (U256_from_u64 10) 0).1
    (pool_tx 2) (U256_from_u64 20) 0).1.

Lemma pool_sample_ok : pool_ok pool_sample.
Proof.
  change pool_sample with (pool_insert (pool_insert (TransactionPool_new 2) (pool_tx 1) (U256_from_u64 10) 0)
    (pool_tx 2) (U256_from_u64 20) 0).
  repeat apply pool_ok_insert; try apply pool_ok_new; try (apply (bool_decide_eq_true_1 _); vm_compute; reflexivity);
    vm_compute; lia.
Qed.

Lemma pool_invariant_witness : pool_ok (TransactionPool_add pool_sample (pool_tx 3) (U256_from_u64 30) 5).1.
Proof. apply (pool_invariant pool_sample (pool_tx 3) (U256_from_u64 30) 5 [] [] 0), pool_sample_ok. Defined.

Lemma pool_admission_witness :
  (TransactionPool_add pool_sample (pool_tx 3) (U256_from_u64 30) 5).2 = inr tt /\
  TransactionPool_get (TransactionPool_add pool_sample (pool_tx 3) (U256_from_u64 30) 5).1 (replicate 32 3) =
    Some (mkPending (pool_tx 3) (U256_from_u64 30) 5 0).
Proof.
  pose proof (pool_admission pool_sample (pool_tx 3) (U256_from_u64 30) 5 pool_sample_ok) as Ha. cbv zeta in Ha.
  assert (E : (TransactionPool_add pool_sample (pool_tx 3) (U256_from_u64 30) 5).2 = inr tt) by (vm_compute; reflexivity).
  destruct (TransactionPool_add pool_sample (pool_tx 3) (U256_from_u64 30) 5) as [p' res]. cbn [fst snd] in *. subst res.
  split; [reflexivity|]. apply Ha.
Defined.

Lemma pool_best_highest_witness :
  map pt_gas_price (TransactionPool_best pool_sample 1) = [U256_from_u64 20] /\
  exists rest, TransactionPool_best pool_sample 1 ++ rest ≡ₚ TransactionPool_all pool_sample.
Proof.
  split; [vm_compute; reflexivity|].
  destruct (pool_best_highest pool_sample 1 pool_sample_ok) as (rest & Hp & _); [|exists rest; exact Hp].
  change (transactions pool_sample) with (<[replicate 32 2 := mkPending (pool_tx 2) (U256_from_u64 20) 0 0]>
    (<[replicate 32 1 := mkPending (pool_tx 1) (U256_from_u64 10) 0 0]> (∅ : gmap (list Z) PendingTransaction))).
  repeat apply map_Forall_insert_2; [..|apply map_Forall_empty];
    (split; [apply is_u256_from_u64; u64_lia|done]).
Defined.

Lemma cheap_transaction_evicts_dear_witness :
  TransactionPool_get (TransactionPool_add (TransactionPool_add (TransactionPool_new 1) (pool_tx 1) (mkU256 0 1 0 0) 0).1
    (pool_tx 2) U256_ONE 0).1 (replicate 32 1) = None.
Proof.
  pose proof (cheap_transaction_evicts_dear (pool_tx 1) (pool_tx 2) 0 ltac:(discriminate)) as Hc. cbv zeta in Hc.
  destruct (TransactionPool_add (TransactionPool_add (TransactionPool_new 1) (pool_tx 1) (mkU256 0 1 0 0) 0).1
    (pool_tx 2) U256_ONE 0) as [p' res]. apply Hc.
Defined.
