(* ===== verification/Block.v ===== *)
(** * Blocks: [src/types/block.rs] and [src/node/blocks.rs]

    Block construction, the hexadecimal text forms of the RPC types, and the
    block store with its log query.  Text is a list of ASCII codes; the [hex]
    crate is the interface [Hex]. *)

From S2P Require Import Prelude Types Vm.

(** ** Hexadecimal text *)

(** [s.trim_start_matches("0x")]: all leading occurrences. *)
Fixpoint trim_0x (s : list Z) : list Z :=
  match s with
  | a :: ((b :: s') as t) => if (a =? 48) && (b =? 120) then trim_0x s' else a :: t
  | _ => s
  end.

(** [format!("{:x}", value)]. *)
Definition hex_digit (d : Z) : Z := if d <? 10 then 48 + d else 87 + d.

Fixpoint hex_digits (fuel : nat) (x : Z) : list Z :=
  match fuel with
  | O => []
  | S fuel => if x <? 16 then [hex_digit x] else hex_digits fuel (x / 16) ++ [hex_digit (x mod 16)]
  end.

Definition format_x (x : Z) : list Z := hex_digits 16 x.

(** [char::to_digit(16)]. *)
Definition to_digit (c : Z) : option Z :=
  if (48 <=? c) && (c <=? 57) then Some (c - 48)
  else if (97 <=? c) && (c <=? 102) then Some (c - 87)
  else if (65 <=? c) && (c <=? 70) then Some (c - 55)
  else None.

(** [u64::from_str_radix(s, 16)]: an optional sign, at least one digit, no
    overflow. *)
Fixpoint parse_digits (acc : Z) (s : list Z) : option Z :=
  match s with
  | [] => Some acc
  | c :: s =>
      d ← to_digit c;
      let acc := acc * 16 + d in
      if acc <? u64_bound then parse_digits acc s else None
  end.

Definition from_str_radix_16 (s : list Z) : option Z :=
  match s with
  | [] => None
  | c :: s' =>
      if c =? 43 then match s' with [] => None | _ => parse_digits 0 s' end
      else parse_digits 0 s
  end.

Definition hex_u64_serialize (value : Z) : list Z := prefix_0x ++ format_x value.
Definition hex_u64_deserialize (s : list Z) : option Z := from_str_radix_16 (trim_0x s).

Section hex.
Context `{Hex}.

Definition hex_bytes_serialize (value : bytes) : list Z := prefix_0x ++ hex_encode value.
Definition hex_bytes_deserialize (s : list Z) : option bytes := hex_decode (trim_0x s).

(** The fixed-size forms, [[u8; 32]] and [[u8; 256]]. *)
Definition hex_array_deserialize (n : nat) (s : list Z) : option bytes :=
  bytes ← hex_decode (trim_0x s);
  if (length bytes =? n)%nat then Some bytes else None.

Definition hex_bytes32_serialize (value : bytes) : list Z := hex_bytes_serialize value.
Definition hex_bytes32_deserialize (s : list Z) : option bytes := hex_array_deserialize 32 s.
Definition hex_bytes256_serialize (value : bytes) : list Z := hex_bytes_serialize value.
Definition hex_bytes256_deserialize (s : list Z) : option bytes := hex_array_deserialize 256 s.
Definition TxHash_serialize (value : bytes) : list Z := hex_bytes_serialize value.
Definition TxHash_deserialize (s : list Z) : option bytes := hex_array_deserialize 32 s.
End hex.

(** ** Blocks *)

Abbreviation TxHash := (list Z) (only parsing).

Record Block := mkBlock {
  bl_number : Z;
  bl_hash : bytes;
  bl_parent_hash : bytes;
  bl_state_root : bytes;
  bl_transactions_root : bytes;
  bl_receipts_root : bytes;
  bl_logs_bloom : bytes;
  bl_miner : Address;
  bl_difficulty : Z;
  bl_total_difficulty : Z;
  bl_extra_data : bytes;
  bl_size : Z;
  bl_gas_limit : Z;
  bl_gas_used : Z;
  bl_timestamp : Z;
  bl_transactions : list TxHash;
  bl_uncles : list TxHash;
  bl_base_fee_per_gas : Z;
  bl_dag_events : list EventId
}.

Definition Block_genesis (chain_id : Z) : Block :=
  mkBlock 0 (replicate 32 0) (replicate 32 0) (replicate 32 0) (replicate 32 0) (replicate 32 0) (replicate 256 0)
    Address_zero 0 0 (string_bytes ("Ryther Genesis - Chain " +:+ show_u64 chain_id)) 0 30000000 0 0 [] [] 1000000000 [].

Definition block_hash `{Hashes} (number : Z) (parent_hash state_root : bytes) : bytes :=
  sha256 (le_bytes 8 number ++ parent_hash ++ state_root).

Definition Block_from_round `{Hashes} (number : Z) (parent_hash state_root : bytes) (transactions : list bytes)
    (dag_events : list EventId) (leader : Address) (gas_used timestamp : Z) : Block :=
  let hash := block_hash number parent_hash state_root in
  let tx_root := match transactions with [] => replicate 32 0 | _ => sha256 (concat transactions) end in
  mkBlock number hash parent_hash state_root tx_root (replicate 32 0) (replicate 256 0)
    leader 0 0 [] (Z.of_nat (length transactions) ⊠ 32) 30000000 gas_used timestamp transactions [] 1000000000 dag_events.

Record BlockLog := mkBlockLog {
  lg_address : Address;
  lg_topics : list TxHash;
  lg_data : bytes;
  lg_block_number : Z;
  lg_transaction_hash : TxHash;
  lg_transaction_index : Z;
  lg_block_hash : TxHash;
  lg_log_index : Z;
  lg_removed : bool
}.

Record TransactionReceipt := mkReceipt {
  rc_transaction_hash : TxHash;
  rc_transaction_index : Z;
  rc_block_hash : TxHash;
  rc_block_number : Z;
  rc_from : Address;
  rc_to : option Address;
  rc_cumulative_gas_used : Z;
  rc_gas_used : Z;
  rc_contract_address : option Address;
  rc_logs : list BlockLog;
  rc_logs_bloom : bytes;
  rc_status : Z;
  rc_effective_gas_price : Z;
  rc_tx_type : Z
}.

Inductive BlockId :=
| BlockNumber (n : Z)
| BlockHash (h : TxHash)
| BlockTag (t : string).

Definition BlockId_default : BlockId := BlockTag "latest".

Record LogFilter := mkLogFilter {
  lf_from_block : option BlockId;
  lf_to_block : option BlockId;
  lf_address : option (list Address);
  lf_topics : option (list (option (list TxHash)))
}.

(** ** The block store *)

Record BlockStore := mkBlockStore {
  by_number : gmap Z Block;
  by_hash : gmap (list Z) Block;
  receipts : gmap (list Z) TransactionReceipt;
  tx_to_block : gmap (list Z) Z;
  logs_by_block : gmap Z (list BlockLog);
  latest : Z
}.

Definition BlockStore_new : BlockStore := mkBlockStore ∅ ∅ ∅ ∅ ∅ 0.
Definition BlockStore_default : BlockStore := BlockStore_new.

Definition BlockStore_insert_block (s : BlockStore) (block : Block) : BlockStore :=
  let block_num := bl_number block in
  mkBlockStore (<[block_num := block]> (by_number s)) (<[bl_hash block := block]> (by_hash s)) (receipts s)
    (fold_left (fun m tx => <[tx := block_num]> m) (bl_transactions block) (tx_to_block s))
    (logs_by_block s)
    (if latest s <? block_num then block_num else latest s).

Definition BlockStore_get_by_number (s : BlockStore) (number : Z) : option Block := by_number s !! number.
Definition BlockStore_get_by_hash (s : BlockStore) (hash : bytes) : option Block := by_hash s !! hash.
Definition BlockStore_latest_number (s : BlockStore) : Z := latest s.
Definition BlockStore_latest_block (s : BlockStore) : option Block :=
  BlockStore_get_by_number s (BlockStore_latest_number s).

Definition BlockStore_insert_receipt (s : BlockStore) (tx_hash : bytes) (receipt : TransactionReceipt) : BlockStore :=
  let block_num := rc_block_number receipt in
  mkBlockStore (by_number s) (by_hash s) (<[tx_hash := receipt]> (receipts s)) (tx_to_block s)
    (<[block_num := default [] (logs_by_block s !! block_num) ++ rc_logs receipt]> (logs_by_block s)) (latest s).

Definition BlockStore_get_receipt (s : BlockStore) (tx_hash : bytes) : option TransactionReceipt := receipts s !! tx_hash.
Definition BlockStore_get_tx_block (s : BlockStore) (tx_hash : bytes) : option Z := tx_to_block s !! tx_hash.

(** The loop over the topic filters, with [break] at the first mismatch. *)
Fixpoint topics_match (i : nat) (filters : list (option (list TxHash))) (topics : list TxHash) : bool :=
  match filters with
  | [] => true
  | None :: filters => topics_match (S i) filters topics
  | Some allowed :: filters =>
      match topics !! i with
      | None => false
      | Some t => if bool_decide (t ∈ allowed) then topics_match (S i) filters topics else false
      end
  end.

Definition log_matches (addresses : option (list Address)) (topics : option (list (option (list TxHash))))
    (log : BlockLog) : bool :=
  match addresses with
  | Some addrs => bool_decide (lg_address log ∈ addrs)
  | None => true
  end &&
  match topics with
  | Some filters => topics_match 0 filters (lg_topics log)
  | None => true
  end.

Definition BlockStore_get_logs (s : BlockStore) (from_block to_block : Z) (addresses : option (list Address))
    (topics : option (list (option (list TxHash)))) : list BlockLog :=
  concat (map (fun block_num => List.filter (log_matches addresses topics) (default [] (logs_by_block s !! block_num)))
    (range_incl from_block to_block)).

Definition BlockStore_block_count (s : BlockStore) : nat := size (by_number s).

(** ** Text lemmas *)

Definition is_digit (c : Z) : Prop := 48 <= c <= 57 \/ 97 <= c <= 102.

Lemma hex_digit_is d : 0 <= d < 16 -> is_digit (hex_digit d).
Proof. intros Hd. unfold hex_digit, is_digit. destruct (Z.ltb_spec d 10); lia. Qed.

Lemma to_digit_hex d : 0 <= d < 16 -> to_digit (hex_digit d) = Some d.
Proof.
  intros Hd. unfold hex_digit, to_digit. destruct (Z.ltb_spec d 10).
  - rewrite (proj2 (Z.leb_le 48 _)), (proj2 (Z.leb_le _ 57)) by lia. simpl. f_equal. lia.
  - rewrite (proj2 (Z.leb_gt _ 57)) by lia. rewrite andb_false_r.
    rewrite (proj2 (Z.leb_le 97 _)), (proj2 (Z.leb_le _ 102)) by lia. simpl. f_equal. lia.
Qed.

Lemma trim_0x_digits s : Forall is_digit s -> trim_0x s = s.
Proof.
  intros Hs. destruct s as [|a [|b s]]; [done..|]. simpl.
  apply Forall_cons in Hs as [_ Hs]. apply Forall_cons in Hs as [Hb _]. unfold is_digit in Hb.
  destruct (Z.eqb_spec b 120); [lia|]. by rewrite andb_false_r.
Qed.

Lemma trim_0x_prefix s : Forall is_digit s -> trim_0x (prefix_0x ++ s) = s.
Proof. intros Hs. simpl. by apply trim_0x_digits. Qed.

Lemma hex_digits_spec fuel x :
  0 <= x < 16 ^ Z.of_nat (S fuel) ->
  Forall is_digit (hex_digits (S fuel) x) /\ hex_digits (S fuel) x <> [] /\
  (x < u64_bound -> parse_digits 0 (hex_digits (S fuel) x) = Some x).
Proof.
  assert (Happ : forall l acc y c, parse_digits acc l = Some y ->
    parse_digits acc (l ++ [c]) = d ← to_digit c; if y * 16 + d <? u64_bound then Some (y * 16 + d) else None).
  { induction l as [|c0 l IH]; intros acc y c; simpl.
    - intros [= ->]. by destruct (to_digit c).
    - destruct (to_digit c0); simpl; [|done]. destruct (_ <? u64_bound); [apply IH|done]. }
  revert x. induction fuel as [|fuel IH]; intros x Hx.
  - change (16 ^ Z.of_nat 1) with 16 in Hx. cbn [hex_digits]. rewrite (proj2 (Z.ltb_lt x 16)) by lia.
    split; [by apply Forall_singleton, hex_digit_is|]. split; [done|]. intros Hb. simpl.
    rewrite to_digit_hex by lia. simpl. by rewrite (proj2 (Z.ltb_lt x _)).
  - rewrite Nat2Z.inj_succ, Z.pow_succ_r in Hx by lia.
    change (hex_digits (S (S fuel)) x) with
      (if x <? 16 then [hex_digit x] else hex_digits (S fuel) (x / 16) ++ [hex_digit (x mod 16)]).
    pose proof (Z.mod_pos_bound x 16 ltac:(lia)) as Hm. pose proof (Z.div_mod x 16 ltac:(lia)) as Hd.
    destruct (Z.ltb_spec x 16).
    + split; [apply Forall_singleton, hex_digit_is; lia|]. split; [done|]. intros Hb. simpl.
      rewrite to_digit_hex by lia. simpl. by rewrite (proj2 (Z.ltb_lt x _)).
    + destruct (IH (x / 16)) as (Hdig & Hne & Hp).
      { split; [apply Z.div_pos; lia|]. apply Z.div_lt_upper_bound; lia. }
      split; [apply Forall_app; split; [done|by apply Forall_singleton, hex_digit_is]|].
      split; [by intros [_ ?]%app_eq_nil|]. intros Hb. assert (Hlt : x / 16 < u64_bound) by lia.
      rewrite (Happ _ _ _ _ (Hp Hlt)), to_digit_hex by done. simpl.
      rewrite (proj2 (Z.ltb_lt _ u64_bound)) by lia. f_equal. lia.
Qed.

Lemma from_str_radix_digits s : Forall is_digit s -> s <> [] -> from_str_radix_16 s = parse_digits 0 s.
Proof.
  intros Hs Hne. destruct s as [|c s]; [done|]. apply Forall_cons in Hs as [Hc _]. unfold is_digit in Hc.
  unfold from_str_radix_16. destruct (Z.eqb_spec c 43); [lia|done].
Qed.

(** ** Store lemmas *)

Lemma topics_match_spec i filters topics :
  topics_match i filters topics = true <->
  forall j allowed, filters !! j = Some (Some allowed) -> exists t, topics !! (i + j)%nat = Some t /\ t ∈ allowed.
Proof.
  revert i. induction filters as [|[allowed|] filters IH]; intros i; simpl; [done| |].
  - split.
    + intros Hm [|j] al Hj; simpl in Hj.
      * injection Hj as ->. rewrite Nat.add_0_r. destruct (topics !! i) as [t|]; [|done].
        case_bool_decide; [eauto|done].
      * destruct (topics !! i) as [t|]; [|done]. case_bool_decide; [|done].
        rewrite IH in Hm. destruct (Hm j al Hj) as (t' & Ht & Hin). exists t'.
        by replace (i + S j)%nat with (S i + j)%nat by lia.
    + intros Hm. destruct (Hm 0%nat allowed eq_refl) as (t & Ht & Hin). rewrite Nat.add_0_r in Ht. rewrite Ht.
      rewrite bool_decide_eq_true_2 by done. apply IH. intros j al Hj. destruct (Hm (S j) al Hj) as (t' & Ht' & Hin').
      exists t'. by replace (S i + j)%nat with (i + S j)%nat by lia.
  - rewrite IH. split.
    + intros Hm [|j] al Hj; [done|]. destruct (Hm j al Hj) as (t & Ht & Hin). exists t.
      by replace (i + S j)%nat with (S i + j)%nat by lia.
    + intros Hm j al Hj. destruct (Hm (S j) al Hj) as (t & Ht & Hin). exists t.
      by replace (S i + j)%nat with (i + S j)%nat by lia.
Qed.

Lemma fold_insert_lookup (txs : list (list Z)) (n : Z) m h :
  fold_left (fun (m : gmap (list Z) Z) tx => <[tx := n]> m) txs m !! h = if decide (h ∈ txs) then Some n else m !! h.
Proof.
  revert m. induction txs as [|tx txs IH]; intros m; simpl; [done|]. rewrite IH.
  destruct (decide (h ∈ txs)) as [Hin|Hni]; [by rewrite decide_True by by right|].
  destruct (decide (tx = h)) as [->|Hne].
  - by rewrite lookup_insert_eq, decide_True by left.
  - rewrite lookup_insert_ne, decide_False; [done| |done]. intros [->|?]%elem_of_cons; done.
Qed.

(** ** Properties *)

(** The quantities of the RPC types survive their text form: reading back
    the "0x" text written for a 64-bit number gives the number, and for a byte
    string of the right length the same bytes. *)
Theorem hex_roundtrip `{HexOk} (v : Z) (b : bytes) :
  is_u64 v -> Forall is_u8 b ->
  hex_u64_deserialize (hex_u64_serialize v) = Some v /\
  hex_bytes_deserialize (hex_bytes_serialize b) = Some b /\
  hex_array_deserialize (length b) (hex_bytes_serialize b) = Some b /\
  (forall n, n <> length b -> hex_array_deserialize n (hex_bytes_serialize b) = None).
Proof.
  intros Hv Hb. pose proof (hex_encode_digits b Hb) as Hd.
  destruct (hex_digits_spec 15 v) as (Hdig & Hne & Hp); [exact Hv|].
  split; [|split; [|split]].
  - unfold hex_u64_deserialize, hex_u64_serialize, format_x. rewrite trim_0x_prefix by done.
    rewrite from_str_radix_digits by done. apply Hp. unfold is_u64 in Hv. lia.
  - unfold hex_bytes_deserialize, hex_bytes_serialize. rewrite trim_0x_prefix by done. by apply hex_decode_encode.
  - unfold hex_array_deserialize, hex_bytes_serialize. rewrite trim_0x_prefix, hex_decode_encode by done. simpl.
    by rewrite Nat.eqb_refl.
  - intros n Hn. unfold hex_array_deserialize, hex_bytes_serialize. rewrite trim_0x_prefix, hex_decode_encode by done. simpl.
    by rewrite (proj2 (Nat.eqb_neq _ _)).
Qed.

(** Storing a block makes it retrievable by number and by hash and maps all
    its transactions to it, moves the latest number to the highest stored, and
    changes no other entry. *)
Theorem insert_block_spec (s : BlockStore) (b : Block) :
  let s' := BlockStore_insert_block s b in
  (forall n, BlockStore_get_by_number s' n = if decide (n = bl_number b) then Some b else BlockStore_get_by_number s n) /\
  (forall h, BlockStore_get_by_hash s' h = if decide (h = bl_hash b) then Some b else BlockStore_get_by_hash s h) /\
  (forall h, BlockStore_get_tx_block s' h =
    if decide (h ∈ bl_transactions b) then Some (bl_number b) else BlockStore_get_tx_block s h) /\
  BlockStore_latest_number s' = Z.max (BlockStore_latest_number s) (bl_number b) /\
  receipts s' = receipts s /\ logs_by_block s' = logs_by_block s.
Proof.
  unfold BlockStore_get_by_number, BlockStore_get_by_hash, BlockStore_get_tx_block, BlockStore_latest_number. simpl.
  split; [|split; [|split; [|split; [|done]]]].
  - intros n. case_decide; [subst; by rewrite lookup_insert_eq|by rewrite lookup_insert_ne].
  - intros h. case_decide; [subst; by rewrite lookup_insert_eq|by rewrite lookup_insert_ne].
  - intros h. apply fold_insert_lookup.
  - destruct (Z.ltb_spec (latest s) (bl_number b)); lia.
Qed.

(** The log query.  [get_logs] returns exactly the logs stored for a block
    of the range that come from an accepted address and have, at every
    position with a filter, one of the accepted topics. *)
Theorem get_logs_spec (s : BlockStore) (from to : Z) (addresses : option (list Address))
    (topics : option (list (option (list TxHash)))) (log : BlockLog) :
  log ∈ BlockStore_get_logs s from to addresses topics <->
  (exists n logs, from <= n <= to /\ logs_by_block s !! n = Some logs /\ log ∈ logs) /\
  (forall addrs, addresses = Some addrs -> lg_address log ∈ addrs) /\
  (forall filters i allowed, topics = Some filters -> filters !! i = Some (Some allowed) ->
    exists t, lg_topics log !! i = Some t /\ t ∈ allowed).
Proof.
  assert (Hm : log_matches addresses topics log = true <->
    (forall addrs, addresses = Some addrs -> lg_address log ∈ addrs) /\
    (forall filters i allowed, topics = Some filters -> filters !! i = Some (Some allowed) ->
      exists t, lg_topics log !! i = Some t /\ t ∈ allowed)).
  { unfold log_matches. rewrite andb_true_iff.
    assert (Ha : match addresses with Some addrs => bool_decide (lg_address log ∈ addrs) | None => true end = true <->
      forall addrs, addresses = Some addrs -> lg_address log ∈ addrs).
    { destruct addresses as [addrs|]; [|done]. rewrite bool_decide_eq_true. split; [by intros ? ? [= <-]|auto]. }
    rewrite Ha. destruct topics as [filters|]; [|split; [intros [? _]; done|by intros [? _]]].
    rewrite topics_match_spec. split; intros [H1 H2]; (split; [done|]).
    - intros f i al [= <-] Hf. apply (H2 i al Hf).
    - intros j al Hj. apply (H2 filters j al eq_refl Hj). }
  rewrite <- Hm. unfold BlockStore_get_logs. rewrite list_elem_of_In, in_concat. split.
  - intros (l & Hl & Hin). apply in_map_iff in Hl as (n & <- & Hn). apply filter_In in Hin as [Hin Hmatch].
    split; [|done]. apply list_elem_of_In in Hn. unfold range_incl in Hn. rewrite elem_of_seqZ in Hn.
    destruct (logs_by_block s !! n) as [logs|] eqn:E; [|done]. exists n, logs. rewrite list_elem_of_In. split; [lia|done].
  - intros [(n & logs & Hn & E & Hin) Hmatch]. exists (List.filter (log_matches addresses topics) logs). split.
    + apply in_map_iff. exists n. rewrite E. split; [done|]. apply list_elem_of_In. unfold range_incl.
      rewrite elem_of_seqZ. lia.
    + apply filter_In. split; [by apply list_elem_of_In|done].
Qed.

(** ** Witnesses *)

(** Two digits per byte, as the crate writes them. *)
Fixpoint plain_decode (s : list Z) : option bytes :=
  match s with
  | [] => Some []
  | [_] => None
  | a :: b :: s => x ← to_digit a; y ← to_digit b; l ← plain_decode s; Some (16 * x + y :: l)
  end.

Definition plain_hex : Hex := {|
  hex_encode := fun b => concat (map (fun x => [hex_digit (x / 16); hex_digit (x mod 16)]) b);
  hex_decode := plain_decode
|}.

Lemma plain_decode_length n s b : (length s <= n)%nat -> plain_decode s = Some b -> length s = (2 * length b)%nat.
Proof.
  revert s b. induction n as [|n IH]; intros [|x [|y s]] b Hn; simpl in *; try lia; try (by intros [= <-]); try done.
  destruct (to_digit x); simpl; [|done]. destruct (to_digit y); simpl; [|done].
  destruct (plain_decode s) as [l|] eqn:E; simpl; [|done]. intros [= <-].
  rewrite (IH s l) by (done || lia). simpl. lia.
Qed.

Lemma plain_hex_ok : @HexOk plain_hex.
Proof.
  split; [| |intros s b; by apply (plain_decode_length (length s))].
  - intros b Hb. induction Hb as [|x b Hx Hb IH]; [done|]. simpl in *. unfold is_u8, u8_bound in Hx.
    pose proof (Z.mod_pos_bound x 16 ltac:(lia)). pose proof (Z.div_mod x 16 ltac:(lia)).
    rewrite !to_digit_hex by lia. simpl. rewrite IH. simpl. f_equal. f_equal. lia.
  - intros b Hb. induction Hb as [|x b Hx Hb IH]; [constructor|]. simpl. unfold is_u8, u8_bound in Hx.
    pose proof (Z.mod_pos_bound x 16 ltac:(lia)). pose proof (Z.div_mod x 16 ltac:(lia)).
    apply Forall_cons. split; [apply hex_digit_is; lia|]. apply Forall_cons. split; [apply hex_digit_is; lia|exact IH].
Qed.

Lemma hex_roundtrip_witness :
  hex_u64_serialize 48879 = [48; 120; 98; 101; 101; 102] /\ hex_u64_deserialize (hex_u64_serialize 48879) = Some 48879.
Proof.
  split; [reflexivity|].
  apply (@hex_roundtrip plain_hex plain_hex_ok 48879 []); [u64_lia|constructor].
Defined.
