(* ===== verification/Cache.v ===== *)
(** * The LRU cache: [src/storage/cache.rs]

    The cache keeps its entries in a vector and threads a doubly linked list
    through them by index; free slots are recycled.  Indexing a vector out of
    range is a panic, [None] here.  The abstract cache is the list of its
    pairs, most recently used first; the theorem is that the linked structure
    implements it, operation by operation and without a panic.  Memory is
    taken to be sufficient: [new] reserves the capacity at once, which panics
    for a capacity whose size in bytes does not fit, and the model does not. *)

From S2P Require Import Prelude.

Record CacheEntry (V : Type) := mkEntry {
  ce_value : V;
  ce_prev : option nat;
  ce_next : option nat
}.
Arguments mkEntry {V}.
Arguments ce_value {V}.
Arguments ce_prev {V}.
Arguments ce_next {V}.

Record LruCacheInner (K V : Type) `{Countable K} := mkLru {
  lru_map : gmap K nat;
  lru_entries : list (option (CacheEntry V));
  free_list : list nat;
  lru_head : option nat;
  lru_tail : option nat;
  capacity : Z;
  lru_size : Z;
  hits : Z;
  misses : Z
}.
Arguments mkLru {K V _ _}.
Arguments lru_map {K V _ _}.
Arguments lru_entries {K V _ _}.
Arguments free_list {K V _ _}.
Arguments lru_head {K V _ _}.
Arguments lru_tail {K V _ _}.
Arguments capacity {K V _ _}.
Arguments lru_size {K V _ _}.
Arguments hits {K V _ _}.
Arguments misses {K V _ _}.

Record CacheStats := mkStats {
  cs_size : Z;
  cs_capacity : Z;
  cs_hits : Z;
  cs_misses : Z
}.

(** Hits in percent of all lookups. *)
Definition CacheStats_hit_rate (s : CacheStats) : SpecFloat.spec_float :=
  let total := cs_hits s ⊞ cs_misses s in
  if total =? 0 then SpecFloat.S754_zero false
  else f64_mul (f64_div (u64_as_f64 (cs_hits s)) (u64_as_f64 total)) (u64_as_f64 100).

(** [Vec::pop]. *)
Definition vec_pop {A} (l : list A) : option (A * list A) :=
  match reverse l with
  | [] => None
  | x :: r => Some (x, reverse r)
  end.

Section operations.
Context {K V : Type} `{Countable K}.
Implicit Types c : LruCacheInner K V.

Definition LruCache_new (cap : Z) : LruCacheInner K V :=
  mkLru ∅ [] [] None None (Z.max cap 1) 0 0 0.

(** Field updates. *)
Definition set_entries (es : list (option (CacheEntry V))) c : LruCacheInner K V :=
  mkLru (lru_map c) es (free_list c) (lru_head c) (lru_tail c) (capacity c) (lru_size c) (hits c) (misses c).
Definition set_head (h : option nat) c : LruCacheInner K V :=
  mkLru (lru_map c) (lru_entries c) (free_list c) h (lru_tail c) (capacity c) (lru_size c) (hits c) (misses c).
Definition set_tail (t : option nat) c : LruCacheInner K V :=
  mkLru (lru_map c) (lru_entries c) (free_list c) (lru_head c) t (capacity c) (lru_size c) (hits c) (misses c).
Definition set_map (m : gmap K nat) c : LruCacheInner K V :=
  mkLru m (lru_entries c) (free_list c) (lru_head c) (lru_tail c) (capacity c) (lru_size c) (hits c) (misses c).
Definition set_size (n : Z) c : LruCacheInner K V :=
  mkLru (lru_map c) (lru_entries c) (free_list c) (lru_head c) (lru_tail c) (capacity c) n (hits c) (misses c).
Definition set_free (f : list nat) c : LruCacheInner K V :=
  mkLru (lru_map c) (lru_entries c) f (lru_head c) (lru_tail c) (capacity c) (lru_size c) (hits c) (misses c).
Definition set_counts (h m : Z) c : LruCacheInner K V :=
  mkLru (lru_map c) (lru_entries c) (free_list c) (lru_head c) (lru_tail c) (capacity c) (lru_size c) h m.

(** [if let Some(entry) = self.entries[idx].as_mut() { ... }]. *)
Definition with_entry (idx : nat) (f : CacheEntry V -> CacheEntry V) c : option (LruCacheInner K V) :=
  slot ← lru_entries c !! idx;
  Some (set_entries (<[idx := f <$> slot]> (lru_entries c)) c).

Definition set_value (v : V) (e : CacheEntry V) : CacheEntry V := mkEntry v (ce_prev e) (ce_next e).
Definition set_prev (p : option nat) (e : CacheEntry V) : CacheEntry V := mkEntry (ce_value e) p (ce_next e).
Definition set_next (n : option nat) (e : CacheEntry V) : CacheEntry V := mkEntry (ce_value e) (ce_prev e) n.

(** [slot.map(|e| e.value)]. *)
Definition slot_value (slot : option (CacheEntry V)) : option V :=
  match slot with Some e => Some (ce_value e) | None => None end.

Definition allocate_entry (value : V) c : option (LruCacheInner K V * nat) :=
  match vec_pop (free_list c) with
  | Some (idx, free) =>
      _ ← lru_entries c !! idx;
      Some (set_entries (<[idx := Some (mkEntry value None None)]> (lru_entries c)) (set_free free c), idx)
  | None =>
      Some (set_entries (lru_entries c ++ [Some (mkEntry value None None)]) c, length (lru_entries c))
  end.

Definition add_to_front (idx : nat) c : option (LruCacheInner K V) :=
  c ← with_entry idx (fun e => mkEntry (ce_value e) None (lru_head c)) c;
  c ← match lru_head c with
      | Some old_head => with_entry old_head (set_prev (Some idx)) c
      | None => Some c
      end;
  let c := set_head (Some idx) c in
  Some (match lru_tail c with
        | None => set_tail (Some idx) c
        | Some _ => c
        end).

Definition remove_from_list (idx : nat) c : option (LruCacheInner K V) :=
  slot ← lru_entries c !! idx;
  match slot with
  | None => Some c
  | Some entry =>
      c ← match ce_prev entry with
          | Some prev_idx => with_entry prev_idx (set_next (ce_next entry)) c
          | None => Some (set_head (ce_next entry) c)
          end;
      match ce_next entry with
      | Some next_idx => with_entry next_idx (set_prev (ce_prev entry)) c
      | None => Some (set_tail (ce_prev entry) c)
      end
  end.

Definition move_to_front (idx : nat) c : option (LruCacheInner K V) :=
  if decide (lru_head c = Some idx) then Some c
  else c ← remove_from_list idx c; add_to_front idx c.

(** [self.entries[idx].take()], the slot going to the free list and the size
    down by one. *)
Definition release (idx : nat) c : option (LruCacheInner K V * option V) :=
  slot ← lru_entries c !! idx;
  Some (set_size (lru_size c ⊟ 1)
          (set_free (free_list c ++ [idx]) (set_entries (<[idx := None]> (lru_entries c)) c)),
        slot_value slot).

Definition evict_lru c : option (LruCacheInner K V * option V) :=
  match lru_tail c with
  | None => Some (c, None)
  | Some tail_idx =>
      c ← remove_from_list tail_idx c;
      '(c, v) ← release tail_idx c;
      Some (set_map (filter (fun kv => kv.2 <> tail_idx) (lru_map c)) c, v)
  end.

Definition LruCache_get c (key : K) : option (LruCacheInner K V * option V) :=
  match lru_map c !! key with
  | None => Some (set_counts (hits c) (misses c ⊞ 1) c, None)
  | Some idx =>
      c ← move_to_front idx (set_counts (hits c ⊞ 1) (misses c) c);
      slot ← lru_entries c !! idx;
      Some (c, slot_value slot)
  end.

Definition LruCache_put c (key : K) (value : V) : option (LruCacheInner K V * option V) :=
  match lru_map c !! key with
  | Some idx =>
      slot ← lru_entries c !! idx;
      c ← with_entry idx (set_value value) c;
      c ← move_to_front idx c;
      Some (c, slot_value slot)
  | None =>
      '(c, evicted) ← (if capacity c <=? lru_size c then evict_lru c else Some (c, None));
      '(c, idx) ← allocate_entry value c;
      c ← add_to_front idx (set_map (<[key := idx]> (lru_map c)) c);
      Some (set_size (lru_size c ⊞ 1) c, evicted)
  end.

Definition LruCache_remove c (key : K) : option (LruCacheInner K V * option V) :=
  match lru_map c !! key with
  | None => Some (c, None)
  | Some idx =>
      c ← remove_from_list idx (set_map (delete key (lru_map c)) c);
      release idx c
  end.

Definition LruCache_contains c (key : K) : bool := bool_decide (is_Some (lru_map c !! key)).
Definition LruCache_len c : Z := lru_size c.
Definition LruCache_is_empty c : bool := LruCache_len c =? 0.

Definition LruCache_clear c : LruCacheInner K V :=
  mkLru ∅ [] [] None None (capacity c) 0 (hits c) (misses c).

Definition LruCache_stats c : CacheStats :=
  mkStats (lru_size c) (capacity c) (hits c) (misses c).

End operations.

(** ** The abstract cache *)

Record Lru (K V : Type) := mkAbs {
  lru_items : list (K * V);
  abs_capacity : Z;
  abs_hits : Z;
  abs_misses : Z
}.
Arguments mkAbs {K V}.
Arguments lru_items {K V}.
Arguments abs_capacity {K V}.
Arguments abs_hits {K V}.
Arguments abs_misses {K V}.

Inductive CacheOp (K V : Type) :=
| OpGet (k : K)
| OpPut (k : K) (v : V)
| OpRemove (k : K)
| OpClear.
Arguments OpGet {K V}.
Arguments OpPut {K V}.
Arguments OpRemove {K V}.
Arguments OpClear {K V}.

Section abstract.
Context {K V : Type} `{Countable K}.

Definition others {A} (k : K) (l : list (K * A)) : list (K * A) := filter (fun p => p.1 <> k) l.
Definition find {A} (k : K) (l : list (K * A)) : option A := (list_to_map l : gmap K A) !! k.

(** The least recently used pair goes when the cache is full. *)
Definition make_room (cap : Z) (l : list (K * V)) : list (K * V) * option V :=
  if cap <=? Z.of_nat (length l)
  then match vec_pop l with Some ((_, v), l') => (l', Some v) | None => (l, None) end
  else (l, None).

Definition lru_step (o : CacheOp K V) (a : Lru K V) : Lru K V * option V :=
  match o with
  | OpGet k =>
      match find k (lru_items a) with
      | Some v => (mkAbs ((k, v) :: others k (lru_items a)) (abs_capacity a) (abs_hits a ⊞ 1) (abs_misses a), Some v)
      | None => (mkAbs (lru_items a) (abs_capacity a) (abs_hits a) (abs_misses a ⊞ 1), None)
      end
  | OpPut k v =>
      match find k (lru_items a) with
      | Some old => (mkAbs ((k, v) :: others k (lru_items a)) (abs_capacity a) (abs_hits a) (abs_misses a), Some old)
      | None =>
          let '(l, evicted) := make_room (abs_capacity a) (lru_items a) in
          (mkAbs ((k, v) :: l) (abs_capacity a) (abs_hits a) (abs_misses a), evicted)
      end
  | OpRemove k =>
      (mkAbs (others k (lru_items a)) (abs_capacity a) (abs_hits a) (abs_misses a), find k (lru_items a))
  | OpClear => (mkAbs [] (abs_capacity a) (abs_hits a) (abs_misses a), None)
  end.

Definition cache_step (o : CacheOp K V) (c : LruCacheInner K V) : option (LruCacheInner K V * option V) :=
  match o with
  | OpGet k => LruCache_get c k
  | OpPut k v => LruCache_put c k v
  | OpRemove k => LruCache_remove c k
  | OpClear => Some (LruCache_clear c, None)
  end.

Fixpoint lru_run (ops : list (CacheOp K V)) (a : Lru K V) : Lru K V * list (option V) :=
  match ops with
  | [] => (a, [])
  | o :: ops =>
      let '(a, r) := lru_step o a in
      let '(a, rs) := lru_run ops a in
      (a, r :: rs)
  end.

Fixpoint cache_run (ops : list (CacheOp K V)) (c : LruCacheInner K V)
    : option (LruCacheInner K V * list (option V)) :=
  match ops with
  | [] => Some (c, [])
  | o :: ops =>
      '(c, r) ← cache_step o c;
      '(c, rs) ← cache_run ops c;
      Some (c, r :: rs)
  end.

(** ** The linked list

    [dll es p l n]: the slots of [l] hold its values and are linked in that
    order, between a predecessor [p] and a successor [n]. *)

Abbreviation slots := (list (option (CacheEntry V))) (only parsing).

Definition hd_idx (l : list (nat * V)) (n : option nat) : option nat :=
  match l with [] => n | (i, _) :: _ => Some i end.

Fixpoint lst_idx (p : option nat) (l : list (nat * V)) : option nat :=
  match l with [] => p | (i, _) :: l => lst_idx (Some i) l end.

Fixpoint dll (es : slots) (p : option nat) (l : list (nat * V)) (n : option nat) : Prop :=
  match l with
  | [] => True
  | (i, v) :: l => es !! i = Some (Some (mkEntry v p (hd_idx l n))) /\ dll es (Some i) l n
  end.

Lemma lst_idx_app p l1 l2 : lst_idx p (l1 ++ l2) = lst_idx (lst_idx p l1) l2.
Proof. revert p. induction l1 as [|[i v] l1 IH]; intros p; simpl; auto. Qed.

Lemma hd_idx_app l1 l2 n : hd_idx (l1 ++ l2) n = hd_idx l1 (hd_idx l2 n).
Proof. destruct l1 as [|[i v] l1]; reflexivity. Qed.

Lemma dll_app es p l1 l2 n :
  dll es p (l1 ++ l2) n <-> dll es p l1 (hd_idx l2 n) /\ dll es (lst_idx p l1) l2 n.
Proof.
  revert p. induction l1 as [|[i v] l1 IH]; intros p; simpl; [tauto|].
  rewrite IH, hd_idx_app. tauto.
Qed.

Lemma dll_insert_other es i x p l n :
  i ∉ l.*1 -> dll (<[i := x]> es) p l n <-> dll es p l n.
Proof.
  revert p. induction l as [|[j v] l IH]; intros p Hi; simpl in *; [tauto|].
  apply not_elem_of_cons in Hi as [Hij Hi].
  rewrite IH, list_lookup_insert_ne by done. tauto.
Qed.

Lemma dll_grow es x p l n : dll es p l n -> dll (es ++ [x]) p l n.
Proof.
  revert p. induction l as [|[j v] l IH]; intros p; simpl; [done|].
  intros [Hj Hl]. split; [by apply lookup_app_l_Some|auto].
Qed.

Lemma dll_lookup es p l n i v :
  dll es p l n -> (i, v) ∈ l -> exists p' n', es !! i = Some (Some (mkEntry v p' n')).
Proof.
  revert p. induction l as [|[j w] l IH]; intros p Hd Hin; [by apply elem_of_nil in Hin|].
  destruct Hd as [Hj Hl]. apply elem_of_cons in Hin as [[= -> ->]|Hin]; eauto.
Qed.

(** The first entry may be given another predecessor, and the last another
    successor. *)
Lemma dll_set_prev es p p' i v l n :
  i ∉ l.*1 -> dll es p ((i, v) :: l) n ->
  dll (<[i := Some (mkEntry v p' (hd_idx l n))]> es) p' ((i, v) :: l) n.
Proof.
  intros Hi [He Hl]. split.
  - rewrite list_lookup_insert_eq; [done|]. by eapply lookup_lt_Some.
  - by apply dll_insert_other.
Qed.

Lemma dll_set_next es p i v l n n' :
  i ∉ l.*1 -> dll es p (l ++ [(i, v)]) n ->
  dll (<[i := Some (mkEntry v (lst_idx p l) n')]> es) p (l ++ [(i, v)]) n'.
Proof.
  intros Hi Hd. rewrite dll_app in Hd |- *. simpl in *. destruct Hd as (Hl & He & _).
  split; [by apply dll_insert_other|].
  rewrite list_lookup_insert_eq; [done|]. by eapply lookup_lt_Some.
Qed.

Lemma lst_idx_snoc p l i v : lst_idx p (l ++ [(i, v)]) = Some i.
Proof. by rewrite lst_idx_app. Qed.

(** ** The representation invariant *)

Abbreviation cells := (list (K * (nat * V))) (only parsing).

(** The parts that concern the links. *)
Record linked (c : LruCacheInner K V) (l : list (nat * V)) : Prop := {
  lk_dll : dll (lru_entries c) None l None;
  lk_head : lru_head c = hd_idx l None;
  lk_tail : lru_tail c = lst_idx None l;
  lk_nodup : NoDup l.*1
}.

Definition free_ok (c : LruCacheInner K V) : Prop :=
  NoDup (free_list c) /\ Forall (fun i => lru_entries c !! i = Some None) (free_list c).

Definition cell_index (l : cells) : list (K * nat) := (fun x => (x.1, x.2.1)) <$> l.
Definition cell_items (l : cells) : list (K * V) := (fun x => (x.1, x.2.2)) <$> l.

Record lru_rep (c : LruCacheInner K V) (l : cells) : Prop := {
  rp_linked : linked c l.*2;
  rp_keys : NoDup (cell_index l).*1;
  rp_map : forall k i, lru_map c !! k = Some i <-> (k, i) ∈ cell_index l;
  rp_size : lru_size c = Z.of_nat (length (cell_index l));
  rp_cap : 1 <= capacity c /\ is_u64 (capacity c) /\ lru_size c <= capacity c;
  rp_free : free_ok c
}.

Definition implements (c : LruCacheInner K V) (a : Lru K V) : Prop :=
  exists l, lru_rep c l /\ lru_items a = cell_items l /\ abs_capacity a = capacity c /\
    abs_hits a = hits c /\ abs_misses a = misses c.

(** What the link operations leave alone. *)
Record frame (c c' : LruCacheInner K V) : Prop := {
  fr_map : lru_map c' = lru_map c;
  fr_free : free_list c' = free_list c;
  fr_cap : capacity c' = capacity c;
  fr_size : lru_size c' = lru_size c;
  fr_hits : hits c' = hits c;
  fr_misses : misses c' = misses c;
  fr_empty : forall j, lru_entries c !! j = Some None -> lru_entries c' !! j = Some None
}.

Lemma frame_refl c : frame c c.
Proof. by split. Qed.

Lemma frame_trans c1 c2 c3 : frame c1 c2 -> frame c2 c3 -> frame c1 c3.
Proof. intros [] []. split; try congruence. auto. Qed.

Lemma with_entry_ok c i e f :
  lru_entries c !! i = Some (Some e) ->
  with_entry i f c = Some (set_entries (<[i := Some (f e)]> (lru_entries c)) c) /\
  frame c (set_entries (<[i := Some (f e)]> (lru_entries c)) c).
Proof.
  intros He. unfold with_entry. rewrite He. split; [done|]. split; try done.
  intros j Hj. simpl. rewrite list_lookup_insert_ne; [done|congruence].
Qed.

Lemma NoDup_fst_app (l1 l2 : list (nat * V)) i v :
  NoDup ((l1 ++ (i, v) :: l2).*1) ->
  (i ∉ l1.*1) /\ (i ∉ l2.*1) /\ NoDup ((l1 ++ l2).*1) /\ NoDup (l1.*1) /\ NoDup (l2.*1) /\
  (forall j, j ∈ l1.*1 -> j ∉ l2.*1).
Proof.
  rewrite !fmap_app, fmap_cons. simpl. intros (H1 & H12 & H2)%NoDup_app.
  apply NoDup_cons in H2 as [Hi H2].
  split_and!; auto.
  - intros Hin. apply (H12 i Hin). by left.
  - apply NoDup_app. split_and!; auto. intros x Hx Hx2. apply (H12 x Hx). by right.
  - intros j Hj Hj2. apply (H12 j Hj). by right.
Qed.

Lemma dll_agree es es' p l n :
  (forall j, j ∈ l.*1 -> es' !! j = es !! j) -> dll es p l n -> dll es' p l n.
Proof.
  revert p. induction l as [|[i v] l IH]; intros p He; simpl in *; [done|].
  intros [Hi Hl]. split; [rewrite He by left; done|].
  apply IH; [|done]. intros j Hj. apply He. by right.
Qed.

(** The two halves of [remove_from_list]. *)
Lemma relink_prev c l i n :
  dll (lru_entries c) None l (Some i) -> NoDup l.*1 ->
  exists c', match lst_idx None l with
        | Some p => with_entry p (set_next n) c
        | None => Some (set_head n c)
        end = Some c' /\ frame c c' /\ dll (lru_entries c') None l n /\
    lru_head c' = match l with [] => n | _ => lru_head c end /\ lru_tail c' = lru_tail c /\
    (forall j, j ∉ l.*1 -> lru_entries c' !! j = lru_entries c !! j).
Proof.
  destruct l as [|[j v] l _] using rev_ind; intros Hd Hn.
  { exists (set_head n c). split_and!; done. }
  rewrite lst_idx_snoc.
  assert (j ∉ l.*1) as Hj.
  { rewrite fmap_app in Hn. apply NoDup_app in Hn as (_ & Hn & _). intros Hin. apply (Hn j Hin). by left. }
  assert (lru_entries c !! j = Some (Some (mkEntry v (lst_idx None l) (Some i)))) as He.
  { apply dll_app in Hd as [_ [He _]]. done. }
  destruct (with_entry_ok c j _ (set_next n) He) as [-> Hf].
  eexists. split_and!; [done|done| |by destruct l|done|].
  - by apply (dll_set_next _ _ _ _ _ (Some i)).
  - intros k Hk. simpl. apply list_lookup_insert_ne. intros <-. apply Hk.
    rewrite fmap_app. apply elem_of_app. right. by left.
Qed.

Lemma relink_next c l i p :
  dll (lru_entries c) (Some i) l None -> NoDup l.*1 ->
  exists c', match hd_idx l None with
        | Some n => with_entry n (set_prev p) c
        | None => Some (set_tail p c)
        end = Some c' /\ frame c c' /\ dll (lru_entries c') p l None /\
    lru_tail c' = match l with [] => p | _ => lru_tail c end /\ lru_head c' = lru_head c /\
    (forall j, j ∉ l.*1 -> lru_entries c' !! j = lru_entries c !! j).
Proof.
  destruct l as [|[j v] l]; intros Hd Hn.
  { exists (set_tail p c). split_and!; done. }
  apply NoDup_cons in Hn as [Hj Hn]. pose proof Hd as [He _].
  simpl hd_idx. destruct (with_entry_ok c j _ (set_prev p) He) as [-> Hf].
  eexists. split_and!; [done|done| |done|done|].
  - by apply (dll_set_prev _ (Some i)).
  - intros k Hk. simpl. apply list_lookup_insert_ne. intros <-. apply Hk. by left.
Qed.

Lemma linked_remove c l1 i v l2 :
  linked c (l1 ++ (i, v) :: l2) ->
  exists c', remove_from_list i c = Some c' /\ linked c' (l1 ++ l2) /\ frame c c' /\
    exists e, lru_entries c' !! i = Some (Some e) /\ ce_value e = v.
Proof.
  intros [Hd Hh Ht Hn]. destruct (NoDup_fst_app _ _ _ _ Hn) as (Hi1 & Hi2 & Hn' & Hn1 & Hn2 & H12).
  apply dll_app in Hd as [Hd1 [Hi Hd2]]. simpl in Hd1.
  unfold remove_from_list. rewrite Hi. simpl.
  destruct (relink_prev c l1 i (hd_idx l2 None) Hd1 Hn1) as (c1 & -> & Hf1 & Hd1' & Hh1 & Ht1 & Ho1).
  assert (dll (lru_entries c1) (Some i) l2 None) as Hd2'.
  { eapply dll_agree, Hd2. intros j Hj. apply Ho1. intros Hj1. by apply (H12 j). }
  simpl. destruct (relink_next c1 l2 i (lst_idx None l1) Hd2' Hn2) as (c2 & -> & Hf2 & Hd2'' & Ht2 & Hh2 & Ho2).
  exists c2. split; [done|]. split; [|split; [by eapply frame_trans|]].
  - split; [| | |done].
    + apply dll_app. split; [|done]. eapply dll_agree, Hd1'. intros j Hj. apply Ho2. by apply H12.
    + rewrite Hh2, Hh1, hd_idx_app. destruct l1 as [|[j w] l1]; [done|]. by rewrite Hh.
    + rewrite Ht2, Ht1, Ht, !lst_idx_app. by destruct l2 as [|[j w] l2].
  - eexists. split; [rewrite Ho2, Ho1 by done; exact Hi|done].
Qed.

Lemma linked_add c l i e :
  linked c l -> i ∉ l.*1 -> lru_entries c !! i = Some (Some e) ->
  exists c', add_to_front i c = Some c' /\ linked c' ((i, ce_value e) :: l) /\ frame c c'.
Proof.
  intros [Hd Hh Ht Hn] Hi He. unfold add_to_front.
  destruct (with_entry_ok c i e (fun e => mkEntry (ce_value e) None (lru_head c)) He) as [-> Hf1].
  simpl. set (c1 := set_entries _ c) in *.
  assert (dll (lru_entries c1) None l None) as Hd1 by by apply dll_insert_other.
  assert (lru_entries c1 !! i = Some (Some (mkEntry (ce_value e) None (lru_head c)))) as Hi1.
  { simpl. apply list_lookup_insert_eq. by eapply lookup_lt_Some. }
  destruct l as [|[j w] l].
  - simpl in Hh, Ht. rewrite Hh in *. simpl. rewrite Ht.
    eexists. split; [done|]. split; [|by destruct Hf1].
    split; simpl; [done|done|done|apply NoDup_singleton].
  - simpl in Hh, Ht. rewrite Hh in Hi1 |- *. apply NoDup_cons in Hn as [Hj Hn].
    apply not_elem_of_cons in Hi as [Hij Hi]. pose proof Hd1 as [Hej _].
    destruct (with_entry_ok c1 j _ (set_prev (Some i)) Hej) as [-> Hf2].
    simpl. rewrite Ht. destruct (lst_idx (Some j) l) as [t|] eqn:Htl.
    2:{ exfalso. clear -Htl. revert j Htl. induction l as [|[k u] l IH]; simpl; [done|eauto]. }
    eexists. split; [done|]. split.
    + split; simpl; [|done|congruence|].
      * split; [rewrite list_lookup_insert_ne by done; exact Hi1|].
        by apply (dll_set_prev _ None).
      * apply NoDup_cons. split; [by apply not_elem_of_cons|by apply NoDup_cons].
    + destruct (frame_trans _ _ _ Hf1 Hf2). by split.
Qed.

Lemma linked_front c l1 i v l2 :
  linked c (l1 ++ (i, v) :: l2) ->
  exists c', move_to_front i c = Some c' /\ linked c' ((i, v) :: l1 ++ l2) /\ frame c c'.
Proof.
  intros Hl. unfold move_to_front. case_decide as Hh.
  - exists c. split; [done|]. split; [|apply frame_refl].
    rewrite (lk_head _ _ Hl) in Hh. destruct l1 as [|[j w] l1]; [done|].
    simpl in Hh. injection Hh as ->. destruct (NoDup_fst_app _ _ _ _ (lk_nodup _ _ Hl)) as [[] _]. by left.
  - destruct (NoDup_fst_app _ _ _ _ (lk_nodup _ _ Hl)) as (Hi1 & Hi2 & _).
    destruct (linked_remove _ _ _ _ _ Hl) as (c1 & -> & Hl1 & Hf1 & e & He & <-). simpl.
    destruct (linked_add c1 (l1 ++ l2) i e Hl1) as (c2 & -> & Hl2 & Hf2); [|done|].
    { rewrite fmap_app. by apply not_elem_of_app. }
    exists c2. split_and!; [done|done|by eapply frame_trans].
Qed.

Lemma linked_set_value c l1 i v w l2 :
  linked c (l1 ++ (i, v) :: l2) ->
  exists e c', lru_entries c !! i = Some (Some e) /\ ce_value e = v /\
    with_entry i (set_value w) c = Some c' /\ linked c' (l1 ++ (i, w) :: l2) /\ frame c c'.
Proof.
  intros [Hd Hh Ht Hn]. destruct (NoDup_fst_app _ _ _ _ Hn) as (Hi1 & Hi2 & _).
  apply dll_app in Hd as [Hd1 [Hi Hd2]].
  destruct (with_entry_ok c i _ (set_value w) Hi) as [-> Hf].
  eexists _, _. split_and!; [done|done|done| |done]. split.
  - apply dll_app. split; [by apply dll_insert_other|]. simpl. split.
    + rewrite list_lookup_insert_eq; [done|]. by eapply lookup_lt_Some.
    + by apply dll_insert_other.
  - simpl. rewrite Hh, !hd_idx_app. done.
  - simpl. rewrite Ht, !lst_idx_app. done.
  - rewrite fmap_app in *. done.
Qed.

Lemma frame_free c c' : frame c c' -> free_ok c -> free_ok c'.
Proof.
  intros Hf [Hn Ha]. unfold free_ok. rewrite (fr_free _ _ Hf). split; [done|].
  eapply Forall_impl; [exact Ha|]. intros i. apply (fr_empty _ _ Hf).
Qed.

(** Dropping an entry: [remove_from_list] and [release]. *)
Lemma linked_drop c l1 i v l2 :
  linked c (l1 ++ (i, v) :: l2) -> free_ok c ->
  exists c1 c2, remove_from_list i c = Some c1 /\ release i c1 = Some (c2, Some v) /\
    linked c2 (l1 ++ l2) /\ free_ok c2 /\ lru_map c2 = lru_map c /\ capacity c2 = capacity c /\
    lru_size c2 = lru_size c ⊟ 1 /\ hits c2 = hits c /\ misses c2 = misses c.
Proof.
  intros Hl Hfree. destruct (NoDup_fst_app _ _ _ _ (lk_nodup _ _ Hl)) as (Hi1 & Hi2 & _).
  destruct (linked_remove _ _ _ _ _ Hl) as (c1 & Hr & [Hd1 Hh1 Ht1 Hn1] & Hf1 & e & He & <-).
  destruct (frame_free _ _ Hf1 Hfree) as [Hfn Hfa].
  assert (i ∉ free_list c1) as Hni.
  { intros Hin. rewrite Forall_forall in Hfa. rewrite (Hfa i Hin) in He. discriminate. }
  exists c1. unfold release. rewrite He. simpl. eexists. split_and!; [done|done| | | | | | |]; simpl;
    try (destruct Hf1; congruence).
  - split; simpl; [|done|done|done].
    apply dll_insert_other; [|done]. rewrite fmap_app. by apply not_elem_of_app.
  - split; simpl.
    + apply NoDup_app. split_and!; [done| |apply NoDup_singleton].
      intros x Hx Hxi. apply list_elem_of_singleton in Hxi as ->. done.
    + apply Forall_app. split.
      * apply Forall_forall. intros j Hj. rewrite list_lookup_insert_ne by (intros ->; done).
        rewrite Forall_forall in Hfa. by apply Hfa.
      * apply Forall_singleton. apply list_lookup_insert_eq. by eapply lookup_lt_Some.
Qed.

Lemma vec_pop_Some {A} (l : list A) x l' : vec_pop l = Some (x, l') -> l = l' ++ [x].
Proof.
  unfold vec_pop. intros Hp. rewrite <- (reverse_involutive l).
  destruct (reverse l) as [|y r]; [done|]. injection Hp as -> <-. by rewrite reverse_cons.
Qed.

Lemma vec_pop_snoc {A} (l : list A) x : vec_pop (l ++ [x]) = Some (x, l).
Proof. unfold vec_pop. rewrite reverse_app. simpl. by rewrite reverse_involutive. Qed.

Lemma linked_allocate c l v :
  linked c l -> free_ok c ->
  exists c' i, allocate_entry v c = Some (c', i) /\ linked c' l /\ free_ok c' /\ (i ∉ l.*1) /\
    lru_entries c' !! i = Some (Some (mkEntry v None None)) /\
    lru_map c' = lru_map c /\ capacity c' = capacity c /\ lru_size c' = lru_size c /\
    hits c' = hits c /\ misses c' = misses c.
Proof.
  intros [Hd Hh Ht Hn] [Hfn Hfa]. unfold allocate_entry.
  assert (forall j, j ∈ l.*1 -> exists e, lru_entries c !! j = Some (Some e)) as Hused.
  { intros j Hj. apply list_elem_of_fmap in Hj as ([j' w] & -> & Hin).
    destruct (dll_lookup _ _ _ _ _ _ Hd Hin) as (p' & n' & Hlk). eauto. }
  destruct (vec_pop (free_list c)) as [[i free]|] eqn:Ep.
  - apply vec_pop_Some in Ep. rewrite Ep in Hfn, Hfa.
    apply Forall_app in Hfa as [Hfa Hi]. rewrite Forall_singleton in Hi. rewrite Hi. simpl.
    apply NoDup_app in Hfn as (Hfn & Hdis & _).
    assert (i ∉ l.*1) as Hil.
    { intros Hin. destruct (Hused i Hin) as [e He]. rewrite Hi in He. discriminate. }
    eexists _, i. split_and!; try done.
    + split; simpl; [|done..]. by apply dll_insert_other.
    + split; simpl; [done|]. apply Forall_forall. intros j Hj.
      rewrite list_lookup_insert_ne; [by rewrite Forall_forall in Hfa; apply Hfa|].
      intros ->. apply (Hdis j Hj). by left.
    + simpl. apply list_lookup_insert_eq. by eapply lookup_lt_Some.
  - eexists _, _. split_and!; try done.
    + split; simpl; [|done..]. by apply dll_grow.
    + split; simpl; [done|]. eapply Forall_impl; [exact Hfa|]. intros j. apply lookup_app_l_Some.
    + intros Hin. destruct (Hused _ Hin) as [e He]. apply lookup_lt_Some in He. lia.
    + simpl. by apply list_lookup_middle.
Qed.

(** ** Keys *)

Lemma others_missing {A} (l : list (K * A)) k : k ∉ l.*1 -> others k l = l.
Proof.
  induction l as [|[k' b] l IH]; intros Hk; [done|]. simpl in Hk. apply not_elem_of_cons in Hk as [Hne Hk].
  unfold others in *. rewrite filter_cons_True by (simpl; congruence). by rewrite IH.
Qed.

Lemma find_missing {A} (l : list (K * A)) k : k ∉ l.*1 -> find k l = None.
Proof. intros Hk. by apply not_elem_of_list_to_map. Qed.

Lemma find_split {A} (l1 l2 : list (K * A)) k a :
  NoDup ((l1 ++ (k, a) :: l2).*1) ->
  find k (l1 ++ (k, a) :: l2) = Some a /\ others k (l1 ++ (k, a) :: l2) = l1 ++ l2.
Proof.
  intros Hn. split.
  - unfold find. apply elem_of_list_to_map; [done|]. apply elem_of_app. right. by left.
  - rewrite fmap_app, fmap_cons in Hn. apply NoDup_app in Hn as (_ & H12 & Hn).
    apply NoDup_cons in Hn as [Hk _]. unfold others.
    rewrite filter_app, filter_cons_False by (simpl; intros []; done).
    f_equal; apply others_missing; [|done]. intros Hin. apply (H12 k Hin). by left.
Qed.

Lemma items_keys (l : cells) : (cell_items l).*1 = (cell_index l).*1.
Proof. unfold cell_items, cell_index. rewrite <- !list_fmap_compose. done. Qed.

Lemma items_length (l : cells) : length (cell_items l) = length l.
Proof. apply length_fmap. Qed.

Lemma items_snoc (l : cells) k i v : cell_items (l ++ [(k, (i, v))]) = cell_items l ++ [(k, v)].
Proof. unfold cell_items. by rewrite fmap_app. Qed.

Lemma cells_split c l k i :
  lru_rep c l -> lru_map c !! k = Some i -> exists l1 v l2, l = l1 ++ (k, (i, v)) :: l2.
Proof.
  intros Hr Hk. apply (rp_map _ _ Hr) in Hk. apply list_elem_of_fmap in Hk as ([k' [i' v]] & [= -> ->] & Hin).
  apply list_elem_of_split in Hin as (l1 & l2 & ->). by exists l1, v, l2.
Qed.

Lemma cells_missing c l k : lru_rep c l -> lru_map c !! k = None -> k ∉ (cell_index l).*1.
Proof.
  intros Hr Hk Hin. apply list_elem_of_fmap in Hin as ([k' i] & -> & Hin).
  apply (rp_map _ _ Hr) in Hin. simpl in Hk. congruence.
Qed.

Lemma cells_find c l1 k i v l2 :
  lru_rep c (l1 ++ (k, (i, v)) :: l2) ->
  find k (cell_items (l1 ++ (k, (i, v)) :: l2)) = Some v /\
  others k (cell_items (l1 ++ (k, (i, v)) :: l2)) = cell_items (l1 ++ l2).
Proof.
  intros Hr. replace (cell_items (l1 ++ (k, (i, v)) :: l2)) with (cell_items l1 ++ (k, v) :: cell_items l2)
    by (unfold cell_items; by rewrite fmap_app).
  replace (cell_items (l1 ++ l2)) with (cell_items l1 ++ cell_items l2)
    by (unfold cell_items; by rewrite fmap_app).
  apply find_split. pose proof (rp_keys _ _ Hr) as Hn. rewrite <- items_keys in Hn.
  unfold cell_items in *. by rewrite fmap_app in Hn.
Qed.

Lemma rep_reorder c c' l l' :
  lru_rep c l -> frame c c' -> linked c' l'.*2 -> cell_index l ≡ₚ cell_index l' -> lru_rep c' l'.
Proof.
  intros [Hl Hk Hm Hs Hc Hf] Hfr Hl' Hp. split; [done| | | | |by eapply frame_free].
  - by rewrite <- Hp.
  - intros k i. rewrite (fr_map _ _ Hfr), Hm. by rewrite Hp.
  - rewrite (fr_size _ _ Hfr), Hs. by rewrite Hp.
  - by rewrite (fr_cap _ _ Hfr), (fr_size _ _ Hfr).
Qed.

Lemma rep_counts c l h m : lru_rep c l -> lru_rep (set_counts h m c) l.
Proof. intros [[] ]. by split. Qed.

Lemma snd_middle (l1 l2 : cells) k i v :
  (l1 ++ (k, (i, v)) :: l2).*2 = l1.*2 ++ (i, v) :: l2.*2.
Proof. by rewrite fmap_app. Qed.

Lemma rep_front c l1 k i v w l2 c0 :
  lru_rep c (l1 ++ (k, (i, v)) :: l2) -> frame c c0 -> linked c0 (l1.*2 ++ (i, w) :: l2.*2) ->
  exists c', move_to_front i c0 = Some c' /\ lru_rep c' ((k, (i, w)) :: l1 ++ l2) /\ frame c c' /\
    exists e, lru_entries c' !! i = Some (Some e) /\ ce_value e = w.
Proof.
  intros Hr Hf Hl. destruct (linked_front _ _ _ _ _ Hl) as (c' & -> & Hl' & Hf').
  exists c'. assert (frame c c') as Hfr by by eapply frame_trans.
  split_and!; [done| |done|].
  - eapply rep_reorder; [exact Hr|done| |].
    + rewrite fmap_cons, fmap_app. done.
    + unfold cell_index. rewrite fmap_app, !fmap_cons, fmap_app. simpl. by rewrite Permutation_middle.
  - destruct (lk_dll _ _ Hl') as [He _]. eexists. split; [exact He|done].
Qed.

Lemma index_middle (l1 l2 : cells) k i v :
  cell_index (l1 ++ (k, (i, v)) :: l2) ≡ₚ (k, i) :: cell_index (l1 ++ l2).
Proof. unfold cell_index. rewrite !fmap_app, fmap_cons. simpl. by rewrite Permutation_middle. Qed.

Lemma rep_drop c c' l1 k i v l2 :
  lru_rep c (l1 ++ (k, (i, v)) :: l2) -> linked c' (l1.*2 ++ l2.*2) -> free_ok c' ->
  lru_map c' = delete k (lru_map c) -> lru_size c' = lru_size c ⊟ 1 -> capacity c' = capacity c ->
  lru_rep c' (l1 ++ l2) /\ lru_size c' = lru_size c - 1.
Proof.
  intros [Hl Hk Hm Hs Hc Hf] Hl' Hf' Hm' Hs' Hc'. pose proof (index_middle l1 l2 k i v) as Hp.
  rewrite Hp in Hk, Hs. simpl in Hk, Hs. apply NoDup_cons in Hk as [Hk Hkeys].
  assert (lru_size c' = lru_size c - 1) as Hsz by (rewrite Hs'; divmod_lia).
  split; [|done]. split.
  - by rewrite fmap_app.
  - done.
  - intros k' j. rewrite Hm', lookup_delete_Some, Hm, Hp, elem_of_cons. split.
    + intros [Hne [[= -> ->]|Hin]]; done.
    + intros Hin. split; [|by right]. intros <-. apply Hk. apply list_elem_of_fmap. by exists (k, j).
  - lia.
  - rewrite Hc', Hsz. u64_lia.
  - done.
Qed.

Lemma filter_tail c l1 k i v l2 :
  lru_rep c (l1 ++ (k, (i, v)) :: l2) ->
  filter (fun kv => kv.2 <> i) (lru_map c) = delete k (lru_map c).
Proof.
  intros Hr. pose proof (lk_nodup _ _ (rp_linked _ _ Hr)) as Hn.
  rewrite snd_middle in Hn. destruct (NoDup_fst_app _ _ _ _ Hn) as (Hi1 & Hi2 & _).
  pose proof (index_middle l1 l2 k i v) as Hp.
  apply map_eq. intros k'. apply option_eq. intros j.
  rewrite map_lookup_filter_Some, lookup_delete_Some, (rp_map _ _ Hr), Hp, elem_of_cons. simpl. split.
  - intros [[[= -> ->]|Hin] Hj]; [done|]. split; [|by right]. intros <-.
    pose proof (rp_keys _ _ Hr) as Hk. rewrite Hp in Hk. apply NoDup_cons in Hk as [Hk _]. apply Hk.
    apply list_elem_of_fmap. by exists (k, j).
  - intros [Hne [[= -> ->]|Hin]]; [done|]. split; [by right|]. intros ->.
    apply list_elem_of_fmap in Hin as ([k2 [i2 v2]] & [= -> ->] & Hin).
    assert ((i2, v2) ∈ l1.*2 ++ l2.*2) as Hin2.
    { rewrite <- fmap_app. apply list_elem_of_fmap. by exists (k2, (i2, v2)). }
    apply elem_of_app in Hin2 as [Hin2|Hin2]; [apply Hi1|apply Hi2]; apply list_elem_of_fmap; by exists (i2, v2).
Qed.

(** A new key, in a cache with room for it. *)
Lemma rep_insert c l k v :
  lru_rep c l -> lru_map c !! k = None -> lru_size c < capacity c ->
  exists i c1 c2, allocate_entry v c = Some (c1, i) /\
    add_to_front i (set_map (<[k := i]> (lru_map c1)) c1) = Some c2 /\
    lru_rep (set_size (lru_size c2 ⊞ 1) c2) ((k, (i, v)) :: l) /\
    capacity c2 = capacity c /\ hits c2 = hits c /\ misses c2 = misses c.
Proof.
  intros Hr Hk Hroom. pose proof (cells_missing _ _ _ Hr Hk) as Hkm. destruct Hr as [Hl Hkeys Hm Hs Hc Hf].
  destruct (linked_allocate c l.*2 v Hl Hf) as (c1 & i & Ha & Hl1 & Hf1 & Hi & He & Hm1 & Hc1 & Hs1 & Hh1 & Hmi1).
  set (c1' := set_map (<[k := i]> (lru_map c1)) c1).
  assert (linked c1' l.*2) as Hl1' by by destruct Hl1.
  destruct (linked_add c1' l.*2 i _ Hl1' Hi He) as (c2 & Hadd & Hl2 & Hfr).
  assert (lru_size c2 ⊞ 1 = lru_size c + 1) as Hsz.
  { rewrite (fr_size _ _ Hfr). simpl. rewrite Hs1. divmod_lia. }
  exists i, c1, c2. split_and!; [done|done| |rewrite (fr_cap _ _ Hfr)|rewrite (fr_hits _ _ Hfr)|rewrite (fr_misses _ _ Hfr)]; try done.
  split; simpl.
  - by destruct Hl2.
  - by apply NoDup_cons.
  - intros k' j. rewrite (fr_map _ _ Hfr). simpl. rewrite Hm1, lookup_insert_Some, Hm, elem_of_cons. split.
    + intros [[<- <-]|[_ Hin]]; [by left|by right].
    + intros [[= -> ->]|Hin]; [by left|]. right. split; [|done]. intros <-.
      apply Hkm. apply list_elem_of_fmap. by exists (k, j).
  - rewrite Hsz, Hs. simpl. lia.
  - rewrite (fr_cap _ _ Hfr). simpl. rewrite Hc1, Hsz. u64_lia.
  - apply (frame_free _ _ Hfr) in Hf1. done.
Qed.

(** ** The simulation, operation by operation *)

Lemma get_implements c a k :
  implements c a ->
  exists c', LruCache_get c k = Some (c', (lru_step (OpGet k) a).2) /\ implements c' (lru_step (OpGet k) a).1.
Proof.
  intros (l & Hr & Hi & Hc & Hh & Hm). unfold LruCache_get. simpl. rewrite Hi.
  destruct (lru_map c !! k) as [i|] eqn:Hk.
  - destruct (cells_split _ _ _ _ Hr Hk) as (l1 & v & l2 & ->).
    destruct (cells_find _ _ _ _ _ _ Hr) as [-> ->].
    pose proof (rep_counts _ _ (hits c ⊞ 1) (misses c) Hr) as Hr'.
    destruct (rep_front _ _ _ _ _ v _ _ Hr' (frame_refl _)) as (c' & -> & Hrep & Hfr & e & He & Hv).
    { pose proof (rp_linked _ _ Hr') as Hl. by rewrite snd_middle in Hl. }
    simpl. rewrite He. simpl. rewrite Hv. exists c'. split; [done|].
    eexists. split_and!; [exact Hrep|done|..]; simpl; [rewrite (fr_cap _ _ Hfr)|rewrite (fr_hits _ _ Hfr)|rewrite (fr_misses _ _ Hfr)]; simpl; congruence.
  - rewrite (find_missing (cell_items l)) by (rewrite items_keys; by eapply cells_missing).
    eexists. split; [done|]. exists l. simpl.
    split_and!; [by apply rep_counts|done|done|done|by rewrite Hm].
Qed.

Lemma put_existing_implements c a k v i :
  implements c a -> lru_map c !! k = Some i ->
  exists c', LruCache_put c k v = Some (c', (lru_step (OpPut k v) a).2) /\ implements c' (lru_step (OpPut k v) a).1.
Proof.
  intros (l & Hr & Hi & Hc & Hh & Hm) Hk. unfold LruCache_put. simpl. rewrite Hi, Hk.
  destruct (cells_split _ _ _ _ Hr Hk) as (l1 & w & l2 & ->).
  destruct (cells_find _ _ _ _ _ _ Hr) as [-> ->].
  pose proof (rp_linked _ _ Hr) as Hl. rewrite snd_middle in Hl.
  destruct (linked_set_value _ _ _ _ v _ Hl) as (e & c1 & He & Hv & Hw & Hl1 & Hf1).
  rewrite He. simpl. rewrite Hw. simpl.
  destruct (rep_front _ _ _ _ _ v _ _ Hr Hf1 Hl1) as (c' & -> & Hrep & Hfr & _).
  simpl. rewrite Hv. exists c'. split; [done|].
  eexists. split_and!; [exact Hrep|done|..]; simpl; [rewrite (fr_cap _ _ Hfr)|rewrite (fr_hits _ _ Hfr)|rewrite (fr_misses _ _ Hfr)]; congruence.
Qed.

(** Eviction gives the pair at the end of the list. *)
Lemma evict_implements c l k i v :
  lru_rep c (l ++ [(k, (i, v))]) ->
  exists c', evict_lru c = Some (c', Some v) /\ lru_rep c' l /\ lru_map c' = delete k (lru_map c) /\
    lru_size c' = lru_size c - 1 /\ capacity c' = capacity c /\ hits c' = hits c /\ misses c' = misses c.
Proof.
  intros Hr. pose proof (rp_linked _ _ Hr) as Hl. rewrite snd_middle in Hl.
  unfold evict_lru. rewrite (lk_tail _ _ Hl). simpl. rewrite lst_idx_snoc.
  destruct (linked_drop _ _ _ _ _ Hl (rp_free _ _ Hr)) as (c1 & c2 & -> & Hrel & Hl2 & Hf2 & Hm2 & Hc2 & Hs2 & Hh2 & Hmi2).
  simpl. rewrite Hrel. simpl. eexists. split; [done|]. rewrite Hm2, (filter_tail _ _ _ _ _ _ Hr).
  destruct (rep_drop c (set_map (delete k (lru_map c)) c2) l k i v [] Hr) as [Hrep Hsz]; [by destruct Hl2|done|done|done|done|].
  rewrite app_nil_r in Hrep. done.
Qed.

Lemma make_room_implements c l :
  lru_rep c l ->
  exists c' l', (if capacity c <=? lru_size c then evict_lru c else Some (c, None)) =
      Some (c', (make_room (capacity c) (cell_items l)).2) /\
    (make_room (capacity c) (cell_items l)).1 = cell_items l' /\ lru_rep c' l' /\
    (forall k, lru_map c !! k = None -> lru_map c' !! k = None) /\
    lru_size c' < capacity c' /\ capacity c' = capacity c /\ hits c' = hits c /\ misses c' = misses c.
Proof.
  intros Hr. pose proof (rp_size _ _ Hr) as Hs. pose proof (rp_cap _ _ Hr) as Hc. unfold make_room.
  unfold cell_index in Hs. rewrite length_fmap in Hs. rewrite !items_length, <- Hs.
  destruct (Z.leb_spec (capacity c) (lru_size c)) as [Hfull|Hroom].
  - destruct l as [|[k [i v]] l _] using rev_ind; [simpl in Hs; lia|].
    destruct (evict_implements _ _ _ _ _ Hr) as (c' & -> & Hrep & Hm' & Hs' & Hc' & Hh' & Hmi').
    exists c', l. rewrite items_snoc, vec_pop_snoc.
    split_and!; try done; [|lia]. intros k' Hk'. rewrite Hm'. apply lookup_delete_None. by right.
  - exists c, l. split_and!; done.
Qed.

Lemma put_new_implements c a k v :
  implements c a -> lru_map c !! k = None ->
  exists c', LruCache_put c k v = Some (c', (lru_step (OpPut k v) a).2) /\ implements c' (lru_step (OpPut k v) a).1.
Proof.
  intros (l & Hr & Hi & Hc & Hh & Hm) Hk. unfold LruCache_put. simpl. rewrite Hi, Hk, Hc.
  rewrite (find_missing (cell_items l)) by (rewrite items_keys; by eapply cells_missing).
  destruct (make_room_implements c l Hr) as (c1 & l1 & -> & Hl1 & Hr1 & Hnone & Hroom & Hc1 & Hh1 & Hm1).
  destruct (make_room (capacity c) (cell_items l)) as [items ev]. simpl in *. subst items.
  destruct (rep_insert c1 l1 k v Hr1 (Hnone k Hk) Hroom) as (i & c2 & c3 & -> & Hadd & Hrep & Hc3 & Hh3 & Hm3).
  simpl. rewrite Hadd. simpl. eexists. split; [done|].
  eexists. split_and!; [exact Hrep|done|..]; simpl; congruence.
Qed.

Lemma remove_implements c a k :
  implements c a ->
  exists c', LruCache_remove c k = Some (c', (lru_step (OpRemove k) a).2) /\ implements c' (lru_step (OpRemove k) a).1.
Proof.
  intros (l & Hr & Hi & Hc & Hh & Hm). unfold LruCache_remove. simpl. rewrite Hi.
  destruct (lru_map c !! k) as [i|] eqn:Hk.
  - destruct (cells_split _ _ _ _ Hr Hk) as (l1 & v & l2 & ->).
    destruct (cells_find _ _ _ _ _ _ Hr) as [-> ->].
    pose proof (rp_linked _ _ Hr) as Hl. rewrite snd_middle in Hl.
    assert (linked (set_map (delete k (lru_map c)) c) (l1.*2 ++ (i, v) :: l2.*2)) as Hl' by by destruct Hl.
    destruct (linked_drop _ _ _ _ _ Hl' (rp_free _ _ Hr)) as (c1 & c2 & -> & Hrel & Hl2 & Hf2 & Hm2 & Hc2 & Hs2 & Hh2 & Hmi2).
    simpl. rewrite Hrel. exists c2. split; [done|]. exists (l1 ++ l2). simpl in *.
    destruct (rep_drop c c2 l1 k i v l2 Hr) as [Hrep _]; try done. split_and!; congruence.
  - assert (k ∉ (cell_items l).*1) as Hkm by (rewrite items_keys; by eapply cells_missing).
    rewrite (find_missing _ _ Hkm), (others_missing _ _ Hkm). exists c. split; [done|]. by exists l.
Qed.

Lemma clear_implements c a : implements c a -> implements (LruCache_clear c) (lru_step OpClear a).1.
Proof.
  intros (l & Hr & Hi & Hc & Hh & Hm). exists []. split_and!; [|done..]. pose proof (rp_cap _ _ Hr) as (H1 & H2 & _).
  split; simpl; [|apply NoDup_nil_2| |done|split_and!; [done|done|lia]|split; [apply NoDup_nil_2|by apply Forall_nil]].
  - split; simpl; [done|done|done|apply NoDup_nil_2].
  - intros k i. rewrite lookup_empty. split; [done|]. intros Hin. by apply elem_of_nil in Hin.
Qed.

Lemma step_implements o c a :
  implements c a ->
  exists c', cache_step o c = Some (c', (lru_step o a).2) /\ implements c' (lru_step o a).1.
Proof.
  intros Hi. destruct o as [k|k v|k|]; unfold cache_step.
  - by apply get_implements.
  - destruct (lru_map c !! k) as [i|] eqn:Hk; [by eapply put_existing_implements|by apply put_new_implements].
  - by apply remove_implements.
  - eexists. split; [done|]. by apply clear_implements.
Qed.

Lemma run_implements ops c a :
  implements c a ->
  exists c', cache_run ops c = Some (c', (lru_run ops a).2) /\ implements c' (lru_run ops a).1.
Proof.
  revert c a. induction ops as [|o ops IH]; intros c a Hi; [by exists c|].
  destruct (step_implements o c a Hi) as (c1 & Hs & Hi1). simpl. rewrite Hs. simpl.
  destruct (lru_step o a) as [a1 r]. simpl in *. destruct (IH c1 a1 Hi1) as (c2 & Hr & Hi2).
  rewrite Hr. simpl. destruct (lru_run ops a1) as [a2 rs]. by exists c2.
Qed.

Lemma new_implements cap :
  is_u64 cap -> implements (LruCache_new cap) (mkAbs [] (Z.max cap 1) 0 0).
Proof.
  intros Hc. exists []. split_and!; [|done..].
  split; simpl; [|apply NoDup_nil_2| |done|u64_lia|split; [apply NoDup_nil_2|by apply Forall_nil]].
  - split; simpl; [done|done|done|apply NoDup_nil_2].
  - intros k i. rewrite lookup_empty. split; [done|]. intros Hin. by apply elem_of_nil in Hin.
Qed.

Lemma implements_observe c a :
  implements c a ->
  LruCache_len c = Z.of_nat (length (lru_items a)) /\ LruCache_len c <= capacity c /\
  LruCache_stats c = mkStats (Z.of_nat (length (lru_items a))) (abs_capacity a) (abs_hits a) (abs_misses a) /\
  (forall k, LruCache_contains c k = bool_decide (k ∈ (lru_items a).*1)).
Proof.
  intros (l & Hr & Hi & Hc & Hh & Hm). pose proof (rp_size _ _ Hr) as Hs. pose proof (rp_cap _ _ Hr) as (_ & _ & Hle).
  unfold cell_index in Hs. rewrite length_fmap in Hs.
  unfold LruCache_len, LruCache_stats, LruCache_contains. rewrite Hi. rewrite items_length.
  split_and!; [done|done|congruence|]. intros k. apply bool_decide_ext. rewrite items_keys. split.
  - intros [i Hk]. apply (rp_map _ _ Hr) in Hk. apply list_elem_of_fmap. by exists (k, i).
  - intros ([k' i] & -> & Hin)%list_elem_of_fmap. exists i. by apply (rp_map _ _ Hr).
Qed.

(** C10: any sequence of [get], [put], [remove] and [clear] on a fresh cache
    runs without a panic and returns what the abstract cache returns, the list
    of pairs in order of use from which a [put] at capacity drops the last;
    afterwards [len], [stats] and [contains] are those of the list and the
    length is within the capacity. *)
Theorem lru_cache_refines (cap : Z) (ops : list (CacheOp K V)) :
  is_u64 cap ->
  let a := (lru_run ops (mkAbs [] (Z.max cap 1) 0 0)).1 in
  exists c, cache_run ops (LruCache_new cap) = Some (c, (lru_run ops (mkAbs [] (Z.max cap 1) 0 0)).2) /\
    LruCache_len c = Z.of_nat (length (lru_items a)) /\ LruCache_len c <= capacity c /\
    LruCache_stats c = mkStats (Z.of_nat (length (lru_items a))) (abs_capacity a) (abs_hits a) (abs_misses a) /\
    (forall k, LruCache_contains c k = bool_decide (k ∈ (lru_items a).*1)).
Proof.
  intros Hc a. destruct (run_implements ops _ _ (new_implements cap Hc)) as (c & Hrun & Hi).
  exists c. split; [done|]. by apply implements_observe.
Qed.

End abstract.

(** ** Witness *)

Definition cache_ops : list (CacheOp Z Z) :=
  [OpPut 1 10; OpPut 2 20; OpGet 1; OpPut 3 30; OpGet 2; OpRemove 1; OpPut 4 40; OpPut 5 50].

Example cache_ops_outputs :
  (lru_run cache_ops (mkAbs [] 2 0 0)).2 =
  [None; None; Some 10; Some 20; None; Some 10; None; Some 30].
Proof. reflexivity. Qed.

Lemma lru_cache_refines_witness :
  exists c, cache_run cache_ops (LruCache_new 2) =
    Some (c, [None; None; Some 10; Some 20; None; Some 10; None; Some 30]) /\ LruCache_len c = 2.
Proof.
  destruct (lru_cache_refines 2 cache_ops) as (c & Hrun & Hlen & _); [vm_compute; split; congruence|].
  exists c. split; [exact Hrun|rewrite Hlen; reflexivity].
Defined.
