(* ===== verification/Page.v ===== *)
(** * Pages and the page store: [src/storage/page.rs]

    What the operating system answers to the calls an operation makes is an
    argument of it, [Io]; the code drops most of the errors.  The backing file
    has its contents on the disk and the writes that no [sync_all] has made
    durable yet, of which a crash keeps any prefixes.  A slice expression out
    of range is a panic, [None] in [Page_read] and [Page_write]. *)

From S2P Require Import Prelude.

Definition PAGE_SIZE : Z := 4096.

Record Page := mkPage {
  page_id : Z;
  page_data : bytes;
  page_dirty : bool
}.

Definition Page_new (id : Z) : Page := mkPage id (replicate (Z.to_nat PAGE_SIZE) 0) false.
Definition Page_with_data (id : Z) (data : bytes) : Page := mkPage id data false.
Definition Page_mark_dirty (p : Page) : Page := mkPage (page_id p) (page_data p) true.
Definition Page_mark_clean (p : Page) : Page := mkPage (page_id p) (page_data p) false.

(** [&data[start..end]]. *)
Definition slice (data : bytes) (start stop : Z) : option bytes :=
  if (start <=? stop) && (stop <=? Z.of_nat (length data))
  then Some (take (Z.to_nat (stop - start)) (drop (Z.to_nat start) data))
  else None.

Definition Page_read (p : Page) (offset len : Z) : option (option bytes) :=
  if offset ⊞ len <=? PAGE_SIZE then Some <$> slice (page_data p) offset (offset ⊞ len)
  else Some None.

(** [data[offset..].copy_from_slice(src)] for a slice of the source's length. *)
Definition overwrite (data : bytes) (offset : Z) (src : bytes) : bytes :=
  take (Z.to_nat offset) data ++ src ++ drop (Z.to_nat offset + length src) data.

Definition Page_write (p : Page) (offset : Z) (data : bytes) : option (Page * bool) :=
  let len := Z.of_nat (length data) in
  if offset ⊞ len <=? PAGE_SIZE
  then _ ← slice (page_data p) offset (offset ⊞ len);
       Some (mkPage (page_id p) (overwrite (page_data p) offset data) true, true)
  else Some (p, false).

(** ** The backing file *)

(** [file.seek(SeekFrom::Start(offset))]: an offset is a non-negative [i64]. *)
Definition seek_ok (offset : Z) : bool := offset <? 2 ^ 63.

(** [write_all(data)] at an offset, a gap being filled with zeros; writing
    nothing changes nothing. *)
Definition file_write (f : bytes) (offset : Z) (data : bytes) : bytes :=
  match data with
  | [] => f
  | _ => overwrite (f ++ replicate (Z.to_nat offset - length f) 0) offset data
  end.

(** [file.read_exact(&mut data)] at an offset. *)
Definition file_read (f : bytes) (offset : Z) : option bytes :=
  slice f offset (offset + PAGE_SIZE).

(** An open file: what is on the disk, and the writes since, which reads see. *)
Record File := mkFile {
  f_durable : bytes;
  f_pending : list (Z * bytes)
}.

Definition replay_writes (f : bytes) (ws : list (Z * bytes)) : bytes :=
  fold_left (fun f w => file_write f w.1 w.2) ws f.

Definition File_contents (f : File) : bytes := replay_writes (f_durable f) (f_pending f).

Definition File_write (f : File) (offset : Z) (data : bytes) : File :=
  mkFile (f_durable f) (f_pending f ++ [(offset, data)]).

(** [file.sync_all()]. *)
Definition File_sync (f : File) : File := mkFile (File_contents f) [].

(** A crash: of each pending write the disk keeps as many bytes as [kept] says,
    none where it says nothing. *)
Fixpoint torn_writes (kept : list nat) (ws : list (Z * bytes)) : list (Z * bytes) :=
  match kept, ws with
  | k :: kept, (offset, data) :: ws => (offset, take k data) :: torn_writes kept ws
  | _, _ => []
  end.

Definition File_crash (kept : list nat) (f : File) : File :=
  mkFile (replay_writes (f_durable f) (torn_writes kept (f_pending f))) [].

(** The answers of the operating system to the calls of one operation:
    [io_written] is the number of bytes written before [write_all] failed. *)
Record Io := mkIo {
  io_open : bool;
  io_stat : bool;
  io_seek : bool;
  io_read : bool;
  io_written : option nat;
  io_sync : bool
}.

Definition io_ok : Io := mkIo true true true true None true.

(** ** The store *)

Record PageStore := mkPageStore {
  ps_pages : gmap Z Page;
  next_id : Z;
  ps_file : option File
}.

Definition PageStore_new : PageStore := mkPageStore ∅ 1 None.
Definition PageStore_default : PageStore := PageStore_new.

(** [file] is the file at the path, empty when there was none; [None] is the
    error of opening it or reading its length. *)
Definition PageStore_open (io : Io) (file : File) : option PageStore :=
  if negb (io_open io) then None
  else if negb (io_stat io) then None
  else
    let page_count := Z.of_nat (length (File_contents file)) / PAGE_SIZE in
    Some (mkPageStore ∅ (page_count ⊞ 1) (Some file)).

Definition page_offset (id : Z) : Z := (id ⊟ 1) ⊠ PAGE_SIZE.

(** Seek to the page and write its data, when the store has a file. *)
Definition write_back (io : Io) (id : Z) (data : bytes) (file : option File) : option File :=
  match file with
  | Some f =>
      if seek_ok (page_offset id) && io_seek io
      then Some (File_write f (page_offset id) (match io_written io with None => data | Some k => take k data end))
      else Some f
  | None => None
  end.

Definition PageStore_allocate (io : Io) (s : PageStore) : PageStore * Z :=
  let id := next_id s in
  let page := Page_new id in
  (mkPageStore (<[id := page]> (ps_pages s)) (id ⊞ 1) (write_back io id (page_data page) (ps_file s)), id).

Definition PageStore_read_page (io : Io) (s : PageStore) (id : Z) : option Page :=
  match ps_pages s !! id with
  | Some page => Some page
  | None =>
      match ps_file s with
      | Some f =>
          if seek_ok (page_offset id) && io_seek io then
            if io_read io then Page_with_data id <$> file_read (File_contents f) (page_offset id) else None
          else None
      | None => None
      end
  end.

Definition PageStore_write_page (io : Io) (s : PageStore) (page : Page) : PageStore :=
  mkPageStore (<[page_id page := page]> (ps_pages s)) (next_id s)
    (write_back io (page_id page) (page_data page) (ps_file s)).

Definition PageStore_exists (io : Io) (s : PageStore) (id : Z) : bool :=
  bool_decide (is_Some (ps_pages s !! id)) ||
  match ps_file s with
  | Some f =>
      let len := if io_stat io then Z.of_nat (length (File_contents f)) else 0 in
      id ⊠ PAGE_SIZE <=? len
  | None => false
  end.

Definition PageStore_free (s : PageStore) (id : Z) : PageStore * bool :=
  (mkPageStore (delete id (ps_pages s)) (next_id s) (ps_file s), bool_decide (is_Some (ps_pages s !! id))).

(** [HashMap] order is arbitrary; [map_to_list] fixes one. *)
Definition PageStore_dirty_pages (s : PageStore) : list Z :=
  (filter (fun kv => page_dirty kv.2 = true) (map_to_list (ps_pages s))).*1.

Definition PageStore_flush (io : Io) (s : PageStore) : PageStore :=
  mkPageStore (Page_mark_clean <$> ps_pages s) (next_id s)
    (match ps_file s with
     | Some f => Some (if io_sync io then File_sync f else f)
     | None => None
     end).

(** [AsyncPageStore] runs the operations of a store on another thread and
    waits for them: the state is the inner store's. *)
Record AsyncPageStore := mkAsyncPageStore { inner : PageStore }.

Definition AsyncPageStore_new : AsyncPageStore := mkAsyncPageStore PageStore_new.
Definition AsyncPageStore_default : AsyncPageStore := AsyncPageStore_new.

Definition AsyncPageStore_allocate (io : Io) (s : AsyncPageStore) : AsyncPageStore * Z :=
  let '(store, id) := PageStore_allocate io (inner s) in (mkAsyncPageStore store, id).

Definition AsyncPageStore_read_page (io : Io) (s : AsyncPageStore) (id : Z) : option Page :=
  PageStore_read_page io (inner s) id.

Definition AsyncPageStore_write_page (io : Io) (s : AsyncPageStore) (page : Page) : AsyncPageStore :=
  mkAsyncPageStore (PageStore_write_page io (inner s) page).

Definition AsyncPageStore_flush (io : Io) (s : AsyncPageStore) : AsyncPageStore :=
  mkAsyncPageStore (PageStore_flush io (inner s)).

Definition PageStore_page_count (s : PageStore) : Z := next_id s ⊟ 1.

(** ** The abstract store: its pages in order *)

Inductive PageOp :=
| PAllocate (io : Io)
| PWrite (io : Io) (page : Page)
| PFree (id : Z)
| PFlush (io : Io)
| PReopen
| PCrash (kept : list nat).

(** Opening the store's file again. *)
Definition reopen (f : File -> File) (s : PageStore) : PageStore :=
  match ps_file s with
  | Some file => default s (PageStore_open io_ok (f file))
  | None => PageStore_new
  end.

Definition page_op (o : PageOp) (s : PageStore) : PageStore :=
  match o with
  | PAllocate io => (PageStore_allocate io s).1
  | PWrite io page => PageStore_write_page io s page
  | PFree id => (PageStore_free s id).1
  | PFlush io => PageStore_flush io s
  | PReopen => reopen id s
  | PCrash kept => reopen (File_crash kept) s
  end.

Definition pages_op (o : PageOp) (l : list bytes) : list bytes :=
  match o with
  | PAllocate _ => l ++ [replicate (Z.to_nat PAGE_SIZE) 0]
  | PWrite _ page => <[Z.to_nat (page_id page - 1) := page_data page]> l
  | _ => l
  end.

(** No call fails, and a page written is one that was allocated. *)
Definition op_ok (o : PageOp) (l : list bytes) : Prop :=
  match o with
  | PAllocate io | PFlush io => io = io_ok
  | PWrite io page =>
      io = io_ok /\ 1 <= page_id page <= Z.of_nat (length l) /\ length (page_data page) = Z.to_nat PAGE_SIZE
  | PFree _ | PReopen => True
  | PCrash _ => False
  end.

Fixpoint ops_ok (ops : list PageOp) (l : list bytes) : Prop :=
  match ops with
  | [] => True
  | o :: ops => op_ok o l /\ ops_ok ops (pages_op o l)
  end.

Definition page_run (ops : list PageOp) (s : PageStore) : PageStore := fold_left (fun s o => page_op o s) ops s.
Definition pages_run (ops : list PageOp) (l : list bytes) : list bytes := fold_left (fun l o => pages_op o l) ops l.

(** The whole pages of a file. *)
Fixpoint chunks (fuel : nat) (f : bytes) : list bytes :=
  match fuel with
  | O => []
  | S fuel => take (Z.to_nat PAGE_SIZE) f :: chunks fuel (drop (Z.to_nat PAGE_SIZE) f)
  end.

Definition file_pages (f : bytes) : list bytes := chunks (length f / Z.to_nat PAGE_SIZE) f.

Record store_inv (s : PageStore) (l : list bytes) : Prop := {
  si_file : exists f rest, ps_file s = Some f /\ File_contents f = concat l ++ rest /\ (length rest < Z.to_nat PAGE_SIZE)%nat;
  si_size : Forall (fun d => length d = Z.to_nat PAGE_SIZE) l;
  si_next : next_id s = Z.of_nat (length l) + 1;
  si_cache : forall id p, ps_pages s !! id = Some p ->
    1 <= id <= Z.of_nat (length l) /\ page_id p = id /\ l !! Z.to_nat (id - 1) = Some (page_data p)
}.

(** ** Slices *)

Lemma slice_middle a b c :
  slice (a ++ b ++ c) (Z.of_nat (length a)) (Z.of_nat (length a) + Z.of_nat (length b)) = Some b.
Proof.
  unfold slice. rewrite !length_app.
  replace ((Z.of_nat (length a) <=? _) && _) with true by (symmetry; apply andb_true_iff; split; apply Z.leb_le; lia).
  f_equal. rewrite Nat2Z.id, drop_app_length.
  replace (Z.to_nat _) with (length b) by lia. by rewrite take_app_length.
Qed.

Lemma overwrite_middle a b c src :
  length b = length src -> overwrite (a ++ b ++ c) (Z.of_nat (length a)) src = a ++ src ++ c.
Proof.
  intros Hl. unfold overwrite. rewrite Nat2Z.id, take_app_length. do 2 f_equal.
  rewrite <- Hl, <- length_app, app_assoc. by rewrite drop_app_length.
Qed.

Lemma slice_of data start stop :
  0 <= start <= stop -> stop <= Z.of_nat (length data) ->
  exists a b c, data = a ++ b ++ c /\ Z.of_nat (length a) = start /\ Z.of_nat (length b) = stop - start /\
    slice data start stop = Some b.
Proof.
  intros Hs Hd. exists (take (Z.to_nat start) data), (take (Z.to_nat (stop - start)) (drop (Z.to_nat start) data)),
    (drop (Z.to_nat (stop - start)) (drop (Z.to_nat start) data)).
  rewrite !take_drop. split_and!; [done|rewrite length_take; lia|rewrite length_take, length_drop; lia|].
  unfold slice. replace ((start <=? stop) && _) with true by (symmetry; apply andb_true_iff; split; apply Z.leb_le; lia). done.
Qed.

(** A write that fits in the page stores its bytes at the offset and
    nowhere else, keeps the page's size, marks it dirty and is read back by a
    read of the same range; one that does not fit leaves the page as it is. *)
Theorem page_write_read (p : Page) (offset : Z) (data : bytes) :
  length (page_data p) = Z.to_nat PAGE_SIZE -> 0 <= offset -> offset + Z.of_nat (length data) < u64_bound ->
  if offset + Z.of_nat (length data) <=? PAGE_SIZE
  then exists a b c, page_data p = a ++ b ++ c /\ Z.of_nat (length a) = offset /\ length b = length data /\
    Page_write p offset data = Some (mkPage (page_id p) (a ++ data ++ c) true, true) /\
    length (a ++ data ++ c) = Z.to_nat PAGE_SIZE /\
    Page_read (mkPage (page_id p) (a ++ data ++ c) true) offset (Z.of_nat (length data)) = Some (Some data)
  else Page_write p offset data = Some (p, false).
Proof.
  intros Hp Ho Hb. unfold Page_write, Page_read.
  assert (offset ⊞ Z.of_nat (length data) = offset + Z.of_nat (length data)) as -> by divmod_lia.
  destruct (Z.leb_spec (offset + Z.of_nat (length data)) PAGE_SIZE) as [Hfit|]; [|done].
  destruct (slice_of (page_data p) offset (offset + Z.of_nat (length data))) as (a & b & c & Hd & Ha & Hbl & Hs);
    [lia|rewrite Hp; unfold PAGE_SIZE in *; lia|].
  exists a, b, c. rewrite Hs. simpl. rewrite Hd in Hp |- *. rewrite <- Ha.
  rewrite overwrite_middle by lia. rewrite slice_middle. split_and!; try done; [lia|].
  rewrite !length_app in *. lia.
Qed.

Lemma page_write_read_witness :
  exists p', Page_write (Page_new 7) 4090 [1; 2; 3; 4; 5; 6] = Some (p', true) /\
    Page_read p' 4090 6 = Some (Some [1; 2; 3; 4; 5; 6]).
Proof.
  pose proof (page_write_read (Page_new 7) 4090 [1; 2; 3; 4; 5; 6]) as Hw.
  destruct Hw as (a & b & c & _ & _ & _ & Hw & _ & Hr); [vm_compute; reflexivity|lia|vm_compute; reflexivity|].
  eexists. split; [exact Hw|exact Hr].
Defined.

(** ** Page files *)

Lemma concat_length (l : list bytes) n :
  Forall (fun d => length d = n) l -> length (concat l) = (length l * n)%nat.
Proof. induction 1 as [|d l Hd _ IH]; simpl; [done|]. rewrite length_app. lia. Qed.

Lemma page_offset_ok id :
  1 <= id -> id * PAGE_SIZE <= 2 ^ 63 ->
  page_offset id = (id - 1) * PAGE_SIZE /\ seek_ok (page_offset id) = true.
Proof.
  intros H1 H2. assert (page_offset id = (id - 1) * PAGE_SIZE) as E.
  { unfold page_offset, PAGE_SIZE, u64_sub, u64_mul, u64_bound in *.
    rewrite (Z.mod_small (id - 1)) by lia. apply Z.mod_small. lia. }
  split; [done|]. unfold seek_ok. rewrite E. apply Z.ltb_lt. unfold PAGE_SIZE in *. lia.
Qed.

Lemma psz_pos : (0 < Z.to_nat PAGE_SIZE)%nat.
Proof. unfold PAGE_SIZE. lia. Qed.

Lemma psz_val : Z.of_nat (Z.to_nat PAGE_SIZE) = PAGE_SIZE.
Proof. unfold PAGE_SIZE. lia. Qed.

Lemma file_write_full f offset data :
  length data = Z.to_nat PAGE_SIZE ->
  file_write f offset data = overwrite (f ++ replicate (Z.to_nat offset - length f) 0) offset data.
Proof. pose proof psz_pos. destruct data; simpl; [lia|done]. Qed.

Lemma contents_write f offset data : File_contents (File_write f offset data) = file_write (File_contents f) offset data.
Proof. unfold File_contents, replay_writes. simpl. by rewrite fold_left_app. Qed.

Lemma write_back_ok id data f :
  1 <= id -> id * PAGE_SIZE <= 2 ^ 63 ->
  write_back io_ok id data (Some f) = Some (File_write f ((id - 1) * PAGE_SIZE) data).
Proof. intros H1 H2. destruct (page_offset_ok id H1 H2) as [Ho Hk]. unfold write_back. by rewrite Hk, Ho. Qed.

Lemma chunks_spec n f :
  (n * Z.to_nat PAGE_SIZE <= length f)%nat ->
  length (chunks n f) = n /\ Forall (fun d => length d = Z.to_nat PAGE_SIZE) (chunks n f) /\
  f = concat (chunks n f) ++ drop (n * Z.to_nat PAGE_SIZE) f.
Proof.
  revert f. induction n as [|n IH]; intros f Hf; [done|]. cbn [chunks length].
  destruct (IH (drop (Z.to_nat PAGE_SIZE) f)) as (Hl & Hs & He); [rewrite length_drop; lia|].
  split_and!; [by rewrite Hl|apply Forall_cons; split; [rewrite length_take; lia|done]|].
  cbn [concat]. rewrite <- app_assoc.
  replace (S n * Z.to_nat PAGE_SIZE)%nat with (Z.to_nat PAGE_SIZE + n * Z.to_nat PAGE_SIZE)%nat by lia.
  rewrite <- drop_drop, <- He. by rewrite take_drop.
Qed.

Lemma open_inv f s (l : list bytes) rest :
  PageStore_open io_ok f = Some s -> File_contents f = concat l ++ rest ->
  Forall (fun d => length d = Z.to_nat PAGE_SIZE) l -> (length rest < Z.to_nat PAGE_SIZE)%nat ->
  Z.of_nat (length l) * PAGE_SIZE <= 2 ^ 63 -> store_inv s l.
Proof.
  intros [= <-] Hf Hs Hr Hb. split.
  - by exists f, rest.
  - done.
  - cbn [next_id]. rewrite Hf, length_app, (concat_length _ _ Hs), Nat2Z.inj_add, Nat2Z.inj_mul, psz_val.
    assert (Z.of_nat (length rest) < PAGE_SIZE) as Hr' by (rewrite <- psz_val; lia).
    rewrite Z.div_add_l, Z.div_small by (unfold PAGE_SIZE in *; lia).
    unfold u64_add, u64_bound, PAGE_SIZE in *. rewrite Z.mod_small; lia.
  - intros id p Hid. simpl in Hid. by rewrite lookup_empty in Hid.
Qed.

Lemma file_pages_inv file s :
  let f := File_contents file in
  PageStore_open io_ok file = Some s -> Z.of_nat (length f) <= 2 ^ 63 -> store_inv s (file_pages f).
Proof.
  intros f Ho Hlen. pose proof psz_pos as Hp. unfold file_pages.
  pose proof (Nat.div_mod (length f) (Z.to_nat PAGE_SIZE) ltac:(lia)) as Hdm.
  pose proof (Nat.mod_upper_bound (length f) (Z.to_nat PAGE_SIZE) ltac:(lia)) as Hub.
  destruct (chunks_spec (length f / Z.to_nat PAGE_SIZE) f) as (Hl & Hs & He); [lia|].
  eapply open_inv; [exact Ho|exact He|done|rewrite length_drop; lia|].
  assert (Z.of_nat (length f / Z.to_nat PAGE_SIZE * Z.to_nat PAGE_SIZE) <= Z.of_nat (length f)) as Hm by (apply inj_le; lia).
  rewrite Nat2Z.inj_mul, psz_val in Hm. rewrite Hl. lia.
Qed.

(** The file with one page taken out. *)
Lemma file_split (l : list bytes) i d :
  l !! i = Some d -> Forall (fun d => length d = Z.to_nat PAGE_SIZE) l ->
  concat l = concat (take i l) ++ d ++ concat (drop (S i) l) /\
  Z.of_nat (length (concat (take i l))) = Z.of_nat i * PAGE_SIZE /\ length d = Z.to_nat PAGE_SIZE.
Proof.
  intros Hd Hs. split_and!.
  - rewrite <- (take_drop_middle l i d Hd) at 1. rewrite concat_app. done.
  - rewrite (concat_length _ (Z.to_nat PAGE_SIZE)) by by apply Forall_take.
    rewrite length_take, Nat2Z.inj_mul, psz_val. apply lookup_lt_Some in Hd. f_equal. lia.
  - rewrite Forall_lookup in Hs. by eapply Hs.
Qed.

Lemma file_page_read (l : list bytes) rest i d :
  l !! i = Some d -> Forall (fun d => length d = Z.to_nat PAGE_SIZE) l ->
  file_read (concat l ++ rest) (Z.of_nat i * PAGE_SIZE) = Some d.
Proof.
  intros Hd Hs. destruct (file_split l i d Hd Hs) as (-> & Hi & Hl). unfold file_read.
  rewrite <- Hi, <- psz_val, <- Hl, <- !app_assoc. apply slice_middle.
Qed.

Lemma file_page_write (l : list bytes) rest i d d' :
  l !! i = Some d -> Forall (fun d => length d = Z.to_nat PAGE_SIZE) l -> length d' = Z.to_nat PAGE_SIZE ->
  file_write (concat l ++ rest) (Z.of_nat i * PAGE_SIZE) d' = concat (<[i := d']> l) ++ rest.
Proof.
  intros Hd Hs Hl'. destruct (file_split l i d Hd Hs) as (E & Hi & Hl). rewrite file_write_full by done.
  assert (length (concat (take i l)) <= length (concat l ++ rest))%nat as Hle.
  { rewrite E, !length_app. lia. }
  replace (Z.to_nat (Z.of_nat i * PAGE_SIZE) - length (concat l ++ rest))%nat with 0%nat by lia.
  rewrite app_nil_r, E, <- Hi, <- !app_assoc, overwrite_middle by congruence.
  rewrite insert_take_drop by by eapply lookup_lt_Some. rewrite concat_app. simpl. by rewrite <- !app_assoc.
Qed.

Lemma file_page_append (l : list bytes) rest d :
  Forall (fun d => length d = Z.to_nat PAGE_SIZE) l -> (length rest < Z.to_nat PAGE_SIZE)%nat ->
  length d = Z.to_nat PAGE_SIZE ->
  file_write (concat l ++ rest) (Z.of_nat (length l) * PAGE_SIZE) d = concat (l ++ [d]).
Proof.
  intros Hs Hr Hd. pose proof (concat_length _ _ Hs) as Hl.
  assert (Z.of_nat (length l) * PAGE_SIZE = Z.of_nat (length (concat l))) as E.
  { rewrite Hl, Nat2Z.inj_mul, psz_val. done. }
  rewrite file_write_full by done. unfold overwrite. rewrite E, Nat2Z.id.
  rewrite <- app_assoc, take_app_length, concat_app. simpl. rewrite app_nil_r. f_equal.
  rewrite length_app. replace (length (concat l) - _)%nat with 0%nat by lia. rewrite app_nil_r.
  rewrite drop_ge by (rewrite length_app; lia). apply app_nil_r.
Qed.

(** ** Every operation keeps the store and its pages in step *)

Lemma allocate_inv s l :
  store_inv s l -> Z.of_nat (length l + 1) * PAGE_SIZE <= 2 ^ 63 ->
  store_inv (page_op (PAllocate io_ok) s) (pages_op (PAllocate io_ok) l).
Proof.
  intros [(f & rest & Hf & Hfc & Hr) Hs Hn Hc] Hb.
  assert (length (replicate (Z.to_nat PAGE_SIZE) 0) = Z.to_nat PAGE_SIZE) as Hz by apply length_replicate.
  change (page_op (PAllocate io_ok) s) with (mkPageStore (<[next_id s := Page_new (next_id s)]> (ps_pages s)) (next_id s ⊞ 1)
    (write_back io_ok (next_id s) (page_data (Page_new (next_id s))) (ps_file s))).
  cbn [pages_op]. split; cbn [ps_file ps_pages next_id].
  - eexists _, []. rewrite Hf, write_back_ok by lia. split_and!; [done| |apply psz_pos].
    cbn [Page_new page_data]. rewrite contents_write, Hfc, Hn, Z.add_simpl_r, app_nil_r. by apply file_page_append.
  - apply Forall_app. split; [done|]. by apply Forall_singleton.
  - rewrite length_app, Hn. unfold PAGE_SIZE, u64_add, u64_bound in *. rewrite Z.mod_small; simpl; lia.
  - intros id p. rewrite lookup_insert_Some. intros [[<- <-]|[Hne Hid]].
    + cbn [Page_new page_id page_data]. rewrite Hn, length_app. split_and!; [simpl; lia..|done|].
      rewrite Z.add_simpl_r, Nat2Z.id. by apply list_lookup_middle.
    + destruct (Hc id p Hid) as (Hr1 & Hr2 & Hr3). rewrite length_app.
      split_and!; [lia..|done|]. by apply lookup_app_l_Some.
Qed.

Lemma write_inv s l page :
  store_inv s l -> op_ok (PWrite io_ok page) l -> Z.of_nat (length l + 1) * PAGE_SIZE <= 2 ^ 63 ->
  store_inv (page_op (PWrite io_ok page) s) (pages_op (PWrite io_ok page) l).
Proof.
  intros [(f & rest & Hf & Hfc & Hr) Hs Hn Hc] (_ & Hid & Hd) Hb.
  destruct (lookup_lt_is_Some_2 l (Z.to_nat (page_id page - 1))) as [d Hl]; [lia|].
  unfold page_op, PageStore_write_page. cbn [pages_op]. split; cbn [ps_file ps_pages next_id].
  - eexists _, rest. rewrite Hf, write_back_ok by (unfold PAGE_SIZE in *; lia). split_and!; [done| |done].
    rewrite contents_write, Hfc.
    replace (page_id page - 1) with (Z.of_nat (Z.to_nat (page_id page - 1))) at 1 by lia.
    by eapply file_page_write.
  - by apply Forall_insert.
  - by rewrite length_insert.
  - intros id p. rewrite lookup_insert_Some, length_insert. intros [[<- <-]|[Hne Hin]].
    + split_and!; [lia..|done|]. apply list_lookup_insert_eq. lia.
    + destruct (Hc id p Hin) as (Hr1 & Hr2 & Hr3). split_and!; [lia..|done|].
      rewrite list_lookup_insert_ne; [done|lia].
Qed.

Lemma page_op_inv o s l :
  store_inv s l -> op_ok o l -> Z.of_nat (length l + 1) * PAGE_SIZE <= 2 ^ 63 ->
  store_inv (page_op o s) (pages_op o l).
Proof.
  intros Hi Ho Hb. destruct o as [io|io page|id|io| |]; [..|done];
    [simpl in Ho; subst io; by apply allocate_inv|destruct Ho as [-> Ho]; by apply write_inv|..];
    destruct Hi as [(f & rest & Hf & Hfc & Hr) Hs Hn Hc]; cbn [page_op pages_op].
  - split; [by exists f, rest|done|done|]. intros id' p. simpl. rewrite lookup_delete_Some. intros [_ Hid]. by apply Hc.
  - simpl in Ho. subst io. split; [exists (File_sync f), rest; simpl; by rewrite Hf|done|done|]. intros id p. simpl. rewrite lookup_fmap_Some.
    intros (p' & <- & Hid). exact (Hc id p' Hid).
  - unfold reopen. rewrite Hf. eapply open_inv; [done|done|done|done|]. unfold PAGE_SIZE in *. lia.
Qed.

Lemma pages_op_length o l : (length (pages_op o l) <= length l + 1)%nat.
Proof. destruct o; cbn [pages_op]; rewrite ?length_app, ?length_insert; simpl; lia. Qed.

Lemma page_run_inv ops s l :
  store_inv s l -> ops_ok ops l -> Z.of_nat (length l + length ops) * PAGE_SIZE <= 2 ^ 63 ->
  store_inv (page_run ops s) (pages_run ops l).
Proof.
  revert s l. induction ops as [|o ops IH]; intros s l Hi Ho Hb; [done|].
  destruct Ho as [Ho Hos]. cbn [length] in Hb. apply IH; [|done|].
  - apply page_op_inv; [done|done|]. unfold PAGE_SIZE in *. lia.
  - pose proof (pages_op_length o l). unfold PAGE_SIZE in *. lia.
Qed.

Lemma store_inv_read s l id :
  store_inv s l -> 1 <= id <= Z.of_nat (length l) -> Z.of_nat (length l) * PAGE_SIZE <= 2 ^ 63 ->
  exists p, PageStore_read_page io_ok s id = Some p /\ page_id p = id /\ l !! Z.to_nat (id - 1) = Some (page_data p).
Proof.
  intros [(f & rest & Hf & Hfc & Hr) Hs Hn Hc] Hid Hb. unfold PageStore_read_page.
  destruct (ps_pages s !! id) as [p|] eqn:Hp.
  { exists p. split; [done|]. by apply Hc. }
  destruct (page_offset_ok id) as [Ho Hk]; [lia|unfold PAGE_SIZE in *; lia|].
  destruct (lookup_lt_is_Some_2 l (Z.to_nat (id - 1))) as [d Hl]; [lia|].
  rewrite Hf, Hk, Ho, Hfc. exists (Page_with_data id d). split; [|done]. simpl.
  replace (id - 1) with (Z.of_nat (Z.to_nat (id - 1))) by lia. by erewrite file_page_read.
Qed.

(** C23: for a store opened on any file, after any sequence of allocations,
    writes to allocated pages, frees, flushes and reopenings, the page count
    is the number of pages of the abstract store (the file's whole pages, then
    the allocated ones) and every page reads back, from the cache or the file,
    the bytes last written to it. *)
Theorem page_store_refines (file : File) (s0 : PageStore) (ops : list PageOp) :
  let pages := file_pages (File_contents file) in
  PageStore_open io_ok file = Some s0 -> ops_ok ops pages ->
  Z.of_nat (length (File_contents file)) <= 2 ^ 63 -> Z.of_nat (length pages + length ops) * PAGE_SIZE <= 2 ^ 63 ->
  let s := page_run ops s0 in
  let l := pages_run ops pages in
  PageStore_page_count s = Z.of_nat (length l) /\
  (forall id, 1 <= id <= Z.of_nat (length l) ->
    exists p, PageStore_read_page io_ok s id = Some p /\ page_id p = id /\ l !! Z.to_nat (id - 1) = Some (page_data p)).
Proof.
  intros pages Hopen Ho Hf Hb s l. pose proof (page_run_inv _ _ _ (file_pages_inv file s0 Hopen Hf) Ho Hb) as Hi. fold pages s l in Hi.
  assert (length l <= length pages + length ops)%nat as Hl.
  { unfold l, pages_run. clear. generalize pages as l0. induction ops as [|o ops IH]; intros l0; simpl; [lia|].
    pose proof (IH (pages_op o l0)). pose proof (pages_op_length o l0). lia. }
  split.
  - unfold PageStore_page_count. rewrite (si_next _ _ Hi).
    unfold PAGE_SIZE, u64_sub, u64_bound in *. rewrite Z.mod_small; lia.
  - intros id Hid. eapply store_inv_read; [exact Hi|done|]. unfold PAGE_SIZE in *. lia.
Qed.

(** ** Failures and crashes

    The state of a page is known from three places: the cache, the file as
    reads see it, and the disk.  The specification keeps, per place, the pages
    whose bytes are certain; an operation that may have damaged a page makes
    it uncertain. *)

Record PageSpec := mkPageSpec {
  sp_cache : gmap Z bytes;
  sp_file : gmap Z bytes;
  sp_disk : gmap Z bytes
}.

(** The page's bytes went to the file completely. *)
Definition write_complete (io : Io) (data : bytes) : bool :=
  io_seek io && match io_written io with None => true | Some k => bool_decide (length data <= k)%nat end.

(** Writing a page: the cache has it; the file has it if no call failed; until
    the next flush the disk may have any of it. *)
Definition spec_write (io : Io) (id : Z) (data : bytes) (sp : PageSpec) : PageSpec :=
  mkPageSpec (<[id := data]> (sp_cache sp))
    (if write_complete io data then <[id := data]> (sp_file sp) else delete id (sp_file sp))
    (delete id (sp_disk sp)).

Definition spec_op (o : PageOp) (next : Z) (sp : PageSpec) : PageSpec :=
  match o with
  | PAllocate io => spec_write io next (replicate (Z.to_nat PAGE_SIZE) 0) sp
  | PWrite io page => spec_write io (page_id page) (page_data page) sp
  | PFree id => mkPageSpec (delete id (sp_cache sp)) (sp_file sp) (sp_disk sp)
  | PFlush io => mkPageSpec (sp_cache sp) (sp_file sp) (if io_sync io then sp_file sp else sp_disk sp)
  | PReopen => mkPageSpec ∅ (sp_file sp) (sp_disk sp)
  | PCrash _ => mkPageSpec ∅ (sp_disk sp) (sp_disk sp)
  end.

(** The ids an operation writes have offsets in the range of a file. *)
Definition in_range (id : Z) : Prop := 1 <= id /\ id * PAGE_SIZE <= 2 ^ 63.

Definition op_in_range (o : PageOp) (next : Z) : Prop :=
  match o with
  | PAllocate _ => in_range next
  | PWrite _ page => in_range (page_id page) /\ length (page_data page) = Z.to_nat PAGE_SIZE
  | _ => True
  end.

(** A run of the store next to its specification. *)
Fixpoint spec_run (ops : list PageOp) (s : PageStore) (sp : PageSpec) : PageSpec :=
  match ops with
  | [] => sp
  | o :: ops => spec_run ops (page_op o s) (spec_op o (next_id s) sp)
  end.

Fixpoint run_in_range (ops : list PageOp) (s : PageStore) : Prop :=
  match ops with
  | [] => True
  | o :: ops => op_in_range o (next_id s) /\ run_in_range ops (page_op o s)
  end.

Definition file_has (f : bytes) (id : Z) (d : bytes) : Prop := file_read f ((id - 1) * PAGE_SIZE) = Some d.

(** A write that stays clear of a page. *)
Definition clear_of (id : Z) (w : Z * bytes) : Prop :=
  0 <= w.1 /\ (w.1 + Z.of_nat (length w.2) <= (id - 1) * PAGE_SIZE \/ id * PAGE_SIZE <= w.1).

Record spec_inv (s : PageStore) (sp : PageSpec) : Prop := {
  sv_cache : page_data <$> ps_pages s = sp_cache sp;
  sv_file : exists f, ps_file s = Some f /\
    (forall id d, sp_file sp !! id = Some d -> in_range id /\ file_has (File_contents f) id d) /\
    (forall id d, sp_disk sp !! id = Some d ->
       sp_file sp !! id = Some d /\ file_has (f_durable f) id d /\ Forall (clear_of id) (f_pending f))
}.

(** *** Reads and writes of the file *)

Lemma lookup_file_write f offset data i :
  0 <= offset -> data <> [] ->
  file_write f offset data !! i =
    if bool_decide (Z.to_nat offset <= i < Z.to_nat offset + length data)%nat then data !! (i - Z.to_nat offset)%nat
    else if bool_decide (i < length f)%nat then f !! i
    else if bool_decide (i < Z.to_nat offset)%nat then Some 0 else None.
Proof.
  intros Ho Hd. unfold file_write. destruct data as [|b data]; [done|]. set (x := b :: data). clearbody x.
  unfold overwrite. set (o := Z.to_nat offset). set (g := f ++ replicate (o - length f) 0).
  assert (length g = Nat.max (length f) o) as Hg by (unfold g; rewrite length_app, length_replicate; lia).
  assert (length (take o g) = o) as Ht by (rewrite length_take; lia).
  assert (g !! i = if bool_decide (i < length f)%nat then f !! i else if bool_decide (i < o)%nat then Some 0 else None) as Hgi.
  { unfold g. case_bool_decide; [by apply lookup_app_l|]. rewrite lookup_app_r by lia.
    case_bool_decide; [apply lookup_replicate_2|apply lookup_ge_None_2; rewrite length_replicate]; lia. }
  rewrite <- Hgi. clear Hgi. case_bool_decide as Hi.
  - rewrite lookup_app_r by lia. rewrite Ht. by rewrite lookup_app_l by lia.
  - destruct (decide (i < o)%nat); [by rewrite lookup_app_l, lookup_take_lt by lia|].
    rewrite lookup_app_r, lookup_app_r, lookup_drop by lia. f_equal. lia.
Qed.

Lemma file_has_iff f id d :
  1 <= id ->
  file_has f id d <-> length d = Z.to_nat PAGE_SIZE /\
    forall i, (i < Z.to_nat PAGE_SIZE)%nat -> f !! (Z.to_nat ((id - 1) * PAGE_SIZE) + i)%nat = d !! i.
Proof.
  intros Hid. unfold file_has, file_read. set (o := (id - 1) * PAGE_SIZE).
  assert (0 <= o) as Ho by (unfold o, PAGE_SIZE; lia). assert (0 < PAGE_SIZE) by done. pose proof psz_val as Hp. pose proof psz_pos. split.
  - intros Hs. destruct (decide (o + PAGE_SIZE <= Z.of_nat (length f))) as [Hle|Hgt].
    + destruct (slice_of f o (o + PAGE_SIZE)) as (a & b & c & -> & Ha & Hb & Hs'); [lia|done|]. rewrite Hs in Hs'. injection Hs' as <-.
      split; [lia|]. intros i Hi. rewrite lookup_app_r, lookup_app_l by lia. f_equal. lia.
    + exfalso. revert Hs. unfold slice. rewrite (proj2 (Z.leb_gt (o + PAGE_SIZE) _)) by lia. by rewrite andb_false_r.
  - intros [Hl Hf]. destruct (lookup_lt_is_Some_2 d (Z.to_nat PAGE_SIZE - 1)%nat) as [x Hx]; [lia|].
    rewrite <- Hf in Hx by lia. apply lookup_lt_Some in Hx.
    destruct (slice_of f o (o + PAGE_SIZE)) as (a & b & c & -> & Ha & Hb & ->); [lia|lia|]. f_equal.
    apply (list_eq_same_length _ _ (Z.to_nat PAGE_SIZE)); [lia|lia|]. intros i y z Hi Hy Hz.
    rewrite <- Hf, lookup_app_r, lookup_app_l in Hz by lia. replace (_ + i - length a)%nat with i in Hz by lia. congruence.
Qed.

Lemma file_has_written f id d : 1 <= id -> length d = Z.to_nat PAGE_SIZE -> file_has (file_write f ((id - 1) * PAGE_SIZE) d) id d.
Proof.
  intros Hid Hd. apply file_has_iff; [done|]. split; [done|]. intros i Hi.
  rewrite lookup_file_write; [|unfold PAGE_SIZE; lia|intros ->; simpl in Hd; pose proof psz_pos; lia].
  rewrite bool_decide_eq_true_2 by lia. f_equal. lia.
Qed.

Lemma file_has_clear f id d w : 1 <= id -> clear_of id w -> file_has f id d -> file_has (file_write f w.1 w.2) id d.
Proof.
  intros Hid [Hw Hc] Hf. destruct (decide (w.2 = [])) as [->|Hne]; [done|].
  apply file_has_iff in Hf as [Hl Hf]; [|done]. apply file_has_iff; [done|]. split; [done|]. intros i Hi.
  rewrite <- Hf by done. assert (is_Some (d !! i)) as Hs by (apply lookup_lt_is_Some_2; lia). rewrite <- Hf in Hs by done.
  apply lookup_lt_is_Some_1 in Hs. pose proof psz_val. assert (id * PAGE_SIZE = (id - 1) * PAGE_SIZE + PAGE_SIZE) by lia.
  assert (0 <= (id - 1) * PAGE_SIZE) by (unfold PAGE_SIZE; lia).
  rewrite lookup_file_write by done. rewrite bool_decide_eq_false_2 by lia. by rewrite bool_decide_eq_true_2.
Qed.

Lemma file_has_writes f id d ws :
  1 <= id -> Forall (clear_of id) ws -> file_has f id d -> file_has (replay_writes f ws) id d.
Proof.
  intros Hid Hws. revert f. induction Hws as [|w ws Hw _ IH]; intros f Hf; [done|]. apply IH. by apply file_has_clear.
Qed.

Lemma torn_clear id kept ws : Forall (clear_of id) ws -> Forall (clear_of id) (torn_writes kept ws).
Proof.
  intros Hws. revert kept. induction Hws as [|[o data] ws [Hw Hc] _ IH]; intros [|k kept]; simpl; constructor; [|apply IH].
  split; [done|]. simpl in *. rewrite length_take. lia.
Qed.

Lemma clear_other id id' data k :
  1 <= id' -> id <> id' -> length data = Z.to_nat PAGE_SIZE -> clear_of id ((id' - 1) * PAGE_SIZE, take k data).
Proof. intros H1 Hne Hl. pose proof psz_val. split; simpl; [unfold PAGE_SIZE; lia|]. rewrite length_take. unfold PAGE_SIZE in *. nia. Qed.

(** *** Every operation keeps what the specification knows *)

Lemma spec_write_inv io s sp id data page :
  spec_inv s sp -> in_range id -> length data = Z.to_nat PAGE_SIZE -> page_data page = data ->
  spec_inv (mkPageStore (<[id := page]> (ps_pages s)) (next_id s) (write_back io id data (ps_file s))) (spec_write io id data sp).
Proof.
  intros [Hc (f & Hf & Hfile & Hdisk)] [Hid Hr] Hl Hp. destruct (page_offset_ok id Hid Hr) as [Ho Hk]. split; simpl.
  { by rewrite fmap_insert, Hc, Hp. }
  unfold write_back, write_complete. rewrite Hf, Hk, Ho. cbn [andb]. destruct (io_seek io); cbn [andb].
  2: { exists f. split; [done|]. split; intros id' d; rewrite lookup_delete_Some.
    - intros [_ Hd]. by apply Hfile.
    - intros [Hne Hd]. rewrite lookup_delete_ne by done. by apply Hdisk. }
  set (w := match io_written io with None => data | Some k => take k data end).
  assert (exists k, w = take k data) as [k Hw].
  { unfold w. destruct (io_written io) as [k|]; [by exists k|]. exists (length data). by rewrite firstn_all. }
  assert (forall id' d, id' <> id -> in_range id' -> file_has (File_contents f) id' d ->
    file_has (File_contents (File_write f ((id - 1) * PAGE_SIZE) w)) id' d) as Hother.
  { intros id' d Hne [Hid' _] Hd. rewrite contents_write, Hw.
    by apply (file_has_clear _ id' d (_, take k data) Hid'); [apply clear_other|]. }
  eexists. split; [done|]. split.
  - intros id' d Hd. destruct (decide (id' = id)) as [->|Hne].
    + destruct (match io_written io with None => true | Some k => _ end) eqn:E; [|by rewrite lookup_delete_eq in Hd].
      rewrite lookup_insert_eq in Hd. injection Hd as <-. split; [done|]. rewrite contents_write.
      assert (w = data) as ->; [|by apply file_has_written].
      unfold w. destruct (io_written io); [|done]. bool_to_prop. by apply firstn_all2.
    + assert (sp_file sp !! id' = Some d) as Hd'.
      { revert Hd. case_match; by rewrite ?lookup_insert_ne, ?lookup_delete_ne. }
      split; [by apply (Hfile id' d)|]. apply Hother; [done|by apply (Hfile id' d)..].
  - intros id' d. rewrite lookup_delete_Some. intros [Hne Hd]. destruct (Hdisk id' d Hd) as (H1 & H2 & H3). split_and!.
    + case_match; by rewrite ?lookup_insert_ne, ?lookup_delete_ne.
    + done.
    + simpl. apply Forall_app. split; [done|]. apply Forall_singleton. rewrite Hw. by apply clear_other.
Qed.

Lemma spec_op_inv o s sp :
  spec_inv s sp -> op_in_range o (next_id s) -> spec_inv (page_op o s) (spec_op o (next_id s) sp).
Proof.
  intros Hi Ho. destruct o as [io|io page|id|io| |kept]; cbn [page_op spec_op].
  - pose proof (spec_write_inv io s sp (next_id s) (replicate (Z.to_nat PAGE_SIZE) 0) (Page_new (next_id s)) Hi Ho
      ltac:(apply length_replicate) eq_refl) as [Hc Hf]. split; [exact Hc|exact Hf].
  - destruct Ho as [Hid Hl]. by apply (spec_write_inv io s sp (page_id page) (page_data page) page).
  - destruct Hi as [Hc Hf]. split; [simpl; by rewrite fmap_delete, Hc|exact Hf].
  - destruct Hi as [Hc (f & Hf & Hfile & Hdisk)]. split; simpl.
    + rewrite <- Hc, <- map_fmap_compose. by apply map_fmap_ext.
    + rewrite Hf. eexists. split; [done|]. destruct (io_sync io); [|done]. split; [exact Hfile|]. simpl.
      intros id d Hd. split_and!; [done|by apply (Hfile id d)|done].
  - destruct Hi as [Hc (f & Hf & Hfile & Hdisk)]. unfold reopen. rewrite Hf. split; simpl; [apply fmap_empty|]. by exists f.
  - destruct Hi as [Hc (f & Hf & Hfile & Hdisk)]. unfold reopen. rewrite Hf. split; simpl; [apply fmap_empty|].
    eexists. split; [done|]. assert (forall id d, sp_disk sp !! id = Some d ->
      in_range id /\ file_has (replay_writes (f_durable f) (torn_writes kept (f_pending f))) id d) as Hd.
    { intros id d Hd. destruct (Hdisk id d Hd) as (H1 & H2 & H3). destruct (Hfile id d H1) as [[Hid Hr] _]. split; [done|].
      apply file_has_writes; [done|by apply torn_clear|done]. }
    split; [exact Hd|]. intros id d Hid. split_and!; [done|by apply Hd|constructor].
Qed.

Lemma spec_run_inv ops s sp : spec_inv s sp -> run_in_range ops s -> spec_inv (page_run ops s) (spec_run ops s sp).
Proof.
  revert s sp. induction ops as [|o ops IH]; intros s sp Hi Hr; [done|]. destruct Hr as [Ho Hr].
  apply (IH (page_op o s)); [by apply spec_op_inv|done].
Qed.

(** C24: failures stay contained.  For a store opened on any file, whatever
    calls of the operating system fail and wherever a crash loses unsynced
    writes: a cached page always reads back the bytes last written; a page
    that is not cached reads back from the file if its last write completed
    and no crash followed, and after a crash if a successful flush came
    between; a failed or torn write harms no page but its own. *)
Theorem page_faults_contained (file : File) (s0 : PageStore) (ops : list PageOp) (id : Z) (d : bytes) :
  PageStore_open io_ok file = Some s0 -> run_in_range ops s0 ->
  let s := page_run ops s0 in
  let sp := spec_run ops s0 (mkPageSpec ∅ ∅ ∅) in
  (sp_cache sp !! id = Some d -> forall io, page_data <$> PageStore_read_page io s id = Some d) /\
  (sp_cache sp !! id = None -> sp_file sp !! id = Some d ->
     PageStore_read_page io_ok s id = Some (Page_with_data id d)).
Proof.
  intros Ho Hr s sp. assert (spec_inv s0 (mkPageSpec ∅ ∅ ∅)) as Hi.
  { injection Ho as <-. split; [apply fmap_empty|]. exists file. split; [done|]. split; intros; simplify_map_eq. }
  destruct (spec_run_inv ops s0 _ Hi Hr) as [Hc (f & Hf & Hfile & _)]. fold s sp in Hc, Hf, Hfile.
  unfold PageStore_read_page. rewrite <- Hc, lookup_fmap. destruct (ps_pages s !! id) as [p|]; simpl; [by split|].
  split; [done|]. intros _ Hd. destruct (Hfile id d Hd) as [[H1 H2] Hh]. destruct (page_offset_ok id H1 H2) as [Hoff Hk].
  rewrite Hf, Hk, Hoff. simpl. by rewrite Hh.
Qed.

(** ** Witness *)

Definition page_sample : list PageOp :=
  [PAllocate io_ok; PAllocate io_ok; PWrite io_ok (mkPage 2 (replicate (Z.to_nat PAGE_SIZE) 7) true); PFlush io_ok; PReopen; PFree 1].

Definition small_file : File := mkFile [1; 2; 3] [].

Lemma page_store_refines_witness :
  exists s0 p, PageStore_open io_ok small_file = Some s0 /\
    PageStore_read_page io_ok (page_run page_sample s0) 2 = Some p /\ page_data p = replicate (Z.to_nat PAGE_SIZE) 7.
Proof.
  eexists. destruct (page_store_refines small_file _ page_sample eq_refl) as [_ Hr].
  - vm_compute. repeat split; congruence.
  - vm_compute. congruence.
  - vm_compute. congruence.
  - destruct (Hr 2) as (p & Hp & _ & Hd); [vm_compute; split; congruence|].
    exists p. split; [reflexivity|]. split; [exact Hp|]. apply (inj Some). rewrite <- Hd. vm_compute. reflexivity.
Defined.

(** The first page is flushed, then half of a second version and a second page
    are written when the machine crashes. *)
Definition fault_sample : list PageOp :=
  [PAllocate io_ok; PWrite io_ok (mkPage 1 (replicate (Z.to_nat PAGE_SIZE) 5) true); PFlush io_ok;
   PAllocate (mkIo true true true true (Some 100%nat) true);
   PWrite (mkIo true true false true None true) (mkPage 2 (replicate (Z.to_nat PAGE_SIZE) 7) true);
   PCrash [60%nat]].

Lemma page_faults_contained_witness :
  exists s0, PageStore_open io_ok small_file = Some s0 /\
    PageStore_read_page io_ok (page_run fault_sample s0) 1 = Some (Page_with_data 1 (replicate (Z.to_nat PAGE_SIZE) 5)).
Proof.
  eexists. split; [reflexivity|]. apply (page_faults_contained small_file _ fault_sample 1); [reflexivity|..];
    vm_compute; repeat split; congruence.
Defined.

(** A write that the disk refused is forgotten by the next flush: the page is
    no longer among the dirty ones, the file has not changed, and opening the
    store again brings the old bytes back. *)
Theorem flush_forgets_failed_write (s : PageStore) (f : File) (page : Page) (io : Io) :
  ps_file s = Some f -> io_seek io = false ->
  let s' := PageStore_flush io_ok (PageStore_write_page io s page) in
  PageStore_dirty_pages s' = [] /\
  PageStore_read_page io_ok s' (page_id page) = Some (Page_mark_clean page) /\
  PageStore_read_page io_ok (page_op PReopen s') (page_id page) =
    PageStore_read_page io_ok (page_op PReopen s) (page_id page).
Proof.
  intros Hf Hio s'. unfold s', PageStore_flush, PageStore_write_page, write_back. cbn [ps_pages next_id ps_file].
  rewrite Hf, Hio, andb_false_r. cbn [io_sync io_ok]. split_and!.
  - apply elem_of_nil_inv. intros id (kp & -> & Hin)%list_elem_of_fmap. apply list_elem_of_filter in Hin as [Hd Hin].
    destruct kp as [k p]. apply elem_of_map_to_list, lookup_fmap_Some in Hin as (p' & <- & _). done.
  - unfold PageStore_read_page. cbn [ps_pages]. by rewrite lookup_fmap, lookup_insert_eq.
  - cbn [page_op]. unfold reopen. rewrite Hf. cbn [ps_file]. unfold PageStore_open. cbn [io_open io_stat io_ok negb default].
    unfold PageStore_read_page. cbn [ps_pages ps_file]. done.
Qed.

Lemma flush_forgets_failed_write_witness :
  exists s0, PageStore_open io_ok small_file = Some s0 /\
    PageStore_dirty_pages (PageStore_flush io_ok (PageStore_write_page (mkIo true true false true None true) s0
      (Page_mark_dirty (Page_new 1)))) = [].
Proof.
  eexists. split; [reflexivity|].
  apply (flush_forgets_failed_write _ small_file (Page_mark_dirty (Page_new 1)) (mkIo true true false true None true)); reflexivity.
Defined.
