(* ===== verification/Peer.v ===== *)
(** * Peers: [src/network/peer.rs]

    The peer table behind its lock, one operation at a time.  An [Instant] is
    a number of nanoseconds and the clock reading of an operation is an
    argument; reputations are [i32] values with saturating arithmetic.
    [HashMap] iteration order is arbitrary: the functions that iterate take
    the table in any order. *)

From S2P Require Import Prelude.

Abbreviation PeerId := (list Z) (only parsing).

Inductive PeerState := Disconnected | Connecting | Connected | Banned.

#[global] Instance PeerState_eq_dec : EqDecision PeerState.
Proof. solve_decision. Defined.

Record SocketAddr := mkAddr { sa_ip : bytes; sa_port : Z }.

Definition secs (n : Z) : Z := n * 1000000000.

Record PeerInfo := mkPeer {
  pi_id : PeerId;
  pi_addr : SocketAddr;
  pi_state : PeerState;
  pi_last_seen : Z;
  pi_rtt : option Z;
  pi_messages_sent : Z;
  pi_messages_received : Z;
  pi_reputation : Z
}.

Definition PeerInfo_new (now : Z) (id : PeerId) (addr : SocketAddr) : PeerInfo :=
  mkPeer id addr Disconnected now None 0 0 0.

Definition PeerInfo_touch (now : Z) (p : PeerInfo) : PeerInfo :=
  mkPeer (pi_id p) (pi_addr p) (pi_state p) now (pi_rtt p) (pi_messages_sent p) (pi_messages_received p) (pi_reputation p).

(** [Instant::elapsed] saturates at zero. *)
Definition PeerInfo_is_stale (now : Z) (p : PeerInfo) (timeout : Z) : bool :=
  timeout <? Z.max 0 (now - pi_last_seen p).

Definition i32_max : Z := 2 ^ 31 - 1.
Definition i32_min : Z := - 2 ^ 31.
Definition i32_saturate (x : Z) : Z := Z.max i32_min (Z.min i32_max x).

Definition set_reputation (r : Z) (p : PeerInfo) : PeerInfo :=
  mkPeer (pi_id p) (pi_addr p) (pi_state p) (pi_last_seen p) (pi_rtt p) (pi_messages_sent p) (pi_messages_received p) r.

Definition PeerInfo_reward (p : PeerInfo) (amount : Z) : PeerInfo :=
  set_reputation (i32_saturate (pi_reputation p + amount)) p.

Definition PeerInfo_penalize (p : PeerInfo) (amount : Z) : PeerInfo :=
  set_reputation (i32_saturate (pi_reputation p - amount)) p.

Record PeerManager := mkManager {
  peers : gmap (list Z) PeerInfo;
  max_peers : nat;
  stale_timeout : Z;
  pm_local_id : PeerId
}.

Definition PeerManager_new (local_id : PeerId) (max : nat) : PeerManager :=
  mkManager ∅ max (secs 300) local_id.

Definition PeerManager_local_id (m : PeerManager) : PeerId := pm_local_id m.

Definition set_peers (ps : gmap (list Z) PeerInfo) (m : PeerManager) : PeerManager :=
  mkManager ps (max_peers m) (stale_timeout m) (pm_local_id m).

Definition PeerManager_add_peer (now : Z) (m : PeerManager) (id : PeerId) (addr : SocketAddr) : PeerManager * bool :=
  if bool_decide (id = pm_local_id m) then (m, false)
  else if bool_decide (max_peers m <= size (peers m))%nat && negb (bool_decide (is_Some (peers m !! id)))
  then (m, false)
  else
    let entry :=
      match peers m !! id with
      | Some p =>
          PeerInfo_touch now
            (mkPeer (pi_id p) addr (pi_state p) (pi_last_seen p) (pi_rtt p)
               (pi_messages_sent p) (pi_messages_received p) (pi_reputation p))
      | None => PeerInfo_new now id addr
      end in
    (set_peers (<[id := entry]> (peers m)) m, true).

Definition PeerManager_remove_peer (m : PeerManager) (id : PeerId) : PeerManager * option PeerInfo :=
  (set_peers (delete id (peers m)) m, peers m !! id).

Definition PeerManager_get_peer (m : PeerManager) (id : PeerId) : option PeerInfo := peers m !! id.

(** [if let Some(peer) = self.peers.write().get_mut(id) { ... }]. *)
Definition with_peer (f : PeerInfo -> PeerInfo) (m : PeerManager) (id : PeerId) : PeerManager :=
  match peers m !! id with
  | Some p => set_peers (<[id := f p]> (peers m)) m
  | None => m
  end.

Definition PeerManager_set_state (now : Z) (m : PeerManager) (id : PeerId) (state : PeerState) : PeerManager :=
  with_peer (fun p => PeerInfo_touch now
    (mkPeer (pi_id p) (pi_addr p) state (pi_last_seen p) (pi_rtt p)
       (pi_messages_sent p) (pi_messages_received p) (pi_reputation p))) m id.

(** The values of the table, in some iteration order. *)
Definition peer_values (m : PeerManager) : list PeerInfo := (map_to_list (peers m)).*2.

Definition is_connected (p : PeerInfo) : bool := bool_decide (pi_state p = Connected).

Definition PeerManager_connected_peers (m : PeerManager) : list PeerInfo :=
  filter (fun p => is_connected p = true) (peer_values m).

Definition PeerManager_all_peer_ids (m : PeerManager) : list PeerId := (map_to_list (peers m)).*1.
Definition PeerManager_peer_count (m : PeerManager) : nat := size (peers m).

Definition PeerManager_connected_count (m : PeerManager) : nat :=
  length (filter (fun p => is_connected p = true) (peer_values m)).

Definition PeerManager_record_sent (now : Z) (m : PeerManager) (id : PeerId) : PeerManager :=
  with_peer (fun p => PeerInfo_touch now
    (mkPeer (pi_id p) (pi_addr p) (pi_state p) (pi_last_seen p) (pi_rtt p)
       (pi_messages_sent p ⊞ 1) (pi_messages_received p) (pi_reputation p))) m id.

Definition PeerManager_record_received (now : Z) (m : PeerManager) (id : PeerId) : PeerManager :=
  with_peer (fun p => PeerInfo_touch now
    (mkPeer (pi_id p) (pi_addr p) (pi_state p) (pi_last_seen p) (pi_rtt p)
       (pi_messages_sent p) (pi_messages_received p ⊞ 1) (pi_reputation p))) m id.

Definition PeerManager_reward_peer (m : PeerManager) (id : PeerId) (amount : Z) : PeerManager :=
  with_peer (fun p => PeerInfo_reward p amount) m id.

Definition PeerManager_penalize_peer (m : PeerManager) (id : PeerId) (amount : Z) : PeerManager :=
  with_peer (fun p => PeerInfo_penalize p amount) m id.

Definition PeerManager_ban_peer (now : Z) (m : PeerManager) (id : PeerId) : PeerManager :=
  PeerManager_set_state now m id Banned.

Definition PeerManager_prune_stale (now : Z) (m : PeerManager) : PeerManager * list PeerId :=
  let stale := (filter (fun kv => PeerInfo_is_stale now kv.2 (stale_timeout m) = true) (map_to_list (peers m))).*1 in
  (set_peers (foldl (fun ps id => delete id ps) (peers m) stale) m, stale).

(** [sort_by(|a, b| b.reputation.cmp(&a.reputation))]. *)
Definition reputation_geb (a b : PeerInfo) : bool := pi_reputation b <=? pi_reputation a.

Definition best_peers_in (order : list PeerInfo) (count : nat) : list PeerInfo :=
  take count (stable_sort reputation_geb (filter (fun p => is_connected p = true) order)).

Definition PeerManager_best_peers (m : PeerManager) (count : nat) : list PeerInfo :=
  best_peers_in (peer_values m) count.

(** ** The table's invariant *)

Inductive PeerOp :=
| AddPeer (now : Z) (id : PeerId) (addr : SocketAddr)
| RemovePeer (id : PeerId)
| SetState (now : Z) (id : PeerId) (state : PeerState)
| RecordSent (now : Z) (id : PeerId)
| RecordReceived (now : Z) (id : PeerId)
| RewardPeer (id : PeerId) (amount : Z)
| PenalizePeer (id : PeerId) (amount : Z)
| BanPeer (now : Z) (id : PeerId)
| PruneStale (now : Z).

Definition peer_step (m : PeerManager) (o : PeerOp) : PeerManager :=
  match o with
  | AddPeer now id addr => (PeerManager_add_peer now m id addr).1
  | RemovePeer id => (PeerManager_remove_peer m id).1
  | SetState now id state => PeerManager_set_state now m id state
  | RecordSent now id => PeerManager_record_sent now m id
  | RecordReceived now id => PeerManager_record_received now m id
  | RewardPeer id amount => PeerManager_reward_peer m id amount
  | PenalizePeer id amount => PeerManager_penalize_peer m id amount
  | BanPeer now id => PeerManager_ban_peer now m id
  | PruneStale now => (PeerManager_prune_stale now m).1
  end.

Definition peer_run (m : PeerManager) (ops : list PeerOp) : PeerManager := fold_left peer_step ops m.

Definition is_i32 (x : Z) : Prop := i32_min <= x <= i32_max.

Record peers_ok (m : PeerManager) : Prop := {
  po_size : (size (peers m) <= max_peers m)%nat;
  po_local : peers m !! pm_local_id m = None;
  po_entry : forall id p, peers m !! id = Some p -> pi_id p = id /\ is_i32 (pi_reputation p)
}.

Lemma i32_saturate_ok x : is_i32 (i32_saturate x).
Proof. unfold is_i32, i32_saturate, i32_min, i32_max. lia. Qed.

Lemma peers_ok_new local_id max : peers_ok (PeerManager_new local_id max).
Proof.
  split; simpl; [rewrite map_size_empty; lia|apply lookup_empty|].
  intros id p. by rewrite lookup_empty.
Qed.

(** Shrinking the table, and changing an entry in place. *)
Lemma peers_ok_subset m ps : peers_ok m -> ps ⊆ peers m -> peers_ok (set_peers ps m).
Proof.
  intros [Hs Hl He] Hsub. split; simpl.
  - apply (map_subseteq_size) in Hsub. lia.
  - by eapply lookup_weaken_None.
  - intros id p Hp. apply He. by eapply lookup_weaken.
Qed.

Lemma peers_ok_with f m id :
  (forall p, pi_id (f p) = pi_id p) -> (forall p, is_i32 (pi_reputation p) -> is_i32 (pi_reputation (f p))) ->
  peers_ok m -> peers_ok (with_peer f m id).
Proof.
  intros Hid Hrep [Hs Hl He]. unfold with_peer. destruct (peers m !! id) as [p|] eqn:Hp; [|done].
  destruct (He id p Hp) as [Hpi Hpr]. split; simpl.
  - rewrite map_size_insert, Hp. done.
  - rewrite lookup_insert_ne; [done|]. intros ->. congruence.
  - intros id' p'. rewrite lookup_insert_Some. intros [[<- <-]|[Hne Hp']]; [|by apply He].
    split; [by rewrite Hid|by apply Hrep].
Qed.

Lemma peers_ok_add now m id addr : peers_ok m -> peers_ok (PeerManager_add_peer now m id addr).1.
Proof.
  intros [Hs Hl He]. unfold PeerManager_add_peer.
  case_bool_decide as Hid; [by split|].
  destruct (bool_decide _ && _) eqn:Hcap; [by split|]. split; simpl.
  - rewrite map_size_insert. destruct (peers m !! id) as [p|]; [done|].
    rewrite (bool_decide_eq_false_2 (is_Some (@None PeerInfo))), andb_true_r in Hcap by (intros []; done).
    apply bool_decide_eq_false in Hcap. lia.
  - rewrite lookup_insert_ne; [done|congruence].
  - intros id' p'. rewrite lookup_insert_Some. intros [[<- <-]|[Hne Hp']]; [|by apply He].
    destruct (peers m !! id) as [p|] eqn:Hp; simpl; [by apply He|]. split; [done|].
    unfold is_i32, i32_min, i32_max. lia.
Qed.

Lemma foldl_delete_subseteq (ids : list (list Z)) (ps : gmap (list Z) PeerInfo) : foldl (fun ps id => delete id ps) ps ids ⊆ ps.
Proof.
  revert ps. induction ids as [|id ids IH]; intros ps; simpl; [done|].
  etrans; [apply IH|]. apply delete_subseteq.
Qed.

Lemma peer_step_ok m o : peers_ok m -> peers_ok (peer_step m o).
Proof.
  intros Hm. destruct o; simpl; try (apply peers_ok_with; [done|done|done]).
  - by apply peers_ok_add.
  - apply peers_ok_subset; [done|]. apply delete_subseteq.
  - apply peers_ok_with; [done| |done]. intros p _. apply i32_saturate_ok.
  - apply peers_ok_with; [done| |done]. intros p _. apply i32_saturate_ok.
  - apply peers_ok_subset; [done|]. apply foldl_delete_subseteq.
Qed.

(** Whatever the operations applied to a fresh peer table, it never holds
    more than [max_peers] peers nor the local peer, every entry is filed under
    its own id, and every reputation is an [i32]. *)
Theorem peer_table_invariant (local_id : PeerId) (max : nat) (ops : list PeerOp) :
  peers_ok (peer_run (PeerManager_new local_id max) ops) /\
  max_peers (peer_run (PeerManager_new local_id max) ops) = max /\
  pm_local_id (peer_run (PeerManager_new local_id max) ops) = local_id.
Proof.
  assert (forall m, peers_ok m -> peers_ok (peer_run m ops)) as Hok.
  { induction ops as [|o ops IH]; intros m Hm; simpl; [done|]. by apply IH, peer_step_ok. }
  assert (forall m, max_peers (peer_run m ops) = max_peers m /\ pm_local_id (peer_run m ops) = pm_local_id m) as Hk.
  { clear Hok. induction ops as [|o ops IH]; intros m; simpl; [done|]. destruct (IH (peer_step m o)) as [-> ->].
    destruct o; simpl; unfold PeerManager_add_peer, PeerManager_set_state, PeerManager_record_sent, PeerManager_record_received,
      PeerManager_reward_peer, PeerManager_penalize_peer, PeerManager_ban_peer, PeerManager_set_state, with_peer; repeat case_match; done. }
  split; [apply Hok, peers_ok_new|]. apply (Hk (PeerManager_new local_id max)).
Qed.

(** ** Choosing peers *)

Lemma reputation_geb_total x y : reputation_geb x y = true \/ reputation_geb y x = true.
Proof. unfold reputation_geb. rewrite !Z.leb_le. lia. Qed.

Lemma reputation_geb_trans x y z :
  reputation_geb x y = true -> reputation_geb y z = true -> reputation_geb x z = true.
Proof. unfold reputation_geb. rewrite !Z.leb_le. lia. Qed.

Lemma StronglySorted_app_rel {A} (R : relation A) l1 l2 x y :
  StronglySorted R (l1 ++ l2) -> x ∈ l1 -> y ∈ l2 -> R x y.
Proof.
  induction l1 as [|a l1 IH]; intros Hs Hx Hy; [by apply elem_of_nil in Hx|].
  inversion_clear Hs as [|? ? Hs' Ha]. apply elem_of_cons in Hx as [->|Hx]; [|by apply IH].
  rewrite Forall_forall in Ha. apply Ha. apply elem_of_app. by right.
Qed.

Lemma StronglySorted_app_l {A} (R : relation A) l1 l2 :
  StronglySorted R (l1 ++ l2) -> StronglySorted R l1.
Proof.
  induction l1 as [|a l1 IH]; intros Hs; [constructor|]. inversion_clear Hs as [|? ? Hs' Ha].
  constructor; [by apply IH|]. apply Forall_app in Ha. apply Ha.
Qed.

(** Whatever order the table is read in, the peers chosen for a broadcast
    are [count] of the connected ones (all of them when there are fewer), in
    order of decreasing reputation, none twice, and no connected peer left out
    has a better reputation than one chosen. *)
Theorem best_peers_spec (m : PeerManager) (order : list PeerInfo) (count : nat) :
  order ≡ₚ peer_values m ->
  let best := best_peers_in order count in
  length best = (count `min` PeerManager_connected_count m)%nat /\
  StronglySorted (fun a b => pi_reputation b <= pi_reputation a) best /\
  (forall p, p ∈ best -> p ∈ PeerManager_connected_peers m) /\
  exists rest, best ++ rest ≡ₚ PeerManager_connected_peers m /\
    forall p q, p ∈ best -> q ∈ rest -> pi_reputation q <= pi_reputation p.
Proof.
  intros Ho best. unfold best, best_peers_in, PeerManager_connected_count, PeerManager_connected_peers.
  set (c := filter _ order). assert (c ≡ₚ filter (fun p => is_connected p = true) (peer_values m)) as Hc.
  { unfold c. by rewrite Ho. }
  rewrite <- Hc. pose proof (stable_sort_perm reputation_geb c) as Hp.
  pose proof (stable_sort_sorted reputation_geb reputation_geb_total reputation_geb_trans c) as Hs.
  set (s := stable_sort reputation_geb c) in *. rewrite <- (take_drop count s) in Hs.
  split_and!.
  - by rewrite length_take, Hp.
  - apply StronglySorted_app_l in Hs. revert Hs. induction 1 as [|a l _ IH Ha]; constructor; [done|].
    eapply Forall_impl; [exact Ha|]. intros b. unfold reputation_geb. apply Z.leb_le.
  - intros p Hin. rewrite <- Hc, <- Hp. rewrite <- (take_drop count s). apply elem_of_app. by left.
  - exists (drop count s). split; [by rewrite take_drop, Hp|]. intros p q Hpin Hqin.
    apply Z.leb_le. apply (StronglySorted_app_rel _ _ _ _ _ Hs Hpin Hqin).
Qed.

(** ** Witness *)

Definition peer_id (n : Z) : PeerId := replicate 32 n.
Definition peer_addr (port : Z) : SocketAddr := mkAddr [127; 0; 0; 1] port.

Definition peer_sample : PeerManager :=
  peer_run (PeerManager_new (peer_id 0) 3)
    [AddPeer 0 (peer_id 0) (peer_addr 1); AddPeer 0 (peer_id 1) (peer_addr 2); AddPeer 0 (peer_id 2) (peer_addr 3);
     AddPeer 0 (peer_id 3) (peer_addr 4); AddPeer 0 (peer_id 4) (peer_addr 5); SetState 1 (peer_id 1) Connected;
     SetState 1 (peer_id 2) Connected; SetState 1 (peer_id 3) Connected; RewardPeer (peer_id 2) 5;
     PenalizePeer (peer_id 3) 10; BanPeer 2 (peer_id 1)].

Lemma best_peers_spec_witness :
  pi_id <$> best_peers_in (reverse (peer_values peer_sample)) 8 = [peer_id 2; peer_id 3] /\
  length (best_peers_in (reverse (peer_values peer_sample)) 8) = 2%nat.
Proof.
  split; [vm_compute; reflexivity|].
  destruct (best_peers_spec peer_sample (reverse (peer_values peer_sample)) 8) as [Hl _].
  - apply reverse_Permutation.
  - rewrite Hl. vm_compute. reflexivity.
Defined.
