(* ===== verification/Gossip.v ===== *)
(** * Network messages and gossip: [src/network/message.rs], [src/network/gossip.rs]

    The handler's state holds the peer table and the DAG it shares with the
    node.  Clock readings and the random ids of the messages it makes are
    arguments.  Here messages travel as values; their bytes on a connection,
    the [bincode] encoding behind a length prefix, are in [Transport]. *)

From S2P Require Import Prelude Types Transaction Event Threshold Dag Peer.

Record DecryptionShareMessage := mkDecryptionShare {
  ds_event_id : EventId;
  ds_share : SecretShare
}.

Record HelloMessage := mkHello {
  hello_version : Z;
  hello_chain_id : Z;
  hello_genesis_hash : bytes;
  hello_validator_id : option ValidatorId;
  hello_latest_round : Z
}.

Record HelloAckMessage := mkHelloAck {
  ack_accepted : bool;
  ack_reason : option string;
  ack_latest_round : Z
}.

Record EventAnnounce := mkAnnounce {
  an_event_id : EventId;
  an_creator : ValidatorId;
  an_round : Z
}.

Record EventRequest := mkRequest { rq_event_ids : list EventId }.

Record EventResponse := mkResponse {
  rs_events : list DagEvent;
  rs_missing : list EventId
}.

Record TransactionBroadcast := mkTxBroadcast { tb_transaction : EncryptedTransaction }.

Record SyncRequest := mkSyncRequest {
  sr_from_round : Z;
  sr_to_round : Z;
  sr_max_events : Z
}.

Record SyncResponse := mkSyncResponse {
  sp_events : list DagEvent;
  sp_has_more : bool;
  sp_next_round : Z
}.

Record PeerAddress := mkPeerAddress {
  pa_id : PeerId;
  pa_ip : string;
  pa_port : Z
}.

Record PeersMessage := mkPeers { pm_peers : list PeerAddress }.

Inductive MessageType :=
| Hello (m : HelloMessage)
| HelloAck (m : HelloAckMessage)
| MsgEventAnnounce (m : EventAnnounce)
| MsgEventRequest (m : EventRequest)
| MsgEventResponse (m : EventResponse)
| MsgTransactionBroadcast (m : TransactionBroadcast)
| MsgSyncRequest (m : SyncRequest)
| MsgSyncResponse (m : SyncResponse)
| GetPeers
| Peers (m : PeersMessage)
| Ping (n : Z)
| Pong (n : Z)
| DecryptionShare (m : DecryptionShareMessage).

Record NetworkMessage := mkMessage {
  nm_version : Z;
  nm_message_id : bytes;
  nm_sender : PeerId;
  nm_payload : MessageType
}.

#[global] Instance SecretShare_eq_dec : EqDecision SecretShare.
Proof. solve_decision. Defined.
#[global] Instance DecryptionShareMessage_eq_dec : EqDecision DecryptionShareMessage.
Proof. solve_decision. Defined.
#[global] Instance HelloMessage_eq_dec : EqDecision HelloMessage.
Proof. solve_decision. Defined.
#[global] Instance HelloAckMessage_eq_dec : EqDecision HelloAckMessage.
Proof. solve_decision. Defined.
#[global] Instance EventAnnounce_eq_dec : EqDecision EventAnnounce.
Proof. solve_decision. Defined.
#[global] Instance EventRequest_eq_dec : EqDecision EventRequest.
Proof. solve_decision. Defined.
#[global] Instance EventResponse_eq_dec : EqDecision EventResponse.
Proof. solve_decision. Defined.
#[global] Instance TransactionBroadcast_eq_dec : EqDecision TransactionBroadcast.
Proof. solve_decision. Defined.
#[global] Instance SyncRequest_eq_dec : EqDecision SyncRequest.
Proof. solve_decision. Defined.
#[global] Instance SyncResponse_eq_dec : EqDecision SyncResponse.
Proof. solve_decision. Defined.
#[global] Instance PeerAddress_eq_dec : EqDecision PeerAddress.
Proof. solve_decision. Defined.
#[global] Instance PeersMessage_eq_dec : EqDecision PeersMessage.
Proof. solve_decision. Defined.
#[global] Instance MessageType_eq_dec : EqDecision MessageType.
Proof. solve_decision. Defined.
#[global] Instance NetworkMessage_eq_dec : EqDecision NetworkMessage.
Proof. solve_decision. Defined.

(** [message_id] is what the random generator returns. *)
Definition NetworkMessage_new (message_id : bytes) (sender : PeerId) (payload : MessageType) : NetworkMessage :=
  mkMessage 1 message_id sender payload.

(** ** The protocol handler *)

Record GossipConfig := mkGossipConfig {
  fanout : nat;
  max_request_batch : nat;
  request_timeout : Z;
  seen_cache_ttl : Z
}.

Definition GossipConfig_default : GossipConfig := mkGossipConfig 8 100 (secs 5) (secs 300).

Record PendingEvent := mkPendingEvent {
  pe_announced_at : Z;
  pe_sources : list PeerId;
  pe_fetching : bool
}.

Record GossipProtocol := mkGossip {
  g_config : GossipConfig;
  g_peers : PeerManager;
  g_dag : DagStore;
  g_local_id : PeerId;
  seen_messages : gmap (list Z) Z;
  pending_events : gmap (list Z) PendingEvent;
  processed_events : gset (list Z)
}.

Definition GossipProtocol_new (local_id : PeerId) (peers : PeerManager) (dag : DagStore) (config : GossipConfig) : GossipProtocol :=
  mkGossip config peers dag local_id ∅ ∅ ∅.

Definition GossipProtocol_is_seen (g : GossipProtocol) (message_id : list Z) : bool :=
  bool_decide (is_Some (seen_messages g !! message_id)).

Definition GossipProtocol_mark_seen (now : Z) (g : GossipProtocol) (message_id : list Z) : GossipProtocol :=
  mkGossip (g_config g) (g_peers g) (g_dag g) (g_local_id g)
    (<[message_id := now]> (seen_messages g)) (pending_events g) (processed_events g).

Definition set_pending (p : gmap (list Z) PendingEvent) (g : GossipProtocol) : GossipProtocol :=
  mkGossip (g_config g) (g_peers g) (g_dag g) (g_local_id g) (seen_messages g) p (processed_events g).

Definition GossipProtocol_handle_event_announce (now : Z) (reply_id : bytes) (g : GossipProtocol)
    (sender : PeerId) (announce : EventAnnounce) : GossipProtocol * option NetworkMessage :=
  let event_id := an_event_id announce in
  if DagStore_contains (g_dag g) event_id then (g, None)
  else if bool_decide (event_id ∈ processed_events g) then (g, None)
  else
    let entry :=
      match pending_events g !! event_id with
      | Some p => mkPendingEvent (pe_announced_at p) (pe_sources p ++ [sender]) (pe_fetching p)
      | None => mkPendingEvent now [sender] false
      end in
    (set_pending (<[event_id := entry]> (pending_events g)) g,
     Some (NetworkMessage_new reply_id (g_local_id g) (MsgEventRequest (mkRequest [event_id])))).

(** The loop over the requested ids. *)
Definition collect_events (dag : DagStore) (ids : list EventId) : list DagEvent * list EventId :=
  fold_left (fun acc id =>
    match DagStore_get dag id with
    | Some event => (acc.1 ++ [event], acc.2)
    | None => (acc.1, acc.2 ++ [id])
    end) ids ([], []).

Definition GossipProtocol_handle_event_request (reply_id : bytes) (g : GossipProtocol) (request : EventRequest)
    : option NetworkMessage :=
  let '(evs, missing) := collect_events (g_dag g) (rq_event_ids request) in
  Some (NetworkMessage_new reply_id (g_local_id g) (MsgEventResponse (mkResponse evs missing))).

Definition handle_response_event (sender : PeerId) (g : GossipProtocol) (event : DagEvent) : GossipProtocol :=
  match DagEvent_validate_structure event with
  | inr _ =>
      mkGossip (g_config g) (PeerManager_reward_peer (g_peers g) sender 1) (DagStore_insert (g_dag g) event)
        (g_local_id g) (seen_messages g) (delete (ev_id event) (pending_events g))
        ({[ev_id event]} ∪ processed_events g)
  | inl _ =>
      mkGossip (g_config g) (PeerManager_penalize_peer (g_peers g) sender 10) (g_dag g)
        (g_local_id g) (seen_messages g) (pending_events g) (processed_events g)
  end.

Definition GossipProtocol_handle_event_response (g : GossipProtocol) (sender : PeerId) (response : EventResponse)
    : GossipProtocol :=
  fold_left (handle_response_event sender) (rs_events response) g.

Definition GossipProtocol_handle_message (now : Z) (reply_id : bytes) (g : GossipProtocol) (msg : NetworkMessage)
    : GossipProtocol * option NetworkMessage :=
  if GossipProtocol_is_seen g (nm_message_id msg) then (g, None)
  else
    let g := GossipProtocol_mark_seen now g (nm_message_id msg) in
    match nm_payload msg with
    | MsgEventAnnounce announce => GossipProtocol_handle_event_announce now reply_id g (nm_sender msg) announce
    | MsgEventRequest request => (g, GossipProtocol_handle_event_request reply_id g request)
    | MsgEventResponse response => (GossipProtocol_handle_event_response g (nm_sender msg) response, None)
    | _ => (g, None)
    end.

(** [message_ids i] is the random id of the message to the [i]-th chosen peer. *)
Definition GossipProtocol_broadcast_event (message_ids : nat -> bytes) (g : GossipProtocol) (event : DagEvent)
    : GossipProtocol * list (PeerId * NetworkMessage) :=
  let g := mkGossip (g_config g) (g_peers g) (DagStore_insert (g_dag g) event) (g_local_id g)
    (seen_messages g) (pending_events g) ({[ev_id event]} ∪ processed_events g) in
  let announce := mkAnnounce (ev_id event) (ev_creator event) (ev_round event) in
  (g, imap (fun i peer => (pi_id peer, NetworkMessage_new (message_ids i) (g_local_id g) (MsgEventAnnounce announce)))
        (PeerManager_best_peers (g_peers g) (fanout (g_config g)))).

Definition GossipProtocol_pending_fetch_count (g : GossipProtocol) : nat :=
  length (filter (fun p => pe_fetching p = false) (map_to_list (pending_events g)).*2).

(** [Instant::duration_since] saturates at zero. *)
Definition GossipProtocol_cleanup (now : Z) (g : GossipProtocol) : GossipProtocol :=
  mkGossip (g_config g) (g_peers g) (g_dag g) (g_local_id g)
    (filter (fun kv => Z.max 0 (now - kv.2) < seen_cache_ttl (g_config g)) (seen_messages g))
    (filter (fun kv => Z.max 0 (now - pe_announced_at kv.2) < request_timeout (g_config g) * 3) (pending_events g))
    (processed_events g).

(** ** What a node knows *)

Inductive GossipOp :=
| GHandle (now : Z) (reply_id : bytes) (msg : NetworkMessage)
| GBroadcast (message_ids : nat -> bytes) (event : DagEvent)
| GCleanup (now : Z).

Definition gossip_step (g : GossipProtocol) (o : GossipOp) : GossipProtocol :=
  match o with
  | GHandle now reply_id msg => (GossipProtocol_handle_message now reply_id g msg).1
  | GBroadcast ids event => (GossipProtocol_broadcast_event ids g event).1
  | GCleanup now => GossipProtocol_cleanup now g
  end.

Definition gossip_run (g : GossipProtocol) (ops : list GossipOp) : GossipProtocol := fold_left gossip_step ops g.

Definition valid_event (e : DagEvent) : Prop := DagEvent_validate_structure e = inr tt.

(** The events the node itself broadcasts, and those that responses carry. *)
Definition own_events (o : GossipOp) : list DagEvent :=
  match o with GBroadcast _ event => [event] | _ => [] end.

Definition received_events (o : GossipOp) : list DagEvent :=
  match o with
  | GHandle _ _ msg => match nm_payload msg with MsgEventResponse r => rs_events r | _ => [] end
  | _ => []
  end.

(** What the tables say of a node that has broadcast [own] and received
    [received]. *)
Record gossip_ok (own received : list DagEvent) (g : GossipProtocol) : Prop := {
  gk_origin : forall id e, events (g_dag g) !! id = Some e -> ev_id e = id /\ (e ∈ own \/ (valid_event e /\ e ∈ received));
  gk_processed : forall id, id ∈ processed_events g -> is_Some (events (g_dag g) !! id);
  gk_sources : forall id p, pending_events g !! id = Some p -> pe_sources p <> [] /\ pe_fetching p = false
}.

Lemma gossip_ok_mono own own' received received' g :
  own ⊆ own' -> received ⊆ received' -> gossip_ok own received g -> gossip_ok own' received' g.
Proof.
  intros Ho Hr [Hv Hp Hs]. split; [|done|done]. intros id e Hl. destruct (Hv id e Hl) as [Hid [He|[Hve He]]]; split; auto.
Qed.

(** Storing an event and marking it as processed. *)
Lemma insert_event_ok own received g g' e :
  gossip_ok own received g -> e ∈ own \/ (valid_event e /\ e ∈ received) ->
  g_dag g' = DagStore_insert (g_dag g) e -> processed_events g' = {[ev_id e]} ∪ processed_events g ->
  (forall id p, pending_events g' !! id = Some p -> pending_events g !! id = Some p) -> gossip_ok own received g'.
Proof.
  intros [Hv Hp Hs] He Hd Hpr Hpe. split.
  - intros id e'. rewrite Hd. simpl. rewrite lookup_insert_Some. intros [[<- <-]|[_ Hl]]; [done|by apply Hv].
  - intros id. rewrite Hpr, Hd. simpl. rewrite lookup_insert_is_Some'. intros [->%elem_of_singleton|Hin]%elem_of_union; [by left|].
    right. by apply Hp.
  - intros id p Hl. by apply (Hs id), Hpe.
Qed.

Lemma insert_event_keeps d e id : is_Some (events d !! id) -> is_Some (events (DagStore_insert d e) !! id).
Proof. intros Hs. simpl. rewrite lookup_insert_is_Some. destruct (decide (ev_id e = id)); auto. Qed.

Lemma insert_event_has d e : events (DagStore_insert d e) !! ev_id e = Some e.
Proof. apply lookup_insert_eq. Qed.

Lemma validate_cases e : (exists err, DagEvent_validate_structure e = inl err) \/ valid_event e.
Proof. unfold valid_event. destruct (DagEvent_validate_structure e) as [err|[]]; eauto. Qed.

Lemma response_event_ok own received sender g e :
  e ∈ received -> gossip_ok own received g -> gossip_ok own received (handle_response_event sender g e).
Proof.
  intros Hin Hg. unfold handle_response_event. destruct (validate_cases e) as [[err ->]|He]; [by destruct Hg|].
  rewrite He. eapply insert_event_ok; [done|by right|done|done|]. intros id p. simpl. rewrite lookup_delete_Some. by intros [_ ?].
Qed.

Lemma response_ok own received sender evs g :
  evs ⊆ received -> gossip_ok own received g -> gossip_ok own received (fold_left (handle_response_event sender) evs g).
Proof.
  revert g. induction evs as [|e evs IH]; intros g Hs Hg; simpl; [done|].
  apply IH; [set_solver|]. apply response_event_ok; [set_solver|done].
Qed.

Lemma announce_ok own received now reply_id g sender a :
  gossip_ok own received g -> gossip_ok own received (GossipProtocol_handle_event_announce now reply_id g sender a).1.
Proof.
  intros [Hv Hp Hs]. unfold GossipProtocol_handle_event_announce.
  destruct (DagStore_contains _ _); [by split|]. case_bool_decide; [by split|]. split; [done|done|].
  intros id p. simpl. rewrite lookup_insert_Some. intros [[<- <-]|[_ Hl]]; [|by eapply Hs].
  destruct (pending_events g !! an_event_id a) as [q|] eqn:Hq; simpl; [|done].
  split; [by destruct (pe_sources q)|]. apply (Hs _ _ Hq).
Qed.

Lemma gossip_step_ok own received g o :
  own_events o ⊆ own -> received_events o ⊆ received -> gossip_ok own received g -> gossip_ok own received (gossip_step g o).
Proof.
  intros Ho Hr Hg. destruct o as [now reply_id msg|ids event|now]; simpl in *.
  - unfold GossipProtocol_handle_message. destruct (GossipProtocol_is_seen _ _); [done|].
    assert (gossip_ok own received (GossipProtocol_mark_seen now g (nm_message_id msg))) as Hg' by by destruct Hg.
    destruct (nm_payload msg); simpl; [done|done|by apply announce_ok|done|by apply response_ok|done..].
  - apply (insert_event_ok own received g _ event); [done|left; set_solver|done|done|done].
  - destruct Hg as [Hv Hp Hs]. split; [done|done|]. intros id p. simpl.
    rewrite map_lookup_filter_Some. intros [Hl _]. by eapply Hs.
Qed.

Lemma gossip_run_ok own received g ops :
  gossip_ok own received g ->
  gossip_ok (own ++ (ops ≫= own_events)) (received ++ (ops ≫= received_events)) (gossip_run g ops).
Proof.
  revert own received g. induction ops as [|o ops IH]; intros own received g Hg; [by rewrite !app_nil_r|].
  simpl. rewrite !app_assoc. apply IH, gossip_step_ok; [set_solver..|]. by eapply gossip_ok_mono; [..|done]; set_solver.
Qed.

(** ** Events are never forgotten *)

Lemma response_keeps sender evs g id :
  is_Some (events (g_dag g) !! id) -> is_Some (events (g_dag (fold_left (handle_response_event sender) evs g)) !! id).
Proof.
  revert g. induction evs as [|e evs IH]; intros g Hg; simpl; [done|]. apply IH.
  unfold handle_response_event. destruct (validate_cases e) as [[err ->]|He]; [done|]. rewrite He.
  by apply insert_event_keeps.
Qed.

Lemma announce_dag now reply_id g sender a :
  g_dag (GossipProtocol_handle_event_announce now reply_id g sender a).1 = g_dag g.
Proof. unfold GossipProtocol_handle_event_announce. by repeat case_match. Qed.

Lemma gossip_step_keeps g o id :
  is_Some (events (g_dag g) !! id) -> is_Some (events (g_dag (gossip_step g o)) !! id).
Proof.
  intros Hg. destruct o as [now reply_id msg|ids event|now]; cbn [gossip_step]; [|by apply insert_event_keeps|done].
  unfold GossipProtocol_handle_message. destruct (GossipProtocol_is_seen _ _); [done|].
  destruct (nm_payload msg); cbn [fst]; try done; [by rewrite announce_dag|by apply response_keeps].
Qed.

(** C35: what a gossiping node knows, however messages arrive and whatever it
    broadcasts.  Every event of its DAG is filed under its own id and is
    either one that the node broadcast itself, which nothing checks, or one
    that a response carried and that passed the structural checks; every
    processed id is in the DAG; every pending event has a source to be fetched
    from.  An id that is in the DAG stays there, though a later response with
    the same id can replace the event. *)
Theorem gossip_invariant (local_id : PeerId) (peers : PeerManager) (config : GossipConfig) (ops more : list GossipOp) :
  let g := gossip_run (GossipProtocol_new local_id peers DagStore_new config) ops in
  (forall id e, DagStore_get (g_dag g) id = Some e -> ev_id e = id /\
    (e ∈ (ops ≫= own_events) \/ (DagEvent_validate_structure e = inr tt /\ e ∈ (ops ≫= received_events)))) /\
  (forall id, id ∈ processed_events g -> DagStore_contains (g_dag g) id = true) /\
  (forall id p, pending_events g !! id = Some p -> pe_sources p <> []) /\
  (forall id, DagStore_contains (g_dag g) id = true -> DagStore_contains (g_dag (gossip_run g more)) id = true).
Proof.
  intros g. assert (gossip_ok [] [] (GossipProtocol_new local_id peers DagStore_new config)) as Hnew
    by (split; simpl; [intros id e; by rewrite lookup_empty|set_solver|intros id p; by rewrite lookup_empty]).
  destruct (gossip_run_ok [] [] _ ops Hnew) as [Hv Hp Hs]. fold g in Hv, Hp, Hs. unfold DagStore_contains.
  split_and!; [exact Hv|intros id Hid; by apply bool_decide_eq_true, Hp|intros id p Hl; by apply (Hs id p)|].
  clearbody g. clear Hv Hp Hs. intros id. rewrite !bool_decide_eq_true. revert g.
  induction more as [|o more IH]; intros g Hg; simpl; [done|]. by apply IH, gossip_step_keeps.
Qed.

(** A message is acted on once: handling it again, whenever it comes back
    before the cleanup forgets its id, changes nothing and sends nothing. *)
Theorem gossip_deduplicates (now now' : Z) (reply reply' : bytes) (g : GossipProtocol) (msg : NetworkMessage) :
  let g' := (GossipProtocol_handle_message now reply g msg).1 in
  GossipProtocol_handle_message now' reply' g' msg = (g', None).
Proof.
  intros g'. assert (GossipProtocol_is_seen g' (nm_message_id msg) = true) as Hs.
  { unfold g', GossipProtocol_handle_message.
    destruct (GossipProtocol_is_seen g (nm_message_id msg)) eqn:E; [done|].
    assert (forall g1, seen_messages g1 = <[nm_message_id msg := now]> (seen_messages g) ->
      GossipProtocol_is_seen g1 (nm_message_id msg) = true) as Hseen.
    { intros g1 H1. unfold GossipProtocol_is_seen. rewrite H1, lookup_insert_eq. apply bool_decide_eq_true_2. eauto. }
    destruct (nm_payload msg); cbn [fst]; try (apply Hseen; done); apply Hseen.
    - unfold GossipProtocol_handle_event_announce. by repeat case_match.
    - unfold GossipProtocol_handle_event_response. generalize (rs_events m) as evs.
      generalize (eq_refl (seen_messages (GossipProtocol_mark_seen now g (nm_message_id msg)))).
      generalize (GossipProtocol_mark_seen now g (nm_message_id msg)) at 1 3 as g1.
      intros g1 H1 evs. revert g1 H1. induction evs as [|e evs IH]; intros g1 H1; simpl; [done|].
      apply IH. rewrite <- H1. unfold handle_response_event. by case_match. }
  unfold GossipProtocol_handle_message. by rewrite Hs.
Qed.

(** ** An event reaches the peers it is announced to *)

Lemma broadcast_messages ids g e to msg :
  (to, msg) ∈ (GossipProtocol_broadcast_event ids g e).2 ->
  exists id, msg = NetworkMessage_new id (g_local_id g)
    (MsgEventAnnounce (mkAnnounce (ev_id e) (ev_creator e) (ev_round e))).
Proof.
  unfold GossipProtocol_broadcast_event. cbn [snd]. intros Hin.
  apply elem_of_lookup_imap_1 in Hin as (i & p & [= _ ->] & _). eauto.
Qed.

Lemma announce_requests now reply_id g mid sender an :
  GossipProtocol_is_seen g mid = false ->
  DagStore_contains (g_dag g) (an_event_id an) = false -> an_event_id an ∉ processed_events g ->
  exists g', GossipProtocol_handle_message now reply_id g (NetworkMessage_new mid sender (MsgEventAnnounce an)) =
      (g', Some (NetworkMessage_new reply_id (g_local_id g) (MsgEventRequest (mkRequest [an_event_id an])))) /\
    seen_messages g' = <[mid := now]> (seen_messages g) /\ g_peers g' = g_peers g.
Proof.
  intros Hs Hc Hp. unfold GossipProtocol_handle_message, GossipProtocol_handle_event_announce. simpl.
  rewrite Hs, Hc, bool_decide_eq_false_2 by done. by eexists.
Qed.

Lemma request_answers now reply_id g mid sender e :
  GossipProtocol_is_seen g mid = false -> events (g_dag g) !! ev_id e = Some e ->
  exists g', GossipProtocol_handle_message now reply_id g
      (NetworkMessage_new mid sender (MsgEventRequest (mkRequest [ev_id e]))) =
      (g', Some (NetworkMessage_new reply_id (g_local_id g) (MsgEventResponse (mkResponse [e] [])))).
Proof.
  intros Hs He. unfold GossipProtocol_handle_message, GossipProtocol_handle_event_request, collect_events, DagStore_get. simpl.
  rewrite Hs, He. by eexists.
Qed.

Lemma response_stores now reply_id g mid sender e :
  GossipProtocol_is_seen g mid = false -> valid_event e ->
  exists g', GossipProtocol_handle_message now reply_id g
      (NetworkMessage_new mid sender (MsgEventResponse (mkResponse [e] []))) = (g', None) /\
    DagStore_get (g_dag g') (ev_id e) = Some e /\ ev_id e ∈ processed_events g' /\
    pending_events g' !! ev_id e = None /\ g_peers g' = PeerManager_reward_peer (g_peers g) sender 1.
Proof.
  intros Hs He. unfold GossipProtocol_handle_message. cbn [NetworkMessage_new nm_message_id]. rewrite Hs.
  eexists. split; [reflexivity|]. unfold GossipProtocol_handle_event_response, handle_response_event.
  cbn [rs_events fold_left]. rewrite He. unfold DagStore_get. cbn [g_dag processed_events pending_events g_peers].
  rewrite insert_event_has. split_and!; [done|set_solver|apply lookup_delete_eq|done].
Qed.

(** The exchange that spreads an event.  A node [a] broadcasts a valid
    event; a peer [b] that lacks it answers the announcement with a request,
    [a] answers the request with the event, and [b] stores it: the event is in
    [b]'s DAG, processed, no longer pending, and [a]'s reputation at [b] is
    raised.  The message ids need only be fresh. *)
Theorem gossip_delivers (ids : nat -> bytes) (a b : GossipProtocol) (e : DagEvent) (ann : NetworkMessage)
    (t1 t2 t3 : Z) (req_id resp_id any_id : bytes) :
  valid_event e ->
  DagStore_contains (g_dag b) (ev_id e) = false -> ev_id e ∉ processed_events b ->
  (g_local_id b, ann) ∈ (GossipProtocol_broadcast_event ids a e).2 ->
  GossipProtocol_is_seen b (nm_message_id ann) = false ->
  GossipProtocol_is_seen a req_id = false ->
  GossipProtocol_is_seen b resp_id = false -> resp_id <> nm_message_id ann ->
  exists req resp a2 b1 b2,
    GossipProtocol_handle_message t1 req_id b ann = (b1, Some req) /\
    GossipProtocol_handle_message t2 resp_id (GossipProtocol_broadcast_event ids a e).1 req = (a2, Some resp) /\
    GossipProtocol_handle_message t3 any_id b1 resp = (b2, None) /\
    DagStore_get (g_dag b2) (ev_id e) = Some e /\ ev_id e ∈ processed_events b2 /\
    pending_events b2 !! ev_id e = None /\
    g_peers b2 = PeerManager_reward_peer (g_peers b) (g_local_id a) 1.
Proof.
  intros He Hlack Hproc Hin Hs1 Hs2 Hs3 Hne.
  destruct (broadcast_messages _ _ _ _ _ Hin) as [id ->].
  destruct (announce_requests t1 req_id b id (g_local_id a) (mkAnnounce (ev_id e) (ev_creator e) (ev_round e)) Hs1 Hlack Hproc)
    as (b1 & Hreq & Hseen & Hpeers).
  destruct (request_answers t2 resp_id (GossipProtocol_broadcast_event ids a e).1 req_id (g_local_id b) e Hs2) as (a2 & Hresp).
  { apply insert_event_has. }
  assert (GossipProtocol_is_seen b1 resp_id = false) as Hs3'.
  { unfold GossipProtocol_is_seen in *. by rewrite Hseen, lookup_insert_ne by (intros ->; done). }
  destruct (response_stores t3 any_id b1 resp_id (g_local_id a) e Hs3' He) as (b2 & Hstore & Hget & Hproc2 & Hpend & Hrep).
  exists (NetworkMessage_new req_id (g_local_id b) (MsgEventRequest (mkRequest [ev_id e]))),
    (NetworkMessage_new resp_id (g_local_id a) (MsgEventResponse (mkResponse [e] []))), a2, b1, b2.
  split_and!; try done. by rewrite Hrep, Hpeers.
Qed.

(** ** Witnesses *)

Definition gossip_event : DagEvent := dag_event 9 1 1 [8].

Definition gossip_node (local other : Z) : GossipProtocol :=
  GossipProtocol_new (peer_id local)
    (peer_run (PeerManager_new (peer_id local) 8)
       [AddPeer 0 (peer_id other) (peer_addr other); SetState 0 (peer_id other) Connected])
    DagStore_new GossipConfig_default.

Definition gossip_ids (i : nat) : bytes := replicate 16 (Z.of_nat i).

Definition gossip_ann : NetworkMessage :=
  NetworkMessage_new (gossip_ids 0) (peer_id 1) (MsgEventAnnounce (mkAnnounce (ev_id gossip_event) (ev_creator gossip_event) 1)).

Lemma gossip_delivers_witness :
  exists b2, DagStore_get (g_dag b2) (ev_id gossip_event) = Some gossip_event /\ pending_events b2 !! ev_id gossip_event = None.
Proof.
  destruct (gossip_delivers gossip_ids (gossip_node 1 2) (gossip_node 2 1) gossip_event gossip_ann 1 2 3
    (gossip_ids 7) (gossip_ids 8) (gossip_ids 9)) as (req & resp & a2 & b1 & b2 & _ & _ & _ & Hget & _ & Hpend & _).
  - vm_compute. reflexivity.
  - vm_compute. reflexivity.
  - vm_compute. discriminate.
  - vm_compute. left.
  - vm_compute. reflexivity.
  - vm_compute. reflexivity.
  - vm_compute. reflexivity.
  - vm_compute. discriminate.
  - exists b2. split; assumption.
Defined.

Lemma gossip_invariant_witness :
  DagStore_contains (g_dag (gossip_run (gossip_node 1 2) [GBroadcast gossip_ids gossip_event; GCleanup 1000])) (ev_id gossip_event) = true.
Proof.
  apply (gossip_invariant (peer_id 1) (g_peers (gossip_node 1 2)) GossipConfig_default [GBroadcast gossip_ids gossip_event] [GCleanup 1000]).
  vm_compute. reflexivity.
Defined.

(** A response is inserted whether or not it was asked for, and neither the id
    nor the signature of its events is checked: a peer can replace an event of
    the DAG by another with the same id. *)
Definition forged_event : DagEvent := dag_event 9 2 5 [3].

Theorem response_replaces_event :
  let g := gossip_run (gossip_node 1 2) [GBroadcast gossip_ids gossip_event] in
  let forged := NetworkMessage_new (gossip_ids 3) (peer_id 2) (MsgEventResponse (mkResponse [forged_event] [])) in
  DagStore_get (g_dag g) (ev_id gossip_event) = Some gossip_event /\
  DagStore_get (g_dag (GossipProtocol_handle_message 1 [] g forged).1) (ev_id gossip_event) = Some forged_event /\
  ev_creator forged_event <> ev_creator gossip_event.
Proof. split_and!; [vm_compute; reflexivity|vm_compute; reflexivity|discriminate]. Qed.
