(* ===== verification/Transport.v ===== *)
(** * The TCP transport: [src/network/transport.rs]

    The transport keeps a table of connections; each connection has a channel
    to a writer task, which frames what it receives onto the socket, and a
    reader task, which cuts the bytes of the socket into frames and forwards
    the messages they hold.  The tasks run concurrently with the transport's
    operations: a [Link] is what one call of [setup_connection] leaves behind
    (the channel, the socket's two directions and the two tasks), a turn of a
    task ends where the task waits, and a run is any interleaving of steps.
    Two operations are coarser than the code: [connect] is one step, from its
    test of the table to the new connection, so nothing interleaves with the
    wait for the socket; and a [send] that waits for room in the channel
    starts over when it is polled again, with a new look at the table, where
    the code goes on with the sender it cloned.

    The wire format of a message comes from the [bincode] crate and is a
    parameter, the class [Bincode]; the sockets are the byte sequences written
    and arrived, with failures as arguments of the steps. *)

From S2P Require Import Prelude Types Block Peer Gossip.

(** [bincode::serialize] and [bincode::deserialize] at [NetworkMessage]; the
    crate documents that what it serialises it reads back. *)
Class Bincode := {
  bincode_serialize : NetworkMessage -> option bytes;
  bincode_deserialize : bytes -> option NetworkMessage
}.

Class BincodeOk `{Bincode} : Prop := {
  bincode_roundtrip m b : bincode_serialize m = Some b -> bincode_deserialize b = Some m
}.

Definition NetworkMessage_to_bytes `{Bincode} (m : NetworkMessage) : bytes := default [] (bincode_serialize m).
Definition NetworkMessage_from_bytes `{Bincode} (b : bytes) : option NetworkMessage := bincode_deserialize b.

(** ** The text of a socket address

    [SocketAddr]'s [Display], from the standard library: dotted decimal for
    four bytes; for sixteen bytes the eight segments in hexadecimal with the
    first longest run of two or more zero segments shortened, in brackets, an
    IPv4-mapped address in dotted form. *)

Definition decimal (n : Z) : list Z := string_bytes (show_u64 n).

Fixpoint join (sep : list Z) (l : list (list Z)) : list Z :=
  match l with
  | [] => []
  | [x] => x
  | x :: l => x ++ sep ++ join sep l
  end.

Definition ipv4_to_string (ip : bytes) : list Z := join [46] (decimal <$> ip).

Fixpoint ipv6_segments (ip : bytes) : list Z :=
  match ip with
  | hi :: lo :: ip => (256 * hi + lo) :: ipv6_segments ip
  | _ => []
  end.

(** The scan of the segments: position, the current run and the longest, each
    a start and a length. *)
Fixpoint longest_zeroes (segs : list Z) (i : nat) (current longest : nat * nat) : nat * nat :=
  match segs with
  | [] => longest
  | s :: segs =>
      if s =? 0 then
        let current := (if (current.2 =? 0)%nat then i else current.1, S current.2) in
        longest_zeroes segs (S i) current (if (longest.2 <? current.2)%nat then current else longest)
      else longest_zeroes segs (S i) (0%nat, 0%nat) longest
  end.

Definition fmt_subslice (segs : list Z) : list Z := join [58] (format_x <$> segs).

Definition ipv6_to_string (ip : bytes) : list Z :=
  if bool_decide (take 12 ip = replicate 10 0 ++ [255; 255])
  then [58; 58] ++ replicate 4 102 ++ [58] ++ ipv4_to_string (drop 12 ip)
  else
    let segs := ipv6_segments ip in
    let '(start, len) := longest_zeroes segs 0 (0, 0)%nat (0, 0)%nat in
    if (1 <? len)%nat
    then fmt_subslice (take start segs) ++ [58; 58] ++ fmt_subslice (drop (start + len) segs)
    else fmt_subslice segs.

Definition SocketAddr_to_string (a : SocketAddr) : list Z :=
  if (length (sa_ip a) =? 4)%nat
  then ipv4_to_string (sa_ip a) ++ [58] ++ decimal (sa_port a)
  else [91] ++ ipv6_to_string (sa_ip a) ++ [93; 58] ++ decimal (sa_port a).

(** ** Configuration, connections, the transport *)

Record TransportConfig := mkTransportConfig {
  listen_addr : SocketAddr;
  max_message_size : Z;
  connect_timeout_ms : Z
}.

Definition TransportConfig_default : TransportConfig :=
  mkTransportConfig (mkAddr [0; 0; 0; 0] 30303) (16 * 1024 * 1024) 5000.

Inductive ErrorKind := NotConnected | BrokenPipe | TimedOut | OtherError (message : string).

(** [sender] is the channel of the link with that number. *)
Record Connection := mkConnection {
  conn_peer_id : PeerId;
  conn_sender : nat
}.

(** What [setup_connection] leaves running: the outgoing channel and its
    writer, the socket in both directions, and the reader with the message it
    is about to forward.  [lk_sent], [lk_arrived] and [lk_forwarded] are
    history: every message accepted by the channel, every byte that arrived
    and every message the reader passed to [incoming_tx.send]. *)
Record Link := mkLink {
  lk_peer : PeerId;
  lk_queue : list bytes;
  lk_writer : bool;
  lk_written : bytes;
  lk_inbox : bytes;
  lk_eof : bool;
  lk_reader : bool;
  lk_held : option NetworkMessage;
  lk_sent : list NetworkMessage;
  lk_arrived : bytes;
  lk_forwarded : list NetworkMessage
}.

Record TcpTransport := mkTransport {
  t_config : TransportConfig;
  t_local_id : PeerId;
  t_peers : PeerManager;
  connections : gmap (list Z) Connection;
  incoming : list (list Z * NetworkMessage);
  incoming_rx : bool;
  incoming_open : bool;
  links : list Link
}.

Definition incoming_capacity : nat := Z.to_nat 10000.
Definition outgoing_capacity : nat := Z.to_nat 1000.

(** The capacities are numerals of unary arithmetic: simplification must not
    unfold them. *)
#[global] Opaque incoming_capacity outgoing_capacity.

Lemma capacities_positive : (incoming_capacity <=? 0)%nat = false /\ (outgoing_capacity <=? 0)%nat = false.
Proof. split; vm_compute; reflexivity. Qed.

Definition TcpTransport_new (local_id : PeerId) (peers : PeerManager) (config : TransportConfig) : TcpTransport :=
  mkTransport config local_id peers ∅ [] true true [].

Definition set_t_peers (p : PeerManager) (t : TcpTransport) : TcpTransport :=
  mkTransport (t_config t) (t_local_id t) p (connections t) (incoming t) (incoming_rx t) (incoming_open t) (links t).

Definition set_connections (c : gmap (list Z) Connection) (t : TcpTransport) : TcpTransport :=
  mkTransport (t_config t) (t_local_id t) (t_peers t) c (incoming t) (incoming_rx t) (incoming_open t) (links t).

Definition set_links (l : list Link) (t : TcpTransport) : TcpTransport :=
  mkTransport (t_config t) (t_local_id t) (t_peers t) (connections t) (incoming t) (incoming_rx t) (incoming_open t) l.

Definition push_incoming (x : list Z * NetworkMessage) (t : TcpTransport) : TcpTransport :=
  mkTransport (t_config t) (t_local_id t) (t_peers t) (connections t) (incoming t ++ [x]) (incoming_rx t) (incoming_open t) (links t).

(** The receiver of the incoming channel, once. *)
Definition TcpTransport_take_receiver (t : TcpTransport) : TcpTransport * bool :=
  (mkTransport (t_config t) (t_local_id t) (t_peers t) (connections t) (incoming t) false (incoming_open t) (links t),
   incoming_rx t).

Definition TcpTransport_is_connected (t : TcpTransport) (id : PeerId) : bool := bool_decide (is_Some (connections t !! id)).
Definition TcpTransport_connection_count (t : TcpTransport) : nat := size (connections t).

(** ** Sending *)

(** A future: not ready, with nothing done, or ready with its value. *)
Inductive Poll (A : Type) := Pending | Ready (x : A).
Arguments Pending {A}.
Arguments Ready {A} x.

Definition link_enqueue (m : NetworkMessage) (data : bytes) (l : Link) : Link :=
  mkLink (lk_peer l) (lk_queue l ++ [data]) (lk_writer l) (lk_written l) (lk_inbox l) (lk_eof l) (lk_reader l) (lk_held l)
    (lk_sent l ++ [m]) (lk_arrived l) (lk_forwarded l).

(** [sender.send(bytes)]: an error when the writer, which owns the receiver,
    is gone; not ready while the channel is full.  A send that is not ready is
    polled again from the start. *)
Definition TcpTransport_send `{Bincode} (now : Z) (t : TcpTransport) (id : PeerId) (message : NetworkMessage)
    : TcpTransport * Poll (unit + ErrorKind) :=
  match connections t !! id with
  | None => (t, Ready (inr NotConnected))
  | Some c =>
      let bytes := NetworkMessage_to_bytes message in
      match links t !! conn_sender c with
      | Some l =>
          if negb (lk_writer l) then (t, Ready (inr BrokenPipe))
          else if (outgoing_capacity <=? length (lk_queue l))%nat then (t, Pending)
          else
            let t := set_links (<[conn_sender c := link_enqueue message bytes l]> (links t)) t in
            (set_t_peers (PeerManager_record_sent now (t_peers t) id) t, Ready (inl ()))
      | None => (t, Ready (inr BrokenPipe))
      end
  end.

(** One poll of [broadcast]: the ids still to serve and the count so far; it
    stops at the first send that is not ready and is finished when no id is
    left. *)
Fixpoint broadcast_poll `{Bincode} (now : Z) (t : TcpTransport) (peer_ids : list PeerId) (message : NetworkMessage) (sent : nat)
    : TcpTransport * (list PeerId * nat) :=
  match peer_ids with
  | [] => (t, ([], sent))
  | id :: ids =>
      match TcpTransport_send now t id message with
      | (t', Pending) => (t', (id :: ids, sent))
      | (t', Ready (inl _)) => broadcast_poll now t' ids message (S sent)
      | (t', Ready (inr _)) => broadcast_poll now t' ids message sent
      end
  end.

(** [broadcast]'s first poll, with the keys read in some order. *)
Definition TcpTransport_broadcast `{Bincode} (now : Z) (t : TcpTransport) (order : list PeerId) (message : NetworkMessage)
    : TcpTransport * (list PeerId * nat) := broadcast_poll now t order message 0.

Definition connection_ids (t : TcpTransport) : list PeerId := (map_to_list (connections t)).*1.

(** ** Connecting *)

Definition new_link (id : PeerId) : Link := mkLink id [] true [] [] false true None [] [] [].

Definition TcpTransport_setup_connection (now : Z) (t : TcpTransport) (id : PeerId) : TcpTransport :=
  let k := length (links t) in
  let t := set_links (links t ++ [new_link id]) t in
  let t := set_connections (<[id := mkConnection id k]> (connections t)) t in
  set_t_peers (PeerManager_set_state now (t_peers t) id Connected) t.

(** The outcome of [TcpStream::connect] within the timeout. *)
Inductive ConnectOutcome := ConnectOk | ConnectTimeout | ConnectError (message : string).

(** [connect], from the test of the table to the outcome of the connection, as
    one step. *)
Definition TcpTransport_connect (now : Z) (t : TcpTransport) (id : PeerId) (addr : SocketAddr) (outcome : ConnectOutcome)
    : TcpTransport * (unit + ErrorKind) :=
  if TcpTransport_is_connected t id then (t, inl ())
  else
    let p := (PeerManager_add_peer now (t_peers t) id addr).1 in
    let t := set_t_peers (PeerManager_set_state now p id Connecting) t in
    match outcome with
    | ConnectTimeout => (t, inr TimedOut)
    | ConnectError e => (t, inr (OtherError e))
    | ConnectOk => (TcpTransport_setup_connection now t id, inl ())
    end.

Definition TcpTransport_disconnect (now : Z) (t : TcpTransport) (id : PeerId) : TcpTransport :=
  let t := set_connections (delete id (connections t)) t in
  set_t_peers (PeerManager_set_state now (t_peers t) id Disconnected) t.

Definition TcpTransport_addr_to_peer_id `{Hashes} (addr : SocketAddr) : PeerId := sha256 (SocketAddr_to_string addr).

(** One turn of [listen]'s loop, on an accepted connection. *)
Definition listen_accept `{Hashes} (now : Z) (t : TcpTransport) (addr : SocketAddr) : TcpTransport :=
  let id := TcpTransport_addr_to_peer_id addr in
  let t := set_t_peers (PeerManager_add_peer now (t_peers t) id addr).1 t in
  TcpTransport_setup_connection now t id.

(** ** The writer task *)

(** [(data.len() as u32).to_be_bytes()], then the data. *)
Definition frame (data : bytes) : bytes := be_bytes 4 (Z.of_nat (length data) mod u32_bound) ++ data.

(** One turn of the writer's loop.  [fail] is the number of bytes of the frame
    that reach the socket when a write fails; the task then ends and the
    channel is closed. *)
Definition writer_turn (fail : option nat) (l : Link) : Link :=
  match lk_writer l, lk_queue l with
  | true, data :: q =>
      match fail with
      | None =>
          mkLink (lk_peer l) q true (lk_written l ++ frame data) (lk_inbox l) (lk_eof l) (lk_reader l) (lk_held l)
            (lk_sent l) (lk_arrived l) (lk_forwarded l)
      | Some n =>
          mkLink (lk_peer l) [] false (lk_written l ++ take n (frame data)) (lk_inbox l) (lk_eof l) (lk_reader l) (lk_held l)
            (lk_sent l) (lk_arrived l) (lk_forwarded l)
      end
  | _, _ => l
  end.

(** [rx.recv()] returns [None] once the channel is empty and no sender is
    left: the writer ends.  The senders are those of the table; the clone a
    waiting [send] holds is not counted. *)
Definition has_sender (t : TcpTransport) (k : nat) : bool :=
  existsb (fun kv => (conn_sender kv.2 =? k)%nat) (map_to_list (connections t)).

Definition writer_close (l : Link) : Link :=
  match lk_queue l with
  | [] => mkLink (lk_peer l) [] false (lk_written l) (lk_inbox l) (lk_eof l) (lk_reader l) (lk_held l)
            (lk_sent l) (lk_arrived l) (lk_forwarded l)
  | _ :: _ => l
  end.

(** ** The reader task *)

(** [read_exact] on the bytes at hand: [None] when they do not suffice. *)
Definition read_exact (n : Z) (buf : bytes) : option (bytes * bytes) :=
  if Z.of_nat (length buf) <? n then None else Some (take (Z.to_nat n) buf, drop (Z.to_nat n) buf).

(** A frame at the head of the stream: not complete yet, too large, or the
    data and what follows. *)
Inductive FrameRead := FrameShort | FrameTooLarge | FrameData (data rest : bytes).

Definition read_frame (max_size : Z) (buf : bytes) : FrameRead :=
  match read_exact 4 buf with
  | None => FrameShort
  | Some (len_buf, rest) =>
      let len := of_be_bytes len_buf in
      if max_size <? len then FrameTooLarge
      else match read_exact len rest with
           | None => FrameShort
           | Some (data, rest) => FrameData data rest
           end
  end.

Definition set_reader (inbox : bytes) (held : option NetworkMessage) (l : Link) : Link :=
  mkLink (lk_peer l) (lk_queue l) (lk_writer l) (lk_written l) inbox (lk_eof l) (lk_reader l) held
    (lk_sent l) (lk_arrived l) (lk_forwarded l).

(** [break] and [writer_handle.abort()]: both tasks end. *)
Definition reader_stop (l : Link) : Link :=
  mkLink (lk_peer l) [] false (lk_written l) (lk_inbox l) (lk_eof l) false (lk_held l)
    (lk_sent l) (lk_arrived l) (lk_forwarded l).

Definition link_forward (m : NetworkMessage) (l : Link) : Link :=
  mkLink (lk_peer l) (lk_queue l) (lk_writer l) (lk_written l) (lk_inbox l) (lk_eof l) (lk_reader l) None
    (lk_sent l) (lk_arrived l) (lk_forwarded l ++ [m]).

(** The reader between two await points: forwarding the message it holds, or
    reading the next frame; an error of [read_exact] is the end of the stream. *)
Definition reader_turn `{Bincode} (now : Z) (t : TcpTransport) (k : nat) : TcpTransport :=
  match links t !! k with
  | Some l =>
      if negb (lk_reader l) then t
      else
        let put l t := set_links (<[k := l]> (links t)) t in
        match lk_held l with
        | Some m =>
            if negb (incoming_open t) then put (link_forward m l) t
            else if (incoming_capacity <=? length (incoming t))%nat then t
            else push_incoming (lk_peer l, m) (put (link_forward m l) t)
        | None =>
            match read_frame (max_message_size (t_config t)) (lk_inbox l) with
            | FrameShort => if lk_eof l then put (reader_stop l) t else t
            | FrameTooLarge => put (reader_stop l) t
            | FrameData data rest =>
                match NetworkMessage_from_bytes data with
                | Some m =>
                    set_t_peers (PeerManager_record_received now (t_peers t) (lk_peer l)) (put (set_reader rest (Some m) l) t)
                | None => put (set_reader rest None l) t
                end
            end
        end
  | None => t
  end.

(** ** Runs *)

Inductive TransportOp :=
| OpSend (now : Z) (id : PeerId) (m : NetworkMessage)
| OpBroadcast (now : Z) (order : list (list Z)) (m : NetworkMessage)
| OpConnect (now : Z) (id : PeerId) (addr : SocketAddr) (outcome : ConnectOutcome)
| OpAccept (now : Z) (addr : SocketAddr)
| OpDisconnect (now : Z) (id : PeerId)
| OpTakeReceiver
| OpReceive
| OpDropReceiver
| OpWriter (k : nat) (fail : option nat)
| OpWriterClose (k : nat)
| OpReader (now : Z) (k : nat)
| OpArrive (k : nat) (data : bytes)
| OpEof (k : nat).

Definition on_link (k : nat) (f : Link -> Link) (t : TcpTransport) : TcpTransport :=
  match links t !! k with
  | Some l => set_links (<[k := f l]> (links t)) t
  | None => t
  end.

Definition link_arrive (data : bytes) (l : Link) : Link :=
  if lk_eof l then l
  else mkLink (lk_peer l) (lk_queue l) (lk_writer l) (lk_written l) (lk_inbox l ++ data) false (lk_reader l) (lk_held l)
    (lk_sent l) (lk_arrived l ++ data) (lk_forwarded l).

Definition link_eof (l : Link) : Link :=
  mkLink (lk_peer l) (lk_queue l) (lk_writer l) (lk_written l) (lk_inbox l) true (lk_reader l) (lk_held l)
    (lk_sent l) (lk_arrived l) (lk_forwarded l).

Definition set_incoming (q : list (list Z * NetworkMessage)) (open : bool) (t : TcpTransport) : TcpTransport :=
  mkTransport (t_config t) (t_local_id t) (t_peers t) (connections t) q (incoming_rx t) open (links t).

Definition transport_step `{Hashes} `{Bincode} (t : TcpTransport) (o : TransportOp) : TcpTransport :=
  match o with
  | OpSend now id m => (TcpTransport_send now t id m).1
  | OpBroadcast now order m => (TcpTransport_broadcast now t order m).1
  | OpConnect now id addr outcome => (TcpTransport_connect now t id addr outcome).1
  | OpAccept now addr => listen_accept now t addr
  | OpDisconnect now id => TcpTransport_disconnect now t id
  | OpTakeReceiver => (TcpTransport_take_receiver t).1
  | OpReceive => set_incoming (tail (incoming t)) (incoming_open t) t
  | OpDropReceiver => set_incoming [] false t
  | OpWriter k fail => on_link k (writer_turn fail) t
  | OpWriterClose k => if has_sender t k then t else on_link k writer_close t
  | OpReader now k => reader_turn now t k
  | OpArrive k data => on_link k (link_arrive data) t
  | OpEof k => on_link k link_eof t
  end.

Definition transport_run `{Hashes} `{Bincode} (t : TcpTransport) (ops : list TransportOp) : TcpTransport :=
  fold_left transport_step ops t.

(** ** Frames *)

Section frames.
Context (max_size : Z).

(** Data the receiver accepts, and whose length the prefix can carry. *)
Definition fits (data : bytes) : Prop := Z.of_nat (length data) <= max_size /\ Z.of_nat (length data) < u32_bound.

Lemma read_exact_app (a b : bytes) : read_exact (Z.of_nat (length a)) (a ++ b) = Some (a, b).
Proof.
  unfold read_exact. rewrite length_app. destruct (_ <? _) eqn:E; bool_to_prop; [lia|].
  by rewrite Nat2Z.id, take_app_length, drop_app_length.
Qed.

Lemma read_exact_Some n buf a b :
  read_exact n buf = Some (a, b) -> buf = a ++ b /\ length a = Z.to_nat n.
Proof.
  unfold read_exact. destruct (_ <? _) eqn:E; bool_to_prop; [done|]. intros [= <- <-].
  split; [by rewrite take_drop|]. rewrite length_take. lia.
Qed.

Lemma read_exact_more n buf a b x :
  read_exact n buf = Some (a, b) -> read_exact n (buf ++ x) = Some (a, b ++ x).
Proof.
  unfold read_exact. rewrite length_app. destruct (_ <? _) eqn:E; bool_to_prop; [done|]. intros [= <- <-].
  destruct (_ <? _) eqn:E2; bool_to_prop; [lia|]. by rewrite take_app_le, drop_app_le by lia.
Qed.

Lemma read_frame_frame data rest : fits data -> read_frame max_size (frame data ++ rest) = FrameData data rest.
Proof.
  intros [Hm H32]. unfold read_frame, frame. rewrite <- app_assoc.
  rewrite (Z.mod_small _ u32_bound) by (unfold u32_bound in *; lia).
  set (h := be_bytes 4 _). replace 4 with (Z.of_nat (length h)) by (unfold h; by rewrite length_be_bytes).
  rewrite read_exact_app. unfold h. rewrite of_be_be_bytes by (unfold u32_bound in *; simpl; lia).
  destruct (_ <? _) eqn:E; bool_to_prop; [lia|]. by rewrite read_exact_app.
Qed.

Lemma read_frame_more buf data rest x :
  read_frame max_size buf = FrameData data rest -> read_frame max_size (buf ++ x) = FrameData data (rest ++ x).
Proof.
  unfold read_frame. destruct (read_exact 4 buf) as [[h r]|] eqn:E1; [|done].
  rewrite (read_exact_more _ _ _ _ x E1). destruct (_ <? _); [done|].
  destruct (read_exact _ r) as [[d r']|] eqn:E2; [|done]. intros [= -> ->].
  by rewrite (read_exact_more _ _ _ _ x E2).
Qed.

(** Every frame read takes its four bytes of prefix from the stream, and no
    frame handed on is longer than the limit. *)
Lemma read_frame_consumes buf data rest :
  read_frame max_size buf = FrameData data rest ->
  length buf = (4 + length data + length rest)%nat /\ (0 <= max_size -> Z.of_nat (length data) <= max_size).
Proof.
  unfold read_frame. destruct (read_exact 4 buf) as [[h r]|] eqn:E1; [|done].
  destruct (_ <? _) eqn:Em; [done|]. bool_to_prop. destruct (read_exact _ r) as [[d r']|] eqn:E2; [|done].
  intros [= -> ->]. apply read_exact_Some in E1 as [-> Hh]. apply read_exact_Some in E2 as [-> Hd].
  rewrite !length_app. change (Z.to_nat 4) with 4%nat in Hh. lia.
Qed.

Lemma length_frame data : length (frame data) = (4 + length data)%nat.
Proof. unfold frame. by rewrite length_app, length_be_bytes. Qed.

(** [reads buf ds rest]: reading frame after frame from [buf] gives [ds] and
    leaves [rest]. *)
Inductive reads : bytes -> list bytes -> bytes -> Prop :=
| reads_nil buf : reads buf [] buf
| reads_cons buf data mid ds rest :
    read_frame max_size buf = FrameData data mid -> reads mid ds rest -> reads buf (data :: ds) rest.

Lemma reads_snoc buf ds mid data rest :
  reads buf ds mid -> read_frame max_size mid = FrameData data rest -> reads buf (ds ++ [data]) rest.
Proof. induction 1; intros; simpl; econstructor; eauto using reads_nil. Qed.

Lemma reads_more buf ds rest x : reads buf ds rest -> reads (buf ++ x) ds (rest ++ x).
Proof. induction 1; econstructor; eauto using read_frame_more. Qed.

(** Reading a prefix of the frames of [datas] gives the first of them, and
    what is left to read is a prefix of the frames of the others. *)
Lemma reads_frames buf ds rest z datas :
  reads buf ds rest -> Forall fits datas -> buf ++ z = concat (frame <$> datas) ->
  exists more, datas = ds ++ more /\ rest ++ z = concat (frame <$> more).
Proof.
  intros Hr. revert z datas. induction Hr as [buf|buf data mid ds rest Hf _ IH]; intros z datas Hall Heq.
  { by exists datas. }
  destruct Hall as [|d datas Hd Hall].
  { apply read_frame_consumes in Hf as [Hl _]. apply (f_equal length) in Heq. rewrite length_app in Heq. simpl in Heq. lia. }
  rewrite fmap_cons in Heq. cbn [concat] in Heq. apply (read_frame_more _ _ _ z) in Hf. rewrite Heq, read_frame_frame in Hf by done.
  injection Hf as -> Hmid. destruct (IH z datas Hall) as (more & -> & Hm); [done|]. by exists more.
Qed.
End frames.

(** ** What happens to one link

    [link_step] lists the changes of a link that an operation or a task can
    make; every step of the transport is a sequence of them on each link. *)

Section link_steps.
Context `{Bincode} (max_size : Z).

Inductive link_step : relation Link :=
| ls_send m l : lk_writer l = true -> link_step l (link_enqueue m (NetworkMessage_to_bytes m) l)
| ls_write fail l : link_step l (writer_turn fail l)
| ls_close l : link_step l (writer_close l)
| ls_forward m l : lk_held l = Some m -> link_step l (link_forward m l)
| ls_read data rest l :
    lk_held l = None -> read_frame max_size (lk_inbox l) = FrameData data rest ->
    link_step l (set_reader rest (NetworkMessage_from_bytes data) l)
| ls_stop l : link_step l (reader_stop l)
| ls_arrive data l : link_step l (link_arrive data l)
| ls_eof l : link_step l (link_eof l).

(** Every link of [t'] comes from the link of the same number in [t], or is
    new since. *)
Definition links_evolve (t t' : TcpTransport) : Prop :=
  (length (links t) <= length (links t'))%nat /\
  forall k l', links t' !! k = Some l' ->
    exists l, rtc link_step l l' /\ (links t !! k = Some l \/ (length (links t) <= k)%nat /\ exists id, l = new_link id).

Lemma links_evolve_same t t' : links t' = links t -> links_evolve t t'.
Proof. intros E. unfold links_evolve. rewrite E. split; [done|]. intros k l' Hl. exists l'. split; [apply rtc_refl|by left]. Qed.

Lemma links_evolve_trans t1 t2 t3 : links_evolve t1 t2 -> links_evolve t2 t3 -> links_evolve t1 t3.
Proof.
  intros [Hn12 H12] [Hn23 H23]. split; [lia|]. intros k l3 H3.
  destruct (H23 k l3 H3) as (l2 & Hs2 & [Hk2|[Hk2 [id ->]]]).
  - destruct (H12 k l2 Hk2) as (l1 & Hs1 & Hk1). exists l1. split; [by etrans|done].
  - exists (new_link id). split; [done|]. right. split; [lia|by exists id].
Qed.

Lemma links_evolve_put t t' k l l' :
  links t !! k = Some l -> links t' = <[k := l']> (links t) -> link_step l l' -> links_evolve t t'.
Proof.
  intros Hk E Hs. unfold links_evolve. rewrite E, length_insert. split; [done|]. intros j m Hj.
  destruct (decide (j = k)) as [->|Hne].
  - rewrite list_lookup_insert_eq in Hj by by eapply lookup_lt_Some. injection Hj as <-.
    exists l. split; [by apply rtc_once|by left].
  - rewrite list_lookup_insert_ne in Hj by done. exists m. split; [apply rtc_refl|by left].
Qed.

Ltac put_link Hk := eapply links_evolve_put; [exact Hk|reflexivity|].

Lemma links_evolve_on k f t : (forall l, link_step l (f l)) -> links_evolve t (on_link k f t).
Proof.
  intros Hf. unfold on_link. destruct (links t !! k) as [l|] eqn:Hk; [|by apply links_evolve_same].
  by apply (links_evolve_put _ _ k l (f l)).
Qed.

Lemma links_evolve_setup now t id : links_evolve t (TcpTransport_setup_connection now t id).
Proof.
  split; simpl; [rewrite length_app; lia|]. intros k l' Hl. exists l'. split; [apply rtc_refl|].
  apply lookup_app_Some in Hl as [Hl|[Hk Hl]]; [by left|right]. split; [done|].
  apply list_lookup_singleton_Some in Hl as [_ <-]. by exists id.
Qed.

Lemma links_evolve_send now t id m : links_evolve t (TcpTransport_send now t id m).1.
Proof.
  unfold TcpTransport_send. destruct (connections t !! id) as [c|]; [|by apply links_evolve_same].
  destruct (links t !! conn_sender c) as [l|] eqn:Hl; [|by apply links_evolve_same].
  destruct (negb _) eqn:Hw; [by apply links_evolve_same|]. case_bool; [by apply links_evolve_same|].
  apply negb_false_iff in Hw. put_link Hl. by apply ls_send.
Qed.

Lemma links_evolve_broadcast now t ids m n : links_evolve t (broadcast_poll now t ids m n).1.
Proof.
  revert t n. induction ids as [|id ids IH]; intros t n; simpl; [by apply links_evolve_same|].
  pose proof (links_evolve_send now t id m) as Hs.
  destruct (TcpTransport_send now t id m) as [t' [|[u|e]]]; simpl in *; [done|..]; by eapply links_evolve_trans.
Qed.

Lemma links_evolve_reader now t k :
  max_message_size (t_config t) = max_size -> links_evolve t (reader_turn now t k).
Proof.
  intros Hmax. unfold reader_turn. destruct (links t !! k) as [l|] eqn:Hk; [|by apply links_evolve_same].
  case_bool; [by apply links_evolve_same|]. cbv zeta. destruct (lk_held l) as [m|] eqn:Hh.
  - case_bool; [put_link Hk; by apply ls_forward|].
    case_bool; [by apply links_evolve_same|]. put_link Hk. by apply ls_forward.
  - rewrite Hmax. destruct (read_frame _ _) as [| |data rest] eqn:Hf.
    + case_bool; [|by apply links_evolve_same]. put_link Hk. apply ls_stop.
    + put_link Hk. apply ls_stop.
    + pose proof (ls_read data rest l Hh Hf) as Hs.
      destruct (NetworkMessage_from_bytes data); put_link Hk; done.
Qed.

Context `{Hashes}.

Lemma transport_step_config t o : t_config (transport_step t o) = t_config t.
Proof.
  assert (Hsend : forall now t id m, t_config (TcpTransport_send now t id m).1 = t_config t).
  { intros. unfold TcpTransport_send. repeat case_match; done. }
  assert (Hb : forall now m ids t n, t_config (broadcast_poll now t ids m n).1 = t_config t).
  { intros now m ids. induction ids as [|id ids IH]; intros t' n; simpl; [done|].
    pose proof (Hsend now t' id m). destruct (TcpTransport_send now t' id m) as [t'' [|[|]]]; simpl in *; [done|..]; by rewrite IH. }
  destruct o; simpl; auto; try apply Hb; unfold TcpTransport_connect, on_link, reader_turn; repeat case_match; done.
Qed.

Lemma transport_step_evolve t o :
  max_message_size (t_config t) = max_size -> links_evolve t (transport_step t o).
Proof.
  intros Hmax. destruct o; simpl; try (by apply links_evolve_same).
  - apply links_evolve_send.
  - apply links_evolve_broadcast.
  - unfold TcpTransport_connect. case_bool; [by apply links_evolve_same|]. cbv zeta.
    destruct outcome; simpl; [|by apply links_evolve_same..].
    eapply links_evolve_trans; [|apply links_evolve_setup]. by apply links_evolve_same.
  - eapply links_evolve_trans; [|apply links_evolve_setup]. by apply links_evolve_same.
  - apply links_evolve_on, ls_write.
  - case_bool; [by apply links_evolve_same|]. apply links_evolve_on, ls_close.
  - by apply links_evolve_reader.
  - apply links_evolve_on, ls_arrive.
  - apply links_evolve_on, ls_eof.
Qed.

Lemma transport_run_config t ops : t_config (transport_run t ops) = t_config t.
Proof.
  unfold transport_run. revert t. induction ops as [|o ops IH]; intros t; simpl; [done|].
  by rewrite IH, transport_step_config.
Qed.

Lemma transport_run_evolve t ops :
  max_message_size (t_config t) = max_size -> links_evolve t (transport_run t ops).
Proof.
  unfold transport_run. revert t. induction ops as [|o ops IH]; intros t Hmax; simpl; [by apply links_evolve_same|].
  eapply links_evolve_trans; [by apply transport_step_evolve|]. apply IH. by rewrite transport_step_config.
Qed.

(** A property of links that holds of new ones and survives every change
    holds of every link of every run. *)
Lemma link_invariant (P : Link -> Prop) t ops :
  (forall id, P (new_link id)) -> (forall l l', link_step l l' -> P l -> P l') ->
  max_message_size (t_config t) = max_size -> links t = [] ->
  forall k l, links (transport_run t ops) !! k = Some l -> P l.
Proof.
  intros Hnew Hstep Hmax Hnil k l Hl. destruct (transport_run_evolve t ops Hmax) as [_ He].
  destruct (He k l Hl) as (l0 & Hs & [Hl0|[_ [id ->]]]); [by rewrite Hnil in Hl0|].
  pose proof (Hnew id) as HP. induction Hs as [|x y z Hxy _ IH]; eauto.
Qed.

(** What a link's history says of its two directions. *)
Record link_ok (l : Link) : Prop := {
  lo_written : lk_written l `prefix_of` concat (frame <$> (NetworkMessage_to_bytes <$> lk_sent l));
  lo_queued : lk_writer l = true ->
    lk_written l ++ concat (frame <$> lk_queue l) = concat (frame <$> (NetworkMessage_to_bytes <$> lk_sent l));
  lo_read : exists ds, reads max_size (lk_arrived l) ds (lk_inbox l) /\
    omap NetworkMessage_from_bytes ds = lk_forwarded l ++ option_list (lk_held l)
}.

Lemma link_ok_new id : link_ok (new_link id).
Proof. split; simpl; [done|done|]. exists []. split; [constructor|done]. Qed.

Lemma link_ok_step l l' : link_step l l' -> link_ok l -> link_ok l'.
Proof.
  destruct 1 as [m l Hw|fail l|l|m l Hh|data rest l Hh Hf|l|data l|l]; intros Hok; pose proof Hok as [Hp Hq (ds & Hr & Hd)].
  - split; simpl; [| |by exists ds].
    + rewrite !fmap_app, concat_app. by apply prefix_app_r.
    + intros _. rewrite !fmap_app, !concat_app, app_assoc, Hq by done. done.
  - unfold writer_turn. destruct (lk_writer l) eqn:Hw; [|done].
    destruct (lk_queue l) as [|data q] eqn:Hlq; [done|].
    specialize (Hq eq_refl). rewrite fmap_cons in Hq. cbn [concat] in Hq.
    destruct fail as [n|]; split; simpl; eauto; try done.
    + rewrite <- Hq. apply prefix_app. rewrite <- (take_drop n (frame data)) at 2. rewrite <- app_assoc. by apply prefix_app_r.
    + rewrite <- Hq, app_assoc. by apply prefix_app_r.
    + intros _. by rewrite <- app_assoc.
  - unfold writer_close. destruct (lk_queue l) eqn:Hlq; [|done]. split; simpl; eauto; done.
  - split; simpl; eauto. exists ds. split; [done|]. by rewrite Hd, Hh, app_nil_r.
  - split; simpl; eauto. exists (ds ++ [data]). split; [by eapply reads_snoc|].
    rewrite omap_app, Hd, Hh. simpl. rewrite app_nil_r. by destruct (NetworkMessage_from_bytes data).
  - split; simpl; eauto; done.
  - unfold link_arrive. destruct (lk_eof l); split; simpl; eauto. exists ds. split; [by apply reads_more|done].
  - split; simpl; eauto.
Qed.
End link_steps.

(** ** In-order delivery *)

Section delivery.
Context `{Hashes} `{BincodeOk}.

(** A message that can be serialised, that the receiver's limit admits and
    whose length fits the prefix. *)
Definition deliverable (max_size : Z) (m : NetworkMessage) : Prop :=
  exists b, bincode_serialize m = Some b /\ fits max_size b.

Lemma deliverable_fits max_size ms :
  Forall (deliverable max_size) ms -> Forall (fits max_size) (NetworkMessage_to_bytes <$> ms).
Proof.
  rewrite Forall_fmap. intros Hd. eapply Forall_impl; [exact Hd|]. intros m (b & Hb & Hf). unfold NetworkMessage_to_bytes. simpl. by rewrite Hb.
Qed.

Lemma deliverable_parse max_size ms :
  Forall (deliverable max_size) ms -> omap NetworkMessage_from_bytes (NetworkMessage_to_bytes <$> ms) = ms.
Proof.
  induction 1 as [|m ms (b & Hb & _) _ IH]; [done|]. rewrite fmap_cons. unfold NetworkMessage_to_bytes at 1. rewrite Hb.
  simpl. unfold NetworkMessage_from_bytes at 1. rewrite (bincode_roundtrip m b Hb). by f_equal.
Qed.

Lemma deliverable_app max_size a b :
  Forall (deliverable max_size) (a ++ b) -> Forall (deliverable max_size) a /\ Forall (deliverable max_size) b.
Proof. by rewrite Forall_app. Qed.

(** What the far end of a link has forwarded or holds, from what has arrived. *)
Lemma arrived_parse max_size (sent : list NetworkMessage) arrived ds rest z :
  Forall (deliverable max_size) sent -> reads max_size arrived ds rest ->
  arrived ++ z = concat (frame <$> (NetworkMessage_to_bytes <$> sent)) ->
  exists more, sent = omap NetworkMessage_from_bytes ds ++ more /\
    rest ++ z = concat (frame <$> (NetworkMessage_to_bytes <$> more)).
Proof.
  intros Hd Hr Ha. destruct (reads_frames _ _ _ _ z _ Hr (deliverable_fits _ _ Hd) Ha) as (more & Hm & Hz).
  apply fmap_app_inv in Hm as (s1 & s2 & -> & -> & ->).
  apply deliverable_app in Hd as [Hd1 Hd2]. exists s2. split; [by rewrite (deliverable_parse _ _ Hd1)|done].
Qed.

Lemma run_link_ok id p c ops k l :
  links (transport_run (TcpTransport_new id p c) ops) !! k = Some l -> link_ok (max_message_size c) l.
Proof.
  apply (link_invariant (max_message_size c) (link_ok (max_message_size c))); [apply link_ok_new|apply link_ok_step|done|done].
Qed.

(** C12: the transport carries messages in order and unchanged.  Take a link of
    one transport and a link of another, after any interleaving of operations
    and task steps on each, such that the bytes that have arrived at the
    second are a prefix of those written by the first: if every message
    accepted by the first can be serialised and is within the second's size
    limit, then the messages forwarded by the second are a prefix of them; and
    once the first has written everything, all of it has arrived and the
    second has nothing left to read, they are all of them. *)
Theorem transport_fifo (id1 id2 : PeerId) (p1 p2 : PeerManager) (c1 c2 : TransportConfig)
    (ops1 ops2 : list TransportOp) (k j : nat) (l1 l2 : Link) :
  links (transport_run (TcpTransport_new id1 p1 c1) ops1) !! k = Some l1 ->
  links (transport_run (TcpTransport_new id2 p2 c2) ops2) !! j = Some l2 ->
  lk_arrived l2 `prefix_of` lk_written l1 ->
  Forall (deliverable (max_message_size c2)) (lk_sent l1) ->
  lk_forwarded l2 `prefix_of` lk_sent l1 /\
  (lk_writer l1 = true -> lk_queue l1 = [] -> lk_arrived l2 = lk_written l1 ->
   lk_held l2 = None -> read_frame (max_message_size c2) (lk_inbox l2) = FrameShort ->
   lk_forwarded l2 = lk_sent l1).
Proof.
  intros Hk Hj Hpre Hd.
  destruct (run_link_ok _ _ _ _ _ _ Hk) as [Hw Hq _].
  destruct (run_link_ok _ _ _ _ _ _ Hj) as [_ _ (ds & Hr & Hds)].
  destruct (transitivity Hpre Hw) as [z Hz]. symmetry in Hz.
  destruct (arrived_parse _ _ _ _ _ _ Hd Hr Hz) as (more & Hsent & Hrest). split.
  { rewrite Hsent, Hds, <- app_assoc. by apply prefix_app_r. }
  intros Hwr Hqn Harr Hh Hshort. specialize (Hq Hwr). rewrite Hqn, app_nil_r in Hq.
  rewrite Harr, Hq in Hz. rewrite <- (app_nil_r (concat _)) in Hz at 2. apply app_inv_head in Hz as ->.
  rewrite app_nil_r in Hrest. rewrite Hsent in Hd. apply Forall_app in Hd as [_ Hd].
  destruct more as [|m more]; [by rewrite Hsent, Hds, Hh, !app_nil_r|]. exfalso.
  apply deliverable_fits in Hd. rewrite fmap_cons in Hd, Hrest. inversion_clear Hd as [|? ? Hfit _].
  rewrite fmap_cons in Hrest. cbn [concat] in Hrest. rewrite Hrest, read_frame_frame in Hshort by done. done.
Qed.

(** ** The reader ends its work *)

Definition reader_turns (n : nat) (now : Z) (t : TcpTransport) (k : nat) : TcpTransport :=
  Nat.iter n (fun t => reader_turn now t k) t.

(** The reader has stopped, or waits for bytes that have not arrived. *)
Definition reader_idle (t : TcpTransport) (k : nat) : Prop :=
  exists l, links t !! k = Some l /\
    (lk_reader l = false \/
     lk_held l = None /\ lk_eof l = false /\ read_frame (max_message_size (t_config t)) (lk_inbox l) = FrameShort).

Definition held_count (l : Link) : nat := match lk_held l with Some _ => 1 | None => 0 end.
Definition reader_work (l : Link) : nat := 2 * length (lk_inbox l) + held_count l.
Definition reader_room (t : TcpTransport) (l : Link) : nat := length (incoming t) + held_count l + length (lk_inbox l).

Lemma reader_idle_turns n now t k : reader_idle t k -> reader_turns n now t k = t.
Proof.
  intros Hi. induction n as [|n IH]; [done|]. change (reader_turns (S n) now t k) with (reader_turn now (reader_turns n now t k) k). rewrite IH.
  destruct Hi as (l & Hl & Hi). unfold reader_turn. rewrite Hl. destruct Hi as [->|(Hh & He & Hf)]; [done|].
  case_bool; [done|]. by rewrite Hh, Hf, He.
Qed.

(** One turn of a reader leaves it idle or with less work, and needs no more
    room in the incoming channel than before. *)
Lemma reader_turn_progress now t k l :
  links t !! k = Some l -> (reader_room t l <= incoming_capacity)%nat ->
  reader_idle (reader_turn now t k) k \/
  exists l', links (reader_turn now t k) !! k = Some l' /\
    (reader_work l' < reader_work l)%nat /\ (reader_room (reader_turn now t k) l' <= reader_room t l)%nat.
Proof.
  intros Hl Hroom. pose proof (lookup_lt_Some _ _ _ Hl) as Hlt. unfold reader_turn. rewrite Hl.
  destruct (lk_reader l) eqn:Hr; [|left; exists l; auto]. cbn [negb]. cbv zeta.
  unfold reader_room, held_count in *. destruct (lk_held l) as [m|] eqn:Hh; rewrite ?Hh in Hroom.
  - right. exists (link_forward m l). unfold reader_work, held_count. rewrite Hh. case_bool.
    { simpl. rewrite list_lookup_insert_eq by done. split; [done|lia]. }
    case_bool; bool_to_prop; [lia|]. simpl. rewrite list_lookup_insert_eq, length_app by done. simpl. split; [done|lia].
  - destruct (read_frame _ _) as [| |data rest] eqn:Hf.
    + left. destruct (lk_eof l) eqn:He; [|exists l; auto].
      exists (reader_stop l). simpl. rewrite list_lookup_insert_eq by done. auto.
    + left. exists (reader_stop l). simpl. rewrite list_lookup_insert_eq by done. auto.
    + right. apply read_frame_consumes in Hf as [Hlen _]. unfold reader_work, held_count. rewrite Hh.
      destruct (NetworkMessage_from_bytes data) as [m|]; simpl; rewrite list_lookup_insert_eq by done;
        eexists; (split; [done|]); simpl; lia.
Qed.

(** C21: the reader's loop does not spin: whatever bytes have arrived, a
    bounded number of turns (two per byte, and one for a message in hand)
    brings it to an end or to waiting for more bytes, provided the incoming
    channel has room for what the bytes can hold; more turns change nothing. *)
Theorem reader_terminates (now : Z) (t : TcpTransport) (k : nat) (l : Link) (n : nat) :
  links t !! k = Some l -> (reader_room t l <= incoming_capacity)%nat ->
  (reader_work l < n)%nat -> reader_idle (reader_turns n now t k) k.
Proof.
  intros Hl Hroom Hn. remember (reader_work l) as w eqn:Hw. revert t l n Hl Hroom Hw Hn.
  induction (lt_wf w) as [w _ IH]. intros t l n Hl Hroom -> Hn. destruct n as [|n]; [lia|].
  unfold reader_turns. rewrite Nat.iter_succ_r. fold (reader_turns n now (reader_turn now t k) k).
  destruct (reader_turn_progress now t k l Hl Hroom) as [Hi|(l' & Hl' & Hlt & Hr)].
  - by rewrite reader_idle_turns.
  - apply (IH (reader_work l') Hlt _ l'); [done|lia|done|lia].
Qed.
End delivery.

(** ** The connection table *)

Section table.
Context `{Hashes} `{Bincode}.

(** Every connection is filed under its peer and its channel leads to a link
    set up for that peer, so no two connections share a link. *)
Definition connections_ok (t : TcpTransport) : Prop :=
  forall id c, connections t !! id = Some c ->
    conn_peer_id c = id /\ exists l, links t !! conn_sender c = Some l /\ lk_peer l = id.

(** What a step of a link leaves alone: its peer, and a writer that is gone. *)
Lemma link_step_stable max_size l l' :
  rtc (link_step max_size) l l' -> lk_peer l' = lk_peer l /\ (lk_writer l = false -> lk_writer l' = false).
Proof.
  induction 1 as [|l1 l2 l3 Hs _ [-> IH]]; [done|]. cut (lk_peer l2 = lk_peer l1 /\ (lk_writer l1 = false -> lk_writer l2 = false)).
  { intros [-> Hw]. auto. }
  destruct Hs as [m l Hw|fail l|l|m l Hh|data rest l Hh Hf|l|data l|l]; simpl;
    try done; unfold writer_turn, writer_close, link_arrive; repeat case_match; simpl; try done; congruence.
Qed.

(** A link of [t] is still there, as a later form of itself. *)
Lemma links_evolve_fwd max_size t t' k l :
  links_evolve max_size t t' -> links t !! k = Some l -> exists l', links t' !! k = Some l' /\ rtc (link_step max_size) l l'.
Proof.
  intros [Hn He] Hl. pose proof (lookup_lt_Some _ _ _ Hl) as Hlt.
  destruct (lookup_lt_is_Some_2 (links t') k) as [l' Hl']; [lia|]. exists l'. split; [done|].
  destruct (He k l' Hl') as (l0 & Hs & [Hl0|[Hk _]]); [by simplify_eq|lia].
Qed.

(** The table after a step: entries are old ones, or lead to a new link. *)
Lemma send_connections now t id m : connections (TcpTransport_send now t id m).1 = connections t.
Proof. unfold TcpTransport_send. repeat case_match; done. Qed.

Lemma broadcast_connections now t ids m n : connections (broadcast_poll now t ids m n).1 = connections t.
Proof.
  revert t n. induction ids as [|id ids IH]; intros t n; simpl; [done|].
  pose proof (send_connections now t id m). destruct (TcpTransport_send now t id m) as [t' [|[|]]]; simpl in *; [done|..]; by rewrite IH.
Qed.

Lemma setup_connections_ok now t id :
  connections_ok t -> connections_ok (TcpTransport_setup_connection now t id).
Proof.
  intros Ht id' c. simpl. rewrite lookup_insert_Some. intros [[<- <-]|[Hne Hc]]; simpl.
  - split; [done|]. exists (new_link id). by rewrite lookup_app_r, Nat.sub_diag by lia.
  - destruct (Ht id' c Hc) as (Hid & l & Hl & Hp). split; [done|]. exists l. split; [|done]. by apply lookup_app_l_Some.
Qed.

Lemma connections_ok_evolve max_size t t' :
  connections_ok t -> connections t' ⊆ connections t -> links_evolve max_size t t' -> connections_ok t'.
Proof.
  intros Ht Hsub He id c Hc. destruct (Ht id c) as (Hid & l & Hl & Hp); [by eapply lookup_weaken|].
  split; [done|]. destruct (links_evolve_fwd _ _ _ _ _ He Hl) as (l' & Hl' & Hs). exists l'. split; [done|].
  by rewrite (proj1 (link_step_stable _ _ _ Hs)).
Qed.

(** Steps that open no connection leave the table as it is or smaller. *)
Definition opens (o : TransportOp) : bool := match o with OpConnect _ _ _ _ | OpAccept _ _ => true | _ => false end.

Lemma step_connections t o : opens o = false -> connections (transport_step t o) ⊆ connections t.
Proof.
  destruct o; intros Ho; try discriminate Ho; simpl; try done.
  - by rewrite send_connections.
  - unfold TcpTransport_broadcast. by rewrite broadcast_connections.
  - apply delete_subseteq.
  - unfold on_link. by case_match.
  - case_match; [done|]. unfold on_link. by case_match.
  - unfold reader_turn. repeat case_match; done.
  - unfold on_link. by case_match.
  - unfold on_link. by case_match.
Qed.

Lemma connections_ok_peers t p : connections_ok t -> connections_ok (set_t_peers p t).
Proof. done. Qed.

Lemma transport_step_connections_ok t o : connections_ok t -> connections_ok (transport_step t o).
Proof.
  intros Ht. destruct (opens o) eqn:Ho.
  - destruct o; try discriminate Ho; simpl; [|by apply setup_connections_ok].
    unfold TcpTransport_connect. case_bool; [done|]. cbv zeta. destruct outcome; simpl; [by apply setup_connections_ok|done..].
  - eapply connections_ok_evolve; [done|by apply step_connections|]. by apply transport_step_evolve.
Qed.

(** After any interleaving of operations and task steps, every connection
    in the table is filed under its own peer and its channel leads to a link
    of that peer, so that two connections never share a link; what is sent to
    a peer can only reach a socket opened for it. *)
Theorem connection_table_invariant (local_id : PeerId) (p : PeerManager) (config : TransportConfig) (ops : list TransportOp) :
  let t := transport_run (TcpTransport_new local_id p config) ops in
  connections_ok t /\
  forall id1 id2 c1 c2, connections t !! id1 = Some c1 -> connections t !! id2 = Some c2 ->
    conn_sender c1 = conn_sender c2 -> id1 = id2.
Proof.
  intros t. assert (connections_ok t) as Hok.
  { unfold t, transport_run. assert (connections_ok (TcpTransport_new local_id p config)) as Hnew by (intros ? ? Hc; done).
    revert Hnew. generalize (TcpTransport_new local_id p config). induction ops as [|o ops IH]; intros t0 H0'; simpl; [done|].
    by apply IH, transport_step_connections_ok. }
  split; [done|]. intros id1 id2 c1 c2 H1 H2 E.
  destruct (Hok _ _ H1) as (_ & l1 & Hl1 & <-). destruct (Hok _ _ H2) as (_ & l2 & Hl2 & <-). congruence.
Qed.

(** ** Dead links stay in the table *)

(** The steps that could replace or remove the connection of [id]. *)
Definition reopens (id : PeerId) (o : TransportOp) : bool :=
  match o with
  | OpDisconnect _ id' => bool_decide (id' = id)
  | OpAccept _ addr => bool_decide (TcpTransport_addr_to_peer_id addr = id)
  | _ => false
  end.

Definition dead_connection (t : TcpTransport) (id : PeerId) (c : Connection) : Prop :=
  connections t !! id = Some c /\ exists l, links t !! conn_sender c = Some l /\ lk_writer l = false.

Lemma dead_connection_step t o id c :
  reopens id o = false -> dead_connection t id c -> dead_connection (transport_step t o) id c.
Proof.
  intros Ho [Hc (l & Hl & Hw)]. split.
  - destruct o; simpl in *; bool_to_prop; try done.
    + by rewrite send_connections.
    + unfold TcpTransport_broadcast. by rewrite broadcast_connections.
    + unfold TcpTransport_connect, TcpTransport_is_connected. case_bool; [done|]. bool_to_prop.
      assert (id0 <> id) by (intros ->; rewrite Hc in *; naive_solver). cbv zeta.
      destruct outcome; [simpl; by rewrite lookup_insert_ne|done..].
    + by rewrite lookup_insert_ne.
    + by rewrite lookup_delete_ne.
    + unfold on_link. by case_match.
    + case_match; [done|]. unfold on_link. by case_match.
    + unfold reader_turn. repeat case_match; done.
    + unfold on_link. by case_match.
    + unfold on_link. by case_match.
  - destruct (links_evolve_fwd _ _ _ _ _ (transport_step_evolve _ t o eq_refl) Hl) as (l' & Hl' & Hs).
    exists l'. split; [done|]. by apply (link_step_stable _ _ _ Hs).
Qed.

(** C34: when a link's tasks have ended (the reader breaks at the end of the
    stream or at an oversized frame and aborts the writer), nothing removes
    the connection from the table.  Whatever happens next short of an explicit
    [disconnect] or an incoming connection with the same id, the peer counts
    as connected, [connect] reports success without connecting, and every
    [send] fails. *)
Theorem dead_link_is_kept (t : TcpTransport) (id : PeerId) (c : Connection) (ops : list TransportOp) :
  dead_connection t id c -> Forall (fun o => reopens id o = false) ops ->
  let t' := transport_run t ops in
  TcpTransport_is_connected t' id = true /\
  (forall now addr outcome, TcpTransport_connect now t' id addr outcome = (t', inl ())) /\
  (forall now m, TcpTransport_send now t' id m = (t', Ready (inr BrokenPipe))).
Proof.
  intros Hd Hops t'. assert (dead_connection t' id c) as (Hc & l & Hl & Hw).
  { unfold t', transport_run. revert t Hd t'. induction Hops as [|o ops Ho _ IH]; intros t Hd; simpl; [done|].
    by apply IH, dead_connection_step. }
  assert (TcpTransport_is_connected t' id = true) as Hcon.
  { unfold TcpTransport_is_connected. rewrite Hc. by apply bool_decide_eq_true. }
  split_and!; [done| |].
  - intros. unfold TcpTransport_connect. by rewrite Hcon.
  - intros. unfold TcpTransport_send. by rewrite Hc, Hl, Hw.
Qed.

(** The reader of a link stops at a frame longer than the limit, and with it
    the writer: nothing that arrived after the oversized frame is forwarded. *)
Theorem oversized_frame_stops (now : Z) (t : TcpTransport) (k : nat) (l : Link) :
  links t !! k = Some l -> lk_reader l = true -> lk_held l = None ->
  read_frame (max_message_size (t_config t)) (lk_inbox l) = FrameTooLarge ->
  exists l', links (reader_turn now t k) !! k = Some l' /\ lk_reader l' = false /\ lk_writer l' = false /\
    lk_forwarded l' = lk_forwarded l /\ connections (reader_turn now t k) = connections t.
Proof.
  intros Hl Hr Hh Hf. unfold reader_turn. rewrite Hl, Hr, Hh, Hf. simpl. exists (reader_stop l).
  rewrite list_lookup_insert_eq by by eapply lookup_lt_Some. done.
Qed.

(** ** No limit on connections *)

Definition accept_all (t : TcpTransport) (conns : list (Z * SocketAddr)) : TcpTransport :=
  transport_run t ((fun '(now, addr) => OpAccept now addr) <$> conns).

Lemma add_peer_max now m id addr : max_peers (PeerManager_add_peer now m id addr).1 = max_peers m.
Proof. unfold PeerManager_add_peer. repeat case_match; done. Qed.

Lemma set_state_ok now m id st : peers_ok m -> peers_ok (PeerManager_set_state now m id st).
Proof. apply (peer_step_ok m (SetState now id st)). Qed.

Lemma set_state_max now m id st : max_peers (PeerManager_set_state now m id st) = max_peers m.
Proof. unfold PeerManager_set_state, with_peer. by case_match. Qed.

(** Incoming connections are accepted without limit: with room for
    [max_peers] peers, any number of connections from addresses with distinct
    ids are all entered in the connection table, while the peer table never
    grows beyond its limit and the rejections of [add_peer] are ignored. *)
Theorem connections_unlimited (local_id : PeerId) (max : nat) (config : TransportConfig) (conns : list (Z * SocketAddr)) :
  NoDup ((fun na : Z * SocketAddr => TcpTransport_addr_to_peer_id na.2) <$> conns) ->
  let t := accept_all (TcpTransport_new local_id (PeerManager_new local_id max) config) conns in
  TcpTransport_connection_count t = length conns /\ (PeerManager_peer_count (t_peers t) <= max)%nat.
Proof.
  intros Hnd t.
  assert (forall t0, peers_ok (t_peers t0) -> max_peers (t_peers t0) = max ->
    (forall na : Z * SocketAddr, na ∈ conns -> connections t0 !! TcpTransport_addr_to_peer_id na.2 = None) ->
    TcpTransport_connection_count (accept_all t0 conns) = (TcpTransport_connection_count t0 + length conns)%nat /\
    peers_ok (t_peers (accept_all t0 conns)) /\ max_peers (t_peers (accept_all t0 conns)) = max) as Hgen.
  { clear t. induction conns as [|[now addr] conns IH]; intros t0 Hok Hm Hnone; [simpl; auto with lia|].
    rewrite fmap_cons in Hnd. apply NoDup_cons in Hnd as [Hnin Hnd]. simpl in Hnin.
    change (accept_all t0 ((now, addr) :: conns)) with (accept_all (listen_accept now t0 addr) conns).
    destruct (IH Hnd (listen_accept now t0 addr)) as (Hc & Hp & Hx).
    - simpl. by apply set_state_ok, peers_ok_add.
    - simpl. by rewrite set_state_max, add_peer_max.
    - intros na Hna. simpl. rewrite lookup_insert_ne; [apply Hnone; by right|]. intros E. apply Hnin. rewrite E.
      by apply (list_elem_of_fmap_2 (fun na : Z * SocketAddr => TcpTransport_addr_to_peer_id na.2)).
    - split_and!; [|done..]. rewrite Hc. unfold TcpTransport_connection_count. simpl.
      rewrite map_size_insert_None; [lia|]. apply (Hnone (now, addr)). left. }
  destruct (Hgen (TcpTransport_new local_id (PeerManager_new local_id max) config)) as (Hc & [Hs _ _] & Hm); [apply peers_ok_new|done|done|].
  fold t in Hc, Hs, Hm. rewrite Hc. split; [done|]. unfold PeerManager_peer_count. lia.
Qed.

(** A ban does not outlive a new connection: setting one up marks the peer
    connected whatever its state was. *)
Theorem connection_lifts_ban (now : Z) (t : TcpTransport) (id : PeerId) (p : PeerInfo) :
  peers (t_peers t) !! id = Some p ->
  pi_state <$> peers (t_peers (TcpTransport_setup_connection now t id)) !! id = Some Connected.
Proof.
  intros Hp. simpl. unfold PeerManager_set_state, with_peer. rewrite Hp. simpl. by rewrite lookup_insert_eq.
Qed.
(** ** Broadcasting *)

Definition connection_link (t : TcpTransport) (id : PeerId) : option Link :=
  c ← connections t !! id; links t !! conn_sender c.

Definition live (t : TcpTransport) (id : PeerId) : bool :=
  match connection_link t id with Some l => lk_writer l | None => false end.

(** No channel of the table is full. *)
Definition has_room (t : TcpTransport) : Prop :=
  forall id l, connection_link t id = Some l -> (length (lk_queue l) < outgoing_capacity)%nat.

Definition offer (m : NetworkMessage) (l : Link) : Link :=
  if lk_writer l then link_enqueue m (NetworkMessage_to_bytes m) l else l.

(** A send to a connected peer offers the message to that peer's link and
    leaves every other link alone. *)
Lemma send_links now t id m l :
  connections_ok t -> connection_link t id = Some l -> (length (lk_queue l) < outgoing_capacity)%nat ->
  (TcpTransport_send now t id m).2 = Ready (if lk_writer l then inl () else inr BrokenPipe) /\
  forall id', connection_link (TcpTransport_send now t id m).1 id' =
    if decide (id' = id) then Some (offer m l) else connection_link t id'.
Proof.
  unfold connection_link. intros Hok Hl Hroom. destruct (connections t !! id) as [c|] eqn:Hc; [|done]. simpl in Hl.
  unfold TcpTransport_send, offer. rewrite Hc, Hl. destruct (lk_writer l) eqn:Hw; cbn [negb].
  - destruct (_ <=? _)%nat eqn:E; bool_to_prop; [lia|]. split; [done|]. intros id'. simpl.
    case_decide as Hid; [subst id'; rewrite Hc; simpl; by rewrite list_lookup_insert_eq by by eapply lookup_lt_Some|].
    destruct (connections t !! id') as [c'|] eqn:Hc'; [|done]. simpl.
    apply list_lookup_insert_ne. intros E'. apply Hid.
    destruct (Hok id c Hc) as (_ & l1 & Hl1 & <-). destruct (Hok id' c' Hc') as (_ & l2 & Hl2 & <-). congruence.
  - split; [done|]. intros id'. simpl. case_decide as Hid; [|done]. subst id'. by rewrite Hc.
Qed.

Lemma send_connections_ok now t id m : connections_ok t -> connections_ok (TcpTransport_send now t id m).1.
Proof. apply (transport_step_connections_ok t (OpSend now id m)). Qed.

Lemma live_after_send now t id m l (ids : list (list Z)) :
  connections_ok t -> connection_link t id = Some l -> (length (lk_queue l) < outgoing_capacity)%nat -> id ∉ ids ->
  filter (fun id' => live (TcpTransport_send now t id m).1 id' = true) ids = filter (fun id' => live t id' = true) ids.
Proof.
  intros Hok Hl Hr Hnin. destruct (send_links now t id m l Hok Hl Hr) as [_ Hlinks].
  induction ids as [|x ids IH]; [done|].
  assert (live (TcpTransport_send now t id m).1 x = live t x) as Ex.
  { unfold live. rewrite Hlinks. by rewrite (decide_False (P := x = id)) by set_solver. }
  rewrite !filter_cons, IH by set_solver. repeat case_decide; congruence.
Qed.

(** The loop of [broadcast] over part of the table. *)
Lemma broadcast_poll_spec now m (ids : list (list Z)) t n :
  connections_ok t -> NoDup ids ->
  (forall id, id ∈ ids -> exists l, connection_link t id = Some l /\ (length (lk_queue l) < outgoing_capacity)%nat) ->
  (broadcast_poll now t ids m n).2 = ([], n + length (filter (fun id => live t id = true) ids))%nat /\
  forall id, connection_link (broadcast_poll now t ids m n).1 id =
    if decide (id ∈ ids) then offer m <$> connection_link t id else connection_link t id.
Proof.
  revert t n. induction ids as [|id ids IH]; intros t n Hok Hnd Hin.
  { simpl. rewrite Nat.add_0_r. split; [done|]. done. }
  apply NoDup_cons in Hnd as [Hnin Hnd]. destruct (Hin id) as (l & Hl & Hr); [left|].
  destruct (send_links now t id m l Hok Hl Hr) as [Hres Hlinks]. pose proof (live_after_send now t id m l ids Hok Hl Hr Hnin) as Hlive.
  destruct (IH (TcpTransport_send now t id m).1 (if lk_writer l then S n else n)) as [Hcnt Hfin];
    [by apply send_connections_ok|done| |].
  { intros id' Hid'. rewrite Hlinks, decide_False by (intros ->; done). apply Hin. by right. }
  rewrite Hlive in Hcnt. cbn [broadcast_poll]. rewrite filter_cons.
  assert (live t id = lk_writer l) as Hw by (unfold live; by rewrite Hl).
  assert (forall id', (if decide (id' ∈ ids) then offer m <$> connection_link (TcpTransport_send now t id m).1 id'
     else connection_link (TcpTransport_send now t id m).1 id') =
    if decide (id' ∈ id :: ids) then offer m <$> connection_link t id' else connection_link t id') as Hjoin.
  { intros id'. rewrite Hlinks. destruct (decide (id' = id)) as [->|Hne].
    - rewrite (decide_False (P := id ∈ ids)), decide_True by (done || left). by rewrite Hl.
    - destruct (decide (id' ∈ ids)); [rewrite decide_True by by right|rewrite decide_False by (rewrite elem_of_cons; naive_solver)]; done. }
  destruct (TcpTransport_send now t id m) as [t' r]. simpl in Hres, Hcnt, Hfin, Hjoin. subst r.
  rewrite Hw. destruct (lk_writer l); simpl; (split; [rewrite Hcnt; f_equal; simpl; lia|]; intros id'; by rewrite Hfin, Hjoin).
Qed.

Lemma elem_of_connection_ids t id : id ∈ connection_ids t <-> is_Some (connections t !! id).
Proof.
  unfold connection_ids. rewrite list_elem_of_fmap. split.
  - intros ([i c] & -> & Hic). exists c. by apply elem_of_map_to_list.
  - intros [c Hc]. exists (id, c). split; [done|]. by apply elem_of_map_to_list.
Qed.

(** C27: when no channel is full, a broadcast finishes at once: whatever order
    the connections are read in, the message is queued exactly once on every
    connection whose writer is alive, on no other, and the count returned is
    the number of them. *)
Theorem broadcast_reaches_all (now : Z) (t : TcpTransport) (order : list PeerId) (m : NetworkMessage) :
  connections_ok t -> has_room t -> order ≡ₚ connection_ids t ->
  (TcpTransport_broadcast now t order m).2 = ([], length (filter (fun id => live t id = true) order)) /\
  forall id, connection_link (TcpTransport_broadcast now t order m).1 id = offer m <$> connection_link t id.
Proof.
  intros Hok Hroom Hord. destruct (broadcast_poll_spec now m order t 0 Hok) as [Hcnt Hfin].
  - rewrite Hord. apply NoDup_fst_map_to_list.
  - intros id. rewrite Hord, elem_of_connection_ids. intros [c Hc]. destruct (Hok id c Hc) as (_ & l & Hl & _). exists l.
    assert (connection_link t id = Some l) as E by (unfold connection_link; by rewrite Hc). split; [done|]. by apply (Hroom id).
  - split; [done|]. intros id. unfold TcpTransport_broadcast. rewrite Hfin. case_decide as Hd; [done|].
    rewrite Hord, elem_of_connection_ids in Hd. unfold connection_link.
    destruct (connections t !! id); [|done]. exfalso. by apply Hd.
Qed.
End table.

(** ** Witnesses

    A codec for pings, two transports that exchange three of them, and a link
    that dies at an oversized frame. *)

Definition ping_serialize (m : NetworkMessage) : option bytes :=
  match nm_payload m with
  | Ping n =>
      if (nm_version m =? 1) && (length (nm_message_id m) =? 16)%nat && (length (nm_sender m) =? 32)%nat && (0 <=? n) && (n <? u64_bound)
      then Some (nm_message_id m ++ nm_sender m ++ be_bytes 8 n)
      else None
  | _ => None
  end.

Definition ping_deserialize (b : bytes) : option NetworkMessage :=
  if (length b =? 56)%nat
  then Some (mkMessage 1 (take 16 b) (take 32 (drop 16 b)) (Ping (of_be_bytes (drop 48 b))))
  else None.

Definition ping_codec : Bincode := {| bincode_serialize := ping_serialize; bincode_deserialize := ping_deserialize |}.

Lemma ping_codec_ok : @BincodeOk ping_codec.
Proof.
  split. intros [v id s p] b. simpl. unfold ping_serialize. simpl. destruct p; try done.
  case_bool; [|done]. bool_to_prop. intros [= <-]. unfold ping_deserialize.
  rewrite !length_app, length_be_bytes. replace (length id + (length s + 8))%nat with 56%nat by lia.
  cbn [Nat.eqb]. rewrite take_app_length' by lia. rewrite drop_app_length' by lia. rewrite take_app_length' by lia.
  rewrite app_assoc, drop_app_length' by (rewrite length_app; lia).
  rewrite of_be_be_bytes; [by subst|]. unfold u64_bound in *. simpl. lia.
Qed.

Definition ping (n : Z) : NetworkMessage := mkMessage 1 (replicate 16 n) (peer_id 1) (Ping n).

Definition transport_config : TransportConfig := mkTransportConfig (peer_addr 30303) 1000 5000.

Definition peer_transport (n : Z) : TcpTransport :=
  TcpTransport_new (peer_id n) (PeerManager_new (peer_id n) 2) transport_config.

Definition sender_ops : list TransportOp :=
  [OpConnect 1 (peer_id 2) (peer_addr 1) ConnectOk; OpSend 2 (peer_id 2) (ping 7); OpWriter 0 None;
   OpSend 3 (peer_id 2) (ping 8); OpSend 3 (peer_id 2) (ping 9); OpWriter 0 None; OpWriter 0 None].

Definition sender_end : TcpTransport := @transport_run checksum_hashes ping_codec (peer_transport 1) sender_ops.
Definition sender_link : Link := default (new_link []) (links sender_end !! 0%nat).

(** The bytes arrive in pieces that do not respect the frames. *)
Definition receiver_ops : list TransportOp :=
  [OpAccept 4 (peer_addr 2); OpArrive 0 (take 3 (lk_written sender_link)); OpReader 5 0;
   OpArrive 0 (take 70 (drop 3 (lk_written sender_link))); OpReader 6 0; OpReader 6 0; OpReader 7 0;
   OpArrive 0 (drop 73 (lk_written sender_link)); OpReader 8 0; OpReader 8 0; OpReader 8 0; OpReader 8 0; OpReader 9 0].

Definition receiver_end : TcpTransport := @transport_run checksum_hashes ping_codec (peer_transport 2) receiver_ops.
Definition receiver_link : Link := default (new_link []) (links receiver_end !! 0%nat).

Lemma transport_fifo_witness :
  lk_forwarded receiver_link = [ping 7; ping 8; ping 9] /\ lk_forwarded receiver_link = lk_sent sender_link.
Proof.
  split; [vm_compute; reflexivity|].
  destruct (@transport_fifo checksum_hashes ping_codec ping_codec_ok (peer_id 1) (peer_id 2) (PeerManager_new (peer_id 1) 2)
    (PeerManager_new (peer_id 2) 2) transport_config transport_config sender_ops receiver_ops 0 0 sender_link receiver_link)
    as [_ Hall].
  - vm_compute. reflexivity.
  - vm_compute. reflexivity.
  - exists []. vm_compute. reflexivity.
  - assert (lk_sent sender_link = [ping 7; ping 8; ping 9]) as -> by (vm_compute; reflexivity).
    repeat (apply Forall_cons; split; [eexists; split; [vm_compute; reflexivity|split; vm_compute; [discriminate|reflexivity]]|]).
    apply Forall_nil; exact I.
  - apply Hall; vm_compute; reflexivity.
Defined.

Definition arrived_transport : TcpTransport :=
  @transport_run checksum_hashes ping_codec (peer_transport 2) [OpAccept 4 (peer_addr 2); OpArrive 0 (lk_written sender_link)].

Lemma reader_terminates_witness :
  reader_idle (@reader_turns ping_codec 400 5 arrived_transport 0) 0.
Proof.
  destruct (links arrived_transport !! 0%nat) as [l|] eqn:E; [|vm_compute in E; discriminate].
  apply (@reader_terminates ping_codec 5 arrived_transport 0 l 400); [exact E|..];
    vm_compute in E; injection E as <-; apply Nat.leb_le; vm_compute; reflexivity.
Defined.

Definition dead_transport : TcpTransport :=
  @transport_run checksum_hashes ping_codec (peer_transport 1)
    [OpConnect 1 (peer_id 2) (peer_addr 1) ConnectOk; OpArrive 0 [0; 0; 4; 0]; OpReader 2 0].

Lemma dead_link_is_kept_witness :
  (@TcpTransport_send ping_codec 9
     (@transport_run checksum_hashes ping_codec dead_transport [OpConnect 5 (peer_id 2) (peer_addr 1) ConnectOk; OpWriter 0 None])
     (peer_id 2) (ping 1)).2 = Ready (inr BrokenPipe).
Proof.
  destruct (@dead_link_is_kept checksum_hashes ping_codec dead_transport (peer_id 2) (mkConnection (peer_id 2) 0)
    [OpConnect 5 (peer_id 2) (peer_addr 1) ConnectOk; OpWriter 0 None]) as (_ & _ & Hs).
  - split; [vm_compute; reflexivity|]. eexists. split; [vm_compute; reflexivity|reflexivity].
  - repeat constructor.
  - rewrite Hs. reflexivity.
Defined.

Definition crowd : list (Z * SocketAddr) := (fun n => (n, peer_addr n)) <$> [1; 2; 3; 4; 5].

Lemma connections_unlimited_witness :
  TcpTransport_connection_count (@accept_all checksum_hashes ping_codec (peer_transport 0) crowd) = 5%nat /\
  (PeerManager_peer_count (t_peers (@accept_all checksum_hashes ping_codec (peer_transport 0) crowd)) <= 2)%nat.
Proof.
  apply (@connections_unlimited checksum_hashes ping_codec (peer_id 0) 2 transport_config crowd).
  apply (bool_decide_unpack _). vm_compute. exact I.
Defined.

Definition one_connection : gmap (list Z) Connection := {[peer_id 2 := mkConnection (peer_id 2) 0]}.

Lemma broadcast_reaches_all_witness :
  (@TcpTransport_broadcast ping_codec 6 sender_end [peer_id 2] (ping 3)).2 = ([], 1%nat).
Proof.
  destruct (@broadcast_reaches_all checksum_hashes ping_codec 6 sender_end [peer_id 2] (ping 3)) as [Hc _].
  - intros id c Hc. replace (connections sender_end) with one_connection in Hc by (vm_compute; reflexivity).
    unfold one_connection in Hc. apply lookup_singleton_Some in Hc as [<- <-]. split; [reflexivity|]. exists sender_link. split; vm_compute; reflexivity.
  - intros id l. unfold connection_link.
    replace (connections sender_end) with one_connection by (vm_compute; reflexivity).
    destruct (decide (peer_id 2 = id)) as [<-|Hne]; [|by unfold one_connection; rewrite lookup_singleton_ne].
    unfold one_connection. rewrite lookup_singleton_eq.
    change (links sender_end !! 0%nat = Some l -> (length (lk_queue l) < outgoing_capacity)%nat). intros E. vm_compute in E. injection E as <-. apply Nat.ltb_lt. vm_compute. reflexivity.
  - replace (connection_ids sender_end) with [peer_id 2] by (vm_compute; reflexivity). reflexivity.
  - rewrite Hc. vm_compute. reflexivity.
Defined.
