(* ===== verification/Bls.v ===== *)
(** * BLS signatures: [src/crypto/bls.rs]

    A thin layer over the [blst] crate: keys and signatures are newtypes of
    the crate's, operations fix the domain separation tag and the validation
    flags, and the crate's results are mapped to [BlsError].  The crate is the
    class [Blst]; what its documentation promises of honestly made keys and
    signatures is [BlstOk]. *)

From S2P Require Import Prelude Types Vm.

(** [blst::min_pk], as far as the file uses it; [true] is [BLST_SUCCESS]. *)
Class Blst := {
  blst_sk : Type;
  blst_pk : Type;
  blst_sig : Type;
  blst_agg : Type;
  key_gen : bytes -> bytes -> option blst_sk;
  sk_from_bytes : bytes -> option blst_sk;
  sk_to_bytes : blst_sk -> bytes;
  sk_to_pk : blst_sk -> blst_pk;
  sk_sign : blst_sk -> bytes -> bytes -> bytes -> blst_sig;
  pk_from_bytes : bytes -> option blst_pk;
  pk_to_bytes : blst_pk -> bytes;
  sig_from_bytes : bytes -> option blst_sig;
  sig_to_bytes : blst_sig -> bytes;
  sig_verify : blst_sig -> bool -> bytes -> bytes -> bytes -> blst_pk -> bool -> bool;
  sig_aggregate_verify : blst_sig -> bool -> list bytes -> bytes -> list blst_pk -> bool -> bool;
  agg_from_signature : blst_sig -> blst_agg;
  agg_add_signature : blst_agg -> blst_sig -> bool -> option blst_agg;
  agg_aggregate : list blst_sig -> bool -> option blst_agg;
  agg_to_signature : blst_agg -> blst_sig
}.

(** ** The wrapper *)

Inductive BlsError := InvalidSecretKey | InvalidPublicKey | InvalidSignature | VerificationFailed | EmptyAggregate.

#[global] Instance BlsError_eq_dec : EqDecision BlsError.
Proof. solve_decision. Defined.

Definition DST : bytes := string_bytes "RYTHER-PROTOCOL-V1".

Section wrapper.
Context `{Blst}.

Record SecretKey := mkSecretKey { sk_inner : blst_sk }.
Record PublicKey := mkPublicKey { pk_inner : blst_pk }.
Record Signature := mkSignature { sig_inner : blst_sig }.
Record AggregateSignature := mkAggregate { agg_inner : blst_agg }.

(** [result.map(f).map_err(|_| e)]. *)
Definition map_result {A B} (f : A -> B) (e : BlsError) (r : option A) : B + BlsError :=
  match r with Some x => inl (f x) | None => inr e end.

Definition check_result (ok : bool) : unit + BlsError := if ok then inl () else inr VerificationFailed.

(** [ikm] is what the random generator returns; [None] is the panic of
    [unwrap]. *)
Definition SecretKey_generate (ikm : bytes) : option SecretKey := mkSecretKey <$> key_gen ikm [].

Definition SecretKey_from_bytes (b : bytes) : SecretKey + BlsError := map_result mkSecretKey InvalidSecretKey (sk_from_bytes b).
Definition SecretKey_to_bytes (sk : SecretKey) : bytes := sk_to_bytes (sk_inner sk).
Definition SecretKey_public_key (sk : SecretKey) : PublicKey := mkPublicKey (sk_to_pk (sk_inner sk)).
Definition SecretKey_sign (sk : SecretKey) (message : bytes) : Signature := mkSignature (sk_sign (sk_inner sk) message DST []).

Definition PublicKey_from_bytes (b : bytes) : PublicKey + BlsError := map_result mkPublicKey InvalidPublicKey (pk_from_bytes b).
Definition PublicKey_to_bytes (pk : PublicKey) : bytes := pk_to_bytes (pk_inner pk).
Definition PublicKey_to_validator_id (pk : PublicKey) : ValidatorId := mkValidatorId (PublicKey_to_bytes pk).

Definition PublicKey_verify (pk : PublicKey) (signature : Signature) (message : bytes) : unit + BlsError :=
  check_result (sig_verify (sig_inner signature) true message DST [] (pk_inner pk) true).

Definition Signature_from_bytes (b : bytes) : Signature + BlsError := map_result mkSignature InvalidSignature (sig_from_bytes b).
Definition Signature_to_bytes (s : Signature) : bytes := sig_to_bytes (sig_inner s).
Definition Signature_to_bls_signature (s : Signature) : BlsSignature := mkBlsSignature (Signature_to_bytes s).

Definition AggregateSignature_from_signature (s : Signature) : AggregateSignature :=
  mkAggregate (agg_from_signature (sig_inner s)).

(** [None] is the panic of [unwrap] on an invalid signature. *)
Definition AggregateSignature_add (a : AggregateSignature) (s : Signature) : option AggregateSignature :=
  mkAggregate <$> agg_add_signature (agg_inner a) (sig_inner s) true.

Definition AggregateSignature_finalize (a : AggregateSignature) : Signature := mkSignature (agg_to_signature (agg_inner a)).

Definition AggregateSignature_aggregate (signatures : list Signature) : Signature + BlsError :=
  match signatures with
  | [] => inr EmptyAggregate
  | _ => map_result (fun agg => mkSignature (agg_to_signature agg)) InvalidSignature (agg_aggregate (sig_inner <$> signatures) true)
  end.

Definition verify_aggregate (signature : Signature) (public_keys : list PublicKey) (messages : list bytes) : unit + BlsError :=
  if (length public_keys =? length messages)%nat
  then check_result (sig_aggregate_verify (sig_inner signature) true messages DST (pk_inner <$> public_keys) true)
  else inr VerificationFailed.
End wrapper.

(** ** What the crate promises *)

Class BlstOk `{Blst} : Prop := {
  sk_bytes_roundtrip sk : sk_from_bytes (sk_to_bytes sk) = Some sk;
  pk_bytes_roundtrip sk : pk_from_bytes (pk_to_bytes (sk_to_pk sk)) = Some (sk_to_pk sk);
  sig_bytes_roundtrip sk m dst aug : sig_from_bytes (sig_to_bytes (sk_sign sk m dst aug)) = Some (sk_sign sk m dst aug);
  pk_to_bytes_is sk : is_bytes 48 (pk_to_bytes (sk_to_pk sk));
  sig_to_bytes_is sk m dst aug : is_bytes 96 (sig_to_bytes (sk_sign sk m dst aug));
  sign_verify sk m dst aug : sig_verify (sk_sign sk m dst aug) true m dst aug (sk_to_pk sk) true = true;
  aggregate_verify (l : list (blst_sk * bytes)) dst :
    l <> [] -> exists agg, agg_aggregate ((fun km => sk_sign km.1 km.2 dst []) <$> l) true = Some agg /\
      sig_aggregate_verify (agg_to_signature agg) true l.*2 dst (sk_to_pk <$> l.*1) true = true;
  aggregate_add (l : list (blst_sk * bytes)) dst agg sk m :
    agg_aggregate ((fun km => sk_sign km.1 km.2 dst []) <$> l) true = Some agg ->
    agg_add_signature agg (sk_sign sk m dst []) true =
      agg_aggregate ((fun km => sk_sign km.1 km.2 dst []) <$> (l ++ [(sk, m)])) true;
  aggregate_one sk m dst : agg_aggregate [sk_sign sk m dst []] true = Some (agg_from_signature (sk_sign sk m dst []))
}.

Section theorems.
Context `{BlstOk}.

(** A validator's signature travels as 96 bytes beside its 48-byte identity:
    decoding both and verifying accepts the message it signed. *)
Theorem signature_travels (sk : SecretKey) (message : bytes) :
  exists pk s,
    PublicKey_from_bytes (validator_0 (PublicKey_to_validator_id (SecretKey_public_key sk))) = inl pk /\
    Signature_from_bytes (bls_0 (Signature_to_bls_signature (SecretKey_sign sk message))) = inl s /\
    is_bytes 48 (PublicKey_to_bytes pk) /\ is_bytes 96 (Signature_to_bytes s) /\
    PublicKey_verify pk s message = inl ().
Proof.
  exists (SecretKey_public_key sk), (SecretKey_sign sk message).
  unfold PublicKey_from_bytes, Signature_from_bytes, PublicKey_verify. simpl.
  unfold PublicKey_to_bytes, Signature_to_bytes. simpl.
  rewrite pk_bytes_roundtrip, sig_bytes_roundtrip, sign_verify. split_and!; try done; [apply pk_to_bytes_is|apply sig_to_bytes_is].
Qed.

Definition sign_all (l : list (SecretKey * bytes)) : list Signature := (fun km => SecretKey_sign km.1 km.2) <$> l.

Lemma sign_all_inner l :
  sig_inner <$> sign_all l = (fun km => sk_sign km.1 km.2 DST []) <$> ((fun km => (sk_inner km.1, km.2)) <$> l).
Proof. unfold sign_all. rewrite <- !list_fmap_compose. done. Qed.

(** Adding signatures one by one, from the first. *)
Fixpoint add_all (a : AggregateSignature) (l : list Signature) : option AggregateSignature :=
  match l with
  | [] => Some a
  | s :: l => a' ← AggregateSignature_add a s; add_all a' l
  end.

(** Adding signatures of known keys to an aggregate of such is aggregating
    them all. *)
Lemma add_all_aggregate l0 l agg :
  agg_aggregate (sig_inner <$> sign_all l0) true = Some agg -> l0 <> [] ->
  exists agg', add_all (mkAggregate agg) (sign_all l) = Some (mkAggregate agg') /\
    agg_aggregate (sig_inner <$> sign_all (l0 ++ l)) true = Some agg'.
Proof.
  revert l0 agg. induction l as [|[sk m] l IH]; intros l0 agg Hagg Hne.
  { exists agg. by rewrite app_nil_r. }
  assert (exists agg1, agg_add_signature agg (sig_inner (SecretKey_sign sk m)) true = Some agg1 /\
    agg_aggregate (sig_inner <$> sign_all (l0 ++ [(sk, m)])) true = Some agg1) as (agg1 & Hadd & Hagg1).
  { rewrite sign_all_inner in Hagg. pose proof (aggregate_add _ _ _ (sk_inner sk) m Hagg) as Ha.
    rewrite sign_all_inner, fmap_app. simpl in *. rewrite Ha.
    destruct (aggregate_verify (((fun km : SecretKey * bytes => (sk_inner km.1, km.2)) <$> l0) ++ [(sk_inner sk, m)]) DST) as (agg1 & H1 & _).
    { by destruct l0. }
    exists agg1. by rewrite H1. }
  destruct (IH (l0 ++ [(sk, m)]) agg1 Hagg1) as (agg' & Hall & Hfin); [by destruct l0|].
  exists agg'. rewrite <- app_assoc in Hfin. split; [|done]. simpl. unfold AggregateSignature_add. simpl in Hadd |- *. by rewrite Hadd.
Qed.

(** Aggregation.  Signatures of any validators on any messages aggregate
    without an error, at once or added one at a time with the same result, and
    [verify_aggregate] accepts the result for exactly the keys and messages in
    order; no signatures, or lists of different length, are an error. *)
Theorem aggregate_correct (l : list (SecretKey * bytes)) (first : SecretKey * bytes) :
  let signers := first :: l in
  exists s,
    AggregateSignature_aggregate (sign_all signers) = inl s /\
    AggregateSignature_finalize <$> add_all (AggregateSignature_from_signature (SecretKey_sign first.1 first.2)) (sign_all l) = Some s /\
    verify_aggregate s (SecretKey_public_key <$> signers.*1) signers.*2 = inl () /\
    (forall pks ms, length pks <> length ms -> verify_aggregate s pks ms = inr VerificationFailed) /\
    AggregateSignature_aggregate [] = inr EmptyAggregate.
Proof.
  intros signers.
  destruct (aggregate_verify ((fun km : SecretKey * bytes => (sk_inner km.1, km.2)) <$> signers) DST) as (agg & Hagg & Hver); [done|].
  rewrite <- sign_all_inner in Hagg. exists (mkSignature (agg_to_signature agg)). split_and!.
  - unfold AggregateSignature_aggregate. unfold signers in Hagg |- *. simpl in Hagg |- *. by rewrite Hagg.
  - destruct first as [sk m]. destruct (add_all_aggregate [(sk, m)] l (agg_from_signature (sig_inner (SecretKey_sign sk m)))) as (agg' & Hall & Hfin).
    { apply aggregate_one. }
    { done. }
    unfold AggregateSignature_from_signature. cbn [fst snd]. rewrite Hall. change ([(sk, m)] ++ l) with signers in Hfin.
    rewrite Hagg in Hfin. by injection Hfin as <-.
  - unfold verify_aggregate. rewrite !length_fmap, Nat.eqb_refl. cbn [sig_inner].
    replace (pk_inner <$> (SecretKey_public_key <$> signers.*1)) with (sk_to_pk <$> (((fun km : SecretKey * bytes => (sk_inner km.1, km.2)) <$> signers).*1))
      by by rewrite <- !list_fmap_compose.
    replace signers.*2 with ((fun km : SecretKey * bytes => (sk_inner km.1, km.2)) <$> signers).*2 by by rewrite <- list_fmap_compose.
    by rewrite Hver.
  - intros pks ms Hne. unfold verify_aggregate. destruct (Nat.eqb_spec (length pks) (length ms)); done.
  - done.
Qed.
End theorems.

(** ** A concrete scheme

    Two keys and signatures that add up, to show the promises can hold. *)

Definition toy_sign (k : bool) (m : bytes) : bytes :=
  (fun i => ((if k then 1 else 2) * (1 + sumZ m + Z.of_nat i)) mod 256) <$> seq 0 96.

Definition toy_add (a b : bytes) : bytes := zip_with (fun x y => (x + y) mod 256) a b.

Fixpoint toy_sum (a : bytes) (l : list bytes) : bytes :=
  match l with [] => a | s :: l => toy_sum (toy_add a s) l end.

Definition toy_aggregate (l : list bytes) : option bytes :=
  match l with [] => None | s :: l => Some (toy_sum s l) end.

Definition toy_blst : Blst := {|
  blst_sk := bool;
  blst_pk := bool;
  blst_sig := list Z;
  blst_agg := list Z;
  key_gen := fun ikm _ => Some (Z.even (sumZ ikm));
  sk_from_bytes := fun b => head b ≫= fun x => if x =? 1 then Some true else if x =? 2 then Some false else None;
  sk_to_bytes := fun k => (if k then 1 else 2) :: replicate 31 0;
  sk_to_pk := fun k => k;
  sk_sign := fun k m _ _ => toy_sign k m;
  pk_from_bytes := fun b => head b ≫= fun x => if x =? 1 then Some true else if x =? 2 then Some false else None;
  pk_to_bytes := fun k => (if k then 1 else 2) :: replicate 47 0;
  sig_from_bytes := fun b => if (length b =? 96)%nat then Some b else None;
  sig_to_bytes := fun s => s;
  sig_verify := fun s _ m _ _ k _ => bool_decide (s = toy_sign k m);
  sig_aggregate_verify := fun s _ ms _ ks _ => bool_decide (toy_aggregate (zip_with toy_sign ks ms) = Some s);
  agg_from_signature := fun s => s;
  agg_add_signature := fun a s _ => Some (toy_add a s);
  agg_aggregate := fun l _ => toy_aggregate l;
  agg_to_signature := fun a => a
|}.

Lemma toy_sign_is k m : is_bytes 96 (toy_sign k m).
Proof.
  split; [unfold toy_sign; by rewrite length_fmap, length_seq|]. unfold toy_sign. apply Forall_fmap, Forall_forall.
  intros i _. simpl. unfold is_u8, u8_bound. apply Z.mod_pos_bound. lia.
Qed.

Lemma toy_sum_snoc a l s : toy_sum a (l ++ [s]) = toy_add (toy_sum a l) s.
Proof. revert a. induction l as [|x l IH]; intros a; simpl; [done|]. apply IH. Qed.

Lemma toy_blst_ok : @BlstOk toy_blst.
Proof.
  split.
  - by intros [].
  - by intros [].
  - intros k m ? ?. change ((if (length (toy_sign k m) =? 96)%nat then Some (toy_sign k m) else None) = Some (toy_sign k m)).
    by rewrite (proj1 (toy_sign_is k m)).
  - intros k. split; [done|]. apply Forall_cons. split; [simpl; destruct k; u64_lia|]. apply Forall_replicate. u64_lia.
  - intros k m ? ?. apply toy_sign_is.
  - intros k m ? ?. by apply bool_decide_eq_true.
  - intros [|[k m] l] ? Hl; [done|]. eexists. split; [done|]. apply bool_decide_eq_true. cbn [toy_aggregate].
    change (Some (toy_sum (toy_sign k m) (zip_with toy_sign (((fun k : bool => k) <$> l.*1)) l.*2)) =
      Some (toy_sum (toy_sign k m) ((fun km : bool * bytes => toy_sign km.1 km.2) <$> l))). f_equal. f_equal.
    clear Hl. induction l as [|[k' m'] l IH]; [done|]. rewrite !fmap_cons. cbn [zip_with]. by rewrite IH.
  - intros [|[k m] l] ? agg sk m'; [done|]. intros [= <-].
    change (Some (toy_add (toy_sum (toy_sign k m) ((fun km : bool * bytes => toy_sign km.1 km.2) <$> l)) (toy_sign sk m')) =
      Some (toy_sum (toy_sign k m) ((fun km : bool * bytes => toy_sign km.1 km.2) <$> (l ++ [(sk, m')])))).
    rewrite fmap_app. cbn [fmap list_fmap]. by rewrite toy_sum_snoc.
  - done.
Qed.

Example signature_travels_toy :
  @PublicKey_verify toy_blst (@SecretKey_public_key toy_blst (@mkSecretKey toy_blst true))
    (@SecretKey_sign toy_blst (@mkSecretKey toy_blst true) [1; 2; 3]) [1; 2; 4] = inr VerificationFailed.
Proof. vm_compute. reflexivity. Qed.

Lemma aggregate_correct_witness :
  exists s, @AggregateSignature_aggregate toy_blst
      (@sign_all toy_blst [(@mkSecretKey toy_blst true, [1; 2]); (@mkSecretKey toy_blst false, [3])]) = inl s /\
    @verify_aggregate toy_blst s (@SecretKey_public_key toy_blst <$> [@mkSecretKey toy_blst true; @mkSecretKey toy_blst false]) [[1; 2]; [3]] = inl ().
Proof.
  destruct (@aggregate_correct toy_blst toy_blst_ok [(@mkSecretKey toy_blst false, [3])] (@mkSecretKey toy_blst true, [1; 2]))
    as (s & Ha & _ & Hv & _).
  exists s. split; [exact Ha|exact Hv].
Defined.
