(* ===== verification/Node.v ===== *)
(** * The node: [src/node/node.rs] and [src/node/config.rs]

    The composition of the other components: creating events, answering
    messages, advancing consensus, executing and finalizing committed rounds.
    The DAG and the peer table the node shares with its gossip handler are the
    handler's.  Tasks run one at a time, a step each; clock readings, random
    ids and the BLS keys of the [blst] crate are parameters, and the messages
    handed to the transport are outputs. *)

From S2P Require Import Prelude Types Lamport Transaction Event Validator State Jmt Mvcc Conflict Vm Executor Ledger.
From S2P Require Import Dag Consensus Threshold Mempool Peer Gossip.

(** ** Configuration *)

Record ChainConfig := mkChainConfig {
  cc_chain_id : Z;
  cc_genesis_hash : bytes;
  cc_network_name : string;
  cc_initial_validators : list (ValidatorId * Z * Address)
}.

Definition ChainConfig_default : ChainConfig := mkChainConfig 1 (replicate 32 0) "ryther-mainnet" [].

Record NetworkConfig := mkNetworkConfig {
  nc_listen_addr : SocketAddr;
  nc_bootstrap_peers : list string;
  nc_max_peers : nat;
  nc_enable_discovery : bool;
  nc_connect_timeout_ms : Z
}.

Definition NetworkConfig_default : NetworkConfig := mkNetworkConfig (mkAddr [0; 0; 0; 0] 30303) [] 50 true 5000.

Record StorageConfig := mkStorageConfig {
  sc_data_dir : string;
  sc_state_cache_mb : Z;
  sc_enable_pruning : bool;
  sc_prune_blocks : Z
}.

Definition StorageConfig_default : StorageConfig := mkStorageConfig "./data" 512 false 10000.

Record ExecutionConfig := mkExecutionConfig {
  ec_parallel_threads : nat;
  ec_max_txs_per_block : Z;
  ec_block_gas_limit : Z
}.

Definition ExecutionConfig_default (num_cpus : nat) : ExecutionConfig := mkExecutionConfig num_cpus 10000 30000000.

Record RpcConfig := mkRpcConfig {
  rc_enabled : bool;
  rc_listen_addr : SocketAddr;
  rc_enable_ws : bool;
  rc_ws_addr : SocketAddr;
  rc_allowed_origins : list string
}.

Definition RpcConfig_default : RpcConfig :=
  mkRpcConfig true (mkAddr [127; 0; 0; 1] 8646) true (mkAddr [127; 0; 0; 1] 8647) ["*"%string].

Record ValidatorConfig := mkValidatorConfig {
  vc_key_path : string;
  vc_produce_blocks : bool;
  vc_min_stake : Z
}.

Record NodeConfig := mkNodeConfig {
  nc_chain : ChainConfig;
  nc_network : NetworkConfig;
  nc_storage : StorageConfig;
  nc_execution : ExecutionConfig;
  nc_rpc : RpcConfig;
  nc_validator : option ValidatorConfig
}.

Definition NodeConfig_default (num_cpus : nat) : NodeConfig :=
  mkNodeConfig ChainConfig_default NetworkConfig_default StorageConfig_default
    (ExecutionConfig_default num_cpus) RpcConfig_default None.

Definition NodeConfig_is_validator (c : NodeConfig) : bool := bool_decide (is_Some (nc_validator c)).

(** ** State *)

(** BLS keys, from the [blst] crate. *)
Class Bls (SecretKey : Type) := {
  key_from_bytes : bytes -> option SecretKey;
  key_public_bytes : SecretKey -> bytes;
  key_sign : SecretKey -> bytes -> BlsSignature
}.

Inductive NodeState := Starting | Syncing | Running | Stopping | Stopped.

Record NodeStats := mkNodeStats {
  events_created : Z;
  events_received : Z;
  transactions_processed : Z;
  rounds_committed : Z;
  current_round : Z;
  stat_connected_peers : nat;
  start_time : Z
}.

Definition NodeStats_default (now : Z) : NodeStats := mkNodeStats 0 0 0 0 0 0 now.

Record RytherNode (SecretKey : Type) := mkNode {
  n_config : NodeConfig;
  n_state : NodeState;
  n_peer_id : PeerId;
  n_validator_id : option ValidatorId;
  n_validator_key : option SecretKey;
  n_validators : ValidatorSet;
  n_clock : LamportClock;
  n_commit_detector : CommitDetector;
  n_state_db : MultiVersionState;
  n_vm : RytherVm;
  n_executor : ExecutorConfig;
  n_mempool : TransactionPool;
  n_gossip : GossipProtocol;
  n_stats : NodeStats;
  n_threshold : ThresholdParams;
  n_collected_shares : gmap (list Z) (gmap ValidatorId SecretShare)
}.
Arguments mkNode {SecretKey}.
Arguments n_config {SecretKey}.
Arguments n_state {SecretKey}.
Arguments n_peer_id {SecretKey}.
Arguments n_validator_id {SecretKey}.
Arguments n_validator_key {SecretKey}.
Arguments n_validators {SecretKey}.
Arguments n_clock {SecretKey}.
Arguments n_commit_detector {SecretKey}.
Arguments n_state_db {SecretKey}.
Arguments n_vm {SecretKey}.
Arguments n_executor {SecretKey}.
Arguments n_mempool {SecretKey}.
Arguments n_gossip {SecretKey}.
Arguments n_stats {SecretKey}.
Arguments n_threshold {SecretKey}.
Arguments n_collected_shares {SecretKey}.

Section node.
Context `{Hashes} {SecretKey : Type} `{Bls SecretKey}.
Abbreviation Node := (RytherNode SecretKey) (only parsing).
Implicit Types n : Node.

(** The node's DAG and peers, shared with the gossip handler. *)
Definition n_dag n : DagStore := g_dag (n_gossip n).
Definition n_peers n : PeerManager := g_peers (n_gossip n).

(** Construction.  [key] is the decoded content of the validator key file,
    [None] without a validator section or a readable file; [None] as the
    result is the panic on a malformed key. *)
Definition RytherNode_new (peer_id : PeerId) (num_cpus : nat) (now : Z) (config : NodeConfig) (key : option bytes)
    : option Node :=
  let peers := PeerManager_new peer_id (nc_max_peers (nc_network config)) in
  let node validator_id validator_key :=
    mkNode config Starting peer_id validator_id validator_key
      (ValidatorSet_from_validators (cc_initial_validators (nc_chain config)))
      LamportClock_new
      (CommitDetector_new ValidatorSet_new (replicate 32 0))
      MultiVersionState_new
      (RytherVm_new (cc_chain_id (nc_chain config)))
      (ExecutorConfig_default num_cpus)
      (TransactionPool_new (Z.to_nat 10000))
      (GossipProtocol_new peer_id peers DagStore_new GossipConfig_default)
      (NodeStats_default now)
      (mkParams 4 3)
      ∅ in
  match nc_validator config, key with
  | Some _, Some key_bytes =>
      if bool_decide (length key_bytes = 32%nat)
      then secret_key ← key_from_bytes key_bytes;
           Some (node (Some (mkValidatorId (key_public_bytes secret_key))) (Some secret_key))
      else None
  | _, _ => Some (node None None)
  end.

Definition RytherNode_state n : NodeState := n_state n.
Definition RytherNode_peer_id n : PeerId := n_peer_id n.

Definition RytherNode_stats n : NodeStats :=
  let s := n_stats n in
  mkNodeStats (events_created s) (events_received s) (transactions_processed s) (rounds_committed s)
    (current_round s) (PeerManager_connected_count (n_peers n)) (start_time s).

(** Updates of single fields. *)
Definition set_clock (c : LamportClock) n : Node :=
  mkNode (n_config n) (n_state n) (n_peer_id n) (n_validator_id n) (n_validator_key n) (n_validators n) c
    (n_commit_detector n) (n_state_db n) (n_vm n) (n_executor n) (n_mempool n) (n_gossip n) (n_stats n)
    (n_threshold n) (n_collected_shares n).
Definition set_gossip (g : GossipProtocol) n : Node :=
  mkNode (n_config n) (n_state n) (n_peer_id n) (n_validator_id n) (n_validator_key n) (n_validators n) (n_clock n)
    (n_commit_detector n) (n_state_db n) (n_vm n) (n_executor n) (n_mempool n) g (n_stats n)
    (n_threshold n) (n_collected_shares n).
Definition set_detector (c : CommitDetector) n : Node :=
  mkNode (n_config n) (n_state n) (n_peer_id n) (n_validator_id n) (n_validator_key n) (n_validators n) (n_clock n)
    c (n_state_db n) (n_vm n) (n_executor n) (n_mempool n) (n_gossip n) (n_stats n)
    (n_threshold n) (n_collected_shares n).
Definition set_shares (s : gmap (list Z) (gmap ValidatorId SecretShare)) n : Node :=
  mkNode (n_config n) (n_state n) (n_peer_id n) (n_validator_id n) (n_validator_key n) (n_validators n) (n_clock n)
    (n_commit_detector n) (n_state_db n) (n_vm n) (n_executor n) (n_mempool n) (n_gossip n) (n_stats n)
    (n_threshold n) s.
Definition set_executed (st : MultiVersionState) (pool : TransactionPool) (stats : NodeStats) n : Node :=
  mkNode (n_config n) (n_state n) (n_peer_id n) (n_validator_id n) (n_validator_key n) (n_validators n) (n_clock n)
    (n_commit_detector n) st (n_vm n) (n_executor n) pool (n_gossip n) stats
    (n_threshold n) (n_collected_shares n).
Definition set_state (s : NodeState) n : Node :=
  mkNode (n_config n) s (n_peer_id n) (n_validator_id n) (n_validator_key n) (n_validators n) (n_clock n)
    (n_commit_detector n) (n_state_db n) (n_vm n) (n_executor n) (n_mempool n) (n_gossip n) (n_stats n)
    (n_threshold n) (n_collected_shares n).

(** ** Creating an event *)

(** The events of the last round, and the node's own latest event. *)
Definition event_parents n (validator_id : ValidatorId) : list EventId :=
  let parents := map ev_id (DagStore_events_at_round (n_dag n) (dag_max_round (n_dag n))) in
  match DagStore_latest_from (n_dag n) validator_id with
  | Some sp => if bool_decide (sp ∈ parents) then parents else parents ++ [sp]
  | None => parents
  end.

Definition RytherNode_create_event n : Node * option DagEvent :=
  match n_validator_id n, n_validator_key n with
  | Some validator_id, Some secret_key =>
      let parents := event_parents n validator_id in
      let '(clock, lamport_time) := LamportClock_tick (n_clock n) in
      let round := dag_max_round (n_dag n) ⊞ 1 in
      let payload := mkBatch [] (replicate 32 0) in
      let id := sha256 (validator_0 validator_id ++ le_bytes 8 round ++ concat parents) in
      (set_clock clock n,
       Some (mkEvent id validator_id lamport_time round parents [] payload (key_sign secret_key id)))
  | _, _ => (n, None)
  end.

(** ** Answering a message *)

Definition RytherNode_handle_message (now : Z) (reply_id : bytes) n (peer_id : PeerId) (message : NetworkMessage)
    : Node * list (PeerId * NetworkMessage) :=
  match nm_payload message with
  | DecryptionShare share_msg =>
      let event_shares := default ∅ (n_collected_shares n !! ds_event_id share_msg) in
      let share := ds_share share_msg in
      (set_shares (<[ds_event_id share_msg := <[sh_holder share := share]> event_shares]> (n_collected_shares n)) n, [])
  | _ =>
      let '(g, response) := GossipProtocol_handle_message now reply_id (n_gossip n) message in
      (set_gossip g n, match response with Some r => [(peer_id, r)] | None => [] end)
  end.

(** ** Executing a committed round *)

(** The decryption shares broadcast for the events of the round; [share_ids i]
    is the random id of the message for the [i]-th event. *)
Definition share_messages (share_ids : nat -> bytes) n (evs : list DagEvent) : list (PeerId * NetworkMessage) :=
  match n_validator_id n with
  | Some validator_id =>
      concat (imap (fun i event =>
        let share := mkShare 1 (replicate 32 0) validator_id in
        let msg := NetworkMessage_new (share_ids i) (n_peer_id n)
          (DecryptionShare (mkDecryptionShare (ev_id event) share)) in
        map (fun peer => (pi_id peer, msg)) (PeerManager_best_peers (n_peers n) 100)) evs)
  | None => []
  end.

(** The placeholder transaction executed in every round after the first. *)
Definition dummy_transaction : DecryptedTransaction :=
  mkTx (mkAddress (replicate 20 170)) (Some (mkAddress (replicate 20 187))) (U256_from_u64 100) 21000
    (U256_from_u64 1000000000) 0 [] (replicate 32 0) 0.

Definition commit_transactions (round : Z) : list DecryptedTransaction :=
  if 1 <? round then [dummy_transaction] else [].

Definition assign_sequences (round : Z) (txs : list DecryptedTransaction) : list DecryptedTransaction :=
  imap (fun i tx => set_sequence_number ((round ⊟ 1) ⊠ 10000 ⊞ Z.of_nat i) tx) txs.

Definition commit_coinbase n (round : Z) : Address :=
  if ValidatorSet_is_empty (n_validators n) then mkAddress (replicate 20 0)
  else default (mkAddress (replicate 20 0))
    (elect_leader (n_validators n) round (replicate 32 0) ≫= ValidatorSet_get_address (n_validators n)).

Definition RytherNode_process_commit (now : Z) (share_ids : nat -> bytes) n (commit : CommitResult)
    : Node * list (PeerId * NetworkMessage) :=
  let round := cr_round commit in
  let sent := share_messages share_ids n (DagStore_events_at_round (n_dag n) round) in
  match assign_sequences round (commit_transactions round) with
  | [] => (n, sent)
  | txs =>
      let commitments := map tx_source_commitment txs in
      let pool := (TransactionPool_mark_included (n_mempool n) commitments).1 in
      let block := mkBlockContext round now (commit_coinbase n round) 30000000 (U256_from_u64 1000000000) 1 in
      let '(st, results) :=
        ParallelExecutor_execute_batch (fun tx st => RytherVm_execute (n_vm n) tx st block) (n_executor n) txs (n_state_db n) in
      let st := MultiVersionState_finalize st in
      let s := n_stats n in
      let stats := mkNodeStats (events_created s) (events_received s)
        (transactions_processed s ⊞ Z.of_nat (length commitments)) (rounds_committed s ⊞ 1) round
        (stat_connected_peers s) (start_time s) in
      (set_executed st pool stats n, sent)
  end.

(** ** The block producer's loop body *)

(** [share_ids r i] is the random id of the message for the [i]-th event of
    the committed round [r]. *)
Definition process_commits (now : Z) (share_ids : Z -> nat -> bytes) n (commits : list CommitResult)
    : Node * list (PeerId * NetworkMessage) :=
  fold_left (fun '(n, sent) commit =>
    let '(n, msgs) := RytherNode_process_commit now (share_ids (cr_round commit)) n commit in (n, sent ++ msgs)) commits (n, []).

(** One round of the loop, as one step: the node's state changes without a wait
    for the messages it sends, which are handed to the transport in order. *)
Definition producer_tick (now : Z) (message_ids : nat -> bytes) (share_ids : Z -> nat -> bytes) n : Node * list (PeerId * NetworkMessage) :=
  let '(n, event) := RytherNode_create_event n in
  let '(n, sent) :=
    match event with
    | Some event =>
        let g := n_gossip n in
        let g := mkGossip (g_config g) (g_peers g) (DagStore_insert (g_dag g) event) (g_local_id g)
          (seen_messages g) (pending_events g) (processed_events g) in
        let '(g, msgs) := GossipProtocol_broadcast_event message_ids g event in
        (set_gossip g n, msgs)
    | None => (n, [])
    end in
  let '(detector, commits) := CommitDetector_try_advance (n_commit_detector n) (n_dag n) in
  let '(n, msgs) := process_commits now share_ids (set_detector detector n) commits in
  (n, sent ++ msgs).

Definition RytherNode_stop n : Node := set_state Stopped n.

(** ** Runs *)

Inductive NodeStep :=
| NTick (now : Z) (message_ids : nat -> bytes) (share_ids : Z -> nat -> bytes)
| NMessage (now : Z) (reply_id : bytes) (from : PeerId) (message : NetworkMessage)
| NCleanup (now : Z).

Definition node_step n (s : NodeStep) : Node :=
  match s with
  | NTick now message_ids share_ids => (producer_tick now message_ids share_ids n).1
  | NMessage now reply_id from message => (RytherNode_handle_message now reply_id n from message).1
  | NCleanup now => set_gossip (GossipProtocol_cleanup now (n_gossip n)) n
  end.

Definition node_run n (steps : list NodeStep) : Node := fold_left node_step steps n.

(** ** A node made by [new] never commits

    Its commit detector is given an empty validator set, which elects no
    leader. *)

Lemma elect_leader_empty round seed : elect_leader ValidatorSet_new round seed = None.
Proof. reflexivity. Qed.

Lemma try_advance_empty c dag :
  cd_validator_set c = ValidatorSet_new -> CommitDetector_try_advance c dag = (c, []).
Proof.
  intros Hc. unfold CommitDetector_try_advance. cbn [advance_loop]. case_match; [|done].
  unfold CommitDetector_check_commit. rewrite Hc, elect_leader_empty. by destruct (_ <=? cd_last_committed c).
Qed.

(** What no step of such a node changes. *)
Record never_committed n0 n : Prop := {
  nv_detector : n_commit_detector n = n_commit_detector n0;
  nv_state_db : n_state_db n = n_state_db n0;
  nv_stats : n_stats n = n_stats n0;
  nv_mempool : n_mempool n = n_mempool n0
}.

Lemma create_event_frame n : never_committed n (RytherNode_create_event n).1.
Proof. unfold RytherNode_create_event. by repeat case_match. Qed.

Lemma node_step_frame n0 n s :
  cd_validator_set (n_commit_detector n0) = ValidatorSet_new -> never_committed n0 n -> never_committed n0 (node_step n s).
Proof.
  intros Hvs [Hd Hs Ht Hm]. destruct s as [now mids sids|now rid from msg|now]; cbn [node_step]; [|..|by split].
  - unfold producer_tick. pose proof (create_event_frame n) as Hc.
    destruct (RytherNode_create_event n) as [n1 ev]. cbn [fst] in Hc. destruct Hc as [Hd1 Hs1 Ht1 Hm1].
    destruct ev as [ev|].
    + cbn [GossipProtocol_broadcast_event]. rewrite try_advance_empty by (simpl; congruence).
      cbn. split; cbn; congruence.
    + rewrite try_advance_empty by congruence. cbn. split; cbn; congruence.
  - unfold RytherNode_handle_message. repeat case_match; by split.
Qed.

(** C36: a node built by [RytherNode::new] never commits anything: whatever
    events it creates and messages it receives, its commit detector, its state
    database, its pool and its statistics stay as they were built. *)
Theorem node_never_commits (peer_id : PeerId) (num_cpus : nat) (now : Z) (config : NodeConfig) (key : option bytes)
    (n : Node) (steps : list NodeStep) :
  RytherNode_new peer_id num_cpus now config key = Some n ->
  n_state_db (node_run n steps) = MultiVersionState_new /\
  cd_last_committed (n_commit_detector (node_run n steps)) = 0 /\
  rounds_committed (RytherNode_stats (node_run n steps)) = 0 /\
  n_stats (node_run n steps) = n_stats n /\ n_mempool (node_run n steps) = n_mempool n.
Proof.
  intros Hn. assert (n_commit_detector n = CommitDetector_new ValidatorSet_new (replicate 32 0) /\
    n_state_db n = MultiVersionState_new /\ rounds_committed (n_stats n) = 0) as (Hd & Hs & Ht).
  { unfold RytherNode_new in Hn. repeat case_match; simplify_option_eq; done. }
  assert (never_committed n (node_run n steps)) as [Hd' Hs' Ht' Hm'].
  { assert (forall n1, never_committed n n1 -> never_committed n (node_run n1 steps)) as Hrun; [|by apply Hrun].
    induction steps as [|s steps IH]; intros n1 Hn1; simpl; [done|]. apply IH, node_step_frame; [by rewrite Hd|done]. }
  unfold RytherNode_stats. simpl. rewrite Hd', Hs', Ht', Hm', Hd. done.
Qed.

(** ** Created events *)

(** The first event of a validator on an empty DAG has round 1 and no
    parents, which the structural check refuses: no peer that follows the
    protocol stores it. *)
Theorem first_event_rejected (peer_id : PeerId) (num_cpus : nat) (now : Z) (config : NodeConfig) (key : bytes)
    (secret_key : SecretKey) (n : Node) :
  nc_validator config <> None -> length key = 32%nat -> key_from_bytes key = Some secret_key ->
  RytherNode_new peer_id num_cpus now config (Some key) = Some n ->
  exists e, (RytherNode_create_event n).2 = Some e /\ ev_round e = 1 /\
    DagEvent_validate_structure e = inl NoParents /\
    (forall sender g, g_dag (handle_response_event sender g e) = g_dag g).
Proof.
  intros Hv Hl Hk Hn. unfold RytherNode_new in Hn. destruct (nc_validator config); [|done].
  rewrite bool_decide_eq_true_2, Hk in Hn by done. injection Hn as <-.
  eexists. split; [reflexivity|]. done.
Qed.

Lemma parents_stored n es vid p :
  indexes (n_dag n) es -> p ∈ event_parents n vid -> is_Some (DagStore_get (n_dag n) p).
Proof.
  intros Hi. assert (p ∈ map ev_id (DagStore_events_at_round (n_dag n) (dag_max_round (n_dag n))) ->
    is_Some (DagStore_get (n_dag n) p)) as Hround.
  { change (@map DagEvent _ ev_id) with (fmap (M:=list) ev_id). intros (e & -> & Hin)%list_elem_of_fmap.
    rewrite (events_at_round_filter _ es) in Hin by done. apply list_elem_of_filter in Hin as [_ Hin].
    exists e. by apply (ix_events _ _ Hi). }
  unfold event_parents. destruct (DagStore_latest_from (n_dag n) vid) as [sp|] eqn:Hsp; [|done].
  case_bool_decide; [done|]. intros [Hp|Hp]%elem_of_app; [by apply Hround|].
  apply list_elem_of_singleton in Hp as ->. pose proof (ix_latest _ _ Hi vid) as Hl.
  unfold DagStore_latest_from in Hsp. rewrite Hsp in Hl. destruct Hl as (e & Hin & He & _).
  exists e. by apply (ix_events _ _ Hi).
Qed.

(** C39: on a DAG that holds events, a validator's new event is well formed
    and extends the whole last round: it passes the structural check, its
    round is above every stored round, its parents are stored events, among
    them all those of the last round and the validator's own latest event, and
    creating it only ticks the clock. *)
Theorem create_event_extends (n : Node) (es : list DagEvent) (vid : ValidatorId) (sk : SecretKey) :
  n_dag n = dag_of es -> consistent es -> Forall (fun e => 0 <= ev_round e) es -> es <> [] ->
  n_validator_id n = Some vid -> n_validator_key n = Some sk ->
  dag_max_round (n_dag n) < u64_max -> 0 <= clock_value (n_clock n) < u64_max ->
  exists n' e, RytherNode_create_event n = (n', Some e) /\
    valid_event e /\ ev_creator e = vid /\
    (forall e', e' ∈ es -> ev_round e' < ev_round e) /\
    (forall p, p ∈ ev_strong_parents e -> is_Some (DagStore_get (n_dag n) p)) /\
    (forall e', e' ∈ es -> ev_round e' = dag_max_round (n_dag n) -> ev_id e' ∈ ev_strong_parents e) /\
    (forall sp, DagStore_latest_from (n_dag n) vid = Some sp -> sp ∈ ev_strong_parents e) /\
    n' = set_clock (mkClock (ev_lamport_time e)) n /\ ev_lamport_time e = clock_value (n_clock n) + 1.
Proof.
  intros Hd Hc Hr Hne Hv Hk Hmax Hclk. pose proof (indexes_dag_of es Hc Hr) as Hi. rewrite <- Hd in Hi.
  unfold RytherNode_create_event. rewrite Hv, Hk. cbn [LamportClock_tick].
  assert (clock_value (n_clock n) ⊞ 1 = clock_value (n_clock n) + 1) as Hck by divmod_lia.
  pose proof (ix_max _ _ Hi) as Hm.
  assert (forall e', e' ∈ es -> ev_round e' <= dag_max_round (n_dag n)) as Hle.
  { intros e' Hin. rewrite Hm. apply max_or_0_ge. change (map ev_round es) with (ev_round <$> es). by apply list_elem_of_fmap_2. }
  assert (exists e0, e0 ∈ es /\ ev_round e0 = dag_max_round (n_dag n)) as (e0 & He0 & Hr0).
  { rewrite Hm. assert (max_or_0 (map ev_round es) ∈ ev_round <$> es) as Hin.
    - apply max_or_0_elem; [by destruct es|]. by apply Forall_fmap.
    - apply list_elem_of_fmap in Hin as (e0 & -> & Hin). by exists e0. }
  assert (dag_max_round (n_dag n) ⊞ 1 = dag_max_round (n_dag n) + 1) as Hrd.
  { rewrite Forall_forall in Hr. specialize (Hr _ He0). divmod_lia. }
  assert (forall e', e' ∈ es -> ev_round e' = dag_max_round (n_dag n) -> ev_id e' ∈ event_parents n vid) as Hlast.
  { intros e' Hin He'. unfold event_parents.
    assert (ev_id e' ∈ map ev_id (DagStore_events_at_round (n_dag n) (dag_max_round (n_dag n)))) as Hp.
    { rewrite (events_at_round_filter _ es) by done. change (@map DagEvent _ ev_id) with (fmap (M:=list) ev_id).
      apply list_elem_of_fmap_2. by apply list_elem_of_filter. }
    repeat case_match; try done. apply elem_of_app. by left. }
  eexists _, _. split; [reflexivity|]. cbn [ev_creator ev_round ev_strong_parents ev_lamport_time]. rewrite Hck, Hrd.
  split_and!; try done.
  - unfold valid_event, DagEvent_validate_structure, DagEvent_is_genesis. cbn [ev_strong_parents ev_round ev_lamport_time].
    assert (event_parents n vid <> []) as Hpn by (intros E; specialize (Hlast _ He0 Hr0); rewrite E in Hlast; by apply elem_of_nil in Hlast).
    destruct (event_parents n vid); [done|]. cbn [is_nil andb].
    rewrite Forall_forall in Hr. specialize (Hr _ He0).
    destruct (Z.eqb_spec (clock_value (n_clock n) + 1) 0); [lia|]. destruct (Z.eqb_spec (dag_max_round (n_dag n) + 1) 0); [lia|done].
  - intros e' Hin. specialize (Hle _ Hin). lia.
  - intros p Hp. apply (parents_stored n es vid p Hi Hp).
  - intros sp Hsp. unfold event_parents. rewrite Hsp. case_bool_decide; [done|]. apply elem_of_app. right. by left.
Qed.

(** ** Executing commits *)

(** Two nodes that would execute a round in the same way. *)
Record same_ledger n1 n2 : Prop := {
  sl_state : n_state_db n1 = n_state_db n2;
  sl_vm : n_vm n1 = n_vm n2;
  sl_executor : n_executor n1 = n_executor n2;
  sl_validators : n_validators n1 = n_validators n2
}.

(** The engine looks at no field of the block but the coinbase. *)
Lemma execute_coinbase_only vm tx st number timestamp timestamp' coinbase gas_limit base_fee chain :
  RytherVm_execute vm tx st (mkBlockContext number timestamp coinbase gas_limit base_fee chain) =
  RytherVm_execute vm tx st (mkBlockContext number timestamp' coinbase gas_limit base_fee chain).
Proof. reflexivity. Qed.

Lemma process_commit_same now1 now2 ids1 ids2 n1 n2 c1 c2 :
  same_ledger n1 n2 -> cr_round c1 = cr_round c2 ->
  same_ledger (RytherNode_process_commit now1 ids1 n1 c1).1 (RytherNode_process_commit now2 ids2 n2 c2).1.
Proof.
  intros [Hs Hv He Hl] Hr. unfold RytherNode_process_commit. rewrite Hr.
  destruct (assign_sequences (cr_round c2) (commit_transactions (cr_round c2))) as [|tx txs]; [by split|].
  assert (commit_coinbase n1 (cr_round c2) = commit_coinbase n2 (cr_round c2)) as Hcb by (unfold commit_coinbase; by rewrite Hl).
  rewrite Hs, Hv, He, Hcb.
  change (fun tx st => RytherVm_execute (n_vm n2) tx st
      (mkBlockContext (cr_round c2) now1 (commit_coinbase n2 (cr_round c2)) 30000000 (U256_from_u64 1000000000) 1))
    with (fun tx st => RytherVm_execute (n_vm n2) tx st
      (mkBlockContext (cr_round c2) now2 (commit_coinbase n2 (cr_round c2)) 30000000 (U256_from_u64 1000000000) 1)).
  destruct (ParallelExecutor_execute_batch _ _ _ _) as [st rs]. by split.
Qed.

Lemma process_commits_same now1 now2 ids1 ids2 l1 l2 n1 n2 out1 out2 :
  same_ledger n1 n2 -> map cr_round l1 = map cr_round l2 ->
  same_ledger
    (fold_left (fun '(n, sent) c => let '(n, msgs) := RytherNode_process_commit now1 (ids1 (cr_round c)) n c in (n, sent ++ msgs)) l1 (n1, out1)).1
    (fold_left (fun '(n, sent) c => let '(n, msgs) := RytherNode_process_commit now2 (ids2 (cr_round c)) n c in (n, sent ++ msgs)) l2 (n2, out2)).1.
Proof.
  revert l2 n1 n2 out1 out2. induction l1 as [|c1 l1 IH]; intros [|c2 l2] n1 n2 out1 out2 Hs Hm; try done.
  injection Hm as Hr Hm. simpl. pose proof (process_commit_same now1 now2 (ids1 (cr_round c1)) (ids2 (cr_round c2)) n1 n2 c1 c2 Hs Hr) as Hs'.
  destruct (RytherNode_process_commit now1 (ids1 (cr_round c1)) n1 c1) as [n1' m1],
    (RytherNode_process_commit now2 (ids2 (cr_round c2)) n2 c2) as [n2' m2].
  by apply IH.
Qed.

Lemma process_commits_gossip now ids n commits : n_gossip (process_commits now ids n commits).1 = n_gossip n.
Proof.
  unfold process_commits. assert (forall sent, n_gossip (fold_left (fun '(n, sent) commit =>
    let '(n, msgs) := RytherNode_process_commit now (ids (cr_round commit)) n commit in (n, sent ++ msgs)) commits (n, sent)).1 = n_gossip n) as Hg;
    [|apply Hg].
  revert n. induction commits as [|c commits IH]; intros n sent; cbn [fold_left]; [done|].
  assert (n_gossip (RytherNode_process_commit now (ids (cr_round c)) n c).1 = n_gossip n) as E.
  { unfold RytherNode_process_commit. repeat case_match; done. }
  destruct (RytherNode_process_commit _ _ _ _) as [n' msgs]. simpl in E. by rewrite IH, E.
Qed.

(** ** The ledger after commits *)

Definition placeholder_from : Address := tx_from dummy_transaction.
Definition placeholder_to : Address := mkAddress (replicate 20 187).

(** The placeholder transfer as account arithmetic: 100 to the recipient and
    21000 units of gas at 10^9 to the coinbase. *)
Definition placeholder_paid (coinbase : Address) (L : Ledger) : Ledger :=
  credit coinbase 21000000000000
    (credit placeholder_to 100 (bump placeholder_from (credit placeholder_from (-21000000000100) L))).

Definition placeholder_due (L : Ledger) : bool :=
  (nonce L placeholder_from =? 0) && (21000000000100 <=? balance L placeholder_from).

(** The ledger after committing the given rounds in order. *)
Definition after_commits n (rounds : list Z) (L : Ledger) : Ledger :=
  match filter (fun r => 1 < r) rounds with
  | r :: _ => if placeholder_due L then placeholder_paid (commit_coinbase n r) L else L
  | [] => L
  end.

(** The rounds whose sequence numbers fit and whose coinbase is not a party to
    the placeholder transfer. *)
Definition round_fits n (r : Z) : Prop :=
  (r - 1) * 10000 < u64_max /\ commit_coinbase n r <> placeholder_from /\ commit_coinbase n r <> placeholder_to.

Definition round_block n (now r : Z) : BlockContext :=
  mkBlockContext r now (commit_coinbase n r) 30000000 (U256_from_u64 1000000000) 1.

Lemma placeholder_plain n now r :
  1 < r -> round_fits n r ->
  let tx := set_sequence_number ((r ⊟ 1) ⊠ 10000 ⊞ 0) dummy_transaction in
  tx_sequence_number tx < u64_max /\ plain_call (n_vm n) (round_block n now r) tx placeholder_to /\
  call_gas (n_vm n) tx placeholder_to = 21000.
Proof.
  intros Hr (Hfit & Hf & Ht) tx.
  assert (E : tx_sequence_number tx = (r - 1) * 10000).
  { subst tx. simpl. rewrite u64_sub_exact, u64_mul_exact, u64_add_exact; u64_lia. }
  assert (Hg : call_gas (n_vm n) tx placeholder_to = 21000) by (unfold call_gas; by repeat case_match).
  rewrite E. split; [done|]. split; [|done]. split; rewrite ?Hg; try done; try discriminate.
  - split; try (by split; [reflexivity|repeat constructor]); try (apply is_u256_from_u64; u64_lia); [..|rewrite E]; try u64_lia;
      [intros to [= <-]; by split; [reflexivity|repeat constructor]|simpl; u64_lia].
  all: by intros ?.
Qed.

Lemma placeholder_call n now r tx L :
  tx_from tx = placeholder_from -> u256_val (tx_value tx) = 100 -> u256_val (tx_gas_price tx) = 1000000000 ->
  tx_gas_limit tx = 21000 -> tx_nonce tx = 0 -> call_gas (n_vm n) tx placeholder_to = 21000 ->
  let L' := (ledger_call (n_vm n) (round_block n now r) tx placeholder_to L).1 in
  let L'' := if placeholder_due L then placeholder_paid (commit_coinbase n r) L else L in
  (forall a, balance L' a = balance L'' a) /\ (forall a, nonce L' a = nonce L'' a).
Proof.
  intros Ef Ev Ep Eg En Ec. unfold ledger_call, placeholder_due, placeholder_paid. rewrite Ef, Ev, Ep, Eg, En, Ec.
  change (100 + 21000 * 1000000000) with 21000000000100. destruct (_ && _); [|done].
  split; intros a; simpl; rewrite ?nonce_credit, ?nonce_bump, ?balance_credit, ?balance_bump, ?balance_credit, ?nonce_credit; [|done].
  repeat case_decide; lia.
Qed.

(** One commit after the first round. *)
Lemma process_commit_ledger `{!HashesOk} now ids n c L :
  1 < cr_round c -> round_fits n (cr_round c) ->
  data (n_state_db n) = ∅ -> shows (fun key => base_state (n_state_db n) !! key) L -> supply L < 2 ^ 128 ->
  let n' := (RytherNode_process_commit now ids n c).1 in
  let L' := if placeholder_due L then placeholder_paid (commit_coinbase n (cr_round c)) L else L in
  data (n_state_db n') = ∅ /\ shows (fun key => base_state (n_state_db n') !! key) L' /\
  n_validators n' = n_validators n /\
  transactions_processed (n_stats n') = transactions_processed (n_stats n) ⊞ 1 /\
  rounds_committed (n_stats n') = rounds_committed (n_stats n) ⊞ 1 /\ current_round (n_stats n') = cr_round c.
Proof.
  intros Hr Hfit Hd Hs Hsup. destruct (placeholder_plain n now _ Hr Hfit) as (Hq & Hp & Hg).
  unfold RytherNode_process_commit, assign_sequences, commit_transactions. rewrite (proj2 (Z.ltb_lt _ _) Hr). cbn [imap].
  set (tx := set_sequence_number _ _) in *. fold (round_block n now (cr_round c)).
  pose proof (batch_refines (n_vm n) (round_block n now (cr_round c)) (n_executor n) [tx] (n_state_db n) L Hd Hs Hsup) as Hb.
  destruct (placeholder_call n now (cr_round c) tx L eq_refl eq_refl eq_refl eq_refl eq_refl Hg) as [Eb En].
  destruct (ParallelExecutor_execute_batch _ _ _ _) as [st rs].
  unfold ledger_run in Hb. change (sort_txs [tx]) with [tx] in Hb. cbn [fold_left] in Hb.
  unfold ledger_step in Hb. rewrite (pc_to _ _ _ _ Hp) in Hb. cbn [fst snd] in Hb.
  destruct (ledger_call _ _ _ _ _) as [L1 s1]. cbn [fst] in Eb, En. cbn.
  destruct Hb as (_ & Hsh & _); [by apply NoDup_singleton|apply Forall_singleton; split; [done|by exists placeholder_to]|].
  split; [apply finalize_in_jmt|]. split; [by eapply shows_balances|done].
Qed.

Lemma supply_paid cb L : supply (placeholder_paid cb L) = supply L.
Proof. unfold placeholder_paid. rewrite !supply_credit, supply_bump, supply_credit. lia. Qed.

(** The transfer takes effect once: it raises the sender's nonce. *)
Lemma paid_not_due cb L : placeholder_due L = true -> placeholder_due (placeholder_paid cb L) = false.
Proof.
  unfold placeholder_due, placeholder_paid. rewrite !nonce_credit, nonce_bump, nonce_credit, decide_True by done.
  intros. bool_to_prop. apply andb_false_intro1. lia.
Qed.

Lemma commit_coinbase_validators n n' r : n_validators n' = n_validators n -> commit_coinbase n' r = commit_coinbase n r.
Proof. unfold commit_coinbase. by intros ->. Qed.

(** A node between commits: no versions are left and the base state shows the
    ledger. *)
Record settled n (L : Ledger) : Prop := {
  se_versions : data (n_state_db n) = ∅;
  se_shows : shows (fun key => base_state (n_state_db n) !! key) L;
  se_supply : supply L < 2 ^ 128
}.

Lemma after_commits_none n rounds L : placeholder_due L = false -> after_commits n rounds L = L.
Proof. intros Hd. unfold after_commits. destruct (filter _ _); by rewrite ?Hd. Qed.

Lemma after_commits_cons n r rounds L :
  1 < r ->
  after_commits n (r :: rounds) L =
    after_commits n rounds (if placeholder_due L then placeholder_paid (commit_coinbase n r) L else L).
Proof.
  intros Hr. unfold after_commits at 1. rewrite filter_cons, decide_True by done.
  destruct (placeholder_due L) eqn:E; [by rewrite after_commits_none by by apply paid_not_due|by rewrite after_commits_none].
Qed.

Lemma after_commits_skip n r rounds L : r <= 1 -> after_commits n (r :: rounds) L = after_commits n rounds L.
Proof. intros Hr. unfold after_commits. by rewrite filter_cons, decide_False by lia. Qed.

Lemma after_commits_validators n n' rounds L :
  n_validators n' = n_validators n -> after_commits n' rounds L = after_commits n rounds L.
Proof.
  intros E. unfold after_commits. destruct (filter _ _); [done|]. by rewrite (commit_coinbase_validators n n').
Qed.

Lemma round_fits_validators n n' r : n_validators n' = n_validators n -> round_fits n r -> round_fits n' r.
Proof. intros E. unfold round_fits. by rewrite (commit_coinbase_validators n n'). Qed.

Lemma process_commit_first now ids n c : cr_round c <= 1 -> (RytherNode_process_commit now ids n c).1 = n.
Proof.
  intros Hr. unfold RytherNode_process_commit, commit_transactions. by rewrite (proj2 (Z.ltb_ge _ _)) by lia.
Qed.

Definition executed_rounds (l : list CommitResult) : list Z := filter (fun r => 1 < r) (map cr_round l).

Lemma process_commits_ledger `{!HashesOk} now ids l n L out :
  settled n L -> Forall (round_fits n) (executed_rounds l) ->
  let n' := (fold_left (fun '(n, sent) c => let '(n, msgs) := RytherNode_process_commit now (ids (cr_round c)) n c in
    (n, sent ++ msgs)) l (n, out)).1 in
  settled n' (after_commits n (map cr_round l) L) /\
  rounds_committed (n_stats n') = fold_left (fun s _ => s ⊞ 1) (executed_rounds l) (rounds_committed (n_stats n)) /\
  transactions_processed (n_stats n') = fold_left (fun s _ => s ⊞ 1) (executed_rounds l) (transactions_processed (n_stats n)).
Proof.
  revert n L out. induction l as [|c l IH]; intros n L out [Hd Hs Hsup] Hf; [done|].
  unfold executed_rounds in *. cbn [map fold_left] in *. rewrite filter_cons in Hf |- *. case_decide as Hr.
  - apply Forall_cons in Hf as [Hf0 Hf]. rewrite after_commits_cons by done.
    destruct (process_commit_ledger now (ids (cr_round c)) n c L Hr Hf0 Hd Hs Hsup) as (Hd' & Hs' & Hv & Ht & Hc & _).
    destruct (RytherNode_process_commit _ _ n c) as [n1 msgs]. cbn [fst] in *.
    set (L1 := if placeholder_due L then _ else L) in *.
    destruct (IH n1 L1 (out ++ msgs)) as (HI & HC & HT).
    + split; [done..|]. subst L1. destruct (placeholder_due L); by rewrite ?supply_paid.
    + eapply Forall_impl; [exact Hf|]. intros r. by apply round_fits_validators.
    + rewrite (after_commits_validators n n1) in HI by done. cbn [fold_left]. by rewrite HC, HT, Hc, Ht.
  - pose proof (process_commit_first now (ids (cr_round c)) n c) as E. rewrite after_commits_skip by lia.
    destruct (RytherNode_process_commit _ _ n c) as [n1 msgs]. cbn [fst] in E. rewrite E by lia. by apply IH.
Qed.

Lemma count_wraps {A} (l : list A) s : is_u64 s -> fold_left (fun s _ => s ⊞ 1) l s = s ⊞ Z.of_nat (length l).
Proof.
  revert s. induction l as [|x l IH]; intros s Hs; cbn [fold_left length]; [rewrite u64_add_exact; rewrite Z.add_0_r; done|].
  rewrite IH by apply u64_add_is. unfold u64_add. rewrite Zplus_mod_idemp_l. f_equal. lia.
Qed.

(** C22: what committed rounds do to the ledger.  Take a node without pending
    versions whose base state shows a ledger of less than 2^128 in all, and
    commits, in any number and order, whose rounds after the first have a
    sequence number below [u64::MAX] and a coinbase that is neither party of
    the placeholder transaction.  Then processing them leaves a base state that
    shows the ledger in which the first round after round 1 moved 100 from the
    placeholder's sender to its recipient and 21000 * 10^9 to that round's
    coinbase and raised the sender's nonce, if that nonce was 0 and the sender
    had the sum, and is unchanged otherwise; no version is left, and both
    counters grow by the number of rounds after the first.  The clock, the
    pool, the events of the committed rounds and the transactions they carry
    have no part in it. *)
Theorem commits_pay_once `{!HashesOk} (now : Z) (ids : Z -> nat -> bytes) (n : Node) (l : list CommitResult) (L : Ledger) :
  settled n L -> Forall (round_fits n) (executed_rounds l) ->
  is_u64 (rounds_committed (n_stats n)) -> is_u64 (transactions_processed (n_stats n)) ->
  let n' := (process_commits now ids n l).1 in
  settled n' (after_commits n (map cr_round l) L) /\
  rounds_committed (n_stats n') = rounds_committed (n_stats n) ⊞ Z.of_nat (length (executed_rounds l)) /\
  transactions_processed (n_stats n') = transactions_processed (n_stats n) ⊞ Z.of_nat (length (executed_rounds l)).
Proof. intros Hs Hf Hr Ht. rewrite <- !count_wraps by done. by apply process_commits_ledger. Qed.

End node.


(** ** Witnesses *)

(** Keys that are their bytes. *)
Definition plain_keys : Bls (list Z) := {|
  key_from_bytes := fun b => Some b;
  key_public_bytes := fun b => b ++ replicate 16 0;
  key_sign := fun _ _ => BlsSignature_default
|}.

Definition node_config : NodeConfig :=
  mkNodeConfig (mkChainConfig 1 (replicate 32 0) "test" four) NetworkConfig_default StorageConfig_default
    (ExecutionConfig_default 4) RpcConfig_default (Some (mkValidatorConfig "key" true 0)).

Definition node_sample : option (RytherNode (list Z)) :=
  RytherNode_new (H0 := plain_keys) (peer_id 1) 4 0 node_config (Some (replicate 32 1)).

Definition share_ids (round : Z) (i : nat) : bytes := le_bytes 8 round ++ le_bytes 8 (Z.of_nat i).

Lemma node_never_commits_witness :
  exists n, node_sample = Some n /\
    n_state_db (node_run (H := checksum_hashes) (H0 := plain_keys) n [NTick 1 gossip_ids share_ids; NTick 2 gossip_ids share_ids]) = MultiVersionState_new.
Proof.
  eexists. split; [reflexivity|].
  exact (proj1 (node_never_commits (H := checksum_hashes) (H0 := plain_keys) (peer_id 1) 4 0 node_config (Some (replicate 32 1)) _
    [NTick 1 gossip_ids share_ids; NTick 2 gossip_ids share_ids] eq_refl)).
Defined.

Lemma first_event_rejected_witness :
  exists n e, node_sample = Some n /\ (RytherNode_create_event (H := checksum_hashes) (H0 := plain_keys) n).2 = Some e /\
    DagEvent_validate_structure e = inl NoParents.
Proof.
  eexists. destruct (first_event_rejected (H := checksum_hashes) (H0 := plain_keys) (peer_id 1) 4 0 node_config (replicate 32 1)
    (replicate 32 1) _ ltac:(discriminate) eq_refl eq_refl eq_refl) as (e & He & _ & Hv & _).
  exists e. split; [reflexivity|]. split; [exact He|exact Hv].
Defined.

(** A validator's node whose DAG holds the given events. *)
Definition node_with (es : list DagEvent) (st : MultiVersionState) : RytherNode (list Z) :=
  mkNode node_config Running (peer_id 1) (Some (mkValidatorId (replicate 48 1))) (Some []) four_set LamportClock_new
    detector st vm_sample (mkConfig 4 3) (TransactionPool_new 10)
    (GossipProtocol_new (peer_id 1) (PeerManager_new (peer_id 1) 8) (dag_of es) GossipConfig_default)
    (NodeStats_default 0) (mkParams 4 3) ∅.

Lemma create_event_extends_witness :
  exists e, (RytherNode_create_event (H := checksum_hashes) (H0 := plain_keys) (node_with dag_sample MultiVersionState_new)).2 = Some e /\
    valid_event e.
Proof.
  destruct (create_event_extends (H := checksum_hashes) (H0 := plain_keys) (node_with dag_sample MultiVersionState_new)
    dag_sample (mkValidatorId (replicate 48 1)) []) as (n' & e & He & Hv & _).
  - reflexivity.
  - apply consistent_by_check. vm_compute. reflexivity.
  - repeat constructor; vm_compute; discriminate.
  - discriminate.
  - reflexivity.
  - reflexivity.
  - vm_compute. reflexivity.
  - vm_compute. split; [discriminate|reflexivity].
  - exists e. rewrite He. split; [reflexivity|exact Hv].
Defined.

(** A database in which the placeholder's sender has 30 * 10^12, and the
    commits of rounds 1, 2 and 3. *)
Definition rich_state : MultiVersionState :=
  MultiVersionState_with_base_state [(balance_key placeholder_from, U256_from_u64 30000000000000)].
Definition rich_ledger : Ledger := mkLedger {[placeholder_from := 30000000000000]} ∅.

Definition three_commits : list CommitResult := map (fun r => mkCommit r [] (mkValidatorId []) (r + 1)) [1; 2; 3].

Lemma commits_pay_once_witness :
  exists L, let n' := (process_commits (H := checksum_hashes) 5 share_ids (node_with dag_sample rich_state) three_commits).1 in
  settled n' L /\
  map (balance L) [placeholder_from; placeholder_to; Address_zero] = [8999999999900; 100; 21000000000000] /\
  nonce L placeholder_from = 1 /\ rounds_committed (n_stats n') = 2.
Proof.
  eexists. cbv zeta.
  destruct (commits_pay_once (H := checksum_hashes) (H1 := checksum_hashes_ok) 5 share_ids (node_with dag_sample rich_state) three_commits rich_ledger)
    as (Hs & Hr & _).
  - split; [reflexivity| |vm_compute; reflexivity]. apply one_account_shown, is_u256_from_u64. u64_lia.
  - repeat constructor; vm_compute; (reflexivity || discriminate).
  - vm_compute. by split.
  - vm_compute. by split.
  - split; [exact Hs|]. split; [vm_compute; reflexivity|]. split; [vm_compute; reflexivity|]. rewrite Hr. reflexivity.
Defined.

(** The clock never takes part in receiving: an event received with Lamport
    time 100 becomes the parent of an event created with Lamport time 1. *)
Definition late_event : DagEvent :=
  mkEvent (replicate 32 9) (mkValidatorId (replicate 48 2)) 100 3 [replicate 32 8] [] EncryptedBatch_empty BlsSignature_default.

Theorem created_event_predates_parent :
  let message := NetworkMessage_new (gossip_ids 1) (peer_id 2) (MsgEventResponse (mkResponse [late_event] [])) in
  let n := node_step (H := checksum_hashes) (H0 := plain_keys) (node_with [] MultiVersionState_new) (NMessage 1 [] (peer_id 2) message) in
  exists e, (RytherNode_create_event (H := checksum_hashes) (H0 := plain_keys) n).2 = Some e /\
    ev_strong_parents e = [ev_id late_event] /\ ev_lamport_time e < ev_lamport_time late_event.
Proof. eexists. split; [vm_compute; reflexivity|]. split; [reflexivity|simpl; lia]. Qed.
