(* ===== verification/Cluster.v ===== *)
(** * A network of nodes: [src/node/node.rs], [src/network/gossip.rs]

    Nodes that run the code of [Node] and exchange messages.  A message sent
    stays in the network: it can be delivered to any node, late, out of order,
    several times or never, which covers what the connections of [Transport]
    do and more.  An adversary can put messages of its own into the network:
    it may run validators, say anything and stay silent, but it does not make
    events for the validators of the nodes.  The history of the events made is
    a ghost: no step looks at it.

    The theorems compose consensus with execution: when the adversary does not
    equivocate either, the nodes are replicas of one log, of which each has
    executed a prefix; when it does, the validators of the nodes still have one
    event per round. *)

From S2P Require Import Prelude Types Lamport Transaction Event Validator State Jmt Mvcc Conflict Vm Executor.
From S2P Require Import Dag Consensus Threshold Mempool Peer Gossip Node.

(** The events a message carries into the store of whoever handles it. *)
Definition message_events (m : NetworkMessage) : list DagEvent :=
  match nm_payload m with MsgEventResponse r => rs_events r | _ => [] end.

Section cluster.
Context `{Hashes} {SecretKey : Type} `{Bls SecretKey}.
Abbreviation Node := (RytherNode SecretKey) (only parsing).

Record Cluster := mkCluster {
  cl_nodes : gmap nat Node;
  cl_soup : list NetworkMessage;
  cl_history : list DagEvent
}.

Inductive ClusterStep :=
| CTick (i : nat) (now : Z) (message_ids : nat -> bytes) (share_ids : Z -> nat -> bytes)
| CDeliver (i k : nat) (now : Z) (reply_id : bytes) (from : PeerId)
| CCleanup (i : nat) (now : Z)
| CInject (m : NetworkMessage).

Definition cluster_step (cl : Cluster) (s : ClusterStep) : Cluster :=
  match s with
  | CTick i now message_ids share_ids =>
      match cl_nodes cl !! i with
      | Some n =>
          let '(n', sent) := producer_tick now message_ids share_ids n in
          mkCluster (<[i := n']> (cl_nodes cl)) (cl_soup cl ++ sent.*2)
            (cl_history cl ++ option_list (RytherNode_create_event n).2)
      | None => cl
      end
  | CDeliver i k now reply_id from =>
      match cl_nodes cl !! i, cl_soup cl !! k with
      | Some n, Some m =>
          let '(n', sent) := RytherNode_handle_message now reply_id n from m in
          mkCluster (<[i := n']> (cl_nodes cl)) (cl_soup cl ++ sent.*2) (cl_history cl)
      | _, _ => cl
      end
  | CCleanup i now =>
      match cl_nodes cl !! i with
      | Some n => mkCluster (<[i := node_step n (NCleanup now)]> (cl_nodes cl)) (cl_soup cl) (cl_history cl)
      | None => cl
      end
  | CInject m => mkCluster (cl_nodes cl) (cl_soup cl ++ [m]) (cl_history cl ++ message_events m)
  end.

Definition cluster_run (cl : Cluster) (steps : list ClusterStep) : Cluster := fold_left cluster_step steps cl.

(** ** The adversary *)

(** No two events of one creator and round have different ids. *)
Definition one_per_round (h : list DagEvent) : Prop :=
  forall e e', e ∈ h -> e' ∈ h -> ev_creator e = ev_creator e' -> ev_round e = ev_round e' -> ev_id e = ev_id e'.

Definition runs_validator (cl : Cluster) (v : ValidatorId) : Prop :=
  exists i n, cl_nodes cl !! i = Some n /\ n_validator_id n = Some v.

(** What the adversary may say: events that exist, and events of validators
    that no node runs, one per round. *)
Definition step_allowed (cl : Cluster) (s : ClusterStep) : Prop :=
  match s with
  | CInject m =>
      (forall e, e ∈ message_events m -> e ∈ cl_history cl \/ ~ runs_validator cl (ev_creator e)) /\
      one_per_round (cl_history cl ++ message_events m)
  | _ => True
  end.

Fixpoint run_allowed (cl : Cluster) (steps : list ClusterStep) : Prop :=
  match steps with
  | [] => True
  | s :: steps => step_allowed cl s /\ run_allowed (cluster_step cl s) steps
  end.

(** ** The replicated log *)

Definition log_entry : Type := Z * EventId * ValidatorId.

Definition commit_of (x : log_entry) : CommitResult := mkCommit x.1.1 x.1.2 x.2 0.

(** The detector after confirming a log. *)
Definition replay (c : CommitDetector) (log : list log_entry) : CommitDetector :=
  fold_left (fun c x => CommitDetector_confirm_commit c x.1.1 x.1.2) log c.

(** The database of a node that starts as [n] and executes a log at once. *)
Definition replay_state (n : Node) (log : list log_entry) : MultiVersionState :=
  n_state_db (process_commits 0 (fun _ _ => []) n (map commit_of log)).1.

(** A log that the history justifies: the rounds follow each other and each
    entry is the event of the leader elected for its round. *)
Inductive justified (h : list DagEvent) (c : CommitDetector) : list log_entry -> Prop :=
| just_nil : justified h c []
| just_cons e log :
    e ∈ h -> ev_round e = cd_last_committed c + 1 ->
    elect_leader (cd_validator_set c) (ev_round e) (cd_seed c) = Some (ev_creator e) ->
    justified h (CommitDetector_confirm_commit c (ev_round e) (ev_id e)) log ->
    justified h c ((ev_round e, ev_id e, ev_creator e) :: log).

(** A node has committed and executed the log. *)
Record at_log (c0 : CommitDetector) (n0 n : Node) (log : list log_entry) : Prop := {
  al_detector : n_commit_detector n = replay c0 log;
  al_state : n_state_db n = replay_state n0 log
}.

(** The start: a common set of events and detector, equal ledgers, and
    different validators. *)
Record genesis (c0 : CommitDetector) (n0 : Node) (es : list DagEvent) (cl : Cluster) : Prop := {
  gn_soup : cl_soup cl = [];
  gn_history : cl_history cl = es;
  gn_events : one_per_round es;
  gn_nodes : forall i n, cl_nodes cl !! i = Some n ->
    n_dag n = dag_of es /\ n_commit_detector n = c0 /\ same_ledger n0 n;
  gn_last : cd_last_committed c0 = 0;
  gn_validators : forall i j n n' v, cl_nodes cl !! i = Some n -> cl_nodes cl !! j = Some n' ->
    n_validator_id n = Some v -> n_validator_id n' = Some v -> i = j
}.

(** No node has seen the last round number. *)
Definition rounds_fit (cl : Cluster) : Prop :=
  forall i n, cl_nodes cl !! i = Some n -> dag_max_round (n_dag n) < u64_max.

(** ** Stores *)

Definition inserts (d : DagStore) (es : list DagEvent) : DagStore := fold_left DagStore_insert es d.

(** Everything a store holds is part of the history. *)
Record dag_within (h : list DagEvent) (d : DagStore) : Prop := {
  dw_events : forall id e, events d !! id = Some e -> ev_id e = id /\ e ∈ h;
  dw_index : forall c r id, by_creator_round d !! (c, r) = Some id ->
    exists e, e ∈ h /\ ev_creator e = c /\ ev_round e = r /\ ev_id e = id
}.

Lemma dag_within_new h : dag_within h DagStore_new.
Proof. split; intros; simplify_map_eq. Qed.

Lemma dag_within_insert h d e : e ∈ h -> dag_within h d -> dag_within h (DagStore_insert d e).
Proof.
  intros He [Hev Hix]. split; simpl.
  - intros id e'. rewrite lookup_insert_Some. intros [[<- <-]|[_ Hl]]; [done|by apply Hev].
  - intros c r id. rewrite lookup_insert_Some. intros [[[= <- <-] <-]|[_ Hl]]; [by exists e|by apply Hix].
Qed.

Lemma dag_within_inserts h d es : es ⊆ h -> dag_within h d -> dag_within h (inserts d es).
Proof.
  revert d. induction es as [|e es IH]; intros d Hs Hd; [done|]. simpl. apply IH; [set_solver|].
  apply dag_within_insert; [set_solver|done].
Qed.

Lemma dag_within_mono h h' d : h ⊆ h' -> dag_within h d -> dag_within h' d.
Proof.
  intros Hs [Hev Hix]. split.
  - intros id e Hl. destruct (Hev id e Hl). split; [done|by apply Hs].
  - intros c r id Hl. destruct (Hix c r id Hl) as (e & He & ?). exists e. split; [by apply Hs|done].
Qed.

Lemma inserts_max d es : dag_max_round d <= dag_max_round (inserts d es).
Proof. revert d. induction es as [|e es IH]; intros d; simpl; [lia|]. etrans; [|apply IH]. simpl. lia. Qed.

Lemma inserts_round d es e : e ∈ es -> ev_round e <= dag_max_round (inserts d es).
Proof.
  revert d. induction es as [|e' es IH]; intros d; [by intros ?%not_elem_of_nil|].
  intros [->|Hin]%elem_of_cons; simpl; [|by apply IH]. etrans; [|apply inserts_max]. simpl. lia.
Qed.

(** The event the store files under a creator and round has the filed id. *)
Lemma event_at_within h d v r e :
  dag_within h d -> DagStore_event_at d v r = Some e ->
  exists e', e' ∈ h /\ ev_creator e' = v /\ ev_round e' = r /\ ev_id e' = ev_id e.
Proof.
  intros [Hev Hix] Hat. unfold DagStore_event_at in Hat. apply bind_Some in Hat as (id & Hid & Hat).
  destruct (Hix v r id Hid) as (e' & ? & ? & ? & ?). destruct (Hev id e Hat) as [Hide _]. exists e'. by rewrite Hide.
Qed.

(** ** Logs *)

Lemma justified_mono h h' c log : h ⊆ h' -> justified h c log -> justified h' c log.
Proof. intros Hs. induction 1; constructor; auto. Qed.

Lemma justified_app h c l1 l2 : justified h c l1 -> justified h (replay c l1) l2 -> justified h c (l1 ++ l2).
Proof. induction 1; simpl; [done|]. intros Hr. constructor; auto. Qed.

Lemma replay_app c l1 l2 : replay c (l1 ++ l2) = replay (replay c l1) l2.
Proof. apply fold_left_app. Qed.

Lemma confirm_next c id :
  CommitDetector_confirm_commit c (cd_last_committed c + 1) id =
    mkDetector (cd_validator_set c) (cd_last_committed c + 1) (sha256 id).
Proof. unfold CommitDetector_confirm_commit. by rewrite (proj2 (Z.ltb_lt _ _)) by lia. Qed.

Lemma justified_rounds h c log :
  justified h c log ->
  map (fun x => x.1.1) log = seqZ (cd_last_committed c + 1) (Z.of_nat (length log)) /\
  cd_last_committed (replay c log) = cd_last_committed c + Z.of_nat (length log).
Proof.
  induction 1 as [c|c e log Hin Hr Hl Hj [IH1 IH2]]; [simpl; split; [done|lia]|].
  rewrite Hr in IH1, IH2 |- *. rewrite confirm_next in IH1, IH2. cbn [cd_last_committed] in IH1, IH2.
  cbn [map length]. split.
  - rewrite IH1, (seqZ_cons _ (Z.of_nat (S (length log)))) by lia. simpl. f_equal. f_equal; lia.
  - unfold replay in *. cbn [fold_left fst snd]. rewrite confirm_next, IH2. lia.
Qed.

(** Without equivocation, the history justifies one log only. *)
Lemma justified_comparable h c l1 l2 :
  one_per_round h -> justified h c l1 -> justified h c l2 -> l1 `prefix_of` l2 \/ l2 `prefix_of` l1.
Proof.
  intros Hh H1. revert l2. induction H1 as [c|c e l1 Hin Hr Hl Hj IH]; intros l2 H2; [left; apply prefix_nil|].
  inversion H2 as [|e' l2' Hin' Hr' Hl' Hj']; subst; [right; apply prefix_nil|].
  assert (ev_round e = ev_round e') as Er by congruence. rewrite <- Er in *.
  assert (ev_creator e = ev_creator e') as Ec by congruence.
  assert (ev_id e = ev_id e') as Ei by by apply Hh.
  rewrite <- Ec, <- Ei. rewrite <- Ei in Hj'. destruct (IH l2' Hj') as [Hp|Hp]; [left|right]; by apply prefix_cons.
Qed.

Lemma longest_log h c (logs : list (list log_entry)) :
  one_per_round h -> Forall (justified h c) logs ->
  exists log, justified h c log /\ Forall (fun l => l `prefix_of` log) logs.
Proof.
  intros Hh. induction 1 as [|l logs Hl _ (log & Hlog & IH)]; [exists []; split; [constructor|done]|].
  destruct (justified_comparable h c l log Hh Hl Hlog) as [Hp|Hp].
  - exists log. split; [done|by constructor].
  - exists l. split; [done|]. constructor; [done|]. eapply Forall_impl; [exact IH|]. intros x Hx. by trans log.
Qed.

(** What [try_advance] commits on a store of the history is justified. *)
Lemma advances_justified h d c rs c' :
  dag_within h d -> 0 <= cd_last_committed c -> dag_max_round d < u64_max -> advances d c rs c' ->
  justified h c (map commit_key rs) /\ c' = replay c (map commit_key rs).
Proof.
  intros Hd Hl Hm Ha. induction Ha as [c|c r rs c' Hle Hc Ha IH]; [split; [constructor|done]|].
  apply check_commit_Some in Hc as [_ Hround Hleader Hanchor _ _]; [|lia].
  destruct (DagStore_event_at d (cr_leader r) (cd_last_committed c + 1)) as [e|] eqn:He; [|done].
  injection Hanchor as Hid. destruct (event_at_within _ _ _ _ _ Hd He) as (e' & Hin & Hcr & Hrd & Hide).
  rewrite <- confirm_next in IH. destruct IH as [IHj IHr]; [rewrite confirm_next; simpl; lia|].
  cbn [map]. unfold commit_key at 1 3. rewrite Hround, <- Hid, <- Hide, <- Hcr.
  rewrite <- Hid, <- Hide in IHj, IHr. split.
  - rewrite <- Hrd in IHj |- * at 1. constructor; [done|done|congruence|done].
  - exact IHr.
Qed.

Lemma advances_last d c rs c' :
  advances d c rs c' -> cd_last_committed c <= dag_max_round d ->
  cd_last_committed c <= cd_last_committed c' <= dag_max_round d.
Proof. induction 1 as [c|c r rs c' Hle Hc Ha IH]; [lia|]. simpl in IH. intros _. specialize (IH Hle). lia. Qed.

(** ** What a step does to a node *)

Implicit Types n : Node.

(** Fields that handling messages leaves alone. *)
Record quiet n n' : Prop := {
  qt_validator : n_validator_id n' = n_validator_id n;
  qt_detector : n_commit_detector n' = n_commit_detector n;
  qt_ledger : same_ledger n n'
}.

Lemma same_ledger_refl n : same_ledger n n.
Proof. done. Qed.

Lemma same_ledger_trans n1 n2 n3 : same_ledger n1 n2 -> same_ledger n2 n3 -> same_ledger n1 n3.
Proof. intros [] []. split; congruence. Qed.

Lemma response_inserts sender evs g :
  exists es, es ⊆ evs /\ g_dag (fold_left (handle_response_event sender) evs g) = inserts (g_dag g) es.
Proof.
  revert g. induction evs as [|e evs IH]; intros g; simpl; [by exists []|].
  destruct (IH (handle_response_event sender g e)) as (es & Hs & E). rewrite E.
  destruct (validate_cases e) as [[err Hv]|Hv]; unfold handle_response_event; rewrite Hv; cbn [g_dag].
  - exists es. split; [set_solver|done].
  - exists (e :: es). split; [set_solver|done].
Qed.

Lemma collect_events_elem dag ids e : e ∈ (collect_events dag ids).1 -> exists id, events dag !! id = Some e.
Proof.
  unfold collect_events. assert (forall acc, e ∈ (fold_left (fun acc id => match DagStore_get dag id with
    | Some event => (acc.1 ++ [event], acc.2) | None => (acc.1, acc.2 ++ [id]) end) ids acc).1 ->
    e ∈ acc.1 \/ exists id, events dag !! id = Some e) as Hf.
  { induction ids as [|id ids IH]; intros acc; simpl; [by left|]. intros Hin. apply IH in Hin.
    destruct (DagStore_get dag id) as [e'|] eqn:E; simpl in Hin; [|done].
    destruct Hin as [Hin|Hin]; [|by right]. apply elem_of_app in Hin as [Hin|Hin]; [by left|].
    apply list_elem_of_singleton in Hin as ->. right. by exists id. }
  intros Hin. apply Hf in Hin as [Hin|Hin]; [by apply elem_of_nil in Hin|done].
Qed.

Lemma handle_message_effect now reply_id n from m :
  let r := RytherNode_handle_message now reply_id n from m in
  quiet n r.1 /\
  (exists es, es ⊆ message_events m /\ n_dag r.1 = inserts (n_dag n) es) /\
  (forall x e, x ∈ r.2.*2 -> e ∈ message_events x -> exists id, events (n_dag n) !! id = Some e).
Proof.
  unfold RytherNode_handle_message, GossipProtocol_handle_message, message_events, n_dag.
  assert (forall x e, x ∈ @nil NetworkMessage -> e ∈ message_events x -> exists id, events (g_dag (n_gossip n)) !! id = Some e) as Hnil
    by (intros x e Hx; by apply elem_of_nil in Hx).
  assert (exists es, es ⊆ @nil DagEvent /\ g_dag (n_gossip n) = inserts (g_dag (n_gossip n)) es) as Hnone by by exists [].
  destruct (nm_payload m) as [| |a|rq|rs| | | | | | | |]; cbn zeta; try (case_bool; by split_and!).
  - case_bool; [by split_and!|]. unfold GossipProtocol_handle_event_announce. repeat case_bool; [by split_and!..|].
    split_and!; [done|done|]. simpl. by intros x e ->%list_elem_of_singleton He%elem_of_nil.
  - case_bool; [by split_and!|]. unfold GossipProtocol_handle_event_request. cbn [g_dag GossipProtocol_mark_seen].
    destruct (collect_events (g_dag (n_gossip n)) (rq_event_ids rq)) as [evs missing] eqn:Ecol. split_and!; [done|done|].
    simpl. intros x e ->%list_elem_of_singleton He. simpl in He.
    apply (collect_events_elem _ (rq_event_ids rq)). by rewrite Ecol.
  - case_bool; [split_and!; [done|exists []; split; [set_solver|done]|done]|]. split_and!; [done| |done].
    apply (response_inserts (nm_sender m) (rs_events rs) (GossipProtocol_mark_seen now (n_gossip n) (nm_message_id m))).
  - by split_and!.
Qed.

(** Creating an event: its creator is the node's validator, its round the one
    after the last the node knows. *)
Lemma create_event_effect n :
  quiet n (RytherNode_create_event n).1 /\ n_gossip (RytherNode_create_event n).1 = n_gossip n /\
  (forall e, (RytherNode_create_event n).2 = Some e ->
    n_validator_id n = Some (ev_creator e) /\ ev_round e = dag_max_round (n_dag n) ⊞ 1).
Proof.
  unfold RytherNode_create_event. destruct (n_validator_id n) as [v|]; [|done]. destruct (n_validator_key n); [|done].
  simpl. split_and!; [done|done|]. by intros e [= <-].
Qed.

Lemma share_messages_silent ids n evs x : x ∈ (share_messages ids n evs).*2 -> message_events x = [].
Proof.
  unfold share_messages. destruct (n_validator_id n); [|by intros Hx%elem_of_nil].
  intros ([to m] & -> & Hin)%list_elem_of_fmap. apply list_elem_of_In, in_concat in Hin as (l & Hl & Hin).
  apply list_elem_of_In, elem_of_lookup_imap in Hl as (i & e & -> & _).
  apply in_map_iff in Hin as (p & [= <- <-] & _). done.
Qed.

Lemma process_commits_silent now ids n commits x :
  x ∈ (process_commits now ids n commits).2.*2 -> message_events x = [].
Proof.
  unfold process_commits. assert (forall sent, (forall x, x ∈ sent.*2 -> message_events x = []) ->
    x ∈ (fold_left (fun '(n, sent) commit => let '(n, msgs) := RytherNode_process_commit now (ids (cr_round commit)) n commit in
      (n, sent ++ msgs)) commits (n, sent)).2.*2 -> message_events x = []) as Hf.
  { revert n. induction commits as [|c commits IH]; intros n sent Hs; simpl; [apply Hs|].
    destruct (RytherNode_process_commit _ _ _ _) as [n' msgs] eqn:E. apply IH. intros y.
    rewrite fmap_app, elem_of_app. intros [Hy|Hy]; [by apply Hs|].
    assert (msgs = share_messages (ids (cr_round c)) n (DagStore_events_at_round (n_dag n) (cr_round c))) as ->.
    { revert E. unfold RytherNode_process_commit. repeat case_match; by intros [= _ <-]. }
    by apply share_messages_silent in Hy. }
  apply Hf. by intros y Hy%elem_of_nil.
Qed.

Lemma process_commits_keeps now ids n commits :
  n_validator_id (process_commits now ids n commits).1 = n_validator_id n /\
  n_commit_detector (process_commits now ids n commits).1 = n_commit_detector n.
Proof.
  unfold process_commits. assert (forall sent,
    let r := fold_left (fun '(n, sent) commit => let '(n, msgs) := RytherNode_process_commit now (ids (cr_round commit)) n commit in
      (n, sent ++ msgs)) commits (n, sent) in
    n_validator_id r.1 = n_validator_id n /\ n_commit_detector r.1 = n_commit_detector n) as Hf; [|apply Hf].
  revert n. induction commits as [|c commits IH]; intros n sent; simpl; [done|].
  assert (n_validator_id (RytherNode_process_commit now (ids (cr_round c)) n c).1 = n_validator_id n /\
    n_commit_detector (RytherNode_process_commit now (ids (cr_round c)) n c).1 = n_commit_detector n) as [E1 E2].
  { unfold RytherNode_process_commit. repeat case_match; done. }
  destruct (RytherNode_process_commit _ _ _ _) as [n' msgs]. simpl in E1, E2.
  destruct (IH n' (sent ++ msgs)) as [H1 H2]. by rewrite H1, H2.
Qed.

(** The producer's tick as one equation: the created event is inserted (twice),
    the detector advances over the new store, and the commits are processed. *)
Lemma producer_tick_effect now ids sids n :
  let r := producer_tick now ids sids n in
  let d := inserts (n_dag n) (let e := option_list (RytherNode_create_event n).2 in e ++ e) in
  let adv := CommitDetector_try_advance (n_commit_detector n) d in
  n_validator_id r.1 = n_validator_id n /\ n_dag r.1 = d /\ n_commit_detector r.1 = adv.1 /\
  (exists n1, same_ledger n n1 /\ r.1 = (process_commits now sids n1 adv.2).1) /\
  (forall x, x ∈ r.2.*2 -> message_events x = []).
Proof.
  unfold producer_tick. destruct (create_event_effect n) as ([Hv Hd Hl] & Hg & _).
  destruct (RytherNode_create_event n) as [n1 ev]. cbn [fst snd] in *.
  set (d := inserts _ _). set (step := match ev with Some e => _ | None => _ end).
  assert (n_validator_id step.1 = n_validator_id n /\ n_commit_detector step.1 = n_commit_detector n /\
    same_ledger n step.1 /\ n_dag step.1 = d /\ forall x, x ∈ step.2.*2 -> message_events x = []) as (Hv' & Hd' & Hl' & Hdag & Hs).
  { subst step d. destruct ev as [e|]; simpl; unfold n_dag; rewrite ?Hg.
    - split_and!; [done|done|destruct Hl; by split|done|]. intros x (y & -> & Hy)%list_elem_of_fmap.
      apply elem_of_lookup_imap in Hy as (i & p & -> & _). done.
    - split_and!; [done|done|done|done|]. by intros x Hx%elem_of_nil. }
  clearbody step. destruct step as [n2 sent]. cbn [fst snd] in *. rewrite Hd', Hdag.
  destruct (CommitDetector_try_advance (n_commit_detector n) d) as [c commits]. cbn [fst snd].
  pose proof (process_commits_keeps now sids (set_detector c n2) commits) as [K1 K2].
  pose proof (process_commits_gossip now sids (set_detector c n2) commits) as K3.
  pose proof (process_commits_silent now sids (set_detector c n2) commits) as K4.
  assert (same_ledger n (set_detector c n2)) as Hl2 by (destruct Hl'; by split).
  destruct (process_commits now sids (set_detector c n2) commits) as [n3 msgs] eqn:E. cbn [fst snd] in *.
  split_and!; [by rewrite K1| |by rewrite K2| |].
  - unfold n_dag in *. by rewrite K3.
  - exists (set_detector c n2). split; [done|]. by rewrite E.
  - intros x. rewrite fmap_app, elem_of_app. intros [Hx|Hx]; [by apply Hs|by apply K4].
Qed.

(** ** The invariant *)

Context (c0 : CommitDetector) (n0 : Node).

Definition replayed (log : list log_entry) : Node := (process_commits 0 (fun _ _ => []) n0 (map commit_of log)).1.

(** A node whose store is within the history, whose validator has no event
    above the node's last round, and which has executed a justified log. *)
Record node_inv (h : list DagEvent) n (log : list log_entry) : Prop := {
  ni_dag : dag_within h (n_dag n);
  ni_max : 0 <= dag_max_round (n_dag n);
  ni_own : forall e, e ∈ h -> n_validator_id n = Some (ev_creator e) -> ev_round e <= dag_max_round (n_dag n);
  ni_last : 0 <= cd_last_committed (n_commit_detector n) <= dag_max_round (n_dag n);
  ni_log : justified h c0 log;
  ni_detector : n_commit_detector n = replay c0 log;
  ni_ledger : same_ledger (replayed log) n
}.

Record cluster_inv (cl : Cluster) (logs : nat -> list log_entry) : Prop := {
  ci_history : one_per_round (cl_history cl);
  ci_nodes : forall i n, cl_nodes cl !! i = Some n -> node_inv (cl_history cl) n (logs i);
  ci_soup : forall m, m ∈ cl_soup cl -> message_events m ⊆ cl_history cl;
  ci_validators : forall i j n n' v, cl_nodes cl !! i = Some n -> cl_nodes cl !! j = Some n' ->
    n_validator_id n = Some v -> n_validator_id n' = Some v -> i = j
}.

Lemma node_inv_mono h h' n log :
  h ⊆ h' -> (forall e, e ∈ h' -> n_validator_id n = Some (ev_creator e) -> e ∈ h) ->
  node_inv h n log -> node_inv h' n log.
Proof.
  intros Hs Hown [Hd Hm Ho Hl Hj Hc Hg]. split; try done.
  - by eapply dag_within_mono.
  - intros e He Hv. apply Ho; [by apply Hown|done].
  - by eapply justified_mono.
Qed.

(** Handling a message whose events are part of the history. *)
Lemma node_inv_message h now reply_id n from m log :
  message_events m ⊆ h -> node_inv h n log -> node_inv h (RytherNode_handle_message now reply_id n from m).1 log.
Proof.
  intros Hm [Hd Hx Ho Hl Hj Hc Hg].
  destruct (handle_message_effect now reply_id n from m) as ([Hv Hdet Hled] & (es & Hes & Hdag) & _).
  pose proof (inserts_max (n_dag n) es) as Hmax. split; rewrite ?Hdag, ?Hdet, ?Hv; try done; [| |by intros; etrans; [apply Ho|]|..].
  - apply dag_within_inserts; [by trans (message_events m)|done].
  - lia.
  - lia.
  - by eapply same_ledger_trans.
Qed.

Lemma node_inv_cleanup h now n log : node_inv h n log -> node_inv h (node_step n (NCleanup now)) log.
Proof. intros [Hd Hx Ho Hl Hj Hc []]. by split. Qed.

Lemma process_commits_app now ids n l1 l2 :
  (process_commits now ids n (l1 ++ l2)).1 = (process_commits now ids (process_commits now ids n l1).1 l2).1.
Proof.
  set (f := fun '((n, sent) : Node * list (PeerId * NetworkMessage)) commit =>
    let '(n', msgs) := RytherNode_process_commit now (ids (cr_round commit)) n commit in (n', sent ++ msgs)).
  assert (forall l n out out', (fold_left f l (n, out)).1 = (fold_left f l (n, out')).1) as Hout.
  { induction l as [|c l IH]; intros m out out'; cbn [fold_left]; [done|]. unfold f at 2 4.
    destruct (RytherNode_process_commit _ _ m c) as [m' msgs]. apply IH. }
  unfold process_commits. fold f. rewrite fold_left_app. destruct (fold_left f l1 (n, [])) as [n1 out]. apply Hout.
Qed.

(** Executing what was committed keeps a replica in step with the log. *)
Lemma replayed_step now ids log n n1 commits :
  same_ledger (replayed log) n -> same_ledger n n1 ->
  same_ledger (replayed (log ++ map commit_key commits)) (process_commits now ids n1 commits).1.
Proof.
  intros Hl Hn. unfold replayed. rewrite map_app, process_commits_app.
  apply (process_commits_same 0 now (fun _ _ => []) ids); [by eapply same_ledger_trans|].
  rewrite !map_map. by apply map_ext.
Qed.

Lemma round_exact d : 0 <= d -> d < u64_max -> d ⊞ 1 = d + 1.
Proof. intros. apply u64_add_exact. unfold is_u64, u64_max, u64_bound in *. lia. Qed.

(** A tick, against the history with the created event. *)
Lemma node_inv_tick h now ids sids n log :
  node_inv h n log -> dag_max_round (n_dag n) < u64_max ->
  let r := producer_tick now ids sids n in
  dag_max_round (n_dag r.1) < u64_max ->
  exists log', log `prefix_of` log' /\ node_inv (h ++ option_list (RytherNode_create_event n).2) r.1 log'.
Proof.
  intros [Hd Hx Ho Hl Hj Hc Hg] Hfit. destruct (create_event_effect n) as (_ & _ & Hcr).
  destruct (producer_tick_effect now ids sids n) as (Hv & Hdag & Hdet & (n1 & Hn1 & Hrun) & _).
  set (es := option_list (RytherNode_create_event n).2) in *. set (d := inserts (n_dag n) (es ++ es)) in *.
  set (r := producer_tick now ids sids n) in *. cbn zeta in *. intros Hfit'. rewrite Hdag in Hfit'.
  assert (dag_within (h ++ es) d) as Hd'.
  { apply dag_within_inserts; [set_solver|]. eapply dag_within_mono; [|done]. set_solver. }
  assert (dag_max_round (n_dag n) <= dag_max_round d) as Hmax by apply inserts_max.
  pose proof (try_advance_spec (n_commit_detector n) d) as Ht.
  destruct (CommitDetector_try_advance (n_commit_detector n) d) as [c commits]. cbn [fst snd] in *.
  destruct Ht as [Hadv _]; [lia..|].
  destruct (advances_justified (h ++ es) d _ _ _ Hd' (proj1 Hl) Hfit' Hadv) as [Hjust Hrep].
  exists (log ++ map commit_key commits). split; [by apply prefix_app_r|].
  split; rewrite ?Hdag, ?Hdet, ?Hv; [done|lia|..].
  - intros e [He|He]%elem_of_app Hve; [etrans; [by apply Ho|done]|]. apply inserts_round. set_solver.
  - apply advances_last in Hadv; lia.
  - apply justified_app; [eapply justified_mono; [|done]; set_solver|]. by rewrite <- Hc.
  - by rewrite replay_app, <- Hc.
  - rewrite Hrun. by eapply replayed_step.
Qed.

(** ** Every allowed step keeps the invariant *)

Lemma one_per_round_snoc h e :
  one_per_round h -> (forall e', e' ∈ h -> ev_creator e' = ev_creator e -> ev_round e' < ev_round e) ->
  one_per_round (h ++ [e]).
Proof.
  intros Hh He a b Ha Hb Ec Er. rewrite elem_of_app, list_elem_of_singleton in Ha, Hb.
  destruct Ha as [Ha| ->], Hb as [Hb| ->]; [by apply Hh|..|done].
  - specialize (He a Ha Ec). lia.
  - specialize (He b Hb (eq_sym Ec)). lia.
Qed.

(** The node's own event is the first of its creator in its round. *)
Lemma created_fresh h n log :
  one_per_round h -> node_inv h n log -> dag_max_round (n_dag n) < u64_max ->
  one_per_round (h ++ option_list (RytherNode_create_event n).2).
Proof.
  intros Hh Hn Hfit. destruct (create_event_effect n) as (_ & _ & Hcr).
  destruct (RytherNode_create_event n).2 as [e|]; simpl; [|by rewrite app_nil_r].
  destruct (Hcr e eq_refl) as [Hv Hr]. apply one_per_round_snoc; [done|]. intros e' He' Ec.
  rewrite Hr, round_exact by (apply Hn || done).
  pose proof (ni_own _ _ _ Hn e' He' ltac:(by rewrite Ec)). lia.
Qed.

(** Replacing one node, in a history that grows by events that are not of the
    other nodes' validators. *)
Lemma cluster_inv_update cl logs i n n' log' es soup :
  cluster_inv cl logs -> cl_nodes cl !! i = Some n -> n_validator_id n' = n_validator_id n ->
  one_per_round (cl_history cl ++ es) -> node_inv (cl_history cl ++ es) n' log' ->
  (forall e, e ∈ es -> n_validator_id n = Some (ev_creator e)) ->
  (forall m, m ∈ soup -> message_events m ⊆ cl_history cl) -> logs i `prefix_of` log' ->
  exists logs', (forall j, logs j `prefix_of` logs' j) /\
    cluster_inv (mkCluster (<[i := n']> (cl_nodes cl)) (cl_soup cl ++ soup) (cl_history cl ++ es)) logs'.
Proof.
  intros [Hh Hnodes Hsoup Hvals] Hi Hv Hone Hn' Hes Hsent Hp.
  exists (fun j => if decide (i = j) then log' else logs j). split; [intros j; by case_decide; subst|].
  split; cbn [cl_history cl_nodes cl_soup].
  - done.
  - intros j m. rewrite lookup_insert_Some. intros [[<- <-]|[Hne Hj]]; [by rewrite decide_True|].
    rewrite decide_False by done. eapply node_inv_mono; [..|by apply Hnodes]; [set_solver|].
    intros e He Hm. apply elem_of_app in He as [He|He]; [done|]. by destruct Hne; eapply Hvals; [| |apply Hes|].
  - intros m Hm. apply elem_of_app in Hm as [Hm|Hm]; [apply Hsoup in Hm|apply Hsent in Hm]; set_solver.
  - intros j k m m' v. rewrite !lookup_insert_Some.
    intros [[<- <-]|[Hne Hj]] [[<- <-]|[Hne' Hk]]; rewrite ?Hv; [done|by eapply Hvals..].
Qed.

Lemma cluster_step_inv cl logs s :
  cluster_inv cl logs -> step_allowed cl s -> rounds_fit cl -> rounds_fit (cluster_step cl s) ->
  exists logs', (forall j, logs j `prefix_of` logs' j) /\ cluster_inv (cluster_step cl s) logs'.
Proof.
  intros Hinv Hok Hfit Hfit'. pose proof Hinv as [Hh Hnodes Hsoup Hvals].
  destruct s as [i now ids sids|i k now rid from|i now|m]; cbn [cluster_step step_allowed] in *.
  - destruct (cl_nodes cl !! i) as [n|] eqn:Hi; [|by exists logs].
    destruct (create_event_effect n) as (_ & _ & Hcr).
    destruct (producer_tick_effect now ids sids n) as (Hv & _ & _ & _ & Hsent).
    pose proof (node_inv_tick _ now ids sids n _ (Hnodes i n Hi) (Hfit i n Hi)) as Ht.
    destruct (producer_tick now ids sids n) as [n' sent]. cbn [fst snd] in *.
    destruct Ht as (log' & Hp & Hn'); [apply (Hfit' i), lookup_insert_eq|].
    eapply cluster_inv_update; [done|done|done| |done| | |done].
    + by eapply created_fresh; [|apply Hnodes|eapply Hfit].
    + intros e He. apply Hcr. by destruct (RytherNode_create_event n).2; [apply list_elem_of_singleton in He as ->|apply elem_of_nil in He].
    + intros m Hm. rewrite (Hsent m Hm). set_solver.
  - destruct (cl_nodes cl !! i) as [n|] eqn:Hi; [|by exists logs]. destruct (cl_soup cl !! k) as [m|] eqn:Hk; [|by exists logs].
    assert (message_events m ⊆ cl_history cl) as Hm by (apply Hsoup; by eapply list_elem_of_lookup_2).
    pose proof (node_inv_message _ now rid n from m _ Hm (Hnodes i n Hi)) as Hn'.
    destruct (handle_message_effect now rid n from m) as ([Hv _ _] & _ & Hsent).
    destruct (RytherNode_handle_message now rid n from m) as [n' sent]. cbn [fst snd] in *.
    rewrite <- (app_nil_r (cl_history cl)) in Hn' |- *.
    eapply cluster_inv_update; rewrite ?app_nil_r in *; [done|done|done|done|done| | |done].
    + by intros e He%elem_of_nil.
    + intros x Hx e He. destruct (Hsent x e Hx He) as (id & Hid). by apply (dw_events _ _ (ni_dag _ _ _ (Hnodes i n Hi))) in Hid as [_ ?].
  - destruct (cl_nodes cl !! i) as [n|] eqn:Hi; [|by exists logs].
    rewrite <- (app_nil_r (cl_history cl)), <- (app_nil_r (cl_soup cl)).
    eapply cluster_inv_update; rewrite ?app_nil_r; [done|done|done|done|by apply node_inv_cleanup, Hnodes| | |done];
      by intros x Hx%elem_of_nil.
  - destruct Hok as [Hforge Hone]. exists logs. split; [done|]. split; cbn [cl_history cl_nodes cl_soup]; [done|..|done].
    + intros i n Hi. eapply node_inv_mono; [..|by apply Hnodes]; [set_solver|]. intros e [He|He]%elem_of_app Hv; [done|].
      destruct (Hforge e He) as [?|Hr]; [done|]. destruct Hr. by exists i, n.
    + intros x [Hx|Hx]%elem_of_app; [apply Hsoup in Hx; set_solver|]. apply list_elem_of_singleton in Hx as ->. set_solver.
Qed.

(** Rounds only grow, so that a run whose end fits fitted all along. *)
Lemma rounds_fit_step cl s : rounds_fit (cluster_step cl s) -> rounds_fit cl.
Proof.
  assert (forall i n n' soup h, cl_nodes cl !! i = Some n -> dag_max_round (n_dag n) <= dag_max_round (n_dag n') ->
    rounds_fit (mkCluster (<[i := n']> (cl_nodes cl)) soup h) -> rounds_fit cl) as Hone.
  { intros i n n' soup h Hi Hle Hfit j m Hj. destruct (decide (i = j)) as [<-|Hne].
    - specialize (Hfit i n' ltac:(apply lookup_insert_eq)). simplify_eq. lia.
    - apply (Hfit j). simpl. by rewrite lookup_insert_ne. }
  destruct s as [i now ids sids|i k now rid from|i now|m]; simpl; [..|done].
  - destruct (cl_nodes cl !! i) as [n|] eqn:Hi; [|done].
    destruct (producer_tick_effect now ids sids n) as (_ & Hd & _). pose proof (inserts_max (n_dag n)) as Hm.
    destruct (producer_tick now ids sids n) as [n' sent]. eapply Hone; [done|]. simpl in Hd. rewrite Hd. apply Hm.
  - destruct (cl_nodes cl !! i) as [n|] eqn:Hi; [|done]. destruct (cl_soup cl !! k) as [m|]; [|done].
    destruct (handle_message_effect now rid n from m) as (_ & (es & _ & Hd) & _). pose proof (inserts_max (n_dag n)) as Hm.
    destruct (RytherNode_handle_message now rid n from m) as [n' sent]. eapply Hone; [done|]. simpl in Hd. rewrite Hd. apply Hm.
  - destruct (cl_nodes cl !! i) as [n|] eqn:Hi; [|done]. by eapply Hone.
Qed.

Lemma rounds_fit_run cl steps : rounds_fit (cluster_run cl steps) -> rounds_fit cl.
Proof.
  revert cl. induction steps as [|s steps IH]; intros cl; [done|]. intros Hf%IH. by eapply rounds_fit_step.
Qed.

Lemma cluster_run_inv cl logs steps :
  cluster_inv cl logs -> run_allowed cl steps -> rounds_fit (cluster_run cl steps) ->
  exists logs', (forall j, logs j `prefix_of` logs' j) /\ cluster_inv (cluster_run cl steps) logs'.
Proof.
  revert cl logs. induction steps as [|s steps IH]; intros cl logs Hinv Hok Hfit; [by exists logs|].
  destruct Hok as [Hs Hok]. pose proof (rounds_fit_run _ steps Hfit) as Hfit1.
  destruct (cluster_step_inv cl logs s Hinv Hs (rounds_fit_step _ _ Hfit1) Hfit1) as (logs1 & Hp1 & Hinv1).
  destruct (IH _ logs1 Hinv1 Hok Hfit) as (logs2 & Hp2 & Hinv2). exists logs2. split; [|done]. intros j. by trans (logs1 j).
Qed.

Lemma genesis_inv es cl : genesis c0 n0 es cl -> cluster_inv cl (fun _ => []).
Proof.
  intros [Hs Hh Hone Hnodes Hlast Hvals]. split; [by rewrite Hh| |rewrite Hs; by intros m Hm%elem_of_nil|done].
  intros i n Hi. destruct (Hnodes i n Hi) as (Hd & Hc & Hl).
  pose proof (inserts_max DagStore_new es) as Hm. change (inserts DagStore_new es) with (dag_of es) in Hm. simpl in Hm.
  split; rewrite ?Hd, ?Hc, ?Hh; try done; [| |lia|constructor].
  - apply dag_within_inserts; [done|apply dag_within_new].
  - intros e He _. by apply inserts_round.
Qed.

(** ** Properties *)

(** C2: one log for the whole network.  Nodes start from common events, the
    same detector and equal ledgers, and run different validators.  Whatever
    messages are delayed, reordered, repeated or lost, and whatever an
    adversary sends that neither signs for the nodes' validators nor
    equivocates: there is a single log, justified by the events made, such
    that every node, now and at any earlier point of the run, has committed
    and executed a prefix of it; what a node has committed is final. *)
Theorem cluster_refines_log (es : list DagEvent) (cl : Cluster) (steps more : list ClusterStep) :
  genesis c0 n0 es cl -> run_allowed cl (steps ++ more) -> rounds_fit (cluster_run cl (steps ++ more)) ->
  exists log, justified (cl_history (cluster_run cl (steps ++ more))) c0 log /\
    map (fun x => x.1.1) log = seqZ 1 (Z.of_nat (length log)) /\
    forall i n n', cl_nodes (cluster_run cl steps) !! i = Some n ->
      cl_nodes (cluster_run cl (steps ++ more)) !! i = Some n' ->
      exists k k', (k <= k' <= length log)%nat /\
        at_log c0 n0 n (take k log) /\ cd_last_committed (n_commit_detector n) = Z.of_nat k /\
        at_log c0 n0 n' (take k' log) /\ cd_last_committed (n_commit_detector n') = Z.of_nat k'.
Proof.
  intros Hg Hok Hfit. unfold cluster_run in Hfit |- *. rewrite fold_left_app in Hfit |- *.
  fold (cluster_run cl steps) in *. fold (cluster_run (cluster_run cl steps) more) in *.
  assert (run_allowed cl steps /\ run_allowed (cluster_run cl steps) more) as [Hok1 Hok2].
  { clear -Hok. revert cl Hok. induction steps as [|s steps IH]; intros cl Hok; [done|]. destruct Hok as [Hs Hok].
    destruct (IH _ Hok). by split. }
  destruct (cluster_run_inv cl _ steps (genesis_inv es cl Hg) Hok1 (rounds_fit_run _ more Hfit)) as (logs & _ & Hinv).
  destruct (cluster_run_inv _ logs more Hinv Hok2 Hfit) as (logs' & Hp & Hinv').
  destruct (longest_log (cl_history (cluster_run (cluster_run cl steps) more)) c0
    (map (fun x => logs' x.1) (map_to_list (cl_nodes (cluster_run (cluster_run cl steps) more))))) as (log & Hlog & Hall).
  { apply Hinv'. }
  { apply Forall_map, Forall_forall. intros [i n] Hin. apply elem_of_map_to_list in Hin. by apply (ci_nodes _ _ Hinv' i n). }
  exists log. split; [done|]. destruct (justified_rounds _ _ _ Hlog) as [Hr _]. rewrite (gn_last _ _ _ _ Hg) in Hr. split; [done|].
  intros i n n' Hi Hi'. rewrite Forall_map, Forall_forall in Hall.
  specialize (Hall (i, n') ltac:(by apply elem_of_map_to_list)). simpl in Hall.
  exists (length (logs i)), (length (logs' i)).
  assert (logs i `prefix_of` log) as Hpi by by trans (logs' i).
  assert (forall l, l `prefix_of` log -> l = take (length l) log) as Htake by (intros l [x ->]; by rewrite take_app_length).
  assert (forall h m l, node_inv h m l -> at_log c0 n0 m l /\ cd_last_committed (n_commit_detector m) = Z.of_nat (length l)) as Hat.
  { intros h m l [_ _ _ _ Hj Hd [Hs _ _ _]]. split; [by split|]. rewrite Hd, (proj2 (justified_rounds _ _ _ Hj)), (gn_last _ _ _ _ Hg). lia. }
  destruct (Hat _ _ _ (ci_nodes _ _ Hinv i n Hi)) as [Ha Hk], (Hat _ _ _ (ci_nodes _ _ Hinv' i n' Hi')) as [Ha' Hk'].
  rewrite <- (Htake _ Hpi), <- (Htake _ Hall). split_and!; try done; [apply prefix_length, Hp|by apply prefix_length].
Qed.

(** ** Honest nodes against any other validators

    Here the adversary may equivocate: all that is left of its limits is that
    it does not make events for the validators of the nodes. *)

Definition step_unforged (cl : Cluster) (s : ClusterStep) : Prop :=
  match s with
  | CInject m => forall e, e ∈ message_events m -> e ∈ cl_history cl \/ ~ runs_validator cl (ev_creator e)
  | _ => True
  end.

Fixpoint run_unforged (cl : Cluster) (steps : list ClusterStep) : Prop :=
  match steps with
  | [] => True
  | s :: steps => step_unforged cl s /\ run_unforged (cluster_step cl s) steps
  end.

(** One event of a validator per round, as a whole and not by its id. *)
Definition single_events (v : ValidatorId) (h : list DagEvent) : Prop :=
  forall e e', e ∈ h -> e' ∈ h -> ev_creator e = v -> ev_creator e' = v -> ev_round e = ev_round e' -> e = e'.

(** The start: nodes with the same events, which are single for the validators
    of the nodes, and different validators. *)
Record honest_start (es : list DagEvent) (cl : Cluster) : Prop := {
  hs_soup : cl_soup cl = [];
  hs_history : cl_history cl = es;
  hs_single : forall v, runs_validator cl v -> single_events v es;
  hs_nodes : forall i n, cl_nodes cl !! i = Some n -> n_dag n = dag_of es;
  hs_validators : forall i j n n' v, cl_nodes cl !! i = Some n -> cl_nodes cl !! j = Some n' ->
    n_validator_id n = Some v -> n_validator_id n' = Some v -> i = j
}.

(** An event is filed under its creator and round, and something is stored
    under its id. *)
Definition filed (d : DagStore) (e : DagEvent) : Prop :=
  by_creator_round d !! (ev_creator e, ev_round e) = Some (ev_id e) /\ is_Some (events d !! ev_id e).

Lemma filed_inserts d es e :
  (forall x, x ∈ es -> ev_creator x = ev_creator e -> ev_round x = ev_round e -> x = e) ->
  e ∈ es \/ filed d e -> filed (inserts d es) e.
Proof.
  revert d. induction es as [|x es IH]; intros d Hu; [by intros [?%elem_of_nil|?]|]. intros Hf. simpl. apply IH.
  { intros y Hy. apply Hu. by right. }
  destruct Hf as [[->|Hin]%elem_of_cons|[Hi He]]; [right|by left|right]; unfold filed; simpl.
  - by rewrite !lookup_insert_eq.
  - rewrite lookup_insert_is_Some'. split; [|by right].
    destruct (decide ((ev_creator x, ev_round x) = (ev_creator e, ev_round e))) as [E|Hne]; [|by rewrite lookup_insert_ne].
    injection E as Ec Er. rewrite (Hu x ltac:(left) Ec Er). apply lookup_insert_eq.
Qed.

(** A node whose store is within the history and files all the events of the
    node's own validator, which it knows to be in the past. *)
Record honest_node (h : list DagEvent) n : Prop := {
  hn_dag : dag_within h (n_dag n);
  hn_max : 0 <= dag_max_round (n_dag n);
  hn_own : forall e, e ∈ h -> n_validator_id n = Some (ev_creator e) ->
    ev_round e <= dag_max_round (n_dag n) /\ filed (n_dag n) e
}.

Record honest_inv (cl : Cluster) : Prop := {
  hi_single : forall v, runs_validator cl v -> single_events v (cl_history cl);
  hi_nodes : forall i n, cl_nodes cl !! i = Some n -> honest_node (cl_history cl) n;
  hi_soup : forall m, m ∈ cl_soup cl -> message_events m ⊆ cl_history cl;
  hi_validators : forall i j n n' v, cl_nodes cl !! i = Some n -> cl_nodes cl !! j = Some n' ->
    n_validator_id n = Some v -> n_validator_id n' = Some v -> i = j
}.

(** Inserting events of the history. *)
Lemma honest_inserts h n n' es :
  honest_node h n -> n_validator_id n' = n_validator_id n -> n_dag n' = inserts (n_dag n) es -> es ⊆ h ->
  (forall v, n_validator_id n = Some v -> single_events v h) -> honest_node h n'.
Proof.
  intros [Hd Hm Ho] Hv Hdag Hes Hs. pose proof (inserts_max (n_dag n) es) as Hmax. split; rewrite ?Hdag, ?Hv.
  - by apply dag_within_inserts.
  - lia.
  - intros e He Hve. destruct (Ho e He Hve) as [Hle Hf]. split; [lia|]. apply filed_inserts; [|by right].
    intros x Hx Ec Er. apply (Hs _ Hve); [by apply Hes|done|done|done|done].
Qed.

(** A node stays honest when the history grows by events of others. *)
Lemma honest_mono h h' n :
  h ⊆ h' -> (forall e, e ∈ h' -> n_validator_id n = Some (ev_creator e) -> e ∈ h) -> honest_node h n -> honest_node h' n.
Proof.
  intros Hs Hown [Hd Hm Ho]. split; [by eapply dag_within_mono|done|]. intros e He Hv. apply Ho; [by apply Hown|done].
Qed.

(** The event a node creates is the only one of its validator in its round. *)
Lemma created_single h n e :
  honest_node h n -> dag_max_round (n_dag n) < u64_max -> (RytherNode_create_event n).2 = Some e ->
  single_events (ev_creator e) h -> single_events (ev_creator e) (h ++ [e]).
Proof.
  intros [_ Hm Ho] Hfit He Hs a b Ha Hb Ea Eb Er. destruct (create_event_effect n) as (_ & _ & Hcr).
  destruct (Hcr e He) as [Hv Hround]. rewrite round_exact in Hround by done.
  rewrite elem_of_app, list_elem_of_singleton in Ha, Hb.
  destruct Ha as [Ha| ->], Hb as [Hb| ->]; [by apply Hs|..|done].
  - destruct (Ho a Ha); [congruence|lia].
  - destruct (Ho b Hb); [congruence|lia].
Qed.

(** Replacing a node by one with the same validator, in a history that grows by
    events of that validator. *)
Lemma honest_update cl i n n' es soup :
  honest_inv cl -> cl_nodes cl !! i = Some n -> n_validator_id n' = n_validator_id n ->
  (forall e, e ∈ es -> n_validator_id n = Some (ev_creator e) /\ single_events (ev_creator e) (cl_history cl ++ es)) ->
  honest_node (cl_history cl ++ es) n' -> (forall m, m ∈ soup -> message_events m ⊆ cl_history cl) ->
  honest_inv (mkCluster (<[i := n']> (cl_nodes cl)) (cl_soup cl ++ soup) (cl_history cl ++ es)).
Proof.
  intros [Hs Hnodes Hsoup Hvals] Hi Hv Hes Hn' Hsent. split; cbn [cl_history cl_nodes cl_soup].
  - intros v (j & m & Hj & Hm). assert (runs_validator cl v) as Hrun.
    { cbn [cl_nodes] in Hj. apply lookup_insert_Some in Hj as [[<- <-]|[_ Hj]]; [exists i, n; by rewrite <- Hv|by exists j, m]. }
    destruct es as [|e es'] eqn:E; [rewrite app_nil_r; by apply Hs|]. rewrite <- E in *.
    destruct (decide (ev_creator e = v)) as [<-|Hne]; [apply Hes; rewrite E; left|].
    assert (forall x, x ∈ es -> ev_creator x <> v) as Hno.
    { intros x Hx <-. apply Hne. destruct (Hes x Hx) as [Hx' _]. destruct (Hes e ltac:(rewrite E; left)) as [He' _]. congruence. }
    intros a b [Ha|Ha]%elem_of_app [Hb|Hb]%elem_of_app Ea Eb; [by apply (Hs v Hrun)|by destruct (Hno b Hb)|by destruct (Hno a Ha)|by destruct (Hno a Ha)].
  - intros j m. rewrite lookup_insert_Some. intros [[<- <-]|[Hne Hj]]; [done|]. eapply honest_mono; [..|exact (Hnodes j m Hj)]; [set_solver|].
    intros e [He|He]%elem_of_app Hm; [done|]. destruct Hne. destruct (Hes e He) as [Hx _]. exact (Hvals i j n m _ Hi Hj Hx Hm).
  - intros m [Hm|Hm]%elem_of_app; [apply Hsoup in Hm|apply Hsent in Hm]; set_solver.
  - intros j k m m' v. rewrite !lookup_insert_Some.
    intros [[<- <-]|[Hne Hj]] [[<- <-]|[Hne' Hk]]; rewrite ?Hv; [done|by eapply Hvals..].
Qed.

Lemma honest_tick cl i n now ids sids :
  honest_inv cl -> rounds_fit cl -> cl_nodes cl !! i = Some n ->
  honest_inv (cluster_step cl (CTick i now ids sids)).
Proof.
  intros Hinv Hfit Hi. cbn [cluster_step]. rewrite Hi. pose proof (hi_nodes _ Hinv i n Hi) as Hn.
  destruct (create_event_effect n) as (_ & _ & Hcr).
  pose proof (fun e => created_single _ n e Hn (Hfit i n Hi)) as Hone.
  destruct (producer_tick_effect now ids sids n) as (Hv & Hdag & _ & _ & Hsent).
  destruct (producer_tick now ids sids n) as [n' sent]. cbn [fst snd] in *.
  destruct (RytherNode_create_event n).2 as [e|]; cbn [option_list app] in *.
  - destruct (Hcr e eq_refl) as [Hve Hround].
    assert (single_events (ev_creator e) (cl_history cl ++ [e])) as Hs1.
    { apply Hone; [done|]. apply Hinv. by exists i, n. }
    eapply honest_update; [done|done|done| | |intros m Hm; rewrite (Hsent m Hm); set_solver].
    { intros x ->%list_elem_of_singleton. done. }
    destruct Hn as [Hd Hm Ho]. pose proof (inserts_max (n_dag n) [e; e]) as Hmax. split; rewrite ?Hdag, ?Hv; [|by etrans; [exact Hm|exact Hmax]|].
    + apply dag_within_inserts; [set_solver|]. eapply dag_within_mono; [|done]. set_solver.
    + assert (forall x, x ∈ cl_history cl ++ [e] -> ev_creator x = ev_creator e -> forall y, y ∈ [e; e] ->
        ev_creator y = ev_creator x -> ev_round y = ev_round x -> y = x) as Hu.
      { intros x Hx Ex y Hy Ey Er. apply Hs1; [set_solver|done|congruence|done|done]. }
      intros x Hx Hvx. assert (ev_creator x = ev_creator e) as Ex by congruence. pose proof (Hu x Hx Ex) as Hux.
      apply elem_of_app in Hx as [Hx| ->%list_elem_of_singleton].
      * destruct (Ho x Hx Hvx) as [Hle Hf]. split; [by etrans; [exact Hle|exact Hmax]|]. apply filed_inserts; [exact Hux|by right].
      * split; [apply inserts_round; left|]. apply filed_inserts; [exact Hux|left; left].
  - eapply (honest_update cl i n n' []); rewrite ?app_nil_r; [done|done|done| | |intros m Hm; rewrite (Hsent m Hm); set_solver].
    { by intros x Hx%elem_of_nil. }
    apply (honest_inserts _ n n' []); [done|done|exact Hdag|set_solver|]. intros v Hvv. apply Hinv. by exists i, n.
Qed.

Lemma honest_step cl s : honest_inv cl -> step_unforged cl s -> rounds_fit cl -> honest_inv (cluster_step cl s).
Proof.
  intros Hinv Hok Hfit. destruct s as [i now ids sids|i k now rid from|i now|m].
  - destruct (cl_nodes cl !! i) as [n|] eqn:Hi; [by eapply honest_tick|]. cbn [cluster_step]. by rewrite Hi.
  - cbn [cluster_step]. destruct (cl_nodes cl !! i) as [n|] eqn:Hi; [|done]. destruct (cl_soup cl !! k) as [m|] eqn:Hk; [|done].
    assert (message_events m ⊆ cl_history cl) as Hm by (apply Hinv; by eapply list_elem_of_lookup_2).
    destruct (handle_message_effect now rid n from m) as ([Hv _ _] & (es & Hes & Hdag) & Hsent).
    destruct (RytherNode_handle_message now rid n from m) as [n' sent]. cbn [fst snd] in *.
    rewrite <- (app_nil_r (cl_history cl)). eapply honest_update; rewrite ?app_nil_r; [done|done|done|by intros e He%elem_of_nil|..].
    + eapply honest_inserts; [by apply (hi_nodes _ Hinv i)|done|done|by trans (message_events m)|].
      intros v Hvv. apply Hinv. by exists i, n.
    + intros x Hx e He. destruct (Hsent x e Hx He) as (id & Hid).
      by apply (dw_events _ _ (hn_dag _ _ (hi_nodes _ Hinv i n Hi))) in Hid as [_ ?].
  - cbn [cluster_step]. destruct (cl_nodes cl !! i) as [n|] eqn:Hi; [|done].
    rewrite <- (app_nil_r (cl_history cl)), <- (app_nil_r (cl_soup cl)).
    eapply honest_update; rewrite ?app_nil_r; [done|done|done|by intros e He%elem_of_nil| |by intros x Hx%elem_of_nil].
    destruct (hi_nodes _ Hinv i n Hi) as [Hd Hm Ho]. by split.
  - destruct Hinv as [Hs Hnodes Hsoup Hvals]. cbn [cluster_step step_unforged] in *. split; cbn [cl_history cl_nodes cl_soup]; [..|done].
    + intros v Hrun a b. assert (runs_validator cl v) as Hrun' by done.
      assert (forall x, x ∈ cl_history cl ++ message_events m -> ev_creator x = v -> x ∈ cl_history cl) as Hold.
      { intros x [Hx|Hx]%elem_of_app Ex; [done|]. destruct (Hok x Hx) as [?|Hno]; [done|]. destruct Hno. by rewrite Ex. }
      intros Ha Hb Ea Eb. apply (Hs v Hrun'); [by apply Hold|by apply Hold|done|done].
    + intros i n Hi. eapply honest_mono; [..|by eapply Hnodes]; [set_solver|]. intros e [He|He]%elem_of_app Hv; [done|].
      destruct (Hok e He) as [?|Hr]; [done|]. destruct Hr. by exists i, n.
    + intros x [Hx|Hx]%elem_of_app; [apply Hsoup in Hx; set_solver|]. apply list_elem_of_singleton in Hx as ->. set_solver.
Qed.

Lemma honest_run cl steps :
  honest_inv cl -> run_unforged cl steps -> rounds_fit (cluster_run cl steps) -> honest_inv (cluster_run cl steps).
Proof.
  revert cl. induction steps as [|s steps IH]; intros cl Hinv Hok Hfit; [done|]. destruct Hok as [Hs Hok].
  apply (IH (cluster_step cl s)); [|done|done]. apply honest_step; [done|done|].
  by apply (rounds_fit_run _ (s :: steps)).
Qed.

Lemma honest_start_inv es cl : honest_start es cl -> honest_inv cl.
Proof.
  intros [Hsoup Hh Hs Hnodes Hvals]. split; [by rewrite Hh| |rewrite Hsoup; by intros m Hm%elem_of_nil|done].
  intros i n Hi. pose proof (Hnodes i n Hi) as Hd. pose proof (inserts_max DagStore_new es) as Hm.
  change (inserts DagStore_new es) with (dag_of es) in Hm. simpl in Hm. split; rewrite ?Hd, ?Hh; [|lia|].
  - apply dag_within_inserts; [done|apply dag_within_new].
  - intros e He Hv. split; [by apply inserts_round|]. apply (filed_inserts DagStore_new); [|by left].
    intros x Hx Ec Er. apply (Hs (ev_creator e)); [by exists i, n|done..].
Qed.


End cluster.

(** ** Witness

    Two nodes run the validators 1 and 2, the adversary runs 3 and 4.  After
    the adversary's events of round 2 reach the first node, it commits round 1;
    the second node has not heard of them. *)

Definition cluster_node (v : Z) : RytherNode (list Z) :=
  mkNode node_config Running (peer_id v) (Some (mkValidatorId (replicate 48 v))) (Some []) four_set LamportClock_new
    detector vm_state vm_sample (mkConfig 4 3) (TransactionPool_new 10)
    (GossipProtocol_new (peer_id v) (PeerManager_new (peer_id v) 8) (dag_of (take 1 rounds_sample)) GossipConfig_default)
    (NodeStats_default 0) (mkParams 4 3) ∅.

Definition cluster_sample : Cluster (SecretKey := list Z) :=
  mkCluster {[1%nat := cluster_node 1; 2%nat := cluster_node 2]} [] (take 1 rounds_sample).

Definition foreign_events : NetworkMessage :=
  NetworkMessage_new (gossip_ids 7) (peer_id 3)
    (MsgEventResponse (mkResponse [dag_event 12 3 2 [10]; dag_event 13 4 2 [10]] [])).

Definition cluster_steps : list ClusterStep :=
  [CTick 1 1 gossip_ids share_ids; CTick 2 1 gossip_ids share_ids; CInject foreign_events;
   CDeliver 1 0 2 (gossip_ids 8) (peer_id 3); CTick 1 3 gossip_ids share_ids].

Definition no_equivocation_check (h : list DagEvent) : bool :=
  forallb (fun a => forallb (fun b => negb (bool_decide ((ev_creator a, ev_round a) = (ev_creator b, ev_round b)))
    || bool_decide (ev_id a = ev_id b)) h) h.

Lemma one_per_round_by_check h : no_equivocation_check h = true -> one_per_round h.
Proof.
  unfold no_equivocation_check. rewrite forallb_forall. intros Hc a b Ha Hb Ec Er.
  apply list_elem_of_In in Ha, Hb. specialize (Hc a Ha). rewrite forallb_forall in Hc. specialize (Hc b Hb).
  apply orb_true_iff in Hc as [Hc|Hc]; bool_to_prop; congruence.
Qed.

Lemma cluster_sample_nodes i n : cl_nodes cluster_sample !! i = Some n -> i = 1%nat /\ n = cluster_node 1 \/ i = 2%nat /\ n = cluster_node 2.
Proof.
  simpl. rewrite lookup_insert_Some. intros [[<- <-]|[_ Hi]]; [by left|].
  apply lookup_singleton_Some in Hi as [<- <-]. by right.
Qed.

Lemma cluster_sample_genesis :
  genesis detector (cluster_node 1) (take 1 rounds_sample) cluster_sample.
Proof.
  split; [done|done|apply one_per_round_by_check; vm_compute; reflexivity| |done|].
  - by intros i n [[-> ->]|[-> ->]]%cluster_sample_nodes.
  - intros i j n n' v [[-> ->]|[-> ->]]%cluster_sample_nodes [[-> ->]|[-> ->]]%cluster_sample_nodes; simpl; congruence.
Qed.

(** The conditions on a run, decided. *)
Definition runs_check (cl : Cluster (SecretKey := list Z)) (v : ValidatorId) : bool :=
  existsb (fun x => bool_decide (n_validator_id x.2 = Some v)) (map_to_list (cl_nodes cl)).

Definition step_check (cl : Cluster (SecretKey := list Z)) (s : ClusterStep) : bool :=
  match s with
  | CInject m =>
      forallb (fun e => negb (runs_check cl (ev_creator e))) (message_events m) &&
      no_equivocation_check (cl_history cl ++ message_events m)
  | _ => true
  end.

Fixpoint run_check (cl : Cluster (SecretKey := list Z)) (steps : list ClusterStep) : bool :=
  match steps with
  | [] => true
  | s :: steps => step_check cl s && run_check (cluster_step (H := checksum_hashes) (H0 := plain_keys) cl s) steps
  end.

Lemma runs_by_check cl v : runs_check cl v = false -> ~ runs_validator cl v.
Proof.
  intros Hc (i & n & Hi & Hv). apply not_true_iff_false in Hc. apply Hc, existsb_exists.
  exists (i, n). split; [by apply list_elem_of_In, elem_of_map_to_list|by apply bool_decide_eq_true].
Qed.

Lemma run_allowed_by_check cl steps :
  run_check cl steps = true -> run_allowed (H := checksum_hashes) (H0 := plain_keys) cl steps.
Proof.
  revert cl. induction steps as [|s steps IH]; intros cl; simpl; [done|].
  intros [Hs Hr]%andb_true_iff. split; [|by apply IH]. destruct s; try done. simpl in *.
  apply andb_true_iff in Hs as [Hf Ho]. split; [|by apply one_per_round_by_check].
  rewrite forallb_forall in Hf. intros e He. right. apply runs_by_check. apply list_elem_of_In, Hf, negb_true_iff in He. done.
Qed.

Definition fit_check (cl : Cluster (SecretKey := list Z)) : bool :=
  forallb (fun x => dag_max_round (n_dag x.2) <? u64_max) (map_to_list (cl_nodes cl)).

Lemma rounds_fit_by_check cl : fit_check cl = true -> rounds_fit cl.
Proof.
  unfold fit_check. rewrite forallb_forall. intros Hc i n Hi.
  apply Z.ltb_lt, (Hc (i, n)), list_elem_of_In, elem_of_map_to_list. done.
Qed.

Definition cluster_end : Cluster (SecretKey := list Z) :=
  cluster_run (H := checksum_hashes) (H0 := plain_keys) cluster_sample cluster_steps.

Lemma cluster_end_committed :
  (exists n, cl_nodes cluster_end !! 1%nat = Some n /\ 1 = cd_last_committed (n_commit_detector n)) /\
  (exists n, cl_nodes cluster_end !! 2%nat = Some n /\ 0 = cd_last_committed (n_commit_detector n)).
Proof. split; apply fmap_Some; vm_compute; reflexivity. Qed.

Lemma cluster_refines_log_witness :
  exists n1 n2 log, cl_nodes cluster_end !! 1%nat = Some n1 /\ cl_nodes cluster_end !! 2%nat = Some n2 /\
    at_log (H := checksum_hashes) detector (cluster_node 1) n1 (take 1 log) /\
    at_log (H := checksum_hashes) detector (cluster_node 1) n2 (take 0 log) /\ (1 <= length log)%nat.
Proof.
  destruct (cluster_refines_log (H := checksum_hashes) (H0 := plain_keys) detector (cluster_node 1) (take 1 rounds_sample)
    cluster_sample cluster_steps []) as (log & _ & _ & Hn).
  - apply cluster_sample_genesis.
  - apply run_allowed_by_check. vm_compute. reflexivity.
  - apply rounds_fit_by_check. vm_compute. reflexivity.
  - rewrite app_nil_r in Hn. change (cluster_run _ _) with cluster_end in Hn.
    destruct cluster_end_committed as [(n1 & H1 & L1) (n2 & H2 & L2)]. exists n1, n2, log.
    destruct (Hn 1%nat n1 n1 H1 H1) as (k & k1 & Hk & Ha & Hl & _). rewrite <- L1 in Hl.
    destruct (Hn 2%nat n2 n2 H2 H2) as (k' & _ & _ & Ha' & Hl' & _). rewrite <- L2 in Hl'.
    assert (k = 1%nat) as -> by lia. assert (k' = 0%nat) as -> by lia.
    split; [exact H1|]. split; [exact H2|]. split; [exact Ha|]. split; [exact Ha'|lia].
Defined.

(** Validator 3 signs two events for round 2, and each node hears of one. *)
Definition lie (id : Z) : NetworkMessage :=
  NetworkMessage_new (gossip_ids (Z.to_nat id)) (peer_id 3) (MsgEventResponse (mkResponse [dag_event id 3 2 [10]] [])).

Definition lying_steps : list ClusterStep :=
  [CTick 1 1 gossip_ids share_ids; CTick 2 1 gossip_ids share_ids; CInject (lie 12); CInject (lie 22);
   CDeliver 1 0 2 (gossip_ids 8) (peer_id 3); CDeliver 2 1 2 (gossip_ids 8) (peer_id 3); CTick 1 3 gossip_ids share_ids].

Definition lying_end : Cluster (SecretKey := list Z) :=
  cluster_run (H := checksum_hashes) (H0 := plain_keys) cluster_sample lying_steps.

Definition unforged_check (cl : Cluster (SecretKey := list Z)) (s : ClusterStep) : bool :=
  match s with
  | CInject m => forallb (fun e => negb (runs_check cl (ev_creator e))) (message_events m)
  | _ => true
  end.

Fixpoint run_unforged_check (cl : Cluster (SecretKey := list Z)) (steps : list ClusterStep) : bool :=
  match steps with
  | [] => true
  | s :: steps => unforged_check cl s && run_unforged_check (cluster_step (H := checksum_hashes) (H0 := plain_keys) cl s) steps
  end.

Lemma run_unforged_by_check cl steps :
  run_unforged_check cl steps = true -> run_unforged (H := checksum_hashes) (H0 := plain_keys) cl steps.
Proof.
  revert cl. induction steps as [|s steps IH]; intros cl; simpl; [done|].
  intros [Hs Hr]%andb_true_iff. split; [|by apply IH]. destruct s; try done. simpl in *.
  rewrite forallb_forall in Hs. intros e He. right. apply runs_by_check. apply list_elem_of_In, Hs, negb_true_iff in He. done.
Qed.

