(* ===== verification/Rpc.v ===== *)
(** * The JSON-RPC server: [src/node/rpc.rs]

    Requests arrive parsed (the HTTP layer and the JSON text belong to [axum]
    and [serde_json]); a handler takes the request's [id] and parameters and
    gives the response.  A string is a sequence of bytes, as [String] is in
    memory.  The conversions of blocks, receipts, logs and filters to and from
    JSON values are those [serde] derives, the parameter [SerdeJson].  A
    handler that panics gives no response: [Panic]. *)

From Stdlib Require Import SpecFloat.
From S2P Require Import Prelude Types Mvcc Vm Block Peer Gossip Node.

(** ** JSON values *)

Inductive JsonNumber := PosInt (n : Z) | NegInt (n : Z) | Float (bits : Z).

Inductive Value :=
| VNull
| VBool (b : bool)
| VNumber (n : JsonNumber)
| VString (s : string)
| VArray (l : list Value)
| VObject (m : list (string * Value)).

(** [Value::as_str], [Value::as_bool] and [Number::as_u64]. *)
Definition as_str (v : Value) : option string := match v with VString s => Some s | _ => None end.
Definition as_bool (v : Value) : option bool := match v with VBool b => Some b | _ => None end.
Definition as_u64 (n : JsonNumber) : option Z := match n with PosInt n => Some n | _ => None end.

Class SerdeJson := {
  block_to_value : Block -> option Value;
  receipt_to_value : TransactionReceipt -> option Value;
  logs_to_value : list BlockLog -> option Value;
  log_filter_from_value : Value -> LogFilter + string
}.

Definition member (k : string) (v : Value) : option Value :=
  match v with
  | VObject m => (fun kv => kv.2) <$> List.find (fun kv => String.eqb kv.1 k) m
  | _ => None
  end.

(** What [serde] documents of an untagged enum with the variants of [BlockId]:
    the first one that accepts the value; a string that is not the text of a
    hash is a tag. *)
Class SerdeJsonOk `{Hex} `{SerdeJson} : Prop := {
  filter_from_string v f s :
    log_filter_from_value v = inl f -> member "fromBlock" v = Some (VString s) ->
    TxHash_deserialize (string_bytes s) = None -> lf_from_block f = Some (BlockTag s);
  filter_to_string v f s :
    log_filter_from_value v = inl f -> member "toBlock" v = Some (VString s) ->
    TxHash_deserialize (string_bytes s) = None -> lf_to_block f = Some (BlockTag s)
}.

(** The string of a list of bytes. *)
Definition text (l : list Z) : string :=
  String.string_of_list_ascii (map (fun c => Ascii.ascii_of_nat (Z.to_nat c)) l).

(** ** Requests and responses *)

Record RpcRequest := mkRpcRequest {
  req_jsonrpc : string;
  req_method : string;
  req_params : option Value;
  req_id : Value
}.

Record RpcError := mkRpcError {
  err_code : Z;
  err_message : string;
  err_data : option Value
}.

Record RpcResponse := mkRpcResponse {
  resp_jsonrpc : string;
  resp_result : option Value;
  resp_error : option RpcError;
  resp_id : Value
}.

Definition RpcResponse_success (id result : Value) : RpcResponse := mkRpcResponse "2.0" (Some result) None id.

Definition RpcResponse_error (id : Value) (code : Z) (message : string) : RpcResponse :=
  mkRpcResponse "2.0" None (Some (mkRpcError code message None)) id.

Definition PARSE_ERROR : Z := -32700.
Definition INVALID_REQUEST : Z := -32600.
Definition METHOD_NOT_FOUND : Z := -32601.
Definition INVALID_PARAMS : Z := -32602.
Definition INTERNAL_ERROR : Z := -32603.

Inductive Outcome (A : Type) := Return (x : A) | Panic.
Arguments Return {A} x.
Arguments Panic {A}.

(** ** Parameters *)

Section params.
Context `{Hex}.

Definition starts_with_0x (s : list Z) : bool := bool_decide (take 2 s = prefix_0x).

(** [copy_from_slice] of the decoded bytes into a [[u8; 32]] panics when the
    lengths differ. *)
Definition parse_block_string (s : string) : Outcome (BlockId + string) :=
  let b := string_bytes s in
  if starts_with_0x b && (length b =? 66)%nat then
    match hex_decode (trim_0x b) with
    | None => Return (inr "Invalid hash"%string)
    | Some bytes => if (length bytes =? 32)%nat then Return (inl (BlockHash bytes)) else Panic
    end
  else if starts_with_0x b then
    match from_str_radix_16 (trim_0x b) with
    | None => Return (inr "Invalid number"%string)
    | Some n => Return (inl (BlockNumber n))
    end
  else Return (inl (BlockTag s)).

Definition parse_block_params (params : option Value) : Outcome (BlockId * bool + string) :=
  match params with
  | Some (VArray arr) =>
      let full_tx := default false (v ← arr !! 1%nat; as_bool v) in
      match arr !! 0%nat with
      | Some (VString s) =>
          match parse_block_string s with
          | Return (inl b) => Return (inl (b, full_tx))
          | Return (inr e) => Return (inr e)
          | Panic => Panic
          end
      | Some (VNumber n) => Return (inl (BlockNumber (default 0 (as_u64 n)), full_tx))
      | _ => Return (inl (BlockTag "latest", full_tx))
      end
  | _ => Return (inl (BlockTag "latest", false))
  end.

Definition parse_hash_param (params : option Value) : bytes + string :=
  match params with
  | Some (VArray arr) =>
      match v ← arr !! 0%nat; as_str v with
      | None => inr "Missing hash"%string
      | Some hash_str =>
          match hex_decode (trim_0x (string_bytes hash_str)) with
          | None => inr "Invalid hash format"%string
          | Some bytes => if (length bytes =? 32)%nat then inl bytes else inr "Hash must be 32 bytes"%string
          end
      end
  | _ => inr "Missing params"%string
  end.

Definition LogFilter_default : LogFilter := mkLogFilter None None None None.

Definition parse_log_filter `{SerdeJson} (params : option Value) : LogFilter + string :=
  match params with
  | Some (VArray arr) =>
      match log_filter_from_value (default (VObject []) (arr !! 0%nat)) with
      | inl f => inl f
      | inr e => inr ("Invalid filter: " +:+ e)
      end
  | _ => inl LogFilter_default
  end.
End params.

(** ** Handlers *)

Definition json_hex (n : Z) : Value := VString (text (hex_u64_serialize n)).
Definition json_u64 (n : Z) : Value := VNumber (PosInt n).

Definition NodeState_debug (s : NodeState) : string :=
  match s with
  | Starting => "Starting"
  | Syncing => "Syncing"
  | Running => "Running"
  | Stopping => "Stopping"
  | Stopped => "Stopped"
  end.

Section handlers.
Context `{Hashes} `{Hex} `{SerdeJson} {SecretKey : Type}.

Record RpcState := mkRpcState {
  rpc_node : RytherNode SecretKey;
  rpc_blocks : BlockStore
}.

Implicit Types (state : RpcState) (id : Value) (params : option Value).

Definition eth_chain_id id : RpcResponse := RpcResponse_success id (VString "0x1").

Definition eth_block_number state id : RpcResponse :=
  RpcResponse_success id (json_hex (BlockStore_latest_number (rpc_blocks state))).

Definition eth_gas_price id : RpcResponse := RpcResponse_success id (VString "0x3b9aca00").
Definition eth_get_balance id : RpcResponse := RpcResponse_success id (VString "0x0").
Definition eth_get_transaction_count id : RpcResponse := RpcResponse_success id (VString "0x0").
Definition eth_send_raw_transaction id : RpcResponse := RpcResponse_error id INTERNAL_ERROR "Not implemented".
Definition eth_call id : RpcResponse := RpcResponse_success id (VString "0x").
Definition eth_estimate_gas id : RpcResponse := RpcResponse_success id (VString "0x5208").
Definition eth_get_code id : RpcResponse := RpcResponse_success id (VString "0x").

Definition eth_get_storage_at id : RpcResponse :=
  RpcResponse_success id (VString "0x0000000000000000000000000000000000000000000000000000000000000000").

(** The number a block id stands for in [eth_getBlockByNumber]. *)
Definition block_num_of state (b : BlockId) : option Z :=
  match b with
  | BlockNumber n => Some n
  | BlockTag tag =>
      if String.eqb tag "latest" then Some (BlockStore_latest_number (rpc_blocks state))
      else if String.eqb tag "earliest" then Some 0
      else if String.eqb tag "pending" then Some (BlockStore_latest_number (rpc_blocks state))
      else None
  | BlockHash _ => None
  end.

(** [serde_json::to_value(&*block).unwrap_or(json!(null))]. *)
Definition block_value (b : option Block) : Value :=
  match b with
  | Some block => default VNull (block_to_value block)
  | None => VNull
  end.

Definition eth_get_block_by_number state id params : Outcome RpcResponse :=
  match parse_block_params params with
  | Panic => Panic
  | Return (inr e) => Return (RpcResponse_error id INVALID_PARAMS e)
  | Return (inl (block_id, _)) =>
      match block_num_of state block_id with
      | None => Return (RpcResponse_error id INVALID_PARAMS "Invalid block id")
      | Some block_num =>
          Return (RpcResponse_success id (block_value (BlockStore_get_by_number (rpc_blocks state) block_num)))
      end
  end.

Definition eth_get_block_by_hash state id params : RpcResponse :=
  match parse_hash_param params with
  | inr e => RpcResponse_error id INVALID_PARAMS e
  | inl hash => RpcResponse_success id (block_value (BlockStore_get_by_hash (rpc_blocks state) hash))
  end.

(** The loop over [block.transactions.iter().enumerate()]. *)
Fixpoint find_tx (hash : bytes) (i : Z) (txs : list bytes) : option Z :=
  match txs with
  | [] => None
  | tx :: txs => if bool_decide (tx = hash) then Some i else find_tx hash (i + 1) txs
  end.

Definition tx_value (hash : bytes) (block : Block) (i : Z) : Value :=
  VObject
    [("hash"%string, VString (text (hex_bytes_serialize hash)));
     ("blockHash"%string, VString (text (hex_bytes_serialize (bl_hash block))));
     ("blockNumber"%string, json_hex (bl_number block));
     ("transactionIndex"%string, json_hex i)].

Definition eth_get_transaction_by_hash state id params : RpcResponse :=
  match parse_hash_param params with
  | inr e => RpcResponse_error id INVALID_PARAMS e
  | inl hash =>
      RpcResponse_success id
        (default VNull
          (block_num ← BlockStore_get_tx_block (rpc_blocks state) hash;
           block ← BlockStore_get_by_number (rpc_blocks state) block_num;
           i ← find_tx hash 0 (bl_transactions block);
           Some (tx_value hash block i)))
  end.

Definition eth_get_transaction_receipt state id params : RpcResponse :=
  match parse_hash_param params with
  | inr e => RpcResponse_error id INVALID_PARAMS e
  | inl hash =>
      RpcResponse_success id
        match BlockStore_get_receipt (rpc_blocks state) hash with
        | Some receipt => default VNull (receipt_to_value receipt)
        | None => VNull
        end
  end.

(** The bound a filter's block id stands for, [d] when it gives none. *)
Definition log_bound (latest d : Z) (b : option BlockId) : Z :=
  match b with
  | Some (BlockNumber n) => n
  | Some (BlockTag t) => if String.eqb t "latest" then latest else if String.eqb t "earliest" then 0 else d
  | _ => d
  end.

Definition eth_get_logs state id params : RpcResponse :=
  match parse_log_filter params with
  | inr e => RpcResponse_error id INVALID_PARAMS e
  | inl filter =>
      let latest := BlockStore_latest_number (rpc_blocks state) in
      let from_block := log_bound latest 0 (lf_from_block filter) in
      let to_block := log_bound latest latest (lf_to_block filter) in
      let logs := BlockStore_get_logs (rpc_blocks state) from_block to_block (lf_address filter) (lf_topics filter) in
      RpcResponse_success id (default (VArray []) (logs_to_value logs))
  end.

Definition ryther_node_info state id : RpcResponse :=
  let stats := RytherNode_stats (rpc_node state) in
  RpcResponse_success id (VObject
    [("peerId"%string, VString (text (hex_encode (RytherNode_peer_id (rpc_node state)))));
     ("state"%string, VString (NodeState_debug (RytherNode_state (rpc_node state))));
     ("currentRound"%string, json_u64 (current_round stats));
     ("eventsCreated"%string, json_u64 (events_created stats));
     ("eventsReceived"%string, json_u64 (events_received stats));
     ("roundsCommitted"%string, json_u64 (rounds_committed stats));
     ("transactionsProcessed"%string, json_u64 (transactions_processed stats));
     ("connectedPeers"%string, json_u64 (Z.of_nat (stat_connected_peers stats)));
     ("blocksStored"%string, json_u64 (Z.of_nat (BlockStore_block_count (rpc_blocks state))));
     ("version"%string, VString "0.1.0")]).

Definition ryther_dag_info state id : RpcResponse :=
  let stats := RytherNode_stats (rpc_node state) in
  RpcResponse_success id (VObject
    [("maxRound"%string, json_u64 (current_round stats));
     ("totalEvents"%string, json_u64 (events_received stats ⊞ events_created stats));
     ("latestBlock"%string, json_u64 (BlockStore_latest_number (rpc_blocks state)))]).

Definition ryther_get_peers state id : RpcResponse :=
  let stats := RytherNode_stats (rpc_node state) in
  RpcResponse_success id (VObject
    [("count"%string, json_u64 (Z.of_nat (stat_connected_peers stats))); ("peers"%string, VArray [])]).

Definition ryther_pool_status id : RpcResponse :=
  RpcResponse_success id (VObject [("pending"%string, json_u64 0); ("queued"%string, json_u64 0)]).

Definition net_version id : RpcResponse := RpcResponse_success id (VString "1").

Definition net_peer_count state id : RpcResponse :=
  RpcResponse_success id (json_hex (Z.of_nat (stat_connected_peers (RytherNode_stats (rpc_node state))))).

Definition net_listening id : RpcResponse := RpcResponse_success id (VBool true).
Definition web3_client_version id : RpcResponse := RpcResponse_success id (VString "Ryther/v0.1.0").

Definition web3_sha3 id params : RpcResponse :=
  match params with
  | Some (VArray (VString data :: _)) =>
      match hex_decode (trim_0x (string_bytes data)) with
      | Some bytes => RpcResponse_success id (VString (text (hex_bytes_serialize (keccak256 bytes))))
      | None => RpcResponse_error id INVALID_PARAMS "Invalid input"
      end
  | _ => RpcResponse_error id INVALID_PARAMS "Invalid input"
  end.

(** ** Dispatch *)

(** The arms of [process_request], in order. *)
Definition rpc_methods : list (string * (RpcState -> Value -> option Value -> Outcome RpcResponse)) :=
  [("eth_chainId"%string, fun _ id _ => Return (eth_chain_id id));
   ("eth_blockNumber"%string, fun state id _ => Return (eth_block_number state id));
   ("eth_gasPrice"%string, fun _ id _ => Return (eth_gas_price id));
   ("eth_getBalance"%string, fun _ id _ => Return (eth_get_balance id));
   ("eth_getTransactionCount"%string, fun _ id _ => Return (eth_get_transaction_count id));
   ("eth_sendRawTransaction"%string, fun _ id _ => Return (eth_send_raw_transaction id));
   ("eth_call"%string, fun _ id _ => Return (eth_call id));
   ("eth_estimateGas"%string, fun _ id _ => Return (eth_estimate_gas id));
   ("eth_getBlockByNumber"%string, eth_get_block_by_number);
   ("eth_getBlockByHash"%string, fun state id params => Return (eth_get_block_by_hash state id params));
   ("eth_getTransactionByHash"%string, fun state id params => Return (eth_get_transaction_by_hash state id params));
   ("eth_getTransactionReceipt"%string, fun state id params => Return (eth_get_transaction_receipt state id params));
   ("eth_getLogs"%string, fun state id params => Return (eth_get_logs state id params));
   ("eth_getCode"%string, fun _ id _ => Return (eth_get_code id));
   ("eth_getStorageAt"%string, fun _ id _ => Return (eth_get_storage_at id));
   ("ryther_nodeInfo"%string, fun state id _ => Return (ryther_node_info state id));
   ("ryther_dagInfo"%string, fun state id _ => Return (ryther_dag_info state id));
   ("ryther_getPeers"%string, fun state id _ => Return (ryther_get_peers state id));
   ("ryther_poolStatus"%string, fun _ id _ => Return (ryther_pool_status id));
   ("net_version"%string, fun _ id _ => Return (net_version id));
   ("net_peerCount"%string, fun state id _ => Return (net_peer_count state id));
   ("net_listening"%string, fun _ id _ => Return (net_listening id));
   ("web3_clientVersion"%string, fun _ id _ => Return (web3_client_version id));
   ("web3_sha3"%string, fun _ id params => Return (web3_sha3 id params))].

Definition process_request state (request : RpcRequest) : Outcome RpcResponse :=
  match List.find (fun m => String.eqb m.1 (req_method request)) rpc_methods with
  | Some (_, handler) => handler state (req_id request) (req_params request)
  | None => Return (RpcResponse_error (req_id request) METHOD_NOT_FOUND ("Method not found: " +:+ req_method request))
  end.

Definition handle_rpc state (request : RpcRequest) : Outcome RpcResponse := process_request state request.

(** ** Metrics *)

(** [{:.2}] of a [f64]: the exact binary value rounded to the nearest
    hundredth, ties to even. *)

Definition round_half_even (a b : Z) : Z :=
  let q := a / b in
  let r := a mod b in
  match 2 * r ?= b with
  | Lt => q
  | Gt => q + 1
  | Eq => if Z.even q then q else q + 1
  end.

Definition hundredths (m : positive) (e : Z) : Z :=
  if 0 <=? e then 100 * Zpos m * 2 ^ e else round_half_even (100 * Zpos m) (2 ^ (- e)).

Definition show_hundredths (h : Z) : string :=
  show_u64 (h / 100) +:+ "." +:+ show_u64 (h mod 100 / 10) +:+ show_u64 (h mod 10).

Definition format_f64_2 (x : spec_float) : string :=
  match x with
  | S754_zero s => (if s then "-" else EmptyString) +:+ "0.00"
  | S754_infinity s => (if s then "-" else EmptyString) +:+ "inf"
  | S754_nan => "NaN"
  | S754_finite s m e => (if s then "-" else EmptyString) +:+ show_hundredths (hundredths m e)
  end.

Definition newline : string := String (Ascii.ascii_of_nat 10) EmptyString.

Definition metrics_uptime (now start_time : Z) : Z := Z.max 1 (Z.max 0 (now - start_time)).

Definition metrics_tps (transactions uptime : Z) : spec_float :=
  f64_div (u64_as_f64 transactions) (u64_as_f64 uptime).

Definition handle_metrics (now : Z) state : string :=
  let stats := RytherNode_stats (rpc_node state) in
  let uptime := metrics_uptime now (start_time stats) in
  let tps := metrics_tps (transactions_processed stats) uptime in
  "# HELP ryther_current_round Current DAG round" +:+ newline +:+
  "# TYPE ryther_current_round gauge" +:+ newline +:+
  "ryther_current_round " +:+ show_u64 (current_round stats) +:+ newline +:+
  "# HELP ryther_transactions_total Total transactions processed" +:+ newline +:+
  "# TYPE ryther_transactions_total counter" +:+ newline +:+
  "ryther_transactions_total " +:+ show_u64 (transactions_processed stats) +:+ newline +:+
  "# HELP ryther_tps Transactions per second (average)" +:+ newline +:+
  "# TYPE ryther_tps gauge" +:+ newline +:+
  "ryther_tps " +:+ format_f64_2 tps +:+ newline +:+
  "# HELP ryther_peers Connected peers" +:+ newline +:+
  "# TYPE ryther_peers gauge" +:+ newline +:+
  "ryther_peers " +:+ show_u64 (Z.of_nat (stat_connected_peers stats)) +:+ newline.
End handlers.
Arguments RpcState SecretKey : clear implicits.

(** ** Text *)

Lemma string_bytes_text l : Forall is_u8 l -> string_bytes (text l) = l.
Proof.
  intros Hl. unfold string_bytes, text. rewrite String.list_ascii_of_string_of_list_ascii, map_map.
  rewrite <- (map_id l) at 2. apply map_ext_in. intros c Hc. rewrite Forall_forall in Hl.
  assert (is_u8 c) as Hu by (apply Hl; by apply list_elem_of_In). unfold is_u8, u8_bound in Hu.
  rewrite Ascii.nat_ascii_embedding by lia. lia.
Qed.

Lemma digits_u8 l : Forall is_digit l -> Forall is_u8 l.
Proof. intros Hl. eapply Forall_impl; [exact Hl|]. intros c Hc. unfold is_digit in Hc. u64_lia. Qed.

Lemma prefix_0x_u8 l : Forall is_u8 l -> Forall is_u8 (prefix_0x ++ l).
Proof. intros Hl. repeat (apply Forall_cons; split; [u64_lia|]). done. Qed.

Lemma hex_digits_length fuel x : (length (hex_digits fuel x) <= fuel)%nat.
Proof.
  revert x. induction fuel as [|fuel IH]; intros x; simpl; [done|]. case_bool; simpl; [lia|].
  rewrite length_app. simpl. specialize (IH (x / 16)). lia.
Qed.

(** The number text of the server, read back as a block id. *)
Lemma parse_number_text `{Hex} n :
  is_u64 n -> parse_block_string (text (hex_u64_serialize n)) = Return (inl (BlockNumber n)).
Proof.
  intros Hn. destruct (hex_digits_spec 15 n) as (Hdig & Hne & Hp); [exact Hn|].
  unfold parse_block_string, hex_u64_serialize. rewrite string_bytes_text by by apply prefix_0x_u8, digits_u8.
  replace (starts_with_0x (prefix_0x ++ format_x n)) with true by done. rewrite andb_true_l.
  destruct (_ =? 66)%nat eqn:E; bool_to_prop.
  { rewrite length_app in E. simpl in E. pose proof (hex_digits_length 16 n). unfold format_x in E. lia. }
  unfold format_x. rewrite trim_0x_prefix, from_str_radix_digits, Hp by (done || unfold is_u64 in Hn; lia). done.
Qed.

(** ** The shape of responses *)

(** What JSON-RPC asks of a response: the protocol version, the request's id,
    and either a result or an error. *)
Definition well_formed (id : Value) (r : RpcResponse) : Prop :=
  resp_jsonrpc r = "2.0"%string /\ resp_id r = id /\ (is_Some (resp_result r) <-> resp_error r = None).

Lemma success_well_formed id v : well_formed id (RpcResponse_success id v).
Proof. repeat split; simpl; eauto. Qed.

Lemma error_well_formed id c e : well_formed id (RpcResponse_error id c e).
Proof. split_and!; try done. simpl. split; [by intros []|done]. Qed.

#[export] Hint Resolve success_well_formed error_well_formed : ryther.

Section responses.
Context `{Hashes} `{Hex} `{SerdeJson} {SecretKey : Type}.
Implicit Types (state : RpcState SecretKey) (request : RpcRequest).

(** *** The contract of the methods *)

(** The methods of the README, and the three it leaves out. *)
Definition method_names : list string :=
  ["eth_chainId"; "eth_blockNumber"; "eth_gasPrice"; "eth_getBalance"; "eth_getTransactionCount"; "eth_call";
   "eth_estimateGas"; "eth_getBlockByNumber"; "eth_getBlockByHash"; "eth_getTransactionByHash";
   "eth_getTransactionReceipt"; "eth_getLogs"; "ryther_nodeInfo"; "ryther_dagInfo"; "ryther_getPeers";
   "ryther_poolStatus"; "net_version"; "net_peerCount"; "net_listening"; "web3_clientVersion"; "web3_sha3";
   "eth_sendRawTransaction"; "eth_getCode"; "eth_getStorageAt"]%string.

(** The first parameter is the hex text of [b]. *)
Definition bytes_given (params : option Value) (b : bytes) : Prop :=
  exists s rest, params = Some (VArray (VString s :: rest)) /\ hex_decode (trim_0x (string_bytes s)) = Some b.

Definition hash_given (params : option Value) (h : bytes) : Prop := bytes_given params h /\ length h = 32%nat.

(** The first parameter stands for block [n]: by default the latest one. *)
Definition block_given state (params : option Value) (n : Z) : Prop :=
  exists b full_tx, parse_block_params params = Return (inl (b, full_tx)) /\ block_num_of state b = Some n.

(** JSON of something stored, [null] when there is none. *)
Definition shown {A} (to_value : A -> option Value) (x : option A) : Value := default VNull (x ≫= to_value).

(** The logs a filter asks for. *)
Definition asked_log state (f : LogFilter) (log : BlockLog) : Prop :=
  let last := latest (rpc_blocks state) in
  (exists n logs, log_bound last 0 (lf_from_block f) <= n <= log_bound last last (lf_to_block f) /\
    logs_by_block (rpc_blocks state) !! n = Some logs /\ log ∈ logs) /\
  (forall addrs, lf_address f = Some addrs -> lg_address log ∈ addrs) /\
  (forall filters i allowed, lf_topics f = Some filters -> filters !! i = Some (Some allowed) ->
    exists t, lg_topics log !! i = Some t /\ t ∈ allowed).

(** What a method answers to parameters in a state: a result, or the code of
    an error. *)
Inductive answers state : string -> option Value -> Value + Z -> Prop :=
| an_constant name p s :
    (name, s) ∈ [("eth_chainId", "0x1"); ("eth_gasPrice", "0x3b9aca00"); ("eth_getBalance", "0x0");
      ("eth_getTransactionCount", "0x0"); ("eth_call", "0x"); ("eth_estimateGas", "0x5208"); ("eth_getCode", "0x");
      ("eth_getStorageAt", "0x0000000000000000000000000000000000000000000000000000000000000000");
      ("net_version", "1"); ("web3_clientVersion", "Ryther/v0.1.0")]%string ->
    answers state name p (inl (VString s))
| an_listening p : answers state "net_listening" p (inl (VBool true))
| an_block_number p : answers state "eth_blockNumber" p (inl (json_hex (latest (rpc_blocks state))))
| an_peer_count p :
    answers state "net_peerCount" p (inl (json_hex (Z.of_nat (PeerManager_connected_count (n_peers (rpc_node state))))))
| an_block p n :
    block_given state p n ->
    answers state "eth_getBlockByNumber" p (inl (shown block_to_value (by_number (rpc_blocks state) !! n)))
| an_block_hash p h :
    hash_given p h -> answers state "eth_getBlockByHash" p (inl (shown block_to_value (by_hash (rpc_blocks state) !! h)))
| an_transaction p h n b i :
    hash_given p h -> tx_to_block (rpc_blocks state) !! h = Some n -> by_number (rpc_blocks state) !! n = Some b ->
    bl_transactions b !! i = Some h -> h ∉ take i (bl_transactions b) ->
    answers state "eth_getTransactionByHash" p (inl (tx_value h b (Z.of_nat i)))
| an_no_transaction p h :
    hash_given p h ->
    (forall n b, tx_to_block (rpc_blocks state) !! h = Some n -> by_number (rpc_blocks state) !! n = Some b ->
      h ∉ bl_transactions b) ->
    answers state "eth_getTransactionByHash" p (inl VNull)
| an_receipt p h :
    hash_given p h -> answers state "eth_getTransactionReceipt" p (inl (shown receipt_to_value (receipts (rpc_blocks state) !! h)))
| an_logs p f logs :
    parse_log_filter p = inl f -> (forall log, log ∈ logs <-> asked_log state f log) ->
    answers state "eth_getLogs" p (inl (default (VArray []) (logs_to_value logs)))
| an_node_info p v :
    let s := n_stats (rpc_node state) in
    member "peerId" v = Some (VString (text (hex_encode (n_peer_id (rpc_node state))))) ->
    member "state" v = Some (VString (NodeState_debug (n_state (rpc_node state)))) ->
    member "currentRound" v = Some (json_u64 (current_round s)) ->
    member "eventsCreated" v = Some (json_u64 (events_created s)) ->
    member "eventsReceived" v = Some (json_u64 (events_received s)) ->
    member "roundsCommitted" v = Some (json_u64 (rounds_committed s)) ->
    member "transactionsProcessed" v = Some (json_u64 (transactions_processed s)) ->
    member "connectedPeers" v = Some (json_u64 (Z.of_nat (PeerManager_connected_count (n_peers (rpc_node state))))) ->
    member "blocksStored" v = Some (json_u64 (Z.of_nat (size (by_number (rpc_blocks state))))) ->
    answers state "ryther_nodeInfo" p (inl v)
| an_dag_info p v :
    let s := n_stats (rpc_node state) in
    member "maxRound" v = Some (json_u64 (current_round s)) ->
    member "totalEvents" v = Some (json_u64 ((events_received s + events_created s) mod 2 ^ 64)) ->
    member "latestBlock" v = Some (json_u64 (latest (rpc_blocks state))) ->
    answers state "ryther_dagInfo" p (inl v)
| an_peers p v :
    member "count" v = Some (json_u64 (Z.of_nat (PeerManager_connected_count (n_peers (rpc_node state))))) ->
    member "peers" v = Some (VArray []) ->
    answers state "ryther_getPeers" p (inl v)
| an_pool p v :
    member "pending" v = Some (json_u64 0) -> member "queued" v = Some (json_u64 0) ->
    answers state "ryther_poolStatus" p (inl v)
| an_sha3 p b :
    bytes_given p b -> answers state "web3_sha3" p (inl (VString (text (hex_bytes_serialize (keccak256 b)))))
| an_send p : answers state "eth_sendRawTransaction" p (inr INTERNAL_ERROR)
| an_bad_block p :
    ~ (exists n, block_given state p n) -> answers state "eth_getBlockByNumber" p (inr INVALID_PARAMS)
| an_bad_hash name p :
    name ∈ ["eth_getBlockByHash"; "eth_getTransactionByHash"; "eth_getTransactionReceipt"]%string ->
    ~ (exists h, hash_given p h) -> answers state name p (inr INVALID_PARAMS)
| an_bad_filter p :
    ~ (exists f, parse_log_filter p = inl f) -> answers state "eth_getLogs" p (inr INVALID_PARAMS)
| an_bad_bytes p :
    ~ (exists b, bytes_given p b) -> answers state "web3_sha3" p (inr INVALID_PARAMS)
| an_unknown name p : name ∉ method_names -> answers state name p (inr METHOD_NOT_FOUND).

(** The result of a response, or the code of its error. *)
Definition outcome_of (r : RpcResponse) : option (Value + Z) :=
  match resp_error r with Some e => Some (inr (err_code e)) | None => inl <$> resp_result r end.

Definition answered state (name : string) (id : Value) (params : option Value) (r : RpcResponse) : Prop :=
  well_formed id r /\ exists o, outcome_of r = Some o /\ answers state name params o.

Lemma answered_success state name id p v : answers state name p (inl v) -> answered state name id p (RpcResponse_success id v).
Proof. intros Ha. split; [auto with ryther|by eexists]. Qed.

Lemma answered_error state name id p c e : answers state name p (inr c) -> answered state name id p (RpcResponse_error id c e).
Proof. intros Ha. split; [auto with ryther|by eexists]. Qed.

Lemma parse_hash_inl p h : parse_hash_param p = inl h <-> hash_given p h.
Proof.
  unfold parse_hash_param, hash_given, bytes_given. split.
  - destruct p as [[| | | |[|[] arr]|]|]; try discriminate. simpl. repeat case_match; try discriminate.
    intros [= ->]. bool_to_prop. eauto.
  - intros [(s & rest & -> & E) Hl]. simpl. by rewrite E, (proj2 (Nat.eqb_eq _ _) Hl).
Qed.

Lemma find_tx_Some h j txs i : find_tx h j txs = Some i -> exists k, i = j + Z.of_nat k /\ txs !! k = Some h /\ h ∉ take k txs.
Proof.
  revert j. induction txs as [|tx txs IH]; intros j; [done|]. simpl. case_bool_decide as E.
  - intros [= <-]. exists 0%nat. subst. split; [lia|]. split; [done|apply not_elem_of_nil].
  - intros Hf. destruct (IH _ Hf) as (k & -> & Hk & Hn). exists (S k). split; [lia|]. split; [done|]. simpl. set_solver.
Qed.

Lemma find_tx_None h j txs : find_tx h j txs = None -> h ∉ txs.
Proof.
  revert j. induction txs as [|tx txs IH]; intros j; [intros _; apply not_elem_of_nil|]. simpl. case_bool_decide as E; [done|].
  intros Hf%IH. set_solver.
Qed.

Lemma no_hash p e : parse_hash_param p = inr e -> ~ (exists h, hash_given p h).
Proof. intros E [h Hh]. apply parse_hash_inl in Hh. congruence. Qed.

Lemma block_by_number_answered state id p r :
  eth_get_block_by_number state id p = Return r -> answered state "eth_getBlockByNumber" id p r.
Proof.
  unfold eth_get_block_by_number. destruct (parse_block_params p) as [[[b full]|e]|] eqn:E; [| |done].
  - destruct (block_num_of state b) as [n|] eqn:En; intros [= <-].
    + apply answered_success. replace (block_value _) with (shown block_to_value (by_number (rpc_blocks state) !! n));
        [constructor; by exists b, full|]. unfold shown, block_value, BlockStore_get_by_number. by destruct (_ !! n).
    + apply answered_error, an_bad_block. intros (n & b' & f' & E' & En'). congruence.
  - intros [= <-]. apply answered_error, an_bad_block. intros (n & b' & f' & E' & En'). congruence.
Qed.

Lemma block_by_hash_answered state id p : answered state "eth_getBlockByHash" id p (eth_get_block_by_hash state id p).
Proof.
  unfold eth_get_block_by_hash. destruct (parse_hash_param p) as [h|e] eqn:E.
  - apply answered_success. apply parse_hash_inl in E.
    replace (block_value _) with (shown block_to_value (by_hash (rpc_blocks state) !! h)); [by constructor|].
    unfold shown, block_value, BlockStore_get_by_hash. by destruct (_ !! h).
  - apply answered_error, an_bad_hash; [set_solver|by eapply no_hash].
Qed.

Lemma transaction_answered state id p : answered state "eth_getTransactionByHash" id p (eth_get_transaction_by_hash state id p).
Proof.
  unfold eth_get_transaction_by_hash. destruct (parse_hash_param p) as [h|e] eqn:E.
  2: { apply answered_error, an_bad_hash; [set_solver|by eapply no_hash]. }
  apply answered_success. apply parse_hash_inl in E. unfold BlockStore_get_tx_block, BlockStore_get_by_number.
  destruct (tx_to_block _ !! h) as [n|] eqn:En; simpl; [|apply (an_no_transaction _ _ h); [done|congruence]].
  destruct (by_number _ !! n) as [b|] eqn:Eb; simpl; [|apply (an_no_transaction _ _ h); [done|congruence]].
  destruct (find_tx h 0 (bl_transactions b)) as [i|] eqn:Ei; simpl.
  - apply find_tx_Some in Ei as (k & -> & Hk & Hn). by eapply an_transaction.
  - apply find_tx_None in Ei. apply (an_no_transaction _ _ h); [done|]. intros n' b' En' Eb'. congruence.
Qed.

Lemma receipt_answered state id p : answered state "eth_getTransactionReceipt" id p (eth_get_transaction_receipt state id p).
Proof.
  unfold eth_get_transaction_receipt. destruct (parse_hash_param p) as [h|e] eqn:E.
  - apply answered_success. apply parse_hash_inl in E. unfold BlockStore_get_receipt.
    match goal with |- answers _ _ _ (inl ?v) => replace v with (shown receipt_to_value (receipts (rpc_blocks state) !! h)) end;
      [by constructor|]. unfold shown. by destruct (_ !! h).
  - apply answered_error, an_bad_hash; [set_solver|by eapply no_hash].
Qed.

Lemma logs_answered state id p : answered state "eth_getLogs" id p (eth_get_logs state id p).
Proof.
  unfold eth_get_logs. destruct (parse_log_filter p) as [f|e] eqn:E.
  - apply answered_success. apply (an_logs _ _ f); [done|]. intros log. apply get_logs_spec.
  - apply answered_error, an_bad_filter. intros [f Hf]. congruence.
Qed.

Lemma sha3_answered state id p : answered state "web3_sha3" id p (web3_sha3 id p).
Proof.
  unfold web3_sha3. destruct p as [[| | | |[|[] arr]|]|];
    try (apply answered_error, an_bad_bytes; intros (x & s' & rest & Ep & _); discriminate Ep).
  destruct (hex_decode _) as [b|] eqn:E.
  - apply answered_success, an_sha3. by eexists _, _.
  - apply answered_error, an_bad_bytes. intros (b & s' & rest & [= -> ->] & E'). congruence.
Qed.

Lemma handlers_answer :
  Forall (fun m => forall state id params r, m.2 state id params = Return r -> answered state m.1 id params r)
    (rpc_methods (SecretKey := SecretKey)).
Proof.
  unfold rpc_methods. repeat (apply Forall_cons; split); [..|by apply Forall_nil]; cbn [fst snd];
    try apply block_by_number_answered; intros state id params r [= <-];
    first [apply block_by_hash_answered | apply transaction_answered | apply receipt_answered | apply logs_answered
      | apply sha3_answered | apply answered_error, an_send
      | apply answered_success; first [apply an_listening | apply an_block_number | apply an_peer_count
          | by apply an_node_info | by apply an_dag_info | by apply an_peers | by apply an_pool | apply an_constant; set_solver]].
Qed.

Lemma find_method_None name :
  List.find (fun m : string * (RpcState SecretKey -> Value -> option Value -> Outcome RpcResponse) => String.eqb m.1 name) rpc_methods = None ->
  name ∉ method_names.
Proof.
  intros Hf Hin. assert (Hsub : Forall (fun m => m ∈ (rpc_methods (SecretKey := SecretKey)).*1) method_names)
    by (apply (bool_decide_unpack _); vm_compute; exact I).
  rewrite Forall_forall in Hsub. apply Hsub, list_elem_of_fmap in Hin as (m & -> & Hm%list_elem_of_In).
  apply (List.find_none _ _ Hf) in Hm. cbn in Hm. by rewrite String.eqb_refl in Hm.
Qed.


(** ** Requests that get no answer *)

Context `{!HexOk}.

Lemma trim_0x_short n l : (length l <= n)%nat -> (length (trim_0x l) <= length l)%nat.
Proof.
  revert l. induction n as [|n IH]; intros [|a [|b l]] Hn; simpl in *; try lia.
  case_bool; [|simpl; lia]. specialize (IH l). lia.
Qed.

Lemma starts_with_0x_inv l : starts_with_0x l = true -> exists l', l = prefix_0x ++ l'.
Proof.
  unfold starts_with_0x. intros Hs%bool_decide_eq_true. exists (drop 2 l). rewrite <- Hs. by rewrite take_drop.
Qed.

Lemma trim_0x_other l : starts_with_0x l = false -> trim_0x l = l.
Proof.
  unfold starts_with_0x. intros Hs%bool_decide_eq_false. destruct l as [|a [|b l]]; [done..|]. simpl.
  destruct (Z.eqb_spec a 48) as [->|]; [|done]. destruct (Z.eqb_spec b 120) as [->|]; [|done]. done.
Qed.

(** The string ids at which parsing a block id panics. *)
Definition doubled_prefix (s : string) : Prop :=
  length (string_bytes s) = 66%nat /\ (exists l, string_bytes s = prefix_0x ++ prefix_0x ++ l) /\
  is_Some (hex_decode (trim_0x (string_bytes s))).

Lemma parse_block_string_panic s : parse_block_string s = Panic <-> doubled_prefix s.
Proof.
  unfold parse_block_string, doubled_prefix. destruct (starts_with_0x (string_bytes s)) eqn:Hs; cbn [andb].
  2:{ split; [done|]. intros (_ & [l Hl] & _). by rewrite Hl in Hs. }
  apply starts_with_0x_inv in Hs as [l Hl]. rewrite Hl. simpl.
  destruct (Nat.eqb_spec (length l) 64) as [Hlen|Hlen]; [|split; [by repeat case_match|intros [? _]; lia]].
  destruct (starts_with_0x l) eqn:Hs2.
  - apply starts_with_0x_inv in Hs2 as [l2 ->]. simpl in Hlen |- *.
    destruct (hex_decode (trim_0x l2)) as [b|] eqn:Hd; [|split; [done|intros (_ & _ & []); done]].
    apply hex_decode_length in Hd. pose proof (trim_0x_short (length l2) l2 ltac:(lia)).
    destruct (Nat.eqb_spec (length b) 32); [lia|]. split; [|done]. intros _. split; [lia|]. split; [by exists l2|done].
  - assert (trim_0x l = l) as Ht by by apply trim_0x_other.
    rewrite Ht. split.
    + destruct (hex_decode l) as [b|] eqn:Hd; [|done]. apply hex_decode_length in Hd.
      destruct (Nat.eqb_spec (length b) 32); [done|lia].
    + intros (_ & [l' Hl'] & _). injection Hl' as ->. done.
Qed.

(** C31: a request makes the server panic exactly when it asks for a block by
    number with a string of 66 bytes that begins with "0x0x" and is otherwise
    hexadecimal: stripping every leading "0x" leaves less than 64 digits, and
    copying the decoded bytes into a hash panics.  Every other request is
    answered. *)
Theorem request_panics_iff state request :
  process_request state request = Panic <->
  req_method request = "eth_getBlockByNumber"%string /\
  exists s rest, req_params request = Some (VArray (VString s :: rest)) /\ doubled_prefix s.
Proof.
  assert (Hnum : forall id params, eth_get_block_by_number state id params = Panic <->
    exists s rest, params = Some (VArray (VString s :: rest)) /\ doubled_prefix s).
  { intros id params. unfold eth_get_block_by_number, parse_block_params.
    destruct params as [[| | | |[|[| |n|s| |] rest]|]|]; simpl; try (split; [by repeat case_match|naive_solver]).
    split.
    - intros Hp. exists s, rest. split; [done|]. apply parse_block_string_panic.
      destruct (parse_block_string s) as [[b|e]|]; [by case_match|done|done].
    - intros (s' & rest' & [= <- <-] & Hd%parse_block_string_panic). by rewrite Hd. }
  unfold process_request. rewrite <- (Hnum (req_id request)).
  destruct (String.eqb_spec (req_method request) "eth_getBlockByNumber") as [->|Hne]; [simpl; naive_solver|].
  split; [|by intros [? _]]. destruct (List.find _ _) as [[name handler]|] eqn:Hf; [|done].
  apply List.find_some in Hf as [Hin Heq]. apply String.eqb_eq in Heq. simpl in Heq. subst name.
  unfold rpc_methods in Hin. cbn [In] in Hin. intros Hp. exfalso.
  repeat (destruct Hin as [Hin|Hin]; [injection Hin as Hm Hh; subst handler; first [done|congruence]|]). done.
Qed.
(** ** Blocks are found again *)

Lemma parse_hash_text h rest :
  is_bytes 32 h -> parse_hash_param (Some (VArray (VString (text (hex_bytes_serialize h)) :: rest))) = inl h.
Proof.
  intros [Hl Hu]. pose proof (hex_encode_digits h Hu) as Hd.
  assert (string_bytes (text (hex_bytes_serialize h)) = hex_bytes_serialize h) as Ht.
  { apply string_bytes_text, prefix_0x_u8. by apply digits_u8. }
  revert Ht. generalize (text (hex_bytes_serialize h)). intros t Ht. unfold parse_hash_param. simpl. rewrite Ht.
  unfold hex_bytes_serialize. by rewrite trim_0x_prefix, hex_decode_encode, Hl by done.
Qed.

Lemma find_tx_first hash txs i k : txs !! k = Some hash -> NoDup txs -> find_tx hash i txs = Some (i + Z.of_nat k).
Proof.
  revert i k. induction txs as [|tx txs IH]; intros i k Hk Hnd; [done|]. apply NoDup_cons in Hnd as [Hnin Hnd].
  destruct k as [|k]; simpl in *.
  - injection Hk as ->. rewrite bool_decide_eq_true_2 by done. f_equal. lia.
  - rewrite bool_decide_eq_false_2 by (intros ->; apply Hnin; by eapply list_elem_of_lookup_2).
    rewrite (IH (i + 1) k) by done. f_equal. lia.
Qed.

Definition with_block (state : RpcState SecretKey) (b : Block) : RpcState SecretKey :=
  mkRpcState (rpc_node state) (BlockStore_insert_block (rpc_blocks state) b).

Definition block_params (v : Value) : option Value := Some (VArray [v]).

(** C20: a block put into the store is served by every query.  Asked with the
    texts the server itself writes, [eth_getBlockByNumber] and
    [eth_getBlockByHash] return the block, and [eth_getTransactionByHash]
    returns, for each of its transactions, the block and the transaction's
    position in it. *)
Theorem stored_block_is_served state (b : Block) (id : Value) :
  is_u64 (bl_number b) -> is_bytes 32 (bl_hash b) -> Forall (is_bytes 32) (bl_transactions b) -> NoDup (bl_transactions b) ->
  eth_get_block_by_number (with_block state b) id (block_params (json_hex (bl_number b))) =
    Return (RpcResponse_success id (block_value (Some b))) /\
  eth_get_block_by_hash (with_block state b) id (block_params (VString (text (hex_bytes_serialize (bl_hash b))))) =
    RpcResponse_success id (block_value (Some b)) /\
  forall k tx, bl_transactions b !! k = Some tx ->
    eth_get_transaction_by_hash (with_block state b) id (block_params (VString (text (hex_bytes_serialize tx)))) =
    RpcResponse_success id (tx_value tx b (Z.of_nat k)).
Proof.
  intros Hn Hh Htx Hnd. destruct (insert_block_spec (rpc_blocks state) b) as (Hnum & Hhash & Htxb & _ & _ & _).
  split_and!.
  - unfold eth_get_block_by_number, parse_block_params, block_params. simpl. rewrite parse_number_text by done. simpl.
    by rewrite Hnum, decide_True.
  - unfold eth_get_block_by_hash, block_params. rewrite parse_hash_text by done. simpl. by rewrite Hhash, decide_True.
  - intros k tx Hk. unfold eth_get_transaction_by_hash, block_params.
    rewrite parse_hash_text by (rewrite Forall_forall in Htx; apply Htx; by eapply list_elem_of_lookup_2). simpl.
    rewrite Htxb, decide_True by by eapply list_elem_of_lookup_2. simpl. rewrite Hnum, decide_True by done. simpl.
    by rewrite (find_tx_first tx _ 0 k).
Qed.

(** The text of [eth_blockNumber], the tags "latest" and "pending" and the
    absence of parameters all name the block of the highest number. *)
Theorem latest_block_queries state (id : Value) :
  is_u64 (BlockStore_latest_number (rpc_blocks state)) ->
  let latest := Return (RpcResponse_success id (block_value (BlockStore_latest_block (rpc_blocks state)))) in
  (forall v, resp_result (eth_block_number state id) = Some v -> eth_get_block_by_number state id (block_params v) = latest) /\
  eth_get_block_by_number state id (block_params (VString "latest")) = latest /\
  eth_get_block_by_number state id (block_params (VString "pending")) = latest /\
  eth_get_block_by_number state id None = latest.
Proof.
  intros Hn. split_and!; try done. intros v [= <-]. unfold eth_get_block_by_number, parse_block_params, block_params, json_hex.
  simpl. by rewrite parse_number_text.
Qed.

(** ** Log queries by number *)

Lemma number_text_no_hash n : is_u64 n -> TxHash_deserialize (string_bytes (text (hex_u64_serialize n))) = None.
Proof.
  intros Hn. destruct (hex_digits_spec 15 n) as (Hdig & _); [exact Hn|]. unfold hex_u64_serialize, TxHash_deserialize, hex_array_deserialize.
  rewrite string_bytes_text by by apply prefix_0x_u8, digits_u8. unfold format_x. rewrite trim_0x_prefix by done.
  destruct (hex_decode _) as [b|] eqn:Hd; simpl; [|done]. apply hex_decode_length in Hd. pose proof (hex_digits_length 16 n).
  destruct (Nat.eqb_spec (length b) 32); [lia|done].
Qed.

Lemma number_text_no_tag n t : is_u64 n -> starts_with_0x (string_bytes t) = false -> text (hex_u64_serialize n) <> t.
Proof.
  intros Hn Ht <-. destruct (hex_digits_spec 15 n) as (Hdig & _); [exact Hn|]. unfold hex_u64_serialize in Ht.
  by rewrite string_bytes_text in Ht by by apply prefix_0x_u8, digits_u8.
Qed.

Lemma log_bound_number latest d n : is_u64 n -> log_bound latest d (Some (BlockTag (text (hex_u64_serialize n)))) = d.
Proof.
  intros Hn. unfold log_bound. destruct (String.eqb_spec (text (hex_u64_serialize n)) "latest") as [E|_].
  { by apply number_text_no_tag in E. }
  destruct (String.eqb_spec (text (hex_u64_serialize n)) "earliest") as [E|_]; [by apply number_text_no_tag in E|done].
Qed.

(** [eth_getLogs] does not understand block numbers written the way the
    server writes them: a filter whose range is given in "0x" numbers is
    answered with the logs of all blocks from the first to the latest, because
    such a string is read as a tag and unknown tags are ignored. *)
Theorem get_logs_ignores_range `{!SerdeJsonOk} state (id v : Value) (rest : list Value) (f : LogFilter) (n1 n2 : Z) :
  is_u64 n1 -> is_u64 n2 -> log_filter_from_value v = inl f ->
  member "fromBlock" v = Some (json_hex n1) -> member "toBlock" v = Some (json_hex n2) ->
  eth_get_logs state id (Some (VArray (v :: rest))) =
  RpcResponse_success id (default (VArray []) (logs_to_value
    (BlockStore_get_logs (rpc_blocks state) 0 (BlockStore_latest_number (rpc_blocks state)) (lf_address f) (lf_topics f)))).
Proof.
  intros Hn1 Hn2 Hf Hfrom Hto. unfold eth_get_logs, parse_log_filter. simpl. rewrite Hf. simpl.
  rewrite (filter_from_string v f _ Hf Hfrom), (filter_to_string v f _ Hf Hto) by by apply number_text_no_hash.
  by rewrite !log_bound_number.
Qed.
End responses.

(** ** The metrics' average *)

(** Rounding to hundredths is to the nearest. *)
Lemma round_half_even_near a b : 0 < b -> 2 * Z.abs (a - b * round_half_even a b) <= b.
Proof.
  intros Hb. unfold round_half_even. pose proof (Z.div_mod a b ltac:(lia)). pose proof (Z.mod_pos_bound a b ltac:(lia)).
  destruct (Z.compare_spec (2 * (a mod b)) b); [destruct (Z.even (a / b))|..]; nia.
Qed.

(** ** Witnesses

    A conversion that keeps the number and the hash of a block, the block
    numbers of logs and the range of a filter. *)

Definition plain_block_id (v : Value) : option BlockId :=
  match v with
  | VNumber n => BlockNumber <$> as_u64 n
  | VString s =>
      Some match TxHash_deserialize (H := plain_hex) (string_bytes s) with Some h => BlockHash h | None => BlockTag s end
  | _ => None
  end.

Definition plain_serde : SerdeJson := {|
  block_to_value := fun b => Some (VObject [("number"%string, json_hex (bl_number b))]);
  receipt_to_value := fun r => Some (VObject [("blockNumber"%string, json_hex (rc_block_number r))]);
  logs_to_value := fun l => Some (VArray ((fun log => json_hex (lg_block_number log)) <$> l));
  log_filter_from_value := fun v =>
    inl (mkLogFilter (member "fromBlock" v ≫= plain_block_id) (member "toBlock" v ≫= plain_block_id) None None)
|}.

Lemma plain_serde_ok : @SerdeJsonOk plain_hex plain_serde.
Proof. split; intros v f s [= <-] Hm Hd; simpl; rewrite Hm; simpl; by rewrite Hd. Qed.

Definition rpc_block : Block :=
  @Block_from_round checksum_hashes 5 (replicate 32 0) (replicate 32 1) [replicate 32 7; replicate 32 8] [] Address_zero 0 0.

Definition rpc_sample : RpcState (list Z) :=
  mkRpcState (node_with [] MultiVersionState_new)
    (mkBlockStore ∅ ∅ ∅ ∅
       (list_to_map ((fun n => (n, [mkBlockLog Address_zero [] [] n [] 0 [] 0 false])) <$> [1; 2; 3; 4])) 4).

(** A request for a block by a string of 66 bytes that begins with "0x0x". *)
Definition panic_request : RpcRequest :=
  mkRpcRequest "2.0" "eth_getBlockByNumber"
    (Some (VArray [VString (text (prefix_0x ++ prefix_0x ++ replicate 62 49))])) (json_u64 1).

Lemma request_panics_iff_witness :
  process_request (H := checksum_hashes) (H0 := plain_hex) (H1 := plain_serde) rpc_sample panic_request = Panic.
Proof.
  apply (@request_panics_iff checksum_hashes plain_hex plain_serde (list Z) plain_hex_ok). split; [reflexivity|].
  eexists. exists []. split; [reflexivity|]. split; [vm_compute; reflexivity|].
  split; [exists (replicate 62 49); vm_compute; reflexivity|eexists; vm_compute; reflexivity].
Defined.


Lemma stored_block_is_served_witness :
  @eth_get_block_by_number plain_hex plain_serde (list Z) (with_block rpc_sample rpc_block) VNull (block_params (json_hex 5)) =
  Return (RpcResponse_success VNull (VObject [("number"%string, VString "0x5")])).
Proof.
  destruct (@stored_block_is_served plain_hex plain_serde (list Z) plain_hex_ok rpc_sample rpc_block VNull) as [Hb _].
  - vm_compute. split; [discriminate|reflexivity].
  - apply (@sha256_is_bytes checksum_hashes checksum_hashes_ok).
  - repeat constructor; vm_compute; done.
  - apply (bool_decide_unpack _). vm_compute. exact I.
  - transitivity (Return (RpcResponse_success VNull (@block_value plain_serde (Some rpc_block)))); [exact Hb|vm_compute; reflexivity].
Defined.

Definition range_filter : Value := VObject [("fromBlock"%string, json_hex 2); ("toBlock"%string, json_hex 3)].

Lemma get_logs_ignores_range_witness :
  @eth_get_logs plain_serde (list Z) rpc_sample VNull (Some (VArray [range_filter])) =
  RpcResponse_success VNull (VArray [VString "0x1"; VString "0x2"; VString "0x3"; VString "0x4"]).
Proof.
  pose proof (@get_logs_ignores_range plain_hex plain_serde (list Z) plain_hex_ok plain_serde_ok rpc_sample VNull range_filter []
    (mkLogFilter (Some (BlockTag "0x2")) (Some (BlockTag "0x3")) None None) 2 3) as Hl.
  etransitivity; [apply Hl; [u64_lia|u64_lia|vm_compute; reflexivity..]|vm_compute; reflexivity].
Defined.

Lemma latest_block_queries_witness :
  @eth_get_block_by_number plain_hex plain_serde (list Z) rpc_sample VNull (block_params (VString "pending")) =
  Return (RpcResponse_success VNull VNull).
Proof.
  destruct (@latest_block_queries plain_hex plain_serde (list Z) rpc_sample VNull) as (_ & _ & Hp & _);
    [vm_compute; split; [discriminate|reflexivity]|].
  etransitivity; [exact Hp|vm_compute; reflexivity].
Defined.

Example metrics_average : format_f64_2 (metrics_tps 10 (metrics_uptime 103 100)) = "3.33"%string.
Proof. vm_compute. reflexivity. Qed.
