(* ===== verification/App.v ===== *)
(** * The running node: [src/node/node.rs] ([start], [stop] and its tasks),
    [src/bin/ryther.rs]

    A live node is a [RytherNode] with its transport and the tasks [start]
    spawns.  The node and the transport share one peer table: whichever of
    them changes it, the other sees the change.  A task that sends messages
    waits for each of them to be accepted before it goes on, so it has an
    outbox and takes its next turn when the outbox is empty.  [main] is a
    sequence of phases; signals and the outcomes of connection attempts are
    arguments. *)

From S2P Require Import Prelude Types Transaction Event Vm Block Bls Dag Consensus Mvcc Peer Gossip Transport Node Rpc.

(** The keys of [crypto/bls.rs] are what the node needs of keys. *)
#[global] Instance bls_keys `{Blst} : Bls SecretKey := {|
  key_from_bytes := fun b => match SecretKey_from_bytes b with inl k => Some k | inr _ => None end;
  key_public_bytes := fun k => PublicKey_to_bytes (SecretKey_public_key k);
  key_sign := fun k m => Signature_to_bls_signature (SecretKey_sign k m)
|}.

Section live.
Context `{Hashes} `{Bincode} {SecretKey : Type} `{Bls SecretKey}.
Abbreviation Node := (RytherNode SecretKey) (only parsing).

Record Live := mkLive {
  lv_node : Node;
  lv_transport : TcpTransport;
  lv_handler : bool;
  lv_handler_out : list (list Z * NetworkMessage);
  lv_producer : bool;
  lv_producer_out : list (list Z * NetworkMessage)
}.

Implicit Types lv : Live.

Definition set_gossip_peers (p : PeerManager) (g : GossipProtocol) : GossipProtocol :=
  mkGossip (g_config g) p (g_dag g) (g_local_id g) (seen_messages g) (pending_events g) (processed_events g).

Definition set_node_peers (p : PeerManager) (n : Node) : Node := set_gossip (set_gossip_peers p (n_gossip n)) n.

(** Changes of one side, with the shared table carried to the other. *)
Definition with_node (n : Node) lv : Live :=
  mkLive n (set_t_peers (n_peers n) (lv_transport lv)) (lv_handler lv) (lv_handler_out lv) (lv_producer lv) (lv_producer_out lv).

Definition with_transport (t : TcpTransport) lv : Live :=
  mkLive (set_node_peers (t_peers t) (lv_node lv)) t (lv_handler lv) (lv_handler_out lv) (lv_producer lv) (lv_producer_out lv).

Definition set_handler_out (out : list (list Z * NetworkMessage)) lv : Live :=
  mkLive (lv_node lv) (lv_transport lv) (lv_handler lv) out (lv_producer lv) (lv_producer_out lv).

Definition set_producer_out (out : list (list Z * NetworkMessage)) lv : Live :=
  mkLive (lv_node lv) (lv_transport lv) (lv_handler lv) (lv_handler_out lv) (lv_producer lv) out.

(** The transport [RytherNode::new] makes. *)
Definition node_transport (n : Node) : TcpTransport :=
  let net := nc_network (n_config n) in
  TcpTransport_new (n_peer_id n) (n_peers n)
    (mkTransportConfig (nc_listen_addr net) (max_message_size TransportConfig_default) (nc_connect_timeout_ms net)).

Definition Live_new (n : Node) : Live := mkLive n (node_transport n) false [] false [].

(** ** Tasks *)

(** One message of an outbox: [let _ = transport.send(...).await]. *)
Definition send_head (now : Z) (t : TcpTransport) (out : list (list Z * NetworkMessage))
    : TcpTransport * list (list Z * NetworkMessage) :=
  match out with
  | [] => (t, [])
  | (id, m) :: rest =>
      match TcpTransport_send now t id m with
      | (t', Pending) => (t', out)
      | (t', Ready _) => (t', rest)
      end
  end.

Definition handler_send (now : Z) lv : Live :=
  let '(t, out) := send_head now (lv_transport lv) (lv_handler_out lv) in
  set_handler_out out (with_transport t lv).

Definition producer_send (now : Z) lv : Live :=
  let '(t, out) := send_head now (lv_transport lv) (lv_producer_out lv) in
  set_producer_out out (with_transport t lv).

(** One turn of [handle_messages]' loop. *)
Definition handler_turn (now : Z) (reply_id : bytes) lv : Live :=
  match lv_handler lv, lv_handler_out lv, incoming (lv_transport lv) with
  | true, [], (peer_id, message) :: q =>
      let lv := with_transport (set_incoming q (incoming_open (lv_transport lv)) (lv_transport lv)) lv in
      let '(n, out) := RytherNode_handle_message now reply_id (lv_node lv) peer_id message in
      set_handler_out out (with_node n lv)
  | _, _, _ => lv
  end.

(** One turn of the block producer's loop; its messages go out before the next
    turn. *)
Definition producer_turn (now : Z) (message_ids : nat -> bytes) (share_ids : Z -> nat -> bytes) lv : Live :=
  match lv_producer lv, lv_producer_out lv with
  | true, [] =>
      let '(n, out) := producer_tick now message_ids share_ids (lv_node lv) in
      set_producer_out out (with_node n lv)
  | _, _ => lv
  end.

(** The transport's own tasks and the network. *)
Definition net_op (o : TransportOp) : bool :=
  match o with
  | OpAccept _ _ | OpWriter _ _ | OpWriterClose _ | OpReader _ _ | OpArrive _ _ | OpEof _ => true
  | _ => false
  end.

Inductive LiveStep :=
| LHandle (now : Z) (reply_id : bytes)
| LHandlerSend (now : Z)
| LTick (now : Z) (message_ids : nat -> bytes) (share_ids : Z -> nat -> bytes)
| LProducerSend (now : Z)
| LCleanup (now : Z)
| LNet (o : TransportOp).

Definition live_step lv (s : LiveStep) : Live :=
  match s with
  | LHandle now reply_id => handler_turn now reply_id lv
  | LHandlerSend now => handler_send now lv
  | LTick now message_ids share_ids => producer_turn now message_ids share_ids lv
  | LProducerSend now => producer_send now lv
  | LCleanup now => with_node (set_gossip (GossipProtocol_cleanup now (n_gossip (lv_node lv))) (lv_node lv)) lv
  | LNet o => if net_op o then with_transport (transport_step (lv_transport lv) o) lv else lv
  end.

Definition live_run lv (steps : list LiveStep) : Live := fold_left live_step steps lv.

(** ** Starting and stopping *)

(** The attempts to reach one bootstrap peer: at most five, stopping at the
    first success; [outcomes i] is the outcome of attempt [i]. *)
Fixpoint connect_attempts (now : Z) (t : TcpTransport) (id : PeerId) (addr : SocketAddr)
    (outcomes : nat -> ConnectOutcome) (i fuel : nat) : TcpTransport :=
  match fuel with
  | O => t
  | S fuel =>
      match TcpTransport_connect now t id addr (outcomes i) with
      | (t', inl _) => t'
      | (t', inr _) => connect_attempts now t' id addr outcomes (S i) fuel
      end
  end.

(** The loop over the bootstrap peers.  [parse] is the standard library's
    parser of socket addresses; [outcomes p] are the outcomes of the attempts
    to reach the peer [p]. *)
Definition bootstrap_peer (now : Z) (parse : string -> option SocketAddr) (outcomes : string -> nat -> ConnectOutcome)
    (t : TcpTransport) (peer_addr : string) : TcpTransport :=
  match parse peer_addr with
  | Some addr => connect_attempts now t (sha256 (string_bytes peer_addr)) addr (outcomes peer_addr) 0 5
  | None => t
  end.

Definition RytherNode_connect_bootstrap_peers (now : Z) (parse : string -> option SocketAddr)
    (outcomes : string -> nat -> ConnectOutcome) lv : Live :=
  with_transport
    (fold_left (bootstrap_peer now parse outcomes) (nc_bootstrap_peers (nc_network (n_config (lv_node lv)))) (lv_transport lv)) lv.

(** [handle_messages] takes the receiver and spawns its loop. *)
Definition RytherNode_handle_messages lv : Live :=
  let '(t, taken) := TcpTransport_take_receiver (lv_transport lv) in
  mkLive (lv_node lv) t (if taken then true else lv_handler lv) (lv_handler_out lv) (lv_producer lv) (lv_producer_out lv).

Definition RytherNode_start_block_producer lv : Live :=
  mkLive (lv_node lv) (lv_transport lv) (lv_handler lv) (lv_handler_out lv) true (lv_producer_out lv).

(** [start] up to its wait for the shutdown signal: the listener and the
    cleanup task need no state of their own. *)
Definition start_begin lv : Live := with_node (set_state Syncing (lv_node lv)) lv.

(** The attempts to reach the bootstrap peers, with the waits between them, and
    the tasks started after them, as one step: what the listener accepts in
    the meantime comes after it. *)
Definition start_tasks (now : Z) (parse : string -> option SocketAddr) (outcomes : string -> nat -> ConnectOutcome) lv : Live :=
  let lv := RytherNode_connect_bootstrap_peers now parse outcomes lv in
  let lv := RytherNode_handle_messages lv in
  let lv := if NodeConfig_is_validator (n_config (lv_node lv)) then RytherNode_start_block_producer lv else lv in
  with_node (set_state Running (lv_node lv)) lv.

(** ** Configuration files *)

(** [NodeConfig]'s JSON text, from [serde_json]. *)
Class ConfigJson := {
  config_to_string_pretty : NodeConfig -> string + string;
  config_from_str : string -> NodeConfig + string
}.

(** What the crate documents: text it wrote is read back. *)
Class ConfigJsonOk `{ConfigJson} : Prop := {
  config_text_roundtrip c s : config_to_string_pretty c = inl s -> config_from_str s = inl c
}.

(** The file at a path: absent, or its content; [read_error] and [write_error]
    are failures of the file system. *)
Definition NodeConfig_load `{ConfigJson} (read_error : option string) (file : option string) : NodeConfig + string :=
  match read_error, file with
  | Some e, _ => inr ("Failed to read config: " +:+ e)
  | None, None => inr ("Failed to read config: " +:+ "No such file or directory (os error 2)")
  | None, Some content =>
      match config_from_str content with
      | inl c => inl c
      | inr e => inr ("Failed to parse config: " +:+ e)
      end
  end.

(** The file afterwards, and the result. *)
Definition NodeConfig_save `{ConfigJson} (write_error : option string) (file : option string) (c : NodeConfig)
    : option string * (unit + string) :=
  match config_to_string_pretty c with
  | inr e => (file, inr ("Failed to serialize config: " +:+ e))
  | inl content =>
      match write_error with
      | Some e => (file, inr ("Failed to write config: " +:+ e))
      | None => (Some content, inl ())
      end
  end.

(** The first part of [main]: load the configuration, or use and save the
    default. *)
Definition main_config `{ConfigJson} (num_cpus : nat) (read_error write_error : option string) (file : option string)
    : NodeConfig * option string :=
  match file with
  | Some _ =>
      match NodeConfig_load read_error file with
      | inl cfg => (cfg, file)
      | inr _ => (NodeConfig_default num_cpus, file)
      end
  | None =>
      let config := NodeConfig_default num_cpus in
      (config, (NodeConfig_save write_error file config).1)
  end.

(** The first run writes the configuration the later ones read: started again
    with the file it left and no read error, [main] has the configuration of
    the first run, whatever the number of processors is by then. *)
Theorem config_survives_restart `{ConfigJsonOk} (cpus cpus' : nat) (s : string) :
  config_to_string_pretty (NodeConfig_default cpus) = inl s ->
  let '(config, file) := main_config cpus None None None in
  config = NodeConfig_default cpus /\ main_config cpus' None None file = (config, file).
Proof.
  intros Hs. unfold main_config, NodeConfig_save. rewrite Hs. simpl. split; [done|].
  by rewrite (config_text_roundtrip _ _ Hs).
Qed.

(** ** The program *)

(** [main]'s position: before [start], in it, waiting in it for the shutdown
    signal, serving after it returned, done. *)
Inductive MainPhase := MainCreated | MainStarting | MainWaiting | MainServing | MainExited.

Record App := mkApp {
  app_live : Live;
  app_blocks : BlockStore;
  app_phase : MainPhase;
  app_shutdown : nat;
  app_shutdown_rx : bool;
  app_rpc : bool
}.

(** [main] up to [start]: the block store holds the genesis block.  [None] is
    a panic of [RytherNode::new]. *)
Definition main_init (peer_id : PeerId) (num_cpus : nat) (now : Z) (config : NodeConfig) (key : option bytes) : option App :=
  n ← RytherNode_new peer_id num_cpus now config key;
  Some (mkApp (Live_new n) (BlockStore_insert_block BlockStore_new (Block_genesis (cc_chain_id (nc_chain config))))
          MainCreated 0 true false).

Definition main_live (a : App) (lv : Live) (phase : MainPhase) : App :=
  mkApp lv (app_blocks a) phase (app_shutdown a) (app_shutdown_rx a) (app_rpc a).

(** [stop]: the signal reaches [start] while its receiver exists; a send to a
    receiver that is gone fails and is ignored. *)
Definition app_stop (a : App) : App :=
  mkApp (with_node (RytherNode_stop (lv_node (app_live a))) (app_live a)) (app_blocks a) (app_phase a)
    (if app_shutdown_rx a then S (app_shutdown a) else app_shutdown a) (app_shutdown_rx a) (app_rpc a).

Inductive AppStep :=
| AppMain (now : Z) (parse : string -> option SocketAddr) (outcomes : string -> nat -> ConnectOutcome)
| AppCtrlC
| AppLive (s : LiveStep).

(** One step of [main]'s own task. *)
Definition main_step (now : Z) (parse : string -> option SocketAddr) (outcomes : string -> nat -> ConnectOutcome) (a : App) : App :=
  match app_phase a with
  | MainCreated => main_live a (start_begin (app_live a)) MainStarting
  | MainStarting => main_live a (start_tasks now parse outcomes (app_live a)) MainWaiting
  | MainWaiting =>
      match app_shutdown a with
      | O => a
      | S n =>
          mkApp (app_live a) (app_blocks a) MainServing n false
            (rc_enabled (nc_rpc (n_config (lv_node (app_live a)))) || app_rpc a)
      end
  | MainServing | MainExited => a
  end.

(** The signal handler is installed once [start] has returned; before that the
    signal ends the process. *)
Definition ctrl_c_step (a : App) : App :=
  match app_phase a with
  | MainServing => let a := app_stop a in main_live a (app_live a) MainExited
  | _ => main_live a (app_live a) MainExited
  end.

Definition app_step (a : App) (s : AppStep) : App :=
  match app_phase a, s with
  | MainExited, _ => a
  | _, AppMain now parse outcomes => main_step now parse outcomes a
  | _, AppCtrlC => ctrl_c_step a
  | _, AppLive s => main_live a (live_step (app_live a) s) (app_phase a)
  end.

Definition app_run (a : App) (steps : list AppStep) : App := fold_left app_step steps a.

(** ** The server is never started

    [start] returns only when the shutdown signal arrives, and the signal is
    sent by [stop], which [main] calls after [start] has returned. *)

Definition before_serving (a : App) : Prop :=
  app_phase a <> MainServing /\ app_shutdown a = 0%nat /\ app_rpc a = false.

Lemma before_serving_step a s : before_serving a -> before_serving (app_step a s).
Proof.
  intros (Hp & Hs & Hr). unfold app_step, main_step, ctrl_c_step.
  destruct (app_phase a) eqn:E; [..|done|]; destruct s; rewrite ?Hs; split_and!; simpl; try done; by rewrite E.
Qed.

(** C32: the RPC server is never started: in no run of the program, whatever
    the tasks, the network and the user do, does [main] get past [start]. *)
Theorem rpc_never_served (peer_id : PeerId) (num_cpus : nat) (now : Z) (config : NodeConfig) (key : option bytes)
    (a : App) (steps : list AppStep) :
  main_init peer_id num_cpus now config key = Some a ->
  app_rpc (app_run a steps) = false /\ app_phase (app_run a steps) <> MainServing.
Proof.
  unfold main_init. destruct (RytherNode_new _ _ _ _ _) as [n|]; simpl; [|done]. intros [= <-].
  match goal with |- context [app_run ?a0 steps] => assert (before_serving a0) as Hb by done; revert Hb; generalize a0 end.
  unfold app_run. induction steps as [|s steps IH]; intros a Ha; simpl; [by destruct Ha as (? & _ & ?)|].
  by apply IH, before_serving_step.
Qed.

(** [start] brings the node to [Running] with the message handler at work, and
    the block producer when there is a validator section in the configuration. *)
Theorem start_runs (peer_id : PeerId) (num_cpus : nat) (now now' : Z) (config : NodeConfig) (key : option bytes) (a : App)
    (parse : string -> option SocketAddr) (outcomes : string -> nat -> ConnectOutcome) :
  main_init peer_id num_cpus now config key = Some a ->
  let lv := app_live (app_run a [AppMain now' parse outcomes; AppMain now' parse outcomes]) in
  n_state (lv_node lv) = Running /\ lv_handler lv = true /\ lv_producer lv = NodeConfig_is_validator config /\
  app_phase (app_run a [AppMain now' parse outcomes; AppMain now' parse outcomes]) = MainWaiting.
Proof.
  unfold main_init. destruct (RytherNode_new _ _ _ _ _) as [n|] eqn:En; simpl; [|done]. intros [= <-].
  assert (n_config n = config) as Hc.
  { revert En. unfold RytherNode_new. repeat case_match; intros En; simplify_eq; try done.
    destruct (key_from_bytes _); simplify_eq/=; done. }
  assert (Hrx : forall id addr o t, incoming_rx (TcpTransport_connect now' t id addr o).1 = incoming_rx t).
  { intros. unfold TcpTransport_connect. by repeat case_match. }
  assert (Hat : forall id addr os fuel i t, incoming_rx (connect_attempts now' t id addr os i fuel) = incoming_rx t).
  { intros id addr os fuel. induction fuel as [|fuel IH]; intros i t; simpl; [done|].
    pose proof (Hrx id addr (os i) t). destruct (TcpTransport_connect _ _ _ _ _) as [t' [|]]; simpl in *; [done|]. by rewrite IH. }
  simpl. rewrite Hc. unfold TcpTransport_take_receiver, RytherNode_handle_messages, RytherNode_connect_bootstrap_peers. simpl.
  rewrite Hc. assert (forall ps t, incoming_rx (fold_left (bootstrap_peer now' parse outcomes) ps t) = incoming_rx t) as Hf.
  { intros ps. induction ps as [|p ps IH]; intros t; cbn [fold_left]; [done|]. rewrite IH. unfold bootstrap_peer. case_match; [apply Hat|done]. }
  rewrite Hf. simpl. by destruct (NodeConfig_is_validator config).
Qed.

(** ** Bootstrap *)

(** Reaching one bootstrap peer: at most five attempts.  If one of them
    succeeds the peer is connected, over one new link; otherwise no connection
    is added and the peer's entry, if it has one, is left [Connecting]. *)
Lemma connect_attempts_spec now id addr outcomes fuel i t :
  TcpTransport_is_connected t id = false ->
  let t' := connect_attempts now t id addr outcomes i fuel in
  ((exists k, (k < fuel)%nat /\ outcomes (i + k)%nat = ConnectOk) ->
     TcpTransport_is_connected t' id = true /\ links t' = links t ++ [new_link id]) /\
  ((forall k, (k < fuel)%nat -> outcomes (i + k)%nat <> ConnectOk) ->
     connections t' = connections t /\ links t' = links t /\
     ((0 < fuel)%nat -> forall p, peers (t_peers t') !! id = Some p -> pi_state p = Connecting)).
Proof.
  assert (Hstate : forall m p, peers (PeerManager_set_state now m id Connecting) !! id = Some p -> pi_state p = Connecting).
  { intros m p. unfold PeerManager_set_state, with_peer. destruct (peers m !! id) eqn:E; [|congruence].
    simpl. rewrite lookup_insert_eq. by intros [= <-]. }
  revert i t. induction fuel as [|fuel IH]; intros i t Hc; simpl.
  { split; [intros (k & Hk & _); lia|]. intros _. split_and!; [done|done|lia]. }
  unfold TcpTransport_connect. rewrite Hc.
  destruct (outcomes i) as [| |e] eqn:Ho; simpl.
  { split; [|intros Hno; destruct (Hno 0%nat); [lia|by rewrite Nat.add_0_r]]. intros _. split; [|done].
    unfold TcpTransport_is_connected. simpl. rewrite lookup_insert_eq. by apply bool_decide_eq_true. }
  all: match goal with |- context [connect_attempts _ ?t1 _ _ _ _ _] => destruct (IH (S i) t1 Hc) as [Hyes Hno] end.
  all: split; [intros (k & Hk & Hok); apply Hyes; destruct k as [|k];
    [rewrite Nat.add_0_r in Hok; congruence|exists k; split; [lia|by rewrite Nat.add_succ_l, <- Nat.add_succ_r]]|].
  all: intros Hall; destruct Hno as (-> & -> & Hst);
    [intros k Hk; rewrite Nat.add_succ_l, <- Nat.add_succ_r; apply Hall; lia|].
  all: split_and!; [done|done|]; intros _; destruct fuel; [simpl; apply Hstate|apply Hst; lia].
Qed.

(** ** Reputations

    The peer table files peers under the hash of their address; the handler
    rewards and penalizes the sender named in the message, which is the id the
    remote node drew at random. *)

(** The ids a node with the given bootstrap peers files its peers under: the
    hash of the text of a remote address, or of a bootstrap entry. *)
Definition address_hash (bootstrap : list string) (id : PeerId) : Prop :=
  (exists addr, id = sha256 (SocketAddr_to_string addr)) \/ (exists s, s ∈ bootstrap /\ id = sha256 (string_bytes s)).

Section reputations.
Context (bootstrap : list string).

Definition no_reputation (m : PeerManager) : Prop :=
  forall id p, peers m !! id = Some p -> address_hash bootstrap id /\ pi_reputation p = 0.

Lemma no_reputation_with f m id :
  (forall p, pi_reputation (f p) = pi_reputation p) -> no_reputation m -> no_reputation (with_peer f m id).
Proof.
  intros Hf Hm. unfold with_peer. destruct (peers m !! id) as [p|] eqn:E; [|done]. intros id' p'. simpl.
  rewrite lookup_insert_Some. intros [[<- <-]|[_ Hp]]; [rewrite Hf|]; eauto.
Qed.

Lemma no_reputation_add now m id addr : address_hash bootstrap id -> no_reputation m -> no_reputation (PeerManager_add_peer now m id addr).1.
Proof.
  intros Ha Hm. unfold PeerManager_add_peer. repeat case_bool; try done. intros id' p'. simpl.
  rewrite lookup_insert_Some. intros [[<- <-]|[_ Hp]]; [|eauto]. split; [done|].
  destruct (peers m !! id) as [p|] eqn:Hp; simpl; [apply (Hm id p Hp)|done].
Qed.

Lemma no_reputation_send now t id m :
  no_reputation (t_peers t) -> no_reputation (t_peers (TcpTransport_send now t id m).1).
Proof. intros Ht. unfold TcpTransport_send. repeat case_match; try done. by apply no_reputation_with. Qed.

Lemma no_reputation_head now t out :
  no_reputation (t_peers t) -> no_reputation (t_peers (send_head now t out).1).
Proof.
  intros Ht. unfold send_head. destruct out as [|[id m] out]; [done|].
  pose proof (no_reputation_send now t id m Ht). by destruct (TcpTransport_send now t id m) as [t' [|]].
Qed.

Lemma no_reputation_net t o :
  net_op o = true -> no_reputation (t_peers t) -> no_reputation (t_peers (transport_step t o)).
Proof.
  intros Ho Ht. destruct o; try discriminate Ho; simpl; unfold on_link, reader_turn; repeat case_match; try done.
  - apply no_reputation_with; [done|]. apply no_reputation_add; [|done]. left. by eexists.
  - by apply no_reputation_with.
Qed.

(** Rewarding or penalizing a peer that is not in the table changes nothing. *)
Lemma response_unknown_sender sender evs g :
  peers (g_peers g) !! sender = None -> g_peers (fold_left (handle_response_event sender) evs g) = g_peers g.
Proof.
  revert g. induction evs as [|e evs IH]; intros g Hg; simpl; [done|].
  assert (g_peers (handle_response_event sender g e) = g_peers g) as E.
  { unfold handle_response_event. case_match; simpl; unfold PeerManager_penalize_peer, PeerManager_reward_peer, with_peer; by rewrite Hg. }
  rewrite IH; [done|by rewrite E].
Qed.

Lemma handle_unknown_sender now reply_id (n : Node) from m :
  peers (n_peers n) !! nm_sender m = None -> n_peers (RytherNode_handle_message now reply_id n from m).1 = n_peers n.
Proof.
  intros Hn. unfold RytherNode_handle_message, GossipProtocol_handle_message, n_peers in *.
  destruct (nm_payload m); simpl; try done; case_bool; try done; simpl.
  - unfold GossipProtocol_handle_event_announce. repeat case_bool; done.
  - by apply (response_unknown_sender _ _ (GossipProtocol_mark_seen now (n_gossip n) (nm_message_id m))).
Qed.

Lemma producer_tick_peers now ids sids (n : Node) : n_peers (producer_tick now ids sids n).1 = n_peers n.
Proof.
  unfold producer_tick. assert (n_gossip (RytherNode_create_event n).1 = n_gossip n) as E.
  { unfold RytherNode_create_event. repeat case_match; simplify_eq; done. }
  destruct (RytherNode_create_event n) as [n1 [e|]]; simpl in E.
  - simpl. destruct (CommitDetector_try_advance _ _) as [d cs].
    pose proof (process_commits_gossip now sids (set_detector d (set_gossip
      (GossipProtocol_broadcast_event ids (mkGossip (g_config (n_gossip n1)) (g_peers (n_gossip n1)) (DagStore_insert (g_dag (n_gossip n1)) e)
        (g_local_id (n_gossip n1)) (seen_messages (n_gossip n1)) (pending_events (n_gossip n1)) (processed_events (n_gossip n1))) e).1 n1)) cs) as Hg.
    simpl in Hg. destruct (process_commits _ _ _ _) as [n2 msgs]. simpl in *. unfold n_peers. rewrite Hg. simpl. by rewrite E.
  - destruct (CommitDetector_try_advance _ _) as [d cs]. pose proof (process_commits_gossip now sids (set_detector d n1) cs) as Hg.
    destruct (process_commits _ _ _ _) as [n2 msgs]. simpl in *. unfold n_peers. by rewrite Hg, E.
Qed.

(** A message the handler takes is not sent in the name of an address hash. *)
Definition foreign_sender lv (s : LiveStep) : Prop :=
  match s, incoming (lv_transport lv) with
  | LHandle _ _, (_, m) :: _ => ~ address_hash bootstrap (nm_sender m)
  | _, _ => True
  end.

Fixpoint foreign_run lv (steps : list LiveStep) : Prop :=
  match steps with
  | [] => True
  | s :: steps => foreign_sender lv s /\ foreign_run (live_step lv s) steps
  end.

Lemma no_reputation_step lv s :
  foreign_sender lv s -> no_reputation (t_peers (lv_transport lv)) -> no_reputation (n_peers (lv_node lv)) ->
  no_reputation (t_peers (lv_transport (live_step lv s))) /\ no_reputation (n_peers (lv_node (live_step lv s))).
Proof.
  intros Hf Ht Hn. destruct s as [now rid|now|now ids sids|now|now|o]; simpl.
  - unfold handler_turn. destruct (lv_handler lv); [|done]. destruct (lv_handler_out lv); [|done].
    simpl in Hf. destruct (incoming (lv_transport lv)) as [|[from m] q]; [done|].
    assert (Hno : peers (t_peers (lv_transport lv)) !! nm_sender m = None).
    { destruct (_ !! _) as [p|] eqn:Ep; [|done]. by destruct (Ht _ _ Ep). }
    match goal with |- context [RytherNode_handle_message now rid ?n from m] =>
      pose proof (handle_unknown_sender now rid n from m Hno) as E; destruct (RytherNode_handle_message now rid n from m) as [n' out] end.
    simpl in *. by rewrite E.
  - unfold handler_send. pose proof (no_reputation_head now (lv_transport lv) (lv_handler_out lv) Ht).
    by destruct (send_head _ _ _) as [t out].
  - unfold producer_turn. destruct (lv_producer lv); [|done]. destruct (lv_producer_out lv); [|done].
    pose proof (producer_tick_peers now ids sids (lv_node lv)) as E. destruct (producer_tick _ _ _ _) as [n' out]. simpl in *. by rewrite E.
  - unfold producer_send. pose proof (no_reputation_head now (lv_transport lv) (lv_producer_out lv) Ht).
    by destruct (send_head _ _ _) as [t out].
  - done.
  - destruct (net_op o) eqn:Ho; [|done]. simpl. split; by apply no_reputation_net.
Qed.

Lemma no_reputation_connect now t id addr o :
  address_hash bootstrap id ->
  no_reputation (t_peers t) -> no_reputation (t_peers (TcpTransport_connect now t id addr o).1).
Proof.
  intros Ha Ht. unfold TcpTransport_connect. case_bool; [done|]. cbv zeta.
  assert (no_reputation (PeerManager_set_state now (PeerManager_add_peer now (t_peers t) id addr).1 id Connecting)) as Hc.
  { apply no_reputation_with; [done|]. by apply no_reputation_add. }
  destruct o; [|done..]. by apply no_reputation_with.
Qed.

Lemma no_reputation_attempts now id addr outcomes fuel i t :
  address_hash bootstrap id ->
  no_reputation (t_peers t) -> no_reputation (t_peers (connect_attempts now t id addr outcomes i fuel)).
Proof.
  intros Ha. revert i t. induction fuel as [|fuel IH]; intros i t Ht; simpl; [done|].
  pose proof (no_reputation_connect now t id addr (outcomes i) Ha Ht). destruct (TcpTransport_connect _ _ _ _ _) as [t' [|]]; [done|]. by apply IH.
Qed.

Lemma no_reputation_started now parse outcomes (n : Node) :
  nc_bootstrap_peers (nc_network (n_config n)) = bootstrap ->
  no_reputation (n_peers n) ->
  let lv := start_tasks now parse outcomes (start_begin (Live_new n)) in
  no_reputation (t_peers (lv_transport lv)) /\ no_reputation (n_peers (lv_node lv)).
Proof.
  intros Eb Hn. assert (no_reputation (t_peers (lv_transport (RytherNode_connect_bootstrap_peers now parse outcomes (start_begin (Live_new n)))))) as Hb.
  { simpl. rewrite Eb. assert (Hall : forall s, s ∈ bootstrap -> address_hash bootstrap (sha256 (string_bytes s))) by (right; eauto).
    match goal with |- no_reputation (t_peers (fold_left _ _ ?t0)) => assert (no_reputation (t_peers t0)) as Ht by done; revert Ht; generalize t0 end.
    revert Hall. generalize bootstrap at 1 3. intros ps. induction ps as [|p ps IH]; intros Hall t Ht; cbn [fold_left]; [done|].
    apply IH; [set_solver|]. unfold bootstrap_peer. case_match; [apply no_reputation_attempts; [set_solver|done]|done]. }
  unfold start_tasks. cbv zeta. destruct (NodeConfig_is_validator _); split; exact Hb.
Qed.

Lemma no_reputation_run (n : Node) now parse outcomes steps :
  nc_bootstrap_peers (nc_network (n_config n)) = bootstrap -> no_reputation (n_peers n) ->
  let start := start_tasks now parse outcomes (start_begin (Live_new n)) in
  foreign_run start steps -> no_reputation (n_peers (lv_node (live_run start steps))).
Proof.
  intros Eb Hn start Hr. destruct (no_reputation_started now parse outcomes n Eb Hn) as [Ht Hn']. fold start in Ht, Hn'.
  revert Hr Ht Hn'. generalize start. clear. induction steps as [|s steps IH]; intros lv Hr Ht Hn; [done|].
  destruct Hr as [Hs Hr]. by apply IH; [|apply no_reputation_step..].
Qed.

End reputations.

(** C33: reputations never move.  The peer table of a started node has only
    peers filed under the hash of a remote address or of a bootstrap entry;
    the handler rewards and penalizes the sender a message names, which at an
    honest node is the id it drew at random.  As long as no handled message
    names such a hash as its sender, every peer of the table keeps reputation
    zero, whatever is connected, received, validated or refused, so neither
    rewards nor penalties reach anyone. *)
Theorem reputation_stays_zero (peer_id : PeerId) (num_cpus : nat) (now now' : Z) (config : NodeConfig) (key : option bytes)
    (parse : string -> option SocketAddr) (outcomes : string -> nat -> ConnectOutcome) (n : Node) (steps : list LiveStep) :
  let bootstrap := nc_bootstrap_peers (nc_network config) in
  let start := start_tasks now' parse outcomes (start_begin (Live_new n)) in
  RytherNode_new peer_id num_cpus now config key = Some n -> foreign_run bootstrap start steps ->
  forall id p, peers (n_peers (lv_node (live_run start steps))) !! id = Some p -> address_hash bootstrap id /\ pi_reputation p = 0.
Proof.
  intros bootstrap start Hn Hr. assert (n_config n = config /\ peers (n_peers n) = ∅) as [Ec Ep].
  { revert Hn. unfold RytherNode_new. repeat case_match; intros Hn; simplify_eq; try done.
    destruct (key_from_bytes _); by simplify_eq/=. }
  apply (no_reputation_run bootstrap n now' parse outcomes steps); [by rewrite Ec| |exact Hr]. intros id p Hp. by rewrite Ep in Hp.
Qed.

(** Conversely a message in another peer's name moves that peer's reputation:
    whatever connection it came over, an event that fails validation costs the
    named peer ten points. *)
Theorem penalty_by_proxy (now : Z) (reply_id : bytes) (n : Node) (from victim : PeerId) (mid : bytes) (e : DagEvent) (err : EventValidationError) (p : PeerInfo) :
  GossipProtocol_is_seen (n_gossip n) mid = false -> DagEvent_validate_structure e = inl err ->
  peers (n_peers n) !! victim = Some p ->
  peers (n_peers (RytherNode_handle_message now reply_id n from
    (NetworkMessage_new mid victim (MsgEventResponse (mkResponse [e] [])))).1) !! victim = Some (PeerInfo_penalize p 10).
Proof.
  intros Hs He Hp. unfold RytherNode_handle_message, GossipProtocol_handle_message. simpl. rewrite Hs. simpl.
  unfold GossipProtocol_handle_event_response. simpl. unfold handle_response_event. rewrite He. simpl.
  unfold PeerManager_penalize_peer, with_peer, n_peers in *. simpl. rewrite Hp. simpl. by rewrite lookup_insert_eq.
Qed.

(** ** An event crosses the network

    Two live nodes joined by a connection, each filing the other under an id
    of its own table; the links are at rest. *)

Record at_rest (t : TcpTransport) (id : PeerId) (k : nat) (l : Link) : Prop := {
  ar_conn : connections t !! id = Some (mkConnection id k);
  ar_link : links t !! k = Some l;
  ar_peer : lk_peer l = id;
  ar_queue : lk_queue l = [];
  ar_writer : lk_writer l = true;
  ar_inbox : lk_inbox l = [];
  ar_eof : lk_eof l = false;
  ar_reader : lk_reader l = true;
  ar_held : lk_held l = None;
  ar_incoming : incoming t = [];
  ar_open : incoming_open t = true
}.

Definition written (t : TcpTransport) (k : nat) : bytes := default [] (lk_written <$> links t !! k).

(** Sending one message and writing it to the socket. *)
Lemma wire_send now t id k l m rest :
  at_rest t id k l ->
  let sent := send_head now t ((id, m) :: rest) in
  let t' := transport_step sent.1 (OpWriter k None) in
  sent.2 = rest /\ (exists l', at_rest t' id k l') /\ t_config t' = t_config t /\
  drop (length (written t k)) (written t' k) = frame (NetworkMessage_to_bytes m).
Proof.
  intros [Hc Hl Hp Hq Hw Hi He Hr Hh Hin Hop]. pose proof (lookup_lt_Some _ _ _ Hl) as Hlt.
  unfold send_head, TcpTransport_send. rewrite Hc. simpl. rewrite Hl, Hw, Hq. simpl.
  rewrite (proj2 capacities_positive). simpl. unfold on_link. simpl. rewrite list_lookup_insert_eq by done. unfold writer_turn. simpl. rewrite Hw, Hq. simpl.
  split; [done|]. split.
  { exists (mkLink (lk_peer l) [] true (lk_written l ++ frame (NetworkMessage_to_bytes m)) (lk_inbox l) (lk_eof l) (lk_reader l)
      (lk_held l) (lk_sent l ++ [m]) (lk_arrived l) (lk_forwarded l)).
    split; simpl; try done. by rewrite list_insert_insert_eq, list_lookup_insert_eq. }
  split; [done|]. unfold written. simpl. rewrite Hl, list_insert_insert_eq, list_lookup_insert_eq by done. simpl.
  by rewrite drop_app_length.
Qed.

(** Receiving the bytes of one message and forwarding it. *)
Definition receive_ops (k : nat) (data : bytes) (now : Z) : list TransportOp := [OpArrive k data; OpReader now k; OpReader now k].

Lemma wire_receive `{!BincodeOk} now t id k l m b :
  at_rest t id k l -> bincode_serialize m = Some b -> fits (max_message_size (t_config t)) b ->
  let t' := transport_run t (receive_ops k (frame b) now) in
  incoming t' = [(id, m)] /\ t_config t' = t_config t /\
  exists l', at_rest (set_incoming [] (incoming_open t') t') id k l'.
Proof.
  intros [Hc Hl Hp Hq Hw Hi He Hr Hh Hin Hop] Hm Hf. pose proof (lookup_lt_Some _ _ _ Hl) as Hlt.
  pose proof (read_frame_frame _ b [] Hf) as Hread. rewrite app_nil_r in Hread.
  pose (l' := mkLink (lk_peer l) (lk_queue l) (lk_writer l) (lk_written l) [] false true None
    (lk_sent l) (lk_arrived l ++ frame b) (lk_forwarded l ++ [m])).
  assert (transport_run t (receive_ops k (frame b) now) = push_incoming (id, m) (set_links (<[k := l']> (links t))
    (set_t_peers (PeerManager_record_received now (t_peers t) id) t))) as ->.
  { unfold transport_run, receive_ops. cbn [fold_left transport_step].
    unfold on_link. rewrite Hl. unfold link_arrive. rewrite He, Hi, app_nil_l.
    unfold reader_turn at 2. simpl links. rewrite list_lookup_insert_eq by done. simpl lk_reader. rewrite Hr. cbn [negb]. cbv zeta.
    simpl lk_held. rewrite Hh. cbn [set_links t_config lk_inbox]. rewrite Hread.
    unfold NetworkMessage_from_bytes. rewrite (bincode_roundtrip m b Hm).
    unfold reader_turn. simpl. rewrite list_insert_insert_eq, list_lookup_insert_eq by done. simpl.
    rewrite ?Hr, Hop, Hin. simpl. rewrite (proj1 capacities_positive), list_insert_insert_eq. unfold link_forward. simpl.
    rewrite Hp, ?Hr. unfold push_incoming, set_links, l'. simpl. by rewrite Hp, Hin, Hop. }
  simpl. split; [by rewrite Hin|]. split; [done|]. exists l'. split; simpl; try done. by rewrite list_lookup_insert_eq.
Qed.

(** The bytes a step of the schedule put on the socket. *)
Definition wire lv lv' (k : nat) : bytes :=
  drop (length (written (lv_transport lv) k)) (written (lv_transport lv') k).

Definition flush_handler (now : Z) (k : nat) lv : Live := live_run lv [LHandlerSend now; LNet (OpWriter k None)].
Definition flush_producer (now : Z) (k : nat) lv : Live := live_run lv [LProducerSend now; LNet (OpWriter k None)].

Definition take_in (now : Z) (reply_id : bytes) (k : nat) (data : bytes) lv : Live :=
  live_run lv [LNet (OpArrive k data); LNet (OpReader now k); LNet (OpReader now k); LHandle now reply_id].

(** A live node whose link to [id] is at rest and whose handler is idle; its
    node is [n] up to the peer table. *)
Record idle_with lv (n : Node) (id : PeerId) (k : nat) (max_size : Z) : Prop := {
  iw_rest : exists l, at_rest (lv_transport lv) id k l;
  iw_handler : lv_handler lv = true;
  iw_max : max_message_size (t_config (lv_transport lv)) = max_size;
  iw_node : exists p, lv_node lv = set_node_peers p n
}.

Lemma live_send now lv n id k max_size m rest :
  idle_with lv n id k max_size -> lv_handler_out lv = (id, m) :: rest ->
  idle_with (flush_handler now k lv) n id k max_size /\ lv_handler_out (flush_handler now k lv) = rest /\
  wire lv (flush_handler now k lv) k = frame (NetworkMessage_to_bytes m).
Proof.
  intros [[l Hl] Hh Hm [p Hn]] Ho. destruct (wire_send now (lv_transport lv) id k l m rest Hl) as (Hrest & Hl' & Hc & Hw).
  unfold wire, flush_handler. cbn [live_run fold_left live_step]. unfold handler_send. rewrite Ho.
  destruct (send_head now (lv_transport lv) ((id, m) :: rest)) as [t1 out]. cbn [fst snd] in *. subst out.
  split; [|split; [done|exact Hw]]. split; [exact Hl'|exact Hh|by rewrite <- Hm, <- Hc|]. eexists. simpl. by rewrite Hn.
Qed.

Lemma live_send_producer now lv n id k max_size m rest :
  idle_with lv n id k max_size -> lv_producer_out lv = (id, m) :: rest ->
  idle_with (flush_producer now k lv) n id k max_size /\ lv_handler_out (flush_producer now k lv) = lv_handler_out lv /\
  wire lv (flush_producer now k lv) k = frame (NetworkMessage_to_bytes m).
Proof.
  intros [[l Hl] Hh Hm [p Hn]] Ho. destruct (wire_send now (lv_transport lv) id k l m rest Hl) as (Hrest & Hl' & Hc & Hw).
  unfold wire, flush_producer. cbn [live_run fold_left live_step]. unfold producer_send. rewrite Ho.
  destruct (send_head now (lv_transport lv) ((id, m) :: rest)) as [t1 out]. cbn [fst snd] in *. subst out.
  split; [|split; [done|exact Hw]]. split; [exact Hl'|exact Hh|by rewrite <- Hm, <- Hc|]. eexists. simpl. by rewrite Hn.
Qed.

Lemma live_receive `{!BincodeOk} now reply_id lv n id k max_size m :
  idle_with lv n id k max_size -> lv_handler_out lv = [] -> deliverable max_size m ->
  exists p, let r := RytherNode_handle_message now reply_id (set_node_peers p n) id m in
    idle_with (take_in now reply_id k (frame (NetworkMessage_to_bytes m)) lv) r.1 id k max_size /\
    lv_handler_out (take_in now reply_id k (frame (NetworkMessage_to_bytes m)) lv) = r.2.
Proof.
  intros [[l Hl] Hh Hm [p Hn]] Ho (b & Hb & Hf). rewrite <- Hm in Hf.
  destruct (wire_receive now (lv_transport lv) id k l m b Hl Hb Hf) as (Hin & Hc & l' & Hl').
  assert (NetworkMessage_to_bytes m = b) as -> by (unfold NetworkMessage_to_bytes; by rewrite Hb).
  set (t' := transport_run (lv_transport lv) (receive_ops k (frame b) now)) in *.
  exists (t_peers t'). cbv zeta.
  assert (take_in now reply_id k (frame b) lv = handler_turn now reply_id (with_transport t' lv)) as -> by reflexivity.
  unfold handler_turn. cbn [with_transport lv_handler lv_handler_out lv_transport lv_node]. rewrite Hh, Ho, Hin.
  cbn [set_incoming with_transport lv_node t_peers lv_transport]. rewrite Hn.
  change (set_node_peers (t_peers t') (set_node_peers (t_peers t') (set_node_peers p n))) with (set_node_peers (t_peers t') n).
  destruct (RytherNode_handle_message now reply_id (set_node_peers (t_peers t') n) id m) as [n' out]. cbn [fst snd].
  split; [|done]. split; simpl.
  - exists l'. destruct Hl' as [? ? ? ? ? ? ? ? ? ? ?]. split; assumption.
  - exact Hh.
  - by rewrite Hc.
  - exists (n_peers n'). by destruct n' as [? ? ? ? ? ? ? ? ? ? ? ? [] ? ? ?].
Qed.

(** The node's answer to a gossip message. *)
Lemma handle_gossip now reply_id (n : Node) from m g r :
  (forall share, nm_payload m <> DecryptionShare share) ->
  GossipProtocol_handle_message now reply_id (n_gossip n) m = (g, r) ->
  RytherNode_handle_message now reply_id n from m =
    (set_gossip g n, match r with Some r => [(from, r)] | None => [] end).
Proof. intros Hp Hg. unfold RytherNode_handle_message. rewrite Hg. destruct (nm_payload m); try done. by destruct (Hp m0). Qed.

(** C11: an event reaches another node over the network.  Two running nodes are
    joined by a connection at rest; the first has an announcement of a valid
    event of its DAG to send, the second lacks the event.  Letting the bytes
    flow (announcement, request, response, each framed by one writer, read by
    the other's reader and answered by its handler) leaves the event in the
    second node's DAG, marked as processed, provided the messages are within
    the size limits and their random ids are new. *)
Theorem event_crosses_network `{!BincodeOk} (a b : Live) (nA nB : Node) (idA idB : PeerId) (k j : nat) (maxA maxB : Z)
    (e : DagEvent) (mid rid1 rid2 rid3 : bytes) (t1 t2 t3 : Z) (rest : list (list Z * NetworkMessage)) :
  let localA := g_local_id (n_gossip nA) in
  let localB := g_local_id (n_gossip nB) in
  let ann := NetworkMessage_new mid localA (MsgEventAnnounce (mkAnnounce (ev_id e) (ev_creator e) (ev_round e))) in
  let req := NetworkMessage_new rid1 localB (MsgEventRequest (mkRequest [ev_id e])) in
  let resp := NetworkMessage_new rid2 localA (MsgEventResponse (mkResponse [e] [])) in
  idle_with a nA idB k maxA -> idle_with b nB idA j maxB ->
  lv_handler_out a = [] -> lv_handler_out b = [] -> lv_producer_out a = (idB, ann) :: rest ->
  valid_event e -> events (n_dag nA) !! ev_id e = Some e ->
  DagStore_contains (n_dag nB) (ev_id e) = false -> ev_id e ∉ processed_events (n_gossip nB) ->
  GossipProtocol_is_seen (n_gossip nB) mid = false -> GossipProtocol_is_seen (n_gossip nA) rid1 = false ->
  GossipProtocol_is_seen (n_gossip nB) rid2 = false -> rid2 <> mid ->
  deliverable maxB ann -> deliverable maxA req -> deliverable maxB resp ->
  let a1 := flush_producer t1 k a in
  let b1 := take_in t1 rid1 j (wire a a1 k) b in
  let b2 := flush_handler t2 j b1 in
  let a2 := take_in t2 rid2 k (wire b1 b2 j) a1 in
  let a3 := flush_handler t3 k a2 in
  let b3 := take_in t3 rid3 j (wire a2 a3 k) b2 in
  DagStore_get (n_dag (lv_node b3)) (ev_id e) = Some e /\ ev_id e ∈ processed_events (n_gossip (lv_node b3)) /\
  lv_handler_out b3 = [].
Proof.
  intros localA localB ann req resp Ha Hb Hoa Hob Hpa He HeA Hlack Hproc Hs1 Hs2 Hs3 Hne Hd1 Hd2 Hd3 a1 b1 b2 a2 a3 b3.
  destruct (live_send_producer t1 a nA idB k maxA ann rest Ha Hpa) as (Ha1 & Hoa1 & Hw1). fold a1 in Ha1, Hoa1, Hw1.
  rewrite Hoa in Hoa1.
  destruct (live_receive t1 rid1 b nB idA j maxB ann Hb Hob Hd1) as (p1 & Hb1 & Hob1). rewrite <- Hw1 in Hb1, Hob1. fold b1 in Hb1, Hob1.
  destruct (announce_requests t1 rid1 (n_gossip (set_node_peers p1 nB)) mid localA (mkAnnounce (ev_id e) (ev_creator e) (ev_round e)) Hs1 Hlack Hproc)
    as (g1 & Hg1 & Hseen1 & _).
  rewrite (handle_gossip _ _ (set_node_peers p1 nB) idA ann g1 (Some req)) in Hb1, Hob1 by done. cbn [fst snd] in Hb1, Hob1.
  destruct (live_send t2 b1 _ idA j maxB req [] Hb1 Hob1) as (Hb2 & Hob2 & Hw2). fold b2 in Hb2, Hob2, Hw2.
  destruct (live_receive t2 rid2 a1 nA idB k maxA req Ha1 Hoa1 Hd2) as (p2 & Ha2 & Hoa2). rewrite <- Hw2 in Ha2, Hoa2. fold a2 in Ha2, Hoa2.
  destruct (request_answers t2 rid2 (n_gossip (set_node_peers p2 nA)) rid1 localB e Hs2 HeA) as (g2 & Hg2).
  rewrite (handle_gossip _ _ (set_node_peers p2 nA) idB req g2 (Some resp)) in Ha2, Hoa2 by done. cbn [fst snd] in Ha2, Hoa2.
  destruct (live_send t3 a2 _ idB k maxA resp [] Ha2 Hoa2) as (Ha3 & Hoa3 & Hw3). fold a3 in Ha3, Hoa3, Hw3.
  destruct (live_receive t3 rid3 b2 _ idA j maxB resp Hb2 Hob2 Hd3) as (p3 & Hb3 & Hob3). rewrite <- Hw3 in Hb3, Hob3. fold b3 in Hb3, Hob3.
  assert (GossipProtocol_is_seen (n_gossip (set_node_peers p3 (set_gossip g1 (set_node_peers p1 nB)))) rid2 = false) as Hs3'.
  { unfold GossipProtocol_is_seen in *. simpl. rewrite Hseen1. simpl. by rewrite lookup_insert_ne. }
  destruct (response_stores t3 rid3 _ rid2 localA e Hs3' He) as (g3 & Hg3 & Hget & Hpr & _).
  rewrite (handle_gossip _ _ _ idA resp g3 None) in Hb3, Hob3 by done. cbn [fst snd] in Hb3, Hob3.
  destruct Hb3 as [_ _ _ [p Hn]]. rewrite Hn. done.
Qed.
End live.
Arguments Live SecretKey : clear implicits.
Arguments App SecretKey : clear implicits.

(** ** Witnesses *)

(** A codec for a given list of messages: the position in the list. *)
Definition table_codec (ms : list NetworkMessage) : Bincode := {|
  bincode_serialize := fun m => (fun r => [Z.of_nat r.1]) <$> list_find (fun x => x = m) ms;
  bincode_deserialize := fun b => match b with [i] => ms !! Z.to_nat i | _ => None end
|}.

Lemma table_codec_ok ms : @BincodeOk (table_codec ms).
Proof.
  split. intros m b. simpl. destruct (list_find _ ms) as [[i x]|] eqn:E; simpl; [|done]. intros [= <-].
  apply list_find_Some in E as (Hi & -> & _). by rewrite Nat2Z.id.
Qed.

Definition app_event : DagEvent := gossip_event.
Definition app_ann : NetworkMessage :=
  NetworkMessage_new (gossip_ids 4) (peer_id 1) (MsgEventAnnounce (mkAnnounce (ev_id app_event) (ev_creator app_event) (ev_round app_event))).
Definition app_req : NetworkMessage := NetworkMessage_new (gossip_ids 5) (peer_id 1) (MsgEventRequest (mkRequest [ev_id app_event])).
Definition app_resp : NetworkMessage := NetworkMessage_new (gossip_ids 6) (peer_id 1) (MsgEventResponse (mkResponse [app_event] [])).

Definition app_codec : Bincode := table_codec [app_ann; app_req; app_resp].

(** A running node with a connection to [id]. *)
Definition app_live_node (es : list DagEvent) (id : Z) (out : list (list Z * NetworkMessage)) : Live (list Z) :=
  let n := node_with es MultiVersionState_new in
  mkLive n (TcpTransport_setup_connection 0 (node_transport n) (peer_id id)) true [] true out.

Definition app_a : Live (list Z) := app_live_node [app_event] 2 [(peer_id 2, app_ann)].
Definition app_b : Live (list Z) := app_live_node [] 3 [].

Lemma app_idle es id out :
  idle_with (app_live_node es id out) (node_with es MultiVersionState_new) (peer_id id) 0 (16 * 1024 * 1024).
Proof.
  split; [|reflexivity|reflexivity|].
  - exists (new_link (peer_id id)). split; try reflexivity. simpl. by rewrite lookup_insert_eq.
  - exists (PeerManager_new (peer_id 1) 8). reflexivity.
Qed.

Lemma event_crosses_network_witness :
  DagStore_get (n_dag (lv_node (
    let a1 := @flush_producer checksum_hashes app_codec (list Z) plain_keys 1 0 app_a in
    let b1 := @take_in checksum_hashes app_codec (list Z) plain_keys 1 (gossip_ids 5) 0 (wire app_a a1 0) app_b in
    let b2 := @flush_handler checksum_hashes app_codec (list Z) plain_keys 2 0 b1 in
    let a2 := @take_in checksum_hashes app_codec (list Z) plain_keys 2 (gossip_ids 6) 0 (wire b1 b2 0) a1 in
    let a3 := @flush_handler checksum_hashes app_codec (list Z) plain_keys 3 0 a2 in
    @take_in checksum_hashes app_codec (list Z) plain_keys 3 (gossip_ids 7) 0 (wire a2 a3 0) b2))) (ev_id app_event) = Some app_event.
Proof.
  pose proof (@event_crosses_network checksum_hashes app_codec (list Z) plain_keys (table_codec_ok _) app_a app_b
    (node_with [app_event] MultiVersionState_new) (node_with [] MultiVersionState_new) (peer_id 3) (peer_id 2) 0 0
    (16 * 1024 * 1024) (16 * 1024 * 1024) app_event (gossip_ids 4) (gossip_ids 5) (gossip_ids 6) (gossip_ids 7) 1 2 3 []) as Hc.
  apply Hc; clear Hc.
  - apply app_idle.
  - apply app_idle.
  - reflexivity.
  - reflexivity.
  - reflexivity.
  - vm_compute. reflexivity.
  - vm_compute. reflexivity.
  - vm_compute. reflexivity.
  - apply not_elem_of_empty.
  - vm_compute. reflexivity.
  - vm_compute. reflexivity.
  - vm_compute. reflexivity.
  - vm_compute. discriminate.
  - exists [0]. split; [vm_compute; reflexivity|]. split; vm_compute; [discriminate|reflexivity].
  - exists [1]. split; [vm_compute; reflexivity|]. split; vm_compute; [discriminate|reflexivity].
  - exists [2]. split; [vm_compute; reflexivity|]. split; vm_compute; [discriminate|reflexivity].
Defined.

Lemma rpc_never_served_witness :
  exists a, @main_init (list Z) plain_keys (peer_id 1) 4 0 node_config (Some (replicate 32 1)) = Some a /\
    app_rpc (@app_run checksum_hashes ping_codec (list Z) plain_keys a
      [AppMain 1 (fun _ => None) (fun _ _ => ConnectOk); AppMain 2 (fun _ => None) (fun _ _ => ConnectOk);
       AppMain 3 (fun _ => None) (fun _ _ => ConnectOk); AppCtrlC]) = false.
Proof.
  eexists. split; [reflexivity|].
  exact (proj1 (@rpc_never_served checksum_hashes ping_codec (list Z) plain_keys (peer_id 1) 4 0 node_config (Some (replicate 32 1)) _
    [AppMain 1 (fun _ => None) (fun _ _ => ConnectOk); AppMain 2 (fun _ => None) (fun _ _ => ConnectOk);
     AppMain 3 (fun _ => None) (fun _ _ => ConnectOk); AppCtrlC] eq_refl)).
Defined.

(** A freshly started node accepts a connection and handles a response with
    an event that fails validation, sent in the name of an id that no address
    hashes to. *)
Definition stranger : PeerId := seqZ 0 32.
Definition bad_response : NetworkMessage :=
  NetworkMessage_new (gossip_ids 8) stranger (MsgEventResponse (mkResponse
    [mkEvent (replicate 32 9) (mkValidatorId (replicate 48 2)) 1 3 [] [] EncryptedBatch_empty BlsSignature_default] [])).
Definition bad_codec : Bincode := table_codec [bad_response].

Definition fresh_live : Live (list Z) :=
  let n := default (node_with [] MultiVersionState_new) node_sample in
  @start_tasks checksum_hashes (list Z) 1 (fun _ => None) (fun _ _ => ConnectOk) (start_begin (Live_new n)).

Definition bad_steps : list LiveStep :=
  [LNet (OpAccept 2 (peer_addr 5)); LNet (OpArrive 0 (frame [0])); LNet (OpReader 3 0); LNet (OpReader 3 0); LHandle 4 (gossip_ids 9)].
Definition bad_live (k : nat) : Live (list Z) :=
  @live_run checksum_hashes bad_codec (list Z) plain_keys fresh_live (take k bad_steps).

Lemma stranger_foreign : ~ @address_hash checksum_hashes [] stranger.
Proof.
  intros [[addr E]|(s & Hs & _)]; [|set_solver]. simpl in E. unfold checksum in E.
  set (h := be_bytes 8 _) in E. assert (Hh : length h = 8%nat) by apply length_be_bytes. clearbody h.
  assert (E1 : take 8 stranger = h) by (rewrite E; by rewrite take_app_length').
  assert (E2 : take 8 (drop 8 stranger) = h) by (rewrite E, drop_app_length' by done; by rewrite take_app_length').
  rewrite <- E2 in E1. vm_compute in E1. discriminate.
Qed.

Lemma bad_run : @foreign_run checksum_hashes bad_codec (list Z) plain_keys [] fresh_live bad_steps.
Proof.
  do 4 (split; [exact I|]). split; [|exact I]. unfold foreign_sender.
  match goal with |- match ?q with _ => _ end =>
    assert (q = [(@TcpTransport_addr_to_peer_id checksum_hashes (peer_addr 5), bad_response)]) as -> by (vm_compute; reflexivity) end.
  exact stranger_foreign.
Qed.

Lemma reputation_stays_zero_witness :
  incoming (lv_transport (bad_live 4)) <> [] /\ incoming (lv_transport (bad_live 5)) = [] /\
  (exists p, peers (n_peers (lv_node (bad_live 5))) !! @TcpTransport_addr_to_peer_id checksum_hashes (peer_addr 5) = Some p) /\
  forall id p, peers (n_peers (lv_node (bad_live 5))) !! id = Some p -> @address_hash checksum_hashes [] id /\ pi_reputation p = 0.
Proof.
  split; [vm_compute; discriminate|]. split; [vm_compute; reflexivity|]. split; [eexists; vm_compute; reflexivity|].
  apply (@reputation_stays_zero checksum_hashes bad_codec (list Z) plain_keys (peer_id 1) 4 0 1 node_config (Some (replicate 32 1))
    (fun _ => None) (fun _ _ => ConnectOk) (default (node_with [] MultiVersionState_new) node_sample) bad_steps).
  - vm_compute. reflexivity.
  - exact bad_run.
Defined.
