(* ===== verification/TestTypes.v ===== *)
(** * The unit tests of [src/types], [src/dag] and [src/consensus]

    The program's own tests, translated with their fixtures: a test is a
    boolean, the conjunction of its assertions, where an [unwrap] of nothing
    is false.  They run the definitions of the model on the inputs the authors
    chose, with the real hash functions of [Digest].  Names carry the module
    of the test. *)

From S2P Require Import Prelude Types Digest Lamport Transaction Event Validator State Dag Consensus Block.

#[local] Existing Instance std_hashes.

(** [assert_eq!]. *)
Definition assert_eq {A} `{EqDecision A} (x y : A) : bool := bool_decide (x = y).

(** [assert!(x.is_some())] and [assert!(x.is_none())]. *)
Definition is_some {A} (x : option A) : bool := match x with Some _ => true | None => false end.
Definition is_none {A} (x : option A) : bool := negb (is_some x).

(** [x.unwrap()] followed by assertions. *)
Definition unwrap {A} (x : option A) (k : A -> bool) : bool := match x with Some a => k a | None => false end.

(** An array of zeros but for the first byte. *)
Definition first_byte (n : nat) (b : Z) : bytes := b :: replicate (n - 1) 0.

(** ** [types/lamport.rs] *)

Definition lamport_test_tick_increments : bool :=
  let clock := LamportClock_new in
  assert_eq (LamportClock_current clock) 0 &&
  let '(clock, t) := LamportClock_tick clock in
  assert_eq t 1 &&
  let '(clock, t) := LamportClock_tick clock in
  assert_eq t 2 &&
  let '(clock, t) := LamportClock_tick clock in
  assert_eq t 3 && assert_eq (LamportClock_current clock) 3.

Definition lamport_test_witness_advances_past_received : bool :=
  let '(clock, new_time) := LamportClock_witness LamportClock_new 100 in
  assert_eq new_time 101 && assert_eq (LamportClock_current clock) 101 &&
  let '(clock, new_time) := LamportClock_witness clock 50 in
  assert_eq new_time 102.

Definition lamport_test_witness_many : bool :=
  let '(_, new_time) := LamportClock_witness_many LamportClock_new [10; 50; 30; 25] in
  assert_eq new_time 51.

Definition lamport_test_monotonicity_invariant : bool :=
  (fold_left (fun '(clock, last, ok) _ =>
     let '(clock, current) := LamportClock_tick clock in (clock, current, ok && (last <? current)))
   (seq 0 100) (LamportClock_new, 0, true)).2.

(** Ten threads of a hundred ticks.  A tick is one atomic operation, so that
    every interleaving of the threads is the same sequence of a thousand. *)
Definition lamport_test_concurrent_ticks : bool :=
  let clock := fold_left (fun clock _ => (LamportClock_tick clock).1) (seq 0 (10 * 100)) LamportClock_new in
  assert_eq (LamportClock_current clock) 1000.

Definition lamport_test_causal_ordering_property : bool :=
  let '(_, timestamp_a) := LamportClock_tick LamportClock_new in
  let '(clock_b, timestamp_b) := LamportClock_witness LamportClock_new timestamp_a in
  let '(_, timestamp_b_event) := LamportClock_tick clock_b in
  (timestamp_a <? timestamp_b_event) && (timestamp_a <? timestamp_b).

(** ** [types/mod.rs] *)

Definition types_test_u256_roundtrip : bool :=
  let original := mkU256 0xDEADBEEF 0xCAFEBABE 0x12345678 0xABCDEF00 in
  assert_eq original (U256_from_be_bytes (U256_to_be_bytes original)).

Definition types_test_state_key_bytes : bool :=
  let key := mkStateKey (replicate 20 0x42) (U256_from_u64 100) in
  let b := StateKey_to_bytes key in
  assert_eq (length b) 52%nat && assert_eq (take 20 b) (replicate 20 0x42).

(** The encoding of the byte string itself is [bincode]'s. *)
Definition types_test_validator_id_serde : bool :=
  let id := mkValidatorId (replicate 48 0xAB) in
  match ValidatorId_deserialize (ValidatorId_serialize id) with inr id' => assert_eq id id' | inl _ => false end.

(** ** [types/transaction.rs] *)

Definition capsule_default : ThresholdCapsule := mkCapsule [] [].

Definition transaction_test_empty_batch : bool :=
  EncryptedBatch_is_empty EncryptedBatch_empty && assert_eq (batch_root EncryptedBatch_empty) (replicate 32 0).

Definition transaction_test_merkle_root_single : bool :=
  let tx := mkEncryptedTx [1; 2; 3] capsule_default (replicate 32 0xAB) in
  assert_eq (batch_root (EncryptedBatch_from_transactions [tx])) (etx_commitment tx).

Definition transaction_test_merkle_root_determinism : bool :=
  let txs := map (fun i => mkEncryptedTx [i] capsule_default (replicate 32 i)) (seqZ 0 5) in
  assert_eq (batch_root (EncryptedBatch_from_transactions txs)) (batch_root (EncryptedBatch_from_transactions txs)).

Definition transaction_test_ordered_batch_sequence_assignment : bool :=
  let txs := map (fun i => mkTx (mkAddress (replicate 20 i)) (Some (mkAddress (replicate 20 0xFF))) U256_ZERO 21000
    (U256_from_u64 1000000000) i [] (replicate 32 0) 0) (seqZ 0 3) in
  let batch := OrderedBatch_new txs 100 5 in
  assert_eq (map tx_sequence_number (ob_transactions batch)) [100; 101; 102] &&
  assert_eq (OrderedBatch_end_sequence batch) 103.

(** ** [types/event.rs] *)

Definition event_dummy_validator : ValidatorId := mkValidatorId (replicate 48 0x42).

Definition event_test_genesis_validation : bool :=
  let genesis := mkEvent (replicate 32 0) event_dummy_validator 0 0 [] [] EncryptedBatch_empty BlsSignature_default in
  DagEvent_is_genesis genesis &&
  match DagEvent_validate_structure genesis with inr _ => true | inl _ => false end.

Definition event_test_non_genesis_needs_parents : bool :=
  let event := mkEvent (replicate 32 0) event_dummy_validator 1 1 [] [] EncryptedBatch_empty BlsSignature_default in
  negb (DagEvent_is_genesis event) &&
  match DagEvent_validate_structure event with inl NoParents => true | _ => false end.

Definition event_test_event_id_determinism : bool :=
  let parents := [replicate 32 1; replicate 32 2] in
  assert_eq (DagEvent_compute_id event_dummy_validator 5 (replicate 32 0xAB) parents)
    (DagEvent_compute_id event_dummy_validator 5 (replicate 32 0xAB) parents).

Definition event_test_parent_order_independence : bool :=
  let parents1 := [replicate 32 1; replicate 32 2] in
  let parents2 := [replicate 32 2; replicate 32 1] in
  assert_eq (DagEvent_compute_id event_dummy_validator 5 (replicate 32 0xAB) parents1)
    (DagEvent_compute_id event_dummy_validator 5 (replicate 32 0xAB) parents2).

(** ** [types/validator.rs] *)

Definition validator_make_validator (id : Z) : ValidatorId := mkValidatorId (first_byte 48 id).
Definition validator_make_address (id : Z) : Address := mkAddress (first_byte 20 id).

(** Validators 1, 2, ... with the given stakes. *)
Definition validator_make_set (stakes : list Z) : ValidatorSet :=
  ValidatorSet_from_validators
    (imap (fun i stake => (validator_make_validator (Z.of_nat i + 1), stake, validator_make_address (Z.of_nat i + 1))) stakes).

Definition validator_test_quorum_threshold : bool :=
  let set := validator_make_set [50; 50] in
  assert_eq (ValidatorSet_total_stake set) 100 && assert_eq (ValidatorSet_quorum_threshold set) 67 &&
  assert_eq (ValidatorSet_fault_threshold set) 33.

Definition validator_test_has_quorum : bool :=
  let v1 := validator_make_validator 1 in
  let v2 := validator_make_validator 2 in
  let v3 := validator_make_validator 3 in
  let set := validator_make_set [34; 33; 33] in
  negb (ValidatorSet_has_quorum set {[v1]}) && ValidatorSet_has_quorum set {[v1; v2]} &&
  negb (ValidatorSet_has_quorum set {[v2; v3]}) && ValidatorSet_has_quorum set {[v1; v2; v3]}.

Definition validator_test_quorum_tracker : bool :=
  let tracker := QuorumTracker_new (replicate 32 0xAB) (validator_make_set [34; 33; 33]) in
  let '(tracker, reached) := QuorumTracker_add_support tracker (validator_make_validator 1) in
  negb reached && negb (QuorumTracker_has_quorum tracker) && assert_eq (QuorumTracker_current_stake tracker) 34 &&
  let '(tracker, reached) := QuorumTracker_add_support tracker (validator_make_validator 2) in
  reached && QuorumTracker_has_quorum tracker && assert_eq (QuorumTracker_current_stake tracker) 67.

Definition validator_test_add_remove_validator : bool :=
  let v1 := validator_make_validator 1 in
  let addr1 := validator_make_address 1 in
  let set := ValidatorSet_add ValidatorSet_new v1 100 addr1 in
  assert_eq (ValidatorSet_total_stake set) 100 && ValidatorSet_contains set v1 &&
  assert_eq (ValidatorSet_get_address set v1) (Some addr1) &&
  let set := (ValidatorSet_remove set v1).1 in
  assert_eq (ValidatorSet_total_stake set) 0 && negb (ValidatorSet_contains set v1).

Definition validator_test_stake_update : bool :=
  let v1 := validator_make_validator 1 in
  let addr1 := validator_make_address 1 in
  let set := ValidatorSet_add ValidatorSet_new v1 100 addr1 in
  assert_eq (ValidatorSet_total_stake set) 100 &&
  let set := ValidatorSet_add set v1 150 addr1 in
  assert_eq (ValidatorSet_total_stake set) 150 && assert_eq (ValidatorSet_stake set v1) (Some 150).

(** ** [types/state.rs] *)

Definition state_version (seq value : Z) (status : TxStatus) : StateVersion :=
  mkVersion seq (Some (U256_from_u64 value)) status.

Definition state_test_version_chain_ordering : bool :=
  let chain := VersionChain_add_version VersionChain_new (state_version 5 500 Committed) in
  let chain := VersionChain_add_version chain (state_version 10 1000 Pending) in
  let chain := VersionChain_add_version chain (state_version 3 300 Committed) in
  assert_eq (map sv_tx_sequence (versions chain)) [10; 5; 3].

Definition state_test_read_for_transaction : bool :=
  let chain := VersionChain_add_version VersionChain_new (state_version 5 500 Committed) in
  let chain := VersionChain_add_version chain (state_version 10 1000 Committed) in
  unwrap (VersionChain_read_for chain 7) (fun '(value, version) =>
    assert_eq value (Some (U256_from_u64 500)) && assert_eq version 5) &&
  unwrap (VersionChain_read_for chain 15) (fun '(value, version) =>
    assert_eq value (Some (U256_from_u64 1000)) && assert_eq version 10) &&
  is_none (VersionChain_read_for chain 3).

Definition state_test_skip_aborted_versions : bool :=
  let chain := VersionChain_add_version VersionChain_new (state_version 5 500 Committed) in
  let chain := VersionChain_add_version chain (state_version 8 800 Aborted) in
  unwrap (VersionChain_read_for chain 10) (fun '(value, version) =>
    assert_eq value (Some (U256_from_u64 500)) && assert_eq version 5).

Definition state_test_mark_status : bool :=
  let chain := VersionChain_add_version VersionChain_new (state_version 5 500 Pending) in
  let chain := VersionChain_mark_committed chain 5 in
  unwrap (versions chain !! 0%nat) (fun v => assert_eq (sv_status v) Committed) &&
  let chain := VersionChain_mark_aborted chain 5 in
  unwrap (versions chain !! 0%nat) (fun v => assert_eq (sv_status v) Aborted).

(** ** [types/block.rs] *)

Definition block_test_genesis_block : bool :=
  let genesis := Block_genesis 1 in
  assert_eq (bl_number genesis) 0 && assert_eq (bl_gas_limit genesis) 30000000 &&
  negb (bool_decide (bl_extra_data genesis = [])).

Definition block_test_block_creation : bool :=
  let block := Block_from_round 1 (replicate 32 0) (replicate 32 1) [replicate 32 2] [replicate 32 3] Address_zero 21000 1234567890 in
  assert_eq (bl_number block) 1 && assert_eq (length (bl_transactions block)) 1%nat &&
  assert_eq (length (bl_dag_events block)) 1%nat && assert_eq (bl_gas_used block) 21000.

(** The texts of the two fields; the object around them is [serde_json]'s. *)
Definition block_test_block_serialization : bool :=
  let block := Block_genesis 1 in
  assert_eq (hex_u64_serialize (bl_number block)) (string_bytes "0x0") &&
  assert_eq (hex_u64_serialize (bl_gas_limit block)) (string_bytes "0x1c9c380").

Definition block_test_log_filter : bool :=
  let filter := mkLogFilter (Some (BlockNumber 100)) (Some (BlockTag "latest")) (Some [Address_zero]) None in
  is_some (lf_address filter).

(** ** [dag/store.rs] *)

Definition dag_make_event (creator round : Z) (parents : list EventId) : DagEvent :=
  mkEvent (sha256 [creator; round mod 256]) (mkValidatorId (first_byte 48 creator)) round round parents []
    EncryptedBatch_empty BlsSignature_default.

Definition dag_test_insert_and_get : bool :=
  let event := dag_make_event 1 1 [] in
  let store := DagStore_insert DagStore_new event in
  DagStore_contains store (ev_id event) &&
  unwrap (DagStore_get store (ev_id event)) (fun retrieved => assert_eq (ev_round retrieved) 1).

Definition dag_test_round_indexing : bool :=
  let store := DagStore_insert DagStore_new (dag_make_event 1 1 []) in
  let store := DagStore_insert store (dag_make_event 2 1 []) in
  let store := DagStore_insert store (dag_make_event 3 2 []) in
  assert_eq (length (DagStore_events_at_round store 1)) 2%nat && assert_eq (length (DagStore_events_at_round store 2)) 1%nat.

Definition dag_test_can_reach : bool :=
  let e1 := dag_make_event 1 1 [] in
  let e2 := dag_make_event 1 2 [ev_id e1] in
  let e3 := dag_make_event 1 3 [ev_id e2] in
  let store := DagStore_insert (DagStore_insert (DagStore_insert DagStore_new e1) e2) e3 in
  DagStore_can_reach store (ev_id e3) (ev_id e1) && negb (DagStore_can_reach store (ev_id e1) (ev_id e3)).

(** ** [consensus/commit.rs] *)

Definition consensus_set (stakes : list (Z * Z)) : ValidatorSet :=
  ValidatorSet_from_validators (map (fun '(id, stake) => (mkValidatorId (first_byte 48 id), stake, mkAddress (replicate 20 0))) stakes).

Definition commit_make_event (creator : ValidatorId) (round : Z) (parents : list EventId) : DagEvent :=
  mkEvent (sha256 [nth 0 (validator_0 creator) 0; round mod 256]) creator round round parents []
    EncryptedBatch_empty BlsSignature_default.

Definition commit_test_commit_with_quorum : bool :=
  let vs := map (fun id => mkValidatorId (first_byte 48 id)) [1; 2; 3] in
  let validator_set := consensus_set [(1, 100); (2, 100); (3, 100)] in
  let r1 := map (fun v => commit_make_event v 1 []) vs in
  let dag := fold_left DagStore_insert r1 DagStore_new in
  let r2 := map (fun v => commit_make_event v 2 (map ev_id r1)) vs in
  let dag := fold_left DagStore_insert r2 dag in
  let detector := CommitDetector_new validator_set (replicate 32 0) in
  match CommitDetector_check_commit detector dag 1 with
  | Some result => assert_eq (cr_round result) 1 && assert_eq (cr_support_round result) 2
  | None => true
  end.

(** ** [consensus/leader.rs] *)

Definition leader_test_deterministic_leader : bool :=
  let set := consensus_set [(1, 100); (2, 100); (3, 100)] in
  assert_eq (elect_leader set 5 (replicate 32 0)) (elect_leader set 5 (replicate 32 0)).

Definition leader_test_different_rounds_different_leaders : bool :=
  let set := consensus_set [(1, 100); (2, 100); (3, 100)] in
  let leaders := fold_left (fun (leaders : gset ValidatorId) round =>
    match elect_leader set round (replicate 32 0) with Some leader => {[leader]} ∪ leaders | None => leaders end)
    (seqZ 0 100) ∅ in
  bool_decide (2 <= size leaders)%nat.

Definition leader_test_weighted_selection : bool :=
  let v1 := mkValidatorId (first_byte 48 1) in
  let v2 := mkValidatorId (first_byte 48 2) in
  let set := consensus_set [(1, 900); (2, 100)] in
  let '(v1_count, v2_count) := fold_left (fun '(c1, c2) round =>
    match elect_leader set round (replicate 32 0) with
    | Some leader => if bool_decide (leader = v1) then (c1 + 1, c2) else if bool_decide (leader = v2) then (c1, c2 + 1) else (c1, c2)
    | None => (c1, c2)
    end) (seqZ 0 1000) (0, 0) in
  (700 <? v1_count) && (30 <? v2_count).

Definition leader_test_empty_set : bool := is_none (elect_leader ValidatorSet_new 0 (replicate 32 0)).

(** ** All of them *)

Definition types_tests : list (string * bool) := [
  ("lamport::test_tick_increments"%string, lamport_test_tick_increments);
  ("lamport::test_witness_advances_past_received"%string, lamport_test_witness_advances_past_received);
  ("lamport::test_witness_many"%string, lamport_test_witness_many);
  ("lamport::test_monotonicity_invariant"%string, lamport_test_monotonicity_invariant);
  ("lamport::test_concurrent_ticks"%string, lamport_test_concurrent_ticks);
  ("lamport::test_causal_ordering_property"%string, lamport_test_causal_ordering_property);
  ("types::test_u256_roundtrip"%string, types_test_u256_roundtrip);
  ("types::test_state_key_bytes"%string, types_test_state_key_bytes);
  ("types::test_validator_id_serde"%string, types_test_validator_id_serde);
  ("transaction::test_empty_batch"%string, transaction_test_empty_batch);
  ("transaction::test_merkle_root_single"%string, transaction_test_merkle_root_single);
  ("transaction::test_merkle_root_determinism"%string, transaction_test_merkle_root_determinism);
  ("transaction::test_ordered_batch_sequence_assignment"%string, transaction_test_ordered_batch_sequence_assignment);
  ("event::test_genesis_validation"%string, event_test_genesis_validation);
  ("event::test_non_genesis_needs_parents"%string, event_test_non_genesis_needs_parents);
  ("event::test_event_id_determinism"%string, event_test_event_id_determinism);
  ("event::test_parent_order_independence"%string, event_test_parent_order_independence);
  ("validator::test_quorum_threshold"%string, validator_test_quorum_threshold);
  ("validator::test_has_quorum"%string, validator_test_has_quorum);
  ("validator::test_quorum_tracker"%string, validator_test_quorum_tracker);
  ("validator::test_add_remove_validator"%string, validator_test_add_remove_validator);
  ("validator::test_stake_update"%string, validator_test_stake_update);
  ("state::test_version_chain_ordering"%string, state_test_version_chain_ordering);
  ("state::test_read_for_transaction"%string, state_test_read_for_transaction);
  ("state::test_skip_aborted_versions"%string, state_test_skip_aborted_versions);
  ("state::test_mark_status"%string, state_test_mark_status);
  ("block::test_genesis_block"%string, block_test_genesis_block);
  ("block::test_block_creation"%string, block_test_block_creation);
  ("block::test_block_serialization"%string, block_test_block_serialization);
  ("block::test_log_filter"%string, block_test_log_filter);
  ("store::test_insert_and_get"%string, dag_test_insert_and_get);
  ("store::test_round_indexing"%string, dag_test_round_indexing);
  ("store::test_can_reach"%string, dag_test_can_reach);
  ("commit::test_commit_with_quorum"%string, commit_test_commit_with_quorum);
  ("leader::test_deterministic_leader"%string, leader_test_deterministic_leader);
  ("leader::test_different_rounds_different_leaders"%string, leader_test_different_rounds_different_leaders);
  ("leader::test_weighted_selection"%string, leader_test_weighted_selection);
  ("leader::test_empty_set"%string, leader_test_empty_set)
].

(** The tests that fail. *)
Definition failures (tests : list (string * bool)) : list string := (filter (fun t => t.2 = false) tests).*1.

(** Every test of the types, the DAG and consensus passes on the model. *)
Theorem types_tests_pass : failures types_tests = [].
Proof. vm_compute. reflexivity. Qed.
