(* ===== verification/TestStorage.v ===== *)
(** * The unit tests of [src/storage]

    Translated as in [TestTypes]: the Merkle tree on real digests, the cache
    and the page store. *)

From S2P Require Import Prelude Types Digest Jmt Cache Page TestTypes.

#[local] Existing Instance std_hashes.

(** ** [storage/jmt.rs] *)

Definition jmt_make_key (addr slot : Z) : StateKey := mkStateKey (replicate 20 addr) (U256_from_u64 slot).

Definition jmt_put (tree : JellyfishMerkleTree) (key : StateKey) (value : Z) : JellyfishMerkleTree :=
  (JellyfishMerkleTree_put tree key (U256_from_u64 value)).1.

Definition jmt_test_empty_tree : bool :=
  assert_eq (JellyfishMerkleTree_root_hash JellyfishMerkleTree_new) EMPTY_HASH &&
  assert_eq (JellyfishMerkleTree_node_count JellyfishMerkleTree_new) 0%nat.

Definition jmt_test_single_insert : bool :=
  let key := jmt_make_key 1 100 in
  let tree := jmt_put JellyfishMerkleTree_new key 42 in
  negb (assert_eq (JellyfishMerkleTree_root_hash tree) EMPTY_HASH) && is_some (JellyfishMerkleTree_get tree key).

Definition jmt_test_get_nonexistent : bool :=
  let tree := jmt_put JellyfishMerkleTree_new (jmt_make_key 1 100) 42 in
  is_none (JellyfishMerkleTree_get tree (jmt_make_key 2 200)).

Definition jmt_test_update_value : bool :=
  let key := jmt_make_key 1 100 in
  let tree := jmt_put JellyfishMerkleTree_new key 10 in
  let hash1 := JellyfishMerkleTree_get tree key in
  let tree := jmt_put tree key 20 in
  negb (assert_eq hash1 (JellyfishMerkleTree_get tree key)).

Definition jmt_test_multiple_keys : bool :=
  let keys := map (fun i => jmt_make_key i (i * 100)) (seqZ 0 10) in
  let tree := fold_left (fun tree i => jmt_put tree (jmt_make_key i (i * 100)) i) (seqZ 0 10) JellyfishMerkleTree_new in
  forallb (fun key => is_some (JellyfishMerkleTree_get tree key)) keys.

Definition jmt_test_proof_verification : bool :=
  let key := jmt_make_key 1 100 in
  let tree := jmt_put JellyfishMerkleTree_new key 42 in
  let proof := JellyfishMerkleTree_get_proof tree key in
  unwrap (JmtProof_verify_inclusion proof (sha256 (U256_to_be_bytes (U256_from_u64 42)))) (fun b => b).

Definition jmt_test_root_changes_with_updates : bool :=
  let root0 := JellyfishMerkleTree_root_hash JellyfishMerkleTree_new in
  let tree := jmt_put JellyfishMerkleTree_new (jmt_make_key 1 1) 1 in
  let root1 := JellyfishMerkleTree_root_hash tree in
  let tree := jmt_put tree (jmt_make_key 2 2) 2 in
  let root2 := JellyfishMerkleTree_root_hash tree in
  negb (assert_eq root0 root1) && negb (assert_eq root1 root2) && negb (assert_eq root0 root2).

(** ** [storage/cache.rs] *)

Abbreviation cache := (LruCacheInner string Z).

(** The calls of a test in order, with what they return; [None] is a panic. *)
Fixpoint cache_calls (ops : list (CacheOp string Z)) (c : cache) : option (cache * list (option Z)) :=
  match ops with
  | [] => Some (c, [])
  | o :: ops =>
      '(c, r) ← cache_step o c;
      '(c, rs) ← cache_calls ops c;
      Some (c, r :: rs)
  end.

Definition cache_abc : list (CacheOp string Z) := [OpPut "a"%string 1; OpPut "b"%string 2; OpPut "c"%string 3].
Definition cache_get (keys : list string) : list (CacheOp string Z) := map OpGet keys.

Definition cache_test_basic_put_get : bool :=
  unwrap (cache_calls (cache_abc ++ cache_get ["a"; "b"; "c"; "d"]%string) (LruCache_new 10)) (fun '(_, rs) =>
    assert_eq (drop 3 rs) [Some 1; Some 2; Some 3; None]).

Definition cache_test_lru_eviction : bool :=
  unwrap (cache_calls (cache_abc ++ [OpPut "d"%string 4] ++ cache_get ["a"; "b"; "c"; "d"]%string) (LruCache_new 3)) (fun '(_, rs) =>
    assert_eq (drop 4 rs) [None; Some 2; Some 3; Some 4]).

Definition cache_test_access_updates_lru : bool :=
  unwrap (cache_calls (cache_abc ++ [OpGet "a"%string; OpPut "d"%string 4] ++ cache_get ["a"; "b"; "c"; "d"]%string)
    (LruCache_new 3)) (fun '(_, rs) => assert_eq (drop 5 rs) [Some 1; None; Some 3; Some 4]).

Definition cache_test_update_existing : bool :=
  unwrap (cache_calls [OpPut "a"%string 1; OpPut "a"%string 2; OpGet "a"%string] (LruCache_new 10)) (fun '(c, rs) =>
    assert_eq (drop 1 rs) [Some 1; Some 2] && assert_eq (LruCache_len c) 1).

Definition cache_test_remove : bool :=
  unwrap (cache_calls [OpPut "a"%string 1; OpPut "b"%string 2; OpRemove "a"%string; OpGet "a"%string] (LruCache_new 10)) (fun '(c, rs) =>
    assert_eq (drop 2 rs) [Some 1; None] && assert_eq (LruCache_len c) 1).

Definition cache_test_stats : bool :=
  unwrap (cache_calls (OpPut "a"%string 1 :: cache_get ["a"; "a"; "b"]%string) (LruCache_new 10)) (fun '(c, _) =>
    let stats := LruCache_stats c in
    assert_eq (cs_hits stats) 2 && assert_eq (cs_misses stats) 1 &&
    match SpecFloat.SFcompare (CacheStats_hit_rate stats) (u64_as_f64 66) with Some Gt => true | _ => false end).

Definition cache_test_clear : bool :=
  unwrap (cache_calls [OpPut "a"%string 1; OpPut "b"%string 2; OpClear] (LruCache_new 10)) (fun '(c, _) =>
    LruCache_is_empty c &&
    unwrap (cache_calls [OpGet "a"%string] c) (fun '(_, rs) => assert_eq rs [None])).

(** ** [storage/page.rs] *)

Definition page_test_page_allocation : bool :=
  let '(store, id1) := PageStore_allocate io_ok PageStore_new in
  let '(store, id2) := PageStore_allocate io_ok store in
  let '(store, id3) := PageStore_allocate io_ok store in
  assert_eq id1 1 && assert_eq id2 2 && assert_eq id3 3 && assert_eq (PageStore_page_count store) 3.

(** [page.write(offset, data)], which must not panic. *)
Definition page_write (page : Page) (offset : Z) (data : bytes) (k : Page -> bool) : bool :=
  unwrap (Page_write page offset data) (fun '(page, _) => k page).

Definition page_test_page_read_write : bool :=
  let '(store, id) := PageStore_allocate io_ok PageStore_new in
  unwrap (PageStore_read_page io_ok store id) (fun page =>
    page_write page 0 (string_bytes "Hello, Ryther!") (fun page =>
      let store := PageStore_write_page io_ok store page in
      unwrap (PageStore_read_page io_ok store id) (fun page =>
        unwrap (Page_read page 0 14) (fun data => assert_eq data (Some (string_bytes "Hello, Ryther!")))))).

Definition page_test_dirty_tracking : bool :=
  let '(store, id) := PageStore_allocate io_ok PageStore_new in
  assert_eq (PageStore_dirty_pages store) [] &&
  unwrap (PageStore_read_page io_ok store id) (fun page =>
    page_write page 0 (string_bytes "test") (fun page =>
      let store := PageStore_write_page io_ok store page in
      assert_eq (PageStore_dirty_pages store) [id] &&
      let store := PageStore_flush io_ok store in
      assert_eq (PageStore_dirty_pages store) [])).

Definition page_test_page_free : bool :=
  let '(store, id) := PageStore_allocate io_ok PageStore_new in
  PageStore_exists io_ok store id &&
  let '(store, freed) := PageStore_free store id in
  freed && negb (PageStore_exists io_ok store id).

Definition page_test_async_page_store : bool :=
  let '(store, id) := AsyncPageStore_allocate io_ok AsyncPageStore_new in
  is_some (AsyncPageStore_read_page io_ok store id).

Definition storage_tests : list (string * bool) := [
  ("jmt::test_empty_tree"%string, jmt_test_empty_tree);
  ("jmt::test_single_insert"%string, jmt_test_single_insert);
  ("jmt::test_get_nonexistent"%string, jmt_test_get_nonexistent);
  ("jmt::test_update_value"%string, jmt_test_update_value);
  ("jmt::test_multiple_keys"%string, jmt_test_multiple_keys);
  ("jmt::test_proof_verification"%string, jmt_test_proof_verification);
  ("jmt::test_root_changes_with_updates"%string, jmt_test_root_changes_with_updates);
  ("cache::test_basic_put_get"%string, cache_test_basic_put_get);
  ("cache::test_lru_eviction"%string, cache_test_lru_eviction);
  ("cache::test_access_updates_lru"%string, cache_test_access_updates_lru);
  ("cache::test_update_existing"%string, cache_test_update_existing);
  ("cache::test_remove"%string, cache_test_remove);
  ("cache::test_stats"%string, cache_test_stats);
  ("cache::test_clear"%string, cache_test_clear);
  ("page::test_page_allocation"%string, page_test_page_allocation);
  ("page::test_page_read_write"%string, page_test_page_read_write);
  ("page::test_dirty_tracking"%string, page_test_dirty_tracking);
  ("page::test_page_free"%string, page_test_page_free);
  ("page::test_async_page_store"%string, page_test_async_page_store)
].

(** Every test of the storage layer passes on the model. *)
Theorem storage_tests_pass : failures storage_tests = [].
Proof. vm_compute. reflexivity. Qed.
