(* ===== verification/TestExecution.v ===== *)
(** * The unit tests of [src/execution] and [src/evm]

    Translated as in [TestTypes]. *)

From S2P Require Import Prelude Types Digest Transaction State Mvcc Conflict Vm Executor TestTypes.

#[local] Existing Instance std_hashes.

(** ** [execution/mvcc.rs] *)

Definition mvcc_make_key (addr slot : Z) : StateKey := mkStateKey (replicate 20 addr) (U256_from_u64 slot).

(** [assert_eq!] on what a reader sees. *)
Definition mvcc_sees (state : MultiVersionState) (key : StateKey) (reader : Z) (value : option Z) (version : Z) : bool :=
  assert_eq (MultiVersionState_read state key reader) (U256_from_u64 <$> value, version).

Definition mvcc_write (state : MultiVersionState) (key : StateKey) (seq value : Z) : MultiVersionState :=
  MultiVersionState_write state key seq (Some (U256_from_u64 value)).

Definition mvcc_test_read_write_basic : bool :=
  let key := mvcc_make_key 1 100 in
  let state := mvcc_write MultiVersionState_new key 5 500 in
  mvcc_sees state key 10 (Some 500) 5 && mvcc_sees state key 3 None 0.

Definition mvcc_base : MultiVersionState :=
  MultiVersionState_with_base_state [(mvcc_make_key 1 100, U256_from_u64 1000)].

Definition mvcc_test_base_state_fallback : bool := mvcc_sees mvcc_base (mvcc_make_key 1 100) 5 (Some 1000) 0.

Definition mvcc_test_mvcc_overrides_base : bool :=
  let key := mvcc_make_key 1 100 in
  let state := mvcc_write mvcc_base key 5 2000 in
  mvcc_sees state key 10 (Some 2000) 5 && mvcc_sees state key 3 (Some 1000) 0.

Definition mvcc_test_aborted_skipped : bool :=
  let key := mvcc_make_key 1 100 in
  let state := mvcc_write MultiVersionState_new key 5 500 in
  let state := MultiVersionState_mark_committed state key 5 in
  let state := mvcc_write state key 8 800 in
  let state := MultiVersionState_mark_aborted state key 8 in
  mvcc_sees state key 10 (Some 500) 5.

Definition mvcc_test_finalize : bool :=
  let key := mvcc_make_key 1 100 in
  let state := mvcc_write MultiVersionState_new key 5 500 in
  let state := MultiVersionState_mark_committed state key 5 in
  let state := MultiVersionState_finalize state in
  assert_eq (MultiVersionState_mvcc_key_count state) 0%nat &&
  assert_eq (MultiVersionState_get_base state key) (Some (U256_from_u64 500)).

(** Ten threads writing a hundred keys each.  A write is atomic; [schedule]
    is the order in which the threads take their turns. *)
Definition mvcc_concurrent_writes (schedule : list (Z * Z)) : MultiVersionState :=
  fold_left (fun state '(thread_id, i) =>
    mvcc_write state (mvcc_make_key thread_id i) thread_id (thread_id * 1000 + i)) schedule MultiVersionState_new.

(** One thread after the other, and all threads in turns. *)
Definition mvcc_test_concurrent_writes : bool :=
  let sequential := concat (map (fun t => map (fun i => (t, i)) (seqZ 0 100)) (seqZ 0 10)) in
  let turns := concat (map (fun i => map (fun t => (t, i)) (seqZ 0 10)) (seqZ 0 100)) in
  assert_eq (MultiVersionState_mvcc_key_count (mvcc_concurrent_writes sequential)) 1000%nat &&
  assert_eq (MultiVersionState_mvcc_key_count (mvcc_concurrent_writes turns)) 1000%nat.

(** ** [execution/conflict.rs] *)

Definition conflict_make_key (id : Z) : StateKey := mkStateKey (replicate 20 id) U256_ZERO.

Definition conflict_make_result (seq : Z) (reads : list (Z * Z)) (writes : list Z) : ExecutionResult :=
  let read_set := fold_left (fun r '(key_id, version) => ReadSet_record r (conflict_make_key key_id) None version) reads ReadSet_new in
  let write_set := fold_left (fun w key_id => WriteSet_record w (conflict_make_key key_id) (Some (U256_from_u64 seq))) writes WriteSet_new in
  mkResult seq Success read_set write_set 21000 [] [].

Definition conflict_test_no_conflict_independent_txs : bool :=
  let validation := validate_batch [conflict_make_result 0 [(1, 0)] [1]; conflict_make_result 1 [(2, 0)] [2]] in
  assert_eq (vr_committed validation) [0; 1] && assert_eq (vr_aborted validation) [].

Definition conflict_test_conflict_detected : bool :=
  let validation := validate_batch [conflict_make_result 1 [] [1]; conflict_make_result 2 [(1, 0)] [2]] in
  assert_eq (vr_committed validation) [1] && assert_eq (vr_aborted validation) [2].

Definition conflict_test_read_same_version_no_conflict : bool :=
  let validation := validate_batch [conflict_make_result 0 [] [1]; conflict_make_result 1 [(1, 0)] []] in
  assert_eq (vr_committed validation) [0; 1] && assert_eq (vr_aborted validation) [].

Definition conflict_test_cascading_scenario : bool :=
  let validation := validate_batch
    [conflict_make_result 1 [] [1]; conflict_make_result 2 [(1, 0)] [2]; conflict_make_result 3 [(3, 0)] [3]] in
  assert_eq (vr_committed validation) [1; 3] && assert_eq (vr_aborted validation) [2].

(** ** [evm/vm.rs] *)

Definition vm_make_tx (from : Z) (to : option Z) (value nonce seq : Z) : DecryptedTransaction :=
  mkTx (mkAddress (replicate 20 from)) ((fun t => mkAddress (replicate 20 t)) <$> to) (U256_from_u64 value) 100000
    (U256_from_u64 1000000000) nonce [] (replicate 32 0) seq.

(** One ETH for the sender, committed. *)
Definition vm_funded : MultiVersionState :=
  let key := balance_key (mkAddress (replicate 20 0xAA)) in
  let state := MultiVersionState_write MultiVersionState_new key 0 (Some (U256_from_u64 1000000000000000000)) in
  MultiVersionState_mark_committed state key 0.

Definition vm_run (tx : DecryptedTransaction) (state : MultiVersionState) : ExecutionResult :=
  (RytherVm_execute (RytherVm_new 1) tx state BlockContext_default).2.

Definition vm_test_vm_creation : bool := assert_eq (chain_id (RytherVm_new 1)) 1.

Definition vm_test_simple_transfer : bool :=
  let result := vm_run (vm_make_tx 0xAA (Some 0xBB) 100000000000000000 0 1) vm_funded in
  assert_eq (er_status result) Success && (21000 <=? er_gas_used result).

Definition vm_test_insufficient_balance : bool :=
  let result := vm_run (vm_make_tx 0xAA (Some 0xBB) 100000000000000000 0 1) MultiVersionState_new in
  assert_eq (er_status result) Failure.

Definition vm_test_invalid_nonce : bool :=
  let result := vm_run (vm_make_tx 0xAA (Some 0xBB) 100000000 5 1) vm_funded in
  assert_eq (er_status result) Failure.

Definition vm_test_contract_creation : bool :=
  let tx := vm_make_tx 0xAA None 0 0 1 in
  let tx := mkTx (tx_from tx) (tx_to tx) (tx_value tx) (tx_gas_limit tx) (tx_gas_price tx) (tx_nonce tx)
    [0x60; 0x00; 0x60; 0x00; 0xf3] (tx_source_commitment tx) (tx_sequence_number tx) in
  let result := vm_run tx vm_funded in
  assert_eq (er_status result) Success && negb (bool_decide (er_output result = [])).

Definition vm_test_create_address_computation : bool :=
  let sender := mkAddress (replicate 20 0) in
  negb (assert_eq (compute_create_address sender 0) (compute_create_address sender 1)) &&
  assert_eq (compute_create_address sender 0) (compute_create_address sender 0).

Definition vm_test_read_write_tracking : bool :=
  let result := vm_run (vm_make_tx 0xAA (Some 0xBB) 100000000 0 1) vm_funded in
  negb (ReadSet_is_empty (er_read_set result)) && negb (WriteSet_is_empty (er_write_set result)).

(** ** [execution/executor.rs] *)

Definition executor_make_tx (seq from to : Z) : DecryptedTransaction :=
  mkTx (mkAddress (replicate 20 from)) (Some (mkAddress (replicate 20 to))) (U256_from_u64 100) 21000
    (U256_from_u64 1000000000) 0 [] (replicate 32 0) seq.

Definition executor_make_block_context : BlockContext :=
  mkBlockContext 1 1234567890 (mkAddress (replicate 20 0)) 10000000 U256_ZERO 1.

(** A hundred ETH, summed up as the test does, and nonce 0 for each account. *)
Definition executor_make_funded_state (addresses : list Z) : MultiVersionState :=
  let eth := U256_from_u64 1000000000000000000 in
  let balance := Nat.iter 100 (fun b => U256_wrapping_add b eth) U256_ZERO in
  MultiVersionState_with_base_state
    (concat (map (fun a => [(mkStateKey (replicate 20 a) (U256_from_u64 0), balance);
                            (mkStateKey (replicate 20 a) (U256_from_u64 1), U256_ZERO)]) addresses)).

Definition executor_run (state : MultiVersionState) (txs : list DecryptedTransaction) : list ExecutionResult :=
  (ParallelExecutor_execute_batch (fun tx st => RytherVm_execute (RytherVm_new 1) tx st executor_make_block_context)
    (ExecutorConfig_default 4) txs state).2.

Definition executor_test_execute_empty_batch : bool :=
  match executor_run MultiVersionState_new [] with [] => true | _ => false end.

Definition executor_test_execute_single_tx : bool :=
  match executor_run (executor_make_funded_state [0xAA]) [executor_make_tx 0 0xAA 0xBB] with
  | [r] => assert_eq (er_tx_seq r) 0 && assert_eq (er_status r) Success
  | _ => false
  end.

Definition executor_test_execute_independent_txs : bool :=
  let results := executor_run (executor_make_funded_state [0xAA; 0xBB; 0xEE])
    [executor_make_tx 0 0xAA 0xCC; executor_make_tx 1 0xBB 0xDD; executor_make_tx 2 0xEE 0xFF] in
  assert_eq (map er_tx_seq results) [0; 1; 2].

Definition executor_test_results_ordered : bool :=
  let results := executor_run (executor_make_funded_state [0x33; 0x11; 0x22; 0x00])
    [executor_make_tx 3 0x33 0xAA; executor_make_tx 1 0x11 0xBB; executor_make_tx 2 0x22 0xCC; executor_make_tx 0 0x00 0xDD] in
  forallb (fun '(i, seq) => assert_eq seq (Z.of_nat i)) (imap (fun i r => (i, er_tx_seq r)) results).

Definition execution_tests : list (string * bool) := [
  ("mvcc::test_read_write_basic"%string, mvcc_test_read_write_basic);
  ("mvcc::test_base_state_fallback"%string, mvcc_test_base_state_fallback);
  ("mvcc::test_mvcc_overrides_base"%string, mvcc_test_mvcc_overrides_base);
  ("mvcc::test_aborted_skipped"%string, mvcc_test_aborted_skipped);
  ("mvcc::test_finalize"%string, mvcc_test_finalize);
  ("mvcc::test_concurrent_writes"%string, mvcc_test_concurrent_writes);
  ("conflict::test_no_conflict_independent_txs"%string, conflict_test_no_conflict_independent_txs);
  ("conflict::test_conflict_detected"%string, conflict_test_conflict_detected);
  ("conflict::test_read_same_version_no_conflict"%string, conflict_test_read_same_version_no_conflict);
  ("conflict::test_cascading_scenario"%string, conflict_test_cascading_scenario);
  ("vm::test_vm_creation"%string, vm_test_vm_creation);
  ("vm::test_simple_transfer"%string, vm_test_simple_transfer);
  ("vm::test_insufficient_balance"%string, vm_test_insufficient_balance);
  ("vm::test_invalid_nonce"%string, vm_test_invalid_nonce);
  ("vm::test_contract_creation"%string, vm_test_contract_creation);
  ("vm::test_create_address_computation"%string, vm_test_create_address_computation);
  ("vm::test_read_write_tracking"%string, vm_test_read_write_tracking);
  ("executor::test_execute_empty_batch"%string, executor_test_execute_empty_batch);
  ("executor::test_execute_single_tx"%string, executor_test_execute_single_tx);
  ("executor::test_execute_independent_txs"%string, executor_test_execute_independent_txs);
  ("executor::test_results_ordered"%string, executor_test_results_ordered)
].

(** The model gives the results that the tests of the execution layer expect. *)
Theorem execution_tests_pass : failures execution_tests = [].
Proof. vm_compute. reflexivity. Qed.
