(* ===== verification/TestCrypto.v ===== *)
(** * The unit tests of [src/crypto]

    Translated as in [TestTypes].  What a generator draws is fixed; the BLS
    tests are functions of the [blst] library, evaluated on the scheme of
    [Bls] and proved for every library that keeps its promises, save the
    rejection of a wrong message, which is not among them. *)

From S2P Require Import Prelude Types Digest Threshold Bls TestTypes.

#[local] Existing Instance std_hashes.
#[local] Existing Instance counting_rng.

(** ** [crypto/threshold.rs] *)

Definition threshold_make_validators (n : nat) : list ValidatorId :=
  map (fun i => mkValidatorId (replicate 48 (Z.of_nat i mod 256))) (seq 0 n).

(** [Result::unwrap] and [is_err]. *)
Definition unwrap_ok {A B} (x : A + B) (k : B -> bool) : bool := match x with inr b => k b | inl _ => false end.
Definition is_err {A B} (x : A + B) : bool := match x with inl _ => true | inr _ => false end.

Definition threshold_test_threshold_params : bool :=
  unwrap_ok (ThresholdParams_new 5 3) (fun params =>
    assert_eq (total_shares params) 5 && assert_eq (threshold params) 3) &&
  is_err (ThresholdParams_new 5 0) && is_err (ThresholdParams_new 5 6).

Definition threshold_test_bft_safe_params : bool :=
  assert_eq (threshold (ThresholdParams_bft_safe 4)) 3 && assert_eq (threshold (ThresholdParams_bft_safe 7)) 5.

Definition threshold_test_shamir_split_reconstruct : bool :=
  unwrap_ok (ThresholdParams_new 5 3) (fun params =>
    let sss := ShamirSecretSharing_with_seed params (replicate 32 42) in
    unwrap (sss_split sss (replicate 32 0xAB) (threshold_make_validators 5)) (fun '(shares, sss) =>
      assert_eq (length shares) 5%nat &&
      unwrap_ok (ShamirSecretSharing_reconstruct (sss_params sss) (take 3 shares)) (fun reconstructed =>
        assert_eq (length reconstructed) 32%nat))).

Definition threshold_test_shamir_insufficient_shares : bool :=
  unwrap_ok (ThresholdParams_new 5 3) (fun params =>
    let sss := ShamirSecretSharing_new (replicate 32 1) params in
    let shares := [mkShare 1 (replicate 32 1) (mkValidatorId (replicate 48 0));
                   mkShare 2 (replicate 32 2) (mkValidatorId (replicate 48 1))] in
    is_err (ShamirSecretSharing_reconstruct (sss_params sss) shares)).

Definition threshold_test_threshold_encryptor : bool :=
  unwrap_ok (ThresholdParams_new 5 3) (fun params =>
    let encryptor := ThresholdEncryptor_new (replicate 32 1) params in
    let plaintext := string_bytes "Hello, Ryther!" in
    unwrap (te_encrypt encryptor (replicate 32 7) (replicate 12 3) plaintext (threshold_make_validators 5)) (fun '(encrypted, _) =>
      assert_eq (length (ep_ciphertext encrypted)) (length plaintext) &&
      assert_eq (length (ep_key_shares encrypted)) 5%nat &&
      assert_eq (ep_commitment encrypted) (sha256 plaintext))).

Definition threshold_test_dkg_session : bool :=
  let dkg := DkgSession_new (replicate 32 0) (threshold_make_validators 4) in
  let '(dkg, commitments) := DkgSession_generate_contribution dkg (fun i => replicate 32 (Z.of_nat i)) in
  assert_eq (Z.of_nat (length commitments)) (threshold (dkg_params dkg)) &&
  assert_eq (size (DkgSession_generate_shares dkg)) 4%nat.

(** The test builds the shares from the payload and asserts nothing about
    them. *)
Definition threshold_test_encrypt_decrypt_roundtrip : bool :=
  unwrap_ok (ThresholdParams_new 5 3) (fun params =>
    let encryptor := ThresholdEncryptor_new (replicate 32 1) params in
    let plaintext := string_bytes "Secret transaction data for MEV protection" in
    let validators := threshold_make_validators 5 in
    unwrap (te_encrypt encryptor (replicate 32 7) (replicate 12 3) plaintext validators) (fun '(encrypted, _) =>
      forallb (fun ks => unwrap (validators !! Z.to_nat (ks_validator_index ks - 1)) (fun _ => true)) (ep_key_shares encrypted))).

(** ** [crypto/bls.rs] *)

Section bls.
Context `{Blst}.

(** The message bytes of a byte string literal. *)
Definition bls_is_ok {A} (r : A + BlsError) : bool := match r with inl _ => true | inr _ => false end.

(** [ikm] is what the generator draws for a key. *)
Definition bls_test_sign_verify (ikm : bytes) : bool :=
  unwrap (SecretKey_generate ikm) (fun sk =>
    let message := string_bytes "Hello, Ryther!" in
    bls_is_ok (PublicKey_verify (SecretKey_public_key sk) (SecretKey_sign sk message) message)).

Definition bls_test_invalid_signature (ikm : bytes) : bool :=
  unwrap (SecretKey_generate ikm) (fun sk =>
    let signature := SecretKey_sign sk (string_bytes "Hello, Ryther!") in
    negb (bls_is_ok (PublicKey_verify (SecretKey_public_key sk) signature (string_bytes "Wrong message")))).

Definition bls_test_aggregate_signatures (ikm1 ikm2 ikm3 : bytes) : bool :=
  unwrap (SecretKey_generate ikm1) (fun sk1 => unwrap (SecretKey_generate ikm2) (fun sk2 => unwrap (SecretKey_generate ikm3) (fun sk3 =>
    let msg1 := string_bytes "Message 1" in
    let msg2 := string_bytes "Message 2" in
    let msg3 := string_bytes "Message 3" in
    match AggregateSignature_aggregate [SecretKey_sign sk1 msg1; SecretKey_sign sk2 msg2; SecretKey_sign sk3 msg3] with
    | inl agg => bls_is_ok (verify_aggregate agg (map SecretKey_public_key [sk1; sk2; sk3]) [msg1; msg2; msg3])
    | inr _ => false
    end))).

Definition bls_test_key_serialization (ikm : bytes) : bool :=
  unwrap (SecretKey_generate ikm) (fun sk =>
    match SecretKey_from_bytes (SecretKey_to_bytes sk), PublicKey_from_bytes (PublicKey_to_bytes (SecretKey_public_key sk)) with
    | inl sk2, inl pk2 =>
        let message := string_bytes "Test message" in
        bls_is_ok (PublicKey_verify pk2 (SecretKey_sign sk2 message) message)
    | _, _ => false
    end).
End bls.

(** With any library that keeps its promises, the tests pass for all keys. *)
Theorem bls_tests_pass_any `{BlstOk} (ikm ikm2 ikm3 : bytes) :
  is_Some (key_gen ikm []) -> is_Some (key_gen ikm2 []) -> is_Some (key_gen ikm3 []) ->
  bls_test_sign_verify ikm = true /\ bls_test_aggregate_signatures ikm ikm2 ikm3 = true /\ bls_test_key_serialization ikm = true.
Proof.
  intros [k1 E1] [k2 E2] [k3 E3].
  unfold bls_test_sign_verify, bls_test_aggregate_signatures, bls_test_key_serialization, SecretKey_generate.
  rewrite E1, E2, E3. cbn [fmap option_fmap option_map unwrap]. split_and!.
  - unfold PublicKey_verify, SecretKey_sign, SecretKey_public_key. cbn [sig_inner pk_inner sk_inner]. by rewrite sign_verify.
  - destruct (aggregate_verify [(k1, string_bytes "Message 1"); (k2, string_bytes "Message 2"); (k3, string_bytes "Message 3")] DST)
      as (agg & Hagg & Hv); [done|]. unfold AggregateSignature_aggregate, SecretKey_sign.
    cbn [fmap list_fmap sig_inner sk_inner] in *. cbn [fst snd] in Hagg, Hv. rewrite Hagg. cbn [map_result].
    unfold verify_aggregate, SecretKey_public_key. cbn [length Nat.eqb map fmap list_fmap pk_inner sk_inner sig_inner]. by rewrite Hv.
  - unfold SecretKey_from_bytes, SecretKey_to_bytes, PublicKey_from_bytes, PublicKey_to_bytes, SecretKey_public_key.
    cbn [sk_inner pk_inner]. rewrite sk_bytes_roundtrip, pk_bytes_roundtrip. cbn [map_result].
    unfold PublicKey_verify, SecretKey_sign. cbn [sig_inner pk_inner sk_inner]. by rewrite sign_verify.
Qed.

Lemma bls_tests_pass_any_witness : @bls_test_sign_verify toy_blst [1] = true.
Proof. apply (@bls_tests_pass_any toy_blst toy_blst_ok [1] [2] [3]); eauto. Defined.

Definition crypto_tests : list (string * bool) := [
  ("threshold::test_threshold_params"%string, threshold_test_threshold_params);
  ("threshold::test_bft_safe_params"%string, threshold_test_bft_safe_params);
  ("threshold::test_shamir_split_reconstruct"%string, threshold_test_shamir_split_reconstruct);
  ("threshold::test_shamir_insufficient_shares"%string, threshold_test_shamir_insufficient_shares);
  ("threshold::test_threshold_encryptor"%string, threshold_test_threshold_encryptor);
  ("threshold::test_dkg_session"%string, threshold_test_dkg_session);
  ("threshold::test_encrypt_decrypt_roundtrip"%string, threshold_test_encrypt_decrypt_roundtrip);
  ("bls::test_sign_verify"%string, @bls_test_sign_verify toy_blst [1]);
  ("bls::test_invalid_signature"%string, @bls_test_invalid_signature toy_blst [1]);
  ("bls::test_aggregate_signatures"%string, @bls_test_aggregate_signatures toy_blst [1] [2] [3]);
  ("bls::test_key_serialization"%string, @bls_test_key_serialization toy_blst [1])
].

(** The model gives the results that the tests of the cryptographic layer
    expect, with a generator that keeps [RngOk] and a library that keeps
    [BlstOk]. *)
Theorem crypto_tests_pass : failures crypto_tests = [].
Proof. vm_compute. reflexivity. Qed.
