(* ===== verification/TestNetwork.v ===== *)
(** * The unit tests of [src/network]

    Translated as in [TestTypes].  What the tests draw from the random
    generator (message ids), the codec and the outcome of connecting are
    arguments, and [network_tests_pass_any] says for which of them the tests
    pass. *)

From S2P Require Import Prelude Types Digest Transaction Event Dag Block Peer Gossip Transport App TestTypes.

#[local] Existing Instance std_hashes.

Definition make_peer_id (id : Z) : PeerId := first_byte 32 id.
Definition make_addr (port : Z) : SocketAddr := mkAddr [127; 0; 0; 1] port.

(** ** [network/message.rs] *)

Section message.
Context `{Bincode}.

Definition message_make_peer_id : PeerId := replicate 32 0x42.

Definition message_test_message_serialization (id : bytes) : bool :=
  let msg := NetworkMessage_new id message_make_peer_id (Ping 12345) in
  let bytes := NetworkMessage_to_bytes msg in
  unwrap (NetworkMessage_from_bytes bytes) (fun recovered =>
    assert_eq (nm_sender recovered) (nm_sender msg) && assert_eq (nm_message_id recovered) (nm_message_id msg)).

Definition message_hello (id : bytes) : NetworkMessage :=
  NetworkMessage_new id message_make_peer_id (Hello (mkHello 1 1 (replicate 32 0xAB) None 100)).

Definition message_test_hello_message (id : bytes) : bool :=
  let bytes := NetworkMessage_to_bytes (message_hello id) in
  negb (bool_decide (bytes = [])) &&
  unwrap (NetworkMessage_from_bytes bytes) (fun recovered =>
    match nm_payload recovered with
    | Hello h => assert_eq (hello_chain_id h) 1 && assert_eq (hello_latest_round h) 100
    | _ => false
    end).
End message.

Definition message_test_unique_message_ids (id1 id2 : bytes) : bool :=
  let m1 := NetworkMessage_new id1 message_make_peer_id (Ping 1) in
  let m2 := NetworkMessage_new id2 message_make_peer_id (Ping 2) in
  negb (assert_eq (nm_message_id m1) (nm_message_id m2)).

(** ** [network/peer.rs] *)

Definition peer_manager (max : nat) : PeerManager := PeerManager_new (make_peer_id 0) max.

Definition peer_test_add_peer (now : Z) : bool :=
  let '(manager, added) := PeerManager_add_peer now (peer_manager 100) (make_peer_id 1) (make_addr 8000) in
  added && assert_eq (PeerManager_peer_count manager) 1%nat.

Definition peer_test_no_self_connect (now : Z) : bool :=
  let '(manager, added) := PeerManager_add_peer now (peer_manager 100) (make_peer_id 0) (make_addr 8000) in
  negb added && assert_eq (PeerManager_peer_count manager) 0%nat.

Definition peer_test_connected_peers (now : Z) : bool :=
  let peer1 := make_peer_id 1 in
  let peer2 := make_peer_id 2 in
  let manager := (PeerManager_add_peer now (peer_manager 100) peer1 (make_addr 8001)).1 in
  let manager := (PeerManager_add_peer now manager peer2 (make_addr 8002)).1 in
  let manager := PeerManager_set_state now manager peer1 Connected in
  assert_eq (PeerManager_connected_count manager) 1%nat.

Definition peer_test_reputation (now : Z) : bool :=
  let peer_id := make_peer_id 1 in
  let manager := (PeerManager_add_peer now (peer_manager 100) peer_id (make_addr 8000)).1 in
  let manager := PeerManager_reward_peer manager peer_id 10 in
  unwrap (PeerManager_get_peer manager peer_id) (fun p => assert_eq (pi_reputation p) 10) &&
  let manager := PeerManager_penalize_peer manager peer_id 5 in
  unwrap (PeerManager_get_peer manager peer_id) (fun p => assert_eq (pi_reputation p) 5).

Definition peer_test_max_peers (now : Z) : bool :=
  let '(manager, added1) := PeerManager_add_peer now (peer_manager 2) (make_peer_id 1) (make_addr 8001) in
  let '(manager, added2) := PeerManager_add_peer now manager (make_peer_id 2) (make_addr 8002) in
  let '(manager, added3) := PeerManager_add_peer now manager (make_peer_id 3) (make_addr 8003) in
  added1 && added2 && negb added3 && assert_eq (PeerManager_peer_count manager) 2%nat.

(** ** [network/gossip.rs] *)

Definition gossip_make_event (creator round : Z) : DagEvent :=
  mkEvent (sha256 [creator; round mod 256]) (mkValidatorId (first_byte 48 creator)) round round [] []
    EncryptedBatch_empty BlsSignature_default.

Definition gossip_over (peers : PeerManager) (dag : DagStore) : GossipProtocol :=
  GossipProtocol_new (make_peer_id 0) peers dag GossipConfig_default.

Definition gossip_test_gossip_creation : bool :=
  let gossip := gossip_over (peer_manager 100) DagStore_new in
  assert_eq (GossipProtocol_pending_fetch_count gossip) 0%nat.

Definition gossip_test_broadcast_event (now : Z) (message_ids : nat -> bytes) : bool :=
  let peers := fold_left (fun peers i =>
      PeerManager_set_state now (PeerManager_add_peer now peers (make_peer_id i) (make_addr 8000)).1 (make_peer_id i) Connected)
    (seqZ 1 5) (peer_manager 100) in
  let event := gossip_make_event 0 1 in
  let '(gossip, messages) := GossipProtocol_broadcast_event message_ids (gossip_over peers DagStore_new) event in
  negb (length messages =? 0)%nat && DagStore_contains (g_dag gossip) (ev_id event).

Definition gossip_test_deduplication (now : Z) : bool :=
  let gossip := gossip_over (peer_manager 100) DagStore_new in
  let msg_id := replicate 16 0xAB in
  negb (GossipProtocol_is_seen gossip msg_id) &&
  GossipProtocol_is_seen (GossipProtocol_mark_seen now gossip msg_id) msg_id.

Definition gossip_test_event_request_response (reply_id : bytes) : bool :=
  let event := gossip_make_event 1 1 in
  let gossip := gossip_over (peer_manager 100) (DagStore_insert DagStore_new event) in
  unwrap (GossipProtocol_handle_event_request reply_id gossip (mkRequest [ev_id event])) (fun response =>
    match nm_payload response with
    | MsgEventResponse resp => assert_eq (length (rs_events resp)) 1%nat && assert_eq (rs_missing resp) []
    | _ => false
    end).

(** ** [network/transport.rs] *)

Definition transport_test_transport_creation : bool :=
  let config := mkTransportConfig (make_addr 0) (max_message_size TransportConfig_default) (connect_timeout_ms TransportConfig_default) in
  let transport := TcpTransport_new (make_peer_id 0) (peer_manager 100) config in
  assert_eq (TcpTransport_connection_count transport) 0%nat && (TcpTransport_take_receiver transport).2.

(** Nothing listens at the port: connecting fails or times out. *)
Definition transport_test_connect_nonexistent (now : Z) (outcome : ConnectOutcome) : bool :=
  let config := mkTransportConfig (make_addr 0) (max_message_size TransportConfig_default) 100 in
  let transport := TcpTransport_new (make_peer_id 0) (peer_manager 100) config in
  match (TcpTransport_connect now transport (make_peer_id 1) (make_addr 59999) outcome).2 with
  | inr _ => true
  | inl _ => false
  end.

(** ** The suite *)

(** What the environment gives to the tests: the clock, three message ids, the
    ids of the broadcast and the failure of the connection. *)
Record NetworkEnv := mkNetworkEnv {
  env_now : Z;
  env_id1 : bytes;
  env_id2 : bytes;
  env_ids : nat -> bytes;
  env_connect : ConnectOutcome
}.

Definition network_tests `{Bincode} (env : NetworkEnv) : list (string * bool) := [
  ("message::test_message_serialization"%string, message_test_message_serialization (env_id1 env));
  ("message::test_hello_message"%string, message_test_hello_message (env_id2 env));
  ("message::test_unique_message_ids"%string, message_test_unique_message_ids (env_id1 env) (env_id2 env));
  ("peer::test_add_peer"%string, peer_test_add_peer (env_now env));
  ("peer::test_no_self_connect"%string, peer_test_no_self_connect (env_now env));
  ("peer::test_connected_peers"%string, peer_test_connected_peers (env_now env));
  ("peer::test_reputation"%string, peer_test_reputation (env_now env));
  ("peer::test_max_peers"%string, peer_test_max_peers (env_now env));
  ("gossip::test_gossip_creation"%string, gossip_test_gossip_creation);
  ("gossip::test_broadcast_event"%string, gossip_test_broadcast_event (env_now env) (env_ids env));
  ("gossip::test_deduplication"%string, gossip_test_deduplication (env_now env));
  ("gossip::test_event_request_response"%string, gossip_test_event_request_response (env_id1 env));
  ("transport::test_transport_creation"%string, transport_test_transport_creation);
  ("transport::test_connect_nonexistent"%string, transport_test_connect_nonexistent (env_now env) (env_connect env))
].

(** An environment in which the tests mean something: the codec writes the two
    messages, the random ids differ, and the connection is refused. *)
Record env_ok `{Bincode} (env : NetworkEnv) : Prop := {
  env_ping : is_Some (bincode_serialize (NetworkMessage_new (env_id1 env) message_make_peer_id (Ping 12345)));
  env_hello : exists b, b <> [] /\ bincode_serialize (message_hello (env_id2 env)) = Some b;
  env_fresh : env_id1 env <> env_id2 env;
  env_refused : env_connect env <> ConnectOk
}.

Lemma assert_eq_refl {A} `{EqDecision A} (x : A) : assert_eq x x = true.
Proof. unfold assert_eq. by apply bool_decide_eq_true. Qed.

(** The codec's promise reaches the interface of [NetworkMessage]. *)
Lemma message_reads_back `{BincodeOk} (m : NetworkMessage) (b : bytes) :
  bincode_serialize m = Some b -> NetworkMessage_from_bytes (NetworkMessage_to_bytes m) = Some m.
Proof. intros E. unfold NetworkMessage_to_bytes, NetworkMessage_from_bytes. rewrite E. by apply bincode_roundtrip. Qed.

Section any.
Context `{BincodeOk} (env : NetworkEnv) (Henv : env_ok env).

Lemma message_tests_pass :
  message_test_message_serialization (env_id1 env) = true /\ message_test_hello_message (env_id2 env) = true /\
  message_test_unique_message_ids (env_id1 env) (env_id2 env) = true.
Proof.
  destruct Henv as [[bp Hp] (bh & Hne & Hh) Hfresh _]. split_and!.
  - unfold message_test_message_serialization. rewrite (message_reads_back _ _ Hp). cbn [unwrap]. by rewrite !assert_eq_refl.
  - unfold message_test_hello_message. rewrite (message_reads_back _ _ Hh).
    unfold NetworkMessage_to_bytes. rewrite Hh. cbn [default from_option].
    rewrite bool_decide_eq_false_2 by done. reflexivity.
  - unfold message_test_unique_message_ids, assert_eq. by rewrite bool_decide_eq_false_2.
Qed.

Lemma connect_test_passes : transport_test_connect_nonexistent (env_now env) (env_connect env) = true.
Proof. destruct Henv as [_ _ _ Hc]. by destruct (env_connect env). Qed.
End any.

(** The tests of the network layer pass with every codec that reads back what
    it writes, at every time, for all message ids that differ, and whichever
    way the connection is refused. *)
Theorem network_tests_pass `{BincodeOk} (env : NetworkEnv) : env_ok env -> failures (network_tests env) = [].
Proof.
  intros Henv. destruct (message_tests_pass env Henv) as (E1 & E2 & E3).
  unfold network_tests. rewrite E1, E2, E3, (connect_test_passes env Henv). vm_compute. reflexivity.
Qed.

Definition sample_env : NetworkEnv := mkNetworkEnv 7 (gossip_ids 1) (gossip_ids 2) gossip_ids ConnectTimeout.

Definition sample_codec : Bincode :=
  table_codec [NetworkMessage_new (gossip_ids 1) message_make_peer_id (Ping 12345); message_hello (gossip_ids 2)].

Lemma network_tests_pass_witness :
  @env_ok sample_codec sample_env /\ failures (@network_tests sample_codec sample_env) = [].
Proof.
  assert (Hok : @env_ok sample_codec sample_env).
  { split; [vm_compute; eauto| |vm_compute; discriminate|discriminate].
    exists [1]. split; [discriminate|]. vm_compute. reflexivity. }
  split; [exact Hok|]. exact (@network_tests_pass sample_codec (table_codec_ok _) sample_env Hok).
Defined.
