(* ===== verification/TestNode.v ===== *)
(** * The unit tests of [src/node]

    Translated as in [TestTypes].  The node's random peer id, the number of
    processors, the clock and the configuration's JSON text are arguments, and
    [node_tests_pass] says for which of them the tests pass. *)

From S2P Require Import Prelude Types Digest Transaction Mempool Block Peer Gossip Transport Node Rpc App.
From S2P Require Import TestTypes TestStorage TestExecution TestCrypto TestNetwork.

#[local] Existing Instance std_hashes.
#[local] Existing Instance plain_hex.

(** ** [node/node.rs] *)

#[global] Instance NodeState_eq_dec : EqDecision NodeState.
Proof. solve_decision. Defined.

Section node_rs.
Context {SecretKey : Type} `{Bls SecretKey}.

Definition node_default (peer_id : PeerId) (num_cpus : nat) (now : Z) : option (RytherNode SecretKey) :=
  RytherNode_new peer_id num_cpus now (NodeConfig_default num_cpus) None.

Definition node_test_node_creation (peer_id : PeerId) (num_cpus : nat) (now : Z) : bool :=
  unwrap (node_default peer_id num_cpus now) (fun node => negb (forallb (fun b => b =? 0) (n_peer_id node))).

Definition node_test_node_state (peer_id : PeerId) (num_cpus : nat) (now : Z) : bool :=
  unwrap (node_default peer_id num_cpus now) (fun node => assert_eq (RytherNode_state node) Starting).

Definition node_test_node_stats (peer_id : PeerId) (num_cpus : nat) (now : Z) : bool :=
  unwrap (node_default peer_id num_cpus now) (fun node =>
    let stats := RytherNode_stats node in
    assert_eq (events_created stats) 0 && assert_eq (rounds_committed stats) 0).
End node_rs.

(** ** [node/blocks.rs] *)

Definition blocks_test_insert_and_get_block : bool :=
  let block := Block_genesis 1 in
  let store := BlockStore_insert_block BlockStore_new block in
  is_some (BlockStore_get_by_number store 0) && is_some (BlockStore_get_by_hash store (bl_hash block)) &&
  assert_eq (BlockStore_latest_number store) 0.

Definition blocks_test_latest_tracking : bool :=
  let store := BlockStore_insert_block BlockStore_new (Block_genesis 1) in
  assert_eq (BlockStore_latest_number store) 0 &&
  let block1 := Block_from_round 1 (replicate 32 0) (replicate 32 1) [] [] Address_zero 0 100 in
  let store := BlockStore_insert_block store block1 in
  assert_eq (BlockStore_latest_number store) 1 &&
  let block2 := Block_from_round 2 (replicate 32 0) (replicate 32 2) [] [] Address_zero 0 200 in
  let store := BlockStore_insert_block store block2 in
  assert_eq (BlockStore_latest_number store) 2.

(** ** [node/config.rs] *)

Definition config_test_default_config (num_cpus : nat) : bool :=
  let config := NodeConfig_default num_cpus in
  assert_eq (cc_chain_id (nc_chain config)) 1 && assert_eq (nc_max_peers (nc_network config)) 50%nat &&
  rc_enabled (nc_rpc config) && negb (NodeConfig_is_validator config).

(** [to_string] is the compact text of [serde_json]; the program itself writes
    the pretty one. *)
Definition config_test_config_serialization `{ConfigJson} (to_string : NodeConfig -> string + string) (num_cpus : nat) : bool :=
  let config := NodeConfig_default num_cpus in
  match to_string config with
  | inr _ => false
  | inl json =>
      match config_from_str json with
      | inr _ => false
      | inl recovered => assert_eq (cc_chain_id (nc_chain config)) (cc_chain_id (nc_chain recovered))
      end
  end.

(** ** [node/mempool.rs] *)

Definition mempool_make_tx (id gas_price : Z) : EncryptedTransaction * U256 :=
  (mkEncryptedTx [id] capsule_default (replicate 32 id), U256_from_u64 gas_price).

(** [pool.add(make_tx(id, p).0, make_tx(id, p).1)]. *)
Definition mempool_add (now : Z) (pool : TransactionPool) (id gas_price : Z) : TransactionPool * (PoolError + unit) :=
  let '(tx, price) := mempool_make_tx id gas_price in TransactionPool_add pool tx price now.

#[global] Instance PoolError_eq_dec : EqDecision PoolError.
Proof. solve_decision. Defined.

Definition mempool_test_add_transaction (now : Z) : bool :=
  let '(pool, r) := mempool_add now (TransactionPool_new 100) 1 1000 in
  assert_eq r (inr ()) && assert_eq (TransactionPool_len pool) 1%nat.

Definition mempool_test_duplicate_rejection (now : Z) : bool :=
  let '(pool, r1) := mempool_add now (TransactionPool_new 100) 1 1000 in
  let '(pool, r2) := mempool_add now pool 1 1000 in
  assert_eq r1 (inr ()) && assert_eq r2 (inl AlreadyKnown).

Definition mempool_test_best_by_price (now : Z) : bool :=
  let '(pool, r1) := mempool_add now (TransactionPool_new 100) 1 100 in
  let '(pool, r2) := mempool_add now pool 2 300 in
  let '(pool, r3) := mempool_add now pool 3 200 in
  assert_eq [r1; r2; r3] [inr (); inr (); inr ()] &&
  assert_eq (map pt_gas_price (TransactionPool_best pool 2)) [U256_from_u64 300; U256_from_u64 200].

Definition mempool_test_pool_capacity (now : Z) : bool :=
  let '(pool, r1) := mempool_add now (TransactionPool_new 2) 1 100 in
  let '(pool, r2) := mempool_add now pool 2 200 in
  let '(pool, r3) := mempool_add now pool 3 300 in
  assert_eq [r1; r2; r3] [inr (); inr (); inr ()] && assert_eq (TransactionPool_len pool) 2%nat &&
  let '(pool, r4) := mempool_add now pool 4 50 in
  assert_eq r4 (inl PoolFull).

Definition mempool_test_remove (now : Z) : bool :=
  let commitment := etx_commitment (mempool_make_tx 1 1000).1 in
  let '(pool, r) := mempool_add now (TransactionPool_new 100) 1 1000 in
  assert_eq r (inr ()) && TransactionPool_contains pool commitment &&
  let pool := (TransactionPool_remove pool commitment).1 in
  is_none (TransactionPool_get pool commitment).

(** ** [node/rpc.rs] *)

(** [json!(1)], the id of the requests. *)
Definition rpc_one : Value := VNumber (PosInt 1).

Definition rpc_test_rpc_response_success : bool :=
  let response := RpcResponse_success rpc_one (VString "result") in
  is_some (resp_result response) && is_none (resp_error response) && assert_eq (resp_jsonrpc response) "2.0"%string.

Definition rpc_test_rpc_response_error : bool :=
  let response := RpcResponse_error rpc_one (-32600) "Invalid Request" in
  is_none (resp_result response) && unwrap (resp_error response) (fun e => assert_eq (err_code e) (-32600)).

Definition rpc_test_parse_hash_param : bool :=
  let params := Some (VArray [VString "0x0000000000000000000000000000000000000000000000000000000000000000"]) in
  match parse_hash_param params with inl hash => assert_eq hash (replicate 32 0) | inr _ => false end.

Definition rpc_test_parse_block_params : bool :=
  match parse_block_params (Some (VArray [VString "latest"; VBool true])) with
  | Return (inl (BlockTag _, full_tx)) => full_tx
  | _ => false
  end.

Definition rpc_test_eth_chain_id : bool := is_some (resp_result (eth_chain_id rpc_one)).

(** [str::contains]. *)
Fixpoint contains (pat s : string) : bool :=
  String.prefix pat s || match s with EmptyString => false | String _ s => contains pat s end.

Definition rpc_test_web3_client_version : bool :=
  unwrap (resp_result (web3_client_version rpc_one)) (fun v => unwrap (as_str v) (contains "Ryther")).

(** ** The suite *)

Record NodeEnv := mkNodeEnv {
  env_peer_id : PeerId;
  env_cpus : nat;
  env_clock : Z;
  env_to_string : NodeConfig -> string + string
}.

Definition node_tests {SecretKey} `{Bls SecretKey} `{ConfigJson} (env : NodeEnv) : list (string * bool) := [
  ("node::test_node_creation"%string, node_test_node_creation (env_peer_id env) (env_cpus env) (env_clock env));
  ("node::test_node_state"%string, node_test_node_state (env_peer_id env) (env_cpus env) (env_clock env));
  ("node::test_node_stats"%string, node_test_node_stats (env_peer_id env) (env_cpus env) (env_clock env));
  ("blocks::test_insert_and_get_block"%string, blocks_test_insert_and_get_block);
  ("blocks::test_latest_tracking"%string, blocks_test_latest_tracking);
  ("config::test_default_config"%string, config_test_default_config (env_cpus env));
  ("config::test_config_serialization"%string, config_test_config_serialization (env_to_string env) (env_cpus env));
  ("mempool::test_add_transaction"%string, mempool_test_add_transaction (env_clock env));
  ("mempool::test_duplicate_rejection"%string, mempool_test_duplicate_rejection (env_clock env));
  ("mempool::test_best_by_price"%string, mempool_test_best_by_price (env_clock env));
  ("mempool::test_pool_capacity"%string, mempool_test_pool_capacity (env_clock env));
  ("mempool::test_remove"%string, mempool_test_remove (env_clock env));
  ("rpc::test_rpc_response_success"%string, rpc_test_rpc_response_success);
  ("rpc::test_rpc_response_error"%string, rpc_test_rpc_response_error);
  ("rpc::test_parse_hash_param"%string, rpc_test_parse_hash_param);
  ("rpc::test_parse_block_params"%string, rpc_test_parse_block_params);
  ("rpc::test_eth_chain_id"%string, rpc_test_eth_chain_id);
  ("rpc::test_web3_client_version"%string, rpc_test_web3_client_version)
].

(** What the tests need of it: an id that is not all zeros, and a text of the
    default configuration that is read back. *)
Record node_env_ok `{ConfigJson} (env : NodeEnv) : Prop := {
  env_nonzero : Exists (fun b => b <> 0) (env_peer_id env);
  env_text : exists json, env_to_string env (NodeConfig_default (env_cpus env)) = inl json /\
    config_from_str json = inl (NodeConfig_default (env_cpus env))
}.

(** The tests of the node pass for every random peer id but zero, every number
    of processors, every time, every key library and every JSON text that is
    read back. *)
Theorem node_tests_pass {SecretKey} `{Bls SecretKey} `{ConfigJson} (env : NodeEnv) :
  node_env_ok env -> failures (node_tests env) = [].
Proof.
  intros [Hid (json & Hjson & Hread)].
  assert (Hcreate : node_test_node_creation (env_peer_id env) (env_cpus env) (env_clock env) = true).
  { unfold node_test_node_creation. cbn. apply negb_true_iff, not_true_iff_false. rewrite forallb_forall.
    intros Hall. apply Exists_exists in Hid as (b & Hin & Hb). apply Hb, Z.eqb_eq, Hall, list_elem_of_In, Hin. }
  assert (Hser : config_test_config_serialization (env_to_string env) (env_cpus env) = true).
  { unfold config_test_config_serialization. rewrite Hjson, Hread. apply assert_eq_refl. }
  unfold node_tests. rewrite Hcreate, Hser. vm_compute. reflexivity.
Qed.

(** A codec of the default configuration of a machine with four processors. *)
Definition sample_json : ConfigJson := {|
  config_to_string_pretty := fun _ => inl "default"%string;
  config_from_str := fun _ => inl (NodeConfig_default 4)
|}.

Definition sample_node_env : NodeEnv := mkNodeEnv (make_peer_id 1) 4 0 (fun _ => inl "default"%string).

Lemma node_tests_pass_witness :
  @node_env_ok sample_json sample_node_env /\ failures (@node_tests _ plain_keys sample_json sample_node_env) = [].
Proof.
  assert (Hok : @node_env_ok sample_json sample_node_env).
  { split; [by left|]. by exists "default"%string. }
  split; [exact Hok|]. exact (@node_tests_pass _ plain_keys sample_json sample_node_env Hok).
Defined.

(** ** All unit tests *)

Definition unit_tests {SecretKey} `{Bincode} `{Bls SecretKey} `{ConfigJson} (net : NetworkEnv) (env : NodeEnv) : list (string * bool) :=
  types_tests ++ storage_tests ++ execution_tests ++ crypto_tests ++ network_tests net ++ node_tests env.

Lemma failures_app a b : failures (a ++ b) = failures a ++ failures b.
Proof. unfold failures. by rewrite filter_app, map_app. Qed.

(** The model passes the program's own unit tests, all of them: on the
    inputs of the tests, with the real SHA-256 and Keccak-256, every assertion
    holds, for every codec that keeps its promise and whatever the clock, the
    random ids, the processors and the refused connection are. *)
Theorem unit_tests_pass {SecretKey} `{BincodeOk} `{Bls SecretKey} `{ConfigJson} (net : NetworkEnv) (env : NodeEnv) :
  env_ok net -> node_env_ok env -> failures (unit_tests net env) = [].
Proof.
  intros Hnet Henv. unfold unit_tests. rewrite !failures_app.
  by rewrite types_tests_pass, storage_tests_pass, execution_tests_pass, crypto_tests_pass, (network_tests_pass net Hnet),
    (node_tests_pass env Henv).
Qed.

Lemma unit_tests_pass_witness :
  failures (@unit_tests _ sample_codec plain_keys sample_json sample_env sample_node_env) = [].
Proof.
  apply (@unit_tests_pass _ sample_codec (table_codec_ok _) plain_keys sample_json).
  - split; [vm_compute; eauto| |vm_compute; discriminate|discriminate].
    exists [1]. split; [discriminate|]. vm_compute. reflexivity.
  - split; [by left|]. by exists "default"%string.
Defined.
